(* ===== verification/_CoqProject ===== *)
-Q . S2P
Prelude.v
GoStrings.v
GoSort.v
InfDec.v
InfRound.v
InfText.v
InfTypes.v
RadixTree.v
RadixPatterns.v
RadixInsert.v
RadixBuild.v
RadixTables.v
SlashRedirect.v
CleanPath.v
CaseLookup.v
Semver.v
SemverRange.v
Page.v
Versions.v
Api.v
GoRegexp.v
Float64.v
FloatRound.v
Ratelimit.v
Contexts.v
ContextSteps.v
KubeUtil.v
Ages.v
Client.v
Render.v
Percentages.v
PodActions.v
Http.v
Handlers.v
Demo.v
Routes.v
Router.v
RouteListing.v
Binding.v
Safety.v
Server.v
HandlerSpec.v
Concurrent.v
Races.v
Engine.v
Requests.v
Serving.v
Frontend.v
Gin.v
Scope.v
Console.v
