(* ===== verification/Prelude.v ===== *)
(** * Kubecon, the Sigma console: a verification development

    ** The program

    Kubecon is a web console for a Kubernetes cluster, written in Go.  main.go holds the
    start-up, over forty request handlers and the functions that turn API objects into
    rows of pages; pkg/page the rows, their filters and sorts and the order of image
    tags; pkg/kube the texts shown for ages, ports, services and endpoints and the
    resource totals; pkg/kubeclient the configuration and the API client made from it.
    The vendored gin framework routes a request through a radix tree to a handler chain
    (logger, recovery, basic authentication, handler) and runs it; the vendored semver
    package orders image tags; the vendored inf package has the decimals behind resource
    quantities; the vendored context package, whose interface the context of gin
    implements, carries cancellation and deadlines.

    A request flows like this: [Frontend.ServeHTTP] finds the chain of the request's path
    (Router.v), [Engine.Next] runs the chain, logger and recovery around authentication
    around the handler (Serving.v); the handler (Handlers.v) reads the request's
    parameters, issues commands to the API server, the registry, the clock
    and the configuration (Client.v), turns the answers into rows (Render.v, which calls
    KubeUtil.v, Page.v and Versions.v) or edits pods (PodActions.v), and ends in a
    response, which the engine writes to the connection.  Requests run concurrently
    (Concurrent.v).

    ** The files

    - Prelude.v (this file): outcomes of Go code ([go]: a value, a panic or a fatal log;
      [result]: a value or an error) with their notation, indexing and slicing with Go's
      bounds checks, maps that may be nil, tactics and the shared hint database.
    - GoStrings.v: packages strings and strconv as far as used; strings are byte strings.
    - GoSort.v: comparison orders, sort.Sort and the iteration order of maps, as
      interfaces ([GoSort], [MapRange]) with the laws the language documents
      ([GoSortLaws], [MapRangeLaws]) and executable instances.
    - Float64.v: binary64 arithmetic; FloatRound.v: how its operations round.
    - GoRegexp.v: the three regular expressions of main.go and the matcher that runs them.
    - Semver.v: Version, PRVersion, Parse, String and Compare of the semver package;
      SemverRange.v: its ranges, validation, sorting and database adapter.
    - InfDec.v, InfRound.v, InfText.v, InfTypes.v: dec.go and rounder.go of the inf
      package.  Decimals live in a store and operations take pointers, because results
      may alias operands; InfDec.v has the arithmetic, InfRound.v the theorems on division
      and rounding, InfText.v text and gob encoding, InfTypes.v the typing of all of it.
    - Page.v and Versions.v: pkg/page (types.go, algorithm.go) and the tag selection of
      getImageTags and showPodsForm in main.go.
    - Api.v: the records of API objects the console uses and the interface [KubeApi] to
      k8s.io/kubernetes, which is not in the repository.
    - KubeUtil.v: pkg/kube/util.go; Ages.v: the exactness of the ages it shows.
    - Client.v: the commands, the type [prog] of programs over them with its trace
      semantics [exec] and its interpreter [run], and pkg/kubeclient/helper.go.
    - Render.v: the gen* and compute* functions of main.go; Percentages.v: the exactness of
      the percentages they show.
    - PodActions.v: setPodImage, stopPod, startPod and syncPod of main.go.
    - Http.v: the request accessors, basic authentication and recovery of gin.
    - Handlers.v: every handler of main.go, whole.
    - Demo.v: executable instances of the interfaces, on which the witnesses run.
    - Routes.v: the accounts and the route table of main.
    - RadixTree.v and Router.v: tree.go of gin, the registration of the routes of main
      (routergroup.go, gin.go, utils.go) and the lookup of a request.
    - RadixPatterns.v: patterns of paths, which paths are valid and which routes
      conflict; RadixInsert.v, RadixBuild.v and RadixTables.v: insertion into the tree, the
      walk to the place of it, and trees built from any table of routes.
    - SlashRedirect.v: the recommendation of the tree to redirect to the path with the other
      trailing slash.
    - CleanPath.v: path.go of gin; CaseLookup.v: the case-insensitive lookup of tree.go and the
      redirect that uses it.
    - Ratelimit.v: the token bucket of the vendored ratelimit package, with which the
      Kubernetes client throttles itself.
    - Engine.v: how gin runs a chain: context.go ([Next], [Abort] and their index),
      response_writer.go, errors.go, serveError of gin.go.  A handler function is a tree of
      what it does to its context.
    - Serving.v: logger.go, recovery.go, auth.go and the renderers as handler functions,
      and the chain of a console route; Frontend.v: ServeHTTP of gin.go; Scope.v: what a
      request can change.
    - Gin.v: gin.go and routergroup.go for any application: the calls that configure an
      engine ([op]), its dispatch with every option, 405 included; the console is an
      instance.
    - RouteListing.v: the listing of registered routes (Routes and iterate of gin.go).
    - Binding.v: form_mapping.go of gin, with the parsers of package strconv it calls;
      Requests.v: the headers, cookies and content negotiation of context.go and utils.go,
      and binding.go, form.go and default_validator.go.
    - Contexts.v: context.go of golang.org/x/net/context.  A context is a tree of what
      never changes; the fields a mutex guards are a cell of a store ([cell], [world]),
      and the operations ([WithCancel], [WithDeadline], [cancel], [removeChild],
      [propagateCancel]) lock, read and write cells as the code does.  ContextSteps.v: the
      steps of goroutines, timers and foreign contexts over such a store ([step]), the
      invariant and the refinement.
    - Safety.v, Server.v, HandlerSpec.v: theorems across components.
    - Concurrent.v: pools of programs that interleave against one server ([step]);
      Races.v: interleavings that go wrong.
    - Console.v: main of main.go: the set-up of the client, the registration of the
      routes, and a sequence of requests served.

    ** What the theorems show

    - Pod actions.  The edits of PodActions.v are characterised on every branch, panics
      included; stopping and starting restores the pod (restart_restores).  Server.v
      states what is relied on of the API server ([PodServer]) and shows that, whatever
      updates it rejects, a restart never loses an image, and that actions only write
      the version they read, while the edit form overwrites whatever is stored.
    - The console.  Started in any state, either the set-up of the client fails, or every
      request of every sequence gets its response (console_serves_every_request).
    - Every route.  GET routes change nothing (get_routes_read_only),
      requests without an account get a 401 and run nothing (serve_authenticates), and
      which routes look at the user at all (authorisation_of_routes).
    - Routing.  The routes of main are registered without a conflict, and gin's tree is
      equivalent to the reference definition "the registered pattern that matches"
      (routing_is_exact).  The same holds of every table of routes that registers without
      a conflict (built_tree_routes_exactly): lookup is proved correct for every
      well-formed tree (RadixTree.v), and insertion to keep trees well formed and to add
      exactly one route (RadixInsert.v, RadixBuild.v).  A table registers in every order
      of its routes exactly when its paths are valid and no two of its routes conflict, and one order
      decides for all unless a path goes on behind a catch-all
      (table_registers_iff_compatible).  These theorems are about paths that start with a slash
      and have at most 255 wildcards, and those about trees of tables also ask that nothing
      stands behind a catch-all ([registrable]): tree.go accepts some such paths and refuses
      others, depending on the order (addRoute_past_catch_all).  The case-insensitive
      lookup never misses a spelling that is served, and finds only served ones unless
      it is asked to take slashes off (case_lookup_correct).  CleanPath.v shows the
      in-place path cleaner equivalent to the elimination of path elements by a stack
      (cleanPath_correct).  The redirect that adds a slash leads to a route and misses none
      (slash_redirect_adds); the one that takes a slash off is wrong in both directions, in
      the console too (examples of SlashRedirect.v and Gin.v).  Any engine, however it
      is configured, answers every request as its registrations say, and redirects to
      a route but where it takes a slash off (engine_answers).
    - Serving.  A chain of handlers ends within one turn per handler and its int8 index
      does not overflow (Next_terminates); handlers run in order, at most once, none
      after an abort (Next_runs_in_order).  gin's loop over the chain is a refinement of
      the nesting "recovery around authentication around handler" (serving_is_nesting):
      the same commands in the same order, the response on the connection, one line in
      the log.  So every request runs exactly the handler of the route it fits
      (ServeHTTP_exact) and gets exactly one response, wherever handlers panic
      (every_request_gets_one_response).
    - Listing.  The routes an engine lists are its registrations, paths printed as they
      were registered (routes_list_registrations).
    - Binding.  Binding the form of a struct gives the struct back
      (mapForm_decodes_forms); on any form it does not panic, reports the first text
      that does not parse, those of bools apart, and keeps every field in the range of
      its type (mapForm_reports_first_problem).  What a client is offered (NegotiateFormat_chooses),
      that cookies are read back (Cookie_SetCookie), and that a request that does not bind
      is answered 400 and ends its chain (BindWith_answers).
    - Cancellation.  In every run of goroutines, timers and foreign contexts, a
      cancellation ends what is below it, once, and nothing else, as the package
      documents (contexts_refine); no operation deadlocks or panics
      (operations_never_stuck); what has ended holds no child, timer or place in a map
      (ended_contexts_hold_nothing); and once the due timers have run, what is below a
      deadline that has passed has ended (deadlines_are_kept).
    - Scope.  Every change a request makes lies in what its method and path name: its
      namespace, the object of a deletion, the nodes, the configuration
      (requests_change_only_what_they_name).
    - Rate.  A request for tokens waits exactly until they have accrued
      (take_waits_exactly), and what is released in a window is bounded by capacity and
      refill, up to one further capacity after an idle time (rate_is_limited).
    - Concurrency.  Under every interleaving of action forms and other clients, with the
      optimistic concurrency control the API server documents ([VersionedPods]), pods
      change only by whole edits of what is stored (concurrent_actions_are_atomic).
      Races.v has concrete schedules in which the handlers that do not rely on versions
      go wrong: a deletion, two configuration updates, an action across a switch of the
      cluster.
    - Decimals.  Addition and comparison are exact, also with aliased operands; division
      rounds as each of the eight rounders says, the exact one with nil when there is nothing
      to return (QuoRound_correct), and exact division
      finds every finite quotient (QuoExact_correct); text and gob encodings are inverse to
      their decoders; every operation keeps scales int32 and pointers valid
      (operations_are_typed).
    - Image versions.  Parsing and printing of semantic versions are inverse in both
      directions, comparison is a total preorder, a range parses to the function it
      denotes (ParseRange_denotes), and the tags offered are the
      neighbours of the current tag in the sorted list of the registry's tags.
    - Pages.  Filters list each value once and do not depend on the run time's choices;
      the pod list shows the pods that pass the filters in the requested order; totals
      are sums; the columns of a pod row.  Ages and percentages, which the code computes
      in float64, are exact up to the precision of binary64 (age_is_exact,
      percent_is_exact), from the rounding of addition, multiplication and division
      proved in FloatRound.v.
    - Single handlers: the action form, creation and deletion of controllers, the update
      of the configuration.

    ** Interfaces

    Code outside the repository and choices of the run time are classes: [KubeApi] and
    [QuantityLaws] (Api.v), [JsonApi] (Client.v, encoding/json), [GoSort] and [MapRange]
    with their laws, [Platform] (out-of-range float conversions), [EventOrder] and
    [TimeFormat] (Render.v), [UnicodeCase] (CaseLookup.v: the case of letters outside
    ASCII), [NodeReference] (Handlers.v), [PageRender] (Serving.v: templates,
    http.Redirect and the text of a URL), [FloatText] with [FloatTextLaws] (Binding.v: the
    text of floats), [Decoders] (Requests.v: JSON, XML, protocol buffers and the
    validator), [PodServer] (Server.v), [VersionedPods]
    (Concurrent.v) and [ConfigStore] (HandlerSpec.v).  Theorems hold for all instances
    that satisfy the laws; Demo.v, and the ends of GoSort.v, Api.v, CaseLookup.v,
    Binding.v, Serving.v, Server.v and Concurrent.v, have an executable instance of each for the
    witnesses.

    ** Termination, fuel and bounds

    A [prog] is a finite tree, so handlers terminate once their calls return.  Loops are
    structural recursions on the data they consume, but for these: the insertion walk of
    the radix tree has twice the path's length and two as fuel (a turn shortens the path
    or enters a wildcard child, whose path is a non-empty prefix of what is left; running
    out would be a panic, and built_tree_routes_exactly excludes it for every table), and
    insertion of wildcards and the reading of a pattern recurse on the number of
    wildcards left.  [Next_loop] has one turn per handler and one to see the end
    (Next_terminates: it is enough); the loops that count factors of a divisor have the
    logarithm of the divisor (the exact division theorem shows that they end); the loop
    of cleanPath and that of appendZeros have the length of the path and the number of
    zeros, of which each turn uses at least one, and their theorems show that they reach
    the end.  The search for the quantum of a rate has 400 turns, after which the quanta
    are past the end (NewBucketWithRate_ends).  A cancellation descends at most as often
    as the store has cells, which is enough because a child is younger than its parent
    (operations_never_stuck: running out would be stuck).  Integers are kept at their
    width where the width shows: the numbers of a version are uint64 with strconv's range
    check, differences of instants saturate at int64, ages are computed in binary64,
    priorities of the tree wrap as uint32 and its parameter counts stop at 255, the index
    of a handler chain is an int8, scales of decimals wrap as int32, integers in forms
    have the width of their field, and the token bucket wraps as int64, with the bounds
    below which it does not as hypotheses.  Counters that sum over the containers of one
    pod (a 64-bit int in the source) are unbounded here.

    ** Not modelled

    The HTML templates (a page is the name of its template with its data), browser code,
    the text of log lines but for status, method and path, flag parsing, TLS and the
    listener, file serving behind the static routes (a parameter of Frontend.v), the
    parts of gin the console does not call (the pool of contexts, the debug and mode
    switches, JSON and XML rendering, streams), the decoders behind [Decoders], JSON of semver, the fmt.Scanner of decimals,
    the String methods of contexts.  Assignments to package variables are atomic commands,
    and so is what an operation on contexts does under a mutex; the weaker guarantees of
    the Go memory model for unsynchronised access are not modelled.  The Kubernetes client
    and API types are not in the repository.  The other vendored packages are libraries
    the console does not reach or reaches only through the Kubernetes client. *)

From stdpp Require Import prelude gmap strings sorting.
From Stdlib Require Import ZArith NArith Ascii.

(** Shared notations live in a scope of their own. *)
Declare Scope kubecon_scope.
Delimit Scope kubecon_scope with kc.

(** ** Go outcomes

    A Go expression yields a value, panics, or (through glog.Fatalf) ends the
    process.  gin's recovery middleware turns a panic of a handler into a 500
    response; a fatal log stops the server. *)
Inductive panic : Type :=
| IndexOutOfRange
| SliceOutOfRange
| NilMapAssignment
| NilDereference
| MissingContextKey
| Panicked (msg : string).

Inductive halt : Type :=
| HPanic (p : panic)
| HFatal (msg : string).

Inductive go (A : Type) : Type :=
| Val (a : A)
| Halt (h : halt).
Arguments Val {A} _.
Arguments Halt {A} _.

#[export] Instance panic_eq_dec : EqDecision panic.
Proof. solve_decision. Defined.

#[export] Instance halt_eq_dec : EqDecision halt.
Proof. solve_decision. Defined.

#[export] Instance go_ret : MRet go := λ A, Val.
#[export] Instance go_bind : MBind go := λ A B f m,
  match m with Val a => f a | Halt h => Halt h end.
#[export] Instance go_fmap : FMap go := λ A B f m,
  match m with Val a => Val (f a) | Halt h => Halt h end.

Definition gopanic {A} (p : panic) : go A := Halt (HPanic p).

(** Dereferencing a pointer that may be nil. *)
Definition deref {A} (p : option A) : go A :=
  match p with Some a => Val a | None => gopanic NilDereference end.

Lemma deref_Val {A} (p : option A) a : deref p = Val a → p = Some a.
Proof. destruct p; [|done]. by intros [= ->]. Qed.

(** [l[i]] on a slice. *)
Definition index {A} (l : list A) (i : nat) : go A :=
  match l !! i with Some a => Val a | None => gopanic IndexOutOfRange end.

(** [l[i] = x] on a slice: out of range panics, where stdpp's insert would do
    nothing. *)
Definition set_index {A} (l : list A) (i : nat) (x : A) : go (list A) :=
  match l !! i with Some _ => Val (<[i := x]> l) | None => gopanic IndexOutOfRange end.

(** A Go function with an error result: the value it returns when the error is
    nil, or the error. *)
Inductive result (E A : Type) : Type :=
| Ok (a : A)
| Err (e : E).
Arguments Ok {E A} _.
Arguments Err {E A} _.

#[export] Instance result_bind {E} : MBind (result E) := λ A B f m,
  match m with Ok a => f a | Err e => Err e end.
#[export] Instance result_ret {E} : MRet (result E) := λ A, Ok.

(** ** Go maps

    A Go map is nil or a finite map.  Reading a nil map finds nothing, writing
    to one panics, deleting from one does nothing. *)
Definition gomap (V : Type) : Type := option (gmap string V).

Definition gm_get {V} (m : gomap V) (k : string) : option V :=
  match m with Some m' => m' !! k | None => None end.

Definition gm_set {V} (m : gomap V) (k : string) (v : V) : go (gomap V) :=
  match m with Some m' => Val (Some (<[k := v]> m')) | None => gopanic NilMapAssignment end.

Definition gm_delete {V} (m : gomap V) (k : string) : gomap V :=
  match m with Some m' => Some (delete k m') | None => None end.

(** The entries a nil or non-nil map holds. *)
Definition gm_entries {V} (m : gomap V) : gmap string V :=
  match m with Some m' => m' | None => ∅ end.

(** ** Automation *)

Create HintDb kubecon.
Create Rewrite HintDb kubecon_rw.

(** Inverts equations between outcomes and results. *)
Ltac go_inv :=
  repeat match goal with
  | H : Val _ = Val _ |- _ => injection H; clear H; intros; subst
  | H : Ok _ = Ok _ |- _ => injection H; clear H; intros; subst
  | H : Err _ = Err _ |- _ => injection H; clear H; intros; subst
  | H : Some _ = Some _ |- _ => injection H; clear H; intros; subst
  | H : Val _ = Halt _ |- _ => discriminate H
  | H : Halt _ = Val _ |- _ => discriminate H
  | H : Ok _ = Err _ |- _ => discriminate H
  | H : Err _ = Ok _ |- _ => discriminate H
  end.

(** Case analysis on the scrutinee of a match or conditional in a hypothesis or
    in the goal, keeping the equation. *)
Ltac case_hyp H :=
  match type of H with
  | context [match ?x with _ => _ end] => let E := fresh "E" in destruct x eqn:E
  end.

Ltac case_goal :=
  match goal with
  | |- context [match ?x with _ => _ end] => let E := fresh "E" in destruct x eqn:E
  end.

(** ** Strings *)

Lemma sapp_nil_l (s : string) : "" +:+ s = s.
Proof. done. Qed.

Lemma sapp_cons c (s t : string) : String c s +:+ t = String c (s +:+ t).
Proof. done. Qed.

Lemma sapp_nil_r (s : string) : s +:+ "" = s.
Proof. induction s as [|c s IH]; [done|]. by rewrite sapp_cons, IH. Qed.

Lemma sapp_assoc (s t u : string) : (s +:+ t) +:+ u = s +:+ (t +:+ u).
Proof. induction s as [|c s IH]; [done|]. by rewrite !sapp_cons, IH. Qed.

Lemma slength_app (s t : string) :
  String.length (s +:+ t) = String.length s + String.length t.
Proof. induction s as [|c s IH]; [done|]. rewrite sapp_cons; simpl; by rewrite IH. Qed.

#[export] Hint Rewrite sapp_nil_l sapp_cons sapp_nil_r sapp_assoc slength_app : kubecon_rw.

(** [s[n:]] and [s[:n]] for an index in range. *)
Fixpoint sdrop (n : nat) (s : string) : string :=
  match n, s with
  | O, _ => s
  | S n, String _ s => sdrop n s
  | S _, EmptyString => ""
  end.

Fixpoint stake (n : nat) (s : string) : string :=
  match n, s with
  | O, _ => ""
  | S n, String c s => String c (stake n s)
  | S _, EmptyString => ""
  end.

Lemma sdrop_app (s t : string) : sdrop (String.length s) (s +:+ t) = t.
Proof. induction s as [|c s IH]; [done|]. by rewrite sapp_cons. Qed.

Lemma stake_app (s t : string) : stake (String.length s) (s +:+ t) = s.
Proof. induction s as [|c s IH]; [by destruct t|]. rewrite sapp_cons; simpl; by rewrite IH. Qed.

Lemma stake_sdrop n (s : string) : stake n s +:+ sdrop n s = s.
Proof. revert s; induction n as [|n IH]; intros [|c s]; simpl; try done. by rewrite sapp_cons, IH. Qed.

Lemma slength_stake n (s : string) : (n <= String.length s)%nat → String.length (stake n s) = n.
Proof. revert s. induction n as [|n IH]; intros [|c s] H; simpl in *; [done|done|lia|]. by rewrite IH by lia. Qed.

(** A predicate on every byte. *)
Fixpoint sforallb (f : ascii → bool) (s : string) : bool :=
  match s with
  | EmptyString => true
  | String c s => f c && sforallb f s
  end.

Lemma sforallb_app f (s t : string) : sforallb f (s +:+ t) = sforallb f s && sforallb f t.
Proof.
  induction s as [|c s IH]; [done|]. rewrite sapp_cons; simpl. by rewrite IH, andb_assoc.
Qed.

Lemma sforallb_impl (f g : ascii → bool) (s : string) :
  (∀ c, f c = true → g c = true) → sforallb f s = true → sforallb g s = true.
Proof.
  intros Hfg. induction s as [|c s IH]; [done|]. simpl.
  rewrite !andb_true_iff. intros [??]. auto.
Qed.

#[export] Hint Rewrite sforallb_app sdrop_app stake_app : kubecon_rw.

(** The byte order Go compares strings by. *)
Definition sltb (s t : string) : bool := String.ltb s t.

(** ** Lists *)

Lemma list_filter_all {A} (P : A → Prop) `{∀ x, Decision (P x)} (l : list A) :
  Forall P l → filter P l = l.
Proof.
  induction 1 as [|x l Hx _ IH]; [done|]. by rewrite filter_cons_True, IH by done.
Qed.

Lemma list_filter_nil {A} (P : A → Prop) `{∀ x, Decision (P x)} (l : list A) :
  Forall (λ x, ¬ P x) l → filter P l = [].
Proof.
  induction 1 as [|x l Hx _ IH]; [done|]. by rewrite filter_cons_False, IH by done.
Qed.

Lemma bind_filter {A B} (f : A → bool) (g : A → list B) (l : list A) :
  filter (λ x, f x = true) l ≫= g = l ≫= (λ x, if f x then g x else []).
Proof.
  induction l as [|x l IH]; [done|]. rewrite filter_cons, bind_cons, <- IH.
  by destruct (f x).
Qed.

Lemma bind_singleton_fmap {A B} (f : A → B) (l : list A) : l ≫= (λ x, [f x]) = f <$> l.
Proof. induction l as [|x l IH]; [done|]. by rewrite bind_cons, IH. Qed.

(** A list given index by index from another has its length. *)
Lemma length_of_lookups {A B} (f : nat → A → B) (l : list A) (l' : list B) :
  (∀ j, l' !! j = f j <$> l !! j) → length l' = length l.
Proof.
  intros H. apply Nat.le_antisymm; apply lookup_ge_None.
  - rewrite H. by rewrite (proj2 (lookup_ge_None l (length l))).
  - pose proof (H (length l')) as H'. rewrite (proj2 (lookup_ge_None l' _)) in H' by done.
    by destruct (l !! length l').
Qed.
