(* ===== verification/GoStrings.v ===== *)
(** * Go's strings and strconv packages, as far as the console uses them *)

From stdpp Require Import prelude gmap strings.
From Stdlib Require Import ZArith NArith Ascii.
From S2P Require Import Prelude.

Local Open Scope N_scope.

(** ** package strings *)

(** [strings.HasPrefix]. *)
Definition HasPrefix (s p : string) : bool := String.prefix p s.

(** [strings.TrimPrefix]. *)
Definition TrimPrefix (s p : string) : string :=
  if HasPrefix s p then sdrop (String.length p) s else s.

(** [strings.HasSuffix]: [len(s) >= len(suf) && s[len(s)-len(suf):] == suf]. *)
Definition HasSuffix (s suf : string) : bool :=
  Nat.leb (String.length suf) (String.length s)
  && bool_decide (sdrop (String.length s - String.length suf) s = suf).

(** [strings.TrimSuffix]. *)
Definition TrimSuffix (s suf : string) : string :=
  if HasSuffix s suf then stake (String.length s - String.length suf) s else s.

(** [strings.IndexRune] for a one-byte rune, [None] for -1. *)
Fixpoint IndexRune (s : string) (c : ascii) : option nat :=
  match s with
  | EmptyString => None
  | String a s => if decide (a = c) then Some 0%nat else S <$> IndexRune s c
  end.

(** The two sides of the first occurrence of a byte. *)
Fixpoint cut (s : string) (c : ascii) : option (string * string) :=
  match s with
  | EmptyString => None
  | String a s =>
      if decide (a = c) then Some ("", s)
      else '(l, r) ← cut s c; Some (String a l, r)
  end.

(** [strings.SplitN] with a one-byte separator and a positive count: every
    separator the console passes is one byte long. *)
Fixpoint SplitN (s : string) (c : ascii) (n : nat) : list string :=
  match n with
  | O => []
  | S n' =>
      match n' with
      | O => [s]
      | S _ => match cut s c with Some (l, r) => l :: SplitN r c n' | None => [s] end
      end
  end.

(** [strings.Split] with a one-byte separator; the empty string gives one empty
    piece. *)
Fixpoint Split (s : string) (c : ascii) : list string :=
  match s with
  | EmptyString => [""]
  | String a s =>
      if decide (a = c) then "" :: Split s c
      else match Split s c with h :: t => String a h :: t | [] => [String a ""] end
  end.

(** [strings.Join]. *)
Fixpoint Join (l : list string) (sep : string) : string :=
  match l with
  | [] => ""
  | [s] => s
  | s :: l => s +:+ sep +:+ Join l sep
  end.

(** ** package strconv *)

Definition digit_char (d : N) : ascii := ascii_of_N (48 + d).

Definition char_digit (c : ascii) : option N :=
  let n := N_of_ascii c in
  if (48 <=? n) && (n <=? 57) then Some (n - 48) else None.

(** [strconv.FormatUint(n, 10)]: digits are produced from the last one.  Each
    step divides by ten, so the number of bits of [n], plus one, bounds the
    steps. *)
Fixpoint format_digits (fuel : nat) (n : N) (acc : string) : string :=
  match fuel with
  | O => acc
  | S fuel =>
      let acc := String (digit_char (n mod 10)) acc in
      if n / 10 =? 0 then acc else format_digits fuel (n / 10) acc
  end.

Definition FormatUint (n : N) : string := format_digits (S (N.size_nat n)) n "".

(** [fmt]'s %d and [strconv.FormatInt(z, 10)]. *)
Definition FormatInt (z : Z) : string :=
  match z with
  | Zneg p => String "-" (FormatUint (Npos p))
  | _ => FormatUint (Z.to_N z)
  end.

(** [strconv.FormatBool]. *)
Definition FormatBool (b : bool) : string := if b then "true" else "false".

Definition two64 : N := 2 ^ 64.
Definition max_uint64 : N := two64 - 1.

Inductive num_error : Type := ErrSyntax | ErrRange.

(** [strconv.ParseUint(s, 10, 64)]: the loop of the standard library, with the
    cutoff test before the multiplication and the wrap-around test after the
    addition. *)
Definition cutoff : N := max_uint64 / 10 + 1.

Fixpoint parse_uint_loop (s : string) (n : N) : result num_error N :=
  match s with
  | EmptyString => Ok n
  | String c s =>
      match char_digit c with
      | None => Err ErrSyntax
      | Some d =>
          if cutoff <=? n then Err ErrRange
          else let n := n * 10 in
               let n1 := (n + d) mod two64 in
               if n1 <? n then Err ErrRange else parse_uint_loop s n1
      end
  end.

Definition ParseUint (s : string) : result num_error N :=
  match s with
  | EmptyString => Err ErrSyntax
  | _ => parse_uint_loop s 0
  end.

Local Close Scope N_scope.

(** ** Lemmas *)

Lemma string_rev_ind (P : string → Prop) :
  P "" → (∀ s c, P s → P (s +:+ String c "")) → ∀ s, P s.
Proof.
  intros H0 Hs s. induction s as [s IH] using (induction_ltof1 _ String.length).
  destruct s as [|a s]; [done|].
  assert (∃ t c, String a s = t +:+ String c "") as (t & c & Heq).
  { clear. revert a. induction s as [|b s IH]; intros a; [by exists "", a|].
    destruct (IH b) as (t & c & ->). by exists (String a t), c. }
  rewrite Heq in *. apply Hs, IH. unfold ltof. rewrite slength_app. simpl. lia.
Qed.

Lemma HasPrefix_app (p t : string) : HasPrefix (p +:+ t) p = true.
Proof.
  unfold HasPrefix. induction p as [|c p IH]; [by destruct t|].
  rewrite sapp_cons; simpl. by destruct (ascii_dec c c).
Qed.

Lemma HasPrefix_spec (s p : string) : HasPrefix s p = true ↔ ∃ t, s = p +:+ t.
Proof.
  split; [|intros [t ->]; apply HasPrefix_app].
  unfold HasPrefix. revert s. induction p as [|c p IH]; intros s H; [by exists s|].
  destruct s as [|a s]; [done|]. simpl in H.
  destruct (ascii_dec c a) as [->|]; [|done].
  destruct (IH _ H) as [t ->]. by exists t.
Qed.

Lemma TrimPrefix_app (p t : string) : TrimPrefix (p +:+ t) p = t.
Proof. unfold TrimPrefix. by rewrite HasPrefix_app, sdrop_app. Qed.

Lemma TrimSuffix_app (t suf : string) : TrimSuffix (t +:+ suf) suf = t.
Proof.
  unfold TrimSuffix, HasSuffix. rewrite slength_app, Nat.add_sub.
  rewrite sdrop_app, stake_app, bool_decide_eq_true_2 by done.
  by rewrite (proj2 (Nat.leb_le _ _)) by lia.
Qed.

Lemma HasSuffix_spec (s suf : string) : HasSuffix s suf = true → ∃ t, s = t +:+ suf.
Proof.
  unfold HasSuffix. rewrite andb_true_iff, bool_decide_eq_true. intros [_ <-].
  eexists. symmetry. apply stake_sdrop.
Qed.

(** No byte of [s] is [c]. *)
Definition sfree (c : ascii) (s : string) : bool := sforallb (λ a, bool_decide (a ≠ c)) s.

Lemma sfree_app c s t : sfree c (s +:+ t) = sfree c s && sfree c t.
Proof. apply sforallb_app. Qed.

Lemma sfree_cons c a s : sfree c (String a s) = true ↔ a ≠ c ∧ sfree c s = true.
Proof. unfold sfree; simpl. by rewrite andb_true_iff, bool_decide_eq_true. Qed.

(** The text after the last occurrence of a byte is unique. *)
Lemma last_cut_inj (a a' b b' : string) c :
  a +:+ String c b = a' +:+ String c b' → sfree c b = true → sfree c b' = true → b = b'.
Proof.
  intros Heq Hb Hb'. revert a' Heq. induction a as [|x a IH]; intros [|y a'] Heq.
  - by injection Heq.
  - injection Heq as -> ->. rewrite sfree_app, andb_true_iff, sfree_cons in Hb. naive_solver.
  - injection Heq as -> <-. rewrite sfree_app, andb_true_iff, sfree_cons in Hb'. naive_solver.
  - injection Heq as _ Heq. by apply (IH a').
Qed.

Lemma cut_app (l r : string) c : sfree c l = true → cut (l +:+ String c r) c = Some (l, r).
Proof.
  induction l as [|a l IH]; [intros _; simpl; by rewrite decide_True|].
  rewrite sfree_cons. intros [Ha Hl]. rewrite sapp_cons; simpl.
  by rewrite decide_False, IH.
Qed.

Lemma cut_free (s : string) c : sfree c s = true → cut s c = None.
Proof.
  induction s as [|a s IH]; [done|]. rewrite sfree_cons. intros [Ha Hs]. simpl.
  by rewrite decide_False, IH.
Qed.

Lemma cut_Some (s l r : string) c :
  cut s c = Some (l, r) → s = l +:+ String c r ∧ sfree c l = true.
Proof.
  revert l r. induction s as [|a s IH]; intros l r H; [done|]. simpl in H.
  destruct (decide (a = c)) as [->|Hne]; [by simplify_eq|].
  destruct (cut s c) as [[l' r']|]; simplify_eq/=.
  destruct (IH _ _ eq_refl) as [-> ?]. by rewrite sfree_cons.
Qed.

Lemma cut_None (s : string) c : cut s c = None → sfree c s = true.
Proof.
  induction s as [|a s IH]; [done|]. simpl. rewrite sfree_cons.
  destruct (decide (a = c)) as [->|]; [done|].
  destruct (cut s c) as [[??]|]; [done|]. auto.
Qed.

Lemma IndexRune_cut (s : string) c :
  match IndexRune s c with
  | Some i => cut s c = Some (stake i s, sdrop (S i) s)
  | None => cut s c = None
  end.
Proof.
  induction s as [|a s IH]; [done|]. simpl.
  destruct (decide (a = c)) as [->|]; [done|].
  destruct (IndexRune s c) as [i|]; simpl in *; by rewrite IH.
Qed.

Lemma Split_nonempty (s : string) c : Split s c ≠ [].
Proof. destruct s as [|a s]; simpl; [done|]. case_decide; [done|]. by destruct (Split s c). Qed.

Lemma Split_free (s : string) c : sfree c s = true → Split s c = [s].
Proof.
  induction s as [|a s IH]; [done|]. rewrite sfree_cons. intros [Ha Hs]. simpl.
  by rewrite decide_False, IH.
Qed.

Lemma Split_app (l r : string) c :
  sfree c l = true → Split (l +:+ String c r) c = l :: Split r c.
Proof.
  induction l as [|a l IH]; [intros _; simpl; by rewrite decide_True|].
  rewrite sfree_cons. intros [Ha Hl]. rewrite sapp_cons; simpl.
  by rewrite decide_False, IH.
Qed.

Lemma Join_cons (s : string) l sep : l ≠ [] → Join (s :: l) sep = s +:+ sep +:+ Join l sep.
Proof. by destruct l. Qed.

(** Joining the pieces of a split gives the string back. *)
Lemma Join_Split (s : string) c : Join (Split s c) (String c "") = s.
Proof.
  induction s as [|a s IH]; [done|]. simpl. case_decide as Ha.
  - subst. rewrite Join_cons by apply Split_nonempty. by rewrite IH.
  - pose proof (Split_nonempty s c). destruct (Split s c) as [|h [|h2 t]]; [done| |].
    + simpl in *. by subst.
    + rewrite Join_cons in IH |- * by done. by rewrite <- IH, sapp_cons.
Qed.

(** Splitting the join of pieces without the separator gives the pieces back. *)
Lemma Split_Join (l : list string) c :
  l ≠ [] → Forall (λ s, sfree c s = true) l → Split (Join l (String c "")) c = l.
Proof.
  intros Hne Hl. induction Hl as [|s l Hs Hl IH]; [done|].
  destruct l as [|s' l]; [by apply Split_free|].
  rewrite Join_cons by done. change (String c "" +:+ ?t) with (String c t).
  rewrite Split_app by done. by rewrite IH.
Qed.

Lemma Split_pieces_free (s : string) c : Forall (λ p, sfree c p = true) (Split s c).
Proof.
  induction s as [|a s IH]; [by repeat constructor|]. simpl.
  case_decide; [by constructor|].
  destruct IH as [|h t Hh Ht]; constructor; try done; by rewrite sfree_cons.
Qed.

(** ** Decimal numbers *)

Definition is_digit (c : ascii) : bool :=
  match char_digit c with Some _ => true | None => false end.

(** The value a digit string denotes after a prefix of value [acc]. *)
Fixpoint sval (s : string) (acc : N) : N :=
  match s with
  | EmptyString => acc
  | String c s => sval s (acc * 10 + default 0%N (char_digit c))%N
  end.

Definition leading_zero (s : string) : bool :=
  match s with
  | String a (String _ _) => bool_decide (a = "0"%char)
  | _ => false
  end.

(** A decimal numeral as the standard library prints it. *)
Definition canonical_decimal (s : string) : Prop :=
  s ≠ "" ∧ sforallb is_digit s = true ∧ leading_zero s = false.

Lemma char_digit_bound c d : char_digit c = Some d → (d < 10)%N.
Proof.
  unfold char_digit. destruct (_ && _)%N eqn:E; [|done]. intros ?; simplify_eq.
  apply andb_true_iff in E as [?%N.leb_le ?%N.leb_le]. lia.
Qed.

Lemma digit_char_digit d : (d < 10)%N → char_digit (digit_char d) = Some d.
Proof.
  intros Hd. unfold char_digit, digit_char. rewrite N_ascii_embedding by lia.
  rewrite (proj2 (N.leb_le _ _)), (proj2 (N.leb_le _ _)) by lia. simpl. f_equal. lia.
Qed.

Lemma char_digit_char c d : char_digit c = Some d → digit_char d = c.
Proof.
  unfold char_digit, digit_char. destruct (_ && _)%N eqn:E; [|done]. intros ?; simplify_eq.
  apply andb_true_iff in E as [?%N.leb_le ?%N.leb_le].
  rewrite <- (ascii_N_embedding c) at 2. f_equal. lia.
Qed.

Lemma is_digit_spec c : is_digit c = true ↔ ∃ d, char_digit c = Some d.
Proof. unfold is_digit. destruct (char_digit c) as [d|]; split; [by exists d|done|done|by intros []]. Qed.

Lemma sval_app s t acc : sval (s +:+ t) acc = sval t (sval s acc).
Proof. revert acc. induction s as [|c s IH]; intros acc; [done|]. by rewrite sapp_cons; simpl. Qed.

Lemma sval_ge s acc : (acc <= sval s acc)%N.
Proof.
  revert acc. induction s as [|c s IH]; intros acc; simpl; [lia|].
  etrans; [|apply IH]. lia.
Qed.

Lemma cutoff_val : cutoff = 1844674407370955162%N.
Proof. reflexivity. Qed.

Lemma two64_val : two64 = 18446744073709551616%N.
Proof. reflexivity. Qed.

Lemma parse_uint_loop_complete s n :
  sforallb is_digit s = true → (sval s n < two64)%N → parse_uint_loop s n = Ok (sval s n).
Proof.
  revert n. induction s as [|c s IH]; intros n; [done|].
  simpl sforallb. rewrite andb_true_iff, is_digit_spec. intros [[d Hd] Hs] Hv.
  simpl in *. rewrite Hd in *. simpl in *.
  pose proof (sval_ge s (n * 10 + d)).
  assert (Hc : (n < cutoff)%N) by (rewrite cutoff_val; rewrite two64_val in *; lia).
  rewrite (proj2 (N.leb_gt _ _)) by done.
  rewrite N.mod_small by lia. rewrite (proj2 (N.ltb_ge _ _)) by lia. by apply IH.
Qed.

Lemma parse_uint_loop_sound s n m :
  parse_uint_loop s n = Ok m → sforallb is_digit s = true ∧ m = sval s n.
Proof.
  revert n. induction s as [|c s IH]; intros n H; simpl in *; [by simplify_eq|].
  unfold is_digit at 1. destruct (char_digit c) as [d|] eqn:Hd; [|done]. simpl.
  destruct (N.leb_spec cutoff n); [done|].
  destruct (N.ltb_spec ((n * 10 + d) mod two64) (n * 10)) as [|Hge]; [done|].
  apply IH in H as [? ->]. split; [done|]. f_equal.
  apply char_digit_bound in Hd. apply N.mod_small.
  destruct (N.lt_ge_cases (n * 10 + d) two64) as [|Hbig]; [done|]. exfalso.
  rewrite cutoff_val, two64_val in *.
  assert ((n * 10 + d) mod 18446744073709551616 = n * 10 + d - 18446744073709551616)%N as Heq.
  { symmetry. apply (N.mod_unique _ _ 1); lia. }
  lia.
Qed.

Lemma parse_uint_loop_bound s n m :
  (n < two64)%N → parse_uint_loop s n = Ok m → (m < two64)%N.
Proof.
  revert n. induction s as [|c s IH]; intros n Hn H; simpl in *; [by simplify_eq|].
  repeat case_hyp H; try done. eapply IH; [|exact H]. by apply N.mod_lt.
Qed.

Lemma leading_zero_app s c : s ≠ "" → leading_zero (s +:+ String c "") = false → leading_zero s = false.
Proof. destruct s as [|a [|b s]]; naive_solver. Qed.

Lemma sval_pos s : s ≠ "" → leading_zero (s +:+ "x") = false →
  sforallb is_digit s = true → (0 < sval s 0)%N.
Proof.
  destruct s as [|a s]; [done|]. intros _ Hz. simpl.
  rewrite andb_true_iff, is_digit_spec. intros [[d Hd] _]. rewrite Hd. cbn [default].
  enough (0 < d)%N by (eapply N.lt_le_trans; [|apply sval_ge]; simpl; lia).
  destruct (decide (d = 0)%N) as [->|]; [|lia]. exfalso.
  apply char_digit_char in Hd as <-. destruct s; simpl in Hz; done.
Qed.

Lemma leading_zero_x s c : s ≠ "" → leading_zero (s +:+ String c "") = leading_zero (s +:+ "x").
Proof. by destruct s as [|a [|b s]]. Qed.

(** Printing the value of a canonical numeral gives the numeral. *)
Lemma format_digits_sval fuel s acc :
  canonical_decimal s → (sval s 0 < 2 ^ N.of_nat fuel)%N →
  format_digits (S fuel) (sval s 0) acc = s +:+ acc.
Proof.
  revert s acc. induction fuel as [fuel IH] using lt_wf_ind.
  intros s acc (Hne & Hd & Hz) Hf.
  destruct s as [|t c _] using string_rev_ind; [done|].
  rewrite sforallb_app, andb_true_iff in Hd. destruct Hd as [Ht Hc].
  simpl in Hc. rewrite andb_true_r, is_digit_spec in Hc. destruct Hc as [d Hd].
  rewrite sval_app in *. simpl sval in *. rewrite Hd in *. simpl default in *.
  pose proof (char_digit_bound _ _ Hd).
  assert ((sval t 0 * 10 + d) mod 10 = d)%N as Hm by (symmetry; apply (N.mod_unique _ _ (sval t 0)); lia).
  assert ((sval t 0 * 10 + d) / 10 = sval t 0)%N as Hq by (symmetry; apply (N.div_unique _ _ _ d); lia).
  cbn [format_digits]. rewrite Hm, Hq, (char_digit_char _ _ Hd), sapp_assoc.
  destruct (decide (t = "")) as [->|Hnt]; [done|].
  rewrite leading_zero_x in Hz by done. pose proof (sval_pos t Hnt Hz Ht) as Hpos.
  rewrite (proj2 (N.eqb_neq _ _)) by lia.
  destruct fuel as [|fuel]; [simpl in Hf; lia|].
  rewrite Nat2N.inj_succ, N.pow_succ_r' in Hf.
  rewrite IH; [done|lia| |lia]. split_and!; [done|done|].
  by apply (leading_zero_app t c Hnt); rewrite leading_zero_x.
Qed.

Lemma size_nat_bound n : (n < 2 ^ N.of_nat (N.size_nat n))%N.
Proof.
  pose proof (N.size_gt n) as H. destruct n as [|p]; [done|]. simpl N.size_nat.
  replace (N.of_nat (Pos.size_nat p)) with (N.size (Npos p)); [done|].
  simpl. clear H. induction p as [p IH|p IH|]; simpl in *; [| |done]; lia.
Qed.

Lemma FormatUint_sval s : canonical_decimal s → FormatUint (sval s 0) = s.
Proof.
  intros Hs. unfold FormatUint. rewrite format_digits_sval; [|done|apply size_nat_bound].
  apply sapp_nil_r.
Qed.

(** What [format_digits] writes is a canonical numeral of the right value. *)
Lemma format_digits_canonical fuel n acc :
  (n < 2 ^ N.of_nat fuel)%N →
  ∃ t, format_digits (S fuel) n acc = t +:+ acc ∧ canonical_decimal t ∧ sval t 0 = n
       ∧ (n ≠ 0%N → leading_zero (t +:+ "x") = false).
Proof.
  revert n acc. induction fuel as [fuel IH] using lt_wf_ind. intros n acc Hf.
  pose proof (N.mod_bound_pos n 10 ltac:(lia) ltac:(lia)) as [_ Hm].
  pose proof (digit_char_digit _ Hm) as Hd. pose proof (N.div_mod n 10 ltac:(lia)) as Hdm.
  cbn [format_digits]. destruct (N.eqb_spec (n / 10) 0) as [Hz|Hnz].
  - exists (String (digit_char (n mod 10)) ""). split_and!; [done| |simpl; rewrite Hd; simpl; lia|].
    + unfold canonical_decimal, is_digit. simpl. by rewrite Hd.
    + intros Hn. simpl. apply bool_decide_eq_false. intros Heq. rewrite Heq in Hd.
      change (Some 0 = Some (n mod 10))%N in Hd. injection Hd as Hd. lia.
  - destruct fuel as [|fuel]; [destruct Hnz; apply N.div_small; change (2 ^ N.of_nat 0)%N with 1%N in Hf; lia|].
    rewrite Nat2N.inj_succ, N.pow_succ_r' in Hf.
    destruct (IH fuel ltac:(lia) (n / 10)%N (String (digit_char (n mod 10)) acc)) as
      (t & -> & (Hne & Hdig & Hlz) & Hv & Hx); [apply N.Div0.div_lt_upper_bound; lia|].
    specialize (Hx Hnz).
    exists (t +:+ String (digit_char (n mod 10)) ""). rewrite sapp_assoc. split_and!; [done| | |].
    + unfold canonical_decimal. rewrite sforallb_app, Hdig, leading_zero_x, Hx by done.
      split_and!; [by destruct t| |done]. simpl. unfold is_digit. by rewrite Hd.
    + rewrite sval_app, Hv. simpl. rewrite Hd. simpl. lia.
    + intros _. rewrite <- Hx. by destruct t as [|a [|]].
Qed.

Lemma FormatUint_canonical n : canonical_decimal (FormatUint n) ∧ sval (FormatUint n) 0 = n.
Proof.
  destruct (format_digits_canonical (N.size_nat n) n "" (size_nat_bound n))
    as (t & Ht & ? & ? & _).
  unfold FormatUint. rewrite Ht, sapp_nil_r. done.
Qed.

(** Numerals round-trip through ParseUint and FormatUint within 64 bits. *)
Lemma ParseUint_FormatUint n : (n < two64)%N → ParseUint (FormatUint n) = Ok n.
Proof.
  intros Hn. destruct (FormatUint_canonical n) as [(Hne & Hd & _) Hv].
  unfold ParseUint. destruct (FormatUint n) as [|c s] eqn:E; [done|].
  rewrite parse_uint_loop_complete; [by rewrite Hv|done|by rewrite Hv].
Qed.

Lemma ParseUint_sound s n :
  ParseUint s = Ok n → s ≠ "" ∧ sforallb is_digit s = true ∧ n = sval s 0 ∧ (n < two64)%N.
Proof.
  unfold ParseUint. destruct s as [|c s]; [done|]. intros H.
  pose proof (parse_uint_loop_bound _ 0 _ eq_refl H).
  by apply parse_uint_loop_sound in H as [? ?].
Qed.

Lemma FormatUint_ParseUint s n :
  ParseUint s = Ok n → leading_zero s = false → FormatUint n = s.
Proof. intros (? & ? & -> & _)%ParseUint_sound ?. by apply FormatUint_sval. Qed.

Lemma FormatUint_inj n m : FormatUint n = FormatUint m → n = m.
Proof.
  intros H. destruct (FormatUint_canonical n) as [_ <-], (FormatUint_canonical m) as [_ <-].
  by rewrite H.
Qed.
