(* ===== verification/GoSort.v ===== *)
(** * Orders, package sort, and the iteration order of maps

    Go leaves two choices to the run time: which of the sorted permutations
    [sort.Sort] (an unstable sort) produces, and in which order [range] visits
    the entries of a map.  Both are interfaces here: a class with the operation
    and a class with what the language documents of it.  The components are
    written against the interfaces, so their theorems hold for every choice; the
    instances at the end are executable. *)

From stdpp Require Import prelude gmap strings sorting.
From Stdlib Require Import ZArith NArith Ascii.
From S2P Require Import Prelude.

(** ** Three-way comparisons *)

(** A Go comparison function returning -1, 0 or 1 that is a total preorder. *)
Class CmpOrder {A} (f : A → A → Z) : Prop := {
  cmp_range a b : f a b = (-1)%Z ∨ f a b = 0%Z ∨ f a b = 1%Z;
  cmp_flip a b : f b a = (- f a b)%Z;
  cmp_trans a b c : (f a b <= 0)%Z → (f b c <= 0)%Z → (f a c <= 0)%Z;
}.

Lemma cmp_refl `{CmpOrder A f} a : f a a = 0%Z.
Proof. pose proof (cmp_flip a a). lia. Qed.

Lemma cmp_lt_trans_l `{CmpOrder A f} a b c :
  (f a b < 0)%Z → (f b c <= 0)%Z → (f a c < 0)%Z.
Proof.
  intros H1 H2. destruct (Z.lt_ge_cases (f a c) 0) as [|H3]; [done|].
  pose proof (cmp_flip a b). pose proof (cmp_flip a c).
  pose proof (cmp_trans b c a). lia.
Qed.

Lemma cmp_lt_trans_r `{CmpOrder A f} a b c :
  (f a b <= 0)%Z → (f b c < 0)%Z → (f a c < 0)%Z.
Proof.
  intros H1 H2. destruct (Z.lt_ge_cases (f a c) 0) as [|H3]; [done|].
  pose proof (cmp_flip b c). pose proof (cmp_flip a c).
  pose proof (cmp_trans c a b). lia.
Qed.

Lemma cmp_eq_l `{CmpOrder A f} a b c : f a b = 0%Z → f a c = f b c.
Proof.
  intros H1. pose proof (cmp_flip a b) as H2.
  pose proof (cmp_range a c). pose proof (cmp_range b c).
  pose proof (cmp_trans a b c). pose proof (cmp_trans b a c).
  pose proof (cmp_lt_trans_r a b c). pose proof (cmp_lt_trans_r b a c). lia.
Qed.

Lemma cmp_order_ext {A} (f g : A → A → Z) : (∀ a b, f a b = g a b) → CmpOrder g → CmpOrder f.
Proof.
  intros Hfg Hg. split.
  - intros a b. rewrite Hfg. apply cmp_range.
  - intros a b. rewrite !Hfg. apply cmp_flip.
  - intros a b c. rewrite !Hfg. apply cmp_trans.
Qed.

(** Compare by [x], then by [y]. *)
Definition lex (x y : Z) : Z := if (x =? 0)%Z then y else x.

#[export] Instance lex_order {A} (f g : A → A → Z) :
  CmpOrder f → CmpOrder g → CmpOrder (λ a b, lex (f a b) (g a b)).
Proof.
  intros Hf Hg. unfold lex. split.
  - intros a b. destruct (Z.eqb_spec (f a b) 0); by apply cmp_range.
  - intros a b. rewrite (cmp_flip (f:=f) a b), (cmp_flip (f:=g) a b).
    destruct (Z.eqb_spec (f a b) 0), (Z.eqb_spec (- f a b) 0); lia.
  - intros a b c. pose proof (cmp_lt_trans_l (f:=f) a b c).
    pose proof (cmp_lt_trans_r (f:=f) a b c). pose proof (cmp_trans (f:=f) a b c).
    pose proof (cmp_trans (f:=g) a b c). pose proof (cmp_eq_l (f:=f) a b c).
    destruct (Z.eqb_spec (f a b) 0), (Z.eqb_spec (f b c) 0), (Z.eqb_spec (f a c) 0); lia.
Qed.

#[export] Instance proj_order {A B} (p : A → B) (f : B → B → Z) :
  CmpOrder f → CmpOrder (λ a b, f (p a) (p b)).
Proof. intros Hf. split; intros; [apply cmp_range|apply cmp_flip|by eapply cmp_trans]. Qed.

(** Comparison of slices element by element; a proper prefix comes first. *)
Fixpoint list_cmp {A} (f : A → A → Z) (l k : list A) : Z :=
  match l, k with
  | [], [] => 0
  | [], _ :: _ => -1
  | _ :: _, [] => 1
  | a :: l, b :: k => lex (f a b) (list_cmp f l k)
  end%Z.

#[export] Instance list_cmp_order {A} (f : A → A → Z) : CmpOrder f → CmpOrder (list_cmp f).
Proof.
  intros Hf. split.
  - intros l. induction l as [|a l IH]; intros [|b k]; simpl; auto.
    unfold lex. case_match; [apply IH|apply cmp_range].
  - intros l. induction l as [|a l IH]; intros [|b k]; simpl; auto.
    unfold lex. rewrite (cmp_flip a b), IH.
    destruct (Z.eqb_spec (f a b) 0), (Z.eqb_spec (- f a b) 0); lia.
  - intros l. induction l as [|a l IH]; intros [|b k] [|c m]; simpl; try lia.
    specialize (IH k m). unfold lex.
    pose proof (cmp_lt_trans_l a b c). pose proof (cmp_lt_trans_r a b c).
    pose proof (cmp_trans a b c). pose proof (cmp_eq_l a b c).
    destruct (Z.eqb_spec (f a b) 0), (Z.eqb_spec (f b c) 0), (Z.eqb_spec (f a c) 0); lia.
Qed.

(** Numbers, and strings by their bytes. *)
Definition num_cmp (a b : N) : Z :=
  match (a ?= b)%N with Lt => -1 | Eq => 0 | Gt => 1 end%Z.

Definition str_cmp (s t : string) : Z :=
  match String.compare s t with Lt => -1 | Eq => 0 | Gt => 1 end%Z.

#[export] Instance num_cmp_order : CmpOrder num_cmp.
Proof.
  unfold num_cmp. split.
  - intros a b. destruct (a ?= b)%N; auto.
  - intros a b. rewrite (N.compare_antisym a b). by destruct (a ?= b)%N.
  - intros a b c. destruct (N.compare_spec a b), (N.compare_spec b c), (N.compare_spec a c); lia.
Qed.

Lemma str_cmp_leb s t : (str_cmp s t <= 0)%Z ↔ String.le s t.
Proof.
  unfold str_cmp, String.le, String.leb. destruct (String.compare s t); simpl; intuition lia.
Qed.

#[export] Instance str_cmp_order : CmpOrder str_cmp.
Proof.
  split.
  - intros a b. unfold str_cmp. destruct (String.compare a b); auto.
  - intros a b. unfold str_cmp. rewrite (String.compare_antisym b a).
    by destruct (String.compare a b).
  - intros a b c. rewrite !str_cmp_leb. apply transitivity.
Qed.

Lemma str_cmp_eq s t : str_cmp s t = 0%Z ↔ s = t.
Proof.
  split; [|intros ->; apply cmp_refl]. unfold str_cmp.
  destruct (String.compare s t) eqn:E; [by apply String.compare_eq_iff in E|done..].
Qed.

Lemma num_cmp_eq a b : num_cmp a b = 0%Z ↔ a = b.
Proof.
  unfold num_cmp. destruct (N.compare_spec a b); split; intros; try done; lia.
Qed.

Lemma sltb_cmp s t : sltb s t = (str_cmp s t =? -1)%Z.
Proof. unfold sltb, str_cmp, String.ltb. by destruct (String.compare s t). Qed.

(** ** Strict weak orders and package sort *)

(** What [sort.Interface] asks of Less: "a strict weak ordering", as asymmetry
    and transitivity of the negation. *)
Class StrictWeakOrder {A} (less : A → A → bool) : Prop := {
  swo_asym a b : less a b = true → less b a = false;
  swo_neg_trans a b c : less a b = false → less b c = false → less a c = false;
}.

#[export] Instance cmp_swo {A} (f : A → A → Z) :
  CmpOrder f → StrictWeakOrder (λ a b, (f a b =? -1)%Z).
Proof.
  intros Hf. split.
  - intros a b. rewrite Z.eqb_eq, Z.eqb_neq, (cmp_flip (f:=f) a b). lia.
  - intros a b c. rewrite !Z.eqb_neq. pose proof (cmp_range (f:=f) a b).
    pose proof (cmp_range (f:=f) b c). pose proof (cmp_range (f:=f) a c).
    pose proof (cmp_trans (f:=f) c b a). pose proof (cmp_flip (f:=f) a b).
    pose proof (cmp_flip (f:=f) b c). pose proof (cmp_flip (f:=f) a c). lia.
Qed.

(** [sort.Reverse]. *)
Definition Reverse {A} (less : A → A → bool) : A → A → bool := λ a b, less b a.

#[export] Instance Reverse_swo {A} (less : A → A → bool) :
  StrictWeakOrder less → StrictWeakOrder (Reverse less).
Proof.
  unfold Reverse. intros Hl. split.
  - intros a b. apply swo_asym.
  - intros a b c ??. by eapply swo_neg_trans.
Qed.

Lemma swo_proj {A B} (p : A → B) (less : B → B → bool) :
  StrictWeakOrder less → StrictWeakOrder (λ a b, less (p a) (p b)).
Proof.
  intros Hl. split; intros a b; [apply swo_asym|]. intros c. apply swo_neg_trans.
Qed.

#[export] Instance sltb_swo : StrictWeakOrder sltb.
Proof.
  destruct (cmp_swo str_cmp _) as [H1 H2]. split; intros a b; rewrite !sltb_cmp; [apply H1|].
  intros c. rewrite !sltb_cmp. apply H2.
Qed.

#[export] Instance Zltb_swo : StrictWeakOrder Z.ltb.
Proof. split; intros a b; [rewrite Z.ltb_lt, Z.ltb_ge; lia|]. intros c. rewrite !Z.ltb_ge. lia. Qed.

(** The order a sorted slice is in: no element is less than one before it. *)
Definition not_after {A} (less : A → A → bool) (a b : A) : Prop := less b a = false.

#[export] Instance not_after_trans `{StrictWeakOrder A less} : Transitive (not_after less).
Proof. intros a b c Hab Hbc. unfold not_after in *. by eapply swo_neg_trans. Qed.

#[export] Instance not_after_total `{StrictWeakOrder A less} : Total (not_after less).
Proof.
  intros a b. unfold not_after. destruct (less b a) eqn:E; [right|by left]. by apply swo_asym.
Qed.

(** [sort.Sort]: the operation, and its documented contract.  The result is some
    ordered permutation; which one is not specified. *)
Class GoSort : Type := sort_Sort : ∀ {A : Type}, (A → A → bool) → list A → list A.

Class GoSortLaws `{GoSort} : Prop := {
  sort_perm {A} (less : A → A → bool) (l : list A) : sort_Sort less l ≡ₚ l;
  sort_sorted {A} (less : A → A → bool) (l : list A) :
    StrictWeakOrder less → StronglySorted (not_after less) (sort_Sort less l);
}.

(** [sort.Strings]. *)
Definition sort_Strings `{GoSort} (l : list string) : list string := sort_Sort sltb l.

Lemma not_after_sltb_le s t : not_after sltb s t ↔ String.le s t.
Proof.
  unfold not_after. rewrite sltb_cmp, Z.eqb_neq, <- str_cmp_leb, (cmp_flip (f:=str_cmp) s t).
  pose proof (cmp_range (f:=str_cmp) s t). lia.
Qed.

Lemma StronglySorted_impl {A} (R R' : A → A → Prop) (l : list A) :
  (∀ a b, R a b → R' a b) → StronglySorted R l → StronglySorted R' l.
Proof.
  intros HR. induction 1 as [|x l _ IH Hx]; constructor; [done|]. eapply Forall_impl; eauto.
Qed.

Lemma sorted_le (l : list string) :
  StronglySorted (not_after sltb) l → StronglySorted String.le l.
Proof. apply StronglySorted_impl. intros s t. by rewrite not_after_sltb_le. Qed.

(** Sorting strings is a function of the set of occurrences alone. *)
Lemma sort_Strings_unique `{GoSortLaws} (l k : list string) :
  l ≡ₚ k → sort_Strings l = sort_Strings k.
Proof.
  intros Hlk. eapply (StronglySorted_unique_strong (not_after sltb)); [|by apply sort_sorted, _..|].
  - intros x y _ _. rewrite !not_after_sltb_le. apply String.le_po.
  - unfold sort_Strings. by rewrite !sort_perm.
Qed.

(** ** Iteration order of maps *)

(** [for k, v := range m]: each execution visits the entries once, in an order
    the language does not specify. *)
Class MapRange : Type :=
  map_range : ∀ {K V : Type} `{Countable K}, gmap K V → list (K * V).

Class MapRangeLaws `{MapRange} : Prop :=
  map_range_perm : ∀ {K V : Type} `{Countable K} (m : gmap K V), map_range m ≡ₚ map_to_list m.

(** The keys in iteration order, [for k := range m]. *)
Definition range_keys `{MapRange} {K V} `{Countable K} (m : gmap K V) : list K := (map_range m).*1.

Section range.
Context `{MapRangeLaws} {K V : Type} `{Countable K}.
Implicit Types m : gmap K V.

Lemma elem_of_map_range m k v : (k, v) ∈ map_range m ↔ m !! k = Some v.
Proof. by rewrite map_range_perm, elem_of_map_to_list. Qed.

Lemma NoDup_range_keys m : NoDup (range_keys m).
Proof. unfold range_keys. rewrite map_range_perm. apply NoDup_fst_map_to_list. Qed.

Lemma elem_of_range_keys m k : k ∈ range_keys m ↔ is_Some (m !! k).
Proof.
  unfold range_keys. rewrite list_elem_of_fmap. split.
  - intros ([k' v] & -> & Hin%elem_of_map_range). by exists v.
  - intros [v Hv]. exists (k, v). by rewrite elem_of_map_range.
Qed.
End range.

(** ** Executable instances *)

(** The insertion sort that [sort.Sort] uses on short slices: each element moves
    left past the ones it is less than.  [rev_prefix] is the sorted prefix, last
    element first. *)
Fixpoint sift {A} (less : A → A → bool) (x : A) (rev_prefix : list A) : list A :=
  match rev_prefix with
  | [] => [x]
  | y :: l => if less x y then y :: sift less x l else x :: y :: l
  end.

Definition insertion_sort {A} (less : A → A → bool) (l : list A) : list A :=
  reverse (foldl (λ p x, sift less x p) [] l).

Lemma sift_perm {A} (less : A → A → bool) x l : sift less x l ≡ₚ x :: l.
Proof.
  induction l as [|y l IH]; simpl; [done|]. destruct (less x y); [|done].
  rewrite IH. apply Permutation_swap.
Qed.

Lemma foldl_sift_perm {A} (less : A → A → bool) l p :
  foldl (λ p x, sift less x p) p l ≡ₚ l ++ p.
Proof.
  revert p. induction l as [|x l IH]; intros p; simpl; [done|].
  rewrite IH, sift_perm. symmetry. apply Permutation_middle.
Qed.

Lemma sift_sorted `{StrictWeakOrder A less} x l :
  StronglySorted (flip (not_after less)) l →
  StronglySorted (flip (not_after less)) (sift less x l).
Proof.
  induction 1 as [|y l Hl IH Hy]; simpl; [by repeat constructor|].
  unfold not_after in *. destruct (less x y) eqn:E.
  - constructor; [done|]. rewrite sift_perm. constructor; [|done].
    simpl. by apply swo_asym.
  - constructor; [by constructor|]. constructor; [done|].
    eapply Forall_impl; [exact Hy|]. simpl. intros z Hz.
    by eapply swo_neg_trans.
Qed.

Lemma StronglySorted_reverse {A} (R : relation A) l :
  StronglySorted (flip R) l → StronglySorted R (reverse l).
Proof.
  induction 1 as [|x l Hl IH Hx]; [constructor|]. rewrite reverse_cons.
  apply StronglySorted_app. split_and!; [|done|by repeat constructor].
  intros y z Hy Hz%list_elem_of_singleton. subst. rewrite elem_of_reverse in Hy.
  rewrite Forall_forall in Hx. by apply (Hx y).
Qed.

Definition insertion_GoSort : GoSort := @insertion_sort.

Lemma insertion_GoSortLaws : @GoSortLaws insertion_GoSort.
Proof.
  split.
  - intros A less l. unfold sort_Sort, insertion_GoSort, insertion_sort.
    rewrite reverse_Permutation, foldl_sift_perm. by rewrite app_nil_r.
  - intros A less l Hl. apply StronglySorted_reverse.
    assert (StronglySorted (flip (not_after less)) []) as Hp by constructor.
    revert Hp. generalize (@nil A). induction l as [|x l IH]; intros p Hp; simpl; [done|].
    apply IH. by apply sift_sorted.
Qed.

Definition list_MapRange : MapRange := λ K V EK CK, map_to_list.

Lemma list_MapRangeLaws : @MapRangeLaws list_MapRange.
Proof. intros K V EK CK m. reflexivity. Qed.

(** The opposite order, to show that a theorem covers more than one run. *)
Definition rev_MapRange : MapRange := λ K V EK CK m, reverse (map_to_list m).

Lemma rev_MapRangeLaws : @MapRangeLaws rev_MapRange.
Proof. intros K V EK CK m. apply reverse_Permutation. Qed.
