(* ===== verification/InfDec.v ===== *)
(** * Decimals of arbitrary precision: package inf (dec.go, rounder.go)

    The amount of a resource.Quantity is an inf.Dec: the requests and limits the
    console adds up are sums of these.  A method of the package works on pointers,
    [z.Op(x, y)] overwriting [z], which may be one of the operands; so decimals live
    in a store and the operations are programs over it.  math/big's integers are [Z];
    a pointer to one is a field of a Dec in the store or a temporary.  A Scale is an
    int32 and wraps. *)

From stdpp Require Import prelude gmap strings.
From Stdlib Require Import ZArith NArith Ascii QArith Qpower.
From S2P Require Import Prelude GoStrings.

Module inf.

Local Open Scope Z_scope.

(** ** Machine integers and math/big *)

Definition wrap32 (z : Z) : Z := (z + 2 ^ 31) mod 2 ^ 32 - 2 ^ 31.
Definition wrap64 (z : Z) : Z := (z + 2 ^ 63) mod 2 ^ 64 - 2 ^ 63.

(** [x.Cmp(y)]. *)
Definition big_Cmp (x y : Z) : Z := match x ?= y with Lt => -1 | Eq => 0 | Gt => 1 end.

(** [Quo] and [QuoRem] truncate and panic on a zero divisor. *)
Definition big_QuoRem (x y : Z) : go (Z * Z) :=
  if y =? 0 then gopanic (Panicked "division by zero") else Val (Z.quot x y, Z.rem x y).

Definition big_BitLen (x : Z) : Z := if x =? 0 then 0 else Z.log2 (Z.abs x) + 1.

Definition big_Bit (x i : Z) : Z := if Z.testbit x i then 1 else 0.

(** ** The store *)

Abbreviation loc := positive.

Record Dec : Type := mkDec { Dec_unscaled : Z; Dec_scale : Z }.

#[export] Instance Dec_eq_dec : EqDecision Dec.
Proof. solve_decision. Defined.

Abbreviation store := (gmap loc Dec).

Definition M (A : Type) : Type := store → go (A * store).

#[export] Instance M_ret : MRet M := λ A a σ, Val (a, σ).
#[export] Instance M_bind : MBind M := λ A B f m σ,
  match m σ with Val (a, σ) => f a σ | Halt h => Halt h end.

Definition lift {A} (m : go A) : M A := λ σ, a ← m; Val (a, σ).

Definition get (l : loc) : M Dec := λ σ,
  match σ !! l with Some d => Val (d, σ) | None => gopanic NilDereference end.

Definition put (l : loc) (d : Dec) : M () := λ σ,
  match σ !! l with Some _ => Val ((), <[l := d]> σ) | None => gopanic NilDereference end.

(** [new(Dec)]. *)
Definition new : M loc := λ σ,
  let l := fresh (dom σ : gset loc) in Val (l, <[l := mkDec 0 0]> σ).

(** A [*big.Int]: the unscaled value of a Dec, or an integer nothing else points to. *)
Inductive bigptr : Type := PField (l : loc) | PTemp (v : Z).

#[export] Instance bigptr_eq_dec : EqDecision bigptr.
Proof. solve_decision. Defined.

Definition read_big (p : bigptr) : M Z :=
  match p with PField l => d ← get l; mret (Dec_unscaled d) | PTemp v => mret v end.

(** ** Accessors *)

Definition Scale (x : loc) : M Z := d ← get x; mret (Dec_scale d).

Definition UnscaledBig (x : loc) : bigptr := PField x.

(** [x.unscaled] read and written through the pointer. *)
Definition unscaled (x : loc) : M Z := read_big (UnscaledBig x).

Definition set_unscaled (z : loc) (v : Z) : M () := d ← get z; put z (mkDec v (Dec_scale d)).

Definition SetScale (z : loc) (scale : Z) : M loc :=
  d ← get z; put z (mkDec (Dec_unscaled d) scale);; mret z.

(** The int64 and whether it is the value; Int64 keeps the low 64 bits. *)
Definition Unscaled (x : loc) : M (Z * bool) :=
  v ← unscaled x;
  let u := wrap64 v in
  mret (u, big_Cmp u v =? 0).

Definition SetUnscaled (z : loc) (v : Z) : M loc := set_unscaled z v;; mret z.

Definition SetUnscaledBig (z : loc) (v : bigptr) : M loc := v ← read_big v; set_unscaled z v;; mret z.

Definition SetDec (z x : loc) : M loc :=
  if bool_decide (z = x) then mret z
  else
    SetUnscaledBig z (UnscaledBig x);;
    s ← Scale x;
    SetScale z s;;
    mret z.

Definition NewDec (v scale : Z) : M loc := z ← new; SetUnscaled z v;; SetScale z scale.

Definition NewDecBig (v scale : Z) : M loc := z ← new; SetUnscaledBig z (PTemp v);; SetScale z scale.

Definition Sign (x : loc) : M Z := v ← unscaled x; mret (Z.sgn v).

(** ** Scales *)

Fixpoint exp10_fill (n : nat) (e10i : Z) : list Z :=
  match n with O => [] | S n => e10i :: exp10_fill n (e10i * 10) end.

(** The powers of ten computed once. *)
Definition exp10cache : list Z := exp10_fill 64 1.

(** A negative argument is a negative index into the cache. *)
Definition exp10 (x : Z) : go Z :=
  if x <? 64 then if x <? 0 then gopanic IndexOutOfRange else index exp10cache (Z.to_nat x)
  else Val (10 ^ x).

Definition rescale (x : loc) (newScale : Z) : M loc :=
  s ← Scale x;
  let shift := wrap32 (newScale - s) in
  if shift <? 0 then
    e ← lift (exp10 (wrap32 (- shift)));
    v ← unscaled x;
    '(q, _) ← lift (big_QuoRem v e);
    NewDecBig q newScale
  else if 0 <? shift then
    e ← lift (exp10 shift);
    v ← unscaled x;
    NewDecBig (v * e) newScale
  else mret x.

Definition upscale (a b : loc) : M (loc * loc) :=
  sa ← Scale a; sb ← Scale b;
  if sa =? sb then mret (a, b)
  else if sb <? sa then bb ← rescale b sa; mret (a, bb)
  else aa ← rescale a sb; mret (aa, b).

(** ** Arithmetic *)

Definition Neg (z x : loc) : M loc :=
  s ← Scale x; SetScale z s;; v ← unscaled x; set_unscaled z (- v);; mret z.

Definition Abs (z x : loc) : M loc :=
  s ← Scale x; SetScale z s;; v ← unscaled x; set_unscaled z (Z.abs v);; mret z.

Definition Cmp (x y : loc) : M Z :=
  '(xx, yy) ← upscale x y;
  a ← unscaled xx; b ← unscaled yy;
  mret (big_Cmp a b).

(** Add and Sub are the same but for the integer operation. *)
Definition addsub (op : Z → Z → Z) (z x y : loc) : M loc :=
  '(xx, yy) ← upscale x y;
  s ← Scale xx;
  SetScale z s;;
  a ← unscaled xx; b ← unscaled yy;
  set_unscaled z (op a b);;
  mret z.

Definition Add : loc → loc → loc → M loc := addsub Z.add.
Definition Sub : loc → loc → loc → M loc := addsub Z.sub.

Definition Mul (z x y : loc) : M loc :=
  sx ← Scale x; sy ← Scale y;
  SetScale z (wrap32 (sx + sy));;
  a ← unscaled x; b ← unscaled y;
  set_unscaled z (a * b);;
  mret z.

(** ** Division *)

(** The quotient in [z] and, when asked for, the remainder's numerator and
    denominator.  The denominator is read after the quotient was written, through a
    copy when the divisor's integer is the receiver's. *)
Definition quoRem (z x y : loc) (s : Z) (useRem : bool) : M (loc * option Z * option Z) :=
  sx ← Scale x; sy ← Scale y;
  let shift := wrap32 (s - wrap32 (sx - sy)) in
  '(ix, iy) ←
    (if 0 <? shift then
       vx ← unscaled x; e ← lift (exp10 shift); mret (PTemp (vx * e), UnscaledBig y)
     else if shift <? 0 then
       vy ← unscaled y; e ← lift (exp10 (wrap32 (- shift))); mret (UnscaledBig x, PTemp (vy * e))
     else mret (UnscaledBig x, UnscaledBig y));
  iy2 ←
    (if bool_decide (iy = UnscaledBig z) then v ← read_big iy; mret (PTemp v) else mret iy);
  SetScale z s;;
  a ← read_big ix; b ← read_big iy;
  '(q, r) ← lift (big_QuoRem a b);
  set_unscaled z q;;
  if useRem then remDen ← read_big iy2; mret (z, Some r, Some remDen)
  else mret (z, None, None).

(** The factors of [p] in [n]; None when they outnumber the fuel. *)
Fixpoint factor_loop (fuel : nat) (d p : Z) (f : Z) : option Z :=
  match fuel with
  | O => None
  | S fuel => if d mod p =? 0 then factor_loop fuel (d / p) p (f + 1) else Some f
  end.

(** A positive [n] has at most log2 n factors of [p] > 1. *)
Definition factor (n p : Z) : option Z := factor_loop (S (S (Z.to_nat (Z.log2 n)))) n p 0.

Fixpoint factor2_loop (fuel : nat) (n f : Z) : option Z :=
  match fuel with
  | O => None
  | S fuel => if big_Bit n f =? 0 then factor2_loop fuel n (f + 1) else Some f
  end.

Definition factor2 (n : Z) : option Z := factor2_loop (S (S (Z.to_nat (Z.log2 n)))) n 0.

(** The denominator of [x / y] in lowest terms. *)
Definition rat_Denom (x y : Z) : go Z :=
  if y =? 0 then gopanic (Panicked "division by zero") else Val (Z.abs y / Z.gcd x y).

Definition terminates {A} (m : option A) : go A :=
  match m with Some a => Val a | None => gopanic (Panicked "no result within the fuel") end.

(** The two scalers. *)
Inductive scaler : Type := sclr (s : Z) | scaleQuoExact.

Definition scaler_Scale (s : scaler) (x y : loc) : M Z :=
  match s with
  | sclr s => mret s
  | scaleQuoExact =>
      vx ← unscaled x; vy ← unscaled y;
      denom ← lift (rat_Denom vx vy);
      f2 ← lift (terminates (factor2 denom));
      f5 ← lift (terminates (factor denom 5));
      let f10 := wrap32 (if f5 <? f2 then f2 else f5) in
      sx ← Scale x; sy ← Scale y;
      mret (wrap32 (wrap32 (sx - sy) + f10))
  end.

(** ** Rounding *)

(** A rounder is told the remainder when it uses it. *)
Record rndr : Type := mkRndr {
  UseRemainder : bool;
  rndr_Round : loc → loc → option Z → option Z → M (option loc) }.

Definition intSign : list Z := [-1; 0; 1].

(** [z.unscaled += intSign[s+1]]. *)
Definition add_sign (z : loc) (s : Z) : M () :=
  v ← unscaled z; i ← lift (index intSign (Z.to_nat (s + 1))); set_unscaled z (v + i).

Definition roundHalf (f : Z → Z → bool) (z q : loc) (rA rB : option Z) : M (option loc) :=
  SetDec z q;;
  rA ← lift (deref rA); rB ← lift (deref rB);
  let brA := big_BitLen rA in
  let brB := big_BitLen rB in
  if brA <? brB - 1 then mret (Some z)
  else
    let srB := Z.sgn rB in
    let s := Z.sgn rA * srB in
    v ← unscaled z;
    let roundUp :=
      if brA =? brB - 1 then
        let rA2 := Z.shiftl rA 1 in
        let rA2 := if s <? 0 then - rA2 else rA2 in
        f (big_Cmp rA2 rB * srB) (big_Bit v 0)
      else true in
    (if roundUp then add_sign z s else mret ());;
    mret (Some z).

Definition RoundExact : rndr := mkRndr true (λ z q rA rB,
  rA ← lift (deref rA);
  if negb (Z.sgn rA =? 0) then mret None else z ← SetDec z q; mret (Some z)).

Definition RoundDown : rndr := mkRndr false (λ z q rA rB, z ← SetDec z q; mret (Some z)).

Definition RoundUp : rndr := mkRndr true (λ z q rA rB,
  SetDec z q;;
  rA ← lift (deref rA); rB ← lift (deref rB);
  (if negb (Z.sgn rA =? 0) then add_sign z (Z.sgn rA * Z.sgn rB) else mret ());;
  mret (Some z)).

Definition RoundFloor : rndr := mkRndr true (λ z q rA rB,
  SetDec z q;;
  rA ← lift (deref rA); rB ← lift (deref rB);
  (if Z.sgn rA * Z.sgn rB <? 0 then add_sign z (-1) else mret ());;
  mret (Some z)).

Definition RoundCeil : rndr := mkRndr true (λ z q rA rB,
  SetDec z q;;
  rA ← lift (deref rA); rB ← lift (deref rB);
  (if 0 <? Z.sgn rA * Z.sgn rB then add_sign z 1 else mret ());;
  mret (Some z)).

Definition RoundHalfDown : rndr := mkRndr true (roundHalf (λ c odd, 0 <? c)).
Definition RoundHalfUp : rndr := mkRndr true (roundHalf (λ c odd, 0 <=? c)).
Definition RoundHalfEven : rndr := mkRndr true (roundHalf (λ c odd, (0 <? c) || ((c =? 0) && (odd =? 1)))).

Definition quo (z x y : loc) (s : scaler) (r : rndr) : M (option loc) :=
  scl ← scaler_Scale s x y;
  zzz ←
    (if UseRemainder r then
       t ← new;
       '(zz, rA, rB) ← quoRem t x y scl true;
       t ← new;
       rndr_Round r t zz rA rB
     else
       t ← new;
       '(zz, _, _) ← quoRem t x y scl false;
       t ← new;
       rndr_Round r t zz None None);
  match zzz with
  | None => mret None
  | Some zzz => z ← SetDec z zzz; mret (Some z)
  end.

Definition QuoRound (z x y : loc) (s : Z) (r : rndr) : M (option loc) := quo z x y (sclr s) r.

Definition QuoExact (z x y : loc) : M (option loc) := quo z x y scaleQuoExact RoundExact.

Definition Round (z x : loc) (s : Z) (r : rndr) : M (option loc) :=
  one ← NewDec 1 0; QuoRound z x one s r.

(** ** Reasoning about the store *)

Implicit Types (σ : store).

Definition exec {A} (m : M A) (σ : store) (a : A) (σ' : store) : Prop := m σ = Val (a, σ').

Lemma exec_step {A B} (m : M A) (f : A → M B) σ a σ1 b σ2 :
  exec m σ a σ1 → exec (f a) σ1 b σ2 → exec (m ≫= f) σ b σ2.
Proof. unfold exec, mbind, M_bind. by intros ->. Qed.

(** One step of a program: [tac] executes its first command. *)
Tactic Notation "step" tactic3(tac) := eapply exec_step; [tac|cbn beta iota zeta].

Lemma exec_ret {A} (a : A) σ : exec (mret a) σ a σ.
Proof. done. Qed.

Lemma exec_lift {A} (m : go A) a σ : m = Val a → exec (lift m) σ a σ.
Proof. intros ->. done. Qed.

Lemma exec_get l d σ : σ !! l = Some d → exec (get l) σ d σ.
Proof. unfold exec, get. by intros ->. Qed.

Lemma exec_put l d d' σ : σ !! l = Some d → exec (put l d') σ () (<[l := d']> σ).
Proof. unfold exec, put. by intros ->. Qed.

(** A new decimal is apart from all others. *)
Lemma exec_new σ : ∃ l, σ !! l = None ∧ exec new σ l (<[l := mkDec 0 0]> σ).
Proof.
  exists (fresh (dom σ)). split; [|done]. apply not_elem_of_dom, is_fresh.
Qed.

Create HintDb inf.

#[local] Hint Resolve exec_ret exec_get : inf.

Lemma exec_Scale x d σ : σ !! x = Some d → exec (Scale x) σ (Dec_scale d) σ.
Proof. intros H. eapply exec_step; eauto with inf. Qed.

Lemma exec_unscaled x d σ : σ !! x = Some d → exec (unscaled x) σ (Dec_unscaled d) σ.
Proof. intros H. eapply exec_step; eauto with inf. Qed.

Lemma exec_SetScale z d s σ :
  σ !! z = Some d → exec (SetScale z s) σ z (<[z := mkDec (Dec_unscaled d) s]> σ).
Proof.
  intros H. step (eauto with inf). step (by eapply exec_put). apply exec_ret.
Qed.

Lemma exec_set_unscaled z d v σ :
  σ !! z = Some d → exec (set_unscaled z v) σ () (<[z := mkDec v (Dec_scale d)]> σ).
Proof. intros H. step (eauto with inf). by eapply exec_put. Qed.

(** A method that ends by storing the result of its receiver. *)
Definition stores (z : loc) (d : Dec) (σ σ' : store) : Prop :=
  σ' !! z = Some d ∧ delete z σ ⊆ σ'.

Lemma stores_insert z d σ σ' : σ ⊆ σ' → stores z d σ (<[z := d]> σ').
Proof.
  intros H. split; [apply lookup_insert_eq|]. apply map_subseteq_spec. intros l d'.
  rewrite lookup_delete_Some. intros [Hne Hl]. rewrite lookup_insert_ne by done.
  by eapply lookup_weaken.
Qed.

Lemma stores_mono z d σ σ1 σ2 : σ ⊆ σ1 → stores z d σ1 σ2 → stores z d σ σ2.
Proof.
  intros H [? H2]. split; [done|]. etrans; [|exact H2]. by apply delete_mono.
Qed.

(** SetScale then the unscaled value: both fields of the receiver. *)
Lemma exec_set_fields z d s v σ {A} (a : A) (m : M A) :
  σ !! z = Some d → exec m (<[z := mkDec (Dec_unscaled d) s]> σ) a (<[z := mkDec (Dec_unscaled d) s]> σ) →
  exec (SetScale z s;; a ← m; set_unscaled z v;; mret z) σ z (<[z := mkDec v s]> σ).
Proof.
  intros Hz Hm. step (by apply exec_SetScale). step (exact Hm).
  step (apply exec_set_unscaled, lookup_insert_eq). rewrite insert_insert_eq. apply exec_ret.
Qed.

Lemma exec_NewDecBig v s σ : ∃ l, σ !! l = None ∧ exec (NewDecBig v s) σ l (<[l := mkDec v s]> σ).
Proof.
  destruct (exec_new σ) as (l & Hl & Hnew). exists l. split; [done|].
  step (done). eapply exec_step.
  - step (apply exec_ret). step (apply exec_set_unscaled, lookup_insert_eq).
    apply exec_ret.
  - rewrite insert_insert_eq. simpl.
    rewrite <- (insert_insert_eq σ l (mkDec v s) (mkDec v 0)).
    apply (exec_SetScale l (mkDec v 0)), lookup_insert_eq.
Qed.

(** ** Powers of ten *)

Definition int32 (n : Z) : Prop := - 2 ^ 31 <= n < 2 ^ 31.

Lemma wrap32_id n : int32 n → wrap32 n = n.
Proof. unfold int32, wrap32. intros H. rewrite Z.mod_small; lia. Qed.

Lemma exp10_fill_lookup n e i : (i < n)%nat → exp10_fill n e !! i = Some (e * 10 ^ Z.of_nat i).
Proof.
  revert e i. induction n as [|n IH]; intros e [|i] H; [lia|lia|simpl; by rewrite Z.mul_1_r|].
  change (exp10_fill n (e * 10) !! i = Some (e * 10 ^ Z.of_nat (S i))).
  rewrite IH, Nat2Z.inj_succ, Z.pow_succ_r by lia. f_equal. ring.
Qed.

Lemma exp10_spec x : 0 <= x → exp10 x = Val (10 ^ x).
Proof.
  intros Hx. unfold exp10. destruct (Z.ltb_spec x 64); [|done].
  rewrite (proj2 (Z.ltb_ge x 0)) by done. unfold index, exp10cache.
  rewrite exp10_fill_lookup by lia. by rewrite Z2Nat.id, Z.mul_1_l by done.
Qed.

(** ** The value of a decimal *)

Definition ten (n : Z) : Q := (inject_Z 10 ^ n)%Q.

Definition value (d : Dec) : Q := (inject_Z (Dec_unscaled d) * ten (- Dec_scale d))%Q.

Lemma ten_pos n : (0 < ten n)%Q.
Proof. by apply Qpower_0_lt. Qed.

Lemma ten_add n m : (ten (n + m) == ten n * ten m)%Q.
Proof. by apply Qpower_plus. Qed.

Lemma ten_Z n : 0 <= n → (inject_Z (10 ^ n) == ten n)%Q.
Proof. intros Hn. by apply Zpower_Qpower. Qed.

(** Shifting the unscaled value left by the growth of the scale. *)
Lemma value_shift u s k : 0 <= k → (value (mkDec (u * 10 ^ k) (s + k)) == value (mkDec u s))%Q.
Proof.
  intros Hk. unfold value. simpl. rewrite inject_Z_mult, ten_Z by done.
  rewrite <- Qmult_assoc, <- ten_add. replace (k + - (s + k)) with (- s) by lia. reflexivity.
Qed.

Lemma Qcompare_mult_pos a b p : (0 < p)%Q → (inject_Z a * p ?= inject_Z b * p)%Q = (a ?= b).
Proof.
  intros Hp. destruct (Z.compare_spec a b) as [->|H|H].
  - by apply Qeq_alt.
  - apply Qlt_alt. apply Qmult_lt_r; [done|]. by rewrite <- Zlt_Qlt.
  - apply Qgt_alt. apply Qmult_lt_r; [done|]. by rewrite <- Zlt_Qlt.
Qed.

(** ** Bringing two decimals to one scale *)

(** The difference of two scales is a Scale. *)
Definition comparable (dx dy : Dec) : Prop := - 2 ^ 31 < Dec_scale dx - Dec_scale dy < 2 ^ 31.

Definition common_scale (dx dy : Dec) : Z := Z.max (Dec_scale dx) (Dec_scale dy).

Definition at_scale (s : Z) (d : Dec) : Z := Dec_unscaled d * 10 ^ (s - Dec_scale d).

Lemma value_at_scale s d : Dec_scale d <= s → (value (mkDec (at_scale s d) s) == value d)%Q.
Proof.
  intros H. unfold at_scale. rewrite <- (value_shift (Dec_unscaled d) (Dec_scale d) (s - Dec_scale d)) by lia.
  replace (Dec_scale d + (s - Dec_scale d)) with s by lia. reflexivity.
Qed.

Lemma at_scale_same d : at_scale (Dec_scale d) d = Dec_unscaled d.
Proof. unfold at_scale. by rewrite Z.sub_diag, Z.mul_1_r. Qed.

Lemma rescale_up x s d σ :
  σ !! x = Some d → Dec_scale d < s → int32 (s - Dec_scale d) →
  ∃ l, σ !! l = None ∧ exec (rescale x s) σ l (<[l := mkDec (at_scale s d) s]> σ).
Proof.
  intros Hx Hs Hi. destruct (exec_NewDecBig (at_scale s d) s σ) as (l & Hl & Hnew).
  exists l. split; [done|]. step (by apply exec_Scale).
  rewrite (wrap32_id (s - Dec_scale d)) by done.
  rewrite (proj2 (Z.ltb_ge _ _)), (proj2 (Z.ltb_lt _ _)) by lia.
  step (apply exec_lift, exp10_spec; lia).
  step (by apply exec_unscaled). exact Hnew.
Qed.

Lemma upscale_spec x y dx dy σ :
  σ !! x = Some dx → σ !! y = Some dy → comparable dx dy →
  let s := common_scale dx dy in
  ∃ xx yy σ', exec (upscale x y) σ (xx, yy) σ' ∧ σ ⊆ σ'
    ∧ σ' !! xx = Some (mkDec (at_scale s dx) s) ∧ σ' !! yy = Some (mkDec (at_scale s dy) s).
Proof.
  intros Hx Hy Hc s. unfold comparable in Hc. subst s.
  unfold common_scale. destruct (Z.lt_trichotomy (Dec_scale dx) (Dec_scale dy)) as [H|[H|H]].
  - rewrite Z.max_r by lia.
    destruct (rescale_up x (Dec_scale dy) dx σ Hx H) as (l & Hl & Hr); [unfold int32; lia|].
    exists l, y, (<[l := mkDec (at_scale (Dec_scale dy) dx) (Dec_scale dy)]> σ).
    split_and!; [|by apply insert_subseteq|apply lookup_insert_eq|].
    + step (by apply exec_Scale). step (by apply exec_Scale).
      rewrite (proj2 (Z.eqb_neq _ _)), (proj2 (Z.ltb_ge _ _)) by lia.
      step (exact Hr). apply exec_ret.
    + rewrite lookup_insert_ne by congruence. rewrite at_scale_same. by destruct dy.
  - rewrite H, Z.max_id. exists x, y, σ. split_and!; [|done| |].
    + step (by apply exec_Scale). step (by apply exec_Scale).
      rewrite (proj2 (Z.eqb_eq _ _)) by lia. apply exec_ret.
    + rewrite <- H, at_scale_same. by destruct dx.
    + rewrite at_scale_same. by destruct dy.
  - rewrite Z.max_l by lia.
    destruct (rescale_up y (Dec_scale dx) dy σ Hy H) as (l & Hl & Hr); [unfold int32; lia|].
    exists x, l, (<[l := mkDec (at_scale (Dec_scale dx) dy) (Dec_scale dx)]> σ).
    split_and!; [|by apply insert_subseteq| |apply lookup_insert_eq].
    + step (by apply exec_Scale). step (by apply exec_Scale).
      rewrite (proj2 (Z.eqb_neq _ _)), (proj2 (Z.ltb_lt _ _)) by lia.
      step (exact Hr). apply exec_ret.
    + rewrite lookup_insert_ne by congruence. rewrite at_scale_same. by destruct dx.
Qed.

(** ** Exact operations

    The receiver may be an operand, and both operands may be one decimal; all other
    decimals keep their value. *)

Lemma lookup_SetScale (z : loc) d s σ (x : loc) v :
  σ !! z = Some d → σ !! x = Some (mkDec v s) →
  ∃ d', <[z := mkDec (Dec_unscaled d) s]> σ !! x = Some d' ∧ Dec_unscaled d' = v.
Proof.
  intros Hz Hx. destruct (decide (x = z)) as [->|Hne].
  - rewrite lookup_insert_eq. simplify_eq. by eexists.
  - rewrite lookup_insert_ne by done. by eexists.
Qed.

Lemma addsub_spec op z x y dx dy σ :
  σ !! x = Some dx → σ !! y = Some dy → is_Some (σ !! z) → comparable dx dy →
  let s := common_scale dx dy in
  ∃ σ', exec (addsub op z x y) σ z σ' ∧ stores z (mkDec (op (at_scale s dx) (at_scale s dy)) s) σ σ'.
Proof.
  intros Hx Hy [dz Hz] Hc s. destruct (upscale_spec x y dx dy σ Hx Hy Hc) as (xx & yy & σ1 & Hup & Hsub & Hxx & Hyy).
  pose proof (lookup_weaken _ _ _ _ Hz Hsub) as Hz1.
  destruct (lookup_SetScale z dz s σ1 xx _ Hz1 Hxx) as (d1 & Hd1 & Hv1).
  destruct (lookup_SetScale z dz s σ1 yy _ Hz1 Hyy) as (d2 & Hd2 & Hv2).
  eexists. split; [|by apply stores_insert, Hsub].
  step (exact Hup). step (by apply exec_Scale). step (by apply exec_SetScale).
  step (by apply exec_unscaled). step (by apply exec_unscaled).
  step (apply exec_set_unscaled, lookup_insert_eq).
  fold s. rewrite insert_insert_eq, Hv1, Hv2. apply exec_ret.
Qed.

Lemma value_op u v s :
  (value (mkDec (u + v) s) == value (mkDec u s) + value (mkDec v s))%Q
  ∧ (value (mkDec (u - v) s) == value (mkDec u s) - value (mkDec v s))%Q.
Proof. unfold value. simpl. rewrite inject_Z_plus. unfold Z.sub. rewrite inject_Z_plus, inject_Z_opp. split; ring. Qed.

Lemma value_common dx dy :
  (value (mkDec (at_scale (common_scale dx dy) dx) (common_scale dx dy)) == value dx)%Q
  ∧ (value (mkDec (at_scale (common_scale dx dy) dy) (common_scale dx dy)) == value dy)%Q.
Proof. split; apply value_at_scale; unfold common_scale; lia. Qed.

Lemma Sub_exact z x y dx dy σ :
  σ !! x = Some dx → σ !! y = Some dy → is_Some (σ !! z) → comparable dx dy →
  ∃ d σ', exec (Sub z x y) σ z σ' ∧ stores z d σ σ'
    ∧ (value d == value dx - value dy)%Q ∧ Dec_scale d = common_scale dx dy.
Proof.
  intros Hx Hy Hz Hc. destruct (addsub_spec Z.sub z x y dx dy σ Hx Hy Hz Hc) as (σ' & He & Hs).
  eexists _, σ'. split_and!; [exact He|exact Hs| |done].
  destruct (value_common dx dy) as [<- <-]. apply value_op.
Qed.

Lemma Mul_exact z x y dx dy σ :
  σ !! x = Some dx → σ !! y = Some dy → is_Some (σ !! z) → int32 (Dec_scale dx + Dec_scale dy) →
  ∃ d σ', exec (Mul z x y) σ z σ' ∧ stores z d σ σ'
    ∧ (value d == value dx * value dy)%Q ∧ Dec_scale d = Dec_scale dx + Dec_scale dy.
Proof.
  intros Hx Hy [dz Hz] Hi.
  exists (mkDec (Dec_unscaled dx * Dec_unscaled dy) (Dec_scale dx + Dec_scale dy)).
  eexists. split_and!; [|by apply stores_insert| |done].
  - step (by apply exec_Scale). step (by apply exec_Scale). rewrite wrap32_id by done.
    assert (∀ l d, σ !! l = Some d →
      exec (unscaled l) (<[z := mkDec (Dec_unscaled dz) (Dec_scale dx + Dec_scale dy)]> σ) (Dec_unscaled d)
           (<[z := mkDec (Dec_unscaled dz) (Dec_scale dx + Dec_scale dy)]> σ)) as Hread.
    { intros l d Hl. destruct (decide (l = z)) as [->|Hne].
      - simplify_eq. eapply (exec_unscaled z (mkDec (Dec_unscaled dz) _)), lookup_insert_eq.
      - apply exec_unscaled. by rewrite lookup_insert_ne. }
    step (by apply exec_SetScale). step (by apply Hread). step (by apply Hread).
    step (apply exec_set_unscaled, lookup_insert_eq). rewrite insert_insert_eq. apply exec_ret.
  - unfold value. simpl. rewrite inject_Z_mult, Z.opp_add_distr, ten_add. ring.
Qed.

(** Add is exact: the receiver's value becomes the sum of the operands' values, at
    the greater of their scales, whether or not the receiver is one of the operands;
    no other decimal changes. *)
Theorem Add_exact z x y dx dy σ :
  σ !! x = Some dx → σ !! y = Some dy → is_Some (σ !! z) → comparable dx dy →
  ∃ d σ', exec (Add z x y) σ z σ' ∧ stores z d σ σ'
    ∧ (value d == value dx + value dy)%Q ∧ Dec_scale d = Z.max (Dec_scale dx) (Dec_scale dy).
Proof.
  intros Hx Hy Hz Hc. destruct (addsub_spec Z.add z x y dx dy σ Hx Hy Hz Hc) as (σ' & He & Hs).
  eexists _, σ'. split_and!; [exact He|exact Hs| |done].
  destruct (value_common dx dy) as [<- <-]. apply value_op.
Qed.

(** Cmp compares the values, whatever the scales: two representations of one
    number are equal. *)
Theorem Cmp_exact x y dx dy σ :
  σ !! x = Some dx → σ !! y = Some dy → comparable dx dy →
  ∃ σ', σ ⊆ σ' ∧ exec (Cmp x y) σ
    (match (value dx ?= value dy)%Q with Lt => -1 | Eq => 0 | Gt => 1 end) σ'.
Proof.
  intros Hx Hy Hc. destruct (upscale_spec x y dx dy σ Hx Hy Hc) as (xx & yy & σ' & Hup & Hsub & Hxx & Hyy).
  exists σ'. split; [done|]. destruct (value_common dx dy) as [<- <-].
  unfold value. simpl. rewrite Qcompare_mult_pos by apply ten_pos.
  step (exact Hup). step (by apply exec_unscaled). step (by apply exec_unscaled). apply exec_ret.
Qed.

End inf.

(** ** Witnesses *)

Lemma Add_exact_witness :
  ∃ d σ', inf.exec (inf.Add 1 1 2) {[ 1%positive := inf.mkDec 150 2; 2%positive := inf.mkDec 25 1 ]} 1%positive σ'
    ∧ inf.stores 1 d {[ 1%positive := inf.mkDec 150 2; 2%positive := inf.mkDec 25 1 ]} σ'
    ∧ (inf.value d == inf.value (inf.mkDec 150 2) + inf.value (inf.mkDec 25 1))%Q
    ∧ inf.Dec_scale d = Z.max 2 1.
Proof.
  apply (inf.Add_exact 1 1 2); [reflexivity|reflexivity|by eexists|]. unfold inf.comparable. simpl. lia.
Defined.

Lemma Cmp_exact_witness :
  ∃ σ', ({[ 1%positive := inf.mkDec 100 2; 2%positive := inf.mkDec 1 0 ]} : gmap positive inf.Dec) ⊆ σ'
    ∧ inf.exec (inf.Cmp 1 2) {[ 1%positive := inf.mkDec 100 2; 2%positive := inf.mkDec 1 0 ]} 0%Z σ'.
Proof.
  apply (inf.Cmp_exact 1 2 (inf.mkDec 100 2) (inf.mkDec 1 0)); [reflexivity|reflexivity|].
  unfold inf.comparable. simpl. lia.
Defined.
