(* ===== verification/InfRound.v ===== *)
(** * Division and rounding of decimals

    quoRem satisfies the equation its documentation states, and each rounder of
    rounder.go yields the integer its mode asks for: the floor, the ceiling, the
    nearest one with the mode's choice between two.  The bit-length shortcut of
    roundHalf is part of what is proved. *)

From stdpp Require Import prelude gmap.
From Stdlib Require Import ZArith QArith Qpower Qround Znumtheory.
From S2P Require Import Prelude InfDec.

Import inf.

Module infround.

Local Open Scope Z_scope.

Implicit Types (σ : store) (z x y : loc) (dx dy : Dec).

(** ** The quotient *)

(** The scales keep the shift inside an int32. *)
Definition fits (s : Z) dx dy : Prop :=
  int32 (Dec_scale dx - Dec_scale dy) ∧ - 2 ^ 31 < s - (Dec_scale dx - Dec_scale dy) < 2 ^ 31.

Definition shift (s : Z) dx dy : Z := s - (Dec_scale dx - Dec_scale dy).

(** The adjusted dividend and divisor. *)
Definition dividend (s : Z) dx dy : Z := Dec_unscaled dx * 10 ^ Z.max 0 (shift s dx dy).
Definition divisor (s : Z) dx dy : Z := Dec_unscaled dy * 10 ^ Z.max 0 (- shift s dx dy).

Lemma dividend_nonpos s dx dy : shift s dx dy <= 0 → dividend s dx dy = Dec_unscaled dx.
Proof. intros H. unfold dividend. by rewrite Z.max_l, Z.mul_1_r. Qed.

Lemma divisor_nonneg s dx dy : 0 <= shift s dx dy → divisor s dx dy = Dec_unscaled dy.
Proof. intros H. unfold divisor. by rewrite Z.max_l, Z.mul_1_r by lia. Qed.

(** What a pointer reads once the receiver's scale is set. *)
Definition reads (σ : store) (p : bigptr) (v : Z) : Prop := exec (read_big p) σ v σ.

Lemma reads_field σ x d : σ !! x = Some d → reads σ (PField x) (Dec_unscaled d).
Proof. apply exec_unscaled. Qed.

Lemma reads_SetScale σ z dz s p v :
  σ !! z = Some dz → reads σ p v → reads (<[z := mkDec (Dec_unscaled dz) s]> σ) p v.
Proof.
  intros Hz. destruct p as [l|w]; unfold reads, exec, read_big, mbind, M_bind, mret, M_ret, get; [|congruence].
  destruct (decide (l = z)) as [->|Hne].
  - rewrite Hz, lookup_insert_eq. by intros [= <-].
  - rewrite lookup_insert_ne by done. destruct (σ !! l); [|done]. by intros [= <-].
Qed.

Lemma reads_write σ z d p v :
  p ≠ PField z → reads σ p v → reads (<[z := d]> σ) p v.
Proof.
  intros Hne. destruct p as [l|w]; unfold reads, exec, read_big, mbind, M_bind, mret, M_ret, get; [|congruence].
  rewrite lookup_insert_ne by congruence. destruct (σ !! l); [|done]. by intros [= <-].
Qed.

(** The pointers quoRem divides through. *)
Lemma quoRem_operands σ x y dx dy s :
  σ !! x = Some dx → σ !! y = Some dy → fits s dx dy →
  ∃ ix iy, reads σ ix (dividend s dx dy) ∧ reads σ iy (divisor s dx dy)
    ∧ exec (if 0 <? shift s dx dy then
              vx ← unscaled x; e ← lift (exp10 (shift s dx dy)); mret (PTemp (vx * e), UnscaledBig y)
            else if shift s dx dy <? 0 then
              vy ← unscaled y; e ← lift (exp10 (wrap32 (- shift s dx dy))); mret (UnscaledBig x, PTemp (vy * e))
            else mret (UnscaledBig x, UnscaledBig y)) σ (ix, iy) σ.
Proof.
  intros Hx Hy [_ Hs]. destruct (Z.ltb_spec 0 (shift s dx dy)) as [H|H].
  - exists (PTemp (dividend s dx dy)), (PField y). rewrite divisor_nonneg by lia.
    split_and!; [done|by apply reads_field|]. step (by apply exec_unscaled).
    step (apply exec_lift, exp10_spec; lia). unfold dividend. rewrite Z.max_r by lia. apply exec_ret.
  - rewrite dividend_nonpos by done. destruct (Z.ltb_spec (shift s dx dy) 0) as [H'|H'].
    + exists (PField x), (PTemp (divisor s dx dy)).
      split_and!; [by apply reads_field|done|]. step (by apply exec_unscaled).
      unfold shift in *. rewrite wrap32_id by (unfold int32; lia).
      step (apply exec_lift, exp10_spec; lia). unfold divisor, shift. rewrite Z.max_r by lia. apply exec_ret.
    + exists (PField x), (PField y). rewrite divisor_nonneg by lia.
      split_and!; [by apply reads_field|by apply reads_field|apply exec_ret].
Qed.

(** quoRem, for a receiver that may be an operand. *)
Lemma quoRem_spec z x y s useRem dx dy σ :
  σ !! x = Some dx → σ !! y = Some dy → is_Some (σ !! z) → fits s dx dy → Dec_unscaled dy ≠ 0 →
  let a := dividend s dx dy in let b := divisor s dx dy in
  ∃ σ', exec (quoRem z x y s useRem) σ
          (if useRem then (z, Some (Z.rem a b), Some b) else (z, None, None)) σ'
    ∧ σ' = <[z := mkDec (Z.quot a b) s]> σ.
Proof.
  intros Hx Hy [dz Hz] Hf Hne a b. eexists. split; [|reflexivity].
  destruct (quoRem_operands σ x y dx dy s Hx Hy Hf) as (ix & iy & Hix & Hiy & Hops).
  assert (b ≠ 0) as Hb by (unfold b, divisor; apply Z.neq_mul_0; split; [done|apply Z.pow_nonzero; lia]).
  step (by apply exec_Scale). step (by apply exec_Scale).
  destruct Hf as [Hi Hs]. rewrite (wrap32_id (Dec_scale dx - Dec_scale dy)) by done. fold (shift s dx dy).
  rewrite (wrap32_id (shift s dx dy)) by (unfold int32, shift; lia). step (exact Hops).
  assert (∃ iy2, reads σ iy2 b ∧ iy2 ≠ PField z ∧
    exec (if bool_decide (iy = UnscaledBig z) then v ← read_big iy; mret (PTemp v) else mret iy) σ iy2 σ)
    as (iy2 & Hiy2 & Hnz & Hcopy).
  { case_bool_decide as Heq.
    - exists (PTemp b). split_and!; [done|done|]. step (exact Hiy). apply exec_ret.
    - exists iy. split_and!; [done|done|apply exec_ret]. }
  step (exact Hcopy). step (by apply exec_SetScale).
  step (by apply (reads_SetScale _ _ _ _ _ _ Hz Hix)). step (by apply (reads_SetScale _ _ _ _ _ _ Hz Hiy)).
  unfold big_QuoRem. fold a b. rewrite (proj2 (Z.eqb_neq _ _)) by done.
  step (by apply exec_lift). step (apply exec_set_unscaled, lookup_insert_eq). rewrite insert_insert_eq.
  destruct useRem; [|apply exec_ret]. step (by apply (reads_write _ _ _ _ _ Hnz Hiy2)). apply exec_ret.
Qed.

(** The quotient of the values in units of the result's scale. *)
Lemma quotient_value s dx dy :
  Dec_unscaled dy ≠ 0 →
  (value dx / value dy * ten s == inject_Z (dividend s dx dy) / inject_Z (divisor s dx dy))%Q.
Proof.
  intros Hne. assert (∀ n, ¬ (ten n == 0)%Q) as Ht by (intros n Heq; pose proof (ten_pos n) as H; by rewrite Heq in H).
  assert (¬ (inject_Z (Dec_unscaled dy) == 0)%Q) as Hy by (unfold Qeq; simpl; lia).
  unfold value, dividend, divisor. rewrite !inject_Z_mult, !ten_Z by lia.
  apply (Qmult_inj_r _ _ (inject_Z (Dec_unscaled dy) * ten (- Dec_scale dy) * ten (Z.max 0 (- shift s dx dy)))).
  { intros H. apply Qmult_integral in H as [H|H]; [|by eapply Ht].
    apply Qmult_integral in H as [H|H]; [done|by eapply Ht]. }
  assert (ten (- Dec_scale dx) * ten s * ten (Z.max 0 (- shift s dx dy))
          == ten (- Dec_scale dy) * ten (Z.max 0 (shift s dx dy)))%Q as Heq.
  { rewrite <- !ten_add. unfold shift. replace (- Dec_scale dx + s + Z.max 0 (- (s - (Dec_scale dx - Dec_scale dy))))
      with (- Dec_scale dy + Z.max 0 (s - (Dec_scale dx - Dec_scale dy))) by lia. reflexivity. }
  transitivity (inject_Z (Dec_unscaled dx) * (ten (- Dec_scale dx) * ten s * ten (Z.max 0 (- shift s dx dy))))%Q.
  { field. auto. }
  rewrite Heq. field. auto.
Qed.

(** ** The rounding modes *)

Inductive mode : Type := Exact | Down | Up | Floor | Ceil | HalfDown | HalfUp | HalfEven.

#[export] Instance mode_eq_dec : EqDecision mode.
Proof. solve_decision. Defined.

Definition rounder_of (m : mode) : rndr :=
  match m with
  | Exact => RoundExact | Down => RoundDown | Up => RoundUp | Floor => RoundFloor | Ceil => RoundCeil
  | HalfDown => RoundHalfDown | HalfUp => RoundHalfUp | HalfEven => RoundHalfEven
  end.

(** At most half a unit away, and exactly half a unit only if [tie]. *)
Definition nearest (v : Q) (n : Z) (tie : Prop) : Prop :=
  (v - (1 # 2) <= inject_Z n <= v + (1 # 2))%Q
  ∧ ((inject_Z n == v - (1 # 2) ∨ inject_Z n == v + (1 # 2))%Q → tie).

(** What a mode promises of the integer [n] for the exact quotient [v]. *)
Definition rounded (m : mode) (v : Q) (n : Z) : Prop :=
  match m with
  | Exact => (v == inject_Z n)%Q
  | Down => n = if Qle_bool 0 v then Qfloor v else Qceiling v
  | Up => n = if Qle_bool 0 v then Qceiling v else Qfloor v
  | Floor => n = Qfloor v
  | Ceil => n = Qceiling v
  | HalfDown => nearest v n (0 <= inject_Z n <= v ∨ v <= inject_Z n <= 0)%Q
  | HalfUp => nearest v n (v <= inject_Z n ∧ 0 <= v ∨ inject_Z n <= v ∧ v <= 0)%Q
  | HalfEven => nearest v n (Z.even n = true)
  end.

#[export] Instance rounded_proper m : Proper (Qeq ==> eq ==> iff) (rounded m).
Proof.
  intros v w Hvw n ? <-. destruct m; simpl; unfold nearest;
    rewrite ?(Qfloor_comp _ _ Hvw), ?(Qceiling_comp _ _ Hvw); try rewrite Hvw; try reflexivity;
    (replace (Qle_bool 0 v) with (Qle_bool 0 w); [reflexivity|]);
    apply eq_true_iff_eq; rewrite !Qle_bool_iff; by rewrite Hvw.
Qed.

(** The step from the truncated quotient [q] that the rounders make. *)
Definition half_step (f : Z → Z → bool) (q rA rB : Z) : Z :=
  if big_BitLen rA <? big_BitLen rB - 1 then 0
  else
    let s := Z.sgn rA * Z.sgn rB in
    let up := if big_BitLen rA =? big_BitLen rB - 1
              then f (big_Cmp (if s <? 0 then - Z.shiftl rA 1 else Z.shiftl rA 1) rB * Z.sgn rB) (big_Bit q 0)
              else true in
    if up then s else 0.

Definition inc (m : mode) (q rA rB : Z) : Z :=
  let s := Z.sgn rA * Z.sgn rB in
  match m with
  | Exact | Down => 0
  | Up => s
  | Floor => if s <? 0 then -1 else 0
  | Ceil => if 0 <? s then 1 else 0
  | HalfDown => half_step (λ c odd, 0 <? c) q rA rB
  | HalfUp => half_step (λ c odd, 0 <=? c) q rA rB
  | HalfEven => half_step (λ c odd, (0 <? c) || ((c =? 0) && (odd =? 1))) q rA rB
  end.

Lemma exec_SetDec z x d σ :
  σ !! x = Some d → is_Some (σ !! z) → z ≠ x → exec (SetDec z x) σ z (<[z := d]> σ).
Proof.
  intros Hx [dz Hz] Hne. unfold SetDec. rewrite bool_decide_eq_false_2 by done.
  step (step (by apply exec_unscaled); step (by apply exec_set_unscaled); apply exec_ret).
  step (apply exec_Scale; by rewrite lookup_insert_ne).
  step (apply exec_SetScale, lookup_insert_eq). rewrite insert_insert_eq. destruct d. apply exec_ret.
Qed.

Lemma exec_add_sign z d s σ :
  -1 <= s <= 1 → σ !! z = Some d →
  exec (add_sign z s) σ () (<[z := mkDec (Dec_unscaled d + s) (Dec_scale d)]> σ).
Proof.
  intros Hs Hz. step (by apply exec_unscaled). step (apply exec_lift; instantiate (1 := s)).
  - assert (s = -1 ∨ s = 0 ∨ s = 1) as [->|[->| ->]] by lia; reflexivity.
  - by apply exec_set_unscaled.
Qed.

Lemma exec_add_sign_if (b : bool) z d s σ :
  -1 <= s <= 1 →
  exec (if b then add_sign z s else mret ()) (<[z := d]> σ) ()
    (<[z := mkDec (Dec_unscaled d + if b then s else 0) (Dec_scale d)]> σ).
Proof.
  intros Hs. destruct b.
  - rewrite <- (insert_insert_eq σ z (mkDec (Dec_unscaled d + s) (Dec_scale d)) d).
    by apply exec_add_sign; [|apply lookup_insert_eq].
  - rewrite Z.add_0_r. destruct d. apply exec_ret.
Qed.

Lemma sgn_mul_bound a b : -1 <= Z.sgn a * Z.sgn b <= 1.
Proof. destruct a, b; simpl; lia. Qed.

Lemma exec_roundHalf f z q d a b σ :
  σ !! q = Some d → is_Some (σ !! z) → z ≠ q →
  exec (roundHalf f z q (Some a) (Some b)) σ (Some z)
    (<[z := mkDec (Dec_unscaled d + half_step f (Dec_unscaled d) a b) (Dec_scale d)]> σ).
Proof.
  intros Hq Hz Hne. step (by apply exec_SetDec). step (by apply exec_lift). step (by apply exec_lift).
  unfold half_step. destruct (_ <? _).
  { rewrite Z.add_0_r. destruct d. apply exec_ret. }
  step (apply exec_unscaled, lookup_insert_eq).
  step (apply exec_add_sign_if, sgn_mul_bound). apply exec_ret.
Qed.

(** Every rounder but the exact one stores the stepped quotient. *)
Lemma rounder_step m z q d a b σ :
  m ≠ Exact → σ !! q = Some d → is_Some (σ !! z) → z ≠ q →
  let '(rA, rB) := if UseRemainder (rounder_of m) then (Some a, Some b) else (None, None) in
  exec (rndr_Round (rounder_of m) z q rA rB) σ (Some z)
    (<[z := mkDec (Dec_unscaled d + inc m (Dec_unscaled d) a b) (Dec_scale d)]> σ).
Proof.
  intros Hm Hq Hz Hne. destruct m; simpl; [done| | | | |by apply exec_roundHalf..].
  - rewrite Z.add_0_r. step (by apply exec_SetDec). destruct d. apply exec_ret.
  - step (by apply exec_SetDec). step (by apply exec_lift). step (by apply exec_lift).
    step (apply exec_add_sign_if, sgn_mul_bound). destruct a; apply exec_ret.
  - step (by apply exec_SetDec). step (by apply exec_lift). step (by apply exec_lift).
    step (apply exec_add_sign_if; lia). apply exec_ret.
  - step (by apply exec_SetDec). step (by apply exec_lift). step (by apply exec_lift).
    step (apply exec_add_sign_if; lia). apply exec_ret.
Qed.

(** ** The steps are right *)

Lemma BitLen_spec n : n ≠ 0 → 2 ^ (big_BitLen n - 1) <= Z.abs n < 2 ^ big_BitLen n.
Proof.
  intros Hn. unfold big_BitLen. rewrite (proj2 (Z.eqb_neq _ _)) by done.
  replace (Z.log2 (Z.abs n) + 1 - 1) with (Z.log2 (Z.abs n)) by lia.
  apply Z.log2_spec. lia.
Qed.

Lemma BitLen_nonneg n : 0 <= big_BitLen n.
Proof. unfold big_BitLen. destruct (_ =? _); [done|]. pose proof (Z.log2_nonneg (Z.abs n)). lia. Qed.

Lemma BitLen_zero n : big_BitLen n <= 0 → n = 0.
Proof.
  unfold big_BitLen. destruct (Z.eqb_spec n 0); [done|]. pose proof (Z.log2_nonneg (Z.abs n)). lia.
Qed.

(** Bit lengths that differ by two or more settle the comparison with a half. *)
Lemma BitLen_small a b : b ≠ 0 → big_BitLen a < big_BitLen b - 1 → 2 * Z.abs a < Z.abs b.
Proof.
  intros Hb H. destruct (Z.eq_dec a 0) as [->|Ha]; [lia|].
  pose proof (BitLen_spec a Ha). pose proof (BitLen_spec b Hb). pose proof (BitLen_nonneg a).
  assert (2 * 2 ^ big_BitLen a <= 2 ^ (big_BitLen b - 1)); [|lia].
  rewrite <- Z.pow_succ_r by done. apply Z.pow_le_mono_r; lia.
Qed.

Lemma BitLen_large a b : b ≠ 0 → big_BitLen b - 1 < big_BitLen a → Z.abs b < 2 * Z.abs a.
Proof.
  intros Hb H. pose proof (BitLen_spec b Hb).
  assert (0 < big_BitLen b) by (apply Z.nle_gt; intros ?%BitLen_zero; done).
  assert (a ≠ 0) as Ha by (intros ->; change (big_BitLen 0) with 0 in H; lia).
  pose proof (BitLen_spec a Ha).
  assert (2 ^ big_BitLen b <= 2 * 2 ^ (big_BitLen a - 1)); [|lia].
  rewrite <- Z.pow_succ_r by lia. apply Z.pow_le_mono_r; lia.
Qed.

Lemma big_Cmp_spec a b :
  a < b ∧ big_Cmp a b = -1 ∨ a = b ∧ big_Cmp a b = 0 ∨ b < a ∧ big_Cmp a b = 1.
Proof. unfold big_Cmp. destruct (Z.compare_spec a b); auto. Qed.

(** The comparison roundHalf makes is between twice the remainder and the divisor. *)
Lemma Cmp_double a b :
  b ≠ 0 →
  big_Cmp (if Z.sgn a * Z.sgn b <? 0 then - Z.shiftl a 1 else Z.shiftl a 1) b * Z.sgn b
  = big_Cmp (2 * Z.abs a) (Z.abs b).
Proof.
  intros Hb. change (Z.shiftl a 1) with (2 * a). destruct (Z.ltb_spec (Z.sgn a * Z.sgn b) 0);
  destruct (big_Cmp_spec (2 * Z.abs a) (Z.abs b)) as [[? ->]|[[? ->]|[? ->]]];
  match goal with |- big_Cmp ?u b * _ = _ => destruct (big_Cmp_spec u b) as [[? ->]|[[? ->]|[? ->]]] end;
  destruct a, b; simpl in *; lia.
Qed.

(** roundHalf steps away from zero when the comparison with a half says so; [f] need
    only be asked close to it. *)
Lemma half_step_spec f q a b :
  b ≠ 0 → (∀ odd, f (-1) odd = false) → (∀ odd, f 1 odd = true) →
  half_step f q a b =
  if f (big_Cmp (2 * Z.abs a) (Z.abs b)) (big_Bit q 0) then Z.sgn a * Z.sgn b else 0.
Proof.
  intros Hb Hlt Hgt. unfold half_step. rewrite Cmp_double by done.
  destruct (Z.ltb_spec (big_BitLen a) (big_BitLen b - 1)) as [H|H].
  - pose proof (BitLen_small a b Hb H).
    destruct (big_Cmp_spec (2 * Z.abs a) (Z.abs b)) as [[_ ->]|[[? _]|[? _]]]; [by rewrite Hlt|lia..].
  - destruct (Z.eqb_spec (big_BitLen a) (big_BitLen b - 1)) as [|Hne]; [done|].
    pose proof (BitLen_large a b Hb ltac:(lia)).
    destruct (big_Cmp_spec (2 * Z.abs a) (Z.abs b)) as [[? _]|[[? _]|[_ ->]]]; [lia..|by rewrite Hgt].
Qed.

(** Truncation, floor and ceiling of a fraction by its remainder. *)
Lemma trunc_spec A (P : positive) :
  let q := Z.quot A (Zpos P) in let R := Z.rem A (Zpos P) in
  A = Zpos P * q + R ∧ Z.abs R < Zpos P ∧ (0 <= A → 0 <= R) ∧ (A <= 0 → R <= 0).
Proof.
  intros q R. split_and!; [apply Z.quot_rem'|by apply Z.rem_bound_abs| |].
  - intros. by apply Z.rem_nonneg.
  - intros. by apply Z.rem_nonpos.
Qed.

Lemma floor_trunc A (P : positive) :
  Qfloor (A # P) = Z.quot A (Zpos P) + (if Z.rem A (Zpos P) <? 0 then -1 else 0).
Proof.
  destruct (trunc_spec A P) as (HA & HR & _). simpl. symmetry.
  destruct (Z.ltb_spec (Z.rem A (Zpos P)) 0).
  - apply (Z.div_unique _ _ _ (Z.rem A (Zpos P) + Zpos P)); lia.
  - apply (Z.div_unique _ _ _ (Z.rem A (Zpos P))); lia.
Qed.

Lemma ceiling_trunc A (P : positive) :
  Qceiling (A # P) = Z.quot A (Zpos P) + (if 0 <? Z.rem A (Zpos P) then 1 else 0).
Proof.
  unfold Qceiling. change (- (A # P))%Q with ((- A) # P). rewrite floor_trunc, Z.quot_opp_l, Z.rem_opp_l by done.
  destruct (Z.ltb_spec (- Z.rem A (Zpos P)) 0), (Z.ltb_spec 0 (Z.rem A (Zpos P))); lia.
Qed.

Lemma nonneg_trunc A (P : positive) : Qle_bool 0 (A # P) = (0 <=? A).
Proof. unfold Qle_bool. simpl. by rewrite Z.mul_1_r. Qed.

(** The nearest integers, in terms of the remainder. *)
Lemma nearest_trunc A (P : positive) n e (tie : Prop) :
  A - Zpos P * n = e → 2 * Z.abs e <= Zpos P → (2 * Z.abs e = Zpos P → tie) →
  nearest (A # P) n tie.
Proof.
  intros He Hle Htie. unfold nearest. split.
  - unfold Qle. simpl. split; lia.
  - intros H. apply Htie. unfold Qeq in H. simpl in H. lia.
Qed.

Lemma even_bit n : Z.even n = negb (big_Bit n 0 =? 1).
Proof. unfold big_Bit. rewrite Z.bit0_odd, <- Z.negb_odd. by destruct (Z.odd n). Qed.

Lemma half_frac f A (P : positive) (tie : Z → Prop) :
  let q := Z.quot A (Zpos P) in let R := Z.rem A (Zpos P) in
  (∀ odd, f (-1) odd = false) → (∀ odd, f 1 odd = true) →
  (2 * Z.abs R = Zpos P → tie (if f 0 (big_Bit q 0) then q + Z.sgn R else q)) →
  nearest (A # P) (q + half_step f q R (Zpos P)) (tie (q + half_step f q R (Zpos P))).
Proof.
  intros q R Hlt Hgt Htie. destruct (trunc_spec A P) as (HA & HR & _). fold q R in HA, HR.
  rewrite half_step_spec by done. change (Z.sgn (Zpos P)) with 1. rewrite Z.mul_1_r.
  change (Z.abs (Zpos P)) with (Zpos P).
  destruct (big_Cmp_spec (2 * Z.abs R) (Zpos P)) as [[H ->]|[[H ->]|[H ->]]].
  - rewrite Hlt, Z.add_0_r. apply (nearest_trunc _ _ _ R); lia.
  - specialize (Htie H). destruct (f 0 (big_Bit q 0)).
    + apply (nearest_trunc _ _ _ (R - Zpos P * Z.sgn R)); [lia|destruct R; simpl in *; lia|done].
    + rewrite Z.add_0_r. apply (nearest_trunc _ _ _ R); [lia|lia|done].
  - rewrite Hgt. apply (nearest_trunc _ _ _ (R - Zpos P * Z.sgn R)); [lia|destruct R; simpl in *; lia..].
Qed.

Lemma rounded_frac m A (P : positive) :
  m ≠ Exact →
  let q := Z.quot A (Zpos P) in
  rounded m (A # P) (q + inc m q (Z.rem A (Zpos P)) (Zpos P)).
Proof.
  intros Hm q. destruct (trunc_spec A P) as (HA & HR & Hnn & Hnp). fold q in HA.
  destruct m; cbn [rounded inc]; [done|..];
    rewrite ?nonneg_trunc, ?floor_trunc, ?ceiling_trunc; fold q; change (Z.sgn (Zpos P)) with 1;
    rewrite ?Z.mul_1_r.
  - destruct (Z.leb_spec 0 A); [rewrite (proj2 (Z.ltb_ge _ 0)) by lia|rewrite (proj2 (Z.ltb_ge 0 _)) by lia]; lia.
  - destruct (Z.leb_spec 0 A), (Z.ltb_spec 0 (Z.rem A (Zpos P))), (Z.ltb_spec (Z.rem A (Zpos P)) 0); lia.
  - destruct (Z.ltb_spec (Z.sgn (Z.rem A (Zpos P))) 0), (Z.ltb_spec (Z.rem A (Zpos P)) 0); lia.
  - destruct (Z.ltb_spec 0 (Z.sgn (Z.rem A (Zpos P)))), (Z.ltb_spec 0 (Z.rem A (Zpos P))); lia.
  - apply (half_frac _ A P (λ n, (0 <= inject_Z n <= A # P ∨ A # P <= inject_Z n <= 0)%Q)); [done..|].
    intros _. fold q. simpl. unfold Qle. simpl. nia.
  - apply (half_frac _ A P (λ n, (A # P <= inject_Z n ∧ 0 <= A # P ∨ inject_Z n <= A # P ∧ A # P <= 0)%Q)); [done..|].
    intros Htie. fold q. simpl. unfold Qle. simpl. nia.
  - apply (half_frac _ A P (λ n, Z.even n = true)); [done..|].
    intros Htie. fold q. simpl. rewrite even_bit. destruct (big_Bit q 0 =? 1) eqn:E; [|by rewrite E].
    rewrite <- even_bit. rewrite Z.even_add. rewrite (even_bit q), E. simpl.
    destruct (Z.rem A (Zpos P)); [lia|done|done].
Qed.

(** A quotient of integers as a fraction with a positive denominator. *)
Lemma normal_frac a b :
  b ≠ 0 →
  let P := Z.to_pos (Z.abs b) in let A := a * Z.sgn b in
  (inject_Z a / inject_Z b == A # P)%Q
  ∧ Z.quot A (Zpos P) = Z.quot a b ∧ Z.rem A (Zpos P) = Z.rem a b * Z.sgn b.
Proof.
  intros Hb P A. destruct b as [|b|b]; [done| |]; subst A P; simpl Z.abs; simpl Z.to_pos; simpl Z.sgn.
  - rewrite !Z.mul_1_r. split_and!; [|done|done]. unfold Qdiv, Qinv, Qmult, Qeq. simpl. lia.
  - change (-1) with (- (1)). rewrite !Z.mul_opp_r, !Z.mul_1_r. split_and!.
    + unfold Qdiv, Qinv, Qmult, Qeq. simpl. lia.
    + rewrite <- (Z.opp_involutive (Zpos b)) at 1. by rewrite Z.quot_opp_opp.
    + change (Zneg b) with (- Zpos b). by rewrite Z.rem_opp_r, Z.rem_opp_l by done.
Qed.

Lemma inc_normal m q r b :
  b ≠ 0 → inc m q r b = inc m q (r * Z.sgn b) (Zpos (Z.to_pos (Z.abs b))).
Proof.
  intros Hb. assert (Z.sgn (r * Z.sgn b) * Z.sgn (Zpos (Z.to_pos (Z.abs b))) = Z.sgn r * Z.sgn b) as Hs
    by (destruct r, b; done).
  assert (Z.abs (r * Z.sgn b) = Z.abs r) as Hr by (destruct r, b; simpl; lia).
  assert (Z.abs (Zpos (Z.to_pos (Z.abs b))) = Z.abs b) as Hb' by (destruct b; done).
  destruct m; cbn [inc]; rewrite ?Hs; try done; by rewrite !half_step_spec, Hs, Hr, Hb' by done.
Qed.

Lemma rounded_quot m a b :
  m ≠ Exact → b ≠ 0 →
  rounded m (inject_Z a / inject_Z b) (Z.quot a b + inc m (Z.quot a b) (Z.rem a b) b).
Proof.
  intros Hm Hb. destruct (normal_frac a b Hb) as (-> & Hq & Hr).
  rewrite inc_normal, <- Hr, <- Hq by done. by apply rounded_frac.
Qed.

(** The exact mode: there is an integer quotient just when nothing remains. *)
Lemma exact_quot a b :
  b ≠ 0 → Z.rem a b = 0 → (inject_Z a / inject_Z b == inject_Z (Z.quot a b))%Q.
Proof.
  intros Hb Hr. pose proof (Z.quot_rem' a b) as H. rewrite Hr, Z.add_0_r in H.
  rewrite H at 1. rewrite inject_Z_mult. field. unfold Qeq. simpl. lia.
Qed.

Lemma exact_quot_inv a b n : b ≠ 0 → (inject_Z a / inject_Z b == inject_Z n)%Q → Z.rem a b = 0.
Proof.
  intros Hb H. assert (a = n * b) as ->; [|by apply Z.rem_mul].
  assert (inject_Z a == inject_Z (n * b))%Q as Ha.
  { rewrite inject_Z_mult, <- H. field. unfold Qeq. simpl. lia. }
  unfold Qeq in Ha. simpl in Ha. lia.
Qed.

(** ** Division with a scale and a rounder *)

Section quo.
Context (x y : loc) (dx dy : Dec) (s : Z) (σ : store).
Context (Hx : σ !! x = Some dx) (Hy : σ !! y = Some dy).
Context (Hfits : fits s dx dy) (Hnz : Dec_unscaled dy ≠ 0).

Lemma divisor_nz : divisor s dx dy ≠ 0.
Proof. unfold divisor. apply Z.neq_mul_0. split; [done|]. apply Z.pow_nonzero; lia. Qed.

(** The division into a new decimal, and another new one for the rounder. *)
Lemma quo_division (useRem : bool) :
  ∃ (t u : loc) σ', σ ⊆ σ' ∧ σ !! u = None ∧ u ≠ t ∧ is_Some (σ' !! u)
    ∧ σ' !! t = Some (mkDec (Z.quot (dividend s dx dy) (divisor s dx dy)) s)
    ∧ ∀ (A : Type) (k : loc → option Z → option Z → loc → M A) a σ'',
      exec (k t (if useRem then Some (Z.rem (dividend s dx dy) (divisor s dx dy)) else None)
              (if useRem then Some (divisor s dx dy) else None) u) σ' a σ'' →
      exec (t ← new; '(zz, rA, rB) ← quoRem t x y s useRem; u ← new; k zz rA rB u) σ a σ''.
Proof.
  destruct (exec_new σ) as (t & Ht & Hnew). set (σ1 := <[t := mkDec 0 0]> σ) in *.
  assert (σ ⊆ σ1) as Hsub by (by apply insert_subseteq).
  destruct (quoRem_spec t x y s useRem dx dy σ1) as (σ2 & Hq & Hσ2);
    [by eapply lookup_weaken|by eapply lookup_weaken|subst σ1; rewrite lookup_insert_eq; by eexists|done|done|].
  unfold σ1 in Hσ2. rewrite insert_insert_eq in Hσ2.
  destruct (exec_new σ2) as (u & Hu & Hnew2).
  assert (u ≠ t) as Hne by (intros ->; rewrite Hσ2, lookup_insert_eq in Hu; done).
  assert (σ ⊆ σ2) as Hsub2 by (rewrite Hσ2; by apply insert_subseteq).
  exists t, u, (<[u := mkDec 0 0]> σ2). split_and!.
  - etrans; [exact Hsub2|by apply insert_subseteq].
  - by eapply lookup_weaken_None.
  - done.
  - rewrite lookup_insert_eq. by eexists.
  - rewrite lookup_insert_ne, Hσ2 by done. apply lookup_insert_eq.
  - intros A k a σ'' Hk. step (exact Hnew). step (exact Hq).
    destruct useRem; (step (exact Hnew2)); exact Hk.
Qed.

(** Storing a new decimal in the receiver. *)
Lemma quo_store z u d σ' :
  is_Some (σ !! z) → σ !! u = None → σ ⊆ σ' → σ' !! u = Some d →
  ∃ σ'', exec (z ← SetDec z u; mret (Some z)) σ' (Some z) σ'' ∧ stores z d σ σ''.
Proof.
  intros [dz Hz] Hu Hsub Hd. eexists. split; [|by apply stores_insert].
  step (apply exec_SetDec; [exact Hd|rewrite (lookup_weaken _ _ _ _ Hz Hsub); by eexists|congruence]).
  apply exec_ret.
Qed.

Lemma QuoRound_rounded z m :
  m ≠ Exact → is_Some (σ !! z) →
  ∃ d σ', exec (QuoRound z x y s (rounder_of m)) σ (Some z) σ' ∧ stores z d σ σ'
    ∧ Dec_scale d = s ∧ rounded m (value dx / value dy * ten s)%Q (Dec_unscaled d).
Proof.
  intros Hm Hz.
  destruct (quo_division (UseRemainder (rounder_of m))) as (t & u & σ1 & Hsub & Hnew & Hne & Hu & Ht & Hk).
  set (a := dividend s dx dy) in *. set (b := divisor s dx dy) in *.
  pose proof (rounder_step m u t (mkDec (Z.quot a b) s) (Z.rem a b) b σ1 Hm Ht Hu Hne) as Hround.
  cbn [Dec_unscaled Dec_scale] in Hround.
  destruct (quo_store z u (mkDec (Z.quot a b + inc m (Z.quot a b) (Z.rem a b) b) s)
    (<[u := mkDec (Z.quot a b + inc m (Z.quot a b) (Z.rem a b) b) s]> σ1)) as (σ2 & Hst & Hstores);
    [done|done|by apply insert_subseteq_r|apply lookup_insert_eq|].
  eexists _, σ2. split_and!; [|exact Hstores|done|].
  - unfold QuoRound, quo. step (apply exec_ret). apply (exec_step _ _ _ (Some u) _ _ _) with (2 := Hst).
    destruct (UseRemainder (rounder_of m)).
    + by apply (Hk _ (λ zz rA rB u, rndr_Round (rounder_of m) u zz rA rB)).
    + by apply (Hk _ (λ zz _ _ u, rndr_Round (rounder_of m) u zz None None)).
  - rewrite quotient_value by done. apply rounded_quot; [done|apply divisor_nz].
Qed.

(** RoundExact: the quotient when it is an integer number of units, nil otherwise. *)
Lemma QuoRound_exact z :
  is_Some (σ !! z) →
  let a := dividend s dx dy in let b := divisor s dx dy in
  if Z.rem a b =? 0 then
    ∃ σ', exec (QuoRound z x y s RoundExact) σ (Some z) σ' ∧ stores z (mkDec (Z.quot a b) s) σ σ'
  else ∃ σ', exec (QuoRound z x y s RoundExact) σ None σ' ∧ σ ⊆ σ'.
Proof.
  intros Hz a b. destruct (quo_division true) as (t & u & σ1 & Hsub & Hnew & Hne & Hu & Ht & Hk).
  fold a b in Ht, Hk. specialize (Hk _ (λ zz rA rB u, rndr_Round RoundExact u zz rA rB)).
  destruct (Z.eqb_spec (Z.rem a b) 0) as [Hr|Hr].
  - destruct (quo_store z u (mkDec (Z.quot a b) s) (<[u := mkDec (Z.quot a b) s]> σ1)) as (σ2 & Hst & Hstores);
      [done|done|by apply insert_subseteq_r|apply lookup_insert_eq|].
    exists σ2. split; [|done]. unfold QuoRound, quo. step (apply exec_ret). apply (exec_step _ _ _ (Some u) _ _ _) with (2 := Hst).
    apply Hk. simpl. step (by apply exec_lift). rewrite Hr. simpl.
    step (by apply exec_SetDec). apply exec_ret.
  - exists σ1. split; [|done]. unfold QuoRound, quo. step (apply exec_ret). apply (exec_step _ _ _ None σ1); [|apply exec_ret].
    apply Hk. simpl. step (by apply exec_lift).
    destruct (Z.eqb_spec (Z.sgn (Z.rem a b)) 0) as [Hs|Hs]; [by apply (proj1 (Z.sgn_null_iff _)) in Hs|]. apply exec_ret.
Qed.

End quo.

(** ** The scale of an exact quotient *)

Lemma factor_loop_spec fuel p d f :
  1 < p → 0 < d < 2 ^ Z.of_nat fuel →
  ∃ k w, factor_loop fuel d p f = Some (f + k) ∧ 0 <= k ∧ d = p ^ k * w ∧ ¬ (p | w).
Proof.
  intros Hp. revert d f. induction fuel as [|fuel IH]; intros d f Hd; [simpl in Hd; lia|].
  rewrite Nat2Z.inj_succ, Z.pow_succ_r in Hd by lia. cbn [factor_loop].
  destruct (Z.eqb_spec (d mod p) 0) as [Hm|Hm].
  - apply Z.mod_divide in Hm as [e ->]; [|lia]. rewrite Z.div_mul by lia.
    destruct (IH e (f + 1)) as (k & w & -> & Hk & He & Hw); [nia|].
    exists (k + 1), w. split_and!; [f_equal; lia|lia| |done].
    rewrite Z.pow_add_r, Z.pow_1_r by lia. rewrite He at 1. ring.
  - exists 0, d. split_and!; [by rewrite Z.add_0_r|done|by rewrite Z.mul_1_l|].
    intros H%Z.mod_divide; [done|lia].
Qed.

Lemma log2_fuel n : 0 < n → n < 2 ^ Z.of_nat (S (S (Z.to_nat (Z.log2 n)))).
Proof.
  intros Hn. pose proof (Z.log2_spec n Hn) as [_ H]. pose proof (Z.log2_nonneg n).
  eapply Z.lt_le_trans; [exact H|]. apply Z.pow_le_mono_r; lia.
Qed.

Lemma factor_spec n p :
  1 < p → 0 < n → ∃ k w, factor n p = Some k ∧ 0 <= k ∧ n = p ^ k * w ∧ ¬ (p | w).
Proof. intros Hp Hn. apply (factor_loop_spec _ p n 0 Hp). split; [done|by apply log2_fuel]. Qed.

Lemma factor2_loop_spec fuel f w :
  0 <= f → 0 < w < 2 ^ Z.of_nat fuel →
  ∃ k w', factor2_loop fuel (2 ^ f * w) f = Some (f + k) ∧ 0 <= k ∧ w = 2 ^ k * w' ∧ ¬ (2 | w').
Proof.
  revert f w. induction fuel as [|fuel IH]; intros f w Hf Hw; [simpl in Hw; lia|].
  rewrite Nat2Z.inj_succ, Z.pow_succ_r in Hw by lia. cbn [factor2_loop]. unfold big_Bit.
  assert (Z.testbit (2 ^ f * w) f = Z.odd w) as ->.
  { rewrite Z.mul_comm, Z.mul_pow2_bits by done.
    by rewrite Z.sub_diag, Z.bit0_odd. }
  destruct (Z.odd w) eqn:Ho; simpl.
  - exists 0, w. split_and!; [by rewrite Z.add_0_r|done|by rewrite Z.mul_1_l|].
    intros [v ->]. rewrite Z.odd_mul, andb_false_r in Ho. done.
  - assert (Z.Even w) as [v ->] by (apply Z.even_spec; rewrite <- Z.negb_odd; by rewrite Ho).
    destruct (IH (f + 1) v) as (k & w' & Hloop & Hk & Hv & Hw'); [lia|lia|].
    exists (k + 1), w'. split_and!; [|lia| |done].
    + replace (2 ^ f * (2 * v)) with (2 ^ (f + 1) * v) by (rewrite Z.pow_add_r by lia; ring).
      rewrite Hloop. f_equal. lia.
    + rewrite Z.pow_add_r, Z.pow_1_r by lia. rewrite Hv at 1. ring.
Qed.

Lemma factor2_spec n : 0 < n → ∃ k w, factor2 n = Some k ∧ 0 <= k ∧ n = 2 ^ k * w ∧ ¬ (2 | w).
Proof.
  intros Hn. pose proof (factor2_loop_spec (S (S (Z.to_nat (Z.log2 n)))) 0 n ltac:(done)) as H.
  rewrite Z.mul_1_l in H. apply H. split; [done|by apply log2_fuel].
Qed.

Lemma prime_5 : Z.prime 5.
Proof.
  split; [done|]. intros n Hn. assert (n = 2 ∨ n = 3 ∨ n = 4) as [->|[->| ->]] by lia; intros [k Hk]; lia.
Qed.

(** A divisor of a power of ten divides the power its own factors ask for. *)
Lemma divides_ten_pow D k a b w2 w5 :
  0 <= k → 0 <= a → 0 <= b → (D | 10 ^ k) →
  D = 2 ^ a * w2 → ¬ (2 | w2) → D = 5 ^ b * w5 → ¬ (5 | w5) → (D | 10 ^ Z.max a b).
Proof.
  intros Hk Ha Hb HD H2 Hw2 H5 Hw5.
  change 10 with (2 * 5) in *. rewrite Z.pow_mul_l in *.
  assert (∀ p q n, Z.prime p → ¬ (p | q) → 0 <= n → Z.gcd (p ^ n) q = 1) as Hrel.
  { intros p q n Hp Hq Hn. apply Z.coprime_pow_l; [done|]. by apply Z.coprime_prime_l. }
  assert (¬ (5 | 2 ^ a)) as H52.
  { intros H. apply Z.divide_prime_pp in H; [lia|apply prime_5|apply Z.prime_2|done]. }
  assert ((5 ^ b | w2)) as [w Hw].
  { apply (Z.gauss _ (2 ^ a)); [exists w5; rewrite <- H2, H5; ring|]. by apply Hrel; [apply prime_5|..]. }
  assert (¬ (5 | w)) as Hw5'.
  { intros [v ->]. apply Hw5. exists (2 ^ a * v).
    assert (5 ^ b ≠ 0) by (apply Z.pow_nonzero; lia).
    apply (Z.mul_reg_l _ _ (5 ^ b)); [done|]. rewrite <- H5, H2, Hw. ring. }
  assert ((w | 1)) as Hw1.
  { apply (Z.gauss _ (5 ^ k)); [|rewrite Z.gcd_comm; by apply Hrel; [apply prime_5|..]].
    rewrite Z.mul_1_r. apply (Z.gauss _ (2 ^ k)); [|rewrite Z.gcd_comm; apply Hrel; [apply Z.prime_2| |done]].
    - etrans; [|exact HD]. exists (2 ^ a * 5 ^ b). rewrite H2, Hw. ring.
    - intros H. apply Hw2. etrans; [exact H|]. exists (5 ^ b). rewrite Hw. ring. }
  assert ((D | 2 ^ a * 5 ^ b)) as HD'.
  { destruct Hw1 as [v Hv]. exists v. rewrite H2, Hw.
    replace (v * (2 ^ a * (w * 5 ^ b))) with ((v * w) * (2 ^ a * 5 ^ b)) by ring. rewrite <- Hv. ring. }
  etrans; [exact HD'|]. exists (2 ^ (Z.max a b - a) * 5 ^ (Z.max a b - b)).
  replace (Z.max a b) with (a + (Z.max a b - a)) at 1 by lia.
  replace (Z.max a b) with (b + (Z.max a b - b)) at 2 by lia.
  rewrite !Z.pow_add_r by lia. ring.
Qed.

(** The denominator in lowest terms. *)
Lemma denom_divides u v m :
  v ≠ 0 → (Z.abs v / Z.gcd u v | m) ↔ (v | u * m).
Proof.
  intros Hv. set (g := Z.gcd u v).
  assert (0 < g) as Hg.
  { pose proof (Z.gcd_nonneg u v). assert (g ≠ 0); [|subst g; lia]. subst g. intros [_ ?]%Z.gcd_eq_0. done. }
  destruct (Z.gcd_divide_l u v) as [u' Hu], (Z.gcd_divide_r u v) as [v' Hv']. fold g in Hu, Hv'.
  assert (Z.gcd v' u' = 1) as Hcop.
  { assert (g = Z.gcd u' v' * g) as H; [|rewrite Z.gcd_comm; apply (Z.mul_reg_r _ _ g); lia].
    rewrite <- (Z.abs_eq g) at 2 by lia. rewrite <- Z.gcd_mul_mono_r, <- Hu, <- Hv'. done. }
  assert (Z.abs v / g = Z.abs v') as ->.
  { rewrite Hv', Z.abs_mul, (Z.abs_eq g) by lia. apply Z.div_mul. lia. }
  rewrite Z.divide_abs_l. split.
  - intros [c ->]. exists (u' * c). rewrite Hu, Hv'. ring.
  - intros [c Hc]. apply (Z.gauss _ u'); [|done]. exists c.
    apply (Z.mul_reg_r _ _ g); [lia|]. 
    transitivity (u * m); [rewrite Hu; ring|]. rewrite Hc, Hv'. ring.
Qed.

(** ** The exact quotient *)

(** Numbers whose factors of two and five can be counted in an int32. *)
Definition fits_exact dx dy : Prop :=
  - 2 ^ 29 <= Dec_scale dx <= 2 ^ 29 ∧ - 2 ^ 29 <= Dec_scale dy <= 2 ^ 29
  ∧ Z.log2 (Z.abs (Dec_unscaled dy)) < 2 ^ 29.

Lemma factor_bound p k w n : 1 < p → 0 <= k → 0 < n → n = p ^ k * w → k <= Z.log2 n.
Proof.
  intros Hp Hk Hn ->. rewrite <- (Z.log2_pow2 k) at 1 by done. apply Z.log2_le_mono.
  assert (2 ^ k <= p ^ k) as H by (apply Z.pow_le_mono_l; lia).
  assert (0 < p ^ k) by (apply Z.pow_pos_nonneg; lia).
  assert (0 < w) by (apply Z.mul_pos_cancel_l in Hn; lia).
  etrans; [exact H|]. rewrite <- (Z.mul_1_r (p ^ k)) at 1. apply Z.mul_le_mono_nonneg_l; lia.
Qed.

Lemma denom_bounds u v :
  v ≠ 0 → 0 < Z.abs v / Z.gcd u v ∧ Z.log2 (Z.abs v / Z.gcd u v) <= Z.log2 (Z.abs v).
Proof.
  intros Hv. assert (0 < Z.gcd u v) as Hg.
  { pose proof (Z.gcd_nonneg u v). assert (Z.gcd u v ≠ 0); [|lia]. intros [_ ?]%Z.gcd_eq_0. done. }
  assert (Z.gcd u v <= Z.abs v) as Hle.
  { apply Z.divide_pos_le; [lia|]. apply Z.divide_abs_r, Z.gcd_divide_r. }
  split; [by apply Z.div_str_pos|]. apply Z.log2_le_mono, Z.div_le_upper_bound; nia.
Qed.

(** The scale QuoExact asks for: enough digits for every finite quotient. *)
Lemma scaleQuoExact_spec x y dx dy σ :
  σ !! x = Some dx → σ !! y = Some dy → Dec_unscaled dy ≠ 0 → fits_exact dx dy →
  ∃ f, 0 <= f <= 2 ^ 29
    ∧ exec (scaler_Scale scaleQuoExact x y) σ (Dec_scale dx - Dec_scale dy + f) σ
    ∧ ∀ k, 0 <= k → (Dec_unscaled dy | Dec_unscaled dx * 10 ^ k) → (Dec_unscaled dy | Dec_unscaled dx * 10 ^ f).
Proof.
  intros Hx Hy Hnz (Hsx & Hsy & Hlog).
  set (u := Dec_unscaled dx). set (v := Dec_unscaled dy) in *.
  destruct (denom_bounds u v Hnz) as [HD HDlog]. set (D := Z.abs v / Z.gcd u v) in *.
  destruct (factor2_spec D HD) as (a & w2 & Hf2 & Ha & HD2 & Hw2).
  destruct (factor_spec D 5 ltac:(lia) HD) as (b & w5 & Hf5 & Hb & HD5 & Hw5).
  pose proof (factor_bound 2 a w2 D ltac:(lia) Ha HD HD2).
  pose proof (factor_bound 5 b w5 D ltac:(lia) Hb HD HD5).
  exists (Z.max a b). split_and!; [lia|lia| |].
  - step (by apply exec_unscaled). step (by apply exec_unscaled). fold u v.
    unfold rat_Denom. rewrite (proj2 (Z.eqb_neq _ _)) by done. step (by apply exec_lift). fold D.
    rewrite Hf2, Hf5. step (by apply exec_lift). step (by apply exec_lift).
    step (by apply exec_Scale). step (by apply exec_Scale).
    replace (if b <? a then a else b) with (Z.max a b) by (destruct (Z.ltb_spec b a); lia).
    rewrite !wrap32_id by (rewrite ?wrap32_id; unfold int32; lia). apply exec_ret.
  - intros k Hk. unfold D in *. rewrite <- !denom_divides by done. intros Hd. by eapply divides_ten_pow.
Qed.

(** An integer multiple of a power of ten is the quotient only if the divisor divides
    a shifted dividend. *)
Lemma finite_quotient u v w e :
  v ≠ 0 → (inject_Z u / inject_Z v == inject_Z w * ten e)%Q → ∃ k, 0 <= k ∧ (v | u * 10 ^ k).
Proof.
  intros Hv H. exists (Z.max 0 (- e)). split; [lia|]. exists (w * 10 ^ Z.max 0 e).
  assert (inject_Z (u * 10 ^ Z.max 0 (- e)) == inject_Z (w * 10 ^ Z.max 0 e * v))%Q as Heq;
    [|by unfold Qeq in Heq; simpl in Heq; rewrite !Z.mul_1_r in Heq].
  rewrite !inject_Z_mult, !ten_Z by lia.
  transitivity ((inject_Z u / inject_Z v) * inject_Z v * ten (Z.max 0 (- e)))%Q.
  { field. unfold Qeq. simpl. lia. }
  rewrite H. transitivity (inject_Z w * (ten e * ten (Z.max 0 (- e))) * inject_Z v)%Q; [ring|].
  rewrite <- ten_add. replace (e + Z.max 0 (- e)) with (Z.max 0 e) by lia. ring.
Qed.

(** At the scale QuoExact asks for, the adjusted operands. *)
Lemma exact_operands dx dy f :
  0 <= f → let s := Dec_scale dx - Dec_scale dy + f in
  dividend s dx dy = Dec_unscaled dx * 10 ^ f ∧ divisor s dx dy = Dec_unscaled dy.
Proof.
  intros Hf s. unfold dividend, divisor, shift. subst s.
  replace (Dec_scale dx - Dec_scale dy + f - (Dec_scale dx - Dec_scale dy)) with f by lia.
  by rewrite Z.max_r, Z.max_l, Z.mul_1_r by lia.
Qed.

Lemma value_quotient dx dy :
  Dec_unscaled dy ≠ 0 →
  (value dx / value dy == inject_Z (Dec_unscaled dx) / inject_Z (Dec_unscaled dy) * ten (Dec_scale dy - Dec_scale dx))%Q.
Proof.
  intros Hnz. pose proof (quotient_value (Dec_scale dx - Dec_scale dy) dx dy Hnz) as H.
  destruct (exact_operands dx dy 0 ltac:(done)) as [Ha Hb]. rewrite Z.add_0_r in Ha, Hb.
  rewrite Ha, Hb, Z.mul_1_r in H. rewrite <- H, <- Qmult_assoc, <- ten_add.
  replace (Dec_scale dx - Dec_scale dy + (Dec_scale dy - Dec_scale dx)) with 0 by lia.
  change (ten 0) with 1%Q. by rewrite Qmult_1_r.
Qed.

(** C30. QuoRound is the correctly rounded quotient, for all eight modes and whatever
    the aliasing.  The receiver gets scale [s] and the unscaled value that the mode
    prescribes for x/y in units of 10^-s (floor, ceiling, towards or away from zero,
    nearest with ties down, up or to even; the exact mode prescribes the quotient
    itself), and is returned.  Only the exact mode may return nil instead, and it does
    exactly when x/y is no whole number of units; then no decimal has changed. *)
Theorem QuoRound_correct z x y s m dx dy σ :
  σ !! x = Some dx → σ !! y = Some dy → is_Some (σ !! z) →
  fits s dx dy → Dec_unscaled dy ≠ 0 →
  let v := (value dx / value dy * ten s)%Q in
  (∃ d σ', exec (QuoRound z x y s (rounder_of m)) σ (Some z) σ' ∧ stores z d σ σ'
     ∧ Dec_scale d = s ∧ rounded m v (Dec_unscaled d))
  ∨ (m = Exact ∧ (∀ n, ¬ rounded Exact v n) ∧ ∃ σ', exec (QuoRound z x y s (rounder_of m)) σ None σ' ∧ σ ⊆ σ').
Proof.
  intros Hx Hy Hz Hfit Hnz v. destruct (decide (m = Exact)) as [->|Hm]; [|left; by apply QuoRound_rounded].
  pose proof (QuoRound_exact x y dx dy s σ Hx Hy Hfit Hnz z Hz) as Hq. cbn zeta in Hq.
  assert (v == inject_Z (dividend s dx dy) / inject_Z (divisor s dx dy))%Q as Hv by by apply quotient_value.
  assert (divisor s dx dy ≠ 0) as Hd by by apply divisor_nz.
  destruct (Z.eqb_spec (Z.rem (dividend s dx dy) (divisor s dx dy)) 0) as [Hr|Hr]; destruct Hq as (σ' & He & Hst).
  - left. eexists _, σ'. split_and!; [exact He|exact Hst|done|]. simpl. rewrite Hv. by apply exact_quot.
  - right. split; [done|]. split; [|by exists σ']. intros n Hn. apply Hr, (exact_quot_inv _ _ n); [done|]. by rewrite <- Hv.
Qed.

(** C32. QuoExact finds every finite quotient: it returns the receiver with exactly the
    value x/y when some decimal has that value, and nil when none has. *)
Theorem QuoExact_correct z x y dx dy σ :
  σ !! x = Some dx → σ !! y = Some dy → is_Some (σ !! z) → Dec_unscaled dy ≠ 0 → fits_exact dx dy →
  (∃ d σ', exec (QuoExact z x y) σ (Some z) σ' ∧ stores z d σ σ' ∧ (value d == value dx / value dy)%Q)
  ∨ (∃ σ', exec (QuoExact z x y) σ None σ' ∧ σ ⊆ σ' ∧ ∀ d, ¬ (value d == value dx / value dy)%Q).
Proof.
  intros Hx Hy Hz Hnz Hfit. destruct (scaleQuoExact_spec x y dx dy σ Hx Hy Hnz Hfit) as (f & Hf & Hscale & Hfin).
  set (s := Dec_scale dx - Dec_scale dy + f) in *.
  destruct (exact_operands dx dy f ltac:(lia)) as [Ha Hb]. fold s in Ha, Hb.
  destruct Hfit as (? & ? & _).
  assert (fits s dx dy) as Hfits by (unfold fits, int32; subst s; lia).
  pose proof (QuoRound_exact x y dx dy s σ Hx Hy Hfits Hnz z Hz) as Hq. rewrite Ha, Hb in Hq. simpl in Hq.
  assert (∀ r σ', exec (QuoRound z x y s RoundExact) σ r σ' → exec (QuoExact z x y) σ r σ') as Hquo.
  { intros r σ' H'. unfold QuoExact, quo. step (exact Hscale). exact H'. }
  pose proof (quotient_value s dx dy Hnz) as Hv. rewrite Ha, Hb in Hv.
  destruct (Z.eqb_spec (Z.rem (Dec_unscaled dx * 10 ^ f) (Dec_unscaled dy)) 0) as [Hr|Hr].
  - left. destruct Hq as (σ' & He & Hst). eexists _, σ'. split_and!; [by apply Hquo|exact Hst|].
    unfold value at 1. simpl. rewrite <- exact_quot, <- Hv, <- Qmult_assoc, <- ten_add by done.
    rewrite Z.add_opp_diag_r. change (ten 0) with 1%Q. by rewrite Qmult_1_r.
  - right. destruct Hq as (σ' & He & Hsub). exists σ'. split_and!; [by apply Hquo|done|].
    intros d Hd. apply Hr, Z.rem_divide; [done|].
    rewrite value_quotient in Hd by done.
    destruct (finite_quotient (Dec_unscaled dx) (Dec_unscaled dy) (Dec_unscaled d)
      (- Dec_scale d - (Dec_scale dy - Dec_scale dx)) Hnz) as (k & Hk & Hdiv); [|by apply (Hfin k)].
    unfold Z.sub at 1. rewrite ten_add, Qmult_assoc. fold (value d). rewrite Hd, <- Qmult_assoc, <- ten_add.
    rewrite Z.add_opp_diag_r. change (ten 0) with 1%Q. by rewrite Qmult_1_r.
Qed.

End infround.

(** ** Witnesses *)

Definition demo_store : store := {[ 1%positive := mkDec 25 1; 2%positive := mkDec 10 1; 3%positive := mkDec 300 2 ]}.

Lemma QuoRound_correct_witness :
  let v := (value (mkDec 25 1) / value (mkDec 10 1) * ten 0)%Q in
  (∃ d σ', exec (QuoRound 1 1 2 0 RoundExact) demo_store (Some 1%positive) σ' ∧ stores 1 d demo_store σ'
    ∧ Dec_scale d = 0%Z ∧ infround.rounded infround.Exact v (Dec_unscaled d))
  ∨ (infround.Exact = infround.Exact ∧ (∀ n, ¬ infround.rounded infround.Exact v n)
     ∧ ∃ σ', exec (QuoRound 1 1 2 0 RoundExact) demo_store None σ' ∧ demo_store ⊆ σ').
Proof.
  apply (infround.QuoRound_correct 1 1 2 0 infround.Exact); [reflexivity|reflexivity|by eexists| |done].
  unfold infround.fits, int32. simpl. lia.
Defined.

Lemma QuoExact_correct_witness :
  (∃ d σ', exec (QuoExact 3 3 1) demo_store (Some 3%positive) σ' ∧ stores 3 d demo_store σ'
    ∧ (value d == value (mkDec 300 2) / value (mkDec 25 1))%Q)
  ∨ (∃ σ', exec (QuoExact 3 3 1) demo_store None σ' ∧ demo_store ⊆ σ'
      ∧ ∀ d, ¬ (value d == value (mkDec 300 2) / value (mkDec 25 1))%Q).
Proof.
  apply (infround.QuoExact_correct 3 3 1); [reflexivity|reflexivity|by eexists|done|].
  unfold infround.fits_exact. vm_compute. repeat split; discriminate.
Defined.

(** 3.00 / 2.5 = 1.2: the first alternative. *)
Example QuoExact_12 :
  (match QuoExact 3 3 1 demo_store with Val (r, σ) => (r, σ !! 3%positive) | Halt _ => (None, None) end)
  = (Some 3%positive, Some (mkDec 12 1)).
Proof. vm_compute. reflexivity. Qed.

(** A third is not finite. *)
Example QuoExact_third :
  (match QuoExact 2 2 3 demo_store with Val (r, _) => r | Halt _ => Some 1%positive end) = None.
Proof. vm_compute. reflexivity. Qed.
