(* ===== verification/InfText.v ===== *)
(** * Decimals as text and bytes: String, scan, SetString and the gob encoding

    The texts are byte strings.  A reader is the text still to be read and what comes
    after it: the end of the input or an error. *)

From stdpp Require Import prelude gmap strings.
From Stdlib Require Import ZArith NArith Ascii QArith Qpower.
From S2P Require Import Prelude GoStrings InfDec.

Import inf.

Module inftext.

Local Open Scope Z_scope.

Implicit Types (σ : store).

(** ** Printing *)

Fixpoint repeat_byte (n : nat) (c : ascii) : string :=
  match n with O => "" | S n => String c (repeat_byte n c) end.

Definition zeros : string := repeat_byte 64 "0".
Definition lzeros : Z := 64.

(** The loop over [i]; every turn appends at least one zero. *)
Fixpoint appendZeros_loop (fuel : nat) (s : string) (n i : Z) : string :=
  match fuel with
  | O => s
  | S fuel =>
      if i <? n then
        let s := if wrap32 (i + lzeros) <? n then s +:+ zeros else s +:+ stake (Z.to_nat (n - i)) zeros in
        appendZeros_loop fuel s n (wrap32 (i + lzeros))
      else s
  end.

(** A turn covers 64 zeros. *)
Definition appendZeros (s : string) (n : Z) : string :=
  appendZeros_loop (S (Z.to_nat (n / lzeros))) s n 0.

Definition Dec_String (x : option loc) : M string :=
  match x with
  | None => mret "<nil>"
  | Some x =>
      scale ← Scale x;
      v ← unscaled x;
      let s := FormatInt v in
      if scale <=? 0 then
        mret (if negb (scale =? 0) && negb (Z.sgn v =? 0) then appendZeros s (wrap32 (- scale)) else s)
      else
        sign ← Sign x;
        let negbit := wrap32 (- Z.quot (sign - 1) 2) in
        let lens := wrap32 (Z.of_nat (String.length s)) in
        if wrap32 (lens - negbit) <=? scale then
          let ss := if negbit =? 1 then "-" else "" in
          let ss := ss +:+ "0." in
          let ss := appendZeros ss (wrap32 (wrap32 (scale - lens) + negbit)) in
          mret (ss +:+ sdrop (Z.to_nat negbit) s)
        else
          let k := Z.to_nat (wrap32 (lens - scale)) in
          mret (stake k s +:+ "." +:+ sdrop k s)
  end.

(** The verbs d, f, v and s print the number; others say what is wrong. *)
Definition Format (x : option loc) (ch : ascii) : M string :=
  s ← Dec_String x;
  mret (if bool_decide (ch = "d"%char) || bool_decide (ch = "f"%char)
           || bool_decide (ch = "v"%char) || bool_decide (ch = "s"%char)
        then s else "%!" +:+ String ch ("(dec.Dec=" +:+ s +:+ ")")).

Definition MarshalText (x : option loc) : M string := Dec_String x.

(** ** Parsing *)

Inductive scan_error : Type := NoDigits | InvalidDecimal (s : string) | ReadError (e : string) | InvalidVerb (c : ascii).

Record reader : Type := mkReader { rd_rest : string; rd_end : option string }.

(** [big.Int.SetString(s, 10)]: an optional sign and at least one digit. *)
Definition big_SetString (s : string) : option Z :=
  let parse s := if bool_decide (s = "") then None
                 else if sforallb is_digit s then Some (Z.of_N (sval s 0)) else None in
  match s with
  | String "-" s => Z.opp <$> parse s
  | String "+" s => parse s
  | _ => parse s
  end.

(** The loop of scan: the characters of the unscaled value so far, the positions of
    the point and of the first digit (-1 when there is none), and the rest. *)
Fixpoint scan_loop (rest un : string) (dp dg : Z) : string * string * Z * Z :=
  match rest with
  | EmptyString => (EmptyString, un, dp, dg)
  | String ch rest' =>
      let len := Z.of_nat (String.length un) in
      if bool_decide (ch = "+"%char) || bool_decide (ch = "-"%char) then
        if (0 <? len) || (0 <=? dp) then (rest, un, dp, dg)
        else scan_loop rest' (un +:+ String ch "") dp dg
      else if bool_decide (ch = "."%char) then
        if 0 <=? dp then (rest, un, dp, dg) else scan_loop rest' un len dg
      else if is_digit ch then
        scan_loop rest' (un +:+ String ch "") dp (if dg =? -1 then len else dg)
      else (rest, un, dp, dg)
  end.

Definition scan (z : loc) (r : reader) : M (result scan_error loc * reader) :=
  let '(rest, un, dp, dg) := scan_loop (rd_rest r) "" (-1) (-1) in
  let r' := mkReader rest (rd_end r) in
  match rest, rd_end r with
  | EmptyString, Some e => mret (Err (ReadError e), r')
  | _, _ =>
      if dg =? -1 then mret (Err NoDigits, r')
      else
        (if 0 <=? dp then SetScale z (wrap32 (Z.of_nat (String.length un) - dp)) else SetScale z 0);;
        match big_SetString un with
        | None => mret (Err (InvalidDecimal un), r')
        | Some v => set_unscaled z v;; mret (Ok z, r')
        end
  end.

(** Whole texts only. *)
Definition SetString (z : loc) (s : string) : M (option loc) :=
  '(res, r) ← scan z (mkReader s None);
  match res with
  | Err _ => mret None
  | Ok z => mret (if bool_decide (rd_rest r = "") then Some z else None)
  end.

Definition UnmarshalText (z : loc) (data : string) : M (option string) :=
  r ← SetString z data;
  mret (match r with Some _ => None | None => Some "invalid inf.Dec" end).

(** ** Zeros *)

Lemma repeat_byte_add n m c : repeat_byte (n + m) c = repeat_byte n c +:+ repeat_byte m c.
Proof. induction n as [|n IH]; [done|]. simpl. by rewrite IH. Qed.

Lemma length_repeat_byte n c : String.length (repeat_byte n c) = n.
Proof. induction n as [|n IH]; [done|]. simpl. by rewrite IH. Qed.

Lemma stake_repeat_byte n m c : (n <= m)%nat → stake n (repeat_byte m c) = repeat_byte n c.
Proof. revert m. induction n as [|n IH]; intros [|m] H; simpl; [done|done|lia|]. by rewrite IH by lia. Qed.

Lemma appendZeros_loop_spec fuel s n i :
  0 <= i → n <= 2 ^ 31 - 64 → n <= i + 64 * Z.of_nat fuel →
  appendZeros_loop fuel s n i = s +:+ repeat_byte (Z.to_nat (n - i)) "0".
Proof.
  revert s i. induction fuel as [|fuel IH]; intros s i Hi Hn Hf; cbn [appendZeros_loop].
  { replace (Z.to_nat (n - i)) with 0%nat by lia. simpl. by rewrite sapp_nil_r. }
  destruct (Z.ltb_spec i n) as [Hlt|Hge].
  2:{ replace (Z.to_nat (n - i)) with 0%nat by lia. simpl. by rewrite sapp_nil_r. }
  unfold lzeros. rewrite wrap32_id by (unfold int32; lia). rewrite IH by lia.
  destruct (Z.ltb_spec (i + 64) n).
  - replace (Z.to_nat (n - i)) with (64 + Z.to_nat (n - (i + 64)))%nat by lia.
    rewrite repeat_byte_add, <- sapp_assoc. done.
  - unfold zeros. rewrite stake_repeat_byte by lia.
    replace (Z.to_nat (n - (i + 64))) with 0%nat by lia. simpl. by rewrite sapp_nil_r.
Qed.

Lemma appendZeros_spec s n :
  n <= 2 ^ 31 - 64 → appendZeros s n = s +:+ repeat_byte (Z.to_nat n) "0".
Proof.
  intros Hn. unfold appendZeros. rewrite appendZeros_loop_spec; [by rewrite Z.sub_0_r|done|done|].
  unfold lzeros. destruct (Z.le_gt_cases 0 n) as [H|H]; [|pose proof (Z2Nat.inj_neg); lia].
  pose proof (Z.div_mod n 64 ltac:(lia)). pose proof (Z.mod_pos_bound n 64 ltac:(lia)).
  assert (0 <= n / 64) by (apply Z.div_pos; lia). lia.
Qed.

(** ** Digits *)

Lemma digits_zeros n : sforallb is_digit (repeat_byte n "0") = true.
Proof. induction n as [|n IH]; [done|]. exact IH. Qed.

Lemma sval_zeros n acc : sval (repeat_byte n "0") acc = (acc * 10 ^ N.of_nat n)%N.
Proof.
  revert acc. induction n as [|n IH]; intros acc; [simpl; lia|].
  rewrite Nat2N.inj_succ, N.pow_succ_r'. simpl. rewrite IH. change (default 0%N (char_digit "0")) with 0%N. lia.
Qed.

(** The sign and the digits FormatInt prints. *)
Definition sign_text (v : Z) : string := if v <? 0 then "-" else "".

Lemma FormatInt_shape v :
  FormatInt v = sign_text v +:+ FormatUint (Z.to_N (Z.abs v)).
Proof. by destruct v. Qed.

(** ** Scanning what was printed *)

Lemma is_digit_not c : is_digit c = true → c ≠ "+"%char ∧ c ≠ "-"%char ∧ c ≠ "."%char.
Proof. intros H. split_and!; intros ->; discriminate H. Qed.

Lemma scan_digits D rest un dp dg :
  sforallb is_digit D = true → D ≠ "" →
  scan_loop (D +:+ rest) un dp dg =
  scan_loop rest (un +:+ D) dp (if dg =? -1 then Z.of_nat (String.length un) else dg).
Proof.
  revert un dg. induction D as [|c D IH]; intros un dg HD Hne; [done|].
  simpl in HD. apply andb_true_iff in HD as [Hc HD].
  destruct (is_digit_not c Hc) as (H1 & H2 & H3). rewrite sapp_cons. cbn [scan_loop].
  rewrite !bool_decide_eq_false_2, Hc by done. simpl orb. cbn iota.
  destruct D as [|c' D].
  { done. }
  rewrite IH by done. rewrite sapp_assoc. f_equal.
  destruct (Z.eqb_spec dg (-1)) as [|Hn]; [|by rewrite (proj2 (Z.eqb_neq _ _))].
  by rewrite (proj2 (Z.eqb_neq _ _)) by lia.
Qed.

Definition is_sign (sg : string) : Prop := sg = "" ∨ sg = "-".

Lemma scan_sign sg rest :
  is_sign sg → scan_loop (sg +:+ rest) "" (-1) (-1) = scan_loop rest sg (-1) (-1).
Proof. intros [->| ->]; done. Qed.

(** An integer part, and maybe a point and a fraction. *)
Lemma scan_integer sg I :
  is_sign sg → sforallb is_digit I = true → I ≠ "" →
  scan_loop (sg +:+ I) "" (-1) (-1) = ("", sg +:+ I, -1, Z.of_nat (String.length sg)).
Proof.
  intros Hsg HI Hne. rewrite scan_sign by done. rewrite <- (sapp_nil_r I) at 1. by rewrite scan_digits.
Qed.

Lemma scan_fraction sg I F :
  is_sign sg → sforallb is_digit I = true → I ≠ "" → sforallb is_digit F = true → F ≠ "" →
  scan_loop (sg +:+ I +:+ "." +:+ F) "" (-1) (-1)
  = ("", sg +:+ I +:+ F, Z.of_nat (String.length (sg +:+ I)), Z.of_nat (String.length sg)).
Proof.
  intros Hsg HI HIne HF HFne. rewrite scan_sign, scan_digits by done.
  change ("." +:+ F) with (String "." F). cbn [scan_loop]. simpl bool_decide. cbn iota. simpl orb. cbn iota.
  change (0 <=? -1) with false. change (-1 =? -1) with true. cbn iota.
  rewrite <- (sapp_nil_r F) at 1. rewrite scan_digits by done.
  rewrite (proj2 (Z.eqb_neq _ _)) by lia. cbn [scan_loop]. by rewrite sapp_assoc.
Qed.

Lemma big_SetString_spec v D :
  sforallb is_digit D = true → D ≠ "" → Z.of_N (sval D 0) = Z.abs v →
  big_SetString (sign_text v +:+ D) = Some v.
Proof.
  intros HD Hne Hv. unfold sign_text. destruct (Z.ltb_spec v 0).
  - simpl. rewrite sapp_nil_l, bool_decide_eq_false_2, HD by done. simpl. f_equal. lia.
  - rewrite sapp_nil_l. destruct D as [|c D]; [done|]. assert (is_digit c = true) as Hc by (by apply andb_true_iff in HD as [? _]).
    destruct (is_digit_not c Hc) as (H1 & H2 & _).
    assert (big_SetString (String c D) =
      (if bool_decide (String c D = "") then None
       else if sforallb is_digit (String c D) then Some (Z.of_N (sval (String c D) 0)) else None)) as ->.
    { clear -H1 H2. destruct c as [[] [] [] [] [] [] [] []]; first [done|by destruct H1|by destruct H2]. }
    rewrite bool_decide_eq_false_2, HD, Hv by done. f_equal. lia.
Qed.

(** ** What String prints *)

Definition digits (d : Dec) : string := FormatUint (Z.to_N (Z.abs (Dec_unscaled d))).

(** The integer and fraction digits for a positive scale. *)
Definition int_digits (d : Dec) : string :=
  let n := String.length (digits d) in let s := Z.to_nat (Dec_scale d) in
  if (n <=? s)%nat then "0" else stake (n - s) (digits d).

Definition frac_digits (d : Dec) : string :=
  let n := String.length (digits d) in let s := Z.to_nat (Dec_scale d) in
  if (n <=? s)%nat then repeat_byte (s - n) "0" +:+ digits d else sdrop (n - s) (digits d).

Definition text (d : Dec) : string :=
  sign_text (Dec_unscaled d) +:+
  if Dec_scale d <=? 0 then
    digits d +:+ (if Dec_unscaled d =? 0 then "" else repeat_byte (Z.to_nat (- Dec_scale d)) "0")
  else int_digits d +:+ "." +:+ frac_digits d.

(** Texts and scales short enough for an int32. *)
Definition printable (d : Dec) : Prop :=
  - 2 ^ 30 <= Dec_scale d <= 2 ^ 30 ∧ Z.of_nat (String.length (digits d)) < 2 ^ 30.

Lemma stake_app_ge s u n : (String.length s <= n)%nat → stake n (s +:+ u) = s +:+ stake (n - String.length s) u.
Proof.
  revert n. induction s as [|c s IH]; intros n Hn; [simpl; by rewrite Nat.sub_0_r|].
  destruct n as [|n]; simpl in Hn; [lia|]. rewrite sapp_cons. simpl. by rewrite IH by lia.
Qed.

Lemma sdrop_app_ge s u n : (String.length s <= n)%nat → sdrop n (s +:+ u) = sdrop (n - String.length s) u.
Proof.
  revert n. induction s as [|c s IH]; intros n Hn; [simpl; by rewrite Nat.sub_0_r|].
  destruct n as [|n]; simpl in Hn; [lia|]. rewrite sapp_cons. simpl. by apply IH; lia.
Qed.

Lemma Dec_String_text x d σ :
  σ !! x = Some d → printable d → exec (Dec_String (Some x)) σ (text d) σ.
Proof.
  intros Hx [Hs Hl]. unfold Dec_String. step (by apply exec_Scale). step (by apply exec_unscaled).
  rewrite FormatInt_shape. fold (digits d). unfold text.
  set (v := Dec_unscaled d) in *. set (s := Dec_scale d) in *.
  destruct (Z.leb_spec s 0) as [Hs0|Hs0].
  - replace (if negb (s =? 0) && negb (Z.sgn v =? 0) then _ else _)
      with (sign_text v +:+ digits d +:+ if v =? 0 then "" else repeat_byte (Z.to_nat (- s)) "0"); [apply exec_ret|].
    destruct (Z.eqb_spec v 0) as [->|Hv]; [rewrite andb_false_r; by rewrite sapp_nil_r|].
    rewrite (proj2 (Z.eqb_neq (Z.sgn v) 0)) by lia. destruct (Z.eqb_spec s 0) as [->|Hne]; simpl.
    { by rewrite sapp_nil_r. }
    rewrite wrap32_id, appendZeros_spec by (unfold int32; lia). by rewrite sapp_assoc.
  - step (step (by apply exec_unscaled); apply exec_ret). fold v.
    assert (String.length (sign_text v) = if (v <? 0)%Z then 1 else 0)%nat as Hsl by (unfold sign_text; by destruct (v <? 0)).
    replace (wrap32 (- Z.quot (Z.sgn v - 1) 2)) with (Z.of_nat (String.length (sign_text v)))
      by (rewrite Hsl; destruct v; reflexivity).
    rewrite slength_app. set (g := String.length (sign_text v)) in *.
    assert (g <= 1)%nat as Hg by (rewrite Hsl; destruct (v <? 0); lia).
    rewrite !(wrap32_id (Z.of_nat (g + _))) by (unfold int32; lia).
    rewrite (wrap32_id (Z.of_nat (g + _) - _)) by (unfold int32; lia).
    unfold int_digits, frac_digits. fold s.
    destruct (Z.leb_spec (Z.of_nat (g + String.length (digits d)) - Z.of_nat g) s) as [Hle|Hgt].
    + rewrite (proj2 (Nat.leb_le _ _)) by lia.
      rewrite (wrap32_id (s - _)) by (unfold int32; lia). rewrite wrap32_id by (unfold int32; lia).
      rewrite appendZeros_spec by lia. rewrite Nat2Z.id. subst g. rewrite sdrop_app.
      replace (if Z.of_nat (String.length (sign_text v)) =? 1 then "-" else "") with (sign_text v)
        by (rewrite Hsl; unfold sign_text; by destruct (v <? 0)).
      replace (Z.to_nat _) with (Z.to_nat s - String.length (digits d))%nat by lia.
      rewrite !sapp_assoc. apply exec_ret.
    + rewrite (proj2 (Nat.leb_gt _ _)) by lia. rewrite wrap32_id by (unfold int32; lia).
      replace (Z.to_nat _) with (g + (String.length (digits d) - Z.to_nat s))%nat by lia.
      rewrite stake_app_ge, sdrop_app_ge by (subst g; lia). subst g.
      replace (String.length (sign_text v) + _ - String.length (sign_text v))%nat
        with (String.length (digits d) - Z.to_nat s)%nat by lia.
      rewrite sapp_assoc. apply exec_ret.
Qed.

(** ** Reading it back *)

Lemma digits_spec d :
  sforallb is_digit (digits d) = true ∧ digits d ≠ "" ∧ Z.of_N (sval (digits d) 0) = Z.abs (Dec_unscaled d).
Proof.
  destruct (FormatUint_canonical (Z.to_N (Z.abs (Dec_unscaled d)))) as [(Hne & Hd & _) Hv].
  unfold digits. rewrite Hv. split_and!; [done|done|lia].
Qed.

Lemma slength_zero (s : string) : String.length s = 0%nat → s = "".
Proof. by destruct s. Qed.

Lemma slength_sdrop n (s : string) : String.length (sdrop n s) = (String.length s - n)%nat.
Proof. revert s. induction n as [|n IH]; intros [|c s]; simpl; [done|lia|done|apply IH]. Qed.

(** The digits around the point. *)
Lemma point_digits d :
  0 < Dec_scale d →
  sforallb is_digit (int_digits d) = true ∧ int_digits d ≠ ""
  ∧ sforallb is_digit (frac_digits d) = true ∧ String.length (frac_digits d) = Z.to_nat (Dec_scale d)
  ∧ Z.of_N (sval (int_digits d +:+ frac_digits d) 0) = Z.abs (Dec_unscaled d).
Proof.
  intros Hs. destruct (digits_spec d) as (HD & Hne & Hv). unfold int_digits, frac_digits.
  destruct (Nat.leb_spec (String.length (digits d)) (Z.to_nat (Dec_scale d))) as [Hle|Hgt].
  - split_and!; [done|done| | |].
    + by rewrite sforallb_app, digits_zeros, HD.
    + rewrite slength_app, length_repeat_byte. lia.
    + rewrite !sval_app, sval_zeros. change (sval "0" 0) with 0%N. by rewrite N.mul_0_l.
  - set (k := (String.length (digits d) - Z.to_nat (Dec_scale d))%nat) in *.
    rewrite <- (stake_sdrop k (digits d)), sforallb_app in HD. apply andb_true_iff in HD as [H1 H2].
    split_and!; [done| |done|rewrite slength_sdrop; lia|by rewrite stake_sdrop].
    intros H. pose proof (slength_stake k (digits d) ltac:(lia)) as Hk. rewrite H in Hk. simpl in Hk. lia.
Qed.

Lemma exec_SetString z s un dp dg v dz σ :
  scan_loop s "" (-1) (-1) = ("", un, dp, dg) → dg ≠ -1 → big_SetString un = Some v → σ !! z = Some dz →
  exec (SetString z s) σ (Some z)
    (<[z := mkDec v (if 0 <=? dp then wrap32 (Z.of_nat (String.length un) - dp) else 0)]> σ).
Proof.
  intros Hscan Hdg Hv Hz. unfold SetString, scan. simpl. rewrite Hscan.
  rewrite (proj2 (Z.eqb_neq _ _)), Hv by done. cbn [rd_end].
  destruct (0 <=? dp).
  - step (step (by apply exec_SetScale); step (apply exec_set_unscaled, lookup_insert_eq);
          rewrite insert_insert_eq; apply exec_ret). apply exec_ret.
  - step (step (by apply exec_SetScale); step (apply exec_set_unscaled, lookup_insert_eq);
          rewrite insert_insert_eq; apply exec_ret). apply exec_ret.
Qed.

(** A decimal without a negative scale, which a text cannot express. *)
Definition canonical (d : Dec) : Dec :=
  if Dec_scale d <=? 0 then mkDec (Dec_unscaled d * 10 ^ (- Dec_scale d)) 0 else d.

Lemma value_canonical d : (value (canonical d) == value d)%Q.
Proof.
  unfold canonical. destruct (Z.leb_spec (Dec_scale d) 0) as [H|H]; [|reflexivity].
  pose proof (value_shift (Dec_unscaled d) (Dec_scale d) (- Dec_scale d) ltac:(lia)) as Hv.
  rewrite Z.add_opp_diag_r in Hv. rewrite Hv. by destruct d.
Qed.

Lemma is_sign_text v : is_sign (sign_text v).
Proof. unfold sign_text, is_sign. destruct (v <? 0); auto. Qed.

Lemma scan_text d :
  printable d →
  ∃ un dp dg, scan_loop (text d) "" (-1) (-1) = ("", un, dp, dg) ∧ dg ≠ -1
    ∧ big_SetString un = Some (Dec_unscaled (canonical d))
    ∧ (if 0 <=? dp then wrap32 (Z.of_nat (String.length un) - dp) else 0) = Dec_scale (canonical d).
Proof.
  intros [Hs _]. unfold text, canonical. destruct (Z.leb_spec (Dec_scale d) 0) as [H|H].
  - destruct (digits_spec d) as (HD & Hne & Hv). set (tail := if Dec_unscaled d =? 0 then _ else _).
    assert (sforallb is_digit tail = true) as Ht by (subst tail; destruct (_ =? _); [done|apply digits_zeros]).
    eexists _, _, _. split_and!; [apply scan_integer| | |done]; [apply is_sign_text| |by destruct (digits d)|lia|].
    + by rewrite sforallb_app, HD.
    + simpl. assert (sign_text (Dec_unscaled d) = sign_text (Dec_unscaled d * 10 ^ (- Dec_scale d))) as ->.
      { unfold sign_text. assert (0 < 10 ^ (- Dec_scale d)) by (apply Z.pow_pos_nonneg; lia).
        destruct (Z.ltb_spec (Dec_unscaled d) 0), (Z.ltb_spec (Dec_unscaled d * 10 ^ (- Dec_scale d)) 0); try done; nia. }
      apply big_SetString_spec; [by rewrite sforallb_app, HD|by destruct (digits d)|].
      rewrite sval_app, Z.abs_mul, <- Hv, (Z.abs_eq (10 ^ _)) by (apply Z.pow_nonneg; lia).
      subst tail. destruct (Z.eqb_spec (Dec_unscaled d) 0) as [Hz|Hz].
      * simpl. rewrite Hv, Hz. simpl. lia.
      * rewrite sval_zeros. rewrite N2Z.inj_mul, N2Z.inj_pow. f_equal. f_equal. lia.
  - destruct (point_digits d H) as (HI & HIne & HF & HFl & Hv).
    eexists _, _, _. split_and!; [apply scan_fraction| | |]; [apply is_sign_text|done|done|done| |lia| |].
    + intros Hf. rewrite Hf in HFl. simpl in HFl. lia.
    + apply big_SetString_spec; [by rewrite sforallb_app, HI, HF|by destruct (int_digits d)|done].
    + rewrite (proj2 (Z.leb_le _ _)) by lia. rewrite !slength_app, HFl.
      rewrite wrap32_id by (unfold int32; lia). lia.
Qed.

(** C40. Decimals survive printing and parsing: SetString of what String prints succeeds
    and stores a decimal of the same value, and the very same decimal unless its scale
    was negative, which is written out in zeros. *)
Theorem SetString_String z x d σ :
  σ !! x = Some d → is_Some (σ !! z) → printable d →
  ∃ s d' σ', exec (Dec_String (Some x)) σ s σ ∧ exec (SetString z s) σ (Some z) σ' ∧ stores z d' σ σ'
    ∧ (value d' == value d)%Q ∧ Dec_scale d' = Z.max 0 (Dec_scale d) ∧ (0 <= Dec_scale d → d' = d).
Proof.
  intros Hx [dz Hz] Hp. destruct (scan_text d Hp) as (un & dp & dg & Hscan & Hdg & Hv & Hsc).
  exists (text d), (canonical d). eexists. split_and!.
  - by apply Dec_String_text.
  - eapply exec_SetString; eauto.
  - rewrite Hsc. replace (mkDec _ _) with (canonical d) by (by destruct (canonical d)). by apply stores_insert.
  - apply value_canonical.
  - unfold canonical. destruct (Z.leb_spec (Dec_scale d) 0); simpl; lia.
  - unfold canonical. intros H. destruct (Z.leb_spec (Dec_scale d) 0); [|done].
    replace (Dec_scale d) with 0 by lia. destruct d as [u s]. simpl in *. f_equal; lia.
Qed.

(** ** The gob encoding

    Bytes are integers from 0 to 255.  The integer's own encoding is math/big's: a
    byte with version and sign, and the magnitude, most significant byte first. *)

Fixpoint be_bytes (fuel : nat) (n : Z) (acc : list Z) : list Z :=
  match fuel with
  | O => acc
  | S fuel => if n =? 0 then acc else be_bytes fuel (n / 256) (n mod 256 :: acc)
  end.

Definition big_Bytes (n : Z) : list Z := be_bytes (S (Z.to_nat (Z.log2 n))) n [].

Definition big_SetBytes (b : list Z) : Z := foldl (λ acc c, acc * 256 + c) 0 b.

Definition big_GobEncode (v : Z) : list Z := (if v <? 0 then 3 else 2) :: big_Bytes (Z.abs v).

Definition big_GobDecode (b : list Z) : result string Z :=
  match b with
  | [] => Ok 0
  | c :: b =>
      if c / 2 =? 1 then Ok (if Z.odd c then - big_SetBytes b else big_SetBytes b)
      else Err "Int.GobDecode: encoding version not supported"
  end.

(** The loop fills the buffer from its end; [s >>= 8] keeps the sign. *)
Fixpoint scaleBytes_loop (n : nat) (s : Z) (buf : list Z) : list Z :=
  match n with
  | O => buf
  | S n => scaleBytes_loop n (Z.shiftr s 8) (s mod 256 :: buf)
  end.

Definition scaleBytes (s : Z) : list Z := scaleBytes_loop 4 s [].

Fixpoint scale_loop (n : nat) (b : list Z) (s : Z) : go Z :=
  match n with
  | O => Val s
  | S n => c ← index b 0; scale_loop n (drop 1 b) (Z.lor (wrap32 (Z.shiftl s 8)) c)
  end.

(** The function [scale] of the package. *)
Definition scale_of (b : list Z) : go Z := scale_loop 4 b 0.

Definition GobEncode (x : loc) : M (list Z) :=
  v ← unscaled x;
  s ← Scale x;
  mret ((big_GobEncode v ++ scaleBytes s) ++ [1]).

(** [buf[:l]] with a bounds check. *)
Definition prefix_of {A} (buf : list A) (l : Z) : go (list A) :=
  if (0 <=? l) && (l <=? Z.of_nat (length buf)) then Val (take (Z.to_nat l) buf) else gopanic SliceOutOfRange.

(** The error is None when the buffer was decoded. *)
Definition GobDecode (z : loc) (buf : list Z) : M (option string) :=
  match last buf with
  | None => mret (Some "Dec.GobDecode: no data")
  | Some b =>
      if negb (b =? 1) then mret (Some ("Dec.GobDecode: encoding version " +:+ FormatInt b +:+ " not supported"))
      else
        let l := Z.of_nat (length buf) - 4 - 1 in
        p ← lift (prefix_of buf l);
        match big_GobDecode p with
        | Err e => mret (Some e)
        | Ok v =>
            set_unscaled z v;;
            s ← lift (scale_of (take 4 (drop (Z.to_nat l) buf)));
            SetScale z s;;
            mret None
        end
  end.

Lemma foldl_bytes acc b : foldl (λ acc c, acc * 256 + c) acc b = acc * 256 ^ Z.of_nat (length b) + big_SetBytes b.
Proof.
  revert acc. induction b as [|c b IH]; intros acc; [unfold big_SetBytes; simpl; lia|].
  unfold big_SetBytes. cbn [foldl]. rewrite IH, (IH (0 * 256 + c)). simpl length.
  rewrite Nat2Z.inj_succ, Z.pow_succ_r by lia. ring.
Qed.

Lemma be_bytes_spec fuel n acc :
  0 <= n < 256 ^ Z.of_nat fuel →
  big_SetBytes (be_bytes fuel n acc) = n * 256 ^ Z.of_nat (length acc) + big_SetBytes acc.
Proof.
  revert n acc. induction fuel as [|fuel IH]; intros n acc Hn; cbn [be_bytes]; [simpl in Hn; lia|].
  rewrite Nat2Z.inj_succ, Z.pow_succ_r in Hn by lia.
  destruct (Z.eqb_spec n 0) as [->|Hnz]; [lia|].
  pose proof (Z.div_mod n 256 ltac:(lia)). pose proof (Z.mod_pos_bound n 256 ltac:(lia)).
  rewrite IH by (split; [apply Z.div_pos; lia|apply Z.div_lt_upper_bound; lia]).
  simpl length. rewrite Nat2Z.inj_succ, Z.pow_succ_r by lia.
  unfold big_SetBytes at 1. cbn [foldl]. rewrite foldl_bytes. nia.
Qed.

Lemma big_SetBytes_Bytes n : 0 <= n → big_SetBytes (big_Bytes n) = n.
Proof.
  intros Hn. unfold big_Bytes. rewrite be_bytes_spec; [unfold big_SetBytes; simpl; lia|].
  split; [done|]. destruct (Z.eq_dec n 0) as [->|Hnz]; [done|].
  pose proof (Z.log2_spec n ltac:(lia)) as [_ H]. pose proof (Z.log2_nonneg n).
  eapply Z.lt_le_trans; [exact H|]. etrans; [apply (Z.pow_le_mono_l 2 256); lia|].
  apply Z.pow_le_mono_r; lia.
Qed.

Lemma big_Gob_roundtrip v : big_GobDecode (big_GobEncode v) = Ok v.
Proof.
  unfold big_GobEncode, big_GobDecode.
  destruct (Z.ltb_spec v 0); simpl; rewrite big_SetBytes_Bytes by lia; f_equal; lia.
Qed.

(** Or-ing a byte into a shifted scale adds it. *)
Lemma lor_byte s c : 0 <= c < 256 → Z.lor (wrap32 (Z.shiftl s 8)) c = wrap32 (s * 256) + c.
Proof.
  intros Hc. rewrite Z.shiftl_mul_pow2 by done. change (2 ^ 8) with 256.
  assert (Z.land (wrap32 (s * 256)) c = 0) as Hland.
  { apply Z.bits_inj'. intros i Hi. rewrite Z.land_spec, Z.bits_0. destruct (Z.lt_ge_cases i 8) as [H|H].
    - assert (wrap32 (s * 256) = (wrap32 (s * 256) / 256) * 2 ^ 8) as ->.
      { unfold wrap32. change (2 ^ 8) with 256. change (2 ^ 31) with 2147483648. change (2 ^ 32) with 4294967296.
        Z.to_euclidean_division_equations. lia. }
      by rewrite Z.mul_pow2_bits_low.
    - rewrite <- (Z.mod_small c (2 ^ 8)) by (simpl; lia). rewrite Z.mod_pow2_bits_high by lia.
      apply andb_false_r. }
  rewrite <- Z.lxor_lor, Z.add_nocarry_lxor by done. done.
Qed.

Lemma scale_of_scaleBytes s : int32 s → scale_of (scaleBytes s) = Val s.
Proof.
  unfold int32. intros Hs. unfold scale_of, scaleBytes. cbn [scaleBytes_loop].
  rewrite !Z.shiftr_shiftr, !Z.shiftr_div_pow2 by done. cbn [scale_loop index drop lookup list_lookup mbind go_bind].
  rewrite !lor_byte by (apply Z.mod_pos_bound; lia). f_equal.
  change (2 ^ (8 + (8 + 8))) with 16777216. change (2 ^ (8 + 8)) with 65536. change (2 ^ 8) with 256.
  change (2 ^ 31) with 2147483648 in Hs.
  set (c3 := s mod 256). set (c2 := (s / 256) mod 256). set (c1 := (s / 65536) mod 256).
  set (c0 := (s / 16777216) mod 256).
  assert (0 <= c0 < 256 ∧ 0 <= c1 < 256 ∧ 0 <= c2 < 256 ∧ 0 <= c3 < 256
    ∧ ∃ k, s = c0 * 16777216 + c1 * 65536 + c2 * 256 + c3 + k * 4294967296 ∧ -1 <= k <= 0) as (H0 & H1 & H2 & H3 & k & Hk & Hkb).
  { subst c0 c1 c2 c3. split_and!; try (apply Z.mod_pos_bound; lia); try (apply Z.mod_pos_bound; lia).
    exists (s / 4294967296). split; [|Z.to_euclidean_division_equations; lia].
    Z.to_euclidean_division_equations. lia. }
  clearbody c0 c1 c2 c3. change (0 * 256) with 0. change (wrap32 0) with 0. rewrite Z.add_0_l.
  rewrite (wrap32_id (c0 * 256)), (wrap32_id ((c0 * 256 + c1) * 256)) by (unfold int32; lia).
  unfold wrap32. change (2 ^ 31) with 2147483648. change (2 ^ 32) with 4294967296.
  Z.to_euclidean_division_equations. lia.
Qed.

(** The gob encoding of a decimal decodes to that decimal, negative values and
    scales included. *)
Theorem GobDecode_GobEncode z x d σ :
  σ !! x = Some d → is_Some (σ !! z) → int32 (Dec_scale d) →
  ∃ buf σ', exec (GobEncode x) σ buf σ ∧ exec (GobDecode z buf) σ None σ' ∧ stores z d σ σ'.
Proof.
  intros Hx [dz Hz] Hs. set (enc := big_GobEncode (Dec_unscaled d)).
  exists ((enc ++ scaleBytes (Dec_scale d)) ++ [1]), (<[z := d]> σ). split_and!; [| |by apply stores_insert].
  - step (by apply exec_unscaled). step (by apply exec_Scale). apply exec_ret.
  - unfold GobDecode. rewrite last_snoc. simpl negb. cbn iota zeta.
    replace (Z.of_nat (length _) - 4 - 1) with (Z.of_nat (length enc))
      by (rewrite !length_app; simpl length; lia).
    unfold prefix_of. rewrite (proj2 (Z.leb_le _ _)), (proj2 (Z.leb_le _ _)) by (rewrite ?length_app; lia).
    rewrite Nat2Z.id, <- app_assoc, take_app_length, drop_app_length.
    step (by apply exec_lift). unfold enc at 1. rewrite big_Gob_roundtrip.
    step (by apply exec_set_unscaled). step (apply exec_lift; exact (scale_of_scaleBytes _ Hs)).
    step (apply exec_SetScale, lookup_insert_eq). rewrite insert_insert_eq. destruct d. apply exec_ret.
Qed.

(** A buffer of fewer than five bytes that ends in the version byte makes GobDecode
    panic instead of reporting an error. *)
Theorem GobDecode_short_panics z buf σ :
  (length buf < 4)%nat → GobDecode z (buf ++ [1]) σ = gopanic SliceOutOfRange.
Proof.
  intros Hl. unfold GobDecode. rewrite last_snoc. simpl negb. cbn iota zeta.
  unfold prefix_of. rewrite length_app. change (length [1]) with 1%nat.
  rewrite (proj2 (Z.leb_gt _ _)) by lia. done.
Qed.

End inftext.

(** ** Witnesses *)

Lemma SetString_String_witness :
  ∃ s d' σ', exec (inftext.Dec_String (Some 1%positive)) {[ 1%positive := mkDec (-1250) 5 ]} s {[ 1%positive := mkDec (-1250) 5 ]}
    ∧ exec (inftext.SetString 1 s) {[ 1%positive := mkDec (-1250) 5 ]} (Some 1%positive) σ'
    ∧ stores 1 d' {[ 1%positive := mkDec (-1250) 5 ]} σ'
    ∧ (value d' == value (mkDec (-1250) 5))%Q ∧ Dec_scale d' = Z.max 0 5
    ∧ (0 <= 5 → d' = mkDec (-1250) 5)%Z.
Proof.
  apply (inftext.SetString_String 1 1); [reflexivity|by eexists|]. vm_compute. repeat split; discriminate.
Defined.

Example String_point : 
  inftext.Dec_String (Some 1%positive) {[ 1%positive := mkDec (-1250) 5 ]} = Val ("-0.01250", {[ 1%positive := mkDec (-1250) 5 ]}).
Proof. vm_compute. reflexivity. Qed.

Lemma GobDecode_GobEncode_witness :
  ∃ buf σ', exec (inftext.GobEncode 1) {[ 1%positive := mkDec (-1250) (-5) ]} buf {[ 1%positive := mkDec (-1250) (-5) ]}
    ∧ exec (inftext.GobDecode 1 buf) {[ 1%positive := mkDec (-1250) (-5) ]} None σ'
    ∧ stores 1 (mkDec (-1250) (-5)) {[ 1%positive := mkDec (-1250) (-5) ]} σ'.
Proof. apply (inftext.GobDecode_GobEncode 1 1); [reflexivity|by eexists|]. unfold int32. simpl. lia. Defined.

Lemma GobDecode_short_panics_witness : inftext.GobDecode 1 ([3%Z; 7%Z] ++ [1%Z]) ∅ = gopanic SliceOutOfRange.
Proof. apply (inftext.GobDecode_short_panics 1 [3%Z; 7%Z]). simpl. lia. Defined.
