(* ===== verification/InfTypes.v ===== *)
(** * Decimals are well typed

    The scale of a Dec is an int32 and its operations work through pointers.  In the
    model a scale is an integer and a pointer a key of the store; this file shows that
    the model keeps the types of the source: every operation of the package, run on
    pointers to objects of the store and on scales that are int32, leaves scales that
    are int32, loses no object, returns pointers to objects, and never follows a nil or
    dangling pointer. *)

From stdpp Require Import prelude gmap strings.
From Stdlib Require Import ZArith NArith Ascii QArith.
From S2P Require Import Prelude GoStrings InfDec InfText.

Module inftypes.
Import inf inftext.

Local Open Scope Z_scope.

Implicit Types (Γ : gset loc) (σ : store).

Definition store_ok σ : Prop := map_Forall (λ _ d, int32 (Dec_scale d)) σ.

(** Run where the pointers of [Γ] are valid, [m] keeps the store well typed and the
    pointers valid; so are those of [R a] for its result [a], which satisfies [Q]. *)
Definition typed {A} Γ (m : M A) (R : A → gset loc) (Q : A → Prop) : Prop :=
  ∀ σ, store_ok σ → Γ ⊆ dom σ →
  match m σ with
  | Val (a, σ') => store_ok σ' ∧ Γ ∪ R a ⊆ dom σ' ∧ Q a
  | Halt h => h ≠ HPanic NilDereference
  end.

Abbreviation no_ptr := (λ _, ∅ : gset loc).
Abbreviation any := (λ _, True).

Lemma typed_ret {A} Γ (a : A) R (Q : A → Prop) : R a ⊆ Γ → Q a → typed Γ (mret a) R Q.
Proof. intros HR HQ σ Hσ HΓ. simpl. split_and!; [done|set_solver|done]. Qed.

Lemma typed_bind {A B} Γ (m : M A) (f : A → M B) R Q R' Q' :
  typed Γ m R Q → (∀ a, Q a → typed (Γ ∪ R a) (f a) R' Q') → typed Γ (m ≫= f) R' Q'.
Proof.
  intros Hm Hf σ Hσ HΓ. specialize (Hm σ Hσ HΓ). unfold mbind, M_bind. destruct (m σ) as [[a σ1]|h]; [|done].
  destruct Hm as (Hσ1 & HΓ1 & HQ). specialize (Hf a HQ σ1 Hσ1 HΓ1). destruct (f a σ1) as [[b σ2]|h]; [|done].
  destruct Hf as (? & ? & ?). split_and!; [done|set_solver|done].
Qed.

Lemma typed_post {A} Γ (m : M A) R R' (Q Q' : A → Prop) :
  typed Γ m R Q → (∀ a, Q a → R' a ⊆ Γ ∪ R a ∧ Q' a) → typed Γ m R' Q'.
Proof.
  intros Hm HQ σ Hσ HΓ. specialize (Hm σ Hσ HΓ). destruct (m σ) as [[a σ1]|h]; [|done].
  destruct Hm as (? & ? & Ha). destruct (HQ a Ha). split_and!; [done|set_solver|done].
Qed.

Lemma typed_lift {A} Γ (m : go A) (Q : A → Prop) :
  m ≠ gopanic NilDereference → (∀ a, m = Val a → Q a) → typed Γ (lift m) no_ptr Q.
Proof.
  intros Hne HQ σ Hσ HΓ. unfold lift. destruct m as [a|h]; simpl; [split_and!; [done|set_solver|auto]|by intros ->].
Qed.

(** ** The primitive operations *)

Lemma typed_get Γ l : l ∈ Γ → typed Γ (get l) no_ptr (λ d, int32 (Dec_scale d)).
Proof.
  intros Hl σ Hσ HΓ. unfold get. assert (l ∈ dom σ) as [d Hd]%elem_of_dom by set_solver. rewrite Hd.
  split_and!; [done|set_solver|]. by apply (Hσ l).
Qed.

Lemma typed_put Γ l d : l ∈ Γ → int32 (Dec_scale d) → typed Γ (put l d) no_ptr any.
Proof.
  intros Hl Hd σ Hσ HΓ. unfold put. assert (l ∈ dom σ) as [d0 Hd0]%elem_of_dom by set_solver. rewrite Hd0.
  split_and!; [by apply map_Forall_insert_2|rewrite dom_insert; set_solver|done].
Qed.

Lemma int32_0 : int32 0.
Proof. unfold int32. lia. Qed.

Lemma int32_wrap z : int32 (wrap32 z).
Proof. unfold int32, wrap32. pose proof (Z.mod_pos_bound (z + 2 ^ 31) (2 ^ 32)). lia. Qed.

Lemma typed_new Γ : typed Γ new (λ l, {[l]}) any.
Proof.
  intros σ Hσ HΓ. unfold new. split_and!; [|rewrite dom_insert; set_solver|done].
  apply map_Forall_insert_2; [apply int32_0|done].
Qed.

(** Pointers in a context. *)
Ltac ptr := set_solver.

Lemma typed_read_big Γ p :
  (match p with PField l => l ∈ Γ | PTemp _ => True end) → typed Γ (read_big p) no_ptr any.
Proof.
  intros Hp. destruct p as [l|v]; simpl; [|by apply typed_ret].
  eapply typed_bind; [by apply typed_get|]. intros d _. by apply typed_ret.
Qed.

Lemma typed_unscaled Γ x : x ∈ Γ → typed Γ (unscaled x) no_ptr any.
Proof. apply (typed_read_big Γ (PField x)). Qed.

Lemma typed_Scale Γ x : x ∈ Γ → typed Γ (Scale x) no_ptr int32.
Proof. intros Hx. eapply typed_bind; [by apply typed_get|]. intros d Hd. by apply typed_ret. Qed.

Lemma typed_set_unscaled Γ z v : z ∈ Γ → typed Γ (set_unscaled z v) no_ptr any.
Proof.
  intros Hz. eapply typed_bind; [by apply typed_get|]. intros d Hd. apply typed_put; [ptr|done].
Qed.

Lemma typed_SetScale Γ z s : z ∈ Γ → int32 s → typed Γ (SetScale z s) (λ l, {[l]}) (λ l, l = z).
Proof.
  intros Hz Hs. eapply typed_bind; [by apply typed_get|]. intros d Hd.
  eapply typed_bind; [apply typed_put; [ptr|done]|]. intros ? _. apply typed_ret; [ptr|done].
Qed.

Create HintDb typed.
#[local] Hint Resolve int32_0 int32_wrap : typed.
#[local] Hint Extern 1 (_ ∈ _) => set_solver : typed.
#[local] Hint Extern 1 (_ ⊆ _) => set_solver : typed.
#[local] Hint Resolve typed_get typed_put typed_new typed_unscaled typed_Scale typed_set_unscaled typed_SetScale
  typed_ret : typed.

Lemma exp10_no_nil x : exp10 x ≠ gopanic NilDereference.
Proof.
  unfold exp10, index. destruct (x <? 64); [|done]. destruct (x <? 0); [done|]. by destruct (_ !! _).
Qed.

Lemma big_QuoRem_no_nil x y : big_QuoRem x y ≠ gopanic NilDereference.
Proof. unfold big_QuoRem. by destruct (y =? 0). Qed.

Lemma typed_exp10 Γ x : typed Γ (lift (exp10 x)) no_ptr any.
Proof. apply typed_lift; [apply exp10_no_nil|done]. Qed.

Lemma typed_QuoRem Γ x y : typed Γ (lift (big_QuoRem x y)) no_ptr any.
Proof. apply typed_lift; [apply big_QuoRem_no_nil|done]. Qed.

#[local] Hint Resolve typed_exp10 typed_QuoRem : typed.

(** A derivation, command by command. *)
Ltac typed_bind_step := eapply typed_bind; [solve [eauto with typed]|intros ? ?; simplify_eq/=].
Ltac typing :=
  first [solve [eauto with typed] | apply typed_ret; [set_solver|solve [eauto with typed]] | typed_bind_step; typing | idtac].

Lemma typed_SetUnscaled Γ z v : z ∈ Γ → typed Γ (SetUnscaled z v) (λ l, {[l]}) (λ l, l = z).
Proof. intros Hz. unfold SetUnscaled. typing. Qed.

Lemma typed_SetUnscaledBig Γ z p :
  z ∈ Γ → (match p with PField l => l ∈ Γ | PTemp _ => True end) →
  typed Γ (SetUnscaledBig z p) (λ l, {[l]}) (λ l, l = z).
Proof.
  intros Hz Hp. unfold SetUnscaledBig. eapply typed_bind; [by apply typed_read_big|]. intros v _. typing.
Qed.

Lemma typed_SetDec Γ z x : z ∈ Γ → x ∈ Γ → typed Γ (SetDec z x) (λ l, {[l]}) (λ l, l = z).
Proof.
  intros Hz Hx. unfold SetDec. case_bool_decide; [typing|].
  eapply typed_bind; [apply typed_SetUnscaledBig; done|]. intros l ->. typing.
Qed.

Lemma typed_NewDec Γ v s : int32 s → typed Γ (NewDec v s) (λ l, {[l]}) any.
Proof.
  intros Hs. unfold NewDec. eapply typed_bind; [apply typed_new|]. intros z _.
  eapply typed_bind; [apply typed_SetUnscaled; set_solver|]. intros l ->.
  eapply typed_post; [apply typed_SetScale; [set_solver|done]|]. intros l ->. split; [set_solver|done].
Qed.

Lemma typed_NewDecBig Γ v s : int32 s → typed Γ (NewDecBig v s) (λ l, {[l]}) any.
Proof.
  intros Hs. unfold NewDecBig. eapply typed_bind; [apply typed_new|]. intros z _.
  eapply typed_bind; [apply typed_SetUnscaledBig; [set_solver|done]|]. intros l ->.
  eapply typed_post; [apply typed_SetScale; [set_solver|done]|]. intros l ->. split; [set_solver|done].
Qed.

#[local] Hint Resolve typed_SetUnscaled typed_SetDec typed_NewDec typed_NewDecBig : typed.

(** ** Scales, sums and products *)

Lemma typed_rescale Γ x s : x ∈ Γ → int32 s → typed Γ (rescale x s) (λ l, {[l]}) any.
Proof.
  intros Hx Hs. unfold rescale. typed_bind_step. destruct (_ <? 0); [|destruct (0 <? _)]; [| |typing].
  - do 2 typed_bind_step. eapply typed_bind; [eauto with typed|]. intros [q r] _. typing.
  - typing.
Qed.

Lemma typed_upscale Γ a b :
  a ∈ Γ → b ∈ Γ → typed Γ (upscale a b) (λ ab, {[ab.1; ab.2]}) any.
Proof.
  intros Ha Hb. unfold upscale. do 2 typed_bind_step. destruct (_ =? _); [typing|]. destruct (_ <? _).
  - eapply typed_bind; [apply typed_rescale; [set_solver|done]|]. intros l _. typing.
  - eapply typed_bind; [apply typed_rescale; [set_solver|done]|]. intros l _. typing.
Qed.

Lemma typed_Cmp Γ x y : x ∈ Γ → y ∈ Γ → typed Γ (Cmp x y) no_ptr any.
Proof.
  intros Hx Hy. unfold Cmp. eapply typed_bind; [by apply typed_upscale|]. intros [xx yy] _. simpl. typing.
Qed.

Lemma typed_addsub Γ op z x y :
  z ∈ Γ → x ∈ Γ → y ∈ Γ → typed Γ (addsub op z x y) (λ l, {[l]}) (λ l, l = z).
Proof.
  intros Hz Hx Hy. unfold addsub. eapply typed_bind; [by apply typed_upscale|]. intros [xx yy] _. simpl. typing.
Qed.

Lemma typed_Mul Γ z x y : z ∈ Γ → x ∈ Γ → y ∈ Γ → typed Γ (Mul z x y) (λ l, {[l]}) (λ l, l = z).
Proof. intros Hz Hx Hy. unfold Mul. typing. Qed.

Lemma typed_Neg Γ z x : z ∈ Γ → x ∈ Γ → typed Γ (Neg z x) (λ l, {[l]}) (λ l, l = z).
Proof. intros Hz Hx. unfold Neg. typing. Qed.

Lemma typed_Abs Γ z x : z ∈ Γ → x ∈ Γ → typed Γ (Abs z x) (λ l, {[l]}) (λ l, l = z).
Proof. intros Hz Hx. unfold Abs. typing. Qed.

(** ** Division and rounding *)

(** Both operands of the integer division point to objects, if to anything. *)
Definition big_ok Γ (p : bigptr) : Prop := match p with PField l => l ∈ Γ | PTemp _ => True end.

Lemma big_ok_union Γ Γ' p : big_ok Γ p → big_ok (Γ ∪ Γ') p.
Proof. destruct p; simpl; set_solver. Qed.

(** The remainder is there when it was asked for. *)
Lemma typed_quoRem Γ z x y s useRem :
  z ∈ Γ → x ∈ Γ → y ∈ Γ → int32 s →
  typed Γ (quoRem z x y s useRem) (λ r, {[r.1.1]}) (λ r, useRem = true → is_Some r.1.2 ∧ is_Some r.2).
Proof.
  intros Hz Hx Hy Hs. unfold quoRem. do 2 typed_bind_step.
  eapply (typed_bind _ _ _ no_ptr (λ p, big_ok Γ p.1 ∧ big_ok Γ p.2)).
  { destruct (0 <? _); [|destruct (_ <? 0)].
    - do 2 typed_bind_step. apply typed_ret; [set_solver|]. split; [done|]. simpl. set_solver.
    - do 2 typed_bind_step. apply typed_ret; [set_solver|]. split; [|done]. simpl. set_solver.
    - apply typed_ret; [set_solver|]. split; simpl; set_solver. }
  intros [ix iy] [Hix Hiy]. cbn [fst snd] in *.
  eapply (typed_bind _ _ _ no_ptr (big_ok Γ)).
  { case_bool_decide; [|by apply typed_ret].
    eapply typed_bind; [apply typed_read_big; by repeat apply big_ok_union|]. intros v _. by apply typed_ret. }
  intros iy2 Hiy2. typed_bind_step.
  eapply typed_bind; [apply typed_read_big; by repeat apply big_ok_union|]. intros a1 _.
  eapply typed_bind; [apply typed_read_big; by repeat apply big_ok_union|]. intros b1 _.
  eapply typed_bind; [apply typed_QuoRem|]. intros [q r] _. typed_bind_step.
  destruct useRem; [|apply typed_ret; [set_solver|done]].
  eapply typed_bind; [apply typed_read_big; by repeat apply big_ok_union|]. intros rd _.
  apply typed_ret; [set_solver|]. eauto.
Qed.

Lemma typed_scaler_Scale Γ s x y :
  x ∈ Γ → y ∈ Γ → (match s with sclr s => int32 s | scaleQuoExact => True end) →
  typed Γ (scaler_Scale s x y) no_ptr int32.
Proof.
  intros Hx Hy Hs. destruct s as [s|]; cbn [scaler_Scale]; [by apply typed_ret|].
  do 2 typed_bind_step.
  eapply typed_bind; [apply (typed_lift _ _ any); [|done]; unfold rat_Denom; by destruct (_ =? 0)|]. intros d _.
  eapply typed_bind; [apply (typed_lift _ _ any); [|done]; by destruct (factor2 d)|]. intros f2 _.
  eapply typed_bind; [apply (typed_lift _ _ any); [|done]; by destruct (factor d 5)|]. intros f5 _.
  do 2 typed_bind_step. apply typed_ret; [set_solver|apply int32_wrap].
Qed.

Lemma typed_deref {A} Γ (r : option A) : is_Some r → typed Γ (lift (deref r)) no_ptr any.
Proof. intros [a ->]. by apply typed_lift. Qed.

Lemma typed_index {A} Γ (l : list A) i : typed Γ (lift (index l i)) no_ptr any.
Proof. apply typed_lift; [|done]. unfold index. by destruct (l !! i). Qed.

Lemma typed_add_sign Γ z s : z ∈ Γ → typed Γ (add_sign z s) no_ptr any.
Proof.
  intros Hz. unfold add_sign. typed_bind_step. eapply typed_bind; [apply typed_index|]. intros i _. typing.
Qed.

#[local] Hint Resolve typed_deref typed_index typed_add_sign : typed.

Definition opt_ptr (z : option loc) : gset loc := match z with Some l => {[l]} | None => ∅ end.

(** A rounder that is given the remainder when it uses it. *)
Definition rounder_ok (r : rndr) : Prop :=
  ∀ Γ z q rA rB, z ∈ Γ → q ∈ Γ → (UseRemainder r = true → is_Some rA ∧ is_Some rB) →
  typed Γ (rndr_Round r z q rA rB) opt_ptr any.

Lemma roundHalf_ok f : rounder_ok (mkRndr true (roundHalf f)).
Proof.
  intros Γ z q rA rB Hz Hq Hr. simpl in *. destruct (Hr eq_refl) as [HA HB]. unfold roundHalf.
  eapply typed_bind; [by apply typed_SetDec|]. intros l ->. do 2 typed_bind_step.
  destruct (_ <? _); [by apply typed_ret; [set_solver|]|]. typed_bind_step.
  eapply (typed_bind _ _ _ no_ptr any); [|intros ? _; apply typed_ret; [set_solver|done]].
  destruct (if _ =? _ then _ else _); [apply typed_add_sign; set_solver|by apply typed_ret].
Qed.

Ltac rounder :=
  intros Γ z q rA rB Hz Hq Hr; cbn [UseRemainder rndr_Round] in *; destruct (Hr eq_refl) as [HA HB].

Lemma typed_when Γ (b : bool) m : typed Γ m no_ptr any → typed Γ (if b then m else mret ()) no_ptr any.
Proof. intros Hm. destruct b; [done|by apply typed_ret]. Qed.

Definition rounders : list rndr :=
  [RoundExact; RoundDown; RoundUp; RoundFloor; RoundCeil; RoundHalfDown; RoundHalfUp; RoundHalfEven].

Lemma rounders_ok r : r ∈ rounders → rounder_ok r.
Proof.
  assert (∀ s : Z → Z → Z, ∀ b : Z → Z → bool,
    rounder_ok (mkRndr true (λ z q rA rB, SetDec z q;; rA ← lift (deref rA); rB ← lift (deref rB);
      (if b rA rB then add_sign z (s rA rB) else mret ());; mret (Some z)))) as Hsign.
  { intros s b. rounder. eapply typed_bind; [by apply typed_SetDec|]. intros l ->. do 2 typed_bind_step.
    eapply typed_bind; [apply typed_when, typed_add_sign; set_solver|]. intros ? _. apply typed_ret; [set_solver|done]. }
  unfold rounders. rewrite !elem_of_cons, elem_of_nil.
  intros [->|[->|[->|[->|[->|[->|[->|[->|[]]]]]]]]].
  - rounder. typed_bind_step. destruct (negb _); [by apply typed_ret|].
    eapply typed_bind; [apply typed_SetDec; set_solver|]. intros l ->. apply typed_ret; [set_solver|done].
  - intros Γ z q rA rB Hz Hq _. cbn. eapply typed_bind; [by apply typed_SetDec|]. intros l ->.
    apply typed_ret; [set_solver|done].
  - apply (Hsign (λ rA rB, Z.sgn rA * Z.sgn rB) (λ rA rB, negb (Z.sgn rA =? 0))).
  - apply (Hsign (λ _ _, -1) (λ rA rB, Z.sgn rA * Z.sgn rB <? 0)).
  - apply (Hsign (λ _ _, 1) (λ rA rB, 0 <? Z.sgn rA * Z.sgn rB)).
  - apply roundHalf_ok.
  - apply roundHalf_ok.
  - apply roundHalf_ok.
Qed.

Lemma typed_quo Γ z x y s r :
  z ∈ Γ → x ∈ Γ → y ∈ Γ → (match s with sclr s => int32 s | scaleQuoExact => True end) → rounder_ok r →
  typed Γ (quo z x y s r) opt_ptr any.
Proof.
  intros Hz Hx Hy Hs Hr. unfold quo. eapply typed_bind; [by apply typed_scaler_Scale|]. intros scl Hscl.
  eapply (typed_bind _ _ _ opt_ptr any).
  - destruct (UseRemainder r) eqn:Hu; typed_bind_step.
    + eapply typed_bind; [apply typed_quoRem; [set_solver..|done]|]. intros [[zz rA] rB] Hrem. cbn [fst snd] in *.
      typed_bind_step. apply Hr; [set_solver|set_solver|auto].
    + eapply typed_bind; [apply typed_quoRem; [set_solver..|done]|]. intros [[zz rA] rB] _. cbn [fst snd] in *.
      typed_bind_step. apply Hr; [set_solver|set_solver|congruence].
  - intros [zzz|] _; [|by apply typed_ret]. cbn [opt_ptr].
    eapply typed_bind; [apply typed_SetDec; set_solver|]. intros l ->. apply typed_ret; [set_solver|done].
Qed.

(** ** Text and gob *)

Lemma typed_scan Γ z r :
  z ∈ Γ → typed Γ (scan z r) (λ x, match x.1 with Ok l => {[l]} | Err _ => ∅ end) any.
Proof.
  intros Hz. unfold scan. destruct (scan_loop _ _ _ _) as [[[rest un] dp] dg].
  assert (typed Γ (if dg =? -1 then mret (Err NoDigits, mkReader rest (rd_end r))
     else (if 0 <=? dp then SetScale z (wrap32 (Z.of_nat (String.length un) - dp)) else SetScale z 0);;
       match big_SetString un with
       | None => mret (Err (InvalidDecimal un), mkReader rest (rd_end r))
       | Some v => set_unscaled z v;; mret (Ok z, mkReader rest (rd_end r))
       end) (λ x, match x.1 with Ok l => {[l]} | Err _ => ∅ end) any) as Hmain.
  { destruct (dg =? -1); [by apply typed_ret|].
    eapply (typed_bind _ _ _ (λ l, {[l]}) any).
    - destruct (0 <=? dp); (eapply typed_post; [apply typed_SetScale; [done|auto with typed]|]; intros l ->; split; [set_solver|done]).
    - intros l _. destruct (big_SetString un); [|by apply typed_ret]. typed_bind_step. apply typed_ret; [set_solver|done]. }
  destruct rest; [|exact Hmain]. destruct (rd_end r); [by apply typed_ret|exact Hmain].
Qed.

Lemma typed_SetString Γ z s : z ∈ Γ → typed Γ (SetString z s) opt_ptr any.
Proof.
  intros Hz. unfold SetString. eapply typed_bind; [by apply typed_scan|]. intros [[l|e] r] _; cbn [fst snd].
  - case_bool_decide; apply typed_ret; simpl; (done || set_solver).
  - by apply typed_ret.
Qed.

(** A byte below an int32 is still an int32. *)
Lemma int32_lor a c : int32 a → 0 <= c < 256 → int32 (Z.lor a c).
Proof.
  intros Ha Hc. assert (Z.shiftr (Z.lor a c) 31 = Z.shiftr a 31) as Hs.
  { rewrite Z.shiftr_lor, (Z.shiftr_div_pow2 c) by lia. rewrite Z.div_small by lia. by rewrite Z.lor_0_r. }
  rewrite !Z.shiftr_div_pow2 in Hs by lia. unfold int32 in *.
  assert (-1 <= a / 2 ^ 31 <= 0) as Hd.
  { split; [apply Z.div_le_lower_bound; lia|]. apply Z.lt_succ_r, Z.div_lt_upper_bound; lia. }
  rewrite <- Hs in Hd. pose proof (Z.div_mod (Z.lor a c) (2 ^ 31)).
  pose proof (Z.mod_pos_bound (Z.lor a c) (2 ^ 31)). nia.
Qed.

Lemma scale_loop_int32 n b s v :
  Forall (λ c, 0 <= c < 256) b → int32 s → scale_loop n b s = Val v → int32 v.
Proof.
  intros Hb. revert b Hb s. induction n as [|n IH]; intros b Hb s Hs; simpl; [by intros [= <-]|].
  unfold index. destruct (b !! 0%nat) as [c|] eqn:Hc; [|done]. simpl. apply IH; [by apply Forall_drop|].
  apply int32_lor; [apply int32_wrap|]. by apply (Forall_lookup_1 _ _ _ _ Hb Hc).
Qed.

Lemma scale_loop_no_nil n b s : scale_loop n b s ≠ gopanic NilDereference.
Proof.
  revert b s. induction n as [|n IH]; intros b s; simpl; [done|]. unfold index. destruct (b !! 0%nat); [apply IH|done].
Qed.

Lemma typed_GobDecode Γ z buf :
  z ∈ Γ → Forall (λ c, 0 <= c < 256) buf → typed Γ (GobDecode z buf) no_ptr any.
Proof.
  intros Hz Hb. unfold GobDecode. destruct (last buf); [|by apply typed_ret]. destruct (negb _); [by apply typed_ret|].
  eapply typed_bind; [apply (typed_lift _ _ any); [|done]; unfold prefix_of; by destruct (_ && _)|]. intros p _.
  destruct (big_GobDecode p); [|by apply typed_ret]. typed_bind_step.
  eapply typed_bind; [apply (typed_lift _ _ int32); [apply scale_loop_no_nil|]|].
  - intros s. apply scale_loop_int32; [by apply Forall_take, Forall_drop|apply int32_0].
  - intros s Hs. typed_bind_step. by apply typed_ret.
Qed.

(** ** Every operation *)

(** The operations that change decimals, with the pointers and values they get. *)
Inductive dec_op : Type :=
| OpNewDec (v s : Z) | OpNewDecBig (v s : Z) | OpSetUnscaledBig (z : loc) (p : bigptr)
| OpSetScale (z : loc) (s : Z) | OpSetUnscaled (z : loc) (v : Z) | OpSet (z x : loc)
| OpNeg (z x : loc) | OpAbs (z x : loc) | OpCmp (x y : loc) | OpAdd (z x y : loc) | OpSub (z x y : loc) | OpMul (z x y : loc)
| OpQuoRound (z x y : loc) (s : Z) (r : rndr) | OpQuoExact (z x y : loc) | OpRound (z x : loc) (s : Z) (r : rndr)
| OpSetString (z : loc) (s : string) | OpUnmarshalText (z : loc) (s : string) | OpGobDecode (z : loc) (buf : list Z).

(** The pointer an operation returns, if it returns one. *)
Definition run_op (op : dec_op) : M (option loc) :=
  match op with
  | OpNewDec v s => l ← NewDec v s; mret (Some l)
  | OpNewDecBig v s => l ← NewDecBig v s; mret (Some l)
  | OpSetUnscaledBig z p => l ← SetUnscaledBig z p; mret (Some l)
  | OpSetScale z s => l ← SetScale z s; mret (Some l)
  | OpSetUnscaled z v => l ← SetUnscaled z v; mret (Some l)
  | OpSet z x => l ← SetDec z x; mret (Some l)
  | OpNeg z x => l ← Neg z x; mret (Some l)
  | OpAbs z x => l ← Abs z x; mret (Some l)
  | OpCmp x y => Cmp x y;; mret None
  | OpAdd z x y => l ← Add z x y; mret (Some l)
  | OpSub z x y => l ← Sub z x y; mret (Some l)
  | OpMul z x y => l ← Mul z x y; mret (Some l)
  | OpQuoRound z x y s r => QuoRound z x y s r
  | OpQuoExact z x y => QuoExact z x y
  | OpRound z x s r => Round z x s r
  | OpSetString z s => SetString z s
  | OpUnmarshalText z s => UnmarshalText z s;; mret None
  | OpGobDecode z buf => GobDecode z buf;; mret None
  end.

(** The arguments have the types the source gives them. *)
Definition op_ok Γ (op : dec_op) : Prop :=
  match op with
  | OpNewDec _ s | OpNewDecBig _ s => int32 s
  | OpSetUnscaledBig z p => z ∈ Γ ∧ big_ok Γ p
  | OpSetScale z s => z ∈ Γ ∧ int32 s
  | OpSetUnscaled z _ | OpSetString z _ | OpUnmarshalText z _ => z ∈ Γ
  | OpSet x y | OpNeg x y | OpAbs x y | OpCmp x y => x ∈ Γ ∧ y ∈ Γ
  | OpAdd z x y | OpSub z x y | OpMul z x y | OpQuoExact z x y => z ∈ Γ ∧ x ∈ Γ ∧ y ∈ Γ
  | OpQuoRound z x y s r => z ∈ Γ ∧ x ∈ Γ ∧ y ∈ Γ ∧ int32 s ∧ r ∈ rounders
  | OpRound z x s r => z ∈ Γ ∧ x ∈ Γ ∧ int32 s ∧ r ∈ rounders
  | OpGobDecode z buf => z ∈ Γ ∧ Forall (λ c, 0 <= c < 256) buf
  end.

Lemma typed_some Γ (m : M loc) Q : typed Γ m (λ l, {[l]}) Q → typed Γ (l ← m; mret (Some l)) opt_ptr any.
Proof. intros Hm. eapply typed_bind; [exact Hm|]. intros l _. apply typed_ret; [simpl; set_solver|done]. Qed.

Lemma typed_none {A} Γ (m : M A) R Q : typed Γ m R Q → typed Γ (m;; mret None) opt_ptr any.
Proof. intros Hm. eapply typed_bind; [exact Hm|]. intros a _. apply typed_ret; [simpl; set_solver|done]. Qed.

(** C33. The decimals are well typed: every operation of the package, aliased arguments
    included, run with valid pointers and int32 scales in a store of int32 scales,
    leaves a store of int32 scales (additions and differences of scales wrap around),
    keeps every pointer valid, returns a valid pointer if any, and does not panic by
    following a nil or dangling pointer. *)
Theorem operations_are_typed Γ op : op_ok Γ op → typed Γ (run_op op) opt_ptr any.
Proof.
  destruct op; cbn [op_ok run_op].
  - intros Hs. eapply typed_some, typed_NewDec, Hs.
  - intros Hs. eapply typed_some, typed_NewDecBig, Hs.
  - intros [Hz Hp]. by eapply typed_some, typed_SetUnscaledBig.
  - intros [Hz Hs]. by eapply typed_some, typed_SetScale.
  - intros Hz. by eapply typed_some, typed_SetUnscaled.
  - intros [Hz Hx]. by eapply typed_some, typed_SetDec.
  - intros [Hz Hx]. by eapply typed_some, typed_Neg.
  - intros [Hz Hx]. by eapply typed_some, typed_Abs.
  - intros [Hx Hy]. by eapply typed_none, typed_Cmp.
  - intros (Hz & Hx & Hy). by eapply typed_some, typed_addsub.
  - intros (Hz & Hx & Hy). by eapply typed_some, typed_addsub.
  - intros (Hz & Hx & Hy). by eapply typed_some, typed_Mul.
  - intros (Hz & Hx & Hy & Hs & Hr). apply typed_quo; auto using rounders_ok.
  - intros (Hz & Hx & Hy). apply typed_quo; [done..|]. apply rounders_ok. by left.
  - intros (Hz & Hx & Hs & Hr). unfold Round. eapply typed_bind; [apply typed_NewDec, int32_0|]. intros one _.
    apply typed_quo; [set_solver..|done|by apply rounders_ok].
  - apply typed_SetString.
  - intros Hz. eapply typed_none. unfold UnmarshalText.
    eapply typed_bind; [by apply typed_SetString|]. intros r _. by apply (typed_ret _ _ no_ptr any).
  - intros [Hz Hb]. by eapply typed_none, typed_GobDecode.
Qed.

End inftypes.

(** ** Witness *)

Import inf inftypes.

(** An addition whose result is one of its operands. *)
Lemma operations_are_typed_witness :
  op_ok {[1%positive; 2%positive]} (OpAdd 1 1 2)
  ∧ typed {[1%positive; 2%positive]} (run_op (OpAdd 1 1 2)) opt_ptr (λ _, True).
Proof. split; [by vm_compute|]. apply operations_are_typed. by vm_compute. Defined.
