(* ===== verification/RadixTree.v ===== *)
(** * The router of gin: tree.go

    A compressed radix tree over the registered paths.  Nodes are values; a method
    that changes a node through its pointer returns the changed node, and a walk down
    the tree rebuilds the nodes it passed.  [handlers] is nil or a value of the
    parameter [H].  The names are those of the source. *)

From stdpp Require Import prelude strings.
From Stdlib Require Import ZArith NArith Ascii.
From S2P Require Import Prelude GoStrings.

Inductive nodeType : Type := static | root | param | catchAll.

#[export] Instance nodeType_eq_dec : EqDecision nodeType.
Proof. solve_decision. Defined.

(** [node]; the zero value is [node_zero]. *)
#[warnings="-register-all"]
Inductive node (H : Type) : Type :=
| Node (path : string) (wildChild : bool) (nType : nodeType) (maxParams : nat)
       (indices : string) (children : list (node H)) (handlers : option H) (priority : Z).
Arguments Node {H} _ _ _ _ _ _ _ _.

Section tree.
Context {H : Type}.
Implicit Types (n : node H) (h : H).

Definition path n : string := match n with Node p _ _ _ _ _ _ _ => p end.
Definition wildChild n : bool := match n with Node _ w _ _ _ _ _ _ => w end.
Definition nType n : nodeType := match n with Node _ _ t _ _ _ _ _ => t end.
Definition maxParams n : nat := match n with Node _ _ _ m _ _ _ _ => m end.
Definition indices n : string := match n with Node _ _ _ _ i _ _ _ => i end.
Definition children n : list (node H) := match n with Node _ _ _ _ _ cs _ _ => cs end.
Definition handlers n : option H := match n with Node _ _ _ _ _ _ hs _ => hs end.
Definition priority n : Z := match n with Node _ _ _ _ _ _ _ p => p end.

Definition node_zero : node H := Node "" false static 0 "" [] None 0.

Definition set_path p n := Node p (wildChild n) (nType n) (maxParams n) (indices n) (children n) (handlers n) (priority n).
Definition set_wildChild w n := Node (path n) w (nType n) (maxParams n) (indices n) (children n) (handlers n) (priority n).
Definition set_nType t n := Node (path n) (wildChild n) t (maxParams n) (indices n) (children n) (handlers n) (priority n).
Definition set_maxParams m n := Node (path n) (wildChild n) (nType n) m (indices n) (children n) (handlers n) (priority n).
Definition set_indices i n := Node (path n) (wildChild n) (nType n) (maxParams n) i (children n) (handlers n) (priority n).
Definition set_children cs n := Node (path n) (wildChild n) (nType n) (maxParams n) (indices n) cs (handlers n) (priority n).
Definition set_handlers hs n := Node (path n) (wildChild n) (nType n) (maxParams n) (indices n) (children n) hs (priority n).
Definition set_priority p n := Node (path n) (wildChild n) (nType n) (maxParams n) (indices n) (children n) (handlers n) p.

(** [n.priority++] on a uint32. *)
Definition incr_priority n : node H := set_priority ((priority n + 1) mod 2 ^ 32)%Z n.

(** [if numParams > n.maxParams { n.maxParams = numParams }]. *)
Definition raise_maxParams (m : nat) n : node H := set_maxParams (Nat.max m (maxParams n)) n.

Definition is_wild (c : ascii) : bool := bool_decide (c = ":"%char) || bool_decide (c = "*"%char).

(** The number of wildcards, at most 255. *)
Fixpoint count_wild (s : string) : nat :=
  match s with
  | EmptyString => 0
  | String c s => if is_wild c then S (count_wild s) else count_wild s
  end.

Definition countParams (s : string) : nat := Nat.min 255 (count_wild s).

(** ** Priorities *)

(** The loop of incrementChildPrio: the child moves to the front past siblings of
    lower priority.  [before] are the siblings in front of it, last first. *)
Fixpoint bubble (before : list (node H)) (c : node H) (after : list (node H)) : list (node H) * nat :=
  match before with
  | b :: before' =>
      if (priority b <? priority c)%Z then bubble before' c (b :: after)
      else (reverse before ++ c :: after, length before)
  | [] => (c :: after, 0)
  end.

(** [indices[:newPos] + indices[pos:pos+1] + indices[newPos:pos] + indices[pos+1:]]. *)
Definition move_index (s : string) (pos newPos : nat) : string :=
  stake newPos s +:+ stake 1 (sdrop pos s) +:+ stake (pos - newPos) (sdrop newPos s) +:+ sdrop (S pos) s.

(** The node and the child's new position. *)
Definition incrementChildPrio (n : node H) (pos : nat) : go (node H * nat) :=
  c ← index (children n) pos;
  let c := incr_priority c in
  let '(cs, newPos) := bubble (reverse (take pos (children n))) c (drop (S pos) (children n)) in
  let n := set_children cs n in
  Val (if bool_decide (newPos = pos) then n else set_indices (move_index (indices n) pos newPos) n, newPos).

(** ** Insertion *)

(** The text before the first wildcard, its kind, and what follows it. *)
Fixpoint find_wild (s : string) : option (string * ascii * string) :=
  match s with
  | EmptyString => None
  | String c s =>
      if is_wild c then Some ("", c, s)
      else match find_wild s with Some (pre, w, rest) => Some (String c pre, w, rest) | None => None end
  end.

(** Up to the next slash, and from it on. *)
Fixpoint span_segment (s : string) : string * string :=
  match s with
  | EmptyString => ("", "")
  | String c s' =>
      if bool_decide (c = "/"%char) then ("", s)
      else let '(seg, rest) := span_segment s' in (String c seg, rest)
  end.

Definition last_is_slash (s : string) : bool := HasSuffix s "/".

(** [n] gets the path, its wildcards in nodes of their own.  The recursion is on
    the number of wildcards left; [first] holds while no byte of the path was
    handled. *)
Fixpoint insertChild (numParams : nat) (first : bool) (n : node H) (p : string) (hs : H) : go (node H) :=
  match numParams with
  | O => Val (set_handlers (Some hs) (set_path p n))
  | S numParams' =>
      match find_wild p with
      | None => gopanic IndexOutOfRange
      | Some (pre, c, rest) =>
          let '(name, tail) := span_segment rest in
          if sforallb (λ a, negb (is_wild a)) name then
            if bool_decide (length (children n) = 0) then
              if bool_decide (name = "") then
                gopanic (Panicked "wildcards must be named with a non-empty name")
              else if bool_decide (c = ":"%char) then
                let n := if first && bool_decide (pre = "") then n else set_path pre n in
                let child := incr_priority (set_maxParams numParams (set_nType param node_zero)) in
                child ←
                  (if bool_decide (tail = "") then
                     match numParams' with
                     | O => Val (set_handlers (Some hs) (set_path (":" +:+ name) child))
                     | S _ => gopanic IndexOutOfRange
                     end
                   else
                     let child := set_path (":" +:+ name) child in
                     grandchild ← insertChild numParams' false
                       (set_priority 1 (set_maxParams numParams' node_zero)) tail hs;
                     Val (set_children [grandchild] child));
                Val (set_wildChild true (set_children [child] n))
              else if negb (bool_decide (tail = "")) || negb (bool_decide (numParams' = 0)) then
                gopanic (Panicked "catch-all routes are only allowed at the end of the path")
              else if last_is_slash (path n) then
                gopanic (Panicked "catch-all conflicts with existing handle for the path segment root")
              else if first && bool_decide (pre = "") then gopanic IndexOutOfRange
              else if negb (last_is_slash pre) then gopanic (Panicked "no / before catch-all")
              else
                let child2 := Node ("/*" +:+ name) false catchAll 1 "" [] (Some hs) 1 in
                let child1 := Node "" true catchAll 1 "" [child2] None 1 in
                Val (set_indices "/" (set_children [child1] (set_path (TrimSuffix pre "/") n)))
            else gopanic (Panicked "wildcard route conflicts with existing children")
          else gopanic (Panicked "only one wildcard per path segment is allowed")
      end
  end.

(** The longest common prefix, and what is left of both. *)
Fixpoint common_prefix (s t : string) : string * string * string :=
  match s, t with
  | String a s', String b t' =>
      if bool_decide (a = b) then
        let '(pre, u, v) := common_prefix s' t' in (String a pre, u, v)
      else ("", s, t)
  | _, _ => ("", s, t)
  end.

(** Splitting an edge: the rest of the node's path moves to a child. *)
Definition split_edge (pre rest : string) (n : node H) : node H :=
  let child := Node rest (wildChild n) static
    (foldl (λ m c, Nat.max m (maxParams c)) 0 (children n))
    (indices n) (children n) (handlers n) ((priority n - 1) mod 2 ^ 32)%Z in
  set_wildChild false (set_handlers None (set_path pre
    (set_indices (stake 1 rest) (set_children [child] n)))).

(** Writing a child back. *)
Definition put_child (n : node H) (i : nat) (c : node H) : node H := set_children (<[i := c]> (children n)) n.

(** The position of a byte in the indices. *)
Fixpoint index_of (c : ascii) (s : string) : option nat :=
  match s with
  | EmptyString => None
  | String a s => if bool_decide (a = c) then Some 0 else S <$> index_of c s
  end.

(** The loop [walk] of addRoute at node [n]; each turn but those through a
    wildcard shortens the path, so twice its length and two is enough fuel. *)
Fixpoint walk_insert (fuel : nat) (n : node H) (p : string) (numParams : nat) (hs : H) : go (node H) :=
  match fuel with
  | O => gopanic (Panicked "out of fuel")
  | S fuel =>
      let n := raise_maxParams numParams n in
      let '(pre, more, rest) := common_prefix p (path n) in
      let n := if bool_decide (rest = "") then n else split_edge pre rest n in
      match more with
      | EmptyString =>
          match handlers n with
          | Some _ => gopanic (Panicked "handlers are already registered")
          | None => Val (set_handlers (Some hs) n)
          end
      | String c _ =>
          if wildChild n then
            child ← index (children n) 0;
            let child := raise_maxParams numParams (incr_priority child) in
            if HasPrefix more (path child)
               && (bool_decide (sdrop (String.length (path child)) more = "")
                   || HasPrefix (sdrop (String.length (path child)) more) "/") then
              child ← walk_insert fuel child more (numParams - 1) hs;
              Val (put_child n 0 child)
            else gopanic (Panicked "path segment conflicts with existing wildcard")
          else if bool_decide (nType n = param) && bool_decide (c = "/"%char)
                  && bool_decide (length (children n) = 1) then
            child ← index (children n) 0;
            child ← walk_insert fuel (incr_priority child) more numParams hs;
            Val (put_child n 0 child)
          else
            match index_of c (indices n) with
            | Some i =>
                '(n, j) ← incrementChildPrio n i;
                child ← index (children n) j;
                child ← walk_insert fuel child more numParams hs;
                Val (put_child n j child)
            | None =>
                if is_wild c then insertChild numParams true n more hs
                else
                  let n := set_indices (indices n +:+ String c "") n in
                  let n := set_children (children n ++ [set_maxParams numParams node_zero]) n in
                  '(n, j) ← incrementChildPrio n (String.length (indices n) - 1);
                  child ← index (children n) j;
                  child ← insertChild numParams true child more hs;
                  Val (put_child n j child)
            end
      end
  end.

Definition addRoute (n : node H) (p : string) (hs : H) : go (node H) :=
  let n := incr_priority n in
  let numParams := countParams p in
  if negb (bool_decide (path n = "")) || negb (bool_decide (length (children n) = 0)) then
    walk_insert (2 * String.length p + 2) n p numParams hs
  else
    n ← insertChild numParams true n p hs;
    Val (set_nType root n).

(** A tree from a list of registrations. *)
Fixpoint addRoutes (n : node H) (l : list (string * H)) : go (node H) :=
  match l with
  | [] => Val n
  | (p, hs) :: l => n ← addRoute n p hs; addRoutes n l
  end.

(** ** Lookup *)

(** [s[k:]]. *)
Definition slice_tail (k : nat) (s : string) : go string :=
  if Nat.leb k (String.length s) then Val (sdrop k s) else gopanic SliceOutOfRange.

(** Saving a parameter: a slice whose capacity is below what the node may need is
    replaced by an empty one of that capacity; then it grows within its capacity. *)
Definition save_param (max : nat) (key value : string) (po : list (string * string)) (cap : nat) :
    go (list (string * string) * nat) :=
  let '(po, cap) := if Nat.ltb cap max then ([], max) else (po, cap) in
  if Nat.ltb (length po) cap then Val (po ++ [(key, value)], cap) else gopanic SliceOutOfRange.

Definition has_handlers (n : node H) : bool := match handlers n with Some _ => true | None => false end.

(** The recommendation at the end of the walk. *)
Definition tsr_extra (p npath : string) (hs : option H) : bool :=
  bool_decide (p = "/")
  || bool_decide (npath = p +:+ "/") && match hs with Some _ => true | None => false end.

(** The recommendation at a node whose path is all of the rest. *)
Fixpoint tsr_child (idx : string) (cs : list (node H)) : go bool :=
  match idx with
  | EmptyString => Val false
  | String a idx =>
      if bool_decide (a = "/"%char) then
        c ← index cs 0;
        if Nat.eqb (String.length (path c)) 1 && has_handlers c then Val true
        else if bool_decide (nType c = catchAll) then c2 ← index (children c) 0; Val (has_handlers c2)
        else Val false
      else tsr_child idx (tail cs)
  end.

(** [getValue]: handlers, parameters and the trailing-slash recommendation, for a
    parameter slice [po] of capacity [cap]. *)
Fixpoint getValue (n : node H) (p : string) (po : list (string * string)) (cap : nat) :
    go (option H * list (string * string) * bool) :=
  match n with
  | Node npath wild nt _ idx cs hs _ =>
      if Nat.ltb (String.length npath) (String.length p) then
        if HasPrefix p npath then
          let p := sdrop (String.length npath) p in
          if negb wild then
            match p with
            | EmptyString => gopanic IndexOutOfRange
            | String c _ =>
                (fix pick (cs : list (node H)) (idx : string) :=
                   match cs, idx with
                   | n' :: cs, String a idx => if bool_decide (c = a) then getValue n' p po cap else pick cs idx
                   | [], String a idx =>
                       match index_of c (String a idx) with
                       | Some _ => gopanic IndexOutOfRange
                       | None => Val (None, po, bool_decide (p = "/") && match hs with Some _ => true | None => false end)
                       end
                   | _, EmptyString =>
                       Val (None, po, bool_decide (p = "/") && match hs with Some _ => true | None => false end)
                   end) cs idx
            end
          else
            match cs with
            | [] => gopanic IndexOutOfRange
            | Node cpath _ ct cmax _ ccs chs _ :: _ =>
                match ct with
                | param =>
                    let '(value, rest) := span_segment p in
                    key ← slice_tail 1 cpath;
                    '(po, cap) ← save_param cmax key value po cap;
                    match rest with
                    | String _ rest' =>
                        match ccs with
                        | c1 :: _ => getValue c1 rest po cap
                        | [] => Val (None, po, bool_decide (rest' = ""))
                        end
                    | EmptyString =>
                        match chs with
                        | Some h => Val (Some h, po, false)
                        | None =>
                            match ccs with
                            | [c1] => Val (None, po, bool_decide (path c1 = "/") && has_handlers c1)
                            | _ => Val (None, po, false)
                            end
                        end
                    end
                | catchAll =>
                    key ← slice_tail 2 cpath;
                    '(po, cap) ← save_param cmax key p po cap;
                    Val (chs, po, false)
                | _ => gopanic (Panicked "invalid node type")
                end
            end
        else Val (None, po, tsr_extra p npath hs)
      else if bool_decide (p = npath) then
        match hs with
        | Some h => Val (Some h, po, false)
        | None =>
            if bool_decide (p = "/") && wild && negb (bool_decide (nt = root)) then Val (None, po, true)
            else b ← tsr_child idx cs; Val (None, po, b)
        end
      else Val (None, po, tsr_extra p npath hs)
  end.

End tree.

(** ** Patterns *)

(** A registered path as text, parameters and a final catch-all. *)
Inductive tok : Type :=
| TText (s : string)
| TParam (name : string)
| TAll (name : string).

#[export] Instance tok_eq_dec : EqDecision tok.
Proof. solve_decision. Defined.

(** What a pattern matches, and the parameters it binds: a parameter takes the
    bytes up to the next slash and needs at least one byte of path; a catch-all takes
    the rest, which starts with a slash. *)
Fixpoint match_toks (ts : list tok) (p : string) : option (list (string * string)) :=
  match ts with
  | [] => if bool_decide (p = "") then Some [] else None
  | TText s :: ts => if HasPrefix p s then match_toks ts (sdrop (String.length s) p) else None
  | TParam x :: ts =>
      if bool_decide (p = "") then None
      else let '(value, rest) := span_segment p in ((x, value) ::.) <$> match_toks ts rest
  | TAll x :: _ => if HasPrefix p "/" then Some [(x, p)] else None
  end.

(** The tokens of a path; the fuel is the number of wildcards. *)
Fixpoint parse_pattern (fuel : nat) (p : string) : list tok :=
  match fuel with
  | O => [TText p]
  | S fuel =>
      match find_wild p with
      | None => [TText p]
      | Some (pre, c, rest) =>
          if bool_decide (c = ":"%char) then
            let '(name, tail) := span_segment rest in
            TText pre :: TParam name :: (if bool_decide (tail = "") then [] else parse_pattern fuel tail)
          else [TText (TrimSuffix pre "/"); TAll rest]
      end
  end.

Definition pattern_of (p : string) : list tok := parse_pattern (count_wild p) p.

(** Texts without wildcards, and the names of wildcards. *)
Definition clean (s : string) : bool := sforallb (λ a, negb (is_wild a)) s.

Definition is_name (s : string) : bool :=
  clean s && sfree "/" s && negb (bool_decide (s = "")).

(** Neighbouring texts joined, empty ones dropped. *)
Fixpoint norm (ts : list tok) : list tok :=
  match ts with
  | [] => []
  | TText s :: ts =>
      match norm ts with
      | TText t :: ts' => TText (s +:+ t) :: ts'
      | ts' => if bool_decide (s = "") then ts' else TText s :: ts'
      end
  | t :: ts => t :: norm ts
  end.

(** ** The routes of a tree *)

Section routes.
Context {H : Type}.

Definition prepend (t : tok) (l : list (list tok * H)) : list (list tok * H) :=
  (λ r : list tok * H, (t :: r.1, r.2)) <$> l.

Definition own_route (hs : option H) : list (list tok * H) :=
  match hs with Some h => [([], h)] | None => [] end.

(** The patterns below a node with their handlers, the node's path in front. *)
Fixpoint routes_of (n : node H) : list (list tok * H) :=
  match n with
  | Node npath wild _ _ _ cs hs _ =>
      prepend (TText npath)
        (own_route hs ++
         (if wild then
            match cs with
            | Node cpath _ param _ _ ccs chs _ :: _ =>
                prepend (TParam (sdrop 1 cpath))
                  (own_route chs ++ match ccs with c1 :: _ => routes_of c1 | [] => [] end)
            | Node cpath _ catchAll _ _ _ (Some h) _ :: _ => [([TAll (sdrop 2 cpath)], h)]
            | _ => []
            end
          else concat (map routes_of cs)))
  end.

(** The largest number of parameters on a path below a node, and the largest
    [maxParams] of a wildcard below it. *)
Fixpoint depth (n : node H) : nat :=
  match n with
  | Node _ wild _ _ _ cs _ _ =>
      if wild then
        match cs with
        | Node _ _ param _ _ ccs _ _ :: _ => S (match ccs with c1 :: _ => depth c1 | [] => 0 end)
        | _ => 1
        end
      else fold_right (λ c acc, Nat.max (depth c) acc) 0 cs
  end.

Fixpoint max_wild (n : node H) : nat :=
  match n with
  | Node _ wild _ _ _ cs _ _ =>
      if wild then
        match cs with
        | Node _ _ _ cmax _ ccs _ _ :: _ =>
            Nat.max cmax (match ccs with c1 :: _ => max_wild c1 | [] => 0 end)
        | [] => 0
        end
      else fold_right (λ c acc, Nat.max (max_wild c) acc) 0 cs
  end.

(** A catch-all in a node of its own, reached by the slash. *)
Definition is_catch_all (n : node H) : bool :=
  match n with
  | Node "" true _ _ _ (Node _ _ catchAll _ _ _ _ _ :: _) _ _ => true
  | _ => false
  end.

(** The node above it, when there is no text between the two. *)
Definition is_holder (n : node H) : bool :=
  match n with
  | Node npath false _ _ idx [c] None _ => bool_decide (npath = "") && bool_decide (idx = "/") && is_catch_all c
  | _ => false
  end.

(** Every path a child matches starts with its index byte. *)
Definition starts_with (a : ascii) (c : node H) : bool :=
  HasPrefix (path c) (String a "") || (is_catch_all c || is_holder c) && bool_decide (a = "/"%char).

(** The types of the nodes that are not wildcards. *)
Definition is_plain (t : nodeType) : bool := match t with static | root => true | _ => false end.

(** There is a route at the node or below it. *)
Definition has_routes (cs : list (node H)) (hs : option H) : bool :=
  match cs, hs with [], None => false | _, _ => true end.

(** The shape insertion keeps: texts have no wildcards and names are such; bytes of
    [indices] are distinct and one per child; a wildcard is an only child and has room
    for the parameters below it; no subtree is without a route. *)
Fixpoint wf (n : node H) : bool :=
  match n with
  | Node npath wild nt _ idx cs hs _ =>
      if wild then
        bool_decide (idx = "") &&
        match cs with
        | [Node cpath false param cmax cidx ccs chs _] =>
            is_plain nt && clean npath && HasPrefix cpath ":" && is_name (sdrop 1 cpath) &&
            match ccs with
            | [] => Nat.leb 1 cmax && bool_decide (cidx = "") && has_routes ccs chs
            | [c1] =>
                wf c1 && starts_with "/" c1 && negb (is_catch_all c1)
                && Nat.leb (S (depth c1)) cmax && Nat.leb (max_wild c1) cmax
            | _ => false
            end
        | [Node cpath false catchAll cmax _ [] (Some _) _] =>
            HasPrefix cpath "/*" && bool_decide (npath = "") && Nat.leb 1 cmax
            && match hs with None => true | Some _ => false end
        | _ => false
        end
      else
        is_plain nt && clean npath && has_routes cs hs &&
        (fix each (cs : list (node H)) (idx : string) :=
           match cs, idx with
           | [], EmptyString => true
           | c :: cs, String a idx =>
               wf c && starts_with a c && match index_of a idx with None => true | Some _ => false end && each cs idx
           | _, _ => false
           end) cs idx
  end.

(** The routes of a list that match a path, with their parameters. *)
Definition matches (l : list (list tok * H)) (p : string) : list (H * list (string * string)) :=
  omap (λ r : list tok * H, (λ ps, (r.2, ps)) <$> match_toks r.1 p) l.

Lemma matches_app l k p : matches (l ++ k) p = matches l p ++ matches k p.
Proof. apply omap_app. Qed.

Lemma matches_cons r l p :
  matches (r :: l) p = match match_toks r.1 p with Some ps => (r.2, ps) :: matches l p | None => matches l p end.
Proof. unfold matches. simpl. by destruct (match_toks r.1 p). Qed.

Lemma prepend_cons t r l : prepend t (r :: l) = (t :: r.1, r.2) :: prepend t l.
Proof. done. Qed.

Lemma matches_text s l p :
  matches (prepend (TText s) l) p = if HasPrefix p s then matches l (sdrop (String.length s) p) else [].
Proof.
  induction l as [|[ts h] l IH]; [by destruct (HasPrefix p s)|].
  rewrite prepend_cons, !matches_cons, IH. simpl. by destruct (HasPrefix p s).
Qed.

Lemma matches_text_app s l q : matches (prepend (TText s) l) (s +:+ q) = matches l q.
Proof. by rewrite matches_text, HasPrefix_app, sdrop_app. Qed.

Lemma matches_param x l p :
  matches (prepend (TParam x) l) p
  = if bool_decide (p = "") then []
    else (λ m : H * list (string * string), (m.1, (x, (span_segment p).1) :: m.2))
           <$> matches l (span_segment p).2.
Proof.
  induction l as [|[ts h] l IH]; [by case_bool_decide|].
  rewrite prepend_cons, !matches_cons, IH. simpl. case_bool_decide; [done|].
  destruct (span_segment p) as [v rest]. simpl. by destruct (match_toks ts rest).
Qed.

Lemma matches_own hs p :
  matches (own_route hs) p
  = match hs with Some h => if bool_decide (p = "") then [(h, [])] else [] | None => [] end.
Proof. destruct hs; [|done]. unfold matches. simpl. by case_bool_decide. Qed.

(** Size, for induction on trees. *)
Fixpoint size (n : node H) : nat :=
  match n with Node _ _ _ _ _ cs _ _ => S (fold_right (λ c acc, size c + acc) 0 cs) end.

Lemma size_child c (cs : list (node H)) : c ∈ cs → size c ≤ fold_right (λ c acc, size c + acc) 0 cs.
Proof. induction 1 as [c cs|c d cs _ IH]; simpl; lia. Qed.

(** *** Children *)

(** The condition [wf] puts on the children of a node without a wildcard. *)
Fixpoint wf_children (cs : list (node H)) (idx : string) : bool :=
  match cs, idx with
  | [], EmptyString => true
  | c :: cs, String a idx =>
      wf c && starts_with a c && match index_of a idx with None => true | Some _ => false end && wf_children cs idx
  | _, _ => false
  end.

Lemma wf_static npath nt m idx cs hs prio :
  wf (Node npath false nt m idx cs hs prio)
  = is_plain nt && clean npath && has_routes cs hs && wf_children cs idx.
Proof. reflexivity. Qed.

(** A catch-all matches only paths that start with a slash. *)
Lemma matches_catch_all c p :
  wf c = true → is_catch_all c = true → (∀ q, p ≠ String "/" q) → matches (routes_of c) p = [].
Proof.
  intros Hwf Hc Hp. destruct c as [[|? ?] [|] nt m idx cs hs prio]; try done.
  destruct cs as [|[cpath cw [| | |] cm cidx ccs chs cprio] cs]; try done.
  cbn [routes_of]. rewrite matches_text.
  destruct (HasPrefix p "") eqn:E; [|done]. simpl in Hwf |- *.
  destruct chs as [h|], hs; try done;
    try (by destruct cw, ccs, cs; rewrite ?andb_false_r in Hwf).
  rewrite matches_app, matches_own, matches_cons. simpl.
  destruct (HasPrefix p "/") eqn:E2; [|done]. apply HasPrefix_spec in E2 as [u ->]. by destruct (Hp u).
Qed.

Lemma starts_catch_all a c : is_catch_all c = true → starts_with a c = true → a = "/"%char.
Proof.
  unfold starts_with. destruct c as [[|? ?] [|] nt m idx cs hs prio]; try done.
  intros ->. simpl. by intros ?%bool_decide_eq_true.
Qed.

(** A path that does not start with a child's byte matches none of its routes. *)
Lemma matches_starts a c p :
  wf c = true → starts_with a c = true → (∀ q, p ≠ String a q) → matches (routes_of c) p = [].
Proof.
  intros Hwf Ha Hp. destruct (is_catch_all c) eqn:Hc.
  { pose proof (starts_catch_all a c Hc Ha) as ->. by apply matches_catch_all. }
  unfold starts_with in Ha. rewrite Hc in Ha.
  apply orb_true_iff in Ha as [Ha|[Hh ->%bool_decide_eq_true]%andb_true_iff].
  - destruct c as [npath wild nt m idx cs hs prio]. apply HasPrefix_spec in Ha as [t Ht]. simpl in Ht. subst npath.
    cbn [routes_of]. rewrite matches_text.
    destruct (HasPrefix p _) eqn:E; [|done]. apply HasPrefix_spec in E as [u ->]. by destruct (Hp (t +:+ u)).
  - destruct c as [npath [|] nt m idx [|d [|? ?]] [h|] prio]; try done. simpl in Hh.
    rewrite !andb_true_iff, !bool_decide_eq_true in Hh. destruct Hh as [[-> ->] Hd].
    rewrite wf_static in Hwf. simpl in Hwf. rewrite !andb_true_iff in Hwf. destruct Hwf as [_ [[[Hwd _] _] _]].
    cbn [routes_of own_route]. rewrite matches_text. destruct (HasPrefix p "") eqn:E; [|done].
    cbn [map concat app String.length sdrop]. rewrite app_nil_r. apply matches_catch_all; [done|done|by destruct p].
Qed.

End routes.

(** ** Lookup is matching *)

Section lookup.
Context {H : Type}.
Implicit Types (n : node H) (po : list (string * string)).

(** A lookup returns the handlers of the only matching route with its parameters
    added, or none when no route matches. *)
Definition found (r : go (option H * list (string * string) * bool)) po (ms : list (H * list (string * string))) : Prop :=
  ∃ hs ps tsr, r = Val (hs, ps, tsr)
    ∧ match hs with Some h => ∃ qs, ms = [(h, qs)] ∧ ps = po ++ qs | None => ms = [] end.

(** The capacity is enough for the parameters still to come (any is, before the
    first). *)
Definition room n po (cap : nat) : Prop := po = [] ∨ (length po + depth n ≤ cap ∧ max_wild n ≤ cap).

Lemma save_param_room d mw cmax key value po cap :
  po = [] ∨ (length po + S d ≤ cap ∧ Nat.max cmax mw ≤ cap) → S d ≤ cmax → mw ≤ cmax →
  ∃ cap', save_param cmax key value po cap = Val (po ++ [(key, value)], cap')
    ∧ length po + S d ≤ cap' ∧ mw ≤ cap'.
Proof.
  intros Hroom Hd Hmw. unfold save_param. destruct (Nat.ltb_spec cap cmax) as [Hc|Hc].
  - destruct Hroom as [->|[_ ?]]; [|lia]. exists cmax. simpl.
    destruct (Nat.ltb_spec 0 cmax); [|lia]. split_and!; [done|lia|lia].
  - exists cap. assert (length po + S d ≤ cap) by (destruct Hroom as [->|[? _]]; simpl; lia).
    destruct (Nat.ltb_spec (length po) cap); [|lia]. split_and!; [done|lia|lia].
Qed.

(** The loop over the indices. *)
Fixpoint pick_child (f : node H → go (option H * list (string * string) * bool))
    (miss : go (option H * list (string * string) * bool)) (c : ascii) (cs : list (node H)) (idx : string) :=
  match cs, idx with
  | n' :: cs, String a idx => if bool_decide (c = a) then f n' else pick_child f miss c cs idx
  | [], String a idx => match index_of c (String a idx) with Some _ => gopanic IndexOutOfRange | None => miss end
  | _, EmptyString => miss
  end.

Lemma getValue_static npath nt m idx cs hs prio p po cap c q :
  p = npath +:+ String c q →
  getValue (Node npath false nt m idx cs hs prio) p po cap
  = pick_child (λ n', getValue n' (String c q) po cap)
      (Val (None, po, bool_decide (String c q = "/") && match hs with Some _ => true | None => false end)) c cs idx.
Proof.
  intros ->. cbn [getValue]. rewrite slength_app, HasPrefix_app, sdrop_app. simpl.
  rewrite (proj2 (Nat.ltb_lt _ _)) by lia.
  revert idx. induction cs as [|n' cs IH]; intros [|a idx]; try done. simpl. destruct (bool_decide (c = a)); [done|apply IH].
Qed.

(** Looking through well-formed children. *)
Lemma pick_child_found cs idx c q po cap miss tsr :
  miss = Val (None, po, tsr) → wf_children cs idx = true →
  (∀ n', n' ∈ cs → wf n' = true → room n' po cap) →
  (∀ n' a, n' ∈ cs → wf n' = true → starts_with a n' = true → c = a →
     found (getValue n' (String c q) po cap) po (matches (routes_of n') (String c q))) →
  found (pick_child (λ n', getValue n' (String c q) po cap) miss c cs idx) po
    (matches (concat (map routes_of cs)) (String c q)).
Proof.
  intros -> . revert idx. induction cs as [|n' cs IH]; intros [|a idx] Hwf Hroom Hf; try done.
  { simpl. by exists None, po, tsr. }
  simpl in Hwf. rewrite !andb_true_iff in Hwf. destruct Hwf as [[[Hn Ha] Hidx] Hcs].
  cbn [pick_child map concat]. rewrite matches_app. case_bool_decide as Hc.
  - subst a. destruct (Hf n' c) as (hs & ps & t & -> & Hms); [by left|done|done|done|].
    assert (matches (concat (map routes_of cs)) (String c q) = []) as ->.
    { clear -Hidx Hcs. destruct (index_of c idx) eqn:Hi; [done|]. clear Hidx.
      revert idx Hi Hcs. induction cs as [|d cs IH]; intros [|b idx] Hi Hcs; try done.
      simpl in Hi, Hcs. rewrite !andb_true_iff in Hcs. destruct Hcs as [[[Hd Hb] _] Hcs].
      case_bool_decide as Hbc; [done|]. cbn [map concat]. rewrite matches_app.
      rewrite (matches_starts b d) by (done || by intros q' [= ??]).
      apply (IH idx); [by destruct (index_of c idx)|done]. }
    rewrite app_nil_r. by exists hs, ps, t.
  - rewrite (matches_starts a n') by (done || by intros q' [= ??]).
    apply IH; [done| |]; intros; [apply Hroom|eapply Hf]; try done; by right.
Qed.

(** A path that is all of the node's path. *)
Lemma wf_children_end (cs : list (node H)) idx : wf_children cs idx = true → matches (concat (map routes_of cs)) "" = [].
Proof.
  revert idx. induction cs as [|c cs IH]; intros [|a idx] Hwf; try done.
  simpl in Hwf. rewrite !andb_true_iff in Hwf. destruct Hwf as [[[Hc Ha] _] Hcs].
  cbn [map concat]. rewrite matches_app, (matches_starts a c), (IH idx) by (done || by intros q). done.
Qed.

Lemma tsr_child_Val (cs : list (node H)) idx : wf_children cs idx = true → ∃ b, tsr_child idx cs = Val b.
Proof.
  revert cs. induction idx as [|a idx IH]; intros [|c cs] Hwf; try done; [by eexists|].
  simpl in Hwf. rewrite !andb_true_iff in Hwf. destruct Hwf as [[[Hc _] _] Hcs].
  simpl. case_bool_decide; [|by apply IH]. destruct (_ && _); [by eexists|].
  case_bool_decide as Ht; [|by eexists]. destruct c as [npath [|] nt m cidx ccs hs prio]; simpl in Ht; subst nt.
  - simpl in Hc. destruct ccs as [|d ccs]; [by rewrite andb_false_r in Hc|]. by eexists.
  - by rewrite wf_static in Hc.
Qed.

(** What a wildcard child contributes matches no empty path. *)
Lemma wild_end cs :
  matches
    match cs with
    | Node cpath _ param _ _ ccs chs _ :: _ =>
        prepend (TParam (sdrop 1 cpath)) (own_route chs ++ match ccs with c1 :: _ => routes_of c1 | [] => [] end)
    | Node cpath _ catchAll _ _ _ (Some h) _ :: _ => [([TAll (sdrop 2 cpath)], h)]
    | _ => []
    end "" = ([] : list (H * _)).
Proof.
  destruct cs as [|[cpath cw [| | |] cm cidx ccs [h|] cprio] cs]; try done; by rewrite matches_param.
Qed.

Lemma getValue_end npath wild nt m idx cs hs prio po cap :
  wf (Node npath wild nt m idx cs hs prio) = true →
  found (getValue (Node npath wild nt m idx cs hs prio) npath po cap) po
    (matches (routes_of (Node npath wild nt m idx cs hs prio)) npath).
Proof.
  intros Hwf. cbn [getValue routes_of]. rewrite Nat.ltb_irrefl, bool_decide_eq_true_2 by done.
  pose proof (λ l : list (list tok * H), matches_text_app npath l "") as Hm. rewrite sapp_nil_r in Hm. rewrite Hm.
  rewrite matches_app, matches_own, (bool_decide_eq_true_2 ("" = "")) by done.
  assert (∃ b, tsr_child idx cs = Val b) as [b Hb].
  { destruct wild; [|rewrite wf_static in Hwf; by rewrite !andb_true_iff in Hwf; by destruct Hwf as [_ ?%tsr_child_Val]].
    simpl in Hwf. apply andb_true_iff in Hwf as [->%bool_decide_eq_true _]. by eexists. }
  assert (matches (if wild then _ else concat (map routes_of cs)) "" = []) as ->.
  { destruct wild; [apply wild_end|]. rewrite wf_static in Hwf. apply andb_true_iff in Hwf as [_ Hwf].
    by eapply wf_children_end. }
  destruct hs as [h|]; [exists (Some h), po, false; split; [done|]; exists []; by rewrite !app_nil_r|].
  rewrite Hb. destruct (_ && _ && _); [by exists None, po, true|by exists None, po, b].
Qed.

(** A parameter child, the path going on. *)
Lemma getValue_param npath nt m cpath cmax cidx ccs chs cprio hs prio po cap c q :
  let child := Node cpath false param cmax cidx ccs chs cprio in
  let n := Node npath true nt m "" [child] hs prio in
  wf n = true → room n po cap →
  (∀ c1 p po cap, ccs = [c1] → wf c1 = true → room c1 po cap → is_catch_all c1 = false →
     found (getValue c1 p po cap) po (matches (routes_of c1) p)) →
  found (getValue n (npath +:+ String c q) po cap) po (matches (routes_of n) (npath +:+ String c q)).
Proof.
  intros child n Hwf Hroom IH. subst child n.
  cbn [wf] in Hwf. rewrite bool_decide_eq_true_2, andb_true_l in Hwf by done.
  rewrite !andb_true_iff in Hwf. destruct Hwf as [[[[_ _] Hcp] _] Hccs]. apply HasPrefix_spec in Hcp as [x ->].
  assert (∃ d mw, (match ccs with c1 :: _ => depth c1 | [] => 0 end) = d
    ∧ (match ccs with c1 :: _ => max_wild c1 | [] => 0 end) = mw ∧ S d ≤ cmax ∧ mw ≤ cmax) as (d & mw & Ed & Em & Hd & Hmw).
  { eexists _, _. split; [done|]. split; [done|]. destruct ccs as [|c1 [|? ?]]; [|..|done].
    - rewrite !andb_true_iff in Hccs. destruct Hccs as [[Hccs%Nat.leb_le _] _]. lia.
    - rewrite !andb_true_iff, !Nat.leb_le in Hccs. lia. }
  unfold room in Hroom. cbn [depth max_wild] in Hroom. rewrite Ed, Em in Hroom.
  cbn [getValue routes_of]. rewrite slength_app, HasPrefix_app, sdrop_app, matches_text_app.
  rewrite (proj2 (Nat.ltb_lt _ _)) by (simpl; lia). cbn [negb].
  rewrite matches_app, matches_own, matches_param. rewrite (bool_decide_eq_false_2 (String c q = "")) by done.
  destruct (span_segment (String c q)) as [v rest]. cbn [fst snd].
  destruct (save_param_room d mw cmax x v po cap Hroom Hd Hmw) as (cap' & Hsave & Hc1 & Hc2).
  change (slice_tail 1 (":" +:+ x)) with (Val x). change (sdrop 1 (":" +:+ x)) with x.
  cbn [mbind go_bind]. rewrite Hsave. cbn [mbind go_bind].
  replace (match hs with Some _ => [] | None => [] end) with ([] : list (H * list (string * string))) by by destruct hs.
  cbn [app]. rewrite matches_app, matches_own.
  destruct rest as [|c' rest'].
  - rewrite (bool_decide_eq_true_2 ("" = "")) by done.
    assert (matches match ccs with c1 :: _ => routes_of c1 | [] => [] end "" = ([] : list (H * _))) as ->.
    { destruct ccs as [|c1 [|? ?]]; [done| |done]. rewrite !andb_true_iff in Hccs.
      destruct Hccs as [[[[Hw1 Hp1] _] _] _]. by apply (matches_starts "/" c1). }
    destruct chs as [h|]; [by exists (Some h), (po ++ [(x, v)]), false; split; [|exists [(x, v)]]|].
    destruct ccs as [|c1 [|? ?]]; [by eexists None, _, _|by eexists None, _, _|done].
  - rewrite (bool_decide_eq_false_2 (String c' rest' = "")) by done.
    destruct ccs as [|c1 [|? ?]]; [by destruct chs; eexists None, _, _| |done].
    rewrite !andb_true_iff in Hccs. destruct Hccs as [[[[Hw1 _] Hca%negb_true_iff] _] _].
    destruct (IH c1 (String c' rest') (po ++ [(x, v)]) cap') as (hs' & ps & tsr & -> & Hms); [done|done| |done|].
    { right. subst d mw. rewrite length_app. simpl. lia. }
    exists hs', ps, tsr. split; [done|]. destruct chs; cbn [app]; destruct hs' as [h'|];
      [destruct Hms as (qs & -> & ->)|by rewrite Hms|destruct Hms as (qs & -> & ->)|by rewrite Hms];
      exists ((x, v) :: qs); split; [done|by rewrite <- app_assoc|done|by rewrite <- app_assoc].
Qed.

(** A catch-all child. *)
Lemma getValue_catchAll nt m cpath cmax cidx chs cprio prio po cap c q :
  let child := Node cpath false catchAll cmax cidx [] (Some chs) cprio in
  let n := Node "" true nt m "" [child] None prio in
  wf n = true → room n po cap → HasPrefix (String c q) "/" = true →
  found (getValue n (String c q) po cap) po (matches (routes_of n) (String c q)).
Proof.
  intros child n Hwf Hroom Hsl. subst child n.
  cbn [wf] in Hwf. rewrite !andb_true_iff in Hwf. destruct Hwf as [_ [[[Hcp _] Hmax%Nat.leb_le] _]].
  apply HasPrefix_spec in Hcp as [x ->]. unfold room in Hroom. cbn [depth max_wild] in Hroom.
  destruct (save_param_room 0 0 cmax x (String c q) po cap Hroom Hmax) as (cap' & Hsave & _); [lia|].
  cbn [getValue]. rewrite (proj2 (Nat.ltb_lt _ _)) by (simpl; lia).
  replace (HasPrefix (String c q) "") with true by done. cbn [negb String.length sdrop].
  change (slice_tail 2 ("/*" +:+ x)) with (Val x). cbn [mbind go_bind]. rewrite Hsave. cbn [mbind go_bind].
  exists (Some chs), (po ++ [(x, String c q)]), false. split; [done|]. exists [(x, String c q)]. split; [|done].
  cbn [routes_of]. rewrite (matches_text_app "" _ (String c q)). cbn [own_route app].
  rewrite matches_cons. cbn [fst snd match_toks]. by rewrite Hsl.
Qed.

Lemma room_child n n' po cap :
  wildChild n = false → n' ∈ children n → room n po cap → room n' po cap.
Proof.
  destruct n as [npath wild nt m idx cs hs prio]; simpl. intros -> Hin [->|[Hd Hm]]; [by left|right].
  cbn [depth max_wild] in Hd, Hm.
  assert (depth n' ≤ fold_right (λ c acc, Nat.max (depth c) acc) 0 cs
          ∧ max_wild n' ≤ fold_right (λ c acc, Nat.max (max_wild c) acc) 0 cs); [|lia].
  clear Hd Hm. induction Hin as [n' cs|n' d cs _ IH]; simpl; lia.
Qed.

(** Every lookup in a well-formed tree. *)
Lemma getValue_found k n p po cap :
  size n ≤ k → wf n = true → room n po cap → (is_catch_all n = true → HasPrefix p "/" = true) →
  found (getValue n p po cap) po (matches (routes_of n) p).
Proof.
  revert n p po cap. induction k as [|k IH]; intros [npath wild nt m idx cs hs prio] p po cap Hk Hwf Hroom Hca;
    simpl in Hk; [lia|].
  destruct (HasPrefix p npath) eqn:Hpre.
  2:{ cbn [getValue routes_of]. rewrite matches_text, Hpre.
      destruct (Nat.ltb _ _); [by eexists None, _, _|].
      rewrite bool_decide_eq_false_2; [by eexists None, _, _|]. intros ->.
      by rewrite <- (sapp_nil_r npath) in Hpre at 1; rewrite HasPrefix_app in Hpre. }
  apply HasPrefix_spec in Hpre as [[|c q] ->]; [rewrite sapp_nil_r; by apply getValue_end|].
  destruct wild.
  - pose proof Hwf as Hwf'. cbn [wf] in Hwf'. apply andb_true_iff in Hwf' as [->%bool_decide_eq_true Hwf'].
    destruct cs as [|[cpath [|] [| | |] cmax cidx ccs chs cprio] [|? ?]]; try done.
    + apply getValue_param; [done|done|]. intros c1 p' po' cap' -> Hw1 Hr1 Hc1.
      apply IH; [simpl in Hk; lia|done|done|by rewrite Hc1].
    + destruct ccs, chs as [h|]; try done.
      rewrite !andb_true_iff in Hwf'. destruct Hwf' as [[[_ ->%bool_decide_eq_true] _] Hhs]. destruct hs; [done|].
      apply getValue_catchAll; [done|done|by apply Hca].
    + by destruct ccs, chs.
  - rewrite (getValue_static _ _ _ _ _ _ _ _ _ _ c q) by done.
    cbn [routes_of]. rewrite matches_text_app, matches_app, matches_own, (bool_decide_eq_false_2 (String c q = "")) by done.
    replace (match hs with Some _ => [] | None => [] end) with ([] : list (H * list (string * string))) by by destruct hs.
    pose proof Hwf as Hwf'. rewrite wf_static in Hwf'. apply andb_true_iff in Hwf' as [_ Hcs]. cbn [app].
    eapply pick_child_found; [done|done| |].
    + intros n' Hin _. by apply (room_child (Node npath false nt m idx cs hs prio)).
    + intros n' a Hin Hw Ha <-. apply IH; [pose proof (size_child _ _ Hin); lia|done| |].
      * by apply (room_child (Node npath false nt m idx cs hs prio)).
      * intros Hc. pose proof (starts_catch_all c n' Hc Ha) as ->. apply (HasPrefix_app "/" q).
Qed.

End lookup.

(** ** Normal patterns *)

Lemma sdrop_add a b s : sdrop (a + b) s = sdrop b (sdrop a s).
Proof. revert s. induction a as [|a IH]; intros [|c s]; simpl; try done. by destruct b. Qed.

Lemma HasPrefix_both p s t :
  HasPrefix p (s +:+ t) = HasPrefix p s && HasPrefix (sdrop (String.length s) p) t.
Proof.
  apply eq_true_iff_eq. rewrite andb_true_iff, !HasPrefix_spec. split.
  - intros [u ->]. rewrite sapp_assoc, sdrop_app. eauto.
  - intros [[u ->] [v Hv]]. rewrite sdrop_app in Hv. subst u. exists v. by rewrite sapp_assoc.
Qed.

Lemma match_text_text s t ts p :
  match_toks (TText (s +:+ t) :: ts) p = match_toks (TText s :: TText t :: ts) p.
Proof.
  simpl. rewrite HasPrefix_both, slength_app, sdrop_add. by destruct (HasPrefix p s).
Qed.

Lemma match_text_empty ts p : match_toks (TText "" :: ts) p = match_toks ts p.
Proof. simpl. by destruct p. Qed.

Lemma match_norm ts p : match_toks (norm ts) p = match_toks ts p.
Proof.
  revert p. induction ts as [|[s|x|x] ts IH]; intros p; [done| |..].
  - transitivity (match_toks (TText s :: norm ts) p).
    + cbn [norm]. destruct (norm ts) as [|[t|y|y] ts'] eqn:E; try (by rewrite match_text_text);
        case_bool_decide; subst; by rewrite ?match_text_empty.
    + simpl. by rewrite IH.
  - simpl. case_bool_decide; [done|]. destruct (span_segment p). by rewrite IH.
  - done.
Qed.

Section build.
Context {H : Type}.

Definition norm_routes (l : list (list tok * H)) : list (list tok * H) :=
  (λ r : list tok * H, (norm r.1, r.2)) <$> l.

Lemma matches_norm l p : matches (norm_routes l) p = matches l p.
Proof.
  induction l as [|[ts h] l IH]; [done|].
  change (norm_routes ((ts, h) :: l)) with ((norm ts, h) :: norm_routes l).
  rewrite !matches_cons, IH. cbn [fst snd]. by rewrite match_norm.
Qed.

(** The registrations as routes. *)
Definition table_routes (l : list (string * H)) : list (list tok * H) := (λ r, (pattern_of r.1, r.2)) <$> l.

(** A tree that is well formed and has the routes of a table answers every path
    with the only route of the table that matches it, and its parameters. *)
Lemma lookup_in_table (t : node H) (table : list (string * H)) p cap :
  wf t = true → is_catch_all t = false → norm_routes (routes_of t) ≡ₚ norm_routes (table_routes table) →
  ∃ hs ps tsr, getValue t p [] cap = Val (hs, ps, tsr)
    ∧ match hs with
      | Some h => matches (table_routes table) p = [(h, ps)]
      | None => matches (table_routes table) p = []
      end.
Proof.
  intros Hwf Hca Hperm.
  assert (matches (routes_of t) p ≡ₚ matches (table_routes table) p) as Hm.
  { rewrite <- (matches_norm (routes_of t)), <- (matches_norm (table_routes table)). by apply omap_Permutation. }
  destruct (getValue_found (size t) t p [] cap) as (hs & ps & tsr & Heq & Hms);
    [done|done|by left|by rewrite Hca|].
  exists hs, ps, tsr. split; [done|]. destruct hs as [h|].
  - destruct Hms as (qs & Hms & ->). rewrite Hms in Hm. by apply Permutation_singleton_l in Hm.
  - rewrite Hms in Hm. by apply Permutation_nil_l in Hm.
Qed.

End build.
