(* ===== verification/RadixPatterns.v ===== *)
(** * Patterns of paths, and which of them conflict

    Texts in front of a wildcard, patterns in normal form and the pattern of a path in
    parts; routes equal up to normal forms and order.  Then the reference for
    registration: the paths that are valid, and the pairs of routes that conflict. *)

From stdpp Require Import prelude strings.
From Stdlib Require Import ZArith NArith Ascii.
From S2P Require Import Prelude GoStrings RadixTree.

(** ** Texts *)

Lemma clean_app s t : clean (s +:+ t) = clean s && clean t.
Proof. apply sforallb_app. Qed.

Lemma clean_cons a s : clean (String a s) = negb (is_wild a) && clean s.
Proof. done. Qed.

Lemma count_wild_app s t : count_wild (s +:+ t) = count_wild s + count_wild t.
Proof. induction s as [|a s IH]; [done|]. rewrite sapp_cons. simpl. rewrite IH. by destruct (is_wild a). Qed.

Lemma count_wild_clean s : clean s = true ↔ count_wild s = 0.
Proof.
  induction s as [|a s IH]; [done|]. rewrite clean_cons. simpl. destruct (is_wild a); simpl; [|done].
  split; [done|lia].
Qed.

Lemma common_prefix_spec s t :
  let '(pre, u, v) := common_prefix s t in
  s = pre +:+ u ∧ t = pre +:+ v ∧ (∀ a b u' v', u = String a u' → v = String b v' → a ≠ b).
Proof.
  revert t. induction s as [|a s IH]; intros [|b t]; simpl; [by split_and!..|].
  case_bool_decide as Hab; [|split_and!; [done|done|by intros ???? [= -> ->] [= -> ->]]].
  subst b. specialize (IH t). destruct (common_prefix s t) as [[pre u] v]. destruct IH as (-> & -> & ?). by rewrite !sapp_cons.
Qed.

Lemma find_wild_spec p :
  match find_wild p with
  | Some (pre, c, rest) => p = pre +:+ String c rest ∧ clean pre = true ∧ is_wild c = true
  | None => clean p = true
  end.
Proof.
  induction p as [|a p IH]; [done|]. simpl. destruct (is_wild a) eqn:Ha; [done|].
  destruct (find_wild p) as [[[pre c] rest]|]; rewrite !clean_cons, Ha; [|done].
  destruct IH as (-> & ? & ?). by rewrite sapp_cons.
Qed.

Lemma find_wild_app pre c rest :
  clean pre = true → is_wild c = true → find_wild (pre +:+ String c rest) = Some (pre, c, rest).
Proof.
  intros Hpre Hc. induction pre as [|a pre IH]; [simpl; by rewrite Hc|].
  rewrite clean_cons in Hpre. apply andb_true_iff in Hpre as [Ha%negb_true_iff Hpre].
  rewrite sapp_cons. simpl. by rewrite Ha, IH.
Qed.

(** Empty, or starting with a slash. *)
Definition at_slash (s : string) : Prop := s = "" ∨ ∃ q, s = String "/" q.

Lemma span_segment_spec s :
  let '(seg, rest) := span_segment s in s = seg +:+ rest ∧ sfree "/" seg = true ∧ at_slash rest.
Proof.
  induction s as [|a s IH]; [by split_and!; [..|left]|]. simpl. case_bool_decide as Ha.
  { subst a. split_and!; [done|done|]. right. by exists s. }
  destruct (span_segment s) as [seg rest]. destruct IH as (-> & ? & ?). rewrite sapp_cons. split_and!; [done| |done].
  by apply sfree_cons.
Qed.

Lemma span_segment_app seg rest :
  sfree "/" seg = true → at_slash rest → span_segment (seg +:+ rest) = (seg, rest).
Proof.
  intros Hseg Hrest. induction seg as [|a seg IH].
  - by destruct Hrest as [->|[q ->]].
  - apply sfree_cons in Hseg as [Ha Hseg]. rewrite sapp_cons. simpl. rewrite bool_decide_eq_false_2 by done. by rewrite IH.
Qed.

(** A catch-all is the end of its path. *)
Fixpoint all_last (s : string) : bool :=
  match s with
  | EmptyString => true
  | String a s => if bool_decide (a = "*"%char) then sfree "/" s else all_last s
  end.

Lemma sfree_slash_all_last s : sfree "/" s = true → all_last s = true.
Proof.
  induction s as [|a s IH]; [done|]. intros [_ Hs]%sfree_cons. simpl. case_bool_decide; auto.
Qed.

Lemma all_last_app s t : all_last (s +:+ t) = true → all_last t = true.
Proof.
  induction s as [|a s IH]; [done|]. rewrite sapp_cons. simpl. case_bool_decide; [|done].
  rewrite sfree_app. intros [_ ?]%andb_true_iff. by apply sfree_slash_all_last.
Qed.

Lemma HasSuffix_app t suf : HasSuffix (t +:+ suf) suf = true.
Proof.
  unfold HasSuffix. rewrite slength_app, Nat.add_sub, sdrop_app, bool_decide_eq_true_2 by done.
  by rewrite (proj2 (Nat.leb_le _ _)) by lia.
Qed.

Lemma last_char_inj s t a b : s +:+ String a "" = t +:+ String b "" → s = t ∧ a = b.
Proof.
  revert t. induction s as [|c s IH]; intros [|d t]; rewrite ?sapp_cons, ?sapp_nil_l; intros Heq.
  - by injection Heq.
  - injection Heq as _ Heq. by destruct t.
  - injection Heq as _ Heq. by destruct s.
  - injection Heq as -> Heq. by apply IH in Heq as [-> ->].
Qed.

Lemma TrimSuffix_slash_app s t : t ≠ "" → TrimSuffix (s +:+ t) "/" = s +:+ TrimSuffix t "/".
Proof.
  intros Ht. destruct (HasSuffix t "/") eqn:E.
  - apply HasSuffix_spec in E as [u ->]. by rewrite <- sapp_assoc, !TrimSuffix_app.
  - assert (HasSuffix (s +:+ t) "/" = false) as E'; [|unfold TrimSuffix; by rewrite E, E'].
    apply not_true_iff_false. intros Hs%HasSuffix_spec. destruct Hs as [u Hu]. revert E.
    induction t as [|t b _] using string_rev_ind; [done|]. rewrite <- sapp_assoc in Hu.
    apply last_char_inj in Hu as [_ ->]. by rewrite HasSuffix_app.
Qed.

Lemma is_wild_cases c : is_wild c = true → c = ":"%char ∨ c = "*"%char.
Proof. unfold is_wild. intros [?%bool_decide_eq_true|?%bool_decide_eq_true]%orb_true_iff; auto. Qed.

Lemma not_star a q : is_wild a = false → HasPrefix (String a q) "*" = false.
Proof. intros Ha. apply not_true_iff_false. by intros [u [= -> _]]%HasPrefix_spec. Qed.

(** ** Patterns in normal form *)

(** No empty texts and no neighbouring texts. *)
Fixpoint normal (ts : list tok) : bool :=
  match ts with
  | [] => true
  | TText s :: ts =>
      negb (bool_decide (s = "")) && match ts with TText _ :: _ => false | _ => true end && normal ts
  | _ :: ts => normal ts
  end.

Lemma norm_normal ts : normal (norm ts) = true.
Proof.
  induction ts as [|[s|x|x] ts IH]; [done| |done..]. cbn [norm].
  destruct (norm ts) as [|[t|y|y] ts'] eqn:E; try (by case_bool_decide as Hs; [|simpl; rewrite bool_decide_eq_false_2]).
  simpl in IH |- *. rewrite !andb_true_iff, negb_true_iff, bool_decide_eq_false in IH. destruct IH as [[Ht Hn] ->].
  rewrite Hn, bool_decide_eq_false_2; [done|]. by destruct s, t.
Qed.

Lemma normal_norm ts : normal ts = true → norm ts = ts.
Proof.
  induction ts as [|[s|x|x] ts IH]; [done| |intros H; cbn [norm]; by rewrite IH..]. cbn [norm].
  intros H. simpl in H. rewrite !andb_true_iff, negb_true_iff, bool_decide_eq_false in H. destruct H as [[Hs Hn] Hts].
  rewrite IH by done. destruct ts as [|[t|y|y] ts']; try done; by rewrite bool_decide_eq_false_2.
Qed.

Lemma norm_norm ts : norm (norm ts) = norm ts.
Proof. apply normal_norm, norm_normal. Qed.

Lemma norm_cons t ts : norm (t :: norm ts) = norm (t :: ts).
Proof. destruct t; cbn [norm]; by rewrite norm_norm. Qed.

Lemma norm_text_empty ts : norm (TText "" :: ts) = norm ts.
Proof. cbn [norm]. by destruct (norm ts) as [|[t|y|y] ts']. Qed.

Lemma norm_text_text s t ts : norm (TText (s +:+ t) :: ts) = norm (TText s :: TText t :: ts).
Proof.
  cbn [norm]. destruct (norm ts) as [|[u|y|y] ts'] eqn:E; [|by rewrite sapp_assoc|..];
    (destruct t as [|b t]; [by rewrite sapp_nil_r|]);
    rewrite (bool_decide_eq_false_2 (s +:+ String b t = "")) by (by destruct s); by rewrite ?bool_decide_eq_false_2.
Qed.

(** ** The pattern of a path in parts *)

Lemma pattern_clean p : clean p = true → pattern_of p = [TText p].
Proof. intros Hp%count_wild_clean. unfold pattern_of. by rewrite Hp. Qed.

(** A text in front; a catch-all keeps its slash. *)
Lemma pattern_text pre p :
  clean pre = true → HasPrefix p "*" = false → norm (pattern_of (pre +:+ p)) = norm (TText pre :: pattern_of p).
Proof.
  intros Hpre Hp. unfold pattern_of. rewrite count_wild_app, (proj1 (count_wild_clean pre) Hpre). simpl.
  destruct (count_wild p) as [|k] eqn:Hk; [apply norm_text_text|]. cbn [parse_pattern].
  pose proof (find_wild_spec p) as Hf. destruct (find_wild p) as [[[pre' c] rest]|].
  2:{ apply count_wild_clean in Hf. lia. }
  destruct Hf as (-> & Hpre' & Hc).
  rewrite <- sapp_assoc, find_wild_app by (rewrite ?clean_app, ?Hpre; done).
  case_bool_decide as Hcc.
  - destruct (span_segment rest) as [name tail]. apply norm_text_text.
  - rewrite TrimSuffix_slash_app; [apply norm_text_text|]. intros ->. unfold is_wild in Hc.
    rewrite bool_decide_eq_false_2, orb_false_l in Hc by done. apply bool_decide_eq_true in Hc as ->.
    simpl in Hp. by destruct rest.
Qed.

(** A parameter in front. *)
Lemma pattern_param name tail :
  clean name = true → sfree "/" name = true → at_slash tail →
  norm (pattern_of (":" +:+ name +:+ tail)) = norm (TParam name :: pattern_of tail).
Proof.
  intros Hname Hfree Htail. unfold pattern_of. change (":" +:+ name +:+ tail) with (String ":" (name +:+ tail)).
  change (count_wild (String ":" (name +:+ tail))) with (S (count_wild (name +:+ tail))).
  rewrite count_wild_app, (proj1 (count_wild_clean name) Hname). simpl Nat.add.
  transitivity (norm (let '(name, tail) := span_segment (name +:+ tail) in
    TText "" :: TParam name :: (if bool_decide (tail = "") then [] else parse_pattern (count_wild tail) tail)));
    rewrite span_segment_app by done; [|rewrite norm_text_empty; cbn [norm]; f_equal; case_bool_decide; by subst].
  cbn [parse_pattern find_wild]. change (is_wild ":") with true. cbn iota.
  rewrite (bool_decide_eq_true_2 (":"%char = ":"%char)) by done. by rewrite span_segment_app.
Qed.

Lemma pattern_text_param s name tail :
  clean name = true → sfree "/" name = true → at_slash tail →
  norm (TText s :: pattern_of (String ":" (name +:+ tail))) = norm (TText s :: TParam name :: pattern_of tail).
Proof.
  intros Hname Hfree Htail. rewrite <- (norm_cons _ (pattern_of _)), <- (norm_cons _ (TParam _ :: _)).
  f_equal. f_equal. by apply pattern_param.
Qed.

(** ** Conflicts *)

Fixpoint chars (s : string) : list ascii :=
  match s with EmptyString => [] | String a s => a :: chars s end.

Lemma chars_app s t : chars (s +:+ t) = chars s ++ chars t.
Proof. induction s as [|a s IH]; [done|]. rewrite sapp_cons. simpl. by rewrite IH. Qed.

Lemma length_chars s : length (chars s) = String.length s.
Proof. induction s as [|a s IH]; simpl; by rewrite ?IH. Qed.

(** A pattern as a sequence of symbols; a catch-all stands for its slash too. *)
Inductive sym : Type := SChar (a : ascii) | SParam (x : string) | SAll (x : string).

#[export] Instance sym_eq_dec : EqDecision sym.
Proof. solve_decision. Defined.

Definition syms_of (t : tok) : list sym :=
  match t with TText s => SChar <$> chars s | TParam x => [SParam x] | TAll x => [SAll x] end.

Fixpoint syms (ts : list tok) : list sym :=
  match ts with [] => [] | t :: ts => syms_of t ++ syms ts end.

(** Different symbols that cannot follow the same text: a wildcard is an only child. *)
Definition clash (x y : sym) : bool :=
  match x, y with
  | SChar _, SChar _ => false
  | SAll _, SChar c | SChar c, SAll _ => bool_decide (c = "/"%char)
  | _, _ => true
  end.

(** Two routes conflict when they are the same, or differ first in clashing symbols. *)
Fixpoint conflict (xs ys : list sym) : bool :=
  match xs, ys with
  | [], [] => true
  | x :: xs, y :: ys => if decide (x = y) then conflict xs ys else clash x y
  | _, _ => false
  end.

Definition psyms (p : string) : list sym := syms (pattern_of p).

(** Wildcards have names, one to a segment, and a catch-all follows a slash and ends
    the path. *)
Fixpoint valid_loop (fuel : nat) (p : string) : bool :=
  match fuel with
  | O => true
  | S fuel =>
      match find_wild p with
      | None => true
      | Some (pre, c, rest) =>
          let '(name, tail) := span_segment rest in
          is_name name &&
          (if bool_decide (c = ":"%char) then valid_loop fuel tail
           else last_is_slash pre && bool_decide (tail = ""))
      end
  end.

Definition valid (p : string) : bool := valid_loop (count_wild p) p.

Lemma syms_norm ts : syms (norm ts) = syms ts.
Proof.
  induction ts as [|[s|x|x] ts IH]; [done| |simpl; by rewrite IH..]. cbn [syms]. rewrite <- IH. cbn [norm].
  destruct (norm ts) as [|[t|y|y] ts'].
  2:{ cbn [syms syms_of]. rewrite chars_app, fmap_app. by rewrite app_assoc. }
  all: case_bool_decide; by subst.
Qed.

Lemma psyms_text pre p :
  clean pre = true → HasPrefix p "*" = false → psyms (pre +:+ p) = (SChar <$> chars pre) ++ psyms p.
Proof.
  intros Hpre Hp. unfold psyms. rewrite <- (syms_norm (pattern_of (pre +:+ p))), pattern_text, syms_norm by done. done.
Qed.

Lemma psyms_param name tail :
  clean name = true → sfree "/" name = true → at_slash tail →
  psyms (String ":" (name +:+ tail)) = SParam name :: psyms tail.
Proof.
  intros Hn Hf Ht. unfold psyms. change (String ":" (name +:+ tail)) with (":" +:+ name +:+ tail).
  by rewrite <- (syms_norm (pattern_of (":" +:+ name +:+ tail))), pattern_param, syms_norm by done.
Qed.

Lemma psyms_clean p : clean p = true → psyms p = SChar <$> chars p.
Proof. intros Hp. unfold psyms. rewrite pattern_clean by done. simpl. apply app_nil_r. Qed.

Lemma pattern_catchAll pre name :
  clean pre = true → clean name = true → pattern_of ((pre +:+ "/") +:+ String "*" name) = [TText pre; TAll name].
Proof.
  intros Hpre Hname. unfold pattern_of. rewrite count_wild_app.
  rewrite (proj1 (count_wild_clean (pre +:+ "/"))) by (by rewrite clean_app, Hpre).
  change (count_wild (String "*" name)) with (S (count_wild name)).
  rewrite (proj1 (count_wild_clean _) Hname). simpl Nat.add. cbn [parse_pattern].
  rewrite find_wild_app by (rewrite ?clean_app, ?Hpre; done).
  by rewrite bool_decide_eq_false_2, TrimSuffix_app by done.
Qed.

Lemma valid_clean p : clean p = true → valid p = true.
Proof. intros Hp%count_wild_clean. unfold valid. by rewrite Hp. Qed.

Lemma is_name_clean name : is_name name = true → clean name = true ∧ sfree "/" name = true ∧ name ≠ "".
Proof. unfold is_name. rewrite !andb_true_iff, negb_true_iff, bool_decide_eq_false. tauto. Qed.

Lemma valid_wild pre c name tail :
  clean pre = true → is_wild c = true → sfree "/" name = true → at_slash tail →
  valid (pre +:+ String c (name +:+ tail))
  = is_name name && (if bool_decide (c = ":"%char) then valid tail else last_is_slash pre && bool_decide (tail = "")).
Proof.
  intros Hpre Hc Hname Htail. unfold valid. rewrite count_wild_app, (proj1 (count_wild_clean _) Hpre). simpl. rewrite Hc.
  cbn [valid_loop]. rewrite find_wild_app, span_segment_app by done.
  destruct (is_name name) eqn:Hn; [|done]. cbn [andb]. destruct (is_name_clean name Hn) as (Hcl & _).
  by rewrite count_wild_app, (proj1 (count_wild_clean _) Hcl).
Qed.

(** In a valid path a catch-all is last. *)
Lemma clean_all_last pre p : clean pre = true → all_last (pre +:+ p) = all_last p.
Proof.
  induction pre as [|a pre IH]; [done|]. rewrite clean_cons. intros [Ha Hpre]%andb_true_iff. rewrite sapp_cons. simpl.
  rewrite bool_decide_eq_false_2; [by apply IH|]. by intros ->.
Qed.

Lemma valid_all_last p : valid p = true → all_last p = true.
Proof.
  remember (count_wild p) as k eqn:Hk. revert p Hk. induction k as [|k IH]; intros p Hk Hv;
    pose proof (find_wild_spec p) as Hf; destruct (find_wild p) as [[[pre c] rest]|].
  1: { destruct Hf as (-> & _ & Hc). rewrite count_wild_app in Hk. simpl in Hk. rewrite Hc in Hk. lia. }
  1, 3: by rewrite <- (sapp_nil_r p), clean_all_last.
  destruct Hf as (-> & Hpre & Hc). pose proof (span_segment_spec rest) as Hs. destruct (span_segment rest) as [name tail].
  destruct Hs as (-> & Hname & Htail). rewrite valid_wild in Hv by done. apply andb_true_iff in Hv as [Hn Hv].
  destruct (is_name_clean name Hn) as (Hcl & _). rewrite clean_all_last by done. simpl.
  rewrite !count_wild_app in Hk. simpl in Hk. rewrite Hc, count_wild_app, !(proj1 (count_wild_clean _)) in Hk by done.
  apply is_wild_cases in Hc as [->| ->]; simpl in *.
  - rewrite clean_all_last by done. apply IH; [lia|done].
  - apply andb_true_iff in Hv as [_ ->%bool_decide_eq_true]. by rewrite sapp_nil_r.
Qed.

(** A text in front does not matter, unless it ends in the slash of a catch-all. *)
Lemma valid_text pre p : clean pre = true → HasPrefix p "*" = false → valid (pre +:+ p) = valid p.
Proof.
  intros Hpre Hp. pose proof (find_wild_spec p) as Hf. destruct (find_wild p) as [[[pre' c] rest]|].
  - destruct Hf as (-> & Hpre' & Hc). pose proof (span_segment_spec rest) as Hs. destruct (span_segment rest) as [name tail].
    destruct Hs as (-> & Hname & Htail). rewrite <- sapp_assoc, !valid_wild by (rewrite ?clean_app, ?Hpre; done).
    f_equal. case_bool_decide as Hcc; [done|]. f_equal. destruct pre' as [|b pre'].
    { apply is_wild_cases in Hc as [->| ->]; [done|]. change (HasPrefix ("*" +:+ name +:+ tail) "*" = false) in Hp. by rewrite HasPrefix_app in Hp. }
    unfold last_is_slash. apply eq_true_iff_eq. split.
    + intros [u Hu]%HasSuffix_spec. induction pre' as [|pre' b' _] using string_rev_ind.
      * apply last_char_inj in Hu as [_ ->]. done.
      * rewrite <- sapp_cons, <- sapp_assoc in Hu. apply last_char_inj in Hu as [_ ->]. rewrite <- sapp_cons. apply HasSuffix_app.
    + intros [u ->]%HasSuffix_spec. rewrite <- sapp_assoc. apply HasSuffix_app.
  - rewrite !valid_clean by (rewrite ?clean_app, ?Hpre; done). done.
Qed.

Lemma conflict_app l xs ys : conflict (l ++ xs) (l ++ ys) = conflict xs ys.
Proof. induction l as [|x l IH]; [done|]. simpl. by rewrite decide_True. Qed.

Lemma conflict_refl xs : conflict xs xs = true.
Proof. induction xs as [|x xs IH]; [done|]. simpl. by rewrite decide_True. Qed.

Lemma clash_sym x y : clash x y = clash y x.
Proof. by destruct x, y. Qed.

Lemma conflict_sym xs ys : conflict xs ys = conflict ys xs.
Proof.
  revert ys. induction xs as [|x xs IH]; intros [|y ys]; try done. simpl.
  destruct (decide (x = y)) as [->|Hne]; [by rewrite decide_True, IH|]. rewrite decide_False by done. apply clash_sym.
Qed.

(** No two of a list of routes conflict. *)
Fixpoint conflict_free (l : list (list sym)) : bool :=
  match l with [] => true | xs :: l => forallb (λ ys, negb (conflict xs ys)) l && conflict_free l end.

Lemma forallb_Forall {A} (f : A → bool) (l : list A) : forallb f l = true ↔ Forall (λ a, f a = true) l.
Proof. induction l as [|a l IH]; simpl; [by split|]. by rewrite andb_true_iff, Forall_cons, IH. Qed.

Lemma conflict_free_cons xs l :
  conflict_free (xs :: l) = true ↔ Forall (λ ys, conflict xs ys = false) l ∧ conflict_free l = true.
Proof.
  simpl. rewrite andb_true_iff, forallb_Forall. by setoid_rewrite negb_true_iff.
Qed.

Lemma conflict_free_app l k :
  conflict_free (l ++ k) = true ↔
  conflict_free l = true ∧ conflict_free k = true ∧ Forall (λ xs, Forall (λ ys, conflict xs ys = false) k) l.
Proof.
  induction l as [|xs l IH]; [simpl; naive_solver|]. rewrite <- app_comm_cons, !conflict_free_cons, Forall_app, Forall_cons, IH. tauto.
Qed.

Lemma conflict_free_perm l k : l ≡ₚ k → conflict_free l = conflict_free k.
Proof.
  intros Hp. apply eq_true_iff_eq. induction Hp as [|xs l k Hp IH|xs ys l|l k m _ IH1 _ IH2]; [done| | |by rewrite IH1].
  - rewrite !conflict_free_cons, IH. f_equiv. by apply Forall_Permutation.
  - rewrite !conflict_free_cons, !Forall_cons, (conflict_sym ys xs). tauto.
Qed.

#[export] Instance conflict_free_proper : Proper (Permutation ==> (=)) conflict_free.
Proof. exact conflict_free_perm. Qed.

Lemma conflict_free_prefix zs l : conflict_free ((λ xs, zs ++ xs) <$> l) = conflict_free l.
Proof.
  apply eq_true_iff_eq. induction l as [|xs l IH]; [done|]. rewrite fmap_cons, !conflict_free_cons, IH, Forall_fmap.
  unfold compose. by setoid_rewrite conflict_app.
Qed.

(** How a path starts that is entered by the byte [a]: that byte, or the catch-all
    whose slash it is. *)
Definition entered (a : ascii) (xs : list sym) : Prop :=
  ∃ x zs, xs = x :: zs ∧ (x = SChar a ∨ a = "/"%char ∧ zs = [] ∧ ∃ y, x = SAll y).

Lemma entered_nil a : ¬ entered a [].
Proof. by intros (? & ? & ? & _). Qed.

Lemma entered_other a b xs ys : a ≠ b → entered a xs → entered b ys → conflict xs ys = false.
Proof.
  intros Hab (x & zs & -> & Hx) (y & us & -> & Hy). simpl. rewrite decide_False.
  - destruct Hx as [->|(-> & -> & ? & ->)], Hy as [->|(-> & -> & ? & ->)]; simpl; rewrite ?bool_decide_eq_false_2; done.
  - intros ->. destruct Hx as [->|(-> & _ & ? & ->)], Hy as [[= ->]|(-> & _ & ? & ?)]; done.
Qed.

Lemma entered_all a x xs : a = "/"%char → entered a xs → conflict xs [SAll x] = true.
Proof.
  intros -> (? & zs & -> & [->|(_ & -> & y & ->)]); simpl; [done|]. by case_decide.
Qed.

Lemma entered_param a name xs ys : entered a xs → conflict xs (SParam name :: ys) = true.
Proof. intros (? & zs & -> & [->|(_ & -> & y & ->)]); done. Qed.

Lemma entered_text a s xs : entered a ((SChar <$> chars (String a s)) ++ xs).
Proof. simpl. eexists _, _. split; [done|]. by left. Qed.

Lemma valid_entered a q : is_wild a = false → valid (String a q) = true → entered a (psyms (String a q)).
Proof.
  intros Ha Hv. destruct (HasPrefix q "*") eqn:Hq.
  - apply HasPrefix_spec in Hq as [rest ->]. pose proof (span_segment_spec rest) as Hs.
    destruct (span_segment rest) as [name tail]. destruct Hs as (-> & Hname & Htail).
    change (String a ("*" +:+ name +:+ tail)) with (String a "" +:+ String "*" (name +:+ tail)) in Hv |- *.
    rewrite valid_wild in Hv by (try done; by rewrite clean_cons, Ha).
    rewrite bool_decide_eq_false_2, !andb_true_iff, bool_decide_eq_true in Hv by done.
    destruct Hv as ([Hcl _]%is_name_clean & Hl & ->). unfold last_is_slash in Hl. apply HasSuffix_spec in Hl as [u Hu].
    destruct u as [|? u]; [|by destruct u]. injection Hu as ->. rewrite sapp_nil_r.
    unfold psyms.
    assert (pattern_of ("/" +:+ String "*" name) = [TText ""; TAll name]) as -> by by apply (pattern_catchAll "" name).
    eexists _, _. split; [reflexivity|]. right. by eauto.
  - change (String a q) with (String a "" +:+ q). rewrite psyms_text by (try done; by rewrite clean_cons, Ha).
    apply entered_text.
Qed.

(** ** Equal up to normal forms and order *)

Section equiv.
Context {H : Type}.
Implicit Types (l k : list (list tok * H)).

Definition same_routes l k : Prop := norm_routes l ≡ₚ norm_routes k.

#[export] Instance same_routes_equiv : Equivalence same_routes.
Proof. unfold same_routes. split; [intros l; done|by intros l k ?|intros l k m ??; by etrans]. Qed.

Lemma norm_routes_app l k : norm_routes (l ++ k) = norm_routes l ++ norm_routes k.
Proof. apply fmap_app. Qed.

#[export] Instance same_routes_app : Proper (same_routes ==> same_routes ==> same_routes) app.
Proof. intros l l' Hl k k' Hk. unfold same_routes. rewrite !norm_routes_app. by f_equiv. Qed.

#[export] Instance same_routes_cons r : Proper (same_routes ==> same_routes) (cons r).
Proof. intros l k Hlk. by apply (same_routes_app [r] [r]). Qed.

Lemma norm_prepend t l : norm_routes (prepend t l) = norm_routes (prepend t (norm_routes l)).
Proof.
  unfold norm_routes, prepend. rewrite <- !list_fmap_compose. apply list_fmap_ext. intros _ [ts h] _.
  cbn [fst snd compose]. by rewrite norm_cons.
Qed.

#[export] Instance prepend_proper t : Proper (same_routes ==> same_routes) (prepend t).
Proof.
  intros l k Hlk. unfold same_routes. rewrite (norm_prepend t l), (norm_prepend t k).
  by apply fmap_Permutation, fmap_Permutation.
Qed.

#[export] Instance perm_same_routes : subrelation Permutation same_routes.
Proof. intros l k Hlk. by apply fmap_Permutation. Qed.

Lemma same_route ts us h : norm ts = norm us → same_routes [(ts, h)] [(us, h)].
Proof. intros Heq. unfold same_routes, norm_routes. simpl. by rewrite Heq. Qed.

Lemma eq_same l k : norm_routes l = norm_routes k → same_routes l k.
Proof. unfold same_routes. by intros ->. Qed.

Lemma same_text_text s t l : same_routes (prepend (TText (s +:+ t)) l) (prepend (TText s) (prepend (TText t) l)).
Proof.
  apply eq_same. unfold norm_routes, prepend. rewrite <- !list_fmap_compose.
  apply list_fmap_ext. intros _ [ts h] _. cbn [fst snd compose]. by rewrite norm_text_text.
Qed.

Lemma same_text_empty l : same_routes (prepend (TText "") l) l.
Proof.
  apply eq_same. unfold norm_routes, prepend. rewrite <- !list_fmap_compose.
  apply list_fmap_ext. intros _ [ts h] _. cbn [fst snd compose]. by rewrite norm_text_empty.
Qed.

Lemma prepend_app t l k : prepend t (l ++ k) = prepend t l ++ prepend t k.
Proof. apply fmap_app. Qed.

End equiv.
