(* ===== verification/RadixInsert.v ===== *)
(** * Insertion into gin's tree below a node

    [insertChild] keeps the shape [wf] that lookup relies on (RadixTree.v) and adds
    exactly the pattern of the new path, or panics because the path is refused: it is
    not valid or conflicts with a route (RadixPatterns.v). *)

From stdpp Require Import prelude strings.
From Stdlib Require Import ZArith NArith Ascii.
From S2P Require Import Prelude GoStrings RadixTree RadixPatterns.

(** ** The shape of nodes *)

Lemma index_of_None c s : index_of c s = None ↔ c ∉ chars s.
Proof.
  induction s as [|a s IH]; simpl; [split; [intros _; apply not_elem_of_nil|done]|].
  rewrite not_elem_of_cons, <- IH. case_bool_decide; [naive_solver|]. destruct (index_of c s); naive_solver.
Qed.

Lemma index_of_Some c s i :
  index_of c s = Some i → ∃ s1 s2, s = s1 +:+ String c s2 ∧ String.length s1 = i.
Proof.
  revert i. induction s as [|a s IH]; intros i; simpl; [done|]. case_bool_decide as Ha.
  { intros [= <-]. subst a. by exists "", s. }
  destruct (index_of c s) as [j|]; [|done]. intros [= <-]. destruct (IH j) as (s1 & s2 & -> & <-); [done|].
  by exists (String a s1), s2.
Qed.

Section shape.
Context {H : Type}.
Implicit Types (n child c : node H) (cs : list (node H)).

(** Priorities and the counts of plain nodes do not matter. *)
Definition retouched n n' : Prop := ∃ m prio, n' = set_maxParams m (set_priority prio n).

Lemma retouched_incr n : retouched n (incr_priority n).
Proof. destruct n as [? ? ? m ? ? ? prio]. by exists m, ((prio + 1) mod 2 ^ 32)%Z. Qed.

Lemma retouched_raise m n : retouched n (raise_maxParams m n).
Proof. destruct n as [? ? ? k ? ? ? prio]. by exists (Nat.max m k), prio. Qed.

Lemma retouched_spec n n' :
  retouched n n' →
  wf n' = wf n ∧ routes_of n' = routes_of n ∧ depth n' = depth n ∧ max_wild n' = max_wild n
  ∧ is_catch_all n' = is_catch_all n ∧ (∀ a, starts_with a n' = starts_with a n)
  ∧ path n' = path n ∧ children n' = children n ∧ handlers n' = handlers n ∧ wildChild n' = wildChild n
  ∧ nType n' = nType n ∧ indices n' = indices n.
Proof. intros (m & prio & ->). by destruct n. Qed.

(** A parameter node: its name, and room for the parameters below it. *)
Definition wf_param n : bool :=
  match n with
  | Node cpath false param cmax cidx ccs chs _ =>
      HasPrefix cpath ":" && is_name (sdrop 1 cpath) &&
      match ccs with
      | [] => Nat.leb 1 cmax && bool_decide (cidx = "") && has_routes ccs chs
      | [c1] =>
          wf c1 && starts_with "/" c1 && negb (is_catch_all c1)
          && Nat.leb (S (depth c1)) cmax && Nat.leb (max_wild c1) cmax
      | _ => false
      end
  | _ => false
  end.

(** The routes below it. *)
Definition param_routes n : list (list tok * H) :=
  own_route (handlers n) ++ match children n with c1 :: _ => routes_of c1 | [] => [] end.

Lemma wf_wild npath nt m idx cs hs prio :
  wf (Node npath true nt m idx cs hs prio) = true →
  is_catch_all (Node npath true nt m idx cs hs prio) = false →
  idx = "" ∧ is_plain nt = true ∧ clean npath = true ∧ ∃ child, cs = [child] ∧ wf_param child = true.
Proof.
  cbn [wf]. rewrite andb_true_iff, bool_decide_eq_true. intros [-> Hcs] Hca.
  destruct cs as [|[cpath [|] [| | |] cm cidx ccs chs cprio] [|? ?]]; try done.
  - rewrite !andb_true_iff in Hcs. destruct Hcs as [[[[Ht Hp] Hc] Hn] Hccs]. split_and!; [done..|]. eexists. split; [done|].
    unfold wf_param. rewrite !andb_true_iff. by split_and!.
  - destruct ccs, chs; try done. rewrite !andb_true_iff, bool_decide_eq_true in Hcs. by destruct Hcs as [[[_ ->] _] _].
  - by destruct ccs, chs.
Qed.

Lemma wf_wild_intro npath nt m hs prio child :
  is_plain nt = true → clean npath = true → wf_param child = true →
  wf (Node npath true nt m "" [child] hs prio) = true.
Proof.
  intros Ht Hp Hc. destruct child as [cpath [|] [| | |] cm cidx ccs chs cprio]; try done.
  unfold wf_param in Hc. rewrite !andb_true_iff in Hc. destruct Hc as [[? ?] ?].
  cbn [wf]. rewrite bool_decide_eq_true_2, !andb_true_iff by done. by split_and!.
Qed.

Lemma wf_param_eq name cmax cidx ccs (chs : option H) cprio :
  wf_param (Node (":" +:+ name) false param cmax cidx ccs chs cprio)
  = is_name name &&
    match ccs with
    | [] => Nat.leb 1 cmax && bool_decide (cidx = "") && has_routes ccs chs
    | [c1] =>
        wf c1 && starts_with "/" c1 && negb (is_catch_all c1)
        && Nat.leb (S (depth c1)) cmax && Nat.leb (max_wild c1) cmax
    | _ => false
    end.
Proof. unfold wf_param. rewrite HasPrefix_app. reflexivity. Qed.

Lemma wf_param_shape child :
  wf_param child = true → ∃ name, path child = ":" +:+ name ∧ is_name name = true
    ∧ wildChild child = false ∧ nType child = param.
Proof.
  destruct child as [cpath [|] [| | |] cm cidx ccs chs cprio]; try done. unfold wf_param.
  rewrite !andb_true_iff. intros [[[name ->]%HasPrefix_spec Hn] _]. by exists name.
Qed.

Lemma routes_of_wild npath nt m idx child hs prio :
  nType child = param →
  routes_of (Node npath true nt m idx [child] hs prio)
  = prepend (TText npath) (own_route hs ++ prepend (TParam (sdrop 1 (path child))) (param_routes child)).
Proof. destruct child as [? ? [| | |] ? ? ? ? ?]; try done. Qed.

Lemma depth_wild npath nt m idx child hs prio :
  nType child = param →
  depth (Node npath true nt m idx [child] hs prio) = S (match children child with c1 :: _ => depth c1 | [] => 0 end).
Proof. destruct child as [? ? [| | |] ? ? ? ? ?]; try done. Qed.

Lemma max_wild_wild npath nt m idx child hs prio :
  max_wild (Node npath true nt m idx [child] hs prio)
  = Nat.max (maxParams child) (match children child with c1 :: _ => max_wild c1 | [] => 0 end).
Proof. by destruct child. Qed.

(** Children and their bytes. *)
Lemma wf_children_spec cs idx :
  wf_children cs idx = true ↔
  Forall2 (λ c a, wf c = true ∧ starts_with a c = true) cs (chars idx) ∧ NoDup (chars idx).
Proof.
  revert idx. induction cs as [|c cs IH]; intros [|a idx]; simpl.
  - split; [|done]. intros _. split; [done|constructor].
  - split; [done|]. by intros [?%Forall2_nil_inv_l _].
  - split; [done|]. by intros [?%Forall2_cons_nil_inv _].
  - rewrite !andb_true_iff, IH, Forall2_cons, NoDup_cons.
    rewrite <- index_of_None. destruct (index_of a idx); intuition discriminate.
Qed.

Lemma fold_max_le (f : node H → nat) cs K :
  fold_right (λ c acc, Nat.max (f c) acc) 0 cs ≤ K ↔ Forall (λ c, f c ≤ K) cs.
Proof.
  induction cs as [|c cs IH]; simpl; [split; [constructor|lia]|]. rewrite Forall_cons, <- IH. lia.
Qed.

Lemma depth_static npath nt m idx cs hs prio K :
  depth (Node npath false nt m idx cs hs prio) ≤ K ↔ Forall (λ c, depth c ≤ K) cs.
Proof. apply fold_max_le. Qed.

Lemma max_wild_static npath nt m idx cs hs prio K :
  max_wild (Node npath false nt m idx cs hs prio) ≤ K ↔ Forall (λ c, max_wild c ≤ K) cs.
Proof. apply fold_max_le. Qed.

(** *** Moving a child to the front *)

Lemma bubble_spec before c after :
  ∃ b1 b2, before = b1 ++ b2 ∧ bubble before c after = (reverse b2 ++ c :: reverse b1 ++ after, length b2).
Proof.
  revert after. induction before as [|b before IH]; intros after; simpl; [by exists [], []|].
  destruct (_ <? _)%Z; [|by exists [], (b :: before)].
  destruct (IH (b :: after)) as (b1 & b2 & -> & ->). exists (b :: b1), b2. split; [done|].
  f_equal. by rewrite reverse_cons, <- app_assoc.
Qed.

Lemma move_index_spec i1 i2 a s2 :
  move_index (i1 +:+ i2 +:+ String a s2) (String.length i1 + String.length i2) (String.length i1)
  = i1 +:+ String a "" +:+ i2 +:+ s2.
Proof.
  unfold move_index. rewrite stake_app, sdrop_add, !sdrop_app. f_equal.
  replace (stake 1 (String a s2)) with (String a "") by by destruct s2. f_equal.
  replace (String.length i1 + String.length i2 - String.length i1) with (String.length i2) by lia.
  rewrite stake_app. f_equal. rewrite <- Nat.add_1_r, !sdrop_add, !sdrop_app. done.
Qed.

(** The child and its byte move together. *)
Lemma incrementChildPrio_spec n l1 c l2 i1 a i2 :
  children n = l1 ++ c :: l2 → indices n = i1 +:+ String a i2 → String.length i1 = length l1 →
  ∃ n' k1 k2 j1 j2, incrementChildPrio n (length l1) = Val (n', length k1)
    ∧ l1 = k1 ++ k2 ∧ i1 = j1 +:+ j2 ∧ String.length j1 = length k1
    ∧ n' = set_indices (j1 +:+ String a (j2 +:+ i2)) (set_children (k1 ++ incr_priority c :: k2 ++ l2) n).
Proof.
  intros Hcs Hidx Hlen. unfold incrementChildPrio, index. rewrite Hcs, list_lookup_middle by done.
  cbn [mbind go_bind]. rewrite take_app_length. replace (drop (S (length l1)) (l1 ++ c :: l2)) with l2.
  2:{ change (c :: l2) with ([c] ++ l2). by rewrite app_assoc, drop_app_length' by (rewrite length_app; simpl; lia). }
  destruct (bubble_spec (reverse l1) (incr_priority c) l2) as (b1 & b2 & Hb & ->).
  apply (f_equal reverse) in Hb. rewrite reverse_involutive, reverse_app in Hb.
  set (k1 := reverse b2) in *. set (k2 := reverse b1) in *.
  set (j1 := stake (length k1) i1). set (j2 := sdrop (length k1) i1).
  assert (i1 = j1 +:+ j2) as Hj by (symmetry; apply stake_sdrop).
  assert (String.length j1 = length k1) as Hj1.
  { subst j1. apply slength_stake. rewrite Hlen, Hb, length_app. lia. }
  replace (length b2) with (length k1) by (subst k1; by rewrite length_reverse).
  clearbody j1 j2 k1 k2. eexists _, k1, k2, j1, j2. split; [|by split_and!].
  case_bool_decide as Heq.
  - assert (k2 = []) as Hk2. { rewrite Hb, length_app in Heq. apply length_zero_iff_nil. lia. }
    assert (j2 = "") as Hj2.
    { assert (String.length j1 + String.length j2 = String.length i1) by (by rewrite <- slength_app, <- Hj).
      destruct j2; [done|]. simpl in *. rewrite Hlen, Hb, Hk2, app_nil_r in *. lia. }
    rewrite Hk2, Hj2, !sapp_nil_l. rewrite Hj, Hj2, sapp_nil_r in Hidx.
    destruct n as [????????]. simpl in *. subst. done.
  - f_equal. f_equal. unfold set_indices. simpl. f_equal.
    rewrite Hidx, Hj, sapp_assoc. rewrite Hb at 1. rewrite length_app.
    replace (length k2) with (String.length j2).
    2:{ assert (String.length j1 + String.length j2 = String.length i1) by (by rewrite <- slength_app, <- Hj).
        rewrite Hlen, Hb, length_app in *. lia. }
    rewrite <- Hj1. rewrite move_index_spec. done.
Qed.

(** *** Routes below a node *)

Lemma wf_has_route k n : size n ≤ k → wf n = true → routes_of n ≠ [].
Proof.
  revert n. induction k as [|k IH]; intros [npath [|] nt m idx cs hs prio] Hk Hwf; simpl in Hk; [lia|lia|..];
    cbn [routes_of]; intros Hnil%fmap_nil_inv.
  - cbn [wf] in Hwf. apply andb_true_iff in Hwf as [_ Hwf]. apply app_eq_nil in Hnil as [_ Hnil].
    destruct cs as [|[cpath [|] [| | |] cmax cidx ccs chs cprio] [|? ?]]; try done.
    + apply fmap_nil_inv, app_eq_nil in Hnil as [Hch Hcc]. apply andb_true_iff in Hwf as [_ Hwf].
      destruct ccs as [|c1 [|? ?]]; [|..|done].
      * destruct chs; [done|]. by rewrite andb_false_r in Hwf.
      * rewrite !andb_true_iff in Hwf. destruct Hwf as [[[[? _] _] _] _]. apply (IH c1); [simpl in Hk; lia|done|done].
    + by destruct ccs, chs.
    + by destruct ccs, chs.
  - rewrite wf_static, !andb_true_iff in Hwf. destruct Hwf as [[_ Hr] Hcs]. apply app_eq_nil in Hnil as [Hh Hnil].
    destruct cs as [|c cs]; [by destruct hs|]. destruct idx as [|a idx]; [done|].
    simpl in Hcs. rewrite !andb_true_iff in Hcs. destruct Hcs as [[[? _] _] _].
    cbn [map concat] in Hnil. apply app_eq_nil in Hnil as [Hnil _]. apply (IH c); [simpl in Hk; lia|done|done].
Qed.

Lemma catch_all_routes c :
  wf c = true → is_catch_all c = true → ∃ x h, routes_of c = [([TText ""; TAll x], h)].
Proof.
  intros Hwf Hca. destruct c as [[|? ?] [|] nt m idx cs hs prio]; try done.
  destruct cs as [|[cpath [|] [| | |] cmax cidx [|? ?] [h|] cprio] [|? ?]]; try done;
    cbn [wf] in Hwf; apply andb_true_iff in Hwf as [_ Hwf]; try done.
  rewrite !andb_true_iff in Hwf. destruct Hwf as [_ Hh], hs; [done|]. by eexists _, _.
Qed.

(** Every route below starts with the byte the node is entered by. *)
Lemma starts_entered a c r : wf c = true → starts_with a c = true → r ∈ routes_of c → entered a (syms r.1).
Proof.
  intros Hwf Hst Hr. destruct (is_catch_all c) eqn:Hca.
  { pose proof (starts_catch_all a c Hca Hst) as ->. destruct (catch_all_routes c Hwf Hca) as (x & h & Heq).
    rewrite Heq in Hr. apply list_elem_of_singleton in Hr as ->. eexists _, _. split; [done|]. right. eauto. }
  unfold starts_with in Hst. rewrite Hca in Hst.
  apply orb_true_iff in Hst as [[t Ht]%HasPrefix_spec|[Hh ->%bool_decide_eq_true]%andb_true_iff];
    destruct c as [npath w nt m idx cs hs prio].
  - simpl in Ht. subst npath. cbn [routes_of] in Hr. unfold prepend in Hr. apply list_elem_of_fmap in Hr as (r' & -> & _).
    apply entered_text.
  - destruct w, cs as [|d [|? ?]], hs; try done. simpl in Hh. rewrite !andb_true_iff, !bool_decide_eq_true in Hh.
    destruct Hh as [[-> ->] Hd]. rewrite wf_static in Hwf. simpl in Hwf. rewrite !andb_true_iff in Hwf.
    destruct Hwf as [_ [[[Hwd _] _] _]]. destruct (catch_all_routes d Hwd Hd) as (x & h & Heq).
    cbn [routes_of own_route map concat app] in Hr. rewrite Heq in Hr. apply list_elem_of_singleton in Hr as ->.
    eexists _, _. split; [done|]. right. eauto.
Qed.

(** *** Refusals *)

(** A path is refused that is not valid or conflicts with a route. *)
Definition refused (p : string) (l : list (list tok * H)) : Prop :=
  valid p = false ∨ Exists (λ r, conflict (psyms p) (syms r.1) = true) l.

Lemma refused_sub p l k : (∀ r, r ∈ l → r ∈ k) → refused p l → refused p k.
Proof.
  intros Hsub [?|(r & Hr & Hc)%Exists_exists]; [by left|]. right. apply Exists_exists. eauto.
Qed.

Lemma refused_text pre p l :
  clean pre = true → HasPrefix p "*" = false → refused p l → refused (pre +:+ p) (prepend (TText pre) l).
Proof.
  intros Hpre Hp [Hv|Hc]; [left; by rewrite valid_text|right]. unfold prepend. rewrite Exists_fmap.
  eapply Exists_impl; [done|]. intros r Hr. simpl. by rewrite psyms_text, conflict_app.
Qed.

Lemma refused_param name tail l :
  is_name name = true → at_slash tail → refused tail l → refused (String ":" (name +:+ tail)) (prepend (TParam name) l).
Proof.
  intros Hname Ht [Hv|Hc]; destruct (is_name_clean name Hname) as (? & ? & _).
  - left. etrans; [by apply (valid_wild "" ":" name tail)|]. by rewrite Hname.
  - right. unfold prepend. rewrite Exists_fmap. eapply Exists_impl; [done|]. intros r Hr. simpl.
    rewrite psyms_param by done. simpl. by rewrite decide_True.
Qed.

(** A catch-all beside routes that go through its slash. *)
Lemma refused_star s q l :
  clean s = true → l ≠ [] → refused (s +:+ String "*" q) (prepend (TText s) l).
Proof.
  intros Hs Hl. pose proof (span_segment_spec q) as Hq. destruct (span_segment q) as [name tail]. destruct Hq as (-> & Hname & Htail).
  destruct (valid (s +:+ String "*" (name +:+ tail))) eqn:Hv; [right|by left].
  rewrite valid_wild, bool_decide_eq_false_2, !andb_true_iff, bool_decide_eq_true in Hv by done.
  destruct Hv as ([Hcl _]%is_name_clean & [u ->]%HasSuffix_spec & ->).
  rewrite clean_app in Hs. apply andb_true_iff in Hs as [Hs _].
  destruct l as [|r l]; [done|]. apply Exists_cons_hd. rewrite sapp_nil_r. unfold psyms. rewrite pattern_catchAll by done.
  cbn [syms syms_of fst]. rewrite chars_app, fmap_app, <- !app_assoc, conflict_app. done.
Qed.

(** A path that goes on with a plain byte where the routes have a parameter. *)
Lemma refused_at_param s a q name l :
  clean s = true → is_wild a = false → l ≠ [] →
  refused (s +:+ String a q) (prepend (TText s) (prepend (TParam name) l)).
Proof.
  intros Hs Ha Hl. apply refused_text; [done|by apply not_star|].
  destruct (valid (String a q)) eqn:Hv; [right|by left]. destruct l as [|r l]; [done|]. apply Exists_cons_hd.
  eapply entered_param. by apply valid_entered.
Qed.

Lemma refused_unnamed s name tail l :
  clean s = true → sfree "/" name = true → at_slash tail → is_name name = false → refused (s +:+ String ":" (name +:+ tail)) l.
Proof. intros Hs Hf Ht Hn. left. by rewrite valid_wild, Hn. Qed.

(** A parameter where the routes go on with plain bytes. *)
Lemma refused_beside s a name tail l :
  clean s = true → sfree "/" name = true → at_slash tail → Exists (λ r, entered a (syms r.1)) l →
  refused (s +:+ String ":" (name +:+ tail)) (prepend (TText s) l).
Proof.
  intros Hs Hf Ht Hl. destruct (is_name name) eqn:Hn; [|by apply refused_unnamed].
  apply refused_text; [done..|]. right. eapply Exists_impl; [exact Hl|]. intros r Hr. cbv beta.
  destruct (is_name_clean name Hn) as (? & _ & _). rewrite psyms_param, conflict_sym by done. by apply (entered_param a).
Qed.

End shape.

(** ** Insertion below a node *)

(** A panic, but never for lack of fuel and only if [R]; or a result. *)
Definition yields {A} (R : Prop) (Q : A → Prop) (m : go A) : Prop :=
  match m with Val a => Q a | Halt h => h ≠ HPanic (Panicked "out of fuel") ∧ R end.

Lemma yields_bind {A B} (R : Prop) (P : A → Prop) (Q : B → Prop) (m : go A) (f : A → go B) :
  yields R P m → (∀ a, P a → yields R Q (f a)) → yields R Q (m ≫= f).
Proof. destruct m as [a|h]; simpl; auto. Qed.

Lemma yields_weaken {A} (R R' : Prop) (P Q : A → Prop) (m : go A) :
  yields R P m → (R → R') → (∀ a, P a → Q a) → yields R' Q m.
Proof. destruct m as [a|h]; simpl; naive_solver. Qed.

Section insert.
Context {H : Type}.
Implicit Types (n child : node H) (hs : H).

(** The child for a parameter [:name], the rest of the path below it. *)
Definition param_child (k : nat) (name tail : string) (hs : H) : go (node H) :=
  let child := incr_priority (set_maxParams (S k) (set_nType param node_zero)) in
  if bool_decide (tail = "") then
    match k with
    | O => Val (set_handlers (Some hs) (set_path (":" +:+ name) child))
    | S _ => gopanic IndexOutOfRange
    end
  else
    let child := set_path (":" +:+ name) child in
    grandchild ← insertChild k false (set_priority 1 (set_maxParams k node_zero)) tail hs;
    Val (set_children [grandchild] child).

(** What such a child is. *)
Definition param_child_ok (k : nat) (name tail : string) hs child : Prop :=
  valid tail = true ∧ wf_param child = true ∧ path child = ":" +:+ name ∧ maxParams child = S k
  ∧ match children child with c1 :: _ => depth c1 | [] => 0 end ≤ k
  ∧ match children child with c1 :: _ => max_wild c1 | [] => 0 end ≤ k
  ∧ same_routes (param_routes child) [(pattern_of tail, hs)].

(** A new subtree for the path [p] that starts with [c]. *)
Definition fresh (c : ascii) (p : string) (k : nat) hs (n' : node H) : Prop :=
  valid p = true ∧ wf n' = true ∧ starts_with c n' = true ∧ is_catch_all n' = false
  ∧ depth n' ≤ k ∧ max_wild n' ≤ k ∧ same_routes (routes_of n') [(pattern_of p, hs)].

(** A wildcard put below a node without children. *)
Lemma wild_parent_ok npath nt m (hs0 : option H) prio k name tail hs child :
  is_plain nt = true → clean npath = true → is_name name = true → param_child_ok k name tail hs child →
  let n' := Node npath true nt m "" [child] hs0 prio in
  wf n' = true ∧ is_catch_all n' = false ∧ depth n' ≤ S k ∧ max_wild n' ≤ S k
  ∧ same_routes (routes_of n')
      ((TText npath :: TParam name :: pattern_of tail, hs) :: prepend (TText npath) (own_route hs0)).
Proof.
  intros Ht Hp Hname (_ & Hwf & Hpath & Hmax & Hd & Hm & Hr) n'. subst n'.
  destruct (wf_param_shape child Hwf) as (? & _ & _ & _ & Hty).
  split_and!.
  - by apply wf_wild_intro.
  - destruct child as [? ? [| | |] ? ? ? ? ?]; try done. by destruct npath.
  - rewrite depth_wild by done. lia.
  - rewrite max_wild_wild. lia.
  - rewrite routes_of_wild, Hr, Hpath, prepend_app by done. simpl. by rewrite Permutation_app_comm.
Qed.

Lemma param_child_spec k name tail hs :
  (∀ n c q, path n = "" → wildChild n = false → is_plain (nType n) = true → indices n = "" → children n = [] →
     handlers n = None → is_wild c = false → tail = String c q → yields (valid tail = false) (fresh c tail k hs) (insertChild k false n tail hs)) →
  is_name name = true → at_slash tail → count_wild tail = k →
  yields (valid tail = false) (param_child_ok k name tail hs) (param_child k name tail hs).
Proof.
  intros IH Hname Htail Hk. unfold param_child. case_bool_decide as Ht.
  - subst tail k. simpl. split_and!; [done| |done|done|simpl; lia|simpl; lia|].
    + etrans; [apply wf_param_eq|]. by rewrite Hname.
    + apply same_route. done.
  - destruct Htail as [?|[q ->]]; [done|]. eapply yields_bind.
    + by apply (IH _ "/"%char q).
    + intros g (Hv & Hwf & Hst & Hca & Hd & Hm & Hr). simpl. split_and!; [done| |done|done|done|done|done].
      etrans; [apply wf_param_eq|]. rewrite Hname, Hwf, Hst, Hca. cbn [negb andb].
      rewrite andb_true_iff, !Nat.leb_le. cbn. lia.
Qed.

(** The branch of [insertChild] for a parameter. *)
Lemma insertChild_param k first n pre name tail hs :
  clean pre = true → sfree "/" name = true → at_slash tail → children n = [] →
  insertChild (S k) first n (pre +:+ String ":" (name +:+ tail)) hs
  = (if clean name then
       if bool_decide (name = "") then gopanic (Panicked "wildcards must be named with a non-empty name")
       else
         child ← param_child k name tail hs;
         Val (set_wildChild true (set_children [child]
           (if first && bool_decide (pre = "") then n else set_path pre n)))
     else gopanic (Panicked "only one wildcard per path segment is allowed")).
Proof.
  intros Hpre Hname Htail Hcs. cbn [insertChild]. rewrite find_wild_app, span_segment_app by done.
  rewrite Hcs. reflexivity.
Qed.

(** The branch for a catch-all. *)
Lemma insertChild_catchAll k first n pre name tail hs R Q :
  clean pre = true → sfree "/" name = true → at_slash tail → children n = [] → count_wild (name +:+ tail) = k →
  (valid (pre +:+ String "*" (name +:+ tail)) = false ∨ pre = "" ∨ path n ≠ "" → R) →
  (k = 0 → tail = "" → clean name = true → name ≠ "" → ∀ pre', pre = pre' +:+ "/" →
   Q (set_indices "/" (set_children [Node "" true catchAll 1 "" [Node ("/*" +:+ name) false catchAll 1 "" [] (Some hs) 1] None 1]
       (set_path pre' n)))) →
  yields R Q (insertChild (S k) first n (pre +:+ String "*" (name +:+ tail)) hs).
Proof.
  intros Hpre Hname Htail Hcs Hk HR HQ. rewrite (valid_wild pre "*" name tail) in HR by done. unfold is_name in HR.
  rewrite Hname, (bool_decide_eq_false_2 ("*"%char = ":"%char)) in HR by done. rewrite count_wild_app in Hk.
  cbn [insertChild]. rewrite find_wild_app, span_segment_app by done.
  rewrite Hcs. fold (clean name). destruct (clean name) eqn:Hcl; [|split; [done|auto]].
  rewrite (bool_decide_eq_true_2 (length [] = 0)), (bool_decide_eq_false_2 ("*"%char = ":"%char)) by done.
  case_bool_decide as Hn; [split; [done|auto]|].
  case_bool_decide as Ht; [|split; [done|apply HR; left; apply andb_false_r]]. subst tail. cbn [negb orb].
  rewrite (proj1 (count_wild_clean _) Hcl) in Hk. subst k. rewrite bool_decide_eq_true_2 by done. cbn [negb].
  destruct (last_is_slash (path n)) eqn:Hl'; [split; [done|apply HR]; right; right; by intros Heq; rewrite Heq in Hl'|].
  destruct (first && _) eqn:Hfirst; [split; [done|apply HR]; apply andb_true_iff in Hfirst as [_ ?%bool_decide_eq_true]; auto|].
  destruct (last_is_slash pre) eqn:Hl; [|split; [done|auto]]. apply HasSuffix_spec in Hl as [pre' ->].
  cbn [negb yields]. rewrite TrimSuffix_app. by apply HQ.
Qed.

(** A new node, from any path that does not start with a wildcard. *)
Lemma insertChild_fresh k first n p c q hs :
  path n = "" → wildChild n = false → is_plain (nType n) = true → indices n = "" → children n = [] →
  handlers n = None → is_wild c = false → p = String c q → count_wild p = k →
  yields (valid p = false) (fresh c p k hs) (insertChild k first n p hs).
Proof.
  revert first n p c q. induction k as [|k IH]; intros first n p c q Hp Hw Ht Hi Hcs Hh Hc -> Hk.
  - destruct n as [npath w nt m idx cs ohs prio]. simpl in *. subst.
    assert (clean (String c q) = true) as Hcl by (by apply count_wild_clean).
    split_and!; [by apply valid_clean| |by apply orb_true_iff; left; apply (HasPrefix_app (String c "") q)|done|simpl; lia|simpl; lia|].
    + change (wf (Node (String c q) false nt m "" [] (Some hs) prio) = true). by rewrite wf_static, Ht, Hcl.
    + apply same_route. by rewrite pattern_clean.
  - pose proof (find_wild_spec (String c q)) as Hf. destruct (find_wild (String c q)) as [[[pre w] rest]|].
    2:{ apply count_wild_clean in Hf. lia. }
    destruct Hf as (Hpq & Hpre & Hwild). destruct pre as [|c' pre].
    { injection Hpq as -> ->. congruence. }
    rewrite sapp_cons in Hpq. injection Hpq as <- ->.
    pose proof (span_segment_spec rest) as Hs. destruct (span_segment rest) as [name tail]. destruct Hs as (-> & Hname & Htail).
    rewrite <- sapp_cons in *. rewrite count_wild_app, (proj1 (count_wild_clean _) Hpre) in Hk.
    apply is_wild_cases in Hwild as [->| ->].
    + rewrite insertChild_param, valid_wild, bool_decide_eq_true_2 by done. unfold is_name at 1.
      destruct (clean name) eqn:Hcl; [|done]. case_bool_decide as Hn0; [by rewrite Hname|].
      assert (is_name name = true) as Hnm.
      { unfold is_name. by rewrite Hcl, Hname, bool_decide_eq_false_2. }
      assert (count_wild tail = k) as Hkt.
      { injection Hk as Hk. by rewrite count_wild_app, (proj1 (count_wild_clean _) Hcl) in Hk. }
      eapply (yields_bind _ (param_child_ok k name tail hs)).
      { eapply yields_weaken; [apply param_child_spec; try done|by rewrite Hname|done].
        intros n1 c1 q1 ?????? ? ->. by eapply IH. }
      intros child Hchild. rewrite andb_false_r. destruct n as [npath wd nt m idx cs ohs prio]. simpl in *. subst.
      destruct (wild_parent_ok (String c pre) nt m None prio _ name tail hs child Ht Hpre Hnm Hchild)
        as (Hwf & Hca & Hd & Hm & Hr).
      split_and!; [|done|by apply orb_true_iff; left; apply (HasPrefix_app (String c "") pre)|done|done|done|].
      { rewrite valid_wild, Hnm by done. by destruct Hchild. }
      rewrite Hr. apply same_route. by rewrite pattern_text, pattern_text_param by done.
    + apply insertChild_catchAll; [done..|by injection Hk|naive_solver|]. intros -> -> Hcl Hn0 pre' Hpre'.
      destruct n as [npath wd nt m idx cs ohs prio]. simpl in Hp, Hw, Ht, Hi, Hcs, Hh. subst.
      assert (valid (String c pre +:+ String "*" (name +:+ "")) = true) as Hv.
      { rewrite valid_wild by done. unfold is_name, last_is_slash. by rewrite Hcl, Hname, bool_decide_eq_false_2, Hpre', HasSuffix_app. }
      rewrite Hpre', clean_app in Hpre. apply andb_true_iff in Hpre as [Hpre _].
      split_and!; [done| | |by destruct pre'|simpl; lia|simpl; lia|].
      * unfold set_indices, set_children, set_path. cbn [path wildChild nType maxParams indices children handlers priority].
        rewrite wf_static, Ht, Hpre. by destruct name.
      * destruct pre' as [|c' pre'].
        { injection Hpre' as -> _. done. }
        injection Hpre' as <- _. apply orb_true_iff. left. apply (HasPrefix_app (String c "") pre').
      * rewrite Hpre', sapp_nil_r. cbn. apply same_route. by rewrite pattern_catchAll.
Qed.

(** What a parameter [p] put below a node makes of it. *)
Definition parametrised n (p : string) (k : nat) hs (n' : node H) : Prop :=
  valid p = true ∧ path n' = path n ∧ wf n' = true ∧ is_catch_all n' = false ∧ depth n' ≤ k ∧ max_wild n' ≤ k
  ∧ same_routes (routes_of n') ((TText (path n) :: pattern_of p, hs) :: routes_of n).

(** A parameter below a node without children. *)
Lemma insertChild_wild_param k npath nt m (ohs : option H) prio name tail hs :
  is_plain nt = true → clean npath = true → sfree "/" name = true → at_slash tail → count_wild (name +:+ tail) = k →
  let n := Node npath false nt m "" [] ohs prio in
  let p := String ":" (name +:+ tail) in
  yields (refused (npath +:+ p) (routes_of n)) (parametrised n p (S k) hs) (insertChild (S k) true n p hs).
Proof.
  intros Ht Hp Hname Htail Hk n p. subst n p.
  pose proof (insertChild_param k true (Node npath false nt m "" [] ohs prio) "" name tail hs) as Heq.
  rewrite sapp_nil_l in Heq. rewrite Heq by done.
  destruct (is_name name) eqn:Hnm; pose proof Hnm as Hnm'; unfold is_name in Hnm'; rewrite Hname in Hnm'.
  2:{ pose proof (refused_unnamed npath name tail (routes_of (Node npath false nt m "" [] ohs prio)) Hp Hname Htail Hnm).
      destruct (clean name); [|done]. by destruct (bool_decide (name = "")). }
  rewrite !andb_true_iff, negb_true_iff in Hnm'. destruct Hnm' as [[-> _] ->].
  destruct (is_name_clean name Hnm) as (Hcl & _).
  eapply (yields_bind _ (param_child_ok k name tail hs)).
  { eapply yields_weaken; [apply param_child_spec; try done| |done].
    - intros n1 c1 q1 ?????? ? ->. eapply insertChild_fresh; try done. by rewrite count_wild_app, (proj1 (count_wild_clean _) Hcl) in Hk.
    - by rewrite count_wild_app, (proj1 (count_wild_clean _) Hcl) in Hk.
    - intros Hv. left. by rewrite valid_wild, Hnm. }
  intros child Hchild. rewrite bool_decide_eq_true_2 by done. cbn [andb yields].
  destruct (wild_parent_ok npath nt m ohs prio _ name tail hs child Ht Hp Hnm Hchild) as (Hwf' & Hca & Hd & Hm & Hr).
  split_and!; [|done..|].
  - etrans; [by apply (valid_wild "" ":" name tail)|]. rewrite Hnm. by destruct Hchild.
  - etrans; [apply Hr|]. cbn [routes_of map concat]. rewrite app_nil_r.
    apply (same_routes_app [_] [_]); [|done]. apply same_route. by rewrite pattern_text_param by done.
Qed.

(** A wildcard below a node that was there before. *)
Lemma insertChild_wild k n c q hs :
  wildChild n = false → is_plain (nType n) = true → clean (path n) = true → wf n = true → is_wild c = true →
  count_wild (String c q) = k →
  yields (refused (path n +:+ String c q) (routes_of n))
    (λ n', c = ":"%char ∧ parametrised n (String c q) k hs n')
    (insertChild k true n (String c q) hs).
Proof.
  intros Hw Ht Hp Hwf Hc Hk. destruct k as [|k]; [simpl in Hk; by rewrite Hc in Hk|].
  destruct n as [npath wd nt m idx cs ohs prio]. simpl in Hw, Ht, Hp. subst wd.
  pose proof (span_segment_spec q) as Hs. destruct (span_segment q) as [name tail] eqn:Hspan. destruct Hs as (-> & Hname & Htail).
  assert (refused (npath +:+ String "*" (name +:+ tail)) (routes_of (Node npath false nt m idx cs ohs prio))) as Hstar.
  { apply refused_star; [done|]. intros Hnil. apply (wf_has_route _ _ (le_n _) Hwf). by apply (f_equal (prepend (TText npath)) Hnil). }
  destruct cs as [|c1 cs].
  { assert (idx = "") as -> by (rewrite wf_static, !andb_true_iff in Hwf; by destruct idx, Hwf).
    apply is_wild_cases in Hc as [->| ->].
    { eapply yields_weaken; [by apply insertChild_wild_param; injection Hk|done|done]. }
    apply (insertChild_catchAll k true _ "" name tail hs); [done..|by injection Hk|done|].
    intros _ _ _ _ pre' Hpre. by destruct pre'. }
  assert (refused (npath +:+ String c (name +:+ tail)) (routes_of (Node npath false nt m idx (c1 :: cs) ohs prio))) as Href.
  { apply is_wild_cases in Hc as [->| ->]; [|done]. destruct idx as [|a idx]; [by rewrite wf_static, !andb_false_r in Hwf|].
    rewrite wf_static in Hwf. simpl in Hwf. rewrite !andb_true_iff in Hwf. destruct Hwf as [_ [[[Hc1 Ha] _] _]].
    apply (refused_beside npath a); [done..|]. apply Exists_app. right. fold (@routes_of H). cbn [map concat].
    apply Exists_app. left. destruct (routes_of c1) as [|r l] eqn:Hr; [by destruct (wf_has_route _ _ (le_n _) Hc1)|].
    apply Exists_cons_hd. apply (starts_entered a c1); [done|done|]. rewrite Hr. by left. }
  cbn [insertChild find_wild]. rewrite Hc, Hspan. destruct (sforallb _ name); done.
Qed.

End insert.
