(* ===== verification/RadixBuild.v ===== *)
(** * The walk of [addRoute]

    The walk splits edges, follows children and wildcards and inserts what is left of
    the path (RadixInsert.v); here it is shown to add one route and to keep the shape,
    or to panic because the path is refused. *)

From stdpp Require Import prelude strings.
From Stdlib Require Import ZArith NArith Ascii.
From S2P Require Import Prelude GoStrings RadixTree RadixPatterns RadixInsert.

Section walk.
Context {H : Type}.
Implicit Types (n child c d : node H) (hs : H) (cs : list (node H)) (ohs : option H).

(** What inserting [p], which starts with [a], makes of a node. *)
Definition inserted (a : ascii) n (p : string) (k : nat) hs (n' : node H) : Prop :=
  valid p = true ∧ wf n' = true ∧ starts_with a n' = true ∧ is_catch_all n' = false
  ∧ (∀ K, k ≤ K → depth n ≤ K → depth n' ≤ K) ∧ (∀ K, k ≤ K → max_wild n ≤ K → max_wild n' ≤ K)
  ∧ same_routes (routes_of n') ((pattern_of p, hs) :: routes_of n).

(** The routes as sequences of symbols. *)
Definition route_syms (l : list (list tok * H)) : list (list sym) := (λ r, syms r.1) <$> l.

(** ** Children *)

Lemma wf_children_remove l1 c l2 i1 a i2 :
  wf_children (l1 ++ c :: l2) (i1 +:+ String a i2) = true → String.length i1 = length l1 →
  wf_children (l1 ++ l2) (i1 +:+ i2) = true ∧ (a ∉ chars (i1 +:+ i2)) ∧ wf c = true ∧ starts_with a c = true.
Proof.
  rewrite !wf_children_spec, !chars_app. intros [Hf Hnd] Hlen. rewrite <- length_chars in Hlen. cbn [chars] in *.
  apply Forall2_app_inv in Hf as [H1 H2]; [|done]. apply Forall2_cons in H2 as [[Hc Ha] H2].
  rewrite <- Permutation_middle, NoDup_cons in Hnd. destruct Hnd as [Hna Hnd].
  split_and!; [by apply Forall2_app|done|done|done|done].
Qed.

Lemma wf_children_insert k1 d k2 j1 a j2 :
  wf_children (k1 ++ k2) (j1 +:+ j2) = true → a ∉ chars (j1 +:+ j2) → String.length j1 = length k1 →
  wf d = true → starts_with a d = true → wf_children (k1 ++ d :: k2) (j1 +:+ String a j2) = true.
Proof.
  rewrite !wf_children_spec, !chars_app. intros [Hf Hnd] Hna Hlen Hd Ha. rewrite <- length_chars in Hlen. cbn [chars].
  apply Forall2_app_inv in Hf as [H1 H2]; [|done]. split; [apply Forall2_app; [done|by apply Forall2_cons]|].
  rewrite <- Permutation_middle. by apply NoDup_cons.
Qed.

(** A child [d] among the others of a node without a wildcard. *)
Lemma static_child_ok npath nt m m' k1 d k2 j1 a j2 ohs prio prio' :
  let n0 := Node npath false nt m (j1 +:+ j2) (k1 ++ k2) ohs prio in
  let n' := Node npath false nt m' (j1 +:+ String a j2) (k1 ++ d :: k2) ohs prio' in
  is_plain nt = true → clean npath = true → wf_children (k1 ++ k2) (j1 +:+ j2) = true → a ∉ chars (j1 +:+ j2) → String.length j1 = length k1 → wf d = true → starts_with a d = true →
  wf n' = true ∧ (∀ K, depth n0 ≤ K → depth d ≤ K → depth n' ≤ K) ∧ (∀ K, max_wild n0 ≤ K → max_wild d ≤ K → max_wild n' ≤ K)
  ∧ same_routes (routes_of n') (prepend (TText npath) (routes_of d) ++ routes_of n0).
Proof.
  intros n0 n' Ht Hp Hcs Hna Hlen Hd Ha. subst n0 n'. split_and!.
  - rewrite wf_static, Ht, Hp. replace (has_routes (k1 ++ d :: k2) ohs) with true by by destruct k1.
    by apply wf_children_insert.
  - intros K. rewrite !depth_static, !Forall_app, Forall_cons. naive_solver.
  - intros K. rewrite !max_wild_static, !Forall_app, Forall_cons. naive_solver.
  - cbn [routes_of]. rewrite !map_app, !concat_app. cbn [map concat]. rewrite <- prepend_app. f_equiv.
    apply perm_same_routes. solve_Permutation.
Qed.

(** ** Edges *)

Lemma common_prefix_app s t : common_prefix (s +:+ t) s = (s, t, "").
Proof.
  induction s as [|a s IH]; [by destruct t|]. rewrite sapp_cons. simpl.
  rewrite bool_decide_eq_true_2 by done. by rewrite IH.
Qed.

Lemma split_edge_eq pre rest npath w nt m idx cs ohs prio :
  split_edge pre rest (Node npath w nt m idx cs ohs prio)
  = Node pre false nt m (stake 1 rest)
      [Node rest w static (foldl (λ m c, Nat.max m (maxParams c)) 0 cs) idx cs ohs ((prio - 1) mod 2 ^ 32)%Z] None prio.
Proof. reflexivity. Qed.

(** Splitting changes neither the shape nor the routes. *)
Lemma split_edge_ok n a pre b rest :
  wf n = true → is_catch_all n = false → path n = String a pre +:+ String b rest →
  let n' := split_edge (String a pre) (String b rest) n in
  wf n' = true ∧ starts_with a n' = true ∧ is_catch_all n' = false ∧ depth n' = depth n ∧ max_wild n' = max_wild n
  ∧ same_routes (routes_of n') (routes_of n).
Proof.
  intros Hwf Hca Hp n'. subst n'. destruct n as [npath w nt m idx cs ohs prio]. simpl in Hp. subst npath.
  rewrite split_edge_eq. replace (stake 1 (String b rest)) with (String b "") by by destruct rest.
  assert (is_plain nt = true ∧ clean (String a pre) = true ∧ clean (String b rest) = true) as (Ht & Hc1 & Hc2).
  { destruct w; [apply wf_wild in Hwf as (_ & ? & Hc & _); [|done]|rewrite wf_static, !andb_true_iff in Hwf; destruct Hwf as [[[? Hc] _] _]];
      rewrite clean_app in Hc; by apply andb_true_iff in Hc. }
  assert (wf (Node (String b rest) w static (foldl (λ m c, Nat.max m (maxParams c)) 0 cs) idx cs ohs ((prio - 1) mod 2 ^ 32)%Z) = true) as Hchild.
  { destruct w.
    - apply wf_wild in Hwf as (-> & _ & _ & child & -> & ?); [|done]. by apply wf_wild_intro.
    - rewrite wf_static, !andb_true_iff in Hwf |- *. destruct Hwf as [[_ ?] ?]. by split_and!. }
  split_and!.
  - rewrite wf_static, Ht, Hc1. cbn [wf_children index_of]. rewrite Hchild. unfold starts_with. cbn [path].
    change (String b rest) with (String b "" +:+ rest). by rewrite HasPrefix_app.
  - unfold starts_with. cbn [path]. change (String a pre) with (String a "" +:+ pre). by rewrite HasPrefix_app.
  - done.
  - cbn [depth fold_right]. apply Nat.max_0_r.
  - cbn [max_wild fold_right]. apply Nat.max_0_r.
  - cbn [routes_of map concat own_route app]. rewrite app_nil_r. by rewrite same_text_text.
Qed.

(** The walk at an edge that is split goes on as at the split node. *)
Lemma walk_split fuel n p k hs pre more rest :
  common_prefix p (path n) = (pre, more, rest) → rest ≠ "" →
  walk_insert (S fuel) n p k hs = walk_insert (S fuel) (split_edge pre rest (raise_maxParams k n)) p k hs.
Proof.
  intros Hc Hr. pose proof (common_prefix_spec p (path n)) as Hs. rewrite Hc in Hs. destruct Hs as (-> & _ & _).
  destruct n as [npath w nt m idx cs ohs prio]. cbn [walk_insert raise_maxParams set_maxParams path] in *.
  rewrite Hc, (bool_decide_eq_false_2 (rest = "")) by done.
  unfold raise_maxParams, set_maxParams. rewrite !split_edge_eq.
  cbn [path wildChild nType maxParams indices children handlers priority].
  rewrite common_prefix_app, (bool_decide_eq_true_2 ("" = "")) by done.
  by replace (Nat.max k (Nat.max k m)) with (Nat.max k m) by lia.
Qed.

(** ** The steps of the walk *)

(** The walk does what is claimed with less fuel. *)
Definition walk_claim (fuel : nat) : Prop := ∀ n a q k hs,
  wf n = true → starts_with a n = true → is_catch_all n = false → is_wild a = false →
  all_last (String a q) = true → count_wild (String a q) = k → 2 * String.length (String a q) + 2 ≤ fuel →
  yields (refused (String a q) (routes_of n)) (inserted a n (String a q) k hs) (walk_insert fuel n (String a q) k hs).

Lemma walk_step fuel n more k hs :
  walk_insert (S fuel) n (path n +:+ more) k hs
  = let n := raise_maxParams k n in
    match more with
    | EmptyString =>
        match handlers n with
        | Some _ => gopanic (Panicked "handlers are already registered")
        | None => Val (set_handlers (Some hs) n)
        end
    | String c _ =>
        if wildChild n then
          child ← index (children n) 0;
          let child := raise_maxParams k (incr_priority child) in
          if HasPrefix more (path child)
             && (bool_decide (sdrop (String.length (path child)) more = "")
                 || HasPrefix (sdrop (String.length (path child)) more) "/") then
            child ← walk_insert fuel child more (k - 1) hs;
            Val (put_child n 0 child)
          else gopanic (Panicked "path segment conflicts with existing wildcard")
        else if bool_decide (nType n = param) && bool_decide (c = "/"%char)
                && bool_decide (length (children n) = 1) then
          child ← index (children n) 0;
          child ← walk_insert fuel (incr_priority child) more k hs;
          Val (put_child n 0 child)
        else
          match index_of c (indices n) with
          | Some i =>
              '(n, j) ← incrementChildPrio n i;
              child ← index (children n) j;
              child ← walk_insert fuel child more k hs;
              Val (put_child n j child)
          | None =>
              if is_wild c then insertChild k true n more hs
              else
                let n := set_indices (indices n +:+ String c "") n in
                let n := set_children (children n ++ [set_maxParams k node_zero]) n in
                '(n, j) ← incrementChildPrio n (String.length (indices n) - 1);
                child ← index (children n) j;
                child ← insertChild k true child more hs;
                Val (put_child n j child)
          end
    end.
Proof.
  destruct n as [npath w nt m idx cs ohs prio].
  cbn [walk_insert raise_maxParams set_maxParams path]. rewrite common_prefix_app.
  rewrite (bool_decide_eq_true_2 ("" = "")) by done. reflexivity.
Qed.

(** Below a catch-all nothing can be registered. *)
Lemma walk_catch_all fuel c q k hs Q :
  wf c = true → is_catch_all c = true → all_last (String "/" q) = true → 2 ≤ fuel →
  yields (refused (String "/" q) (routes_of c)) Q (walk_insert fuel c (String "/" q) k hs).
Proof.
  intros Hwf Hca Hall Hf.
  assert (refused (String "/" q) (routes_of c)) as Href.
  { destruct (catch_all_routes c Hwf Hca) as (x & h & ->). destruct (valid (String "/" q)) eqn:Hv; [right|by left].
    apply Exists_cons_hd. apply (entered_all "/"); [done|]. by apply valid_entered. }
  generalize dependent (refused (String "/" q) (routes_of c)). intros R HR. destruct fuel as [|[|fuel]]; [lia..|].
  destruct c as [[|? ?] [|] nt m idx cs ohs prio]; try done.
  destruct cs as [|[cpath cw [| | |] cm cidx ccs chs cprio] cs]; try done.
  cbn [wf] in Hwf. apply andb_true_iff in Hwf as [_ Hwf]. destruct cw, ccs, chs, cs; try done.
  rewrite !andb_true_iff in Hwf. destruct Hwf as [[[[name ->]%HasPrefix_spec _] _] _].
  rewrite (walk_step (S fuel) (Node "" true _ _ _ _ _ _) (String "/" q)). cbn [wildChild raise_maxParams set_maxParams children index lookup].
  unfold index at 1. cbn [lookup list_lookup mbind go_bind]. set (child := raise_maxParams k (incr_priority _)).
  assert (path child = "/*" +:+ name) as Hpath by done.
  destruct (HasPrefix (String "/" q) (path child)) eqn:Hpre; [|done]. rewrite Hpath in Hpre.
  apply HasPrefix_spec in Hpre as [tail Htail]. rewrite Htail in Hall |- *. rewrite Hpath, sdrop_app.
  destruct tail as [|b tail].
  - rewrite (bool_decide_eq_true_2 ("" = "")), sapp_nil_r, <- Hpath by done. cbn [andb orb].
    pose proof (walk_step fuel child "" (k - 1) hs) as Hw. rewrite sapp_nil_r in Hw. by rewrite Hw.
  - rewrite (bool_decide_eq_false_2 (String b tail = "")) by done.
    assert (HasPrefix (String b tail) "/" = false) as ->; [|done].
    apply not_true_iff_false. intros [u [= -> ->]]%HasPrefix_spec. change (sfree "/" (name +:+ String "/" u) = true) in Hall.
    rewrite sfree_app in Hall. by apply andb_true_iff in Hall as [_ [? _]%sfree_cons].
Qed.

(** ** Nodes without a wildcard below *)

Lemma plain_node n : wf n = true → is_catch_all n = false → is_plain (nType n) = true ∧ clean (path n) = true.
Proof.
  destruct n as [npath [|] nt m idx cs ohs prio]; intros Hwf Hca.
  - by apply wf_wild in Hwf as (_ & ? & ? & _).
  - rewrite wf_static, !andb_true_iff in Hwf. by destruct Hwf as [[[? ?] _] _].
Qed.

Lemma starts_not_wild a c : wf c = true → starts_with a c = true → is_wild a = false.
Proof.
  intros Hwf Ha. unfold starts_with in Ha. apply orb_true_iff in Ha as [[t Ht]%HasPrefix_spec|Ha].
  - destruct (is_catch_all c) eqn:Hca; [by destruct c as [[|] ? ? ? ? ? ? ?]|].
    destruct (plain_node c Hwf Hca) as [_ Hcl]. rewrite Ht in Hcl. change (clean (String a t) = true) in Hcl.
    rewrite clean_cons in Hcl. by apply andb_true_iff in Hcl as [?%negb_true_iff _].
  - by apply andb_true_iff in Ha as [_ ->%bool_decide_eq_true].
Qed.

(** A node a path enters has text, or is above a catch-all. *)
Lemma starts_text a n : starts_with a n = true → is_catch_all n = false → HasPrefix (path n) (String a "") = true ∨ is_holder n = true.
Proof.
  unfold starts_with. intros [?|[[?|?]%orb_true_iff _]%andb_true_iff]%orb_true_iff Hca; [by left|congruence|by right].
Qed.

Lemma holder_spec n :
  is_holder n = true → path n = "" ∧ indices n = "/" ∧ ∃ c, children n = [c] ∧ is_catch_all c = true.
Proof.
  destruct n as [npath [|] nt m idx [|c [|? ?]] [h|] prio]; try done. simpl.
  rewrite !andb_true_iff, !bool_decide_eq_true. intros [[-> ->] ?]. eauto.
Qed.

Lemma wf_children_split cs i1 a i2 :
  wf_children cs (i1 +:+ String a i2) = true → ∃ l1 c l2, cs = l1 ++ c :: l2 ∧ String.length i1 = length l1.
Proof.
  rewrite wf_children_spec, chars_app. intros [(l1 & l2 & H1 & H2 & ->)%Forall2_app_inv_r _].
  apply Forall2_cons_inv_r in H2 as (c & l2' & _ & _ & ->). exists l1, c, l2'. split; [done|].
  apply Forall2_length in H1. by rewrite <- length_chars.
Qed.

Lemma put_child_middle k1 c d k2 n :
  put_child (set_children (k1 ++ c :: k2) n) (length k1) d = set_children (k1 ++ d :: k2) n.
Proof. unfold put_child. simpl. by rewrite insert_app_r_alt, Nat.sub_diag by lia. Qed.

(** The path at a node, from what the subtree [d] below it has. *)
Lemma static_inserted npath nt m m' k1 d k2 j1 b j2 ohs prio prio' l a p more hs :
  let n0 := Node npath false nt m (j1 +:+ j2) (k1 ++ k2) ohs prio in
  is_plain nt = true → clean npath = true → wf_children (k1 ++ k2) (j1 +:+ j2) = true →
  b ∉ chars (j1 +:+ j2) → String.length j1 = length k1 → wf d = true → starts_with b d = true → is_wild b = false →
  HasPrefix npath (String a "") = true → p = npath +:+ String b more →
  same_routes (routes_of d) ((pattern_of (String b more), hs) :: l) →
  let n' := Node npath false nt m' (j1 +:+ String b j2) (k1 ++ d :: k2) ohs prio' in
  wf n' = true ∧ starts_with a n' = true ∧ is_catch_all n' = false
  ∧ (∀ K, depth n0 ≤ K → depth d ≤ K → depth n' ≤ K) ∧ (∀ K, max_wild n0 ≤ K → max_wild d ≤ K → max_wild n' ≤ K)
  ∧ same_routes (routes_of n') ((pattern_of p, hs) :: prepend (TText npath) l ++ routes_of n0).
Proof.
  intros n0 Ht Hcl Hcs Hnb Hlen Hd Hb Hwb Hst -> Hr n'.
  destruct (static_child_ok npath nt m m' k1 d k2 j1 b j2 ohs prio prio' Ht Hcl Hcs Hnb Hlen Hd Hb) as (Hwf' & Hdep & Hmw & Hrt).
  split_and!; [done|by apply orb_true_iff; left|by destruct npath|done|done|].
  etrans; [apply Hrt|]. subst n0 n'.
  apply (same_routes_app _ (_ :: _)); [|done]. rewrite Hr, prepend_cons. apply (same_routes_app [_] [_]); [|done].
  apply same_route. cbn [fst]. rewrite pattern_text; [done|done|]. by apply not_star.
Qed.

Lemma refused_child npath nt m idx l1 c l2 ohs prio b more :
  clean npath = true → is_wild b = false → refused (String b more) (routes_of c) →
  refused (npath +:+ String b more) (routes_of (Node npath false nt m idx (l1 ++ c :: l2) ohs prio)).
Proof.
  intros Hcl Hb Href. eapply refused_sub; [|apply refused_text; [done|by apply not_star|exact Href]].
  intros r (r' & -> & Hr')%list_elem_of_fmap. cbn [routes_of]. apply list_elem_of_fmap. exists r'. split; [done|].
  rewrite map_app, concat_app. cbn [map concat]. rewrite !elem_of_app. auto.
Qed.

Lemma walk_index fuel n a q b more k hs i :
  walk_claim fuel → wf n = true → wildChild n = false → starts_with a n = true → is_catch_all n = false →
  String a q = path n +:+ String b more → all_last (String a q) = true → count_wild (String b more) = k →
  2 * String.length (String a q) + 2 ≤ S fuel → index_of b (indices n) = Some i →
  yields (refused (String a q) (routes_of n)) (inserted a n (String a q) k hs)
    ('(n, j) ← incrementChildPrio n i; child ← index (children n) j;
     child ← walk_insert fuel child (String b more) k hs; Val (put_child n j child)).
Proof.
  intros IH Hwf Hw Hst Hca Hp Hall Hk Hf Hi. destruct n as [npath w nt m idx cs ohs prio]. simpl in Hw, Hp, Hi. subst w.
  apply index_of_Some in Hi as (i1 & i2 & -> & <-).
  pose proof Hwf as Hwf'. rewrite wf_static, !andb_true_iff in Hwf'. destruct Hwf' as [[[Ht Hcl] _] Hcs].
  destruct (wf_children_split _ _ _ _ Hcs) as (l1 & c & l2 & -> & Hlen).
  destruct (wf_children_remove _ _ _ _ _ _ Hcs Hlen) as (Hcs0 & Hnb & Hwc & Hsc).
  pose proof (starts_not_wild b c Hwc Hsc) as Hwb.
  assert (refused (String b more) (routes_of c) →
    refused (String a q) (routes_of (Node npath false nt m (i1 +:+ String b i2) (l1 ++ c :: l2) ohs prio))) as Hlift.
  { rewrite Hp. by apply refused_child. }
  rewrite Hlen. edestruct (incrementChildPrio_spec (Node npath false nt m (i1 +:+ String b i2) (l1 ++ c :: l2) ohs prio)
    l1 c l2 i1 b i2) as (n' & k1 & k2 & j1 & j2 & -> & -> & -> & Hj & ->); [done..|].
  cbn [mbind go_bind]. unfold index. cbn [set_indices set_children children]. rewrite list_lookup_middle by done.
  cbn [mbind go_bind].
  destruct (retouched_spec _ _ (retouched_incr c)) as (Ewf & Ert & Edep & Emw & Eca & Est & _).
  assert (all_last (String b more) = true) as Hall' by (rewrite Hp in Hall; by apply all_last_app in Hall).
  assert (is_catch_all c = true ∨ is_catch_all c = false ∧ HasPrefix npath (String a "") = true) as [Hcc|[Hcc Hpre]].
  { destruct (is_catch_all c) eqn:Hcc; [by left|right]. split; [done|].
    destruct (starts_text _ _ Hst Hca) as [Hpre|Hh]; [done|].
    apply holder_spec in Hh as (_ & _ & c' & Hc' & Hcc'). simpl in Hc'.
    destruct (k1 ++ k2) as [|? [|? ?]]; simplify_list_eq. congruence. }
  { pose proof (starts_catch_all b c Hcc Hsc) as ->. eapply (yields_bind _ (λ _, False)); [|done].
    eapply yields_weaken; [apply walk_catch_all; [by rewrite Ewf|by rewrite Eca|done|]|by rewrite Ert|intros ? HF; exact HF]. simpl in Hf. lia. }
  eapply (yields_bind _ (inserted b (incr_priority c) (String b more) k hs)).
  - eapply yields_weaken; [apply IH; [by rewrite Ewf|by rewrite Est|by rewrite Eca|done..|]|by rewrite Ert|done].
    rewrite Hp, slength_app in Hf. apply HasPrefix_spec in Hpre as [t Htx]. simpl in Htx. subst npath. simpl in Hf |- *. lia.
  - intros d (Hv & Hd & Hsd & _ & Hdep & Hmw & Hr). rewrite Edep in Hdep. rewrite Emw in Hmw. rewrite Ert in Hr.
    assert (wf_children (k1 ++ (k2 ++ l2)) (j1 +:+ (j2 +:+ i2)) = true) as Hwf0 by (by rewrite app_assoc, <- sapp_assoc).
    assert (b ∉ chars (j1 +:+ (j2 +:+ i2))) as Hnb' by (by rewrite <- sapp_assoc).
    destruct (static_inserted npath nt m m k1 d (k2 ++ l2) j1 b (j2 +:+ i2) ohs prio prio (routes_of c) a (String a q) more hs)
      as (Hwf' & Hst' & Hca' & Hdep' & Hmw' & Hr'); [done..|].
    destruct (static_child_ok npath nt m m (k1 ++ k2) c l2 (j1 +:+ j2) b i2 ohs prio prio) as (_ & _ & _ & Hr0); [done..|].
    unfold set_indices, set_children, put_child. cbn [path wildChild nType maxParams indices children handlers priority].
    rewrite insert_app_r_alt, Nat.sub_diag by lia. cbn [insert list_insert yields]. split_and!; [|done..| | |].
    + rewrite Hp, valid_text by (try done; by apply not_star). done.
    + intros K Hk' HK. rewrite depth_static, !Forall_app, Forall_cons in HK.
      apply Hdep'; [rewrite depth_static, !Forall_app; naive_solver|apply Hdep; naive_solver].
    + intros K Hk' HK. rewrite max_wild_static, !Forall_app, Forall_cons in HK.
      apply Hmw'; [rewrite max_wild_static, !Forall_app; naive_solver|apply Hmw; naive_solver].
    + etrans; [apply Hr'|]. apply (same_routes_app [_] [_]); [done|]. rewrite app_assoc, <- sapp_assoc. by symmetry.
Qed.

(** At a node above a catch-all the next byte is the slash. *)
Lemma holder_index a n q b more :
  is_holder n = true → starts_with a n = true → String a q = path n +:+ String b more → index_of b (indices n) = Some 0.
Proof.
  intros Hh Hst Hp. destruct (holder_spec n Hh) as (Hpath & Hidx & _). rewrite Hpath in Hp. injection Hp as <- _.
  unfold starts_with in Hst. rewrite Hpath in Hst. apply orb_true_iff in Hst as [?|[_ ->%bool_decide_eq_true]%andb_true_iff]; [done|].
  by rewrite Hidx.
Qed.

Lemma walk_new n a q b more k hs :
  wf n = true → wildChild n = false → starts_with a n = true → is_catch_all n = false → is_wild b = false →
  String a q = path n +:+ String b more → count_wild (String b more) = k → index_of b (indices n) = None →
  yields (refused (String a q) (routes_of n)) (inserted a n (String a q) k hs)
    (let n := set_indices (indices n +:+ String b "") n in
     let n := set_children (children n ++ [set_maxParams k node_zero]) n in
     '(n, j) ← incrementChildPrio n (String.length (indices n) - 1);
     child ← index (children n) j;
     child ← insertChild k true child (String b more) hs;
     Val (put_child n j child)).
Proof.
  intros Hwf Hw Hst Hca Hb Hp Hk Hi.
  destruct (starts_text _ _ Hst Hca) as [Hpre|Hh]; [|by rewrite (holder_index a n q b more) in Hi].
  destruct n as [npath w nt m idx cs ohs prio]. simpl in Hw, Hp, Hi, Hpre. subst w.
  pose proof Hwf as Hwf'. rewrite wf_static, !andb_true_iff in Hwf'. destruct Hwf' as [[[Ht Hcl] _] Hcs].
  assert (String.length idx = length cs) as Hlen.
  { apply wf_children_spec in Hcs as [Hcs _]. apply Forall2_length in Hcs. by rewrite <- length_chars. }
  cbv zeta. unfold set_indices, set_children. cbn [path wildChild nType maxParams indices children handlers priority].
  rewrite slength_app, Nat.add_sub, Hlen.
  edestruct (incrementChildPrio_spec (Node npath false nt m (idx +:+ String b "") (cs ++ [set_maxParams k node_zero]) ohs prio)
    cs (set_maxParams k node_zero) [] idx b "") as (n' & k1 & k2 & j1 & j2 & -> & -> & -> & Hj & ->); [done..|].
  cbn [mbind go_bind]. unfold index. cbn [set_indices set_children children]. rewrite list_lookup_middle by done.
  cbn [mbind go_bind]. eapply (yields_bind _ (fresh b (String b more) k hs)).
  { eapply yields_weaken; [by apply (insertChild_fresh k true _ _ b more)| |done].
    intros Hv. left. rewrite Hp, valid_text by (try done; by apply not_star). done. }
  intros d (Hv & Hd & Hsd & _ & Hdep & Hmw & Hr). apply index_of_None in Hi.
  unfold put_child, set_indices, set_children. cbn [path wildChild nType maxParams indices children handlers priority].
  rewrite insert_app_r_alt, Nat.sub_diag, sapp_nil_r, app_nil_r by lia. cbn [insert list_insert yields].
  destruct (static_inserted npath nt m m k1 d k2 j1 b j2 ohs prio prio [] a (String a q) more hs)
    as (Hwf' & Hst' & Hca' & Hdep' & Hmw' & Hr'); [done..|].
  split_and!; [|done..| | |done].
  - rewrite Hp, valid_text by (try done; by apply not_star). done.
  - intros K HkK HK. apply Hdep'; [done|lia].
  - intros K HkK HK. apply Hmw'; [done|lia].
Qed.

(** ** The other steps *)

Lemma walk_leaf n a q k hs :
  wf n = true → starts_with a n = true → is_catch_all n = false → String a q = path n → handlers n = None →
  inserted a n (String a q) k hs (set_handlers (Some hs) n).
Proof.
  intros Hwf Hst Hca Hp Hh. destruct (plain_node n Hwf Hca) as [_ Hcl]. rewrite <- Hp in Hcl.
  destruct n as [npath w nt m idx cs ohs prio]. simpl in Hp, Hh. subst npath ohs.
  unfold set_handlers. cbn [path wildChild nType maxParams indices children handlers priority].
  split_and!; [by apply valid_clean| |by apply orb_true_iff; left; apply (HasPrefix_app (String a "") q)|done|by destruct w|by destruct w|].
  - destruct w; [|rewrite wf_static, !andb_true_iff in Hwf |- *; destruct Hwf as [[? _] ?]; by destruct cs].
    apply wf_wild in Hwf as (-> & ? & ? & child & -> & ?); [|done]. by apply wf_wild_intro.
  - cbn [routes_of own_route]. rewrite pattern_clean by done. done.
Qed.

Lemma name_at_slash more tail name :
  is_name name = true → more = (":" +:+ name) +:+ tail → at_slash tail → count_wild more = S (count_wild tail).
Proof.
  unfold is_name. intros [[Hcl _]%andb_true_iff _]%andb_true_iff -> _.
  rewrite count_wild_app. change (count_wild (":" +:+ name)) with (S (count_wild name)).
  by rewrite (proj1 (count_wild_clean _) Hcl).
Qed.

(** A step at a parameter node: the rest of the path is empty or starts with a slash. *)
Lemma walk_param fuel child name tail k m hs :
  walk_claim fuel → wf_param child = true → path child = ":" +:+ name →
  at_slash tail → all_last tail = true → count_wild tail = k → 2 * String.length tail + 2 ≤ fuel → S k ≤ m →
  yields (refused tail (param_routes child))
    (λ child', valid tail = true ∧ wf_param child' = true ∧ path child' = path child ∧ maxParams child' = Nat.max m (maxParams child)
      ∧ (∀ K, k ≤ K → match children child with c1 :: _ => depth c1 | [] => 0 end ≤ K →
           match children child' with c1 :: _ => depth c1 | [] => 0 end ≤ K)
      ∧ (∀ K, k ≤ K → match children child with c1 :: _ => max_wild c1 | [] => 0 end ≤ K →
           match children child' with c1 :: _ => max_wild c1 | [] => 0 end ≤ K)
      ∧ same_routes (param_routes child') ((pattern_of tail, hs) :: param_routes child))
    (walk_insert (S fuel) (raise_maxParams m child) ((":" +:+ name) +:+ tail) k hs).
Proof.
  intros IH Hwf Hpath Htail Hall Hk Hf Hm.
  destruct child as [cpath cw cnt cm cidx ccs chs cprio]. simpl in Hpath. subst cpath.
  destruct cw; [done|]. destruct cnt; try done. rewrite wf_param_eq in Hwf. apply andb_true_iff in Hwf as [Hname Hccs].
  rewrite (walk_step fuel (raise_maxParams m (Node (":" +:+ name) false param cm cidx ccs chs cprio)) tail).
  unfold raise_maxParams, set_maxParams. cbn [path wildChild nType maxParams indices children handlers priority].
  replace (Nat.max k (Nat.max m cm)) with (Nat.max m cm) by lia. set (mx := Nat.max m cm).
  destruct Htail as [->|[q ->]].
  - destruct chs as [h|]; [split; [done|]; right; by apply Exists_cons_hd|]. split_and!; [done| |done|done|done|done|].
    + change (wf_param (Node (":" +:+ name) false param mx cidx ccs (Some hs) cprio) = true). rewrite wf_param_eq, Hname.
      cbn [andb]. destruct ccs as [|c1 [|? ?]]; [|..|done];
        rewrite !andb_true_iff, !Nat.leb_le in Hccs |- *; subst mx; intuition lia.
    + apply (same_routes_app [_] [_]); [by apply same_route|done].
  - destruct ccs as [|c1 [|? ?]]; [| |done].
    + rewrite !andb_true_iff, bool_decide_eq_true in Hccs. destruct Hccs as [[_ ->] _].
      change (bool_decide (nType _ = param) && _ && _) with false. cbn [index_of is_wild]. cbv zeta iota.
      eapply (yields_bind _ (λ r, r = (Node (":" +:+ name) false param mx "/" [incr_priority (set_maxParams k node_zero)] chs cprio, 0)));
        [done|]. intros [n' j] [= -> ->]. change (index (children _) 0) with (Val (incr_priority (set_maxParams (H := H) k node_zero))).
      cbn [mbind go_bind]. eapply (yields_bind _ (fresh "/" (String "/" q) k hs)).
      { eapply yields_weaken; [by apply (insertChild_fresh k true _ _ "/" q)|by left|done]. }
      intros d (Hv & Hd & Hsd & Hcd & Hdep & Hmw & Hr). split_and!; [done| |done|done|intros K ??; simpl; lia|intros K ??; simpl; lia|].
      * change (wf_param (Node (":" +:+ name) false param mx "/" [d] chs cprio) = true).
        rewrite wf_param_eq, Hname, Hd, Hsd, Hcd. cbn [negb andb]. rewrite andb_true_iff, !Nat.leb_le. subst mx. lia.
      * unfold param_routes. cbn [set_children put_child handlers children insert list_insert]. rewrite Hr, app_nil_r.
        by rewrite Permutation_app_comm.
    + rewrite !andb_true_iff, negb_true_iff, !Nat.leb_le in Hccs. destruct Hccs as [[[[Hw1 Hs1] Hc1] Hd1] Hm1].
      change (bool_decide (nType _ = param) && _ && _) with true. cbn [index lookup list_lookup mbind go_bind]. cbv iota.
      destruct (retouched_spec _ _ (retouched_incr c1)) as (Ewf & Ert & Edep & Emw & Eca & Est & _).
      eapply (yields_bind _ (inserted "/" (incr_priority c1) (String "/" q) k hs)).
      { eapply yields_weaken; [apply (IH _ "/"%char q k hs); [by rewrite Ewf|by rewrite Est|by rewrite Eca|done..]| |done].
        rewrite Ert. apply refused_sub. intros r ?. unfold param_routes. rewrite elem_of_app. by right. }
      intros d (Hv & Hd & Hsd & Hcd & Hdep & Hmw & Hr). rewrite Edep in Hdep. rewrite Emw in Hmw. rewrite Ert in Hr.
      pose proof (Hdep (Nat.max k (depth c1)) ltac:(lia) ltac:(lia)). pose proof (Hmw (Nat.max k (max_wild c1)) ltac:(lia) ltac:(lia)).
      split_and!; [done| |done|done|done|done|].
      * change (wf_param (Node (":" +:+ name) false param mx cidx [d] chs cprio) = true).
        rewrite wf_param_eq, Hname, Hd, Hsd, Hcd. cbn [negb andb]. rewrite andb_true_iff, !Nat.leb_le. subst mx. lia.
      * unfold param_routes. cbn [set_children put_child handlers children insert list_insert]. rewrite Hr.
        apply perm_same_routes. by rewrite <- Permutation_middle.
Qed.

Lemma inserted_retouched a n n' p k hs m : retouched n n' → inserted a n' p k hs m → inserted a n p k hs m.
Proof.
  intros (_ & Ert & Edep & Emw & _)%retouched_spec. unfold inserted. by rewrite Ert, Edep, Emw.
Qed.

Lemma param_has_route child : wf_param child = true → param_routes child ≠ [].
Proof.
  destruct child as [cpath [|] [| | |] cm cidx ccs chs cprio]; try done. unfold wf_param, param_routes. simpl.
  rewrite andb_true_iff. intros [_ Hc] Hnil. apply app_eq_nil in Hnil as [Hh Hnil].
  destruct ccs as [|c1 [|? ?]]; [|..|done].
  - destruct chs; [done|]. by rewrite andb_false_r in Hc.
  - rewrite !andb_true_iff in Hc. destruct Hc as [[[[Hw _] _] _] _]. by apply (wf_has_route _ _ (le_n _) Hw).
Qed.

(** A path that does not go on with the parameter. *)
Lemma refused_mismatch npath b more name (l : list (list tok * H)) :
  clean npath = true → is_name name = true → l ≠ [] →
  (∀ tail, String b more = (":" +:+ name) +:+ tail → ¬ at_slash tail) →
  refused (npath +:+ String b more) (prepend (TText npath) (prepend (TParam name) l)).
Proof.
  intros Hcl Hname Hl Hm. destruct (is_wild b) eqn:Hb; [|by apply refused_at_param].
  destruct (is_wild_cases b Hb) as [->| ->]; [|apply refused_star; [done|by destruct l]].
  pose proof (span_segment_spec more) as Hs. destruct (span_segment more) as [name' tail]. destruct Hs as (-> & Hfree & Htail).
  destruct (is_name name') eqn:Hn'; [|by apply refused_unnamed]. destruct (is_name_clean name' Hn') as (Hcl' & _ & _).
  apply refused_text; [done..|]. right. destruct l as [|r l]; [done|]. apply Exists_cons_hd.
  rewrite psyms_param by done. simpl. rewrite decide_False; [done|]. intros [= ->]. by apply (Hm tail).
Qed.

Lemma walk_wild fuel n a q b more k hs :
  walk_claim fuel → wf n = true → wildChild n = true → starts_with a n = true → is_catch_all n = false →
  String a q = path n +:+ String b more → all_last (String a q) = true → count_wild (String b more) = k →
  2 * String.length (String a q) + 2 ≤ S (S fuel) →
  yields (refused (String a q) (routes_of n)) (inserted a n (String a q) k hs)
    (child ← index (children n) 0;
     let child := raise_maxParams k (incr_priority child) in
     if HasPrefix (String b more) (path child)
        && (bool_decide (sdrop (String.length (path child)) (String b more) = "")
            || HasPrefix (sdrop (String.length (path child)) (String b more)) "/") then
       child ← walk_insert (S fuel) child (String b more) (k - 1) hs;
       Val (put_child n 0 child)
     else gopanic (Panicked "path segment conflicts with existing wildcard")).
Proof.
  intros IH Hwf Hw Hst Hca Hp Hall Hk Hf. destruct n as [npath w nt m idx cs ohs prio]. simpl in Hw, Hp. subst w.
  destruct (starts_text _ _ Hst Hca) as [Hpre|Hh]; [|by destruct npath].
  destruct (wf_wild _ _ _ _ _ _ _ Hwf Hca) as (-> & Ht & Hcl & child & -> & Hwc).
  destruct (wf_param_shape child Hwc) as (name & Hpath & Hname & _ & Hty).
  assert (∀ l, (∀ r, r ∈ l → r ∈ param_routes child) →
    refused (String a q) (prepend (TText npath) (prepend (TParam name) l)) →
    refused (String a q) (routes_of (Node npath true nt m "" [child] ohs prio))) as Hsub.
  { intros l Hl. apply refused_sub. intros r (r1 & -> & (r2 & -> & Hr2)%list_elem_of_fmap)%list_elem_of_fmap.
    rewrite routes_of_wild, Hpath by done. apply list_elem_of_fmap. eexists. split; [done|]. apply elem_of_app. right.
    apply list_elem_of_fmap. eexists. split; [done|]. auto. }
  assert ((∀ tail, String b more = (":" +:+ name) +:+ tail → ¬ at_slash tail) →
    refused (String a q) (routes_of (Node npath true nt m "" [child] ohs prio))) as Hmis.
  { intros Hm. apply (Hsub (param_routes child)); [done|]. rewrite Hp.
    apply refused_mismatch; [done|done|by apply param_has_route|done]. }
  cbn [children index lookup list_lookup mbind go_bind].
  assert (path (raise_maxParams k (incr_priority child)) = ":" +:+ name) as -> by (by destruct child).
  destruct (HasPrefix (String b more) (":" +:+ name)) eqn:Hpfx.
  2:{ split; [done|]. apply Hmis. intros tail Heq. by rewrite Heq, HasPrefix_app in Hpfx. }
  apply HasPrefix_spec in Hpfx as [tail Htail]. rewrite Htail in *. rewrite sdrop_app.
  destruct (bool_decide (tail = "") || HasPrefix tail "/") eqn:Hsl.
  2:{ split; [done|]. apply Hmis. intros tail' Heq%(inj _) Hat. subst tail'. destruct Hat as [->|[u ->]]; [done|].
      change (String "/" u) with ("/" +:+ u) in Hsl. by rewrite HasPrefix_app, orb_true_r in Hsl. }
  assert (at_slash tail) as Hat.
  { apply orb_true_iff in Hsl as [?%bool_decide_eq_true|[u ->]%HasPrefix_spec]; [by left|right; by eexists]. }
  pose proof (name_at_slash _ tail name Hname eq_refl Hat) as Hkt. rewrite Hk in Hkt. clear Hk. subst k.
  replace (S (count_wild tail) - 1) with (count_wild tail) by lia.
  eapply yields_bind.
  { eapply yields_weaken; [apply (walk_param fuel (incr_priority child) name tail (count_wild tail) (S (count_wild tail))); try done| |
      intros ? HQ; exact HQ].
    - by destruct child.
    - rewrite Hp in Hall. by apply all_last_app, all_last_app in Hall.
    - rewrite Hp, !slength_app in Hf. simpl in Hf. lia.
    - intros Hr. apply (Hsub (param_routes child)); [done|]. rewrite Hp. apply refused_text; [done..|].
      rewrite sapp_assoc. by apply (refused_param name tail). }
  intros child' (Hv & Hwc' & Hpath' & Hmax' & Hdep & Hmw & Hr).
  change (param_routes (incr_priority child)) with (param_routes child) in Hr.
  change (children (incr_priority child)) with (children child) in Hdep, Hmw.
  change (maxParams (incr_priority child)) with (maxParams child) in Hmax'.
  change (path (incr_priority child)) with (path child) in Hpath'.
  destruct (wf_param_shape child' Hwc') as (_ & _ & _ & _ & Hty').
  change (put_child _ 0 child') with (Node npath true nt m "" [child'] ohs prio). cbn [yields]. split_and!.
  - rewrite Hp, valid_text, sapp_assoc by done. etrans; [by apply (valid_wild "" ":" name tail); [..|apply is_name_clean|]|].
    by rewrite Hname.
  - by apply wf_wild_intro.
  - by apply orb_true_iff; left.
  - destruct child' as [? ? [| | |] ? ? ? ? ?]; try done. by destruct npath.
  - intros [|K]; [lia|]. rewrite !depth_wild by done. intros ??. apply le_n_S, Hdep; lia.
  - intros K ?. rewrite !max_wild_wild, Hmax'. intros ?. pose proof (Hmw K). lia.
  - rewrite !routes_of_wild, Hpath', Hpath, Hr by done. change (sdrop 1 (":" +:+ name)) with name.
    rewrite prepend_cons, !prepend_app, prepend_cons. rewrite <- Permutation_middle.
    apply (same_routes_app [_] [_]); [|done]. apply same_route. cbn [fst]. rewrite Hp, pattern_text by done.
    unfold is_name in Hname. rewrite !andb_true_iff in Hname. destruct Hname as [[? ?] _]. symmetry. rewrite sapp_assoc.
    by apply (pattern_text_param npath name tail).
Qed.

(** A path that is registered. *)
Lemma refused_taken n h : clean (path n) = true → handlers n = Some h → refused (path n) (routes_of n).
Proof.
  intros Hcl Hh. right. destruct n as [npath w nt m idx cs ohs prio]. simpl in Hh. subst ohs. apply Exists_cons_hd.
  cbn [path] in Hcl |- *. rewrite psyms_clean by done. simpl. rewrite app_nil_r. apply conflict_refl.
Qed.

(** A step at a node whose path is passed. *)
Lemma walk_passed fuel n a q more k hs :
  (∀ f, f ≤ fuel → walk_claim f) → wf n = true → starts_with a n = true → is_catch_all n = false →
  String a q = path n +:+ more → all_last (String a q) = true → count_wild (String a q) = k →
  2 * String.length (String a q) + 2 ≤ S fuel →
  yields (refused (String a q) (routes_of n)) (inserted a n (String a q) k hs) (walk_insert (S fuel) n (String a q) k hs).
Proof.
  intros IH Hwf Hst Hca Hp Hall Hk Hf. rewrite Hp at 3. rewrite walk_step. cbv zeta.
  destruct (retouched_spec _ _ (retouched_raise k n)) as (Ewf & Ert & _ & _ & Eca & Est & Epath & _).
  pose proof (retouched_raise k n) as Hre. set (n1 := raise_maxParams k n) in *. clearbody n1.
  rewrite <- Epath in Hp. rewrite <- Ewf in Hwf. rewrite <- Eca in Hca. rewrite <- Est in Hst.
  destruct (plain_node n1 Hwf Hca) as [Ht Hcl].
  assert (count_wild more = k) as Hkm.
  { rewrite Hp, count_wild_app, (proj1 (count_wild_clean _) Hcl) in Hk. done. }
  assert (∀ m, yields (refused (String a q) (routes_of n1)) (inserted a n1 (String a q) k hs) m →
    yields (refused (String a q) (routes_of n)) (inserted a n (String a q) k hs) m) as Hlift.
  { intros m Hm. eapply yields_weaken; [exact Hm|by rewrite Ert|]. intros n'. by apply inserted_retouched. }
  destruct more as [|b more].
  - rewrite sapp_nil_r in Hp. apply Hlift. destruct (handlers n1) eqn:Hh; [|by apply walk_leaf].
    split; [done|]. rewrite Hp. by eapply refused_taken.
  - apply Hlift. destruct (wildChild n1) eqn:Hw.
    { destruct fuel as [|fuel]; [simpl in Hf; lia|]. apply walk_wild; try done. apply IH. lia. }
    rewrite (bool_decide_eq_false_2 (nType n1 = param)) by (by intros Heq; rewrite Heq in Ht). cbn [andb].
    destruct (index_of b (indices n1)) as [i|] eqn:Hi; [apply (walk_index fuel n1 a q b more); try done; by apply IH|].
    destruct (is_wild b) eqn:Hb; [|by apply walk_new].
    destruct (starts_text _ _ Hst Hca) as [Hpre|Hh]; [|by rewrite (holder_index a n1 q b more) in Hi].
    pose proof (insertChild_wild k n1 b more hs Hw Ht Hcl Hwf Hb Hkm) as Hins.
    destruct (insertChild k true n1 (String b more) hs) as [n'|h].
    2:{ by rewrite <- Hp in Hins. }
    destruct Hins as (-> & Hv & Hpath & Hwf' & Hca' & Hdep & Hmw & Hr). cbn [yields]. split_and!; [|done| |done|intros; lia|intros; lia|].
    + by rewrite Hp, valid_text.
    + unfold starts_with. by rewrite Hpath, Hpre.
    + rewrite Hr. apply (same_routes_app [_] [_]); [|done]. apply same_route. by rewrite Hp, pattern_text.
Qed.

(** Refusals depend on the routes only. *)
Lemma route_syms_same (l k : list (list tok * H)) : same_routes l k → route_syms l ≡ₚ route_syms k.
Proof.
  intros Hlk. assert (∀ l, route_syms (norm_routes l) = route_syms l) as Hn.
  { intros l'. unfold route_syms, norm_routes. rewrite <- list_fmap_compose. apply list_fmap_ext.
    intros _ r _. simpl. by rewrite syms_norm. }
  rewrite <- (Hn l), <- (Hn k). by apply fmap_Permutation.
Qed.

Lemma refused_same p (l k : list (list tok * H)) : same_routes l k → refused p l → refused p k.
Proof.
  intros Hlk%route_syms_same [?|Hc]; [by left|right]. unfold route_syms in Hlk.
  apply (Exists_fmap (λ r : list tok * H, syms r.1) (λ xs, conflict (psyms p) xs = true)).
  rewrite <- Hlk. by apply Exists_fmap.
Qed.

(** The walk from a node the path enters. *)
Lemma walk_insert_ok fuel : walk_claim fuel.
Proof.
  induction fuel as [fuel IH] using lt_wf_ind. intros n a q k hs Hwf Hst Hca Ha Hall Hk Hf.
  destruct fuel as [|fuel]; [simpl in Hf; lia|]. assert (∀ f, f ≤ fuel → walk_claim f) as IH' by (intros; apply IH; lia).
  pose proof (common_prefix_spec (String a q) (path n)) as Hcp.
  destruct (common_prefix (String a q) (path n)) as [[pre more] rest] eqn:Hc. destruct Hcp as (Hp & Hpath & _).
  destruct rest as [|b rest].
  { rewrite sapp_nil_r in Hpath. rewrite <- Hpath in Hp. by apply (walk_passed fuel n a q more). }
  rewrite (walk_split fuel n (String a q) k hs pre more (String b rest)) by done.
  destruct (retouched_spec _ _ (retouched_raise k n)) as (Ewf & Ert & Edep & Emw & Eca & Est & Epath & _).
  destruct pre as [|a' pre].
  { destruct (starts_text _ _ Hst Hca) as [[t Ht]%HasPrefix_spec|Hh].
    - rewrite Ht in Hc. change (String a "" +:+ t) with (String a t) in Hc. cbn [common_prefix] in Hc.
      rewrite bool_decide_eq_true_2 in Hc by done. by destruct (common_prefix q t) as [[? ?] ?].
    - apply holder_spec in Hh as (Hnil & _). by rewrite Hnil in Hpath. }
  rewrite sapp_cons in Hp. injection Hp as <- ->.
  destruct (split_edge_ok (raise_maxParams k n) a pre b rest) as (Swf & Sst & Sca & Sdep & Smw & Srt);
    [by rewrite Ewf|by rewrite Eca|by rewrite Epath|].
  rewrite Edep in Sdep. rewrite Emw in Smw. rewrite Ert in Srt.
  pose proof (walk_passed fuel (split_edge (String a pre) (String b rest) (raise_maxParams k n)) a (pre +:+ more) more k hs
    IH' Swf Sst Sca eq_refl Hall Hk Hf) as Hw.
  destruct (walk_insert _ _ _ _ _) as [n'|h]; [|destruct Hw as [? Href]; split; [done|by eapply refused_same]].
  destruct Hw as (? & ? & ? & ? & Hdep & Hmw & Hr).
  rewrite Sdep in Hdep. rewrite Smw in Hmw. cbn [yields]. split_and!; try done. by rewrite Hr, Srt.
Qed.

End walk.
