(* ===== verification/RadixTables.v ===== *)
(** * Trees built from tables of routes

    A table registers without a panic in every order if and only if its paths are valid and
    no two of them conflict; one order decides for all, unless a path goes on behind a catch-all,
    which is why theorems about trees of tables leave such paths out ([registrable]).  The
    tree built from a table answers every path as the table says. *)

From stdpp Require Import prelude strings.
From Stdlib Require Import ZArith NArith Ascii.
From S2P Require Import Prelude GoStrings RadixTree RadixPatterns RadixInsert RadixBuild.

Section trees.
Context {H : Type}.
Implicit Types (n child c d : node H) (hs : H) (cs : list (node H)) (ohs : option H).

(** A tree of an engine: paths that start with a slash, or nothing yet. *)
Definition is_router n : bool := wf n && negb (is_catch_all n) && starts_with "/" n.

Definition router n : Prop := n = node_zero ∨ is_router n = true.

(** Paths the engine passes on, with no more wildcards than the tree counts. *)
Definition routable (p : string) : bool := HasPrefix p "/" && Nat.leb (count_wild p) 255.

(** With a catch-all only at the end. *)
Definition registrable (p : string) : bool := routable p && all_last p.

(** The type root for the node of the first path. *)
Lemma root_ok n :
  wf n = true → is_catch_all n = false →
  wf (set_nType root n) = true ∧ is_catch_all (set_nType root n) = false
  ∧ starts_with "/" (set_nType root n) = starts_with "/" n ∧ routes_of (set_nType root n) = routes_of n.
Proof.
  destruct n as [npath [|] nt m idx cs ohs prio]; unfold set_nType;
    cbn [path wildChild nType maxParams indices children handlers priority]; intros Hwf Hca; split_and!; try done.
  - apply wf_wild in Hwf as (-> & _ & ? & child & -> & ?); [|done]. by apply wf_wild_intro.
  - rewrite wf_static, !andb_true_iff in Hwf |- *. by destruct Hwf as [[[_ ?] ?] ?].
Qed.

(** What registering a path makes of a tree. *)
Definition registered n (p : string) hs (n' : node H) : Prop :=
  valid p = true ∧ is_router n' = true ∧ same_routes (routes_of n') ((pattern_of p, hs) :: routes_of n).

(** Walking from the root. *)
Lemma enter_ok n q hs :
  wf n = true → is_catch_all n = false → starts_with "/" n = true → all_last (String "/" q) = true →
  yields (refused (String "/" q) (routes_of n)) (registered n (String "/" q) hs)
    (walk_insert (2 * String.length (String "/" q) + 2) (incr_priority n) (String "/" q) (count_wild (String "/" q)) hs).
Proof.
  intros Hwf Hca Hst Hall.
  destruct (retouched_spec _ _ (retouched_incr n)) as (Ewf & Ert & _ & _ & Eca & Est & _).
  pose proof (walk_insert_ok (2 * String.length (String "/" q) + 2) (incr_priority n) "/"%char q (count_wild (String "/" q)) hs) as Hw.
  rewrite Ewf, Est, Eca in Hw. specialize (Hw Hwf Hst Hca eq_refl Hall eq_refl (le_n _)).
  eapply yields_weaken; [exact Hw|by rewrite Ert|]. intros n' (Hv & Hwf' & Hst' & Hca' & _ & _ & Hr').
  split_and!; [done|unfold is_router; by rewrite Hwf', Hst', Hca'|]. by rewrite Hr', Ert.
Qed.

(** [addRoute] adds the pattern of the path, or panics because the path is refused. *)
Lemma addRoute_ok n p hs :
  router n → registrable p = true → yields (refused p (routes_of n)) (registered n p hs) (addRoute n p hs).
Proof.
  unfold registrable, routable. rewrite !andb_true_iff, Nat.leb_le. intros Hn [[[q ->]%HasPrefix_spec Hc] Hall].
  change ("/" +:+ q) with (String "/" q) in *. unfold addRoute, countParams. rewrite Nat.min_r by done.
  destruct Hn as [->|Hn].
  - eapply (yields_bind _ (fresh "/" (String "/" q) (count_wild (String "/" q)) hs)).
    { eapply yields_weaken; [by apply (insertChild_fresh _ true _ _ "/" q)|by left|done]. }
    intros n' (Hv & Hwf' & Hst' & Hca' & _ & _ & Hr'). destruct (root_ok n' Hwf' Hca') as (E1 & E2 & E3 & E4).
    cbn [yields]. split_and!; [done|unfold is_router; by rewrite E1, E2, E3, Hst'|]. by rewrite E4, Hr'.
  - unfold is_router in Hn. rewrite !andb_true_iff, negb_true_iff in Hn. destruct Hn as [[Hwf Hca] Hst].
    destruct (retouched_spec _ _ (retouched_incr n)) as (_ & _ & _ & _ & _ & _ & Epath & Ecs & _). rewrite Epath, Ecs.
    assert (path n ≠ "" ∨ length (children n) ≠ 0) as Hne.
    { destruct (starts_text _ _ Hst Hca) as [[t Ht]%HasPrefix_spec|Hh]; [left; by rewrite Ht|right].
      apply holder_spec in Hh as (_ & _ & c & -> & _). done. }
    replace (negb _ || negb _) with true; [by apply enter_ok|].
    symmetry. rewrite orb_true_iff, !negb_true_iff, !bool_decide_eq_false. done.
Qed.

(** The first path of a tree is valid. *)
Lemma first_route_valid p hs n : routable p = true → addRoute node_zero p hs = Val n → valid p = true.
Proof.
  unfold routable. rewrite andb_true_iff, Nat.leb_le. intros [[q ->]%HasPrefix_spec Hc].
  change ("/" +:+ q) with (String "/" q) in *. unfold addRoute, countParams. rewrite Nat.min_r by done.
  assert (yields (valid (String "/" q) = false) (fresh "/" (String "/" q) (count_wild (String "/" q)) hs)
    (insertChild (count_wild (String "/" q)) true (incr_priority node_zero) (String "/" q) hs)) as Hy
    by by apply (insertChild_fresh _ true _ _ "/" q).
  change (path (incr_priority node_zero)) with "". change (children (incr_priority node_zero)) with ([] : list (node H)).
  rewrite !bool_decide_eq_true_2 by done. cbn [negb orb].
  destruct (insertChild _ _ _ _ _) as [n'|]; [|done]. intros _. by destruct Hy.
Qed.

(** The paths of a table are valid, and conflict neither with each other nor with the
    routes of a tree. *)
Definition acceptable n (l : list (string * H)) : Prop :=
  Forall (λ r, valid r.1 = true) l ∧ conflict_free (((λ r, psyms r.1) <$> l) ++ route_syms (routes_of n)) = true.

Lemma acceptable_head n p hs l : acceptable n ((p, hs) :: l) → ¬ refused p (routes_of n).
Proof.
  intros [[Hv _]%Forall_cons Hc] [Hr|Hr]; simpl in Hv; [congruence|]. rewrite fmap_cons, <- app_comm_cons in Hc.
  apply conflict_free_cons in Hc as [[_ Hc]%Forall_app _]. apply Forall_fmap in Hc.
  apply Exists_exists in Hr as (r & Hr & Heq). rewrite Forall_forall in Hc. specialize (Hc r Hr). simpl in Hc. congruence.
Qed.

Lemma acceptable_cons n n' p hs l :
  registered n p hs n' → acceptable n' l ↔ acceptable n ((p, hs) :: l).
Proof.
  intros (Hv & _ & Hr). unfold acceptable. rewrite Forall_cons. simpl fst. rewrite fmap_cons, <- app_comm_cons.
  assert (route_syms (routes_of n') ≡ₚ psyms p :: route_syms (routes_of n)) as Hp by by apply (route_syms_same _ _ Hr).
  rewrite (conflict_free_perm (_ :: _) (((λ r, psyms r.1) <$> l) ++ route_syms (routes_of n'))); [naive_solver|].
  rewrite Hp. by rewrite <- Permutation_middle.
Qed.

Lemma addRoutes_ok n l :
  router n → Forall (λ r, registrable r.1 = true) l →
  yields (¬ acceptable n l)
    (λ n', router n' ∧ same_routes (routes_of n') (table_routes l ++ routes_of n)
       ∧ (acceptable n l ↔ conflict_free (route_syms (routes_of n')) = true))
    (addRoutes n l).
Proof.
  intros Hn Hl. revert n Hn. induction Hl as [|[p hs] l Hp Hl IH]; intros n Hn.
  { split_and!; [done..|]. unfold acceptable. simpl. naive_solver. }
  cbn [addRoutes]. eapply yields_bind.
  { eapply yields_weaken; [by apply addRoute_ok| |intros ? HQ; exact HQ]. intros Href Hacc. by eapply acceptable_head. }
  intros n' Hn'. eapply yields_weaken; [apply (IH n'); right; by destruct Hn' as (_ & ? & _)| |].
  { by rewrite (acceptable_cons _ _ _ _ _ Hn'). }
  intros n'' (Hn'' & Hr'' & Hacc). split_and!; [done| |by rewrite <- (acceptable_cons _ _ _ _ _ Hn')].
  destruct Hn' as (_ & _ & Hr'). rewrite Hr'', Hr'. apply perm_same_routes. cbn. by rewrite <- Permutation_middle.
Qed.

(** ** No conflicts in a tree *)

Lemma route_syms_app (l k : list (list tok * H)) : route_syms (l ++ k) = route_syms l ++ route_syms k.
Proof. apply fmap_app. Qed.

Lemma route_syms_prepend t (l : list (list tok * H)) :
  route_syms (prepend t l) = (λ xs, syms_of t ++ xs) <$> route_syms l.
Proof. unfold route_syms, prepend. by rewrite <- !list_fmap_compose. Qed.

(** The route of a node itself beside longer ones. *)
Lemma conflict_free_own ohs (l : list (list tok * H)) :
  conflict_free (route_syms l) = true → Forall (λ r, syms r.1 ≠ []) l →
  conflict_free (route_syms (own_route ohs ++ l)) = true.
Proof.
  intros Hl Hne. destruct ohs as [h|]; [|done]. cbn [own_route app]. apply conflict_free_cons. split; [|done].
  apply Forall_fmap. eapply Forall_impl; [done|]. intros r Hr. simpl in Hr |- *. by destruct (syms r.1).
Qed.

Lemma entered_ne a c : wf c = true → starts_with a c = true → Forall (λ r, syms r.1 ≠ []) (routes_of c).
Proof.
  intros Hwf Ha. apply Forall_forall. intros r Hr Hnil. pose proof (starts_entered a c r Hwf Ha Hr) as He.
  rewrite Hnil in He. by apply entered_nil in He.
Qed.

Lemma wf_children_free cs idx :
  wf_children cs idx = true → (∀ c, c ∈ cs → conflict_free (route_syms (routes_of c)) = true) →
  conflict_free (route_syms (concat (map routes_of cs))) = true.
Proof.
  revert idx. induction cs as [|c cs IH]; intros [|a idx] Hwf Hfree; try done.
  simpl in Hwf. rewrite !andb_true_iff in Hwf. destruct Hwf as [[[Hc Ha] Hna] Hcs].
  cbn [map concat]. rewrite route_syms_app, conflict_free_app. split_and!; [apply Hfree; by left| |].
  { apply (IH idx); [done|]. intros. apply Hfree. by right. }
  destruct (index_of a idx) eqn:Hi; [done|]. apply index_of_None in Hi. apply wf_children_spec in Hcs as [Hcs _].
  apply Forall_fmap, Forall_forall. intros r Hr. apply Forall_fmap, Forall_forall. intros r' Hr'. simpl.
  apply list_elem_of_In, in_concat in Hr' as (l & Hl & Hr'%list_elem_of_In).
  apply list_elem_of_In, list_elem_of_fmap in Hl as (d & -> & (i & Hd)%list_elem_of_lookup).
  destruct (Forall2_lookup_l _ _ _ _ _ Hcs Hd) as (b & Hb & Hwd & Hsd).
  apply (entered_other a b); [|by apply (starts_entered a c)|by apply (starts_entered b d)].
  intros ->. apply Hi. by eapply list_elem_of_lookup_2.
Qed.

Lemma wf_conflict_free k n : size n ≤ k → wf n = true → conflict_free (route_syms (routes_of n)) = true.
Proof.
  revert n. induction k as [|k IH]; intros [npath [|] nt m idx cs ohs prio] Hk Hwf; simpl in Hk; [lia|lia|..];
    cbn [routes_of]; rewrite route_syms_prepend, conflict_free_prefix.
  - cbn [wf] in Hwf. apply andb_true_iff in Hwf as [_ Hwf].
    destruct cs as [|[cpath [|] [| | |] cmax cidx ccs chs cprio] [|? ?]]; try done.
    + apply andb_true_iff in Hwf as [_ Hwf]. apply conflict_free_own.
      * rewrite route_syms_prepend, conflict_free_prefix. destruct ccs as [|c1 [|? ?]]; [by destruct chs| |done].
        rewrite !andb_true_iff in Hwf. destruct Hwf as [[[[Hw1 Hs1] _] _] _].
        apply conflict_free_own; [apply (IH c1); [simpl in Hk; lia|done]|by eapply entered_ne].
      * apply Forall_fmap, Forall_true. done.
    + destruct ccs, chs; try done. by apply conflict_free_own; [|apply Forall_singleton].
    + by destruct ccs, chs.
  - rewrite wf_static, !andb_true_iff in Hwf. destruct Hwf as [_ Hcs]. apply conflict_free_own.
    + apply (wf_children_free cs idx); [done|]. intros c Hc. pose proof (size_child c cs Hc). apply IH; [lia|].
      apply wf_children_spec in Hcs as [Hcs _]. apply list_elem_of_lookup in Hc as (i & Hi).
      by destruct (Forall2_lookup_l _ _ _ _ _ Hcs Hi) as (b & _ & ? & _).
    + apply wf_children_spec in Hcs as [Hcs _]. clear -Hcs. induction Hcs as [|c a cs l [Hc Ha] _ IH]; [done|].
      cbn [map concat]. apply Forall_app. split; [by eapply entered_ne|done].
Qed.

Lemma router_conflict_free n : router n → conflict_free (route_syms (routes_of n)) = true.
Proof.
  intros [->|Hn]; [done|]. unfold is_router in Hn. rewrite !andb_true_iff in Hn. destruct Hn as [[Hwf _] _].
  by eapply wf_conflict_free.
Qed.

End trees.

(** ** Trees built from a table *)

Section built.
Context {H : Type} (l : list (string * H)) (Hl : Forall (λ r, registrable r.1 = true) l).

Lemma built_routes t : addRoutes node_zero l = Val t → router t ∧ same_routes (routes_of t) (table_routes l).
Proof.
  intros Ht. pose proof (addRoutes_ok node_zero l (or_introl eq_refl) Hl) as Hw. rewrite Ht in Hw. destruct Hw as (Hn & Hr & _).
  change (routes_of node_zero) with ([] : list (list tok * H)) in Hr. by rewrite app_nil_r in Hr.
Qed.

(** No route, or a well-formed tree. *)
Lemma built_cases t :
  addRoutes node_zero l = Val t →
  (t = node_zero ∧ l = []) ∨
  (wf t = true ∧ is_catch_all t = false ∧ starts_with "/" t = true ∧ same_routes (routes_of t) (table_routes l)).
Proof.
  intros [Hn Hr]%built_routes. destruct Hn as [->|Hn].
  - left. apply Permutation_nil_l in Hr. by destruct l.
  - right. unfold is_router in Hn. rewrite !andb_true_iff, negb_true_iff in Hn. naive_solver.
Qed.

Lemma built_lookup t p cap :
  addRoutes node_zero l = Val t →
  ∃ hs ps tsr, getValue t p [] cap = Val (hs, ps, tsr)
    ∧ matches (table_routes l) p = match hs with Some h => [(h, ps)] | None => [] end.
Proof.
  intros [[-> E]|(Hwf & Hca & _ & Hr)]%built_cases; [rewrite E; destruct p; by eexists None, [], _|].
  destruct (lookup_in_table t l p cap Hwf Hca Hr) as (hs & ps & tsr & Heq & Hms).
  exists hs, ps, tsr. split; [done|]. by destruct hs.
Qed.
End built.

(** C8. gin's router is correct for every table of routes: registering paths with a
    catch-all only at the end and at most 255 wildcards either panics for a conflict,
    or builds a tree in which the lookup of any path finds the handlers and parameters
    of the only registration whose pattern matches it, and none when none matches;
    in particular no two accepted registrations match the same path.  Neither the
    registration nor the lookup runs out of fuel or of room for parameters. *)
Theorem built_tree_routes_exactly {H} (l : list (string * H)) :
  Forall (λ r, registrable r.1 = true) l →
  match addRoutes node_zero l with
  | Val t => ∀ p cap, ∃ hs ps tsr, getValue t p [] cap = Val (hs, ps, tsr)
      ∧ matches (table_routes l) p = match hs with Some h => [(h, ps)] | None => [] end
  | Halt h => h ≠ HPanic (Panicked "out of fuel")
  end.
Proof.
  intros Hl. pose proof (addRoutes_ok node_zero l (or_introl eq_refl) Hl) as Hw.
  destruct (addRoutes node_zero l) as [t|h] eqn:Ht; [|by destruct Hw]. intros p cap. by apply built_lookup.
Qed.

(** One order decides for a table without a path that goes on after a catch-all. *)
Lemma one_order_decides {H} (l k : list (string * H)) :
  Forall (λ r, registrable r.1 = true) l → k ≡ₚ l →
  (∃ t, addRoutes node_zero k = Val t)
  ↔ Forall (λ r, valid r.1 = true) l ∧ conflict_free ((λ r, psyms r.1) <$> l) = true.
Proof.
  intros Hl Hk. rewrite <- Hk in Hl. pose proof (addRoutes_ok node_zero k (or_introl eq_refl) Hl) as Hw.
  rewrite <- Hk.
  trans (acceptable node_zero k); [|unfold acceptable; by rewrite app_nil_r].
  destruct (addRoutes node_zero k) as [t|h]; simpl in Hw.
  - destruct Hw as (Ht%router_conflict_free & _ & ->). naive_solver.
  - destruct Hw as [_ Hw]. split; [by intros [? ?]|done].
Qed.

(** C9. Which tables of routes register, for paths that start with a slash and have at
    most 255 wildcards.  A table registers in every order of its routes exactly when its
    paths are valid (wildcards have names, one to a segment, and a catch-all follows a
    slash and ends its path) and no two of its routes are the same or part in a wildcard
    and something else.  When no path goes on after a catch-all, it registers in one
    order exactly when it registers in all; otherwise it may register in some only
    (addRoute_past_catch_all). *)
Theorem table_registers_iff_compatible {H} (l : list (string * H)) :
  Forall (λ r, routable r.1 = true) l →
  ((∀ k, k ≡ₚ l → ∃ t, addRoutes node_zero k = Val t)
   ↔ Forall (λ r, valid r.1 = true) l ∧ conflict_free ((λ r, psyms r.1) <$> l) = true)
  ∧ (Forall (λ r, all_last r.1 = true) l → ∀ k, k ≡ₚ l →
     (∃ t, addRoutes node_zero k = Val t)
     ↔ Forall (λ r, valid r.1 = true) l ∧ conflict_free ((λ r, psyms r.1) <$> l) = true).
Proof.
  intros Hl. assert (Forall (λ r, all_last r.1 = true) l → Forall (λ r, registrable r.1 = true) l) as Hreg.
  { intros Hall. apply Forall_forall. intros r Hr. rewrite Forall_forall in Hl, Hall. unfold registrable. by rewrite Hl, Hall. }
  split; [|intros Hall k Hk; by apply one_order_decides, Hk; apply Hreg].
  split; [|intros [Hv Hc] k Hk; apply (one_order_decides l); [|done|done]; apply Hreg; eapply Forall_impl; [exact Hv|];
    intros r; apply valid_all_last].
  intros Hevery. apply (one_order_decides l l); [apply Hreg|done|by apply Hevery].
  apply Forall_forall. intros [p hs] Hr. apply valid_all_last. apply elem_of_Permutation in Hr as [k Hk].
  destruct (Hevery ((p, hs) :: k)) as [t Ht]; [done|]. cbn [addRoutes] in Ht.
  destruct (addRoute node_zero p hs) as [n|] eqn:Hn; [|done]. apply (first_route_valid _ _ _) in Hn; [done|].
  rewrite Hk in Hl. apply Forall_cons in Hl as [? _]. done.
Qed.

(** ** Witnesses *)

Definition demo_table : list (string * nat) :=
  [("/pods/:po/log", 1); ("/pods", 2); ("/pods/:po", 3); ("/js/*file", 4); ("/pods/:po/*rest", 5)].

(** A path that goes on after a catch-all. *)
Definition past_catch_all : list (string * nat) := [("/src/*file", 1); ("/src/*file/edit", 2)].

Lemma built_tree_routes_exactly_witness :
  (∃ t, addRoutes node_zero (take 4 demo_table) = Val t)
  ∧ match addRoutes node_zero (take 4 demo_table) with
    | Val t => ∀ p cap, ∃ hs ps tsr, getValue t p [] cap = Val (hs, ps, tsr)
        ∧ matches (table_routes (take 4 demo_table)) p = match hs with Some h => [(h, ps)] | None => [] end
    | Halt h => h ≠ HPanic (Panicked "out of fuel")
    end.
Proof.
  split; [eexists; vm_compute; reflexivity|].
  apply (built_tree_routes_exactly (take 4 demo_table)). repeat (constructor; [reflexivity|]). constructor.
Defined.

Lemma table_registers_iff_compatible_witness :
  (∀ k, k ≡ₚ take 4 demo_table → ∃ t, addRoutes node_zero k = Val t)
  ∧ ((∃ t, addRoutes node_zero (reverse demo_table) = Val t) → False)
  ∧ ((∀ k, k ≡ₚ past_catch_all → ∃ t, addRoutes node_zero k = Val t) → False).
Proof.
  split; [|split].
  - apply (table_registers_iff_compatible (take 4 demo_table)); [repeat (constructor; [reflexivity|]); constructor|].
    split; [repeat (constructor; [reflexivity|]); constructor|vm_compute; reflexivity].
  - intros Hr. apply (table_registers_iff_compatible demo_table) in Hr;
      [destruct Hr as [_ Hr]; vm_compute in Hr; discriminate
      |repeat (constructor; [reflexivity|]); constructor|repeat (constructor; [reflexivity|]); constructor|apply reverse_Permutation].
  - intros Hr. apply (table_registers_iff_compatible past_catch_all) in Hr; [|repeat (constructor; [reflexivity|]); constructor].
    destruct Hr as [Hr _]. apply Forall_cons in Hr as [_ Hr]. apply Forall_cons in Hr as [Hr _]. vm_compute in Hr. discriminate.
Defined.

(** The fifth route of the table is a conflict. *)
Example demo_conflict : addRoutes node_zero demo_table = gopanic (Panicked "wildcard route conflicts with existing children").
Proof. vm_compute. reflexivity. Qed.

(** A path that goes on after a registered catch-all is accepted and never found. *)

Lemma addRoute_past_catch_all :
  ∃ t, addRoutes node_zero past_catch_all = Val t
    ∧ (routes_of t).*2 = [1] ∧ getValue t "/src/main.go/edit" [] 1 = Val (Some 1, [("file", "/main.go/edit")], false)
    ∧ addRoutes node_zero (reverse past_catch_all)
      = gopanic (Panicked "catch-all routes are only allowed at the end of the path").
Proof. eexists. split; [vm_compute; reflexivity|]. vm_compute. done. Qed.
