(* ===== verification/SlashRedirect.v ===== *)
(** * The trailing-slash recommendation of gin's router

    The third result of [getValue], on which handleHTTPRequest redirects a request
    without a route to the path with the other trailing slash.  The comment of
    tree.go promises the recommendation "if a handle exists with an extra (without
    the) trailing slash".  For a slash to be added this is a theorem, up to catch-alls and parameters
    inside a segment; for one to be taken off it is refuted in both directions. *)

From stdpp Require Import prelude strings.
From Stdlib Require Import ZArith NArith Ascii.
From S2P Require Import Prelude GoStrings RadixTree RadixPatterns RadixInsert RadixBuild RadixTables.

(** ** Regular routes *)

(** No catch-all, and every parameter directly after a slash; [slash] tells whether one was
    just read. *)
Fixpoint regular_after (slash : bool) (xs : list sym) : bool :=
  match xs with
  | [] => true
  | SChar a :: xs => regular_after (bool_decide (a = "/"%char)) xs
  | SParam _ :: xs => slash && regular_after false xs
  | SAll _ :: _ => false
  end.

Definition regular (p : string) : bool := regular_after false (psyms p).

Lemma regular_suffix ys xs b : regular_after b (ys ++ xs) = true → ∃ b', regular_after b' xs = true.
Proof.
  revert b. induction ys as [|[a|x|x] ys IH]; intros b; simpl; [eauto|apply IH| |done].
  intros [_ ?]%andb_true_iff. eauto.
Qed.

Lemma regular_text_param s x xs b :
  s ≠ "" → (∀ t, s ≠ t +:+ "/") → regular_after b ((SChar <$> chars s) ++ SParam x :: xs) = false.
Proof.
  revert b. induction s as [|a s IH]; intros b Hne Hs; [done|]. simpl. destruct s as [|a' s].
  - simpl. rewrite bool_decide_eq_false_2; [done|]. intros ->. by apply (Hs "").
  - apply IH; [done|]. intros t Ht. apply (Hs (String a t)). by rewrite Ht.
Qed.

(** ** Slashes at the end *)

Lemma slash_inv (s t : string) (a : ascii) : s +:+ String a t = "/" → s = "" ∧ a = "/"%char ∧ t = "".
Proof. destruct s as [|? [|? ?]]; [|done..]. by intros [= -> ->]. Qed.

Definition no_slash (p : string) : Prop := ∀ t, p ≠ t +:+ "/".

(** The rest of a path that does not end in a slash does not. *)
Lemma no_slash_rest s u : no_slash (s +:+ u) → no_slash u.
Proof. intros Hs t ->. apply (Hs (s +:+ t)). by rewrite sapp_assoc. Qed.

Lemma span_segment_slash p : let '(v, rest) := span_segment p in span_segment (p +:+ "/") = (v, rest +:+ "/").
Proof.
  pose proof (span_segment_spec p) as Hs. destruct (span_segment p) as [v rest]. destruct Hs as (-> & Hv & Hr).
  rewrite sapp_assoc. apply span_segment_app; [done|]. right. destruct Hr as [->|[q ->]]; eexists; done.
Qed.

Lemma prefix_of_slash (p s : string) : HasPrefix p s = false → HasPrefix (p +:+ "/") s = true → s = p +:+ "/".
Proof.
  revert p. induction s as [|a s IH]; intros [|b p]; try done.
  - intros _ [u [= <- Hu]]%HasPrefix_spec. symmetry in Hu. by destruct s.
  - intros Hp [u [= <- Hu]]%HasPrefix_spec. rewrite sapp_cons. f_equal. apply IH.
    + apply not_true_iff_false. intros [v ->]%HasPrefix_spec. rewrite <- sapp_cons, HasPrefix_app in Hp. done.
    + apply HasPrefix_spec. by exists u.
Qed.

(** ** What a tree misses *)

Section advice.
Context {H : Type}.
Implicit Types (n c : node H) (cs : list (node H)) (l : list (list tok * H)) (po : list (string * string)).

(** No regular route of the list matches the path. *)
Definition missing l (q : string) : Prop :=
  Forall (λ r : list tok * H, ∀ b, regular_after b (syms r.1) = true → match_toks r.1 q = None) l.

Lemma missing_nil l q : matches l q = [] → missing l q.
Proof.
  induction l as [|r l IH]; intros Hm; [constructor|]. rewrite matches_cons in Hm.
  destruct (match_toks r.1 q) eqn:E; [done|]. constructor; [done|by apply IH].
Qed.

Lemma missing_prepend t l q q' :
  (∀ ts, match_toks ts q' = None → match_toks (t :: ts) q = None) → missing l q' → missing (prepend t l) q.
Proof.
  intros Ht Hl. unfold missing, prepend. rewrite Forall_fmap. eapply Forall_impl; [exact Hl|].
  intros [ts h] Hr b Hb. apply Ht. by destruct (regular_suffix _ _ _ Hb) as [b' ?%Hr].
Qed.

Lemma missing_text s l q : missing l q → missing (prepend (TText s) l) (s +:+ q).
Proof. apply missing_prepend. intros ts Hts. simpl. by rewrite HasPrefix_app, sdrop_app. Qed.

Lemma missing_param x l q : missing l (span_segment q).2 → missing (prepend (TParam x) l) q.
Proof.
  apply missing_prepend. intros ts Hts. simpl. case_bool_decide; [done|]. destruct (span_segment q). simpl in Hts. by rewrite Hts.
Qed.

(** The handlers of a node serve its own path, and nothing else below it does. *)
Lemma matches_end n :
  wf n = true → matches (routes_of n) (path n) = match handlers n with Some h => [(h, [])] | None => [] end.
Proof.
  destruct n as [npath wild nt m idx cs hs prio]. intros Hwf. cbn [routes_of path handlers].
  pose proof (λ l : list (list tok * H), matches_text_app npath l "") as Hm. rewrite sapp_nil_r in Hm. rewrite Hm.
  rewrite matches_app, matches_own, (bool_decide_eq_true_2 ("" = "")) by done.
  assert (matches (if wild then _ else concat (map routes_of cs)) "" = []) as ->; [|by destruct hs].
  destruct wild; [apply wild_end|]. rewrite wf_static in Hwf. apply andb_true_iff in Hwf as [_ Hwf]. by eapply wf_children_end.
Qed.

(** A recommendation is right about a list of routes and the path with the slash. *)
Definition right_about (tsr : bool) l (q : string) : Prop := if tsr then matches l q ≠ [] else missing l q.

Lemma right_nil l q : matches l q = [] → right_about false l q.
Proof. apply missing_nil. Qed.

Lemma right_app_r tsr l k q : matches l q = [] → right_about tsr k q → right_about tsr (l ++ k) q.
Proof.
  intros Hl. destruct tsr; simpl; [by rewrite matches_app, Hl|]. intros Hk. apply Forall_app. by split; [apply missing_nil|].
Qed.

Lemma right_app_l tsr l k q : matches k q = [] → right_about tsr l q → right_about tsr (l ++ k) q.
Proof.
  intros Hk. destruct tsr; simpl; [by rewrite matches_app, Hk, app_nil_r|]. intros Hl. apply Forall_app.
  by split; [|apply missing_nil].
Qed.

Lemma right_text tsr s l q : right_about tsr l q → right_about tsr (prepend (TText s) l) (s +:+ q).
Proof. destruct tsr; simpl; [by rewrite matches_text_app|apply missing_text]. Qed.

Lemma right_param tsr x l q :
  q ≠ "" → right_about tsr l (span_segment q).2 → right_about tsr (prepend (TParam x) l) q.
Proof.
  intros Hq. destruct tsr; simpl; [|apply missing_param]. rewrite matches_param, bool_decide_eq_false_2 by done.
  by destruct (matches l _).
Qed.

(** ** The places that recommend *)

(** A catch-all node and the node above it serve no regular route. *)
Lemma catch_all_missing c q : wf c = true → is_catch_all c || is_holder c = true → missing (routes_of c) q.
Proof.
  assert (∀ c, wf c = true → is_catch_all c = true →
    Forall (λ r, ∀ b, regular_after b (syms r.1) = false) (routes_of c)) as Hca.
  { clear c. intros [[|? ?] [|] nt m idx cs hs prio]; try done. destruct cs as [|[cpath cw [| | |] cm cidx ccs chs cprio] cs]; try done.
    intros Hwf _. cbn [wf] in Hwf. destruct cw, ccs, chs as [h|], hs, cs; try done; rewrite ?andb_false_r in Hwf; try done.
    by repeat constructor. }
  assert (∀ c, Forall (λ r, ∀ b, regular_after b (syms r.1) = false) (routes_of c) → missing (routes_of c) q) as Hm.
  { intros c' Hc'. eapply Forall_impl; [exact Hc'|]. intros r Hr b Hb. by rewrite Hr in Hb. }
  intros Hwf [Hc|Hc]%orb_true_iff; apply Hm; [by apply Hca|].
  destruct c as [npath [|] nt m idx [|d [|? ?]] [h|] prio]; try done. simpl in Hc.
  rewrite !andb_true_iff, !bool_decide_eq_true in Hc. destruct Hc as [[-> ->] Hd].
  rewrite wf_static in Hwf. simpl in Hwf. rewrite !andb_true_iff in Hwf. destruct Hwf as [_ [[[Hwd _] _] _]].
  cbn [routes_of own_route map concat app]. rewrite app_nil_r. unfold prepend. apply Forall_fmap.
  eapply Forall_impl; [by apply Hca|]. done.
Qed.

(** A child that is reached by a slash, and the path that ends there. *)
Lemma slash_child_right c :
  wf c = true → starts_with "/" c = true → right_about (bool_decide (path c = "/") && has_handlers c) (routes_of c) "/".
Proof.
  intros Hwf Hst. unfold starts_with in Hst. apply orb_true_iff in Hst as [[t Ht]%HasPrefix_spec|[Hc _]%andb_true_iff].
  - pose proof (matches_end c Hwf) as Hm. unfold has_handlers. rewrite Ht in *. destruct t as [|a t].
    + rewrite bool_decide_eq_true_2 by done. change ("/" +:+ "") with "/" in Hm. simpl andb.
      destruct (handlers c); [simpl; by rewrite Hm|by apply right_nil].
    + rewrite bool_decide_eq_false_2 by done. apply right_nil. destruct c. simpl in Ht. subst. cbn [routes_of]. by rewrite matches_text.
  - replace (bool_decide (path c = "/") && has_handlers c) with false; [by apply catch_all_missing|].
    apply orb_true_iff in Hc. destruct c as [[|? ?] ? ? ? ? ? ? ?]; [done|]. exfalso. destruct Hc as [Hc|Hc]; [done|].
    by destruct wildChild as [|], children as [|? [|? ?]], handlers.
Qed.

(** Children behind other bytes. *)
Lemma other_children_miss cs idx a q :
  wf_children cs idx = true → index_of a idx = None → matches (concat (map routes_of cs)) (String a q) = [].
Proof.
  revert idx. induction cs as [|d cs IH]; intros [|b idx] Hwf Hi; try done.
  simpl in Hi, Hwf. rewrite !andb_true_iff in Hwf. destruct Hwf as [[[Hd Hb] _] Hcs].
  case_bool_decide as Hbc; [done|]. cbn [map concat]. rewrite matches_app, (matches_starts b d) by (done || by intros q' [= ??]).
  apply (IH idx); [done|by destruct (index_of a idx)].
Qed.

(** The look at the children of a node that is all of the path. *)
Lemma tsr_child_right cs idx b :
  wf_children cs idx = true → tsr_child idx cs = Val b → right_about b (concat (map routes_of cs)) "/".
Proof.
  revert cs. induction idx as [|a idx IH]; intros [|c cs] Hwf; try done; [by intros [= <-]; apply right_nil|].
  simpl in Hwf. rewrite !andb_true_iff in Hwf. destruct Hwf as [[[Hc Ha] Hi] Hcs]. simpl tsr_child. cbn [map concat].
  case_bool_decide as Hsl.
  2:{ intros Hb. apply right_app_r; [apply (matches_starts a c); [done|done|by intros ? [= ??]]|by apply IH]. }
  subst a. intros Hb. apply right_app_l; [apply (other_children_miss _ idx); [done|by destruct (index_of "/" idx)]|].
  pose proof (slash_child_right c Hc Ha) as Hr. cbn [mbind go_bind index lookup list_lookup] in Hb.
  assert (Nat.eqb (String.length (path c)) 1 = bool_decide (path c = "/")) as Hlen.
  { unfold starts_with in Ha. apply eq_true_iff_eq. rewrite Nat.eqb_eq, bool_decide_eq_true. split; [|by intros ->].
    apply orb_true_iff in Ha as [[t ->]%HasPrefix_spec|[Hh _]%andb_true_iff]; [by destruct t|].
    destruct c as [[|? ?] [|] ? ? ? [|? [|? ?]] [?|] ?]; done. }
  unfold index in Hb. cbn in Hb. rewrite Hlen in Hb. clear Hlen.
  destruct (bool_decide (path c = "/") && has_handlers c); [by injection Hb as <-|].
  case_bool_decide as Ht; [|by injection Hb as <-].
  destruct c as [npath [|] nt m cidx ccs hs prio]; simpl in Ht; subst nt; [|by rewrite wf_static in Hc].
  cbn [wf] in Hc. apply andb_true_iff in Hc as [_ Hc].
  destruct ccs as [|[cpath [|] [| | |] cmax cidx' ccs' [h|] cprio] [|? ?]]; try done; try by destruct ccs'.
  destruct ccs'; [|done]. cbn in Hb. injection Hb as <-. rewrite !andb_true_iff, bool_decide_eq_true in Hc.
  destruct Hc as [[[_ ->] _] _]. cbn [right_about routes_of].
  rewrite (matches_text_app "" _ "/"), matches_app, matches_own. by destruct hs.
Qed.

(** ** The walk *)

(** The recommendation of a lookup that finds nothing. *)
Definition advised n (p : string) (r : go (option H * list (string * string) * bool)) : Prop :=
  ∀ ps tsr, r = Val (None, ps, tsr) → right_about tsr (routes_of n) (p +:+ "/").

Lemma advised_elsewhere n p po cap :
  wf n = true → no_slash p → HasPrefix p (path n) = false → advised n p (getValue n p po cap).
Proof.
  destruct n as [npath wild nt m idx cs hs prio]. intros Hwf Hp Hpre ps tsr. cbn [path] in Hpre.
  assert (p ≠ npath) as Hne by (intros ->; by rewrite <- (sapp_nil_r npath), HasPrefix_app in Hpre at 1).
  assert (tsr_extra p npath hs = bool_decide (npath = p +:+ "/") && match hs with Some _ => true | None => false end) as Hx.
  { unfold tsr_extra. rewrite bool_decide_eq_false_2; [done|]. intros ->. by apply (Hp ""). }
  cbn [getValue]. rewrite Hpre, (bool_decide_eq_false_2 (p = npath)) by done.
  assert (Val (@None H, po, tsr_extra p npath hs) = Val (None, ps, tsr) →
    right_about tsr (routes_of (Node npath wild nt m idx cs hs prio)) (p +:+ "/")) as Hgoal; [|by destruct (Nat.ltb _ _)].
  intros [= _ <-]. rewrite Hx. case_bool_decide as Hn.
  - pose proof (matches_end _ Hwf) as Hm. cbn [path handlers] in Hm. rewrite Hn in Hm at 2.
    destruct hs; [simpl andb; unfold right_about; by rewrite Hm|by apply right_nil].
  - apply right_nil. cbn [routes_of]. rewrite matches_text.
    destruct (HasPrefix (p +:+ "/") npath) eqn:E; [|done]. by apply prefix_of_slash in E.
Qed.

(** A parameter in the middle of a segment. *)
Lemma inner_param_missing s x l q : s ≠ "" → no_slash s → missing (prepend (TText s) (prepend (TParam x) l)) q.
Proof.
  intros Hne Hs. unfold missing, prepend. rewrite !Forall_fmap. apply Forall_forall. intros [ts h] _ b. simpl.
  by rewrite regular_text_param.
Qed.

Lemma advised_end n a po cap :
  wf n = true → starts_with a n = true → no_slash (path n) → advised n (path n) (getValue n (path n) po cap).
Proof.
  destruct n as [npath wild nt m idx cs hs prio]. intros Hwf Ha Hp ps tsr. cbn [path] in *.
  cbn [getValue]. rewrite Nat.ltb_irrefl, bool_decide_eq_true_2 by done. destruct hs as [h|]; [done|].
  rewrite bool_decide_eq_false_2 by (intros ->; by apply (Hp "")). cbn [andb].
  destruct (tsr_child idx cs) as [b|] eqn:Hb; [|done]. intros [= _ <-]. cbn [routes_of own_route app].
  destruct wild.
  2:{ rewrite wf_static in Hwf. apply andb_true_iff in Hwf as [_ Hwf]. apply right_text. by eapply tsr_child_right. }
  cbn [wf] in Hwf. apply andb_true_iff in Hwf as [->%bool_decide_eq_true Hwf]. injection Hb as <-.
  destruct cs as [|[cpath [|] [| | |] cmax cidx ccs chs cprio] [|? ?]]; try done; [..|by destruct ccs, chs].
  - apply inner_param_missing; [|done]. by intros ->.
  - destruct chs as [h|]; [|by destruct ccs]. constructor; [|constructor]. by intros b [? ?]%regular_suffix.
Qed.

Lemma advised_param npath nt m cpath cmax cidx ccs chs cprio hs prio po cap (a : ascii) q :
  let child := Node cpath false param cmax cidx ccs chs cprio in
  let n := Node npath true nt m "" [child] hs prio in
  wf n = true → no_slash (String a q) →
  (∀ c1 p po cap, ccs = [c1] → wf c1 = true → starts_with "/" c1 = true → is_catch_all c1 = false → no_slash p →
     advised c1 p (getValue c1 p po cap)) →
  advised n (npath +:+ String a q) (getValue n (npath +:+ String a q) po cap).
Proof.
  intros child n Hwf Hq IH ps tsr. subst child n. rewrite sapp_assoc.
  cbn [wf] in Hwf. rewrite bool_decide_eq_true_2, andb_true_l in Hwf by done.
  rewrite !andb_true_iff in Hwf. destruct Hwf as [[[_ Hcp] _] Hccs]. apply HasPrefix_spec in Hcp as [x ->].
  cbn [getValue routes_of]. rewrite slength_app, HasPrefix_app, sdrop_app.
  rewrite (proj2 (Nat.ltb_lt _ _)) by (simpl; lia). cbn [negb].
  pose proof (span_segment_slash (String a q)) as Hspan. pose proof (span_segment_spec (String a q)) as Hs.
  destruct (span_segment (String a q)) as [v rest]. destruct Hs as (Heq & _ & Hsl).
  change (slice_tail 1 (":" +:+ x)) with (Val x). change (sdrop 1 (":" +:+ x)) with x.
  cbn [mbind go_bind]. destruct (save_param _ _ _ _ _) as [[po' cap']|]; [|done]. cbn [mbind go_bind].
  intros Hr. apply right_text. cut (right_about tsr (match ccs with c1 :: _ => routes_of c1 | [] => [] end) (rest +:+ "/")).
  { intros Hright. apply right_app_r; [by destruct hs|]. apply right_param; [done|]. rewrite Hspan. cbn [snd].
    apply right_app_r; [|done]. rewrite matches_own. destruct chs; [|done].
    by rewrite bool_decide_eq_false_2 by by destruct rest. }
  destruct Hsl as [->|[rest' ->]].
  - destruct chs; [done|]. destruct ccs as [|c1 [|? ?]]; [by injection Hr as _ <-; apply right_nil| |done].
    injection Hr as _ <-. rewrite !andb_true_iff in Hccs. apply slash_child_right; apply Hccs.
  - assert (no_slash (String "/" rest')) as Hns by (apply (no_slash_rest v); by rewrite <- Heq).
    destruct ccs as [|c1 [|? ?]]; [| |done].
    + injection Hr as _ <-. rewrite bool_decide_eq_false_2; [by apply right_nil|]. intros ->. by apply (Hns "").
    + rewrite !andb_true_iff, negb_true_iff in Hccs. destruct Hccs as [[[[Hw1 Hs1] Hca] _] _].
      by eapply IH.
Qed.

(** The choice of a child by its index byte. *)
Lemma pick_child_advised cs idx a q po cap ps tsr :
  wf_children cs idx = true →
  (∀ c, c ∈ cs → wf c = true → starts_with a c = true → advised c (String a q) (getValue c (String a q) po cap)) →
  pick_child (λ c, getValue c (String a q) po cap) (Val (None, po, false)) a cs idx = Val (None, ps, tsr) →
  right_about tsr (concat (map routes_of cs)) (String a q +:+ "/").
Proof.
  revert idx. induction cs as [|c cs IH]; intros [|b idx] Hwf Hc; try done; [by intros [= _ <-]; apply right_nil|].
  simpl in Hwf. rewrite !andb_true_iff in Hwf. destruct Hwf as [[[Hw Hb] Hi] Hcs]. cbn [pick_child map concat].
  case_bool_decide as Hab.
  - subst b. intros Hp. apply right_app_l; [|by eapply (Hc c); [left| | |]].
    apply (other_children_miss _ idx); [done|by destruct (index_of a idx)].
  - intros Hp. apply right_app_r; [apply (matches_starts b c); [done|done|by intros ? [= ??]]|].
    apply (IH idx); [done| |done]. intros d Hd. apply Hc. by right.
Qed.

(** Every lookup that finds nothing, in a well-formed tree. *)
Lemma getValue_advised k n a p po cap :
  size n ≤ k → wf n = true → starts_with a n = true → (is_catch_all n = true → HasPrefix p "/" = true) → no_slash p →
  advised n p (getValue n p po cap).
Proof.
  revert n a p po cap. induction k as [|k IH]; intros n a p po cap Hk Hwf Ha Hca Hp; [destruct n; simpl in Hk; lia|].
  destruct (HasPrefix p (path n)) eqn:Hpre; [|by apply advised_elsewhere].
  apply HasPrefix_spec in Hpre as [[|b q] ->]; [rewrite sapp_nil_r in *; by eapply advised_end|].
  assert (no_slash (String b q)) as Hq by by eapply no_slash_rest.
  destruct n as [npath wild nt m idx cs hs prio]. cbn [path] in *. simpl in Hk. destruct wild.
  - pose proof Hwf as Hwf'. cbn [wf] in Hwf'. apply andb_true_iff in Hwf' as [->%bool_decide_eq_true Hwf'].
    destruct cs as [|[cpath [|] [| | |] cmax cidx ccs chs cprio] [|? ?]]; try done; [..|by destruct ccs, chs].
    + apply advised_param; [done|done|]. intros c1 p' po' cap' -> Hw1 Hs1 Hc1 Hp'.
      apply (IH _ "/"%char); [simpl in Hk; lia|done|done|by rewrite Hc1|done].
    + destruct ccs, chs as [h|]; try done. rewrite !andb_true_iff in Hwf'. destruct Hwf' as [[[_ ->%bool_decide_eq_true] _] Hhs].
      destruct hs; [done|]. intros ps tsr Hr.
      cbn [getValue] in Hr. rewrite (proj2 (Nat.ltb_lt _ _)) in Hr by (simpl; lia). cbn in Hr.
      destruct (slice_tail 2 cpath); [|done]. cbn in Hr. by destruct (save_param _ _ _ _ _) as [[? ?]|].
  - pose proof Hwf as Hcs. rewrite wf_static in Hcs. apply andb_true_iff in Hcs as [_ Hcs]. intros ps tsr.
    rewrite (getValue_static _ _ _ _ _ _ _ _ _ _ b q) by done.
    rewrite bool_decide_eq_false_2 by (intros Hbq; by apply (Hq ""); rewrite Hbq). cbn [andb]. intros Hr.
    rewrite sapp_assoc. cbn [routes_of]. apply right_text, right_app_r; [by rewrite matches_own; destruct hs|].
    eapply pick_child_advised; [done| |done]. intros c Hin Hw Hs.
    apply (IH c b); [pose proof (size_child _ _ Hin); lia|done|done| |done].
    intros Hc. pose proof (starts_catch_all b c Hc Hs) as ->. apply (HasPrefix_app "/" q).
Qed.

End advice.

(** ** Tables *)

(** A recommendation is the same about routes in another order or form. *)
Lemma right_about_same {H} tsr (l k : list (list tok * H)) q : same_routes l k → right_about tsr l q → right_about tsr k q.
Proof.
  intros Hlk. destruct tsr; simpl.
  - intros Hl Hk. apply Hl. apply Permutation_nil_r. rewrite <- Hk, <- (matches_norm l), <- (matches_norm k).
    by apply omap_Permutation.
  - assert (∀ l : list (list tok * H), missing (norm_routes l) q ↔ missing l q) as Hn.
    { intros l'. unfold missing, norm_routes. rewrite Forall_fmap. f_equiv. intros r. cbn [compose fst].
      by rewrite syms_norm, match_norm. }
    rewrite <- (Hn l), <- (Hn k). unfold missing, same_routes in *. by rewrite Hlk.
Qed.

(** The whole of what a lookup answers: handlers, or a recommendation. *)
Lemma built_advice {H} (l : list (string * H)) t p cap :
  Forall (λ r, registrable r.1 = true) l → addRoutes node_zero l = Val t → no_slash p →
  ∃ hs ps tsr, getValue t p [] cap = Val (hs, ps, tsr)
    ∧ matches (table_routes l) p = match hs with Some h => [(h, ps)] | None => [] end
    ∧ (hs = None →
        if (tsr : bool) then matches (table_routes l) (p +:+ "/") ≠ []
        else ∀ r, r ∈ l → regular r.1 = true → match_toks (pattern_of r.1) (p +:+ "/") = None).
Proof.
  intros Hl Ht Hp. destruct (built_lookup l Hl t p cap Ht) as (hs & ps & tsr & E & Hms). exists hs, ps, tsr. split_and!; [done..|].
  intros ->. destruct (built_cases l Hl t Ht) as [[-> ->]|(Hwf & Hca & Hst & Hr)].
  { assert (tsr = false) as -> by (destruct p; cbn in E; rewrite ?andb_false_r in E; by injection E).
    by intros r ?%not_elem_of_nil. }
  assert (advised t p (getValue t p [] cap)) as Ha by (by apply (getValue_advised (size t) t "/"%char); rewrite ?Hca).
  specialize (Ha ps tsr E). apply (right_about_same _ _ _ _ Hr) in Ha. destruct tsr; [done|]. intros r Hin Hreg.
  unfold right_about, missing, table_routes in Ha. rewrite Forall_fmap, Forall_forall in Ha. by eapply (Ha r).
Qed.

(** C12. The redirect that adds a slash is right.  For every table of routes that registers and every path
    that is not served and does not end in a slash: when gin recommends the path with a
    slash, that path is served, so the redirect does not lead to a 404; and when it
    does not, no regular route (one without a catch-all whose parameters are whole segments)
    matches the path with a slash, so no such route is missed. *)
Theorem slash_redirect_adds {H} (l : list (string * H)) t p cap :
  Forall (λ r, registrable r.1 = true) l → addRoutes node_zero l = Val t → no_slash p →
  matches (table_routes l) p = [] →
  ∃ ps tsr, getValue t p [] cap = Val (None, ps, tsr)
    ∧ if (tsr : bool) then matches (table_routes l) (p +:+ "/") ≠ []
      else ∀ r, r ∈ l → regular r.1 = true → match_toks (pattern_of r.1) (p +:+ "/") = None.
Proof.
  intros Hl Ht Hp Hm. destruct (built_advice l t p cap Hl Ht Hp) as (hs & ps & tsr & E & Hms & Ha).
  destruct hs as [h|]; [by rewrite Hm in Hms|]. exists ps, tsr. split; [done|by apply Ha].
Qed.

(** ** Where the recommendation is wrong *)

(** Taking a slash off: with a longer route below it, the recommended path is not served;
    with several, a served one is not recommended. *)
Example slash_taken_off_wrongly :
  (∃ t, addRoutes node_zero [("/pods/log", 1); ("/podsets", 2)] = Val t
     ∧ getValue t "/pods/" [] 0 = Val (None, [], true) ∧ getValue t "/pods" [] 0 = Val (None, [], false))
  ∧ ∃ t, addRoutes node_zero [("/pods", 1); ("/pods/a", 2); ("/pods/b", 3)] = Val t
     ∧ getValue t "/pods/" [] 0 = Val (None, [], false) ∧ getValue t "/pods" [] 0 = Val (Some 1, [], false).
Proof. split; eexists; split_and!; vm_compute; reflexivity. Qed.

(** A catch-all: whether its directory is recommended depends on the order of the
    registrations, although both trees serve the same paths. *)
Example catch_all_depends_on_order :
  let routes := [("/src/*file", 1); ("/srca", 2); ("/srcb", 3)] in
  (∃ t, addRoutes node_zero routes = Val t ∧ getValue t "/src" [] 0 = Val (None, [], true))
  ∧ ∃ t, addRoutes node_zero (reverse routes) = Val t ∧ getValue t "/src" [] 0 = Val (None, [], false)
     ∧ getValue t "/src/" [] 0 = Val (Some 1, [("file", "/")], false).
Proof. split; eexists; split_and!; vm_compute; reflexivity. Qed.

(** ** Witness *)

Definition slash_table : list (string * nat) := [("/pods/:po/log", 1); ("/pods", 2); ("/nodes/:no/", 3); ("/js/*file", 4)].

Lemma slash_redirect_adds_witness :
  (∃ t, addRoutes node_zero slash_table = Val t ∧ getValue t "/nodes/n1" [] 0 = Val (None, [("no", "n1")], true))
  ∧ match addRoutes node_zero slash_table with
    | Val t => ∃ ps tsr, getValue t "/nodes/n1" [] 0 = Val (None, ps, tsr)
        ∧ if (tsr : bool) then matches (table_routes slash_table) "/nodes/n1/" ≠ []
          else ∀ r, r ∈ slash_table → regular r.1 = true → match_toks (pattern_of r.1) "/nodes/n1/" = None
    | Halt _ => False
    end.
Proof.
  split; [eexists; split; vm_compute; reflexivity|].
  destruct (addRoutes node_zero slash_table) as [t|] eqn:Ht; [|vm_compute in Ht; discriminate].
  apply (slash_redirect_adds slash_table t "/nodes/n1" 0); [repeat (constructor; [reflexivity|]); constructor|exact Ht| |reflexivity].
  intros u Hu. assert (HasSuffix (u +:+ "/") "/" = true) as Hs by apply HasSuffix_app. rewrite <- Hu in Hs. discriminate Hs.
Defined.
