(* ===== verification/CleanPath.v ===== *)
(** * Canonical URL paths: cleanPath of gin (path.go)

    The router's cleaning of a request path works on indices into the path and a
    buffer that is only made when the output first differs from the input.  It is
    modelled with both, every access bounds-checked, and shown equal to the definition
    its comment describes: the elements of the path with "." dropped and ".." taking
    its predecessor away. *)

From stdpp Require Import prelude strings.
From Stdlib Require Import Ascii.
From S2P Require Import Prelude.

Module cleanpath.

Abbreviation bytes := (list ascii).

Definition slash : ascii := "/"%char.
Definition dot : ascii := "."%char.
Definition nul : ascii := "000"%char.

(** ** The code *)

(** [bufApp(&buf, s, w, c)]. *)
Definition bufApp (buf : option bytes) (s : bytes) (w : nat) (c : ascii) : go (option bytes) :=
  match buf with
  | None =>
      x ← index s w;
      if bool_decide (x = c) then Val None
      else b ← set_index (take w s ++ replicate (length s - w) nul) w c; Val (Some b)
  | Some b => b ← set_index b w c; Val (Some b)
  end.

(** [for w > 1 && b[w] != '/' { w-- }]. *)
Fixpoint backtrack (b : bytes) (w : nat) : go nat :=
  match w with
  | S (S _ as w') => c ← index b w; if bool_decide (c = slash) then Val w else backtrack b w'
  | _ => Val w
  end.

(** [for r < n && p[r] != '/' { bufApp; w++; r++ }]; [k] bounds the turns left. *)
Fixpoint copy_element (k : nat) (p : bytes) (buf : option bytes) (r w : nat) : go (option bytes * nat * nat) :=
  match k with
  | O => Val (buf, r, w)
  | S k =>
      if bool_decide (r < length p) then
        c ← index p r;
        if bool_decide (c = slash) then Val (buf, r, w)
        else buf ← bufApp buf p w c; copy_element k p buf (S r) (S w)
      else Val (buf, r, w)
  end.

(** Whether [p[i] == c]; an index past the end panics. *)
Definition byte_is (p : bytes) (i : nat) (c : ascii) : go bool := x ← index p i; Val (bool_decide (x = c)).

(** Short-circuit conjunction of tests that may panic. *)
Definition and_then (a b : go bool) : go bool := x ← a; if (x : bool) then b else Val false.

(** The main loop: the path is read from [r], the output has [w] bytes.  Every turn
    advances [r], so the length of the path bounds the turns. *)
Fixpoint loop (fuel : nat) (p : bytes) (buf : option bytes) (r w : nat) (trailing : bool) :
    go (option bytes * nat * bool) :=
  match fuel with
  | O => Val (buf, w, trailing)
  | S fuel =>
      let n := length p in
      if bool_decide (r < n) then
        is_slash ← byte_is p r slash;
        if (is_slash : bool) then loop fuel p buf (S r) w trailing
        else
          last_dot ← and_then (byte_is p r dot) (Val (bool_decide (r + 1 = n)));
          if (last_dot : bool) then loop fuel p buf (S r) w true
          else
            one_dot ← and_then (byte_is p r dot) (byte_is p (r + 1) slash);
            if (one_dot : bool) then loop fuel p buf (S r) w trailing
            else
              two_dots ← and_then (byte_is p r dot) (and_then (byte_is p (r + 1) dot)
                (if bool_decide (r + 2 = n) then Val true else byte_is p (r + 2) slash));
              if (two_dots : bool) then
                w ← (if bool_decide (1 < w) then backtrack (match buf with None => p | Some b => b end) (w - 1)
                     else Val w);
                loop fuel p buf (r + 2) w trailing
              else
                '(buf, w) ← (if bool_decide (1 < w) then buf ← bufApp buf p w slash; Val (buf, S w) else Val (buf, w));
                '(buf, r, w) ← copy_element (n - r) p buf r w;
                loop fuel p buf r w trailing
      else Val (buf, w, trailing)
  end.

Definition cleanPath_bytes (p : bytes) : go bytes :=
  match p with
  | [] => Val [slash]
  | c :: _ =>
      let n := length p in
      '(r, buf) ←
        (if bool_decide (c ≠ slash) then b ← set_index (replicate (n + 1) nul) 0 slash; Val (0, Some b)
         else Val (1, None));
      trailing ← and_then (Val (bool_decide (2 < n))) (byte_is p (n - 1) slash);
      '(buf, w, trailing) ← loop n p buf r 1 trailing;
      '(buf, w) ← (if trailing && bool_decide (1 < w) then buf ← bufApp buf p w slash; Val (buf, S w) else Val (buf, w));
      let b := match buf with None => p | Some b => b end in
      if bool_decide (w ≤ length b) then Val (take w b) else gopanic SliceOutOfRange
  end.

Definition cleanPath (p : string) : go string :=
  b ← cleanPath_bytes (String.list_ascii_of_string p); Val (String.string_of_list_ascii b).

(** ** What the comment says *)

(** The elements between slashes. *)
Fixpoint elements (p : bytes) : list bytes :=
  match p with
  | [] => [[]]
  | c :: p =>
      if bool_decide (c = slash) then [] :: elements p
      else match elements p with e :: es => (c :: e) :: es | [] => [[c]] end
  end.

(** One element on the path so far, last element first. *)
Definition step_element (st : list bytes) (e : bytes) : list bytes :=
  if bool_decide (e = []) then st
  else if bool_decide (e = [dot]) then st
  else if bool_decide (e = [dot; dot]) then tail st
  else e :: st.

(** The output of a path: every element behind a slash, a lone slash when there is
    none. *)
Fixpoint joined (st : list bytes) : bytes :=
  match st with
  | [] => []
  | e :: st => joined st ++ slash :: e
  end.

Definition output (st : list bytes) : bytes := match st with [] => [slash] | _ => joined st end.

(** Ends in a slash (and is longer than two bytes), or in the element ".". *)
Definition has_trailing (p : bytes) : bool :=
  (bool_decide (2 < length p) && bool_decide (last p = Some slash))
  || bool_decide (last (elements p) = Some [dot]).

Definition clean_spec (p : bytes) : bytes :=
  let st := foldl step_element [] (elements p) in
  output st ++ (if has_trailing p && negb (bool_decide (st = [])) then [slash] else []).

Example clean1 : cleanPath "/a//b/./../c/" = Val "/a/c/".
Proof. reflexivity. Qed.
Example clean2 : cleanPath "a/.." = Val "/".
Proof. reflexivity. Qed.
Example clean3 : cleanPath "x/.//y/." = Val "/x/y/".
Proof. reflexivity. Qed.

(** ** The elements of a path *)

Definition no_slash (e : bytes) : Prop := Forall (λ c, c ≠ slash) e.

Lemma span_element rest :
  ∃ e tl, rest = e ++ tl ∧ no_slash e ∧ (tl = [] ∨ ∃ t, tl = slash :: t).
Proof.
  induction rest as [|c rest (e & tl & -> & He & Htl)].
  { exists [], []. split_and!; [done|constructor|by left]. }
  destruct (decide (c = slash)) as [->|Hc].
  - exists [], (slash :: e ++ tl). split_and!; [done|constructor|right; by eexists].
  - exists (c :: e), tl. split_and!; [done|by constructor|done].
Qed.

Lemma elements_nonempty p : ∃ e es, elements p = e :: es.
Proof.
  induction p as [|c p (e & es & IH)]; simpl; [eauto|]. rewrite IH. case_bool_decide; eauto.
Qed.

Lemma elements_app e tl :
  no_slash e → elements (e ++ tl) = match elements tl with e' :: es => (e ++ e') :: es | [] => [e] end.
Proof.
  induction 1 as [|c e Hc He IH]; simpl.
  - by destruct (elements_nonempty tl) as (e' & es & ->).
  - rewrite bool_decide_eq_false_2, IH by done. by destruct (elements tl).
Qed.

(** Reading one element and going on at its end. *)
Lemma fold_elements st e tl :
  no_slash e → tl = [] ∨ (∃ t, tl = slash :: t) →
  foldl step_element st (elements (e ++ tl)) = foldl step_element (step_element st e) (elements tl).
Proof.
  intros He Htl. rewrite elements_app by done. destruct Htl as [->|[t ->]]; simpl; by rewrite app_nil_r.
Qed.

Lemma last_elements e tl :
  no_slash e → tl = [] ∨ (∃ t, tl = slash :: t) →
  last (elements (e ++ tl)) = if bool_decide (tl = []) then Some e else last (elements tl).
Proof.
  intros He Htl. rewrite elements_app by done. destruct Htl as [->|[t ->]]; simpl; rewrite app_nil_r; [done|].
  by destruct (elements_nonempty t) as (e' & es & ->).
Qed.

(** ** The buffer *)

Section clean.
Context (p : bytes) (off : nat).

Local Abbreviation n := (length p).

Definition content (buf : option bytes) : bytes := match buf with None => p | Some b => b end.

(** The first [w] bytes of the buffer (or of the path itself) are the output. *)
Definition rep (buf : option bytes) (w : nat) (out : bytes) : Prop :=
  w = length out ∧ take w (content buf) = out ∧ length (content buf) = n + off.

Lemma take_insert_snoc {A} (l : list A) w c :
  w < length l → take (S w) (<[w := c]> l) = take w l ++ [c].
Proof.
  intros Hw. rewrite (take_S_r _ _ c) by (by apply list_lookup_insert_eq). by rewrite take_insert_ge by done.
Qed.

Lemma bufApp_rep buf w out c :
  rep buf w out → w < n + off → ∃ buf', bufApp buf p w c = Val buf' ∧ rep buf' (S w) (out ++ [c]).
Proof.
  intros (Hw & Ht & Hl) Hlt. destruct buf as [b|]; simpl in *.
  - unfold set_index. destruct (b !! w) eqn:E; [|apply lookup_ge_None in E; lia]. simpl.
    eexists. split; [done|]. split_and!; [rewrite length_app; simpl; lia| |simpl; by rewrite length_insert].
    simpl content. rewrite take_insert_snoc by lia. by rewrite Ht.
  - unfold index. destruct (p !! w) as [x|] eqn:E; [|apply lookup_ge_None in E; lia]. simpl.
    case_bool_decide as Hx.
    + exists None. split; [done|]. split_and!; [rewrite length_app; simpl; lia| |done].
      simpl. rewrite (take_S_r _ _ c) by congruence. by rewrite Ht.
    + set (b := take w p ++ replicate (n - w) nul).
      assert (length b = n) as Hb by (unfold b; rewrite length_app, length_take, length_replicate; lia).
      unfold set_index. destruct (b !! w) eqn:E'; [|apply lookup_ge_None in E'; lia]. simpl.
      eexists. split; [done|]. split_and!; [rewrite length_app; simpl; lia| |simpl; rewrite length_insert; lia].
      simpl. rewrite take_insert_snoc by lia. f_equal. unfold b.
      rewrite take_app_le by (rewrite length_take; lia). rewrite take_take, Nat.min_id. done.
Qed.

Lemma copy_element_rep k e tl buf r w out :
  drop r p = e ++ tl → no_slash e → tl = [] ∨ (∃ t, tl = slash :: t) → length e ≤ k →
  rep buf w out → w + length e ≤ n + off →
  ∃ buf', copy_element k p buf r w = Val (buf', r + length e, w + length e) ∧ rep buf' (w + length e) (out ++ e).
Proof.
  revert k buf r w out. induction e as [|c e IH]; intros k buf r w out Hd He Htl Hk Hrep Hw.
  - exists buf. rewrite app_nil_r, !Nat.add_0_r. split; [|done]. destruct k as [|k]; [done|]. simpl.
    case_bool_decide as Hr; [|done]. destruct Htl as [->|[t ->]].
    + exfalso. assert (length (drop r p) = 0) as H by (by rewrite Hd). rewrite length_drop in H. lia.
    + unfold index. replace (p !! r) with (Some slash); [done|].
      rewrite <- (Nat.add_0_r r), <- lookup_drop. by rewrite Hd.
  - destruct k as [|k]; simpl in Hk; [lia|]. apply Forall_cons in He as [Hc He]. simpl.
    assert (p !! r = Some c) as Hp by (rewrite <- (Nat.add_0_r r), <- lookup_drop, Hd; done).
    rewrite bool_decide_eq_true_2 by (by eapply lookup_lt_Some). unfold index. rewrite Hp. simpl.
    rewrite bool_decide_eq_false_2 by done.
    destruct (bufApp_rep buf w out c Hrep) as (buf1 & -> & Hrep1); [simpl in Hw; lia|]. simpl.
    destruct (IH k buf1 (S r) (S w) (out ++ [c])) as (buf2 & -> & Hrep2); try done; try (simpl in *; lia).
    { replace (S r) with (r + 1) by lia. rewrite <- drop_drop, Hd. done. }
    exists buf2. rewrite <- app_assoc in Hrep2. simpl in *.
    replace (w + S (length e)) with (S (w + length e)) by lia.
    replace (r + S (length e)) with (S (r + length e)) by lia. done.
Qed.

(** ** Going back over an element *)

Lemma backtrack_SS b m :
  backtrack b (S (S m)) =
  (c ← index b (S (S m)); if bool_decide (c = slash) then Val (S (S m)) else backtrack b (S m)).
Proof. done. Qed.

Lemma backtrack_run b k e :
  no_slash e → (∀ i, i < length e → b !! (k + 1 + i) = e !! i) →
  b !! k = Some slash → 0 < length e →
  backtrack b (k + length e) = Val (if bool_decide (k ≤ 1) then 1 else k).
Proof.
  intros He Hb Hk. induction e as [|c e IH] using rev_ind; intros Hlen; [simpl in Hlen; lia|].
  rewrite length_app in *. simpl length in *. apply Forall_app in He as [He Hc].
  apply Forall_cons in Hc as [Hc _].
  assert (b !! (k + (length e + 1)) = Some c) as Hlast.
  { replace (k + (length e + 1)) with (k + 1 + length e) by lia. rewrite Hb by lia.
    by rewrite lookup_app_r, Nat.sub_diag by done. }
  assert (backtrack b (k + length e) = Val (if bool_decide (k ≤ 1) then 1 else k) ∨ (k = 0 ∧ length e = 0)) as Hrec.
  { destruct e as [|x e].
    - destruct k as [|[|k]]; [by right|left; by rewrite Nat.add_0_r|left]. rewrite Nat.add_0_r.
      cbn [backtrack]. unfold index. by rewrite Hk.
    - left. apply IH; [done| |simpl; lia]. intros i Hi. rewrite Hb by lia. by rewrite lookup_app_l. }
  destruct Hrec as [Hrec|[-> Hz]].
  - destruct (k + (length e + 1)) as [|[|m]] eqn:Hm; [lia| |].
    + replace k with 0 by lia. done.
    + rewrite backtrack_SS. unfold index. rewrite Hlast. cbn [mbind go_bind].
      rewrite (bool_decide_eq_false_2 (c = slash)) by done.
      replace (S m) with (k + length e) by lia. exact Hrec.
  - rewrite Hz. done.
Qed.

(** Elements as they are kept: not empty and without a slash. *)
Definition elements_ok (st : list bytes) : Prop := Forall (λ e, no_slash e ∧ e ≠ []) st.

Lemma output_cons e st : output (e :: st) = joined st ++ slash :: e.
Proof. done. Qed.

Lemma length_joined st : st ≠ [] → elements_ok st → 1 < length (joined st).
Proof.
  destruct st as [|e st]; [done|]. intros _ [[_ He] _]%Forall_cons. simpl. rewrite length_app. simpl.
  destruct e; [done|]. simpl. lia.
Qed.

Lemma length_output st : elements_ok st → 0 < length (output st) ∧ (1 < length (output st) ↔ st ≠ []).
Proof.
  intros Hok. destruct st as [|e st]; [simpl; split; [lia|split; [lia|done]]|]. pose proof (length_joined (e :: st) ltac:(done) Hok).
  split; [simpl in *; lia|done].
Qed.

Lemma backtrack_rep buf w e st :
  rep buf w (output (e :: st)) → elements_ok (e :: st) →
  ∃ w', backtrack (content buf) (w - 1) = Val w' ∧ w' < w ∧ rep buf w' (output st).
Proof.
  intros (Hw & Ht & Hl) Hok. apply Forall_cons in Hok as [[He Hne] Hok]. rewrite output_cons in *.
  set (k := length (joined st)) in *.
  assert (w = k + 1 + length e) as Hwk by (rewrite Hw, length_app; simpl; lia).
  assert (0 < length e) by (destruct e; [done|simpl; lia]).
  assert (∀ i, i < w → content buf !! i = (joined st ++ slash :: e) !! i) as Hlook.
  { intros i Hi. rewrite <- Ht. by rewrite lookup_take_lt. }
  exists (length (output st)). replace (w - 1) with (k + length e) by lia.
  rewrite backtrack_run; [|done| | |done].
  - split_and!.
    + destruct st as [|e' st]; [done|]. rewrite bool_decide_eq_false_2; [done|].
      pose proof (length_joined (e' :: st) ltac:(done) Hok) as HJ. fold k in HJ. lia.
    + destruct st as [|e' st]; [simpl; lia|]. change (output (e' :: st)) with (joined (e' :: st)). fold k. lia.
    + split; [done|]. split; [|done]. destruct st as [|e' st].
      * simpl. destruct (content buf) as [|c l] eqn:E; [simpl in Hl; specialize (Hlook 0 ltac:(lia)); done|].
        specialize (Hlook 0 ltac:(lia)). simpl in Hlook. by injection Hlook as ->.
      * change (output (e' :: st)) with (joined (e' :: st)). fold k.
        transitivity (take k (take w (content buf))); [rewrite take_take; f_equal; lia|].
        rewrite Ht. apply take_app_length.
  - intros i Hi. rewrite Hlook by lia. rewrite lookup_app_r by lia.
    replace (k + 1 + i - length (joined st)) with (S i) by lia. done.
  - rewrite Hlook by lia. rewrite lookup_app_r by lia. by replace (k - length (joined st)) with 0 by lia.
Qed.

(** ** The loop *)

Lemma byte_is_drop r c x rest : drop r p = x :: rest → byte_is p r c = Val (bool_decide (x = c)).
Proof.
  intros Hd. unfold byte_is, index. replace (p !! r) with (Some x); [done|].
  rewrite <- (Nat.add_0_r r), <- lookup_drop. by rewrite Hd.
Qed.

Lemma drop_more r k l rest : drop r p = l ++ rest → length l = k → drop (r + k) p = rest.
Proof. intros Hd <-. rewrite <- drop_drop, Hd. by rewrite drop_app_length. Qed.

Lemma step_element_ok st e : elements_ok st → no_slash e → elements_ok (step_element st e).
Proof.
  intros Hst He. unfold step_element. repeat case_bool_decide; try done.
  - destruct Hst; [constructor|done].
  - by constructor.
Qed.

(** What the loop has done when it ends: the room left for a trailing slash when the
    path ends in a slash or a dot. *)
Definition loop_post (rest : bytes) (s : nat) (st : list bytes) (trailing : bool)
    (res : option bytes * nat * bool) : Prop :=
  let '(buf, w, tr) := res in
  rep buf w (output (foldl step_element st (elements rest)))
  ∧ elements_ok (foldl step_element st (elements rest))
  ∧ tr = trailing || bool_decide (last (elements rest) = Some [dot])
  ∧ (last (elements rest) = Some [] ∨ last (elements rest) = Some [dot] →
     w + (if bool_decide (rest = []) then s else 1) ≤ n + off).

(** A turn that reads [l] (which ends an element, or is a slash) and keeps to the
    invariant leaves the rest to the loop. *)
Lemma loop_post_app l rest s s0 st st' trailing trailing' res :
  foldl step_element st (elements (l ++ rest)) = foldl step_element st' (elements rest) →
  trailing' || bool_decide (last (elements rest) = Some [dot])
    = trailing || bool_decide (last (elements (l ++ rest)) = Some [dot]) →
  (rest ≠ [] → last (elements (l ++ rest)) = last (elements rest)) → l ≠ [] →
  (rest = [] → (last (elements l) = Some [] ∨ last (elements l) = Some [dot]) → s = 1) →
  loop_post rest s st' trailing' res → loop_post (l ++ rest) s0 st trailing res.
Proof.
  destruct res as [[buf w] tr]. intros Hf Htr Hlast Hl Hs (Hrep & Hok & -> & Hroom).
  unfold loop_post. rewrite Hf. split_and!; [done|done|done|]. intros Hor.
  rewrite (bool_decide_eq_false_2 (l ++ rest = [])) by (by destruct l).
  destruct (decide (rest = [])) as [->|Hne].
  - rewrite app_nil_r in Hor. specialize (Hs eq_refl Hor). subst s.
    apply Hroom. simpl. by left.
  - rewrite Hlast in Hor by done. specialize (Hroom Hor). by rewrite bool_decide_eq_false_2 in Hroom.
Qed.

(** The tests of the switch on an element that starts at [r]. *)
Definition is_last_dot r : go bool := and_then (byte_is p r dot) (Val (bool_decide (r + 1 = n))).
Definition is_dot r : go bool := and_then (byte_is p r dot) (byte_is p (r + 1) slash).
Definition is_dots r : go bool :=
  and_then (byte_is p r dot) (and_then (byte_is p (r + 1) dot)
    (if bool_decide (r + 2 = n) then Val true else byte_is p (r + 2) slash)).

Lemma drop_length r rest : drop r p = rest → rest ≠ [] → r + length rest = n.
Proof. intros <- Hne. rewrite length_drop. destruct (decide (r ≤ n)); [lia|]. by rewrite drop_ge in Hne by lia. Qed.

Lemma tests_real r e tl :
  drop r p = e ++ tl → no_slash e → e ≠ [] → e ≠ [dot] → e ≠ [dot; dot] →
  is_last_dot r = Val false ∧ is_dot r = Val false ∧ is_dots r = Val false.
Proof.
  intros Hd He H0 H1 H2. destruct e as [|x e]; [done|]. apply Forall_cons in He as [Hx He].
  assert (r + length ((x :: e) ++ tl) = n) as Hn by (by apply drop_length).
  unfold is_last_dot, is_dot, is_dots. rewrite (byte_is_drop r dot x (e ++ tl)) by done. simpl.
  case_bool_decide as Hxd; [subst x|done]. simpl.
  destruct e as [|y e]; [done|]. apply Forall_cons in He as [Hy He].
  assert (drop (r + 1) p = y :: (e ++ tl)) as Hd1 by (by apply (drop_more r 1 [dot])).
  rewrite !(byte_is_drop _ _ _ _ Hd1). simpl in Hn.
  rewrite (bool_decide_eq_false_2 (r + 1 = n)), (bool_decide_eq_false_2 (y = slash)) by (done || lia).
  split_and!; [done|done|]. simpl. case_bool_decide as Hyd; [subst y|done].
  destruct e as [|z e]; [done|]. apply Forall_cons in He as [Hz He]. simpl in Hn.
  rewrite bool_decide_eq_false_2 by lia.
  rewrite (byte_is_drop _ _ z (e ++ tl)) by (by apply (drop_more r 2 [dot; dot])).
  by rewrite bool_decide_eq_false_2.
Qed.

Lemma tests_dot r tl :
  drop r p = dot :: tl → tl = [] ∨ (∃ t, tl = slash :: t) →
  is_last_dot r = Val (bool_decide (tl = [])) ∧ (tl ≠ [] → is_dot r = Val true).
Proof.
  intros Hd Htl. assert (r + length (dot :: tl) = n) as Hn by (by apply drop_length). simpl in Hn.
  unfold is_last_dot, is_dot. rewrite (byte_is_drop r dot dot tl) by done. simpl.
  destruct Htl as [->|[t ->]]; simpl in Hn.
  - split; [|done]. by rewrite bool_decide_eq_true_2 by lia.
  - rewrite bool_decide_eq_false_2 by lia. split; [done|]. intros _.
    by rewrite (byte_is_drop _ _ slash t) by (by apply (drop_more r 1 [dot])).
Qed.

Lemma tests_dots r tl :
  drop r p = dot :: dot :: tl → tl = [] ∨ (∃ t, tl = slash :: t) →
  is_last_dot r = Val false ∧ is_dot r = Val false ∧ is_dots r = Val true.
Proof.
  intros Hd Htl. assert (r + length (dot :: dot :: tl) = n) as Hn by (by apply drop_length). simpl in Hn.
  unfold is_last_dot, is_dot, is_dots. rewrite (byte_is_drop r dot dot (dot :: tl)) by done. simpl.
  assert (drop (r + 1) p = dot :: tl) as Hd1 by (by apply (drop_more r 1 [dot])).
  rewrite !(byte_is_drop _ _ _ _ Hd1). rewrite bool_decide_eq_false_2 by lia.
  split_and!; [done|done|]. simpl. destruct Htl as [->|[t ->]]; simpl in Hn.
  - by rewrite bool_decide_eq_true_2 by lia.
  - rewrite bool_decide_eq_false_2 by lia.
    by rewrite (byte_is_drop _ _ slash t) by (by apply (drop_more r 2 [dot; dot])).
Qed.

(** One turn of the loop, with the tests by name. *)
Lemma loop_S fuel buf r w trailing :
  loop (S fuel) p buf r w trailing =
  if bool_decide (r < n) then
    is_slash ← byte_is p r slash;
    if (is_slash : bool) then loop fuel p buf (S r) w trailing
    else
      last_dot ← is_last_dot r;
      if (last_dot : bool) then loop fuel p buf (S r) w true
      else
        one_dot ← is_dot r;
        if (one_dot : bool) then loop fuel p buf (S r) w trailing
        else
          two_dots ← is_dots r;
          if (two_dots : bool) then
            w ← (if bool_decide (1 < w) then backtrack (content buf) (w - 1) else Val w);
            loop fuel p buf (r + 2) w trailing
          else
            '(buf, w) ← (if bool_decide (1 < w) then buf ← bufApp buf p w slash; Val (buf, S w) else Val (buf, w));
            '(buf, r, w) ← copy_element (n - r) p buf r w;
            loop fuel p buf r w trailing
  else Val (buf, w, trailing).
Proof. done. Qed.

(** The invariant at the head of the loop; [s] is the room a consumed slash left. *)
Record loop_inv (rest : bytes) (s : nat) (st : list bytes) (buf : option bytes) (r w : nat) : Prop := mkLoopInv {
  li_rest : drop r p = rest;
  li_ok : elements_ok st;
  li_rep : rep buf w (output st);
  li_room : w + length rest + s ≤ n + off;
  li_slack : ∀ c t, rest = c :: t → c ≠ slash → st ≠ [] → s = 1;
}.

Lemma rep_width buf w st : rep buf w (output st) → elements_ok st → bool_decide (1 < w) = negb (bool_decide (st = [])).
Proof.
  intros (-> & _) Hok. destruct (length_output st Hok) as [_ H]. repeat case_bool_decide; naive_solver.
Qed.

(** Taking an element away. *)
Lemma dots_rep buf w st :
  rep buf w (output st) → elements_ok st →
  ∃ w', (if bool_decide (1 < w) then backtrack (content buf) (w - 1) else Val w) = Val w' ∧ w' ≤ w
    ∧ rep buf w' (output (tail st)) ∧ elements_ok (tail st).
Proof.
  intros Hrep Hok. rewrite (rep_width buf w st) by done. destruct st as [|e st]; simpl negb; cbn iota.
  - exists w. done.
  - destruct (backtrack_rep buf w e st Hrep Hok) as (w' & Hb & Hlt & Hrep'). exists w'.
    split_and!; [exact Hb|lia|done|by inversion Hok].
Qed.

(** Adding an element, behind a slash unless it is the first. *)
Lemma element_rep buf r w e tl st s :
  loop_inv (e ++ tl) s st buf r w → no_slash e → e ≠ [] → tl = [] ∨ (∃ t, tl = slash :: t) →
  ∃ buf' w',
    ('(buf, w) ← (if bool_decide (1 < w) then buf ← bufApp buf p w slash; Val (buf, S w) else Val (buf, w));
     copy_element (n - r) p buf r w) = Val (buf', r + length e, w')
    ∧ rep buf' w' (output (e :: st)) ∧ w' + length tl ≤ n + off.
Proof.
  intros [Hd Hok Hrep Hroom Hslack] He Hne Htl. rewrite (rep_width buf w st) by done.
  rewrite length_app in Hroom.
  assert (length e ≤ n - r) as Hk by (rewrite <- length_drop, Hd, length_app; lia).
  destruct st as [|e' st]; simpl negb; cbn iota.
  - destruct (copy_element_rep (n - r) e tl buf r w (output []) Hd He Htl Hk Hrep) as (buf' & Hc & Hrep'); [lia|].
    exists buf', (w + length e). split; [exact Hc|]. split; [exact Hrep'|lia].
  - assert (s = 1) as ->.
    { destruct e as [|c e]; [done|]. apply Forall_cons in He as [Hc _]. by apply (Hslack c (e ++ tl)). }
    destruct (bufApp_rep buf w (output (e' :: st)) slash Hrep) as (buf1 & Hb & Hrep1); [lia|].
    rewrite Hb. cbn [mbind go_bind].
    destruct (copy_element_rep (n - r) e tl buf1 r (S w) _ Hd He Htl Hk Hrep1) as (buf' & Hc & Hrep'); [lia|].
    exists buf', (S w + length e). split; [exact Hc|]. split; [|lia].
    by rewrite <- app_assoc in Hrep'.
Qed.

(** The loop after an element [e] it turned into [step_element st e]. *)
Lemma loop_post_element e tl s s0 st trailing trailing' res :
  no_slash e → e ≠ [] → tl = [] ∨ (∃ t, tl = slash :: t) →
  trailing' = trailing || (bool_decide (tl = []) && bool_decide (e = [dot])) →
  (tl = [] → e = [dot] → s = 1) →
  loop_post tl s (step_element st e) trailing' res → loop_post (e ++ tl) s0 st trailing res.
Proof.
  intros He Hne Htl -> Hs. apply loop_post_app.
  - by apply fold_elements.
  - rewrite last_elements by done. destruct Htl as [->|[t ->]]; simpl.
    + rewrite orb_false_r. f_equal. by repeat case_bool_decide; simplify_eq.
    + by rewrite orb_false_r.
  - intros Htl'. rewrite last_elements by done. by rewrite bool_decide_eq_false_2.
  - done.
  - intros -> Hor. pose proof (last_elements e [] He ltac:(by left)) as Hl. rewrite app_nil_r in Hl. rewrite Hl in Hor.
    simpl in Hor. destruct Hor as [[= ->]|[= ->]]; [done|auto].
Qed.

Lemma loop_run fuel rest s st buf r w trailing :
  length rest ≤ fuel → loop_inv rest s st buf r w →
  ∃ res, loop fuel p buf r w trailing = Val res ∧ loop_post rest s st trailing res.
Proof.
  revert rest s st buf r w trailing. induction fuel as [fuel IH] using lt_wf_ind.
  intros rest s st buf r w trailing Hf Hinv.
  destruct rest as [|x t0].
  { exists (buf, w, trailing). destruct Hinv as [Hd Hok Hrep Hroom _]. split.
    - destruct fuel; [done|]. rewrite loop_S. rewrite bool_decide_eq_false_2; [done|].
      intros Hr. assert (length (drop r p) = 0) as H by (by rewrite Hd). rewrite length_drop in H. lia.
    - unfold loop_post. simpl. split_and!; [done|done|by rewrite orb_false_r|intros _; simpl in Hroom; lia]. }
  destruct fuel as [|fuel]; [simpl in Hf; lia|].
  pose proof Hinv as [Hd Hok Hrep Hroom Hslack].
  assert (r + length (x :: t0) = n) as Hn by (by apply drop_length).
  rewrite loop_S. rewrite bool_decide_eq_true_2 by (simpl in Hn; lia).
  rewrite (byte_is_drop r slash x t0) by done. cbn [mbind go_bind].
  case_bool_decide as Hx.
  { subst x. destruct (IH fuel ltac:(lia) t0 1 st buf (S r) w trailing) as (res & -> & Hpost).
    - simpl in Hf. lia.
    - split; [|done|done|simpl in Hroom; lia|done]. replace (S r) with (r + 1) by lia. by apply (drop_more r 1 [slash]).
    - exists res. split; [done|]. change (slash :: t0) with ([slash] ++ t0).
      eapply loop_post_app; [..|exact Hpost]; try done.
      + simpl. by destruct (elements_nonempty t0) as (e & es & ->).
      + intros _. simpl. by destruct (elements_nonempty t0) as (e & es & ->). }
  destruct (span_element (x :: t0)) as (e & tl & Heq & He & Htl).
  assert (e ≠ []) as Hne.
  { intros ->. destruct Htl as [->|[t ->]]; simpl in Heq; [done|]. by injection Heq as -> _. }
  rewrite Heq in *. clear Heq Hx x t0. rewrite length_app in *.
  assert (∀ s' st' buf' w' k, k = length e → elements_ok st' → rep buf' w' (output st') →
    w' + length tl + s' ≤ n + off → loop_inv tl s' st' buf' (r + k) w') as Hnext.
  { intros s' st' buf' w' k -> ? ? ?. split; [by apply (drop_more r _ e)|done|done|done|].
    intros c t -> Hc. by destruct Htl as [|[? [= -> _]]]. }
  assert (0 < length e) by (destruct e; [done|simpl; lia]).
  destruct (decide (e = [dot])) as [->|H1]; [|destruct (decide (e = [dot; dot])) as [->|H2]].
  - destruct (tests_dot r tl Hd Htl) as [-> Hdot]. cbn [mbind go_bind]. simpl length in *.
    assert (loop_inv tl 1 st buf (S r) w) as Hinv' by (replace (S r) with (r + 1) by lia; apply Hnext; done || lia).
    case_bool_decide as Htl0.
    + destruct (IH fuel ltac:(lia) tl 1 st buf (S r) w true) as (res & -> & Hpost); [lia|done|].
      exists res. split; [done|]. eapply loop_post_element; [done|done|done| |done|exact Hpost].
      rewrite bool_decide_eq_true_2 by done. by rewrite orb_true_r.
    + rewrite Hdot by done. cbn [mbind go_bind].
      destruct (IH fuel ltac:(lia) tl 1 st buf (S r) w trailing) as (res & -> & Hpost); [lia|done|].
      exists res. split; [done|]. eapply loop_post_element; [done|done|done| |done|exact Hpost].
      rewrite bool_decide_eq_false_2 by done. by rewrite orb_false_r.
  - destruct (tests_dots r tl Hd Htl) as (-> & -> & ->). cbn [mbind go_bind]. simpl length in *.
    destruct (dots_rep buf w st Hrep Hok) as (w' & -> & Hle & Hrep' & Hok'). cbn [mbind go_bind].
    destruct (IH fuel ltac:(lia) tl 1 (tail st) buf (r + 2) w' trailing) as (res & -> & Hpost);
      [lia|apply Hnext; done || lia|].
    exists res. split; [done|]. eapply loop_post_element; [done|done|done| |done|exact Hpost].
    rewrite (bool_decide_eq_false_2 ([dot; dot] = [dot])) by done. by rewrite andb_false_r, orb_false_r.
  - destruct (tests_real r e tl Hd He Hne H1 H2) as (-> & -> & ->). cbn [mbind go_bind].
    destruct (element_rep buf r w e tl st s) as (buf' & w' & Hcopy & Hrep' & Hroom'); [done..|].
    assert (step_element st e = e :: st) as Hst.
    { unfold step_element. by rewrite !bool_decide_eq_false_2 by done. }
    destruct (IH fuel ltac:(lia) tl 0 (e :: st) buf' (r + length e) w' trailing) as (res & Hloop & Hpost);
      [lia|apply Hnext; [done|by constructor|done|lia]|].
    exists res. split.
    + destruct (if bool_decide (1 < w) then _ else _) as [[buf1 w1]|]; cbn [mbind go_bind] in *; [|done].
      rewrite Hcopy. exact Hloop.
    + eapply loop_post_element; [done|done|done| | |by rewrite Hst].
      * rewrite (bool_decide_eq_false_2 (e = [dot])) by done. by rewrite andb_false_r, orb_false_r.
      * done.
Qed.

(** The end: the trailing slash and the slice. *)
Definition finish (res : option bytes * nat * bool) : go bytes :=
  let '(buf, w, trailing) := res in
  '(buf, w) ← (if trailing && bool_decide (1 < w) then buf ← bufApp buf p w slash; Val (buf, S w) else Val (buf, w));
  let b := content buf in
  if bool_decide (w ≤ length b) then Val (take w b) else gopanic SliceOutOfRange.

Lemma finish_spec rest trailing res :
  loop_post rest 0 [] trailing res →
  (trailing = true → rest ≠ [] ∧ last (elements rest) = Some []) →
  let st := foldl step_element [] (elements rest) in
  finish res = Val (output st ++ if (trailing || bool_decide (last (elements rest) = Some [dot]))
                                    && negb (bool_decide (st = [])) then [slash] else []).
Proof.
  intros Hpost Htr st. destruct res as [[buf w] tr]. destruct Hpost as (Hrep & Hok & -> & Hroom). fold st in Hrep, Hok.
  unfold finish. rewrite (rep_width buf w st) by done.
  destruct ((trailing || _) && negb (bool_decide (st = []))) eqn:Hb.
  - apply andb_true_iff in Hb as [Hor _].
    assert (w < n + off) as Hlt.
    { assert (rest ≠ [] ∧ (last (elements rest) = Some [] ∨ last (elements rest) = Some [dot])) as [Hne Hl].
      { destruct trailing; [destruct Htr as [? ->]; auto|]. simpl in Hor. apply bool_decide_eq_true in Hor.
        split; [intros ->; done|by right]. }
      specialize (Hroom Hl). rewrite bool_decide_eq_false_2 in Hroom by done. lia. }
    destruct (bufApp_rep buf w (output st) slash Hrep Hlt) as (buf' & -> & (Hw & Ht & Hl)). cbn [mbind go_bind].
    rewrite bool_decide_eq_true_2 by lia. by rewrite Ht.
  - cbn [mbind go_bind]. destruct Hrep as (Hw & Ht & Hl). rewrite app_nil_r.
    rewrite bool_decide_eq_true_2; [by rewrite Ht|].
    rewrite <- Ht in Hw. rewrite length_take in Hw. lia.
Qed.

End clean.

Lemma elements_snoc q : elements (q ++ [slash]) = elements q ++ [[]].
Proof.
  induction q as [|c q IH]; [done|]. simpl. rewrite IH. case_bool_decide; [done|].
  by destruct (elements_nonempty q) as (e & es & ->).
Qed.

Lemma last_slash p : last p = Some slash → last (elements p) = Some [].
Proof. intros [q ->]%last_Some. by rewrite elements_snoc, last_snoc. Qed.

Lemma byte_is_last p c : p ≠ [] → byte_is p (length p - 1) c = Val (bool_decide (last p = Some c)).
Proof.
  intros Hne. unfold byte_is, index.
  replace (p !! (length p - 1)) with (last p) by (rewrite last_lookup; f_equal; lia).
  destruct (last p) as [x|] eqn:E; [|by apply last_None in E]. simpl. f_equal. apply bool_decide_ext. naive_solver.
Qed.

(** cleanPath by parts. *)
Lemma cleanPath_bytes_spec p : cleanPath_bytes p = Val (clean_spec p).
Proof.
  destruct p as [|c p]; [reflexivity|]. unfold cleanPath_bytes. set (q := c :: p).
  assert (and_then (Val (bool_decide (2 < length q))) (byte_is q (length q - 1) slash)
          = Val (bool_decide (2 < length q) && bool_decide (last q = Some slash))) as Htr.
  { unfold and_then, mbind, go_bind. destruct (bool_decide (2 < length q)); [|done]. by apply byte_is_last. }
  destruct (decide (c = slash)) as [Hc|Hc].
  - rewrite (bool_decide_eq_false_2 (c ≠ slash)) by (intros H; by apply H). cbn [mbind go_bind]. rewrite Htr. cbn [mbind go_bind].
    destruct (loop_run q 0 (length q) p 0 [] None 1 1
      (bool_decide (2 < length q) && bool_decide (last q = Some slash))) as (res & Hl & Hpost).
    { simpl. lia. }
    { split; [done|constructor| |simpl; lia|by intros ????]. split_and!; [done|by subst q c|simpl; lia]. }
    rewrite Hl. cbn [mbind go_bind].
    pose proof (finish_spec q 0 p _ res Hpost) as Hfin.
    destruct res as [[buf w] tr]. etrans; [apply Hfin|].
    + intros [H2%bool_decide_eq_true Hlast%bool_decide_eq_true]%andb_true_iff. subst q.
      assert (p ≠ []) as Hp by (intros ->; simpl in H2; lia). split; [done|]. apply last_slash.
      by destruct p.
    + unfold clean_spec, has_trailing. subst q c. change (elements (slash :: p)) with ([] :: elements p).
      by destruct (elements_nonempty p) as (e & es & ->).
  - rewrite (bool_decide_eq_true_2 (c ≠ slash)) by done. unfold set_index at 1.
    destruct (replicate (length q + 1) nul !! 0) eqn:E; [|by apply lookup_replicate_None in E; lia].
    cbn [mbind go_bind]. rewrite Htr. cbn [mbind go_bind].
    set (b := <[0 := slash]> (replicate (length q + 1) nul)).
    assert (length b = length q + 1) as Hb by (unfold b; by rewrite length_insert, length_replicate).
    assert (take 1 b = [slash]) as Ht.
    { subst b. replace (length q + 1) with (S (length q)) by lia. done. }
    destruct (loop_run q 1 (length q) q 0 [] (Some b) 0 1
      (bool_decide (2 < length q) && bool_decide (last q = Some slash))) as (res & Hl & Hpost).
    { lia. }
    { split; [done|constructor|done|simpl; lia|by intros ????]. }
    rewrite Hl. cbn [mbind go_bind].
    pose proof (finish_spec q 1 q _ res Hpost) as Hfin.
    destruct res as [[buf w] tr]. etrans; [apply Hfin|done].
    intros [_ Hlast%bool_decide_eq_true]%andb_true_iff. split; [done|]. by apply last_slash.
Qed.

(** ** Clean paths stay as they are *)

(** Elements that are neither empty nor dots. *)
Definition proper (st : list bytes) : Prop :=
  Forall (λ e, no_slash e ∧ e ≠ [] ∧ e ≠ [dot] ∧ e ≠ [dot; dot]) st.

Lemma elements_no_slash p : Forall no_slash (elements p).
Proof.
  induction p as [|c p IH]; simpl; [by repeat constructor|]. case_bool_decide; [by constructor; [constructor|]|].
  destruct (elements_nonempty p) as (e & es & He). rewrite He in *. apply Forall_cons in IH as [??].
  constructor; [by constructor|done].
Qed.

Lemma fold_proper st es : proper st → Forall no_slash es → proper (foldl step_element st es).
Proof.
  intros Hst Hes. revert st Hst. induction Hes as [|e es He _ IH]; intros st Hst; [done|]. simpl. apply IH.
  unfold step_element. repeat case_bool_decide; try done; [destruct Hst; [constructor|done]|by constructor].
Qed.

Lemma elements_joined st e : proper (e :: st) → elements (joined (e :: st)) = [] :: reverse (e :: st).
Proof.
  revert e. induction st as [|e' st IH]; intros e [(He & _) Hst]%Forall_cons.
  - simpl. rewrite <- (app_nil_r e) at 1. rewrite elements_app by done. simpl. by rewrite app_nil_r.
  - change (joined (e :: e' :: st)) with (joined (e' :: st) ++ slash :: e).
    assert (∀ q, elements (q ++ slash :: e) = elements q ++ [e]) as Hsnoc.
    { induction q as [|c q IHq]; simpl.
      - rewrite <- (app_nil_r e) at 1. rewrite elements_app by done. simpl. by rewrite app_nil_r.
      - rewrite IHq. case_bool_decide; [done|]. by destruct (elements_nonempty q) as (? & ? & ->). }
    rewrite Hsnoc, IH by done. by rewrite !reverse_cons.
Qed.

Lemma fold_push st es : proper es → foldl step_element st es = reverse es ++ st.
Proof.
  revert st. induction es as [|e es IH]; intros st Hes; [done|]. apply Forall_cons in Hes as [(? & ? & ? & ?) Hes].
  simpl. rewrite IH by done. rewrite reverse_cons, <- app_assoc. f_equal.
  unfold step_element. by rewrite !bool_decide_eq_false_2 by done.
Qed.

Lemma proper_reverse st : proper st → proper (reverse st).
Proof. apply Forall_reverse. Qed.

Lemma clean_output st (tr : bool) :
  proper st →
  let q := output st ++ (if tr && negb (bool_decide (st = [])) then [slash] else []) in
  clean_spec q = q.
Proof.
  intros Hst q. destruct st as [|e st].
  { subst q. rewrite andb_false_r. reflexivity. }
  subst q. simpl negb. rewrite andb_true_r. change (output (e :: st)) with (joined (e :: st)).
  pose proof (elements_joined st e Hst) as Hel. pose proof (proper_reverse _ Hst) as Hrev.
  assert (foldl step_element [] (elements (joined (e :: st))) = e :: st) as Hfold.
  { rewrite Hel. simpl. rewrite fold_push by done. by rewrite reverse_involutive, app_nil_r. }
  apply Forall_cons in Hst as [(He & Hne & Hd & _) Hst].
  assert (2 ≤ length (joined (e :: st))) as Hlen.
  { simpl. rewrite length_app. simpl. destruct e; [done|]. simpl. lia. }
  unfold clean_spec, has_trailing. destruct tr.
  - rewrite elements_snoc, last_snoc, foldl_app, Hfold. simpl foldl.
    rewrite last_snoc. rewrite length_app. change (length [slash]) with 1.
    rewrite (bool_decide_eq_true_2 (2 < _)) by lia. done.
  - rewrite app_nil_r, Hfold, Hel.
    replace (last ([] :: reverse (e :: st))) with (Some e) by (rewrite reverse_cons, app_comm_cons; by rewrite last_snoc).
    rewrite (bool_decide_eq_false_2 (Some e = Some [dot])) by congruence.
    assert (last (joined (e :: st)) ≠ Some slash) as Hlast.
    { simpl. destruct e as [|c e _] using rev_ind; [done|]. apply Forall_app in He as [_ Hc].
      apply Forall_cons in Hc as [Hc _]. rewrite app_comm_cons, app_assoc, last_snoc. congruence. }
    rewrite (bool_decide_eq_false_2 (last _ = _)) by done. rewrite andb_false_r. simpl. by rewrite app_nil_r.
Qed.

Lemma clean_spec_idem p : clean_spec (clean_spec p) = clean_spec p.
Proof. apply clean_output, fold_proper; [constructor|apply elements_no_slash]. Qed.

(** The bytes of the output are slashes and bytes of the path. *)
Lemma clean_spec_bytes (P : ascii → Prop) p : P slash → Forall P p → Forall P (clean_spec p).
Proof.
  intros Hs Hp. assert (Forall (Forall P) (elements p)) as Hel.
  { induction Hp as [|c p Hc _ IH]; simpl; [by repeat constructor|]. case_bool_decide; [by constructor|].
    destruct (elements_nonempty p) as (e & es & E). rewrite E in *. apply Forall_cons in IH as [? ?]. by repeat constructor. }
  assert (∀ st es, Forall (Forall P) st → Forall (Forall P) es → Forall (Forall P) (foldl step_element st es)) as Hfold.
  { intros st es Hst Hes. revert st Hst. induction Hes as [|e es He _ IH]; intros st Hst; [done|]. simpl. apply IH.
    unfold step_element. repeat case_bool_decide; try done; [by destruct Hst|by constructor]. }
  unfold clean_spec. specialize (Hfold [] (elements p) (Forall_nil_2 _) Hel). set (st := foldl step_element [] (elements p)) in *.
  apply Forall_app. split; [|case_match; by repeat constructor].
  assert (Forall P (joined st)) as Hj.
  { clearbody st. induction Hfold as [|e st He _ IH]; simpl; [constructor|]. apply Forall_app. split; [done|by constructor]. }
  destruct st; [by repeat constructor|done].
Qed.

(** C35. cleanPath, with its indices and its lazily made buffer, never reads or writes
    out of range and computes what its comment says: the elements of the path with
    empty ones and "." dropped and ".." removing its predecessor, behind slashes, with
    a trailing slash when the path ended in one or in ".". *)
Theorem cleanPath_correct (p : string) :
  cleanPath p = Val (String.string_of_list_ascii (clean_spec (String.list_ascii_of_string p))).
Proof. unfold cleanPath. by rewrite cleanPath_bytes_spec. Qed.

(** A cleaned path is clean: cleaning it again changes nothing, so a redirect to it
    is not redirected again. *)
Theorem cleanPath_idempotent (p : string) :
  ∃ q, cleanPath p = Val q ∧ cleanPath q = Val q.
Proof.
  unfold cleanPath. rewrite cleanPath_bytes_spec. eexists. split; [done|].
  rewrite cleanPath_bytes_spec, String.list_ascii_of_string_of_list_ascii. simpl. by rewrite clean_spec_idem.
Qed.

End cleanpath.
