(* ===== verification/CaseLookup.v ===== *)
(** * The case-insensitive lookup of gin: findCaseInsensitivePath of tree.go

    gin can redirect a request whose path has no route to the path of a route that
    differs from it in the case of letters ([redirectFixedPath] of gin.go; the
    console leaves this off).  The lookup walks the tree of RadixTree.v and returns the
    path as registered.  [redirectFixedPath] has it fix trailing slashes as well, so it is
    modelled and proved for both values of that flag.  The tables of package unicode are a
    class. *)

From stdpp Require Import prelude strings.
From Stdlib Require Import ZArith NArith Ascii.
From S2P Require Import Prelude GoStrings RadixTree RadixPatterns RadixInsert RadixBuild RadixTables SlashRedirect CleanPath.

(** ** Case *)

Definition is_ascii (a : ascii) : bool := N.ltb (N_of_ascii a) 128.

Definition lower (a : ascii) : ascii :=
  if N.leb 65 (N_of_ascii a) && N.leb (N_of_ascii a) 90 then ascii_of_N (N_of_ascii a + 32) else a.

Fixpoint slower (s : string) : string :=
  match s with EmptyString => EmptyString | String a s => String (lower a) (slower s) end.

(** [strings.ToLower] and [unicode.ToLower]. *)
Class UnicodeCase : Type := {
  ToLower : string → string;
  unicode_ToLower : N → N;
}.

(** What they do with ASCII. *)
Class UnicodeCaseLaws `{UnicodeCase} : Prop := {
  ToLower_ascii s : sforallb is_ascii s = true → ToLower s = slower s;
  unicode_ToLower_ascii a : is_ascii a = true → unicode_ToLower (N_of_ascii a) = N_of_ascii (lower a);
}.

(** ** The runes of a string *)

Definition RuneError : N := 65533.

(** utf8.DecodeRuneInString: a rune and its width; what is not UTF-8 is an error of width one. *)
Definition decode_rune (b0 : N) (rest : list N) : N * nat :=
  (let within lo hi b := N.leb lo b && N.leb b hi in
  let cont b := N.land b 63 in
  match rest with
  | b1 :: rest =>
      if N.ltb b0 128 then (b0, 1%nat)
      else if within 194 223 b0 && within 128 191 b1 then (N.land b0 31 * 64 + cont b1, 2%nat)
      else
        match rest with
        | b2 :: rest =>
            if within 224 239 b0 && within (if N.eqb b0 224 then 160 else 128) (if N.eqb b0 237 then 159 else 191) b1
               && within 128 191 b2
            then ((N.land b0 15 * 64 + cont b1) * 64 + cont b2, 3%nat)
            else
              match rest with
              | b3 :: _ =>
                  if within 240 244 b0 && within (if N.eqb b0 240 then 144 else 128) (if N.eqb b0 244 then 143 else 191) b1
                     && within 128 191 b2 && within 128 191 b3
                  then (((N.land b0 7 * 64 + cont b1) * 64 + cont b2) * 64 + cont b3, 4%nat)
                  else (RuneError, 1%nat)
              | [] => (RuneError, 1%nat)
              end
        | [] => (RuneError, 1%nat)
        end
  | [] => if N.ltb b0 128 then (b0, 1%nat) else (RuneError, 1%nat)
  end)%N.

(** [for i, r := range s]: the runes with their byte offsets; [skip] bytes of the current
    rune are left. *)
Fixpoint runes_from (skip i : nat) (bs : list N) : list (nat * N) :=
  match bs with
  | [] => []
  | b :: bs =>
      match skip with
      | S skip => runes_from skip (S i) bs
      | O => let '(r, w) := decode_rune b bs in (i, r) :: runes_from (w - 1) (S i) bs
      end
  end.

Definition runes (s : string) : list (nat * N) := runes_from 0 0 (N_of_ascii <$> chars s).

(** ** The lookup *)

Section lookup.
Context {H : Type} `{UnicodeCase}.
Implicit Types (n : node H) (fixTrailingSlash : bool).

Definition some {A} (o : option A) : bool := match o with Some _ => true | None => false end.

(** The children whose index is the byte [r] in either case, in order, until one finds a
    path; [outs] are their results. *)
Fixpoint try_children (r : N) (rs : list (nat * N)) (outs : list (go (string * bool))) (ci : string) (miss : bool) :
    go (string * bool) :=
  match rs with
  | [] => Val (ci, miss)
  | (i, index_) :: rs =>
      if N.eqb r (unicode_ToLower index_) then
        out ← index outs i;
        match out with
        | Val (out, true) => Val (ci +:+ out, true)
        | Val (_, false) => try_children r rs outs ci miss
        | Halt h => Halt h
        end
      else try_children r rs outs ci miss
  end.

(** The loop [for i := 0; i < len(n.indices); i++] that looks for a slash. *)
Definition slash_child (idx : string) (cs : list (node H)) (ci : string) : go (string * bool) :=
  match index_of "/" idx with
  | None => Val (ci, false)
  | Some i =>
      c ← index cs i;
      if Nat.eqb (String.length (path c)) 1 && has_handlers c then Val (ci +:+ "/", true)
      else if bool_decide (nType c = catchAll) then
        c2 ← index (children c) 0;
        Val (if has_handlers c2 then (ci +:+ "/", true) else (ci, false))
      else Val (ci, false)
  end.

(** The end of the walk at a node with another path. *)
Definition fix_slash fixTrailingSlash (p npath : string) (hs : option H) : string * bool :=
  if fixTrailingSlash then
    if bool_decide (p = "/") then ("", true)
    else if Nat.eqb (String.length p + 1) (String.length npath)
            && bool_decide (String.get (String.length p) npath = Some "/"%char)
            && bool_decide (ToLower p = ToLower (stake (String.length p) npath)) && some hs
    then (npath, true)
    else ("", false)
  else ("", false).

(** The path as registered, and whether there is one.  A turn of the loop that goes on at a
    child below a parameter is a call, whose path is put behind what was found. *)
Fixpoint findCaseInsensitivePath n (p : string) fixTrailingSlash : go (string * bool) :=
  match n with
  | Node npath wild _ _ idx cs hs _ =>
      if Nat.leb (String.length npath) (String.length p)
         && bool_decide (ToLower (stake (String.length npath) p) = ToLower npath) then
        let p := sdrop (String.length npath) p in
        match p with
        | EmptyString =>
            if some hs then Val (npath, true)
            else if fixTrailingSlash then slash_child idx cs npath
            else Val (npath, false)
        | String c _ =>
            if negb wild then
              try_children (unicode_ToLower (N_of_ascii c)) (runes idx)
                (map (λ n', findCaseInsensitivePath n' p fixTrailingSlash) cs) npath
                (fixTrailingSlash && bool_decide (p = "/") && some hs)
            else
              match cs with
              | [] => gopanic IndexOutOfRange
              | Node _ _ param _ _ ccs chs _ :: _ =>
                  let '(value, rest) := span_segment p in
                  let ci := npath +:+ value in
                  if bool_decide (rest = "") then
                    if some chs then Val (ci, true)
                    else if fixTrailingSlash && bool_decide (length ccs = 1) then
                      c1 ← index ccs 0;
                      Val (if bool_decide (path c1 = "/") && has_handlers c1 then (ci +:+ "/", true) else (ci, false))
                    else Val (ci, false)
                  else
                    match ccs with
                    | c1 :: _ =>
                        '(out, found) ← findCaseInsensitivePath c1 rest fixTrailingSlash;
                        Val (ci +:+ out, found)
                    | [] => Val (ci, fixTrailingSlash && Nat.eqb (String.length rest) 1)
                    end
              | Node _ _ catchAll _ _ _ _ _ :: _ => Val (npath +:+ p, true)
              | _ => gopanic (Panicked "invalid node type")
              end
        end
      else Val (fix_slash fixTrailingSlash p npath hs)
  end.

(** redirectFixedPath: the status and the path of the redirect. *)
Definition redirectFixedPath (method p : string) n (trailingSlash : bool) : go (option (Z * string)) :=
  p ← cleanpath.cleanPath p;
  r ← findCaseInsensitivePath n p trailingSlash;
  let '(fixedPath, found) := r in
  Val (if (found : bool) then Some (if bool_decide (method = "GET") then 301%Z else 307%Z, fixedPath) else None).

End lookup.

(** ** The reference *)

(** The registered spelling of a path a pattern matches without regard to case. *)
Fixpoint ci_match (ts : list tok) (p : string) : option string :=
  match ts with
  | [] => if bool_decide (p = "") then Some "" else None
  | TText s :: ts =>
      if Nat.leb (String.length s) (String.length p) && bool_decide (slower (stake (String.length s) p) = slower s)
      then (λ out, s +:+ out) <$> ci_match ts (sdrop (String.length s) p) else None
  | TParam _ :: ts =>
      if bool_decide (p = "") then None
      else let '(value, rest) := span_segment p in (λ out, value +:+ out) <$> ci_match ts rest
  | TAll _ :: _ => if HasPrefix p "/" then Some p else None
  end.

Lemma slower_app s t : slower (s +:+ t) = slower s +:+ slower t.
Proof. induction s as [|a s IH]; [done|]. rewrite sapp_cons. simpl. by rewrite IH. Qed.

Lemma length_slower s : String.length (slower s) = String.length s.
Proof. induction s as [|a s IH]; simpl; by rewrite ?IH. Qed.

Lemma lower_slash a : lower a = "/"%char ↔ a = "/"%char.
Proof. by destruct a as [[] [] [] [] [] [] [] []]. Qed.

Lemma slower_at_slash s t : slower s = slower t → at_slash s → at_slash t.
Proof.
  intros Heq [->|[q ->]]; destruct t as [|a t]; try done; [by left|].
  injection Heq as Ha _. right. exists t. f_equal. apply lower_slash. symmetry. exact Ha.
Qed.

(** Slashes stay where they are. *)
Lemma span_segment_slower p :
  span_segment (slower p) = (slower (span_segment p).1, slower (span_segment p).2).
Proof.
  induction p as [|a p IH]; [done|]. simpl. rewrite IH.
  rewrite (bool_decide_ext (lower a = "/"%char) (a = "/"%char)) by apply lower_slash.
  case_bool_decide; [done|]. by destruct (span_segment p).
Qed.

(** A text matches what is spelled like it. *)
Lemma ci_match_text_app s u ts p :
  slower u = slower s → ci_match (TText s :: ts) (u +:+ p) = (λ out, s +:+ out) <$> ci_match ts p.
Proof.
  intros Heq. assert (String.length s = String.length u) as Hl by (rewrite <- (length_slower s), <- Heq; apply length_slower).
  simpl. rewrite Hl, slength_app, stake_app, sdrop_app, (bool_decide_eq_true_2 (slower u = slower s)) by done.
  by rewrite (proj2 (Nat.leb_le _ _)) by lia.
Qed.

Lemma ci_match_text_inv s ts p out :
  ci_match (TText s :: ts) p = Some out →
  ∃ u p' out', p = u +:+ p' ∧ slower u = slower s ∧ out = s +:+ out' ∧ ci_match ts p' = Some out'.
Proof.
  simpl. destruct (Nat.leb _ _ && _) eqn:E; [|done]. apply andb_true_iff in E as [Hl Hs%bool_decide_eq_true].
  intros (out' & Ho & ->)%fmap_Some. exists (stake (String.length s) p), (sdrop (String.length s) p), out'.
  split_and!; [symmetry; apply stake_sdrop|done|done|done].
Qed.

(** The spelling found is the path up to case, and matches. *)
Lemma ci_match_sound ts p out :
  ci_match ts p = Some out → slower out = slower p ∧ ∃ ps, match_toks ts out = Some ps.
Proof.
  revert p out. induction ts as [|[s|x|x] ts IH]; intros p out.
  - simpl. case_bool_decide; [|done]. intros [= <-]. subst. eauto.
  - intros (u & p' & out' & -> & Hu & -> & Ho)%ci_match_text_inv. destruct (IH p' out' Ho) as [Hl [ps Hps]].
    rewrite !slower_app, Hu, Hl. split; [done|]. exists ps. simpl. by rewrite HasPrefix_app, sdrop_app.
  - simpl. case_bool_decide as Hp; [done|]. pose proof (span_segment_spec p) as Hs.
    destruct (span_segment p) as [v rest]. destruct Hs as (-> & Hv & Hr). intros (out' & Ho & ->)%fmap_Some.
    destruct (IH rest out' Ho) as [Hl [ps Hps]]. rewrite !slower_app, Hl. split; [done|].
    rewrite bool_decide_eq_false_2.
    + rewrite span_segment_app, Hps by (try done; by apply (slower_at_slash rest)). eauto.
    + intros Hnil. apply Hp. destruct v; [|done]. destruct rest as [|a rest]; [done|].
      rewrite sapp_nil_l in Hnil. by subst out'.
  - simpl. destruct (HasPrefix p "/") eqn:E; [|done]. intros [= <-]. rewrite E. eauto.
Qed.

Lemma sapp_inj_length (s t u v : string) : s +:+ u = t +:+ v → String.length s = String.length t → s = t ∧ u = v.
Proof.
  revert t. induction s as [|a s IH]; intros [|b t] Heq Hl; try done. rewrite !sapp_cons in Heq. injection Heq as -> Heq.
  injection Hl as Hl. by destruct (IH t Heq Hl) as [-> ->].
Qed.

(** A path that is matched in some spelling. *)
Lemma ci_match_complete ts p q ps :
  match_toks ts q = Some ps → slower q = slower p → ∃ out, ci_match ts p = Some out.
Proof.
  revert p q ps. induction ts as [|[s|x|x] ts IH]; intros p q ps Hm Heq; simpl in Hm.
  - case_bool_decide; [|done]. subst q. destruct p; [|done]. simpl. eauto.
  - destruct (HasPrefix q s) eqn:E; [|done]. apply HasPrefix_spec in E as [q' ->]. rewrite sdrop_app in Hm.
    rewrite slower_app in Heq.
    assert (p = stake (String.length s) p +:+ sdrop (String.length s) p) as Hp by (symmetry; apply stake_sdrop).
    assert (String.length s ≤ String.length p) as Hlen.
    { rewrite <- (length_slower p), <- Heq, slength_app, length_slower. lia. }
    rewrite Hp, slower_app in Heq. apply sapp_inj_length in Heq as [Hs Hq].
    2:{ rewrite !length_slower. symmetry. by apply slength_stake. }
    destruct (IH _ _ _ Hm Hq) as [out Ho]. rewrite Hp, ci_match_text_app, Ho by done. eauto.
  - case_bool_decide as Hq; [done|]. pose proof (span_segment_slower p) as Hsp. pose proof (span_segment_slower q) as Hsq.
    rewrite Heq, Hsp in Hsq. simpl. rewrite bool_decide_eq_false_2 by (intros ->; by destruct q).
    destruct (span_segment p) as [v rest], (span_segment q) as [v' rest']. simpl in Hsq. injection Hsq as _ Hr.
    apply fmap_Some in Hm as (ps' & Hm & _). destruct (IH rest rest' ps' Hm) as [out ->]; [done|]. eauto.
  - destruct (HasPrefix q "/") eqn:E; [|done]. apply HasPrefix_spec in E as [q' ->]. cbn [ci_match].
    destruct p as [|a p]; [done|]. injection Heq as Ha _. assert (a = "/"%char) as ->; [by apply lower_slash|].
    change (String "/" p) with ("/" +:+ p). rewrite HasPrefix_app. eauto.
Qed.

(** *** Normal forms and first bytes *)

Lemma ci_match_text_text s t ts p : ci_match (TText (s +:+ t) :: ts) p = ci_match (TText s :: TText t :: ts) p.
Proof.
  apply option_eq. intros out. split.
  - intros (u & p' & out' & -> & Hu & -> & Ho)%ci_match_text_inv. rewrite slower_app in Hu.
    rewrite <- (stake_sdrop (String.length s) u) in Hu |- *. rewrite slower_app in Hu.
    apply sapp_inj_length in Hu as [Hs Ht].
    + rewrite sapp_assoc, ci_match_text_app, ci_match_text_app, Ho by done. simpl. by rewrite sapp_assoc.
    + rewrite !length_slower. apply slength_stake.
      assert (String.length (slower u) = String.length (slower s +:+ slower t)) as Hl.
      { by rewrite <- (stake_sdrop (String.length s) u), slower_app, Hu. }
      rewrite slength_app, !length_slower in Hl. lia.
  - intros (u & p' & out' & -> & Hu & -> & Ho)%ci_match_text_inv.
    apply ci_match_text_inv in Ho as (v & p'' & out'' & -> & Hv & -> & Ho).
    rewrite <- !sapp_assoc, ci_match_text_app, Ho by (by rewrite !slower_app, Hu, Hv). done.
Qed.

Lemma ci_match_text_empty ts p : ci_match (TText "" :: ts) p = ci_match ts p.
Proof. pose proof (ci_match_text_app "" "" ts p eq_refl) as E. rewrite sapp_nil_l in E. rewrite E. by destruct (ci_match ts p). Qed.

Lemma ci_match_norm ts p : ci_match (norm ts) p = ci_match ts p.
Proof.
  revert p. induction ts as [|[s|x|x] ts IH]; intros p; [done| |..].
  - transitivity (ci_match (TText s :: norm ts) p).
    + cbn [norm]. destruct (norm ts) as [|[t|y|y] ts'] eqn:E; try (by rewrite ci_match_text_text);
        case_bool_decide; subst; by rewrite ?ci_match_text_empty.
    + simpl. by rewrite IH.
  - simpl. case_bool_decide; [done|]. destruct (span_segment p). by rewrite IH.
  - done.
Qed.

(** A path matches a route that is entered by its first byte, in either case. *)
Lemma ci_match_entered a ts p out :
  entered a (syms ts) → ci_match ts p = Some out → ∃ c q, p = String c q ∧ lower c = lower a.
Proof.
  revert p out. induction ts as [|[s|x|x] ts IH]; intros p out He Hm.
  - by apply entered_nil in He.
  - apply ci_match_text_inv in Hm as (u & p' & out' & -> & Hu & -> & Ho).
    destruct s as [|b s]; [destruct u; [|done]; by apply (IH p' out')|]. destruct u as [|c u]; [done|].
    exists c, (u +:+ p'). split; [done|]. injection Hu as -> _. destruct He as (x & zs & [= <- _] & [[= ->]|(_ & _ & ? & ?)]); done.
  - destruct He as (y & zs & [= <- _] & [?|(_ & _ & ? & ?)]); done.
  - destruct He as (y & zs & [= <- _] & [?|(-> & _ & _)]); [done|]. simpl in Hm. destruct (HasPrefix p "/") eqn:E; [|done].
    apply HasPrefix_spec in E as [q ->]. by exists "/"%char, q.
Qed.

(** *** ASCII *)

Definition ascii_toks (ts : list tok) : bool :=
  forallb (λ t, match t with TText s => sforallb is_ascii s | _ => true end) ts.

Lemma ascii_norm ts : ascii_toks (norm ts) = ascii_toks ts.
Proof.
  induction ts as [|[s|x|x] ts IH]; [done| |done..].
  change (ascii_toks (TText s :: ts)) with (sforallb is_ascii s && ascii_toks ts). rewrite <- IH. cbn [norm].
  destruct (norm ts) as [|[t|y|y] ts']; try (by case_bool_decide; subst). simpl. by rewrite sforallb_app, andb_assoc.
Qed.

Lemma ascii_stake k s : sforallb is_ascii s = true → sforallb is_ascii (stake k s) = true.
Proof. rewrite <- (stake_sdrop k s) at 1. rewrite sforallb_app. by intros [? _]%andb_true_iff. Qed.

Lemma ascii_sdrop k s : sforallb is_ascii s = true → sforallb is_ascii (sdrop k s) = true.
Proof. rewrite <- (stake_sdrop k s) at 1. rewrite sforallb_app. by intros [_ ?]%andb_true_iff. Qed.

Lemma ascii_pattern p : sforallb is_ascii p = true → ascii_toks (pattern_of p) = true.
Proof.
  unfold pattern_of. generalize (count_wild p). intros fuel. revert p. induction fuel as [|fuel IH]; intros p Hp.
  { simpl. by rewrite Hp. }
  cbn [parse_pattern]. pose proof (find_wild_spec p) as Hf. destruct (find_wild p) as [[[pre c] rest]|]; [|simpl; by rewrite Hp].
  destruct Hf as (-> & _ & _). rewrite sforallb_app in Hp. apply andb_true_iff in Hp as [Hpre Hrest].
  case_bool_decide.
  - pose proof (span_segment_spec rest) as Hs. destruct (span_segment rest) as [name tail]. destruct Hs as (-> & _ & _).
    simpl in Hrest. apply andb_true_iff in Hrest as [_ Hrest]. rewrite sforallb_app in Hrest. apply andb_true_iff in Hrest as [_ Ht].
    simpl. rewrite Hpre. case_bool_decide; [done|]. by apply IH.
  - simpl. unfold TrimSuffix. destruct (HasSuffix pre "/"); rewrite andb_true_r; [by apply ascii_stake|done].
Qed.

Lemma runes_ascii i s :
  sforallb is_ascii s = true →
  runes_from 0 i (N_of_ascii <$> chars s) = match s with
    | EmptyString => []
    | String a s => (i, N_of_ascii a) :: runes_from 0 (S i) (N_of_ascii <$> chars s)
    end.
Proof.
  destruct s as [|a s]; [done|]. intros [Ha _]%andb_true_iff. unfold is_ascii in Ha.
  assert (∀ bs, decode_rune (N_of_ascii a) bs = (N_of_ascii a, 1)) as Hd.
  { intros [|b bs]; unfold decode_rune; by rewrite Ha. }
  change (N_of_ascii <$> chars (String a s)) with (N_of_ascii a :: (N_of_ascii <$> chars s)).
  cbn [runes_from]. by rewrite Hd.
Qed.

(** ** The lookup is the reference *)

Section correct.
Context {H : Type} `{UnicodeCaseLaws}.
Implicit Types (n c : node H).
Context (fix_ : bool).

(** What a lookup may return: the registered spelling of the path for a route that
    matches it; and, with trailing slashes fixed, the spelling of the path with a slash added for a
    route that matches that, or a spelling of the path with its slash taken off. *)
Definition ci_hit (l : list (list tok * H)) (p out : string) : Prop :=
  Exists (λ r : list tok * H, ci_match r.1 p = Some out) l
  ∨ (fix_ = true ∧ Exists (λ r : list tok * H, ci_match r.1 (p +:+ "/") = Some out) l)
  ∨ (fix_ = true ∧ slower p = slower (out +:+ "/")).

(** A lookup finds one behind [ci], or no route matches the path. *)
Definition ci_found (m : go (string * bool)) (ci : string) (l : list (list tok * H)) (p : string) : Prop :=
  ∃ out found, m = Val (out, found)
    ∧ if (found : bool) then ∃ out', out = ci +:+ out' ∧ ci_hit l p out'
      else Forall (λ r : list tok * H, ci_match r.1 p = None) l.

Lemma ci_hit_app_l l k p out : ci_hit l p out → ci_hit (l ++ k) p out.
Proof. unfold ci_hit. rewrite !Exists_app. naive_solver. Qed.

Lemma ci_hit_app_r l k p out : ci_hit k p out → ci_hit (l ++ k) p out.
Proof. unfold ci_hit. rewrite !Exists_app. naive_solver. Qed.

Lemma ci_hit_prepend t l p p' pre out :
  (∀ ts q o, at_slash q → ci_match ts (p' +:+ q) = Some o → ci_match (t :: ts) (p +:+ q) = Some (pre +:+ o)) →
  (slower p' = slower (out +:+ "/") → slower p = slower ((pre +:+ out) +:+ "/")) →
  ci_hit l p' out → ci_hit (prepend t l) p (pre +:+ out).
Proof.
  intros Ht Hs [Hm|[[Hf Hm]|[Hf Hm]]]; [left|right; left; split; [done|]|right; right; auto];
    unfold prepend; apply Exists_fmap; (eapply Exists_impl; [exact Hm|]); intros r Hr.
  - specialize (Ht r.1 "" out). rewrite !sapp_nil_r in Ht. apply Ht; [by left|done].
  - apply Ht; [right; by exists ""|done].
Qed.

(** Children entered by another byte. *)
Lemma other_child a c b q :
  wf c = true → starts_with a c = true → lower b ≠ lower a → Forall (λ r : list tok * H, ci_match r.1 (String b q) = None) (routes_of c).
Proof.
  intros Hwf Ha Hb. apply Forall_forall. intros r Hr. destruct (ci_match r.1 (String b q)) as [out|] eqn:E; [|done].
  destruct (ci_match_entered a r.1 _ out (starts_entered a c r Hwf Ha Hr) E) as (? & ? & [= <- <-] & ?). done.
Qed.

Lemma same_byte a b :
  is_ascii a = true → is_ascii b = true →
  N.eqb (unicode_ToLower (N_of_ascii b)) (unicode_ToLower (N_of_ascii a)) = bool_decide (lower b = lower a).
Proof.
  intros Ha Hb. rewrite !unicode_ToLower_ascii by done. apply eq_true_iff_eq. rewrite N.eqb_eq, bool_decide_eq_true.
  split; [|by intros ->]. intros E. by rewrite <- (ascii_N_embedding (lower b)), E, ascii_N_embedding.
Qed.

Lemma try_children_found (f : node H → go (string * bool)) cs1 cs2 idx b q ci miss :
  (miss = true → fix_ = true ∧ String b q = "/") →
  Forall2 (λ c a, wf c = true ∧ starts_with a c = true) cs2 (chars idx) →
  sforallb is_ascii idx = true → is_ascii b = true →
  (∀ c a, c ∈ cs2 → wf c = true → starts_with a c = true → lower b = lower a → ci_found (f c) "" (routes_of c) (String b q)) →
  ci_found (try_children (unicode_ToLower (N_of_ascii b)) (runes_from 0 (length cs1) (N_of_ascii <$> chars idx))
    (map f (cs1 ++ cs2)) ci miss) ci (concat (map routes_of cs2)) (String b q).
Proof.
  intros Hmiss. revert cs1 idx. induction cs2 as [|c cs2 IH]; intros cs1 idx Hcs Hidx Hb Hf.
  { apply Forall2_nil_inv_l in Hcs. destruct idx; [|done]. exists ci, miss. split; [done|]. destruct miss; [|constructor].
    destruct (Hmiss eq_refl) as [-> Heq]. exists "". split; [by rewrite sapp_nil_r|]. right; right. by rewrite Heq. }
  destruct idx as [|a idx]; [by apply Forall2_cons_nil_inv in Hcs|]. cbn [chars] in Hcs.
  apply Forall2_cons in Hcs as [[Hc Ha] Hcs]. rewrite runes_ascii by done. simpl in Hidx. apply andb_true_iff in Hidx as [Haa Hidx].
  specialize (IH (cs1 ++ [c]) idx Hcs Hidx Hb). rewrite <- app_assoc, length_app, Nat.add_1_r in IH. cbn [app] in IH.
  destruct IH as (out & found & E & Hr); [intros c0 a0 Hin ???; apply (Hf c0 a0); [by right|done..]|].
  cbn [try_children map concat]. rewrite same_byte by done. case_bool_decide as Hba.
  - assert (map f (cs1 ++ c :: cs2) !! length cs1 = Some (f c)) as Hl.
    { rewrite map_app. cbn [map]. apply list_lookup_middle. by rewrite length_map. }
    unfold index at 1. rewrite Hl. cbn [mbind go_bind].
    destruct (Hf c a) as (out1 & [|] & -> & Hr1); [by left|done|done|done| |].
    + destruct Hr1 as (out' & -> & Hex). exists (ci +:+ out'), true. split; [done|]. exists out'. split; [done|].
      by apply ci_hit_app_l.
    + rewrite E.
      exists out, found. split; [done|]. destruct found; [|by apply Forall_app].
      destruct Hr as (out' & -> & Hex). exists out'. split; [done|]. by apply ci_hit_app_r.
  - rewrite E. exists out, found. split; [done|]. pose proof (other_child a c b q Hc Ha Hba) as Hnone.
    destruct found; [|by apply Forall_app]. destruct Hr as (out' & -> & Hex). exists out'. split; [done|]. by apply ci_hit_app_r.
Qed.

(** What a node's text and its own route contribute. *)
Lemma ci_found_text m s u l p :
  slower u = slower s → ci_found m s l p → ci_found m "" (prepend (TText s) l) (u +:+ p).
Proof.
  intros Hu (out & found & -> & Hr). exists out, found. split; [done|]. unfold prepend. destruct found.
  - destruct Hr as (out' & -> & Hex). exists (s +:+ out'). split; [done|]. eapply ci_hit_prepend; [| |exact Hex].
    + intros ts q o _ Hq. by rewrite sapp_assoc, ci_match_text_app, Hq.
    + intros Hq. by rewrite sapp_assoc, !(slower_app u), !(slower_app s), Hu, Hq.
  - apply Forall_fmap. eapply Forall_impl; [exact Hr|]. intros r Hn. cbn [compose fst]. by rewrite ci_match_text_app, Hn.
Qed.

Lemma ci_found_own m ci (hs : option H) l b q :
  ci_found m ci l (String b q) → ci_found m ci (own_route hs ++ l) (String b q).
Proof.
  intros (out & found & -> & Hr). exists out, found. split; [done|]. destruct found.
  - destruct Hr as (out' & -> & Hex). exists out'. split; [done|]. by apply ci_hit_app_r.
  - apply Forall_app. split; [|done]. destruct hs; [|done]. by apply Forall_singleton.
Qed.

Lemma entered_no_end a c : wf c = true → starts_with a c = true → Forall (λ r : list tok * H, ci_match r.1 "" = None) (routes_of c).
Proof.
  intros Hwf Ha. apply Forall_forall. intros r Hr. destruct (ci_match r.1 "") as [out|] eqn:E; [|done].
  by destruct (ci_match_entered a r.1 _ out (starts_entered a c r Hwf Ha Hr) E) as (? & ? & ? & _).
Qed.

Lemma children_no_end cs idx : wf_children cs idx = true → Forall (λ r : list tok * H, ci_match r.1 "" = None) (concat (map (@routes_of H) cs)).
Proof.
  intros [Hcs _]%wf_children_spec. induction Hcs as [|c a cs l [Hc Ha] _ IH]; [constructor|]. cbn [map concat].
  apply Forall_app. split; [by eapply entered_no_end|done].
Qed.

(** The texts of a tree whose routes are ASCII. *)
Definition ascii_routes (l : list (list tok * H)) : Prop := Forall (λ r, ascii_toks r.1 = true) l.

Lemma ascii_path n : wf n = true → ascii_routes (routes_of n) → sforallb is_ascii (path n) = true.
Proof.
  intros Hwf Ha. pose proof (wf_has_route _ _ (le_n _) Hwf) as Hne. destruct n as [npath w nt m idx cs hs prio].
  cbn [routes_of path] in *. unfold prepend in *. destruct (_ ++ _) as [|r l]; [done|]. apply Forall_cons in Ha as [Ha _].
  simpl in Ha. by apply andb_true_iff in Ha as [? _].
Qed.

Lemma ascii_index a c : wf c = true → starts_with a c = true → ascii_routes (routes_of c) → is_ascii a = true.
Proof.
  intros Hwf Hst Ha. pose proof (ascii_path c Hwf Ha) as Hp. unfold starts_with in Hst.
  apply orb_true_iff in Hst as [[t Ht]%HasPrefix_spec|[_ ->%bool_decide_eq_true]%andb_true_iff]; [|done].
  rewrite Ht in Hp. simpl in Hp. by apply andb_true_iff in Hp as [? _].
Qed.

Lemma ascii_prepend t (l : list (list tok * H)) : ascii_routes (prepend t l) → ascii_routes l.
Proof.
  unfold ascii_routes, prepend. rewrite Forall_fmap. intros Ha. eapply Forall_impl; [exact Ha|]. intros r. cbn [compose fst].
  change (ascii_toks (t :: r.1)) with ((match t with TText s => sforallb is_ascii s | _ => true end) && ascii_toks r.1).
  by intros [_ ?]%andb_true_iff.
Qed.

Lemma ascii_children cs idx :
  wf_children cs idx = true → ascii_routes (concat (map routes_of cs)) →
  sforallb is_ascii idx = true ∧ ∀ c, c ∈ cs → ascii_routes (routes_of c).
Proof.
  revert idx. induction cs as [|c cs IH]; intros [|a idx] Hwf Ha; try done; [by split; [|intros ? ?%not_elem_of_nil]|].
  simpl in Hwf. rewrite !andb_true_iff in Hwf. destruct Hwf as [[[Hc Hst] _] Hcs]. cbn [map concat] in Ha.
  apply Forall_app in Ha as [Hac Ha]. destruct (IH idx Hcs Ha) as [Hidx Hall]. split.
  - simpl. by rewrite (ascii_index a c), Hidx.
  - intros d [->|Hd]%elem_of_cons; auto.
Qed.

Lemma ci_found_param m ci name l b q value rest :
  span_segment (String b q) = (value, rest) → ci_found m (ci +:+ value) l rest →
  ci_found m ci (prepend (TParam name) l) (String b q).
Proof.
  intros Hs (out & found & -> & Hr). exists out, found. split; [done|]. unfold prepend. destruct found.
  - destruct Hr as (out' & -> & Hex). exists (value +:+ out'). split; [apply sapp_assoc|].
    pose proof (span_segment_spec (String b q)) as Hspec. rewrite Hs in Hspec. destruct Hspec as (Heq & Hv & Hrest).
    rewrite Heq in *. eapply ci_hit_prepend; [| |exact Hex].
    + intros ts u o Hu Hm. rewrite sapp_assoc. cbn [ci_match]. rewrite span_segment_app; [|done|].
      * rewrite bool_decide_eq_false_2, Hm; [done|]. rewrite <- sapp_assoc, <- Heq. done.
      * destruct Hrest as [->|[q' ->]]; [done|]. right. by eexists.
    + intros Hq. by rewrite sapp_assoc, !(slower_app value), Hq.
  - apply Forall_fmap. eapply Forall_impl; [exact Hr|]. intros r Hn. cbn [compose fst ci_match].
    by rewrite bool_decide_eq_false_2, Hs, Hn by done.
Qed.

Lemma ci_found_prefix m ci l p :
  ci_found m "" l p → ci_found (r ← m; let '(out, found) := r in Val (ci +:+ out, found)) ci l p.
Proof.
  intros (out & found & -> & Hr). exists (ci +:+ out), found. split; [done|]. destruct found; [|done].
  destruct Hr as (out' & -> & Hex). by exists out'.
Qed.

(** A child that is the slash, with handlers. *)
Lemma slash_route c1 : bool_decide (path c1 = "/") && has_handlers c1 = true → Exists (λ r : list tok * H, ci_match r.1 ("" +:+ "/") = Some "/") (routes_of c1).
Proof.
  destruct c1 as [npath w nt m idx cs [h|] prio]; unfold has_handlers; cbn [path handlers];
    intros [->%bool_decide_eq_true Hh]%andb_true_iff; [|done].
  cbn [routes_of own_route]. by apply Exists_cons_hd.
Qed.

(** A look at the children behind a slash. *)
Lemma index_child cs idx a i :
  wf_children cs idx = true → index_of a idx = Some i →
  ∃ c, cs !! i = Some c ∧ wf c = true ∧ starts_with a c = true
    ∧ ∀ P : list tok * H → Prop, Exists P (routes_of c) → Exists P (concat (map routes_of cs)).
Proof.
  intros [Hall _]%wf_children_spec. revert i idx Hall. induction cs as [|d cs IH]; intros i [|b idx] Hall Hi; try by inversion Hall.
  apply Forall2_cons in Hall as [[Hw Hs] Hall]. simpl in Hi. case_bool_decide as Ha.
  - subst b. injection Hi as <-. exists d. split_and!; [done..|]. intros P HP. cbn [map concat]. apply Exists_app. by left.
  - destruct (index_of a idx) as [j|] eqn:Hj; [|done]. injection Hi as <-. destruct (IH j idx Hall Hj) as (c & Hc & ? & ? & HP).
    exists c. split_and!; [done..|]. intros P HPc. cbn [map concat]. apply Exists_app. right. by apply HP.
Qed.

Lemma slash_child_found (cs : list (node H)) idx ci :
  wf_children cs idx = true →
  slash_child idx cs ci = Val (ci, false)
  ∨ slash_child idx cs ci = Val (ci +:+ "/", true)
    ∧ Exists (λ r : list tok * H, ci_match r.1 ("" +:+ "/") = Some "/") (concat (map routes_of cs)).
Proof.
  intros Hcs. unfold slash_child. destruct (index_of "/" idx) as [i|] eqn:Hi; [|by left].
  destruct (index_child _ _ _ _ Hcs Hi) as (c & Hc & Hw & Hst & Hin). unfold index. rewrite Hc. cbn [mbind go_bind].
  destruct (Nat.eqb _ _ && _) eqn:Hone.
  { right. split; [done|]. apply Hin, slash_route. apply andb_true_iff in Hone as [Hl%Nat.eqb_eq ->].
    rewrite bool_decide_eq_true_2; [done|]. unfold starts_with in Hst.
    apply orb_true_iff in Hst as [[t Ht]%HasPrefix_spec|[Hh _]%andb_true_iff]; [rewrite Ht in *; by destruct t|].
    by destruct c as [[|? ?] [|] ? ? ? [|? [|? ?]] [?|] ?]. }
  case_bool_decide as Ht; [|by left].
  destruct c as [npath [|] nt m cidx ccs hs prio]; simpl in Ht; subst nt; [|by rewrite wf_static in Hw].
  cbn [wf] in Hw. apply andb_true_iff in Hw as [_ Hw].
  destruct ccs as [|[cpath [|] [| | |] cmax cidx' ccs' [h|] cprio] [|? ?]]; try done; try by destruct ccs'.
  destruct ccs'; [|done]. right. split; [done|]. apply Hin. rewrite !andb_true_iff, bool_decide_eq_true in Hw.
  destruct Hw as [[[_ ->] _] _]. cbn [routes_of]. unfold prepend. apply Exists_fmap, Exists_app. right. by apply Exists_cons_hd.
Qed.

(** The end of the walk at a node's text. *)
Lemma end_found npath (wild : bool) idx (cs : list (node H)) (hs : option H) l :
  (if wild then idx = "" ∧ Forall (λ r : list tok * H, ci_match r.1 "" = None) l
   else wf_children cs idx = true ∧ l = concat (map routes_of cs)) →
  ci_found (if some hs then Val (npath, true) else if fix_ then slash_child idx cs npath else Val (npath, false))
    npath (own_route hs ++ l) "".
Proof.
  intros Hw. destruct hs as [h|]; cbn [some own_route app].
  - exists npath, true. split; [done|]. exists "". split; [by rewrite sapp_nil_r|]. left. by apply Exists_cons_hd.
  - assert (Forall (λ r : list tok * H, ci_match r.1 "" = None) l) as Hnone.
    { destruct wild; destruct Hw as [Hw Hl]; [done|]. subst l. by eapply children_no_end. }
    destruct fix_ eqn:Hf; [|by exists npath, false]. destruct wild; destruct Hw as [Hw Hl].
    + subst idx. by exists npath, false.
    + destruct (slash_child_found cs idx npath Hw) as [->|[-> Hex]]; [by exists npath, false|].
      exists (npath +:+ "/"), true. split; [done|]. exists "/". split; [done|]. right; left. by subst l.
Qed.

(** The end of the walk at a text that does not match. *)
Lemma fix_slash_found n p :
  sforallb is_ascii p = true → sforallb is_ascii (path n) = true →
  Forall (λ r : list tok * H, ci_match r.1 p = None) (routes_of n) →
  ci_found (Val (fix_slash fix_ p (path n) (handlers n))) "" (routes_of n) p.
Proof.
  intros Hp Hnp Hnone. unfold fix_slash. destruct fix_ eqn:Hf; [|by exists "", false]. case_bool_decide as Hsl.
  { exists "", true. split; [done|]. exists "". split; [done|]. right; right. by subst p. }
  destruct (_ && some _) eqn:Hc; [|by exists "", false]. rewrite !andb_true_iff, Nat.eqb_eq, !bool_decide_eq_true in Hc.
  destruct Hc as [[[Hlen Hget] Hlow] Hhs]. exists (path n), true. split; [done|]. exists (path n). split; [done|].
  right; left. split; [done|]. destruct n as [npath w nt m idx cs [h|] prio]; cbn [path handlers] in *; [|done].
  rewrite !ToLower_ascii in Hlow by (done || by apply ascii_stake).
  assert (npath = stake (String.length p) npath +:+ "/") as Heq.
  { rewrite <- (stake_sdrop (String.length p) npath) at 1. f_equal. clear -Hlen Hget.
    revert npath Hlen Hget. induction p as [|a p IH]; intros [|b npath]; simpl; try done; [|intros ??; apply IH; [lia|done]].
    destruct npath; [|simpl; lia]. by intros _ [= ->]. }
  cbn [routes_of own_route app]. apply Exists_cons_hd. cbn [fst].
  transitivity (ci_match (TText npath :: []) ((p +:+ "/") +:+ "")); [by rewrite sapp_nil_r|].
  rewrite ci_match_text_app; [|by rewrite Heq, !slower_app, Hlow]. simpl. by rewrite sapp_nil_r.
Qed.

(** Below a parameter. *)
Lemma param_found ci (chs : option H) ccs rest :
  match ccs with
  | [] => True
  | [c1] => wf c1 = true ∧ starts_with "/" c1 = true
  | _ => False
  end →
  at_slash rest →
  (∀ c1 b q, ccs = [c1] → rest = String b q → ci_found (findCaseInsensitivePath c1 rest fix_) "" (routes_of c1) rest) →
  ci_found
    (if bool_decide (rest = "") then
       if some chs then Val (ci, true)
       else if fix_ && bool_decide (length ccs = 1) then
         c1 ← index ccs 0; Val (if bool_decide (path c1 = "/") && has_handlers c1 then (ci +:+ "/", true) else (ci, false))
       else Val (ci, false)
     else
       match ccs with
       | c1 :: _ => r ← findCaseInsensitivePath c1 rest fix_; let '(out, found) := r in Val (ci +:+ out, found)
       | [] => Val (ci, fix_ && Nat.eqb (String.length rest) 1)
       end) ci (own_route chs ++ match ccs with c1 :: _ => routes_of c1 | [] => [] end) rest.
Proof.
  intros Hccs Hsl IH. destruct rest as [|b q].
  - rewrite bool_decide_eq_true_2 by done. destruct chs as [h|]; cbn [some own_route app].
    + exists ci, true. split; [done|]. exists "". split; [by rewrite sapp_nil_r|]. left. by apply Exists_cons_hd.
    + destruct ccs as [|c1 [|? ?]]; [|..|done].
      { exists ci, false. split; [by rewrite andb_false_r|constructor]. }
      destruct Hccs as [Hw1 Hs1]. destruct fix_ eqn:Hf.
      * cbn. destruct (bool_decide (path c1 = "/") && has_handlers c1) eqn:Hc.
        -- exists (ci +:+ "/"), true. split; [done|]. exists "/". split; [done|]. right; left. split; [done|]. by apply slash_route.
        -- exists ci, false. split; [done|]. by eapply entered_no_end.
      * exists ci, false. split; [done|]. by eapply entered_no_end.
  - rewrite bool_decide_eq_false_2 by done. apply ci_found_own. destruct ccs as [|c1 [|? ?]]; [|..|done].
    + exists ci, (fix_ && Nat.eqb (String.length (String b q)) 1). split; [done|].
      destruct (fix_ && _) eqn:Hf; [|constructor]. apply andb_true_iff in Hf as [Hf Hlen%Nat.eqb_eq].
      destruct q; [|done]. exists "". split; [by rewrite sapp_nil_r|]. right; right. split; [done|].
      by destruct Hsl as [?|[q [= -> <-]]].
    + apply ci_found_prefix. by eapply IH.
Qed.

(** The lookup at every node. *)
Lemma find_found k n p :
  size n ≤ k → wf n = true → ascii_routes (routes_of n) → sforallb is_ascii p = true →
  (is_catch_all n = true → HasPrefix p "/" = true) → ci_found (findCaseInsensitivePath n p fix_) "" (routes_of n) p.
Proof.
  revert n p. induction k as [|k IH]; intros n p Hk Hwf Ha Hp Hca; [destruct n; simpl in Hk; lia|].
  pose proof (ascii_path n Hwf Ha) as Hap. pose proof (fix_slash_found n p Hp Hap) as Hfix.
  destruct n as [npath w nt m idx cs hs prio]. cbn [path handlers] in Hap, Hfix.
  cbn [findCaseInsensitivePath routes_of] in *. rewrite ToLower_ascii, ToLower_ascii by (done || by apply ascii_stake).
  destruct (Nat.leb _ _ && _) eqn:Hcond.
  2:{ apply Hfix, Forall_fmap, Forall_true. intros r. cbn [compose fst ci_match]. by rewrite Hcond. }
  clear Hfix. apply andb_true_iff in Hcond as [_ Hsl%bool_decide_eq_true]. rewrite <- (stake_sdrop (String.length npath) p) at 2.
  apply ci_found_text; [done|]. pose proof (ascii_sdrop (String.length npath) p Hp) as Hp'.
  assert (npath = "" → sdrop (String.length npath) p = p) as Hsame by (intros ->; done).
  set (p' := sdrop (String.length npath) p) in *. clearbody p'.
  destruct p' as [|b q].
  { apply (end_found npath w). destruct w.
    - cbn [wf] in Hwf. apply andb_true_iff in Hwf as [->%bool_decide_eq_true _]. split; [done|].
      destruct cs as [|[cpath cw [| | |] cm cidx ccs chs cprio] cs]; try constructor.
      + apply Forall_fmap, Forall_true. done.
      + destruct chs; [by apply Forall_singleton|constructor].
    - rewrite wf_static, !andb_true_iff in Hwf. by destruct Hwf as [_ Hcs]. }
  apply ci_found_own. apply ascii_prepend, Forall_app in Ha as [_ Ha].
  destruct w; cbn [negb].
  - cbn [wf] in Hwf. apply andb_true_iff in Hwf as [_ Hwf].
    destruct cs as [|[cpath [|] [| | |] cm cidx ccs chs cprio] [|? ?]]; try done.
    + pose proof (span_segment_spec (String b q)) as Hspec.
      destruct (span_segment (String b q)) as [value rest] eqn:Hs. destruct Hspec as (E & _ & Hrsl).
      eapply ci_found_param; [exact Hs|]. apply andb_true_iff in Hwf as [_ Hwf]. apply ascii_prepend, Forall_app in Ha as [_ Ha].
      assert (sforallb is_ascii rest = true) as Hrest by (rewrite E, sforallb_app in Hp'; by apply andb_true_iff in Hp' as [_ ?]).
      apply param_found; [|done|].
      * destruct ccs as [|c1 [|? ?]]; try done. rewrite !andb_true_iff in Hwf. by destruct Hwf as [[[[? ?] _] _] _].
      * intros c1 b' q' -> ->. simpl in Hk. rewrite !andb_true_iff, negb_true_iff in Hwf. destruct Hwf as [[[[? _] ?] _] _].
        apply IH; [lia|done..|congruence].
    + destruct ccs, chs as [h|]; try done. rewrite !andb_true_iff, !bool_decide_eq_true in Hwf. destruct Hwf as [[[_ ->] _] _].
      rewrite Hsame by done. exists p, true. split; [done|]. exists p. split; [done|]. left. apply Exists_cons_hd.
      cbn [fst ci_match]. by rewrite Hca.
    + by destruct ccs, chs.
  - rewrite wf_static, !andb_true_iff in Hwf. destruct Hwf as [_ Hcs]. destruct (ascii_children cs idx Hcs Ha) as [Hidx Hac].
    apply wf_children_spec in Hcs as [Hcs _]. simpl in Hp'. apply andb_true_iff in Hp' as [Hb Hq].
    apply (try_children_found (λ n', findCaseInsensitivePath n' (String b q) fix_) [] cs idx b q npath); [|done..|].
    { by intros [[-> ?%bool_decide_eq_true]%andb_true_iff _]%andb_true_iff. }
    intros c a Hin Hwc Hst Hba. pose proof (size_child c cs Hin). apply IH; [simpl in Hk; lia|done|by apply Hac|simpl; by rewrite Hb|].
    intros Hcc. pose proof (starts_catch_all a c Hcc Hst) as ->. assert (b = "/"%char) as -> by (by apply lower_slash).
    apply (HasPrefix_app "/" q).
Qed.

End correct.

(** ** Trees built from tables *)

(** A path for which the tree has handlers. *)
Definition served {H} (t : node H) (p : string) : Prop :=
  ∃ h ps tsr, getValue t p [] 0 = Val (Some h, ps, tsr).

Section tables.
Context {H : Type}.
Implicit Types (l : list (string * H)) (t : node H).

(** The routes of a tree up to normal forms. *)
Lemma same_routes_elem (l k : list (list tok * H)) r :
  same_routes l k → r ∈ l → ∃ r', r' ∈ k ∧ norm r'.1 = norm r.1.
Proof.
  unfold same_routes. intros Hlk Hr. assert ((norm r.1, r.2) ∈ norm_routes k) as Hin.
  { rewrite <- Hlk. apply list_elem_of_fmap. eauto. }
  apply list_elem_of_fmap in Hin as (r' & [= E _] & Hr'). eauto.
Qed.

(** A path is served exactly when a route of the table matches it. *)
Lemma built_served l t p :
  Forall (λ r, registrable r.1 = true) l → addRoutes node_zero l = Val t → served t p ↔ matches (table_routes l) p ≠ [].
Proof.
  intros Hl Ht. destruct (built_lookup l Hl t p 0 Ht) as (hs & ps & tsr & E & ->). unfold served. rewrite E.
  destruct hs as [h|]; [|by split; [intros (? & ? & ? & ?)|]]. split; [done|]. by eauto.
Qed.

Lemma matches_nil (k : list (list tok * H)) p : matches k p = [] ↔ ∀ r ps, r ∈ k → match_toks r.1 p ≠ Some ps.
Proof.
  split.
  - intros Hm r ps Hin Hr. assert ((r.2, ps) ∈ matches k p) as Hn; [|rewrite Hm in Hn; by apply not_elem_of_nil in Hn].
    apply list_elem_of_omap. exists r. by rewrite Hr.
  - intros Hn. destruct (matches k p) as [|x ms] eqn:E; [done|]. assert (x ∈ matches k p) as Hin by (rewrite E; by left).
    apply list_elem_of_omap in Hin as (r & Hr & (qs & Hq & _)%fmap_Some). by destruct (Hn r qs Hr).
Qed.

(** The spelling for a route of the tree is one of a route of the table, and no spelling is missed. *)
Lemma matched_spelling t l p out :
  same_routes (routes_of t) (table_routes l) →
  Exists (λ r : list tok * H, ci_match r.1 p = Some out) (routes_of t) →
  slower out = slower p ∧ matches (table_routes l) out ≠ [].
Proof.
  intros Hr (r & Hin & Hm)%Exists_exists. destruct (same_routes_elem _ _ _ Hr Hin) as (r' & Hin' & En).
  rewrite <- ci_match_norm, <- En, ci_match_norm in Hm. destruct (ci_match_sound _ _ _ Hm) as [Hs [ps Hps]].
  split; [done|]. rewrite matches_nil. intros Hn. by destruct (Hn r' ps Hin').
Qed.

Lemma unmatched_spelling t l p q :
  same_routes (routes_of t) (table_routes l) → Forall (λ r : list tok * H, ci_match r.1 p = None) (routes_of t) →
  slower q = slower p → matches (table_routes l) q = [].
Proof.
  intros Hr Hf Hq. apply matches_nil. intros r ps Hin Hm.
  destruct (ci_match_complete _ p _ _ Hm Hq) as [out' Ho].
  destruct (same_routes_elem _ _ _ (symmetry Hr) Hin) as (r' & Hin' & En).
  rewrite <- ci_match_norm, <- En, ci_match_norm in Ho. rewrite Forall_forall in Hf. specialize (Hf r' Hin'). simpl in Hf. congruence.
Qed.

(** An empty tree finds nothing. *)
Lemma find_in_empty `{UnicodeCaseLaws} p fix_ (R S : string → Prop) :
  (∀ q, S q) →
  ∃ out found, findCaseInsensitivePath (node_zero : node H) p fix_ = Val (out, found)
    ∧ if (found : bool) then R out else ∀ q, slower q = slower p → S q.
Proof.
  exists "", false. split; [|auto]. cbn [findCaseInsensitivePath node_zero String.length].
  assert (stake 0 p = "") as -> by by destruct p. rewrite bool_decide_eq_true_2 by done.
  by destruct p, fix_; simpl; rewrite ?andb_false_r.
Qed.

(** Cleaning a path keeps it ASCII. *)
Lemma clean_ascii p : sforallb is_ascii p = true → ∃ c, cleanpath.cleanPath p = Val c ∧ sforallb is_ascii c = true.
Proof.
  assert (∀ s, sforallb is_ascii s = true ↔ Forall (λ a, is_ascii a = true) (chars s)) as Hch.
  { induction s as [|a s IH]; [by split; [constructor|]|]. cbn [sforallb chars]. by rewrite andb_true_iff, IH, Forall_cons. }
  assert (∀ s, chars s = String.list_ascii_of_string s) as Hl by (induction s as [|a s IH]; simpl; by rewrite ?IH).
  rewrite Hch, Hl. intros Hp. unfold cleanpath.cleanPath. rewrite cleanpath.cleanPath_bytes_spec. eexists. split; [done|].
  rewrite Hch, Hl, String.list_ascii_of_string_of_list_ascii. by apply cleanpath.clean_spec_bytes.
Qed.

End tables.

(** The lookup in the tree of a table, by the patterns of the table. *)
Lemma built_find {H} `{UnicodeCaseLaws} (l : list (string * H)) t p fix_ :
  Forall (λ r, registrable r.1 = true) l → Forall (λ r, sforallb is_ascii r.1 = true) l → sforallb is_ascii p = true →
  addRoutes node_zero l = Val t →
  ∃ out found, findCaseInsensitivePath t p fix_ = Val (out, found)
    ∧ if (found : bool) then
        (slower out = slower p ∧ matches (table_routes l) out ≠ [])
        ∨ (fix_ = true ∧ slower out = slower (p +:+ "/") ∧ matches (table_routes l) out ≠ [])
        ∨ (fix_ = true ∧ slower (out +:+ "/") = slower p)
      else ∀ q, slower q = slower p → matches (table_routes l) q = [].
Proof.
  intros Hreg Hasc Hp Ht. destruct (built_cases l Hreg t Ht) as [[-> ->]|(Hwf & Hca & _ & Hr)]; [by apply find_in_empty|].
  assert (ascii_routes (routes_of t)) as Ha.
  { apply Forall_forall. intros r Hin. destruct (same_routes_elem _ _ _ Hr Hin) as (r' & Hin' & E).
    rewrite <- ascii_norm, <- E, ascii_norm. apply list_elem_of_fmap in Hin' as (x & -> & Hx). apply ascii_pattern.
    by rewrite Forall_forall in Hasc; apply Hasc. }
  destruct (find_found fix_ (size t) t p (le_n _) Hwf Ha Hp) as (out & found & E & Hf); [by rewrite Hca|].
  exists out, found. split; [done|]. destruct found.
  - destruct Hf as (out' & -> & Hhit). rewrite sapp_nil_l. destruct Hhit as [Hm|[[Hf Hm]|[Hf Hm]]].
    + left. by eapply matched_spelling.
    + right; left. split; [done|]. by eapply matched_spelling.
    + by right; right.
  - intros q Hq. by eapply unmatched_spelling.
Qed.

(** C34. The case-insensitive lookup, with trailing slashes fixed (the way [redirectFixedPath] calls
    it when that option is on, the default) and without: for every table of ASCII routes that
    registers, it never panics, and when it finds nothing, no spelling of the path in
    other letter cases is served.  Without fixing slashes, what it finds is a spelling of the
    path that is served, so it finds one exactly when there is one.  With fixing, it finds such a
    spelling, or a served spelling of the path with a slash added, or the path with
    its last slash taken off; whether that last one is served the lookup does not check
    ([slash_fix_without_route]). *)
Theorem case_lookup_correct {H} `{UnicodeCaseLaws} (l : list (string * H)) t p fix_ :
  Forall (λ r, registrable r.1 = true ∧ sforallb is_ascii r.1 = true) l → sforallb is_ascii p = true →
  addRoutes node_zero l = Val t →
  ∃ out found, findCaseInsensitivePath t p fix_ = Val (out, found)
    ∧ if (found : bool) then
        (slower out = slower p ∧ served t out)
        ∨ (fix_ = true ∧ slower out = slower (p +:+ "/") ∧ served t out)
        ∨ (fix_ = true ∧ slower (out +:+ "/") = slower p)
      else ∀ q, slower q = slower p → ¬ served t q.
Proof.
  intros [Hreg Hasc]%Forall_and Hp Ht. destruct (built_find l t p fix_ Hreg Hasc Hp Ht) as (out & found & E & Hf).
  pose proof (λ q, built_served l t q Hreg Ht) as Hserved. exists out, found. split; [done|].
  destruct found; [by rewrite !Hserved|]. intros q Hq. rewrite Hserved. intros Hm. by apply Hm, Hf.
Qed.

(** The redirect to another spelling, for the path as cleaned. *)
Lemma built_redirect {H} `{UnicodeCaseLaws} (l : list (string * H)) t m p fix_ :
  Forall (λ r, registrable r.1 = true) l → Forall (λ r, sforallb is_ascii r.1 = true) l → sforallb is_ascii p = true →
  addRoutes node_zero l = Val t →
  ∃ c r, cleanpath.cleanPath p = Val c ∧ redirectFixedPath m p t fix_ = Val r
    ∧ match r with
      | Some (_, out) =>
          (slower out = slower c ∧ matches (table_routes l) out ≠ [])
          ∨ (fix_ = true ∧ slower out = slower (c +:+ "/") ∧ matches (table_routes l) out ≠ [])
          ∨ (fix_ = true ∧ slower (out +:+ "/") = slower c)
      | None => ∀ q, slower q = slower c → matches (table_routes l) q = []
      end.
Proof.
  intros Hreg Hasc Hp Ht. destruct (clean_ascii p Hp) as (c & Hc & Hca).
  destruct (built_find l t c fix_ Hreg Hasc Hca Ht) as (out & found & E & Hf). unfold redirectFixedPath. rewrite Hc.
  cbn [mbind go_bind]. rewrite E. cbn [mbind go_bind]. do 2 eexists. split; [done|]. split; [done|]. by destruct found.
Qed.

(** ASCII only, for the examples. *)
#[export] Instance ascii_case : UnicodeCase := {|
  ToLower := slower;
  unicode_ToLower r := if N.leb 65 r && N.leb r 90 then (r + 32)%N else r;
|}.

#[export] Instance ascii_case_laws : UnicodeCaseLaws.
Proof.
  split; [done|]. intros a _. by destruct a as [[] [] [] [] [] [] [] []].
Qed.

(** ** Witness *)

Definition case_table : list (string * nat) := [("/Pods/:po", 1); ("/pods", 2); ("/Nodes/", 3); ("/js/*file", 4)].

Lemma case_lookup_correct_witness :
  ∃ t, addRoutes node_zero case_table = Val t
    ∧ findCaseInsensitivePath t "/PODS/Web-1" false = Val ("/Pods/Web-1", true)
    ∧ findCaseInsensitivePath t "/NODES" true = Val ("/Nodes/", true)
    ∧ (∃ out found, findCaseInsensitivePath t "/PODS/Web-1" false = Val (out, found)
        ∧ if (found : bool) then
            (slower out = slower "/PODS/Web-1" ∧ served t out)
            ∨ (false = true ∧ slower out = slower ("/PODS/Web-1" +:+ "/") ∧ served t out)
            ∨ (false = true ∧ slower (out +:+ "/") = slower "/PODS/Web-1")
          else ∀ q, slower q = slower "/PODS/Web-1" → ¬ served t q)
    ∧ ∃ out found, findCaseInsensitivePath t "/NODES" true = Val (out, found)
        ∧ if (found : bool) then
            (slower out = slower "/NODES" ∧ served t out)
            ∨ (true = true ∧ slower out = slower ("/NODES" +:+ "/") ∧ served t out)
            ∨ (true = true ∧ slower (out +:+ "/") = slower "/NODES")
          else ∀ q, slower q = slower "/NODES" → ¬ served t q.
Proof.
  eexists. split; [vm_compute; reflexivity|]. do 2 (split; [vm_compute; reflexivity|]).
  split; (apply (case_lookup_correct case_table); [|reflexivity|vm_compute; reflexivity];
    repeat (constructor; [split; reflexivity|]); constructor).
Defined.

(** With trailing slashes fixed as well, the lookup finds paths that have no route: it takes the
    slash off a path that ends before the text of a node does. *)
Lemma slash_fix_without_route :
  ∃ t, addRoutes node_zero [("/pods/:po/log", 1)] = Val t
    ∧ redirectFixedPath "GET" "/pods/web/" t true = Val (Some (301%Z, "/pods/web"))
    ∧ getValue t "/pods/web" [] 0 = Val (None, [("po", "web")], false)
    ∧ redirectFixedPath "GET" "/" t true = Val (Some (301%Z, "")).
Proof. eexists. split; [vm_compute; reflexivity|]. vm_compute. done. Qed.
