(* ===== verification/Semver.v ===== *)
(** * Semantic versions: the vendored package github.com/blang/semver

    The image tags the console offers for an upgrade or a downgrade are ordered
    by this package.  The data types, Parse, String, Compare and the comparison
    methods are those of semver.go; an error is a constructor naming the branch
    that returned it, with the offending text. *)

From stdpp Require Import prelude strings.
From Stdlib Require Import ZArith NArith Ascii.
From S2P Require Import Prelude GoStrings GoSort.

Definition numbers : string := "0123456789".
Definition alphas : string := "abcdefghijklmnopqrstuvwxyzABCDEFGHIJKLMNOPQRSTUVWXYZ-".
Definition alphanum : string := alphas +:+ numbers.

Record PRVersion : Type := mkPR {
  VersionStr : string;
  VersionNum : N;
  IsNum : bool;
}.

Record Version : Type := mkVersion {
  Major : N;
  Minor : N;
  Patch : N;
  Pre : list PRVersion;
  Build : list string;
}.

#[export] Instance PRVersion_eq_dec : EqDecision PRVersion.
Proof. solve_decision. Defined.

#[export] Instance Version_eq_dec : EqDecision Version.
Proof. solve_decision. Defined.

(** The zero value of the struct, returned beside every error. *)
Definition Version_zero : Version := mkVersion 0 0 0 [] [].

Inductive semver_error : Type :=
| VersionEmpty
| NoMajorMinorPatch
| InvalidCharsMajor (s : string)
| LeadingZeroesMajor (s : string)
| InvalidCharsMinor (s : string)
| LeadingZeroesMinor (s : string)
| InvalidCharsPatch (s : string)
| LeadingZeroesPatch (s : string)
| NumError (s : string) (e : num_error)
| PrereleaseEmpty
| LeadingZeroesPrerelease (s : string)
| InvalidCharsPrerelease (s : string)
| BuildEmpty
| InvalidCharsBuild (s : string).

(** ** Character classes *)

Definition ContainsRune (set : string) (c : ascii) : bool :=
  match IndexRune set c with Some _ => true | None => false end.

(** Both sets are ASCII, so a byte that is part of a longer rune is outside them
    as the rune is. *)
Definition containsOnly (s set : string) : bool := sforallb (ContainsRune set) s.

Definition hasLeadingZeroes (s : string) : bool :=
  Nat.ltb 1 (String.length s) && bool_decide (String.get 0 s = Some "0"%char).

(** ** Parsing *)

Definition parse_number (s : string) : result semver_error N :=
  match ParseUint s with Ok n => Ok n | Err e => Err (NumError s e) end.

Definition NewPRVersion (s : string) : result semver_error PRVersion :=
  if Nat.eqb (String.length s) 0 then Err PrereleaseEmpty
  else if containsOnly s numbers then
    if hasLeadingZeroes s then Err (LeadingZeroesPrerelease s)
    else num ← parse_number s; Ok (mkPR "" num true)
  else if containsOnly s alphanum then Ok (mkPR s 0 false)
  else Err (InvalidCharsPrerelease s).

(** The loop over the prerelease pieces. *)
Fixpoint parse_prereleases (l : list string) : result semver_error (list PRVersion) :=
  match l with
  | [] => Ok []
  | prstr :: l =>
      parsedPR ← NewPRVersion prstr; rest ← parse_prereleases l; Ok (parsedPR :: rest)
  end.

(** The loop over the build metadata pieces. *)
Fixpoint parse_builds (l : list string) : result semver_error (list string) :=
  match l with
  | [] => Ok []
  | str :: l =>
      if Nat.eqb (String.length str) 0 then Err BuildEmpty
      else if negb (containsOnly str alphanum) then Err (InvalidCharsBuild str)
      else rest ← parse_builds l; Ok (str :: rest)
  end.

(** The text before a marker byte, and the dot-separated pieces after it. *)
Definition split_marker (s : string) (c : ascii) : string * list string :=
  match IndexRune s c with
  | Some i => (stake i s, Split (sdrop (S i) s) ".")
  | None => (s, [])
  end.

(** The major and minor number, then the patch with its prerelease and build. *)
Definition Parse (s : string) : result semver_error Version :=
  if Nat.eqb (String.length s) 0 then Err VersionEmpty
  else match SplitN s "." 3 with
  | [p0; p1; p2] =>
      if negb (containsOnly p0 numbers) then Err (InvalidCharsMajor p0)
      else if hasLeadingZeroes p0 then Err (LeadingZeroesMajor p0)
      else major ← parse_number p0;
      if negb (containsOnly p1 numbers) then Err (InvalidCharsMinor p1)
      else if hasLeadingZeroes p1 then Err (LeadingZeroesMinor p1)
      else minor ← parse_number p1;
      let '(patchStr, build) := split_marker p2 "+" in
      let '(patchStr, prerelease) := split_marker patchStr "-" in
      if negb (containsOnly patchStr numbers) then Err (InvalidCharsPatch patchStr)
      else if hasLeadingZeroes patchStr then Err (LeadingZeroesPatch patchStr)
      else patch ← parse_number patchStr;
      pre ← parse_prereleases prerelease;
      bld ← parse_builds build;
      Ok (mkVersion major minor patch pre bld)
  | _ => Err NoMajorMinorPatch
  end.

(** ** Printing *)

Definition PRVersion_String (v : PRVersion) : string :=
  if IsNum v then FormatUint (VersionNum v) else VersionStr v.

(** The first piece after its marker, the others after a dot. *)
Definition append_pieces (c : ascii) (l : list string) : string :=
  match l with
  | [] => ""
  | p :: l => String c p +:+ foldr (λ q acc, String "." q +:+ acc) "" l
  end.

Definition Version_String (v : Version) : string :=
  FormatUint (Major v) +:+ String "." (FormatUint (Minor v)) +:+ String "." (FormatUint (Patch v))
  +:+ append_pieces "-" (PRVersion_String <$> Pre v)
  +:+ append_pieces "+" (Build v).

(** ** Comparing *)

Definition PRVersion_Compare (v o : PRVersion) : Z :=
  if IsNum v && negb (IsNum o) then -1
  else if negb (IsNum v) && IsNum o then 1
  else if IsNum v && IsNum o then
    if (VersionNum v =? VersionNum o)%N then 0
    else if (VersionNum o <? VersionNum v)%N then 1 else -1
  else
    if bool_decide (VersionStr v = VersionStr o) then 0
    else if sltb (VersionStr o) (VersionStr v) then 1 else -1.

(** The loop over the common prefix of the prereleases, and the length test
    after it. *)
Fixpoint compare_prereleases (v o : list PRVersion) : Z :=
  match v, o with
  | p :: v, q :: o =>
      let comp := PRVersion_Compare p q in
      if (comp =? 0)%Z then compare_prereleases v o
      else if (comp =? 1)%Z then 1 else -1
  | [], [] => 0
  | [], _ :: _ => -1
  | _ :: _, [] => 1
  end.

Definition Version_Compare (v o : Version) : Z :=
  if negb (Major v =? Major o)%N then (if (Major o <? Major v)%N then 1 else -1)
  else if negb (Minor v =? Minor o)%N then (if (Minor o <? Minor v)%N then 1 else -1)
  else if negb (Patch v =? Patch o)%N then (if (Patch o <? Patch v)%N then 1 else -1)
  else match Pre v, Pre o with
  | [], [] => 0
  | [], _ :: _ => 1
  | _ :: _, [] => -1
  | _, _ => compare_prereleases (Pre v) (Pre o)
  end.

Definition Version_EQ (v o : Version) : bool := (Version_Compare v o =? 0)%Z.
Definition Version_LT (v o : Version) : bool := (Version_Compare v o =? -1)%Z.

(** ** Validity: what Parse can return *)

Definition valid_PRVersion (p : PRVersion) : Prop :=
  if IsNum p then VersionStr p = "" ∧ (VersionNum p < two64)%N
  else VersionNum p = 0%N ∧ VersionStr p ≠ ""
       ∧ containsOnly (VersionStr p) alphanum = true ∧ containsOnly (VersionStr p) numbers = false.

Definition valid_build (s : string) : Prop := s ≠ "" ∧ containsOnly s alphanum = true.

Definition valid_Version (v : Version) : Prop :=
  (Major v < two64)%N ∧ (Minor v < two64)%N ∧ (Patch v < two64)%N
  ∧ Forall valid_PRVersion (Pre v) ∧ Forall valid_build (Build v).

(** ** Lemmas on the character classes *)

Lemma numbers_digit c : ContainsRune numbers c = is_digit c.
Proof. destruct c as [[] [] [] [] [] [] [] []]; reflexivity. Qed.

Lemma containsOnly_numbers s : containsOnly s numbers = sforallb is_digit s.
Proof.
  unfold containsOnly. induction s as [|c s IH]; simpl; [done|]. by rewrite numbers_digit, IH.
Qed.

Lemma alphanum_markers c : ContainsRune alphanum c = true → c ≠ "."%char ∧ c ≠ "+"%char.
Proof. destruct c as [[] [] [] [] [] [] [] []]; vm_compute; try done; by split. Qed.

Lemma digit_markers c : is_digit c = true → c ≠ "."%char ∧ c ≠ "+"%char ∧ c ≠ "-"%char.
Proof. destruct c as [[] [] [] [] [] [] [] []]; vm_compute; try done; by split_and!. Qed.

Lemma containsOnly_free s set c :
  (∀ a, ContainsRune set a = true → a ≠ c) → containsOnly s set = true → sfree c s = true.
Proof.
  intros Hset. apply sforallb_impl. intros a Ha. apply bool_decide_eq_true. auto.
Qed.

Lemma digits_free s c :
  c = "."%char ∨ c = "+"%char ∨ c = "-"%char → sforallb is_digit s = true → sfree c s = true.
Proof.
  intros Hc. apply sforallb_impl. intros a (?&?&?)%digit_markers.
  apply bool_decide_eq_true. by destruct Hc as [->|[->| ->]].
Qed.

Lemma FormatUint_free n c :
  c = "."%char ∨ c = "+"%char ∨ c = "-"%char → sfree c (FormatUint n) = true.
Proof. intros Hc. apply digits_free; [done|]. apply FormatUint_canonical. Qed.

Lemma hasLeadingZeroes_spec s : hasLeadingZeroes s = leading_zero s.
Proof.
  destruct s as [|a [|b s]]; try done. unfold hasLeadingZeroes; simpl.
  apply bool_decide_ext. naive_solver.
Qed.

Lemma length_zero_eqb s : Nat.eqb (String.length s) 0 = bool_decide (s = "").
Proof. by destruct s. Qed.

(** ** Lemmas on the pieces *)

Lemma split_marker_cut s c :
  split_marker s c = match cut s c with Some (l, r) => (l, Split r ".") | None => (s, []) end.
Proof.
  unfold split_marker. pose proof (IndexRune_cut s c).
  destruct (IndexRune s c); by simplify_option_eq.
Qed.

Lemma append_pieces_Join c l : l ≠ [] → append_pieces c l = String c (Join l ".").
Proof.
  destruct l as [|p l]; [done|]. intros _. cbn [append_pieces]. rewrite sapp_cons. f_equal.
  revert p. induction l as [|q l IH]; intros p; [apply sapp_nil_r|].
  rewrite Join_cons by done. rewrite <- IH. reflexivity.
Qed.

Lemma split_marker_spec s c l ps :
  split_marker s c = (l, ps) → s = l +:+ append_pieces c ps ∧ sfree c l = true.
Proof.
  rewrite split_marker_cut. destruct (cut s c) as [[l' r]|] eqn:E; intros [= <- <-].
  - apply cut_Some in E as [-> ?]. split; [|done].
    by rewrite append_pieces_Join, Join_Split by apply Split_nonempty.
  - apply cut_None in E. by rewrite sapp_nil_r.
Qed.

Lemma split_marker_append l c ps :
  sfree c l = true → Forall (λ p, sfree "." p = true) ps →
  split_marker (l +:+ append_pieces c ps) c = (l, ps).
Proof.
  intros Hl Hps. rewrite split_marker_cut. destruct (decide (ps = [])) as [->|Hne].
  - simpl. by rewrite sapp_nil_r, cut_free.
  - by rewrite append_pieces_Join, cut_app, Split_Join.
Qed.

Lemma SplitN_3 s c a b r :
  SplitN s c 3 = [a; b; r] → s = a +:+ String c (b +:+ String c r).
Proof.
  simpl. destruct (cut s c) as [[l t]|] eqn:E1; [|done].
  destruct (cut t c) as [[l2 t2]|] eqn:E2; [|done]. intros [= <- <- <-].
  apply cut_Some in E1 as [-> _]. by apply cut_Some in E2 as [-> _].
Qed.

Lemma SplitN_3_app a b r c :
  sfree c a = true → sfree c b = true →
  SplitN (a +:+ String c (b +:+ String c r)) c 3 = [a; b; r].
Proof. intros Ha Hb. simpl. by rewrite !cut_app. Qed.

(** ** Parse and String are inverse *)

Lemma parse_number_format n : (n < two64)%N → parse_number (FormatUint n) = Ok n.
Proof. intros Hn. unfold parse_number. by rewrite ParseUint_FormatUint. Qed.

Lemma parse_number_sound s n :
  parse_number s = Ok n → hasLeadingZeroes s = false → FormatUint n = s ∧ (n < two64)%N.
Proof.
  rewrite hasLeadingZeroes_spec. unfold parse_number.
  destruct (ParseUint s) eqn:E; intros ??; go_inv. split; [by apply FormatUint_ParseUint|].
  by apply ParseUint_sound in E as (_ & _ & _ & ?).
Qed.

Lemma format_number_ok n :
  containsOnly (FormatUint n) numbers = true ∧ hasLeadingZeroes (FormatUint n) = false
  ∧ FormatUint n ≠ "".
Proof.
  destruct (FormatUint_canonical n) as [(?&?&?) _].
  by rewrite containsOnly_numbers, hasLeadingZeroes_spec.
Qed.

Lemma NewPRVersion_String p :
  valid_PRVersion p → NewPRVersion (PRVersion_String p) = Ok p.
Proof.
  destruct p as [str num isnum]. unfold valid_PRVersion, PRVersion_String, NewPRVersion; simpl.
  destruct isnum; rewrite length_zero_eqb.
  - intros [-> Hn]. destruct (format_number_ok num) as (-> & -> & Hne).
    rewrite bool_decide_eq_false_2 by done. by rewrite parse_number_format.
  - intros (-> & Hne & Ha & Hnum). rewrite bool_decide_eq_false_2 by done. by rewrite Hnum, Ha.
Qed.

Lemma NewPRVersion_sound s p :
  NewPRVersion s = Ok p → valid_PRVersion p ∧ PRVersion_String p = s.
Proof.
  unfold NewPRVersion. rewrite length_zero_eqb. case_bool_decide as Hne; [done|].
  destruct (containsOnly s numbers) eqn:Hnum.
  - destruct (hasLeadingZeroes s) eqn:Hz; [done|].
    destruct (parse_number s) as [n|] eqn:E; [|done]. simpl. intros; go_inv.
    destruct (parse_number_sound _ _ E Hz) as [<- ?]. by split.
  - destruct (containsOnly s alphanum) eqn:Ha; [|done]. intros; go_inv. by split.
Qed.

Lemma PRVersion_String_free p c :
  valid_PRVersion p → c = "."%char ∨ c = "+"%char → sfree c (PRVersion_String p) = true.
Proof.
  unfold valid_PRVersion, PRVersion_String. destruct (IsNum p).
  - intros _ [->| ->]; apply FormatUint_free; auto.
  - intros (_ & _ & Ha & _) Hc. apply (containsOnly_free _ alphanum); [|done].
    intros a [??]%alphanum_markers. by destruct Hc as [->| ->].
Qed.

Lemma valid_build_free s : valid_build s → sfree "." s = true.
Proof. intros [_ Ha]. apply (containsOnly_free _ alphanum); [|done]. by intros a []%alphanum_markers. Qed.

Lemma parse_prereleases_String l :
  Forall valid_PRVersion l → parse_prereleases (PRVersion_String <$> l) = Ok l.
Proof.
  induction 1 as [|p l Hp _ IH]; [done|]. rewrite fmap_cons. cbn [parse_prereleases].
  by rewrite NewPRVersion_String, IH.
Qed.

Lemma parse_prereleases_sound l pres :
  parse_prereleases l = Ok pres → Forall valid_PRVersion pres ∧ PRVersion_String <$> pres = l.
Proof.
  revert pres. induction l as [|s l IH]; intros pres H; simpl in *; go_inv; [by split|].
  destruct (NewPRVersion s) as [p|] eqn:E; [|done].
  destruct (parse_prereleases l) as [rest|]; simpl in *; go_inv.
  destruct (IH _ eq_refl) as [? <-]. apply NewPRVersion_sound in E as [? <-].
  split; [by constructor|done].
Qed.

Lemma parse_builds_valid l : Forall valid_build l → parse_builds l = Ok l.
Proof.
  induction 1 as [|s l [Hne Ha] _ IH]; [done|]. simpl.
  by rewrite length_zero_eqb, bool_decide_eq_false_2, Ha, IH.
Qed.

Lemma parse_builds_sound l b : parse_builds l = Ok b → b = l ∧ Forall valid_build l.
Proof.
  revert b. induction l as [|s l IH]; intros b H; simpl in *; go_inv; [by split|].
  rewrite length_zero_eqb in H. case_bool_decide; [done|].
  destruct (containsOnly s alphanum) eqn:Ha; [|done]. simpl in H.
  destruct (parse_builds l) as [rest|]; simpl in *; go_inv.
  destruct (IH _ eq_refl) as [-> ?]. split; [done|by constructor].
Qed.

(** The third piece of a version string is cut at its markers again. *)
Lemma split_markers_String v :
  valid_Version v →
  split_marker (FormatUint (Patch v) +:+ append_pieces "-" (PRVersion_String <$> Pre v)
                +:+ append_pieces "+" (Build v)) "+"
  = (FormatUint (Patch v) +:+ append_pieces "-" (PRVersion_String <$> Pre v), Build v).
Proof.
  intros (_ & _ & _ & Hpre & Hb). rewrite <- sapp_assoc. apply split_marker_append.
  - rewrite sfree_app, FormatUint_free by auto. simpl.
    destruct (decide (PRVersion_String <$> Pre v = [])) as [->|Hne]; [done|].
    rewrite append_pieces_Join by done. rewrite sfree_cons. split; [done|].
    clear -Hpre. induction Hpre as [|p l Hp Hl IH]; [done|]. rewrite fmap_cons.
    destruct (decide (l = [])) as [->|]; [apply PRVersion_String_free; auto|].
    rewrite Join_cons by by destruct l.
    by rewrite !sfree_app, PRVersion_String_free, IH by auto.
  - eapply Forall_impl; [exact Hb|]. apply valid_build_free.
Qed.

Lemma Parse_print v : valid_Version v → Parse (Version_String v) = Ok v.
Proof.
  intros Hv. pose proof (split_markers_String v Hv) as Hsm.
  destruct Hv as (Hmaj & Hmin & Hpat & Hpre & Hb).
  unfold Parse, Version_String. rewrite length_zero_eqb.
  rewrite bool_decide_eq_false_2 by (destruct (FormatUint_canonical (Major v)) as [[] _]; by destruct (FormatUint (Major v))).
  rewrite !sapp_cons. rewrite SplitN_3_app by (apply FormatUint_free; auto).
  destruct (format_number_ok (Major v)) as (-> & -> & _), (format_number_ok (Minor v)) as (-> & -> & _).
  simpl. rewrite !parse_number_format by done. simpl. rewrite Hsm.
  rewrite split_marker_append; [|by apply FormatUint_free; auto|].
  - destruct (format_number_ok (Patch v)) as (-> & -> & _). simpl.
    rewrite parse_number_format, parse_prereleases_String, parse_builds_valid by done.
    by destruct v.
  - apply Forall_fmap. eapply Forall_impl; [exact Hpre|]. intros p ?. apply PRVersion_String_free; auto.
Qed.

(** C38. Printing a version and parsing the text gives the version back, for every
    version whose numbers fit 64 bits and whose identifiers use the alphabet of
    the package: [Parse(v.String())] never fails and loses nothing. *)
Theorem Parse_Version_String v : valid_Version v → Parse (Version_String v) = Ok v.
Proof. apply Parse_print. Qed.

Lemma Parse_sound s v : Parse s = Ok v → Version_String v = s ∧ valid_Version v.
Proof.
  unfold Parse. rewrite length_zero_eqb. case_bool_decide as Hne; [done|].
  destruct (SplitN s "." 3) as [|p0 [|p1 [|p2 [|]]]] eqn:Hs; try done.
  apply SplitN_3 in Hs as ->.
  destruct (containsOnly p0 numbers), (hasLeadingZeroes p0) eqn:Z0; try done. simpl.
  destruct (parse_number p0) as [major|] eqn:E0; [|done]. simpl.
  destruct (containsOnly p1 numbers), (hasLeadingZeroes p1) eqn:Z1; try done. simpl.
  destruct (parse_number p1) as [minor|] eqn:E1; [|done]. simpl.
  destruct (split_marker p2 "+") as [ps build] eqn:Eb.
  destruct (split_marker ps "-") as [patch pre] eqn:Ep.
  destruct (containsOnly patch numbers), (hasLeadingZeroes patch) eqn:Z2; try done. simpl.
  destruct (parse_number patch) as [pat|] eqn:E2; [|done]. simpl.
  destruct (parse_prereleases pre) as [pres|] eqn:E3; [|done]. simpl.
  destruct (parse_builds build) as [b|] eqn:E4; [|done]. simpl. intros; go_inv.
  apply parse_number_sound in E0 as [<- ?], E1 as [<- ?], E2 as [<- ?]; try done.
  apply parse_prereleases_sound in E3 as [? <-]. apply parse_builds_sound in E4 as [-> ?].
  apply split_marker_spec in Eb as [-> _], Ep as [-> _].
  split; [|done]. unfold Version_String; simpl. by rewrite !sapp_assoc, !sapp_cons.
Qed.

Lemma Version_String_Parse_eq s v : Parse s = Ok v → Version_String v = s.
Proof. by intros []%Parse_sound. Qed.

(** A text that parses is exactly the print of its version: the grammar has no
    second spelling of a version, and what Parse returns is valid. *)
Theorem Version_String_Parse s v : Parse s = Ok v → Version_String v = s ∧ valid_Version v.
Proof. apply Parse_sound. Qed.

(** ** Compare is a total preorder *)

(** The three keys a prerelease identifier is compared by. *)
Definition pr_rank (p : PRVersion) : N := if IsNum p then 0 else 1.
Definition pr_num (p : PRVersion) : N := if IsNum p then VersionNum p else 0.
Definition pr_str (p : PRVersion) : string := if IsNum p then "" else VersionStr p.

Lemma num_cmp_ltb a b :
  num_cmp a b = (if (a =? b)%N then 0 else if (b <? a)%N then 1 else -1)%Z.
Proof.
  unfold num_cmp.
  destruct (N.compare_spec a b), (N.eqb_spec a b), (N.ltb_spec b a); try done; lia.
Qed.

Lemma str_cmp_ltb s t :
  str_cmp s t = (if bool_decide (s = t) then 0 else if sltb t s then 1 else -1)%Z.
Proof.
  pose proof (cmp_range (f:=str_cmp) s t). pose proof (cmp_flip (f:=str_cmp) s t).
  pose proof (str_cmp_eq s t). rewrite sltb_cmp.
  case_bool_decide; destruct (Z.eqb_spec (str_cmp t s) (-1)); intuition lia.
Qed.

Lemma PRVersion_Compare_lex p q :
  PRVersion_Compare p q
  = lex (num_cmp (pr_rank p) (pr_rank q))
        (lex (num_cmp (pr_num p) (pr_num q)) (str_cmp (pr_str p) (pr_str q))).
Proof.
  unfold PRVersion_Compare, pr_rank, pr_num, pr_str, lex.
  destruct (IsNum p), (IsNum q); simpl; try done.
  - rewrite num_cmp_ltb. destruct (N.eqb_spec (VersionNum p) (VersionNum q)); [done|].
    by destruct (VersionNum q <? VersionNum p)%N.
  - by rewrite str_cmp_ltb.
Qed.

#[export] Instance PRVersion_Compare_order : CmpOrder PRVersion_Compare.
Proof.
  eapply cmp_order_ext; [intros p q; apply PRVersion_Compare_lex|apply _].
Qed.

Lemma compare_prereleases_list_cmp l k :
  compare_prereleases l k = list_cmp PRVersion_Compare l k.
Proof.
  revert k. induction l as [|p l IH]; intros [|q k]; simpl; try done. unfold lex.
  destruct (Z.eqb_spec (PRVersion_Compare p q) 0) as [|Hne]; [apply IH|].
  pose proof (cmp_range p q) as [-> | [?| ->]]; try done.
Qed.

Definition pre_rank (l : list PRVersion) : N := match l with [] => 1 | _ => 0 end.

Lemma Version_Compare_lex v o :
  Version_Compare v o
  = lex (num_cmp (Major v) (Major o)) (lex (num_cmp (Minor v) (Minor o))
    (lex (num_cmp (Patch v) (Patch o))
    (lex (num_cmp (pre_rank (Pre v)) (pre_rank (Pre o)))
         (list_cmp PRVersion_Compare (Pre v) (Pre o))))).
Proof.
  unfold Version_Compare. rewrite !num_cmp_ltb. unfold lex.
  destruct (N.eqb_spec (Major v) (Major o)); simpl; [|by case_match].
  destruct (N.eqb_spec (Minor v) (Minor o)); simpl; [|by case_match].
  destruct (N.eqb_spec (Patch v) (Patch o)); simpl; [|by case_match].
  destruct (Pre v), (Pre o); try done. by rewrite compare_prereleases_list_cmp.
Qed.

#[export] Instance Version_Compare_order : CmpOrder Version_Compare.
Proof.
  eapply cmp_order_ext; [intros v o; apply Version_Compare_lex|].
  repeat apply lex_order; try apply proj_order; apply _.
Qed.

(** Version.Compare is a total preorder with the results -1, 0 and 1:
    comparing the other way round negates the result, and "not greater" is
    transitive.  EQ, LT and the sort by version rest on this. *)
Theorem Version_Compare_total_preorder v o w :
  (Version_Compare v o = -1 ∨ Version_Compare v o = 0 ∨ Version_Compare v o = 1)%Z
  ∧ Version_Compare o v = (- Version_Compare v o)%Z
  ∧ (Version_Compare v o <= 0 → Version_Compare o w <= 0 → Version_Compare v w <= 0)%Z.
Proof. split_and!; [apply cmp_range|apply cmp_flip|apply cmp_trans]. Qed.

Lemma lex_0 x y : lex x y = 0%Z ↔ x = 0%Z ∧ y = 0%Z.
Proof. unfold lex. destruct (Z.eqb_spec x 0); lia. Qed.

Lemma list_cmp_0 {A} (f : A → A → Z) l k : list_cmp f l k = 0%Z ↔ Forall2 (λ a b, f a b = 0%Z) l k.
Proof.
  revert k. induction l as [|a l IH]; intros [|b k]; simpl.
  - by split.
  - split; [done|by inversion 1].
  - split; [done|by inversion 1].
  - rewrite lex_0, IH. split; [intros []; by constructor|by inversion 1].
Qed.

Lemma PRVersion_Compare_0 p q :
  valid_PRVersion p → valid_PRVersion q → PRVersion_Compare p q = 0%Z → p = q.
Proof.
  rewrite PRVersion_Compare_lex, !lex_0, !num_cmp_eq, str_cmp_eq.
  destruct p as [s n []], q as [t m []]; unfold valid_PRVersion, pr_rank, pr_num, pr_str; simpl;
    intros ?? (?&?&?); destruct_and?; by simplify_eq.
Qed.

(** Two versions that come out of Parse compare as equal exactly when they
    differ at most in their build metadata ("No Precedence" in the source). *)
Theorem Version_Compare_0_iff v o :
  valid_Version v → valid_Version o →
  Version_EQ v o = true ↔
  Major v = Major o ∧ Minor v = Minor o ∧ Patch v = Patch o ∧ Pre v = Pre o.
Proof.
  intros (_ & _ & _ & Hv & _) (_ & _ & _ & Ho & _).
  unfold Version_EQ. rewrite Z.eqb_eq, Version_Compare_lex, !lex_0, !num_cmp_eq, list_cmp_0.
  split.
  - intros (-> & -> & -> & _ & Hall). split_and!; try done.
    revert Hv Ho. induction Hall as [|p q l k Hpq _ IH]; [done|].
    intros [??]%Forall_cons [??]%Forall_cons. f_equal; [by apply PRVersion_Compare_0|auto].
  - intros (-> & -> & -> & ->). split_and!; try done. apply Forall2_same_length_lookup_2; [done|].
    intros i x y ??. simplify_eq. apply cmp_refl.
Qed.

(** ** Witnesses *)

Definition sample_version : Version :=
  mkVersion 1 2 3 [mkPR "rc" 0 false; mkPR "" 4 true] ["b7"].

Lemma sample_version_valid : valid_Version sample_version.
Proof.
  split_and!; try reflexivity; repeat constructor; vm_compute; split_and?; done.
Qed.

Example sample_version_text : Version_String sample_version = "1.2.3-rc.4+b7".
Proof. vm_compute. reflexivity. Qed.

Lemma Parse_Version_String_witness : Parse "1.2.3-rc.4+b7" = Ok sample_version.
Proof. exact (Parse_Version_String sample_version sample_version_valid). Defined.

Lemma Version_String_Parse_witness :
  Version_String sample_version = "1.2.3-rc.4+b7" ∧ valid_Version sample_version.
Proof. apply (Version_String_Parse "1.2.3-rc.4+b7" sample_version). vm_compute. reflexivity. Defined.

Lemma Version_Compare_0_iff_witness :
  Version_EQ sample_version sample_version = true ↔
  Major sample_version = 1%N ∧ Minor sample_version = 2%N ∧ Patch sample_version = 3%N
  ∧ Pre sample_version = [mkPR "rc" 0 false; mkPR "" 4 true].
Proof. exact (Version_Compare_0_iff sample_version sample_version sample_version_valid sample_version_valid). Defined.
