(* ===== verification/SemverRange.v ===== *)
(** * Version ranges and the rest of the semver package

    range.go, sort.go and sql.go of the vendored github.com/blang/semver, and the
    methods of semver.go around Parse and Compare.  A Range is a function value that
    may be nil; calling a nil one panics.  Main theorem: a range written the documented
    way parses to the function it denotes.  Two texts it accepts by accident are
    shown to mean something else. *)

From stdpp Require Import prelude strings sorting.
From Stdlib Require Import ZArith NArith Ascii.
From S2P Require Import Prelude GoStrings GoSort Semver.

(** ** strings.TrimSpace *)

Definition bytes_string (l : list nat) : string := foldr (λ n s, String (ascii_of_nat n) s) "" l.

(** The encodings of the runes of unicode.IsSpace. *)
Definition spaces : list string :=
  bytes_string <$>
    ([[9]; [10]; [11]; [12]; [13]; [32]; [194; 133]; [194; 160]; [225; 154; 128]]
     ++ ((λ n, [226; 128; n]) <$> seq 128 11)
     ++ [[226; 128; 168]; [226; 128; 169]; [226; 128; 175]; [226; 129; 159]; [227; 128; 128]])%nat.

Fixpoint trim_left (fuel : nat) (s : string) : string :=
  match fuel with
  | O => s
  | S fuel => match List.find (HasPrefix s) spaces with Some p => trim_left fuel (TrimPrefix s p) | None => s end
  end.

Fixpoint trim_right (fuel : nat) (s : string) : string :=
  match fuel with
  | O => s
  | S fuel => match List.find (HasSuffix s) spaces with Some p => trim_right fuel (TrimSuffix s p) | None => s end
  end.

Definition TrimSpace (s : string) : string :=
  let s := trim_left (String.length s) s in trim_right (String.length s) s.

(** ** Comparison methods *)

Definition Version_Equals (v o : Version) : bool := (Version_Compare v o =? 0)%Z.
Definition Version_NE (v o : Version) : bool := negb (Version_Compare v o =? 0)%Z.
Definition Version_GT (v o : Version) : bool := (Version_Compare v o =? 1)%Z.
Definition Version_GTE (v o : Version) : bool := (0 <=? Version_Compare v o)%Z.
Definition Version_GE (v o : Version) : bool := (0 <=? Version_Compare v o)%Z.
Definition Version_LTE (v o : Version) : bool := (Version_Compare v o <=? 0)%Z.
Definition Version_LE (v o : Version) : bool := (Version_Compare v o <=? 0)%Z.

(** ** Validation and construction *)

Inductive validation_error : Type :=
| EmptyPrerelease
| BadPrerelease (s : string)
| EmptyBuild
| BadBuild (s : string).

Fixpoint validate_prereleases (l : list PRVersion) : option validation_error :=
  match l with
  | [] => None
  | pre :: l =>
      if negb (IsNum pre) then
        if Nat.eqb (String.length (VersionStr pre)) 0 then Some EmptyPrerelease
        else if negb (containsOnly (VersionStr pre) alphanum) then Some (BadPrerelease (VersionStr pre))
        else validate_prereleases l
      else validate_prereleases l
  end.

Fixpoint validate_builds (l : list string) : option validation_error :=
  match l with
  | [] => None
  | build :: l =>
      if Nat.eqb (String.length build) 0 then Some EmptyBuild
      else if negb (containsOnly build alphanum) then Some (BadBuild build)
      else validate_builds l
  end.

Definition Validate (v : Version) : option validation_error :=
  match validate_prereleases (Pre v) with
  | Some e => Some e
  | None => validate_builds (Build v)
  end.

(** [New]: the pointer is never nil; beside an error it points to the zero version. *)
Definition New (s : string) : Version * option semver_error :=
  match Parse s with Ok v => (v, None) | Err e => (Version_zero, Some e) end.

Definition Make (s : string) : result semver_error Version := Parse s.

(** [MustParse] panics with the text it could not parse. *)
Definition MustParse (s : string) : go Version :=
  match Parse s with Ok v => Val v | Err _ => gopanic (Panicked ("semver: Parse(" +:+ s +:+ ")")) end.

Definition NewBuildVersion (s : string) : result semver_error string :=
  if Nat.eqb (String.length s) 0 then Err BuildEmpty
  else if negb (containsOnly s alphanum) then Err (InvalidCharsBuild s)
  else Ok s.

Definition IsNumeric (v : PRVersion) : bool := IsNum v.

(** ** Sorting, and reading from a database *)

Definition Versions_Less (a b : Version) : bool := Version_LT a b.

Definition Sort `{GoSort} (versions : list Version) : list Version := sort_Sort Versions_Less versions.

Inductive sql_source : Type := SqlString (s : string) | SqlBytes (s : string) | SqlOther.

(** The inner [err] of a failed Parse shadows the result; [v] keeps its value. *)
Definition Scan (v : Version) (src : sql_source) : Version * option string :=
  match src with
  | SqlString str | SqlBytes str => match Parse str with Ok t => (t, None) | Err _ => (v, None) end
  | SqlOther => (v, Some "Version.Scan: cannot convert to string.")
  end.

Definition Value (v : Version) : string := Version_String v.

(** ** Ranges *)

Definition compEQ (v1 v2 : Version) : bool := (Version_Compare v1 v2 =? 0)%Z.
Definition compNE (v1 v2 : Version) : bool := negb (Version_Compare v1 v2 =? 0)%Z.
Definition compGT (v1 v2 : Version) : bool := (Version_Compare v1 v2 =? 1)%Z.
Definition compGE (v1 v2 : Version) : bool := (0 <=? Version_Compare v1 v2)%Z.
Definition compLT (v1 v2 : Version) : bool := (Version_Compare v1 v2 =? -1)%Z.
Definition compLE (v1 v2 : Version) : bool := (Version_Compare v1 v2 <=? 0)%Z.

Record versionRange : Type := mkVersionRange { vr_v : Version; vr_c : Version → Version → bool }.

(** A function value; nil is None. *)
Definition Range : Type := option (Version → go bool).

Definition call_Range (rf : Range) (v : Version) : go bool :=
  match rf with Some f => f v | None => gopanic NilDereference end.

Definition rangeFunc (vr : versionRange) : Range := Some (λ v, Val (vr_c vr v (vr_v vr))).

Definition Range_OR (rf f : Range) : Range :=
  Some (λ v, b ← call_Range rf v; if (b : bool) then Val true else call_Range f v).

Definition Range_AND (rf f : Range) : Range :=
  Some (λ v, b ← call_Range rf v; if (b : bool) then call_Range f v else Val false).

(** [BadPart]: a part without a version, with an unknown comparator, or with a version
    that does not parse. *)
Inductive range_error : Type := FirstIsOr | LastIsOr | BadPart (s : string).

Definition substring (s : string) (i j : nat) : string := stake (j - i) (sdrop i s).

(** The loop with its counters [i] and [last], [n] bytes before the end. *)
Fixpoint trim_loop (s : string) (n i last : nat) : list string :=
  match n with
  | O => if Nat.ltb last (String.length s - 1) then [sdrop last s] else []
  | S n =>
      if bool_decide (String.get i s = Some " "%char) then
        (if Nat.ltb last (i - 1) then [substring s last i] else []) ++ trim_loop s n (S i) (S i)
      else trim_loop s n (S i) last
  end.

Definition splitAndTrim (s : string) : list string := trim_loop s (String.length s) 0 0.

Fixpoint or_loop (parts rest : list string) (i last : nat) (ORparts : list (list string)) :
    result range_error (list (list string)) :=
  match rest with
  | [] => if Nat.eqb last (length parts) then Err LastIsOr else Ok (ORparts ++ [drop last parts])
  | p :: rest =>
      if bool_decide (p = "||") then
        if Nat.eqb i 0 then Err FirstIsOr
        else or_loop parts rest (S i) (S i) (ORparts ++ [take (i - last) (drop last parts)])
      else or_loop parts rest (S i) last ORparts
  end.

Definition splitORParts (parts : list string) : result range_error (list (list string)) :=
  or_loop parts parts 0 0 [].

(** [strings.IndexFunc(s, unicode.IsDigit)].  A digit outside ASCII is no digit here; a
    part with one is refused either way, here by its comparator, there by its version. *)
Fixpoint index_digit (s : string) : option nat :=
  match s with
  | EmptyString => None
  | String c s => if is_digit c then Some 0%nat else S <$> index_digit s
  end.

Definition splitComparatorVersion (s : string) : option (string * string) :=
  match index_digit s with
  | None => None
  | Some i => Some (TrimSpace (stake i s), sdrop i s)
  end.

Definition parseComparator (s : string) : option (Version → Version → bool) :=
  if bool_decide (s = "==") || bool_decide (s = "") || bool_decide (s = "=") then Some compEQ
  else if bool_decide (s = ">") then Some compGT
  else if bool_decide (s = ">=") then Some compGE
  else if bool_decide (s = "<") then Some compLT
  else if bool_decide (s = "<=") then Some compLE
  else if bool_decide (s = "!") || bool_decide (s = "!=") then Some compNE
  else None.

Definition buildVersionRange (opStr vStr : string) : option versionRange :=
  match parseComparator opStr, Parse vStr with
  | Some c, Ok v => Some (mkVersionRange v c)
  | _, _ => None
  end.

(** The loop over the parts joined by spaces. *)
Fixpoint and_loop (p : list string) (andFn : Range) : result range_error Range :=
  match p with
  | [] => Ok andFn
  | ap :: p =>
      match (sv ← splitComparatorVersion ap; buildVersionRange sv.1 sv.2) with
      | None => Err (BadPart ap)
      | Some vr =>
          let rf := rangeFunc vr in
          and_loop p (match andFn with None => rf | Some _ => Range_AND andFn rf end)
      end
  end.

(** The loop over the parts joined by "||". *)
Fixpoint or_ranges (orParts : list (list string)) (orFn : Range) : result range_error Range :=
  match orParts with
  | [] => Ok orFn
  | p :: orParts =>
      andFn ← and_loop p None;
      or_ranges orParts (match orFn with None => andFn | Some _ => Range_OR orFn andFn end)
  end.

Definition ParseRange (s : string) : result range_error Range :=
  orParts ← splitORParts (splitAndTrim s);
  or_ranges orParts None.

(** ** What a range denotes *)

Inductive range_op : Type := OpEq | OpEqEq | OpNone | OpGt | OpGe | OpLt | OpLe | OpNot | OpNotEq.

Definition op_text (op : range_op) : string :=
  match op with
  | OpEq => "=" | OpEqEq => "==" | OpNone => "" | OpGt => ">" | OpGe => ">=" | OpLt => "<" | OpLe => "<="
  | OpNot => "!" | OpNotEq => "!="
  end.

Definition op_holds (op : range_op) (v w : Version) : bool :=
  let c := Version_Compare v w in
  match op with
  | OpEq | OpEqEq | OpNone => (c =? 0)%Z
  | OpGt => (0 <? c)%Z
  | OpGe => (0 <=? c)%Z
  | OpLt => (c <? 0)%Z
  | OpLe => (c <=? 0)%Z
  | OpNot | OpNotEq => negb (c =? 0)%Z
  end.

(** Alternatives of conjunctions of comparisons. *)
Definition range_term : Type := (range_op * Version)%type.

Definition term_text (t : range_term) : string := op_text t.1 +:+ Version_String t.2.

Definition term_texts (ands : list range_term) : list string := term_text <$> ands.

Definition range_text (ors : list (list range_term)) : string :=
  Join ((λ ands, Join (term_texts ands) " ") <$> ors) " || ".

Definition term_holds (v : Version) (t : range_term) : bool := op_holds t.1 v t.2.

Definition range_holds (ors : list (list range_term)) (v : Version) : bool :=
  existsb (forallb (term_holds v)) ors.

Definition range_ok (ors : list (list range_term)) : Prop :=
  ors ≠ [] ∧ Forall (λ ands, ands ≠ [] ∧ Forall (λ t, valid_Version t.2) ands) ors.

(** *** Splitting at spaces *)

Lemma sdrop_0 (s : string) : sdrop 0 s = s.
Proof. by destruct s. Qed.

Lemma get_app (s : string) c (t : string) : String.get (String.length s) (s +:+ String c t) = Some c.
Proof. induction s as [|a s IH]; [done|]. apply IH. Qed.

Lemma get_length (s : string) : String.get (String.length s) s = None.
Proof. induction s as [|a s IH]; [done|]. apply IH. Qed.

Lemma Split_cons_free cur c rest :
  sfree c cur = true → Split (cur +:+ String c rest) c = cur :: Split rest c.
Proof. apply Split_app. Qed.

Definition long_part (p : string) : Prop := (1 < String.length p)%nat.
#[export] Instance long_part_dec p : Decision (long_part p).
Proof. unfold long_part. apply _. Defined.

(** At byte [i] of [pre ++ cur ++ rest], the part [cur] since the last space. *)
Lemma trim_loop_spec rest pre cur :
  sfree " " cur = true →
  trim_loop (pre +:+ (cur +:+ rest)) (String.length rest) (String.length pre + String.length cur) (String.length pre)
  = filter long_part (Split (cur +:+ rest) " ").
Proof.
  revert pre cur. induction rest as [|c rest IH]; intros pre cur Hcur.
  - cbn [trim_loop String.length]. rewrite !sapp_nil_r, sdrop_app, slength_app.
    rewrite Split_free by done. rewrite filter_cons, filter_nil. unfold long_part.
    destruct (Nat.ltb_spec (String.length pre) (String.length pre + String.length cur - 1));
      destruct (decide _); (done || lia).
  - cbn [trim_loop String.length].
    assert (String.get (String.length pre + String.length cur) (pre +:+ (cur +:+ String c rest)) = Some c) as ->.
    { rewrite <- slength_app, <- sapp_assoc. apply get_app. }
    case_bool_decide as Hc.
    + injection Hc as ->. rewrite Split_cons_free by done. rewrite filter_cons.
      assert (trim_loop (pre +:+ (cur +:+ String " " rest)) (String.length rest)
                (S (String.length pre + String.length cur)) (S (String.length pre + String.length cur))
              = filter long_part (Split rest " ")) as ->.
      { specialize (IH (pre +:+ (cur +:+ " ")) "" eq_refl). rewrite sapp_nil_l in IH. rewrite <- IH.
        rewrite !slength_app. simpl. f_equal; [|lia|lia]. rewrite !sapp_assoc. done. }
      assert (substring (pre +:+ (cur +:+ String " " rest)) (String.length pre) (String.length pre + String.length cur) = cur) as ->.
      { unfold substring. rewrite sdrop_app. replace (_ + _ - _)%nat with (String.length cur) by lia. apply stake_app. }
      unfold long_part at 2. destruct (Nat.ltb_spec (String.length pre) (String.length pre + String.length cur - 1));
        destruct (decide _); (done || lia).
    + specialize (IH pre (cur +:+ String c "")). rewrite slength_app in IH. simpl in IH.
      rewrite sapp_assoc in IH. change (String c "" +:+ rest) with (String c rest) in IH. rewrite <- IH.
      * f_equal; lia.
      * rewrite sfree_app, Hcur. simpl. apply andb_true_iff. split; [|done].
        apply bool_decide_eq_true. congruence.
Qed.

(** Parts of one byte are dropped. *)
Lemma splitAndTrim_spec s : splitAndTrim s = filter long_part (Split s " ").
Proof. exact (trim_loop_spec s "" "" eq_refl). Qed.

(** *** Splitting at the alternatives *)

(** The groups of [cur ++ rest] between the "||", the first one going on from [cur]. *)
Fixpoint or_groups (cur rest : list string) : list (list string) :=
  match rest with
  | [] => [cur]
  | p :: rest => if bool_decide (p = "||") then cur :: or_groups [] rest else or_groups (cur ++ [p]) rest
  end.

Lemma or_groups_nonempty cur rest : or_groups cur rest ≠ [].
Proof. revert cur. induction rest as [|p rest IH]; intros cur; simpl; [done|]. case_bool_decide; [done|apply IH]. Qed.

Lemma or_loop_spec rest done_ cur acc :
  (0 < length done_ + length cur ∨ head rest ≠ Some "||")%nat →
  or_loop (done_ ++ cur ++ rest) rest (length done_ + length cur) (length done_) acc
  = if bool_decide (last (or_groups cur rest) = Some []) then Err LastIsOr else Ok (acc ++ or_groups cur rest).
Proof.
  revert done_ cur acc. induction rest as [|p rest IH]; intros d cur acc Hpos; simpl.
  - rewrite app_nil_r, length_app, drop_app_length. destruct cur as [|x cur]; simpl.
    + by rewrite Nat.add_0_r, Nat.eqb_refl.
    + by rewrite (proj2 (Nat.eqb_neq _ _)) by lia.
  - case_bool_decide as Hp.
    + subst p. destruct Hpos as [Hpos|Hpos]; [|done]. rewrite (proj2 (Nat.eqb_neq _ _)) by lia.
      specialize (IH (d ++ cur ++ ["||"]) [] (acc ++ [cur])). rewrite !length_app in IH. simpl in IH.
      replace (length d + (length cur + 1) + 0)%nat with (S (length d + length cur)) in IH by lia.
      replace (length d + (length cur + 1))%nat with (S (length d + length cur)) in IH by lia.
      rewrite <- !app_assoc in IH. simpl in IH.
      rewrite drop_app_length. replace (_ + _ - _)%nat with (length cur) by lia. rewrite take_app_length.
      rewrite IH by (left; lia). pose proof (or_groups_nonempty [] rest).
      destruct (or_groups [] rest) as [|g gs]; [done|]. change (last (cur :: g :: gs)) with (last (g :: gs)).
      done.
    + specialize (IH d (cur ++ [p]) acc). rewrite length_app in IH. simpl in IH.
      rewrite <- app_assoc in IH. simpl in IH. rewrite <- IH by (left; lia). f_equal. lia.
Qed.

(** The parts of a range, its alternatives joined by "||". *)
Fixpoint or_parts (gs : list (list string)) : list string :=
  match gs with
  | [] => []
  | [g] => g
  | g :: gs => g ++ "||" :: or_parts gs
  end.

Lemma or_groups_free g cur rest :
  Forall (λ p, p ≠ "||") g → or_groups cur (g ++ rest) = or_groups (cur ++ g) rest.
Proof.
  intros Hg. revert cur. induction Hg as [|p g Hp Hg IH]; intros cur; [by rewrite app_nil_r|].
  simpl. rewrite bool_decide_eq_false_2 by done. rewrite IH, <- app_assoc. done.
Qed.

Lemma or_groups_parts gs :
  gs ≠ [] → Forall (Forall (λ p, p ≠ "||")) gs → or_groups [] (or_parts gs) = gs.
Proof.
  induction gs as [|g gs IH]; [done|]. intros _ [Hg Hgs]%Forall_cons. destruct gs as [|g' gs].
  - simpl. rewrite <- (app_nil_r g) at 1. by rewrite or_groups_free.
  - change (or_parts (g :: g' :: gs)) with (g ++ "||" :: or_parts (g' :: gs)).
    rewrite or_groups_free by done. cbn [or_groups app]. by rewrite bool_decide_eq_true_2, IH.
Qed.

Definition group_ok (g : list string) : Prop := g ≠ [] ∧ Forall (λ p, p ≠ "||") g.

Lemma splitORParts_parts gs :
  gs ≠ [] → Forall group_ok gs → splitORParts (or_parts gs) = Ok gs.
Proof.
  intros Hne Hok. unfold splitORParts. pose proof (or_loop_spec (or_parts gs) [] [] []) as H. simpl in H.
  rewrite H.
  - rewrite or_groups_parts; [|done|eapply Forall_impl; [exact Hok|]; by intros g []].
    rewrite bool_decide_eq_false_2; [done|]. intros Hl%last_Some_elem_of.
    rewrite Forall_forall in Hok. by destruct (Hok _ Hl).
  - right. destruct gs as [|[|p g] gs]; [done|by apply Forall_cons in Hok as [[] _]|].
    apply Forall_cons in Hok as [[_ [Hp _]%Forall_cons] _]. destruct gs; simpl; congruence.
Qed.

Lemma Join_app l k sep : l ≠ [] → k ≠ [] → Join (l ++ k) sep = Join l sep +:+ (sep +:+ Join k sep).
Proof.
  intros Hl Hk. induction l as [|s l IH]; [done|]. destruct l as [|s' l].
  - simpl app. by rewrite Join_cons.
  - change ((s :: s' :: l) ++ k) with (s :: ((s' :: l) ++ k)). rewrite !(Join_cons s) by done.
    rewrite IH by done. by rewrite !sapp_assoc.
Qed.

Lemma Join_or_parts gs :
  Forall group_ok gs → Join ((λ g, Join g " ") <$> gs) " || " = Join (or_parts gs) " ".
Proof.
  induction gs as [|g gs IH]; [done|]. intros [[Hg _] Hgs]%Forall_cons. destruct gs as [|g' gs]; [done|].
  assert (or_parts (g' :: gs) ≠ []) as Hne.
  { apply Forall_cons in Hgs as [[Hg' _] _]. destruct gs; [done|]. by destruct g'. }
  change (or_parts (g :: g' :: gs)) with (g ++ "||" :: or_parts (g' :: gs)).
  rewrite fmap_cons, Join_cons, IH by done. rewrite Join_app by done. by rewrite Join_cons by done.
Qed.

(** *** One comparison *)

Lemma alphanum_not_space c : ContainsRune alphanum c = true → c ≠ " "%char.
Proof. intros H ->. vm_compute in H. done. Qed.

Lemma digits_not_space s : sforallb is_digit s = true → sfree " " s = true.
Proof. apply sforallb_impl. intros a Ha. apply bool_decide_eq_true. by intros ->. Qed.

Lemma alphanum_free_space s : containsOnly s alphanum = true → sfree " " s = true.
Proof. apply containsOnly_free, alphanum_not_space. Qed.

Lemma append_pieces_free c l :
  c ≠ " "%char → Forall (λ p, sfree " " p = true) l → sfree " " (append_pieces c l) = true.
Proof.
  intros Hc Hl. destruct Hl as [|p l Hp Hl]; [done|]. cbn [append_pieces].
  rewrite sapp_cons. apply sfree_cons. split; [done|]. rewrite sfree_app, Hp. simpl.
  induction Hl as [|q l Hq _ IH]; [done|]. simpl foldr. rewrite sapp_cons. apply sfree_cons.
  split; [done|]. by rewrite sfree_app, Hq.
Qed.

Lemma PRVersion_String_space p : valid_PRVersion p → sfree " " (PRVersion_String p) = true.
Proof.
  unfold valid_PRVersion, PRVersion_String. destruct (IsNum p).
  - intros _. apply digits_not_space, FormatUint_canonical.
  - intros (_ & _ & Ha & _). by apply alphanum_free_space.
Qed.

Lemma Version_String_space v : valid_Version v → sfree " " (Version_String v) = true.
Proof.
  intros (_ & _ & _ & Hpre & Hb). unfold Version_String.
  assert (∀ n, sfree " " (FormatUint n) = true) as Hn by (intros n; apply digits_not_space, FormatUint_canonical).
  rewrite !sfree_app, Hn. apply andb_true_iff. split; [done|]. rewrite !andb_true_iff. split_and!.
  - by apply sfree_cons.
  - by apply sfree_cons.
  - apply append_pieces_free; [done|]. apply Forall_fmap. eapply Forall_impl; [exact Hpre|]. apply PRVersion_String_space.
  - apply append_pieces_free; [done|]. eapply Forall_impl; [exact Hb|]. intros s [_ Ha]. by apply alphanum_free_space.
Qed.

(** A version begins with a digit and has two dots. *)
Lemma Version_String_head v :
  ∃ c s, Version_String v = String c s ∧ is_digit c = true ∧ (2 < String.length s)%nat.
Proof.
  unfold Version_String. destruct (FormatUint_canonical (Major v)) as [(Hne & Hd & _) _].
  destruct (FormatUint (Major v)) as [|c s]; [done|]. simpl in Hd. apply andb_true_iff in Hd as [Hc _].
  exists c, (s +:+ (String "." (FormatUint (Minor v)) +:+ (String "." (FormatUint (Patch v))
    +:+ (append_pieces "-" (PRVersion_String <$> Pre v) +:+ append_pieces "+" (Build v))))).
  split_and!; [done|done|]. rewrite !slength_app. simpl.
  destruct (FormatUint_canonical (Minor v)) as [(Hm & _) _]. destruct (FormatUint (Minor v)); [done|]. simpl. lia.
Qed.

Lemma term_text_part t : valid_Version t.2 →
  sfree " " (term_text t) = true ∧ long_part (term_text t) ∧ term_text t ≠ "||".
Proof.
  intros Hv. unfold term_text, long_part. destruct (Version_String_head t.2) as (c & s & Heq & Hc & Hlen).
  split_and!.
  - rewrite sfree_app, Version_String_space by done. by destruct (t.1).
  - rewrite slength_app, Heq. simpl. lia.
  - intros H%(f_equal String.length). rewrite slength_app, Heq in H. simpl in H. lia.
Qed.

Lemma index_digit_app (op : string) c s :
  sforallb (λ a, negb (is_digit a)) op = true → is_digit c = true →
  index_digit (op +:+ String c s) = Some (String.length op).
Proof.
  intros Hop Hc. induction op as [|a op IH]; simpl; [by rewrite Hc|].
  simpl in Hop. apply andb_true_iff in Hop as [Ha Hop]. apply negb_true_iff in Ha.
  by rewrite Ha, IH.
Qed.

Lemma splitComparatorVersion_term t :
  splitComparatorVersion (term_text t) = Some (op_text t.1, Version_String t.2).
Proof.
  unfold splitComparatorVersion, term_text. destruct (Version_String_head t.2) as (c & s & Heq & Hc & _).
  rewrite Heq, index_digit_app by (done || by destruct (t.1)).
  rewrite stake_app, sdrop_app. by destruct (t.1).
Qed.

Lemma parseComparator_op op :
  ∃ c, parseComparator (op_text op) = Some c ∧ ∀ v w, c v w = op_holds op v w.
Proof.
  destruct op; (eexists; split; [reflexivity|]); intros v w; try done;
    unfold compGT, compLT, op_holds; pose proof (cmp_range (f:=Version_Compare) v w); lia.
Qed.

(** *** The loops *)

Lemma and_loop_terms ands acc f :
  Forall (λ t, valid_Version t.2) ands → acc = Some f →
  ∃ g, and_loop (term_texts ands) acc = Ok (Some g)
    ∧ ∀ v, g v = (b ← f v; Val (b && forallb (term_holds v) ands)).
Proof.
  intros Hv. revert acc f. induction Hv as [|t ands Ht _ IH]; intros acc f ->.
  - exists f. split; [done|]. intros v. simpl. destruct (f v) as [b|]; [|done]. simpl. by rewrite andb_true_r.
  - cbn [term_texts fmap list_fmap and_loop]. fold (term_texts ands). rewrite splitComparatorVersion_term. cbn [mbind option_bind fst snd].
    unfold buildVersionRange. destruct (parseComparator_op t.1) as (c & -> & Hc). rewrite Parse_print by done.
    edestruct IH as (g & Hg & Hgv); [reflexivity|]. exists g. split; [exact Hg|]. intros v. rewrite Hgv. simpl.
    destruct (f v) as [b|h]; [|done]. simpl. rewrite Hc. change (op_holds t.1 v t.2) with (term_holds v t).
    by destruct b, (term_holds v t).
Qed.

Lemma and_loop_group ands :
  ands ≠ [] → Forall (λ t, valid_Version t.2) ands →
  ∃ g, and_loop (term_texts ands) None = Ok (Some g) ∧ ∀ v, g v = Val (forallb (term_holds v) ands).
Proof.
  intros Hne Hv. destruct Hv as [|t ands Ht Hv]; [done|]. cbn [term_texts fmap list_fmap and_loop]. fold (term_texts ands).
  rewrite splitComparatorVersion_term. cbn [mbind option_bind fst snd].
  unfold buildVersionRange. destruct (parseComparator_op t.1) as (c & -> & Hc). rewrite Parse_print by done.
  edestruct (and_loop_terms ands) as (g & Hg & Hgv); [done|reflexivity|]. exists g. split; [exact Hg|].
  intros v. rewrite Hgv. simpl. by rewrite Hc.
Qed.

Lemma or_ranges_groups ors acc f :
  Forall (λ ands, ands ≠ [] ∧ Forall (λ t, valid_Version t.2) ands) ors → acc = Some f →
  ∃ g, or_ranges (term_texts <$> ors) acc = Ok (Some g)
    ∧ ∀ v, g v = (b ← f v; Val (b || range_holds ors v)).
Proof.
  intros Ho. revert acc f. induction Ho as [|ands ors [Hne Hv] _ IH]; intros acc f ->.
  - exists f. split; [done|]. intros v. simpl. destruct (f v) as [b|]; [|done]. simpl. by rewrite orb_false_r.
  - rewrite fmap_cons. cbn [or_ranges]. destruct (and_loop_group ands Hne Hv) as (h & -> & Hh). cbn [mbind result_bind].
    edestruct IH as (g & Hg & Hgv); [reflexivity|]. exists g. split; [exact Hg|]. intros v. rewrite Hgv. simpl.
    destruct (f v) as [b|e]; [|done]. simpl. destruct b; [done|]. rewrite Hh. done.
Qed.

Lemma range_groups_ok ors :
  range_ok ors →
  Forall group_ok (term_texts <$> ors)
  ∧ Forall (λ p, sfree " " p = true ∧ long_part p) (or_parts (term_texts <$> ors)).
Proof.
  intros [_ Hok]. induction Hok as [|ands ors [Hne Hv] Hrest IH]; [by split; constructor|].
  destruct IH as [IH1 IH2].
  assert (Forall (λ p, (sfree " " p = true ∧ long_part p) ∧ p ≠ "||") (term_texts ands)) as Hp.
  { apply Forall_fmap. eapply Forall_impl; [exact Hv|]. intros t Ht. destruct (term_text_part t Ht) as (? & ? & ?). done. }
  assert (group_ok (term_texts ands)) as Hg.
  { split; [by destruct ands|]. eapply Forall_impl; [exact Hp|]. by intros p []. }
  assert (Forall (λ p, sfree " " p = true ∧ long_part p) (term_texts ands)) as Hf
    by (eapply Forall_impl; [exact Hp|]; by intros p []).
  rewrite fmap_cons. split; [by constructor|]. destruct ors as [|ands' ors]; [done|].
  change (or_parts (term_texts ands :: (term_texts <$> ands' :: ors)))
    with ((term_texts ands) ++ "||" :: or_parts (term_texts <$> ands' :: ors)).
  apply Forall_app. split; [done|]. constructor; [|done]. split; [done|]. unfold long_part. simpl. lia.
Qed.

Lemma splitAndTrim_Join parts :
  parts ≠ [] → Forall (λ p, sfree " " p = true ∧ long_part p) parts → splitAndTrim (Join parts " ") = parts.
Proof.
  intros Hne Hp. rewrite splitAndTrim_spec, Split_Join; [|done|eapply Forall_impl; [exact Hp|]; by intros p []].
  apply list_filter_all. eapply Forall_impl; [exact Hp|]. by intros p [].
Qed.

(** C39. A range written the documented way, comparisons joined by spaces and
    alternatives joined by " || ", parses, and the function it parses to never panics
    and accepts exactly the versions that satisfy all comparisons of one
    alternative, AND binding tighter than OR. *)
Theorem ParseRange_denotes ors :
  range_ok ors →
  ∃ f, ParseRange (range_text ors) = Ok (Some f) ∧ ∀ v, f v = Val (range_holds ors v).
Proof.
  intros Hok. destruct (range_groups_ok ors Hok) as [Hg Hp]. destruct Hok as [Hne Hok].
  destruct Hok as [|ands ors [Ha Hv] Hok]; [done|]. set (groups := term_texts <$> ands :: ors) in *.
  assert (range_text (ands :: ors) = Join (or_parts groups) " ") as ->.
  { rewrite <- Join_or_parts by done. unfold range_text, groups. by rewrite <- list_fmap_compose. }
  assert (or_parts groups ≠ []) as Hnp.
  { unfold groups. destruct ands; [done|]. by destruct ors. }
  unfold ParseRange. rewrite splitAndTrim_Join, splitORParts_parts by done. unfold groups. rewrite fmap_cons.
  cbn [mbind result_bind or_ranges]. destruct (and_loop_group ands Ha Hv) as (h & -> & Hh).
  edestruct (or_ranges_groups ors) as (g & Hgo & Hgv); [done|reflexivity|].
  exists g. split; [exact Hgo|]. intros v. rewrite Hgv, Hh. done.
Qed.

(** A comparator of one byte that stands alone is dropped: "> 1.0.0" is accepted and
    means "exactly 1.0.0". *)
Theorem ParseRange_drops_lone_comparator :
  ∃ f, ParseRange "> 1.0.0" = Ok (Some f)
    ∧ f (mkVersion 1 0 0 [] []) = Val true ∧ f (mkVersion 2 0 0 [] []) = Val false.
Proof. eexists. split; [vm_compute; reflexivity|]. split; vm_compute; reflexivity. Qed.

(** An alternative left empty is accepted as a nil function: the range panics on
    every version the alternatives before it do not accept. *)
Theorem ParseRange_empty_alternative :
  ∃ f, ParseRange ">1.0.0 || || <0.1.0" = Ok (Some f)
    ∧ f (mkVersion 2 0 0 [] []) = Val true ∧ f (mkVersion 1 0 0 [] []) = gopanic NilDereference.
Proof. eexists. split; [vm_compute; reflexivity|]. split; vm_compute; reflexivity. Qed.

(** ** Validation, sorting, scanning *)

Lemma validate_prereleases_None l :
  validate_prereleases l = None ↔
  Forall (λ p, IsNum p = false → VersionStr p ≠ "" ∧ containsOnly (VersionStr p) alphanum = true) l.
Proof.
  induction l as [|p l IH]; simpl; [split; [constructor|done]|]. rewrite Forall_cons, <- IH, length_zero_eqb.
  destruct (IsNum p); simpl; [naive_solver|]. case_bool_decide; [naive_solver|].
  destruct (containsOnly (VersionStr p) alphanum); simpl; naive_solver.
Qed.

Lemma validate_builds_None l : validate_builds l = None ↔ Forall valid_build l.
Proof.
  unfold valid_build. induction l as [|b l IH]; simpl; [split; [constructor|done]|]. rewrite Forall_cons, <- IH, length_zero_eqb.
  case_bool_decide; [naive_solver|]. destruct (containsOnly b alphanum); simpl; naive_solver.
Qed.

(** What Parse returns passes Validate; what passes Validate and has no alphanumeric
    identifier that is a number is what Parse returns. *)
Theorem Validate_valid v :
  valid_Version v ↔
  Validate v = None
  ∧ (Major v < two64)%N ∧ (Minor v < two64)%N ∧ (Patch v < two64)%N
  ∧ Forall (λ p, if IsNum p then VersionStr p = "" ∧ (VersionNum p < two64)%N
                 else VersionNum p = 0%N ∧ containsOnly (VersionStr p) numbers = false) (Pre v).
Proof.
  unfold valid_Version, Validate. pose proof (validate_prereleases_None (Pre v)) as Hp.
  pose proof (validate_builds_None (Build v)) as Hb. rewrite <- Hb.
  assert (Forall valid_PRVersion (Pre v) ↔ validate_prereleases (Pre v) = None
    ∧ Forall (λ p, if IsNum p then VersionStr p = "" ∧ (VersionNum p < two64)%N
                 else VersionNum p = 0%N ∧ containsOnly (VersionStr p) numbers = false) (Pre v)) as ->.
  { rewrite Hp, <- Forall_and. apply Forall_iff. intros p. unfold valid_PRVersion. destruct (IsNum p); naive_solver. }
  destruct (validate_prereleases (Pre v)); split.
  - intros (_ & _ & _ & [[=] _] & _).
  - intros [[=] _].
  - intros (? & ? & ? & [_ ?] & ?). split_and!; assumption.
  - intros (? & ? & ? & ? & ?). split_and!; (assumption || reflexivity).
Qed.

Lemma Versions_Less_swo : StrictWeakOrder Versions_Less.
Proof. exact (cmp_swo Version_Compare _). Qed.

Lemma Sort_versions `{GSL : GoSortLaws} versions :
  Sort versions ≡ₚ versions
  ∧ StronglySorted (λ v w, Version_LE v w = true) (Sort versions).
Proof.
  split; [apply sort_perm|]. eapply StronglySorted_impl; [|exact (sort_sorted Versions_Less versions Versions_Less_swo)].
  intros v w. unfold not_after, Versions_Less, Version_LT, Version_LE. intros Hn.
  pose proof (cmp_range (f:=Version_Compare) v w). rewrite (cmp_flip (f:=Version_Compare) v w) in Hn. lia.
Qed.

(** A text that does not parse is scanned without an error and leaves the version as
    it was. *)
Theorem Scan_hides_errors v s e : Parse s = Err e → Scan v (SqlString s) = (v, None).
Proof. simpl. by intros ->. Qed.

Lemma Scan_Value v w : valid_Version w → Scan v (SqlString (Value w)) = (w, None).
Proof. intros Hw. simpl. unfold Value. by rewrite Parse_print. Qed.

(** ** Witness *)

Definition sample_range : list (list range_term) :=
  [[(OpGt, mkVersion 1 0 0 [] []); (OpLt, mkVersion 2 0 0 [] [])]; [(OpGe, mkVersion 3 0 0 [] [])]].

Lemma ParseRange_denotes_witness :
  range_text sample_range = ">1.0.0 <2.0.0 || >=3.0.0"
  ∧ ∃ f, ParseRange (range_text sample_range) = Ok (Some f)
    ∧ f (mkVersion 1 5 0 [] []) = Val true ∧ f (mkVersion 2 5 0 [] []) = Val false.
Proof.
  split; [reflexivity|]. destruct (ParseRange_denotes sample_range) as (f & Hf & Hv).
  - split; [done|]. repeat constructor; try done; vm_compute; reflexivity.
  - exists f. split; [exact Hf|]. rewrite !Hv. split; reflexivity.
Defined.
