(* ===== verification/Page.v ===== *)
(** * Package page: the rows the console renders, their filters and sorts

    The records of pkg/page/types.go that do not embed an API object (Node and
    NodeDetail, which do, are in Render.v), and of pkg/page/algorithm.go the pod
    sorts, GetPodsFilters and the three pod filters.  Image versions are in
    Versions.v.  An instant (time.Time) is its number of nanoseconds after the
    zero Time. *)

From stdpp Require Import prelude gmap strings sorting.
From Stdlib Require Import ZArith NArith Ascii.
From S2P Require Import Prelude GoStrings GoSort Semver.

Module page.

Record Event : Type := mkEvent {
  Event_FirstSeen : string;
  Event_LastSeen : string;
  Event_Count : Z;
  Event_FromComponent : string;
  Event_FromHost : string;
  Event_SubobjectName : string;
  Event_SubobjectKind : string;
  Event_SubobjectPath : string;
  Event_Reason : string;
  Event_Message : string;
}.

Record Resources : Type := mkResources {
  Resources_Namespace : string;
  Resources_Name : string;
  Resources_CpuRequest : string;
  Resources_CpuLimit : string;
  Resources_MemoryRequest : string;
  Resources_MemoryLimit : string;
  Resources_FractionCpuRequest : Z;
  Resources_FractionCpuLimit : Z;
  Resources_FractionMemoryRequest : Z;
  Resources_FractionMemoryLimit : Z;
}.

(** The zero value [page.Resources{}]. *)
Definition Resources_zero : Resources := mkResources "" "" "" "" "" "" 0 0 0 0.

Record PodImage : Type := mkPodImage {
  PodImage_Image : string;
  PodImage_PrivateRepo : bool;
}.

Record Pod : Type := mkPod {
  Pod_Namespace : string;
  Pod_Name : string;
  Pod_Images : list PodImage;
  Pod_TotalContainers : Z;
  Pod_ReadyContainers : Z;
  Pod_Status : string;
  Pod_Restarts : Z;
  Pod_Age : string;
  Pod_ContainerAge : string;
  Pod_ContainerBirth : Z;
  Pod_HostNetwork : bool;
  Pod_HostIP : string;
  Pod_PodIP : string;
  Pod_Ports : list string;
  Pod_Requests : gomap string;
  Pod_Limits : gomap string;
}.

Record Namespace : Type := mkNamespace {
  Namespace_Name : string;
  Namespace_PodCount : Z;
  Namespace_EventCount : Z;
}.

Record Summary : Type := mkSummary {
  Summary_Namespaces : list Namespace;
  Summary_NodeCount : Z;
}.

Record ReplicationController : Type := mkReplicationController {
  ReplicationController_Name : string;
  ReplicationController_DesiredReplicas : Z;
  ReplicationController_CurrentReplicas : Z;
  ReplicationController_Age : string;
  ReplicationController_Selector : gomap string;
  ReplicationController_SelectorString : string;
  ReplicationController_TemplateImages : list PodImage;
}.

Record Service : Type := mkService {
  Service_Name : string;
  Service_InternalIP : string;
  Service_ExternalIP : string;
  Service_Ports : list string;
  Service_Age : string;
  Service_Selector : gomap string;
  Service_SelectorString : string;
}.

Record Endpoint : Type := mkEndpoint {
  Endpoint_Name : string;
  Endpoint_Age : string;
  Endpoint_Endpoints : string;
}.

Record SimplePod : Type := mkSimplePod {
  SimplePod_Name : string;
  SimplePod_Images : list string;
}.

Record SimpleImage : Type := mkSimpleImage {
  SimpleImage_Name : string;
  SimpleImage_Tags : list string;
}.

#[export] Instance PodImage_eq_dec : EqDecision PodImage.
Proof. solve_decision. Defined.

#[export] Instance Pod_eq_dec : EqDecision Pod.
Proof. solve_decision. Defined.

#[export] Program Instance PodImage_countable : Countable PodImage :=
  inj_countable' (λ i, (PodImage_Image i, PodImage_PrivateRepo i)) (λ p, mkPodImage p.1 p.2) _.
Next Obligation. by intros []. Qed.

(** ** Orders on rows *)

Definition ByBirth_Less (a b : Pod) : bool := (Pod_ContainerBirth a <? Pod_ContainerBirth b)%Z.
Definition ByName_Less (a b : Pod) : bool := sltb (Pod_Name a) (Pod_Name b).
Definition byImageName_Less (a b : PodImage) : bool := sltb (PodImage_Image a) (PodImage_Image b).

#[export] Instance ByBirth_swo : StrictWeakOrder ByBirth_Less.
Proof. apply (swo_proj Pod_ContainerBirth Z.ltb), _. Qed.

#[export] Instance ByName_swo : StrictWeakOrder ByName_Less.
Proof. apply (swo_proj Pod_Name sltb), _. Qed.

#[export] Instance byImageName_swo : StrictWeakOrder byImageName_Less.
Proof. apply (swo_proj PodImage_Image sltb), _. Qed.

(** ** Filters of the pod list *)

Definition hasImage (this : Pod) (image : PodImage) : bool :=
  existsb (λ x, bool_decide (x = image)) (Pod_Images this).

Definition FilterPodsByImage (pods : list Pod) (image : PodImage) : list Pod :=
  filter (λ pod, hasImage pod image = true) pods.

Definition FilterPodsByStatus (pods : list Pod) (status : string) : list Pod :=
  filter (λ pod, Pod_Status pod = status) pods.

Definition FilterPodsByHost (pods : list Pod) (host : string) : list Pod :=
  filter (λ pod, Pod_HostIP pod = host) pods.

(** The three sets GetPodsFilters collects, as the maps to bool they are. *)
Record filter_sets : Type := mkSets {
  imageSet : gmap PodImage bool;
  statusSet : gmap string bool;
  hostSet : gmap string bool;
}.

Definition add_pod (s : filter_sets) (pod : Pod) : filter_sets :=
  mkSets (foldl (λ m image, <[image := true]> m) (imageSet s) (Pod_Images pod))
         (<[Pod_Status pod := true]> (statusSet s))
         (<[Pod_HostIP pod := true]> (hostSet s)).

Definition collect (pods : list Pod) : filter_sets := foldl add_pod (mkSets ∅ ∅ ∅) pods.

Definition GetPodsFilters `{GoSort, MapRange} (pods : list Pod) :
    list PodImage * list string * list string :=
  let s := collect pods in
  (sort_Sort byImageName_Less (range_keys (imageSet s)),
   sort_Strings (range_keys (statusSet s)),
   sort_Strings (range_keys (hostSet s))).

(** ** Lemmas *)

Lemma hasImage_spec pod image : hasImage pod image = true ↔ image ∈ Pod_Images pod.
Proof.
  unfold hasImage. rewrite existsb_exists. setoid_rewrite bool_decide_eq_true.
  setoid_rewrite <- list_elem_of_In. naive_solver.
Qed.

Lemma foldl_insert_true {K} `{Countable K} (l : list K) (m : gmap K bool) k :
  is_Some (foldl (λ m x, <[x := true]> m) m l !! k) ↔ k ∈ l ∨ is_Some (m !! k).
Proof.
  revert m. induction l as [|x l IH]; intros m; simpl; [set_solver|].
  rewrite IH, elem_of_cons, lookup_insert_is_Some. destruct (decide (x = k)); naive_solver.
Qed.

Lemma collect_spec pods :
  (∀ i, is_Some (imageSet (collect pods) !! i) ↔ ∃ p, p ∈ pods ∧ i ∈ Pod_Images p)
  ∧ (∀ s, is_Some (statusSet (collect pods) !! s) ↔ ∃ p, p ∈ pods ∧ Pod_Status p = s)
  ∧ (∀ h, is_Some (hostSet (collect pods) !! h) ↔ ∃ p, p ∈ pods ∧ Pod_HostIP p = h).
Proof.
  unfold collect. induction pods as [|p pods IH] using rev_ind.
  - split_and!; intros k; simpl; rewrite lookup_empty; (split; [by intros []|set_solver]).
  - rewrite foldl_app. simpl. destruct IH as (H1 & H2 & H3). split_and!; intros k.
    + rewrite foldl_insert_true, H1. set_solver.
    + rewrite lookup_insert_is_Some, H2. destruct (decide (Pod_Status p = k)); set_solver.
    + rewrite lookup_insert_is_Some, H3. destruct (decide (Pod_HostIP p = k)); set_solver.
Qed.

Section filters.
Context `{GoSortLaws, MapRangeLaws}.

Lemma sorted_keys_spec {K} `{Countable K} (less : K → K → bool) (m : gmap K bool) :
  StrictWeakOrder less →
  StronglySorted (not_after less) (sort_Sort less (range_keys m))
  ∧ NoDup (sort_Sort less (range_keys m))
  ∧ ∀ k, k ∈ sort_Sort less (range_keys m) ↔ is_Some (m !! k).
Proof.
  intros Hl. split_and!; [by apply sort_sorted|..].
  - rewrite sort_perm. apply NoDup_range_keys.
  - intros k. rewrite sort_perm. apply elem_of_range_keys.
Qed.

(** GetPodsFilters lists, for each of the three drop-down filters of the pod
    page, every value that occurs on some pod, once, in order: the images by
    name, the statuses and the hosts by the byte order of strings. *)
Theorem GetPodsFilters_spec pods images statuses hosts :
  GetPodsFilters pods = (images, statuses, hosts) →
  (StronglySorted (not_after byImageName_Less) images ∧ NoDup images
    ∧ ∀ i, i ∈ images ↔ ∃ p, p ∈ pods ∧ i ∈ Pod_Images p)
  ∧ (StronglySorted String.le statuses ∧ NoDup statuses
    ∧ ∀ s, s ∈ statuses ↔ ∃ p, p ∈ pods ∧ Pod_Status p = s)
  ∧ (StronglySorted String.le hosts ∧ NoDup hosts
    ∧ ∀ h, h ∈ hosts ↔ ∃ p, p ∈ pods ∧ Pod_HostIP p = h).
Proof.
  intros [= <- <- <-]. destruct (collect_spec pods) as (Hi & Hs & Hh).
  pose proof (sorted_keys_spec byImageName_Less (imageSet (collect pods)) _) as (?&?&Hi').
  pose proof (sorted_keys_spec sltb (statusSet (collect pods)) _) as (Hss&?&Hs').
  pose proof (sorted_keys_spec sltb (hostSet (collect pods)) _) as (Hhs&?&Hh').
  unfold sort_Strings.
  split_and!; try done; intros.
  - by rewrite Hi', Hi.
  - by apply sorted_le.
  - by rewrite Hs', Hs.
  - by apply sorted_le.
  - by rewrite Hh', Hh.
Qed.
End filters.

(** The status and host filters of the pod page do not depend on the
    iteration order of the maps that collect them nor on the sorting algorithm:
    any two runs offer the same lists. *)
Theorem GetPodsFilters_deterministic
    (S1 S2 : GoSort) (M1 M2 : MapRange)
    (HS1 : @GoSortLaws S1) (HS2 : @GoSortLaws S2)
    (HM1 : @MapRangeLaws M1) (HM2 : @MapRangeLaws M2) pods :
  (@GetPodsFilters S1 M1 pods).1.2 = (@GetPodsFilters S2 M2 pods).1.2
  ∧ (@GetPodsFilters S1 M1 pods).2 = (@GetPodsFilters S2 M2 pods).2.
Proof.
  assert (∀ m : gmap string bool,
    @sort_Strings S1 (@range_keys M1 _ _ _ _ m) = @sort_Strings S2 (@range_keys M2 _ _ _ _ m)) as Heq.
  { intros m. eapply (StronglySorted_unique String.le).
    - apply sorted_le, (@sort_sorted S1 HS1), _.
    - apply sorted_le, (@sort_sorted S2 HS2), _.
    - unfold sort_Strings. rewrite (@sort_perm S1 HS1), (@sort_perm S2 HS2).
      unfold range_keys. by rewrite (@map_range_perm M1 HM1), (@map_range_perm M2 HM2). }
  split; simpl; apply Heq.
Qed.

(** Concrete rows for the witnesses. *)
Definition row (name image status host : string) (birth : Z) : Pod :=
  mkPod "default" name [mkPodImage image true] 1 1 status 0 "1d" "1d" birth false host "" [] None None.

Lemma GetPodsFilters_spec_witness :
  mkPodImage "b:1.0.0" true ∈ [mkPodImage "a:1.0.0" true; mkPodImage "b:1.0.0" true]
  ↔ ∃ p, p ∈ [row "p" "b:1.0.0" "Running" "h1" 1; row "q" "a:1.0.0" "Running" "h2" 2]
         ∧ mkPodImage "b:1.0.0" true ∈ Pod_Images p.
Proof.
  pose proof (@GetPodsFilters_spec insertion_GoSort insertion_GoSortLaws list_MapRange list_MapRangeLaws
    [row "p" "b:1.0.0" "Running" "h1" 1; row "q" "a:1.0.0" "Running" "h2" 2]
    [mkPodImage "a:1.0.0" true; mkPodImage "b:1.0.0" true] ["Running"] ["h1"; "h2"]
    ltac:(vm_compute; reflexivity)) as ((_ & _ & H) & _).
  exact (H (mkPodImage "b:1.0.0" true)).
Defined.

Lemma GetPodsFilters_deterministic_witness :
  let pods := [row "p" "b:1.0.0" "Running" "h1" 1; row "q" "a:1.0.0" "Pending" "h2" 2] in
  (@GetPodsFilters insertion_GoSort list_MapRange pods).1.2
  = (@GetPodsFilters insertion_GoSort rev_MapRange pods).1.2.
Proof.
  intros pods.
  apply (proj1 (GetPodsFilters_deterministic insertion_GoSort insertion_GoSort list_MapRange rev_MapRange
    insertion_GoSortLaws insertion_GoSortLaws list_MapRangeLaws rev_MapRangeLaws pods)).
Defined.

End page.
