(* ===== verification/Versions.v ===== *)
(** * Image versions: the tag lists offered for an upgrade or a downgrade

    CombinedVersion and its operations in pkg/page/algorithm.go, the tag loop of
    getImageTags and the per-image body of showPodsForm in main.go. *)

From stdpp Require Import prelude strings sorting.
From Stdlib Require Import ZArith NArith Ascii.
From S2P Require Import Prelude GoStrings GoSort Semver.

Record CombinedVersion : Type := mkCV {
  Prefix : string;
  Version_ : Version;
}.

#[export] Instance CombinedVersion_eq_dec : EqDecision CombinedVersion.
Proof. solve_decision. Defined.

(** [combinedVersions.Less]: by version, then by prefix. *)
Definition combinedVersions_Less (a b : CombinedVersion) : bool :=
  if Version_EQ (Version_ a) (Version_ b) then sltb (Prefix a) (Prefix b)
  else Version_LT (Version_ a) (Version_ b).

(** The last attempt of ParseImageTag, with the error met so far: a version behind
    the first hyphen. *)
Definition parse_after_hyphen (s : string) (err : semver_error) : result semver_error CombinedVersion :=
  match IndexRune s "-" with
  | Some i =>
      match Parse (sdrop (i + 1) s) with
      | Ok version => Ok (mkCV (stake (i + 1) s) version)
      | Err err => Err err
      end
  | None => Err err
  end.

(** A semantic version, or one behind a leading "v", or one behind the first
    hyphen; the error is the last one met. *)
Definition ParseImageTag (s : string) : result semver_error CombinedVersion :=
  match Parse s with
  | Ok version => Ok (mkCV "" version)
  | Err err =>
      match IndexRune s "v" with
      | Some O =>
          match Parse (sdrop 1 s) with
          | Ok version => Ok (mkCV (stake 1 s) version)
          | Err err => parse_after_hyphen s err
          end
      | _ => parse_after_hyphen s err
      end
  end.

Definition SortCombinedVersions `{GoSort} (versions : list CombinedVersion) : list CombinedVersion :=
  sort_Sort combinedVersions_Less versions.

Definition CombinedVersion_String (v : CombinedVersion) : string :=
  Prefix v +:+ Version_String (Version_ v).

(** The index of the first item printed as [one], or -1. *)
Fixpoint search_from (items : list CombinedVersion) (one : string) (i : Z) : Z :=
  match items with
  | [] => -1
  | v :: items => if bool_decide (CombinedVersion_String v = one) then i else search_from items one (i + 1)
  end.

Definition SearchCombinedVersions (items : list CombinedVersion) (one : string) : Z :=
  search_from items one 0.

(** [items[i], items[j] = items[j], items[i]]. *)
Definition swap {A} (items : list A) (i j : nat) : go (list A) :=
  a ← index items i; b ← index items j;
  items ← set_index items i b; set_index items j a.

(** The two-index loop of ReverseCombinedVersions.  The distance between the
    indices shrinks by two at each turn, so the length bounds the turns. *)
Fixpoint reverse_loop {A} (fuel : nat) (items : list A) (i j : Z) : go (list A) :=
  match fuel with
  | O => Val items
  | S fuel =>
      if (i <? j)%Z
      then items ← swap items (Z.to_nat i) (Z.to_nat j); reverse_loop fuel items (i + 1) (j - 1)
      else Val items
  end.

Definition ReverseCombinedVersions (items : list CombinedVersion) : go (list CombinedVersion) :=
  reverse_loop (length items) items 0 (Z.of_nat (length items) - 1).

Definition LimitCombinedVersions (items : list CombinedVersion) (max : nat) : list CombinedVersion :=
  if Nat.ltb max (length items) then take max items else items.

Definition CombinedVersionsToStrings (items : list CombinedVersion) : list string :=
  CombinedVersion_String <$> items.

(** The loop of getImageTags: tags that do not parse are logged and skipped. *)
Fixpoint parse_tags (tags : list string) : list CombinedVersion :=
  match tags with
  | [] => []
  | t :: tags => match ParseImageTag t with Ok v => v :: parse_tags tags | Err _ => parse_tags tags end
  end.

(** [l[i:]] and [l[:i]]. *)
Definition slice_from {A} (l : list A) (i : Z) : go (list A) :=
  if (0 <=? i)%Z && (i <=? Z.of_nat (length l))%Z then Val (drop (Z.to_nat i) l)
  else gopanic SliceOutOfRange.

Definition slice_to {A} (l : list A) (i : Z) : go (list A) :=
  if (0 <=? i)%Z && (i <=? Z.of_nat (length l))%Z then Val (take (Z.to_nat i) l)
  else gopanic SliceOutOfRange.

(** The body of the image loop of showPodsForm, from the tags the registry
    returned: which tags the form offers for an action and the current tag. *)
Definition select_tags `{GoSort} (action tag : string) (tags : list CombinedVersion) : go (list string) :=
  tagList ←
    (if bool_decide (action = "upgrade") then
       let tagList := SortCombinedVersions tags in
       let index := SearchCombinedVersions tagList tag in
       slice_from tagList (index + 1)
     else if bool_decide (action = "downgrade") then
       let tagList := SortCombinedVersions tags in
       let index := SearchCombinedVersions tagList tag in
       let index := if (index =? -1)%Z then Z.of_nat (length tagList) else index in
       tagList ← slice_to tagList index;
       ReverseCombinedVersions tagList
     else Val []);
  Val (CombinedVersionsToStrings (LimitCombinedVersions tagList 50)).

(** [strings.SplitN(image, ":", 2)]: the repository name and the tag, "latest"
    when there is none. *)
Definition split_image (image : string) : string * string :=
  match SplitN image ":" 2 with
  | name :: tag :: _ => (name, tag)
  | [name] => (name, "latest")
  | [] => ("", "latest")
  end.

(** ** The order on combined versions *)

Definition combined_cmp (a b : CombinedVersion) : Z :=
  lex (Version_Compare (Version_ a) (Version_ b)) (str_cmp (Prefix a) (Prefix b)).

#[export] Instance combined_cmp_order : CmpOrder combined_cmp.
Proof. apply lex_order; apply proj_order, _. Qed.

Lemma combinedVersions_Less_cmp a b : combinedVersions_Less a b = (combined_cmp a b =? -1)%Z.
Proof.
  unfold combinedVersions_Less, combined_cmp, Version_EQ, Version_LT, lex.
  destruct (_ =? 0)%Z; [apply sltb_cmp|done].
Qed.

#[export] Instance combinedVersions_swo : StrictWeakOrder combinedVersions_Less.
Proof.
  destruct (cmp_swo combined_cmp _) as [H1 H2].
  split; intros a b; rewrite !combinedVersions_Less_cmp; [apply H1|].
  intros c. rewrite !combinedVersions_Less_cmp. apply H2.
Qed.

(** ** Tags and their text *)

Lemma IndexRune_Some s c i :
  IndexRune s c = Some i → s = stake i s +:+ String c (sdrop (i + 1) s) ∧ sfree c (stake i s) = true.
Proof.
  intros Hi. pose proof (IndexRune_cut s c) as Hc. rewrite Hi, <- (Nat.add_1_r i) in Hc.
  by apply cut_Some in Hc.
Qed.

(** A tag that parses is the text of its combined version. *)
Lemma ParseImageTag_sound s c : ParseImageTag s = Ok c → CombinedVersion_String c = s.
Proof.
  assert (∀ i v, Parse (sdrop i s) = Ok v → stake i s +:+ Version_String v = s) as Hcut.
  { intros i v Hp. apply Version_String_Parse_eq in Hp as ->. apply stake_sdrop. }
  assert (∀ e, parse_after_hyphen s e = Ok c → CombinedVersion_String c = s) as Hhyp.
  { intros e H. unfold parse_after_hyphen in H. repeat case_hyp H; go_inv. by apply Hcut. }
  unfold ParseImageTag. intros H. repeat case_hyp H; go_inv; eauto.
  - by apply Version_String_Parse_eq.
  - by apply (Hcut 1).
Qed.

Lemma elem_of_parse_tags c tags :
  c ∈ parse_tags tags ↔ ∃ t, t ∈ tags ∧ ParseImageTag t = Ok c.
Proof.
  induction tags as [|t tags IH]; simpl.
  { split; [by intros ?%not_elem_of_nil|by intros (t & ?%not_elem_of_nil & _)]. }
  setoid_rewrite elem_of_cons. destruct (ParseImageTag t) as [v|e] eqn:E.
  - rewrite elem_of_cons, IH. split; [intros [->|(t' & ? & ?)]; eauto|].
    intros (t' & [->|Ht] & Hp); [left; congruence|eauto].
  - rewrite IH. split; [intros (t' & ? & ?); eauto|].
    intros (t' & [->|Ht] & Hp); [congruence|eauto].
Qed.

Lemma parse_tags_String c tags : c ∈ parse_tags tags → CombinedVersion_String c ∈ tags.
Proof.
  rewrite elem_of_parse_tags. intros (t & Ht & Hp). by rewrite (ParseImageTag_sound _ _ Hp).
Qed.

(** ** Reversal in place *)

Lemma swap_spec {A} (l m r : list A) a b :
  swap (l ++ a :: m ++ b :: r) (length l) (length l + S (length m)) = Val (l ++ b :: m ++ a :: r).
Proof.
  assert (∀ x, (l ++ x :: m ++ b :: r) !! (length l + S (length m)) = Some b) as Hb.
  { intros x. rewrite lookup_app_r by lia. rewrite Nat.add_comm, Nat.add_sub. simpl.
    by rewrite list_lookup_middle. }
  unfold swap, index, set_index. rewrite list_lookup_middle, Hb by done. simpl.
  rewrite insert_app_r_alt, Nat.sub_diag by lia. simpl. rewrite Hb.
  rewrite insert_app_r. simpl. rewrite insert_app_r_alt, Nat.sub_diag by lia. done.
Qed.

Lemma reverse_loop_spec {A} fuel (l m r : list A) :
  length m ≤ fuel →
  reverse_loop fuel (l ++ m ++ r) (Z.of_nat (length l)) (Z.of_nat (length l + length m) - 1)
  = Val (l ++ reverse m ++ r).
Proof.
  revert l m r. induction fuel as [|fuel IH]; intros l m r Hf.
  { by destruct m; simpl in *; [|lia]. }
  cbn [reverse_loop]. destruct m as [|a m]; [simpl; by destruct (Z.ltb_spec (Z.of_nat (length l)) (Z.of_nat (length l + 0) - 1)); [lia|]|].
  destruct m as [|b m _] using rev_ind.
  { simpl. by destruct (Z.ltb_spec (Z.of_nat (length l)) (Z.of_nat (length l + 1) - 1)); [lia|]. }
  simpl in *. rewrite length_app in *. simpl in *.
  rewrite (proj2 (Z.ltb_lt _ _)) by lia.
  rewrite Nat2Z.id, <- app_assoc.
  replace (Z.to_nat _) with (length l + S (length m)) by lia. simpl.
  rewrite swap_spec. simpl.
  specialize (IH (l ++ [b]) m (a :: r)). rewrite <- !app_assoc, length_app in IH. simpl in IH.
  rewrite reverse_cons, reverse_app, <- !app_assoc. simpl. rewrite <- IH by lia.
  f_equal; lia.
Qed.

(** The in-place loop is list reversal, and never indexes out of range. *)
Lemma ReverseCombinedVersions_reverse items : ReverseCombinedVersions items = Val (reverse items).
Proof.
  unfold ReverseCombinedVersions.
  pose proof (reverse_loop_spec (length items) [] items [] (le_n _)) as H.
  simpl in H. by rewrite !app_nil_r in H.
Qed.

(** ** Search and limit *)

Lemma search_from_spec items one i :
  (search_from items one i = -1 ∧ Forall (λ v, CombinedVersion_String v ≠ one) items)%Z
  ∨ ∃ l v r, items = l ++ v :: r ∧ CombinedVersion_String v = one
      ∧ Forall (λ v, CombinedVersion_String v ≠ one) l
      ∧ search_from items one i = (i + Z.of_nat (length l))%Z.
Proof.
  revert i. induction items as [|v items IH]; intros i; [by left|]. simpl.
  case_bool_decide as Hv.
  - right. exists [], v, items. simpl. split_and!; try done. lia.
  - destruct (IH (i + 1)%Z) as [[-> ?]|(l & w & r & -> & ? & ? & ->)]; [left; by auto|].
    right. exists (v :: l), w, r. simpl. split_and!; try done; [by constructor|lia].
Qed.

Lemma LimitCombinedVersions_take items max : LimitCombinedVersions items max = take max items.
Proof.
  unfold LimitCombinedVersions. destruct (Nat.ltb_spec max (length items)); [done|].
  by rewrite take_ge.
Qed.

(** ** Theorems *)

Definition parses (s : string) : Prop := ∃ v, Parse s = Ok v.

Lemma parse_after_hyphen_accepts s e :
  (∃ c, parse_after_hyphen s e = Ok c) ↔
  ∃ p t, s = p +:+ String "-" t ∧ sfree "-" p = true ∧ parses t.
Proof.
  unfold parse_after_hyphen. pose proof (IndexRune_cut s "-") as Hc.
  destruct (IndexRune s "-") as [i|].
  - rewrite <- (Nat.add_1_r i) in Hc. split.
    + intros [c H]. repeat case_hyp H; go_inv. apply cut_Some in Hc as [Hs ?].
      eexists _, _. split_and!; [exact Hs|done|by eexists].
    + intros (p & t & -> & Hp & v & Hv). rewrite cut_app in Hc by done.
      injection Hc as _ <-. rewrite Hv. by eexists.
  - split; [by intros [??]|]. intros (p & t & -> & Hp & _). by rewrite cut_app in Hc.
Qed.

(** ParseImageTag accepts exactly the three documented shapes: a semantic
    version, "v" followed by one, or anything up to the first hyphen followed by
    one.  What it returns prints as the tag it was given. *)
Theorem ParseImageTag_spec s :
  ((∃ c, ParseImageTag s = Ok c) ↔
     parses s ∨ (∃ t, s = String "v" t ∧ parses t)
     ∨ (∃ p t, s = p +:+ String "-" t ∧ sfree "-" p = true ∧ parses t))
  ∧ ∀ c, ParseImageTag s = Ok c → CombinedVersion_String c = s.
Proof.
  split; [|apply ParseImageTag_sound]. unfold ParseImageTag.
  destruct (Parse s) as [v|e] eqn:E0; [split; eauto; left; by exists v|].
  assert (¬ parses s) as Hs by (intros [v ?]; congruence).
  destruct s as [|a s].
  { simpl. rewrite parse_after_hyphen_accepts. naive_solver. }
  simpl. destruct (decide (a = "v"%char)) as [->|Hv].
  - destruct (Parse s) as [v|e'] eqn:E1.
    + split; [|by eexists]. intros _. right; left. exists s. split; [done|by exists v].
    + rewrite parse_after_hyphen_accepts. split; [by auto|].
      intros [?|[(t & [= ->] & v & ?)|?]]; [done|congruence|done].
  - destruct (IndexRune s "v"); simpl; rewrite parse_after_hyphen_accepts;
      (split; [by auto|]; intros [?|[(t & [= ] & _)|?]]; done).
Qed.

Section select.
Context `{GoSortLaws}.

Lemma Sort_sorted tags :
  StronglySorted (not_after combinedVersions_Less) (SortCombinedVersions tags).
Proof. apply sort_sorted, _. Qed.

Lemma Sort_perm tags : SortCombinedVersions tags ≡ₚ tags.
Proof. apply sort_perm. Qed.

(** C18. When the registry still has the current tag, the form splits the sorted
    tag list at it: "upgrade" offers the (at most 50) tags right after it in
    ascending order, none of them older than the current one, and "downgrade"
    the tags before it, nearest first, none of them newer. *)
Theorem select_tags_around_current tags tag :
  Exists (λ c, CombinedVersion_String c = tag) tags →
  ∃ older cur newer,
    older ++ cur :: newer ≡ₚ tags
    ∧ StronglySorted (not_after combinedVersions_Less) (older ++ cur :: newer)
    ∧ CombinedVersion_String cur = tag
    ∧ Forall (λ c, CombinedVersion_String c ≠ tag) older
    ∧ select_tags "upgrade" tag tags = Val (take 50 (CombinedVersion_String <$> newer))
    ∧ select_tags "downgrade" tag tags = Val (take 50 (CombinedVersion_String <$> reverse older)).
Proof.
  intros Hex. rewrite <- (Sort_perm tags) in Hex.
  pose proof (Sort_sorted tags) as Hsort. pose proof (Sort_perm tags) as Hperm.
  unfold select_tags, SearchCombinedVersions. simpl.
  destruct (search_from_spec (SortCombinedVersions tags) tag 0)
    as [[_ Hall]|(l & v & r & Heq & Hv & Hl & ->)].
  { exfalso. apply Exists_exists in Hex as (c & Hc & Hct).
    rewrite Forall_forall in Hall. by apply (Hall c Hc). }
  rewrite Heq in *. exists l, v, r.
  split_and!; try done.
  - unfold slice_from. rewrite length_app. simpl length.
    rewrite (proj2 (Z.leb_le _ _)), (proj2 (Z.leb_le _ _)) by lia. simpl.
    replace (Z.to_nat _) with (length (l ++ [v])) by (rewrite length_app; simpl; lia).
    rewrite (cons_middle v l r), app_assoc, drop_app_length.
    unfold CombinedVersionsToStrings. by rewrite LimitCombinedVersions_take, fmap_take.
  - rewrite (proj2 (Z.eqb_neq _ _)) by lia. unfold slice_to. rewrite length_app. simpl length.
    rewrite (proj2 (Z.leb_le _ _)), (proj2 (Z.leb_le _ _)) by lia. simpl.
    replace (Z.to_nat _) with (length l) by lia.
    rewrite take_app_length, ReverseCombinedVersions_reverse. simpl.
    unfold CombinedVersionsToStrings. by rewrite LimitCombinedVersions_take, fmap_take.
Qed.

(** Whatever the action and the current tag, the slice is within bounds and the
    offer is taken from the sorted list. *)
Lemma select_tags_Val action tag tags :
  ∃ l, select_tags action tag tags = Val (take 50 (CombinedVersion_String <$> l))
       ∧ ∀ c, c ∈ l → c ∈ tags.
Proof.
  unfold select_tags, SearchCombinedVersions, CombinedVersionsToStrings.
  pose proof (Sort_perm tags) as Hperm. set (s := SortCombinedVersions tags) in *.
  assert (-1 <= search_from s tag 0 < Z.of_nat (length s) ∨ search_from s tag 0 = -1)%Z as Hr.
  { destruct (search_from_spec s tag 0) as [[-> _]|(l & v & r & -> & _ & _ & ->)]; [by right|].
    left. rewrite length_app. simpl. lia. }
  case_bool_decide; [|case_bool_decide].
  - unfold slice_from. rewrite (proj2 (Z.leb_le _ _)), (proj2 (Z.leb_le _ _)) by lia. simpl.
    eexists. rewrite LimitCombinedVersions_take, fmap_take. split; [done|].
    intros c Hc. rewrite <- Hperm. by eapply subseteq_drop.
  - unfold slice_to. destruct (Z.eqb_spec (search_from s tag 0) (-1));
      rewrite (proj2 (Z.leb_le _ _)), (proj2 (Z.leb_le _ _)) by lia; simpl;
      rewrite ReverseCombinedVersions_reverse; simpl; eexists;
      rewrite LimitCombinedVersions_take, fmap_take; (split; [done|]);
      intros c Hc; rewrite elem_of_reverse in Hc; rewrite <- Hperm; by eapply subseteq_take.
  - exists []. split; [done|]. by intros c ?%not_elem_of_nil.
Qed.

(** For every action, current tag and registry answer the tag selection of
    the form completes (no slice index is out of range), offers at most 50 tags,
    and offers only tags spelled as the registry spelled them. *)
Theorem select_tags_from_registry action tag registry :
  ∃ out, select_tags action tag (parse_tags registry) = Val out
         ∧ length out ≤ 50 ∧ ∀ t, t ∈ out → t ∈ registry.
Proof.
  destruct (select_tags_Val action tag (parse_tags registry)) as (l & -> & Hl).
  eexists. split_and!; [done|rewrite length_take; lia|].
  intros t Ht%subseteq_take. apply list_elem_of_fmap in Ht as (c & -> & Hc).
  by apply parse_tags_String, Hl.
Qed.
End select.

(** ** Examples and witnesses *)

Definition sample_registry : list string :=
  ["1.2.0"; "v1.10.0"; "1.9.0"; "latest"; "release-1.3.0"].

Example sample_upgrade :
  @select_tags insertion_GoSort "upgrade" "1.9.0" (parse_tags sample_registry) = Val ["v1.10.0"].
Proof. vm_compute. reflexivity. Qed.

Example sample_downgrade :
  @select_tags insertion_GoSort "downgrade" "1.9.0" (parse_tags sample_registry)
  = Val ["release-1.3.0"; "1.2.0"].
Proof. vm_compute. reflexivity. Qed.

Lemma select_tags_around_current_witness :
  ∃ older cur newer,
    older ++ cur :: newer ≡ₚ parse_tags sample_registry
    ∧ CombinedVersion_String cur = "1.9.0"
    ∧ @select_tags insertion_GoSort "upgrade" "1.9.0" (parse_tags sample_registry)
      = Val (take 50 (CombinedVersion_String <$> newer)).
Proof.
  destruct (@select_tags_around_current insertion_GoSort insertion_GoSortLaws
    (parse_tags sample_registry) "1.9.0") as (older & cur & newer & H1 & _ & H3 & _ & H5 & _).
  - vm_compute. apply Exists_cons_tl, Exists_cons_tl, Exists_cons_hd. reflexivity.
  - exists older, cur, newer. auto.
Defined.

Lemma select_tags_from_registry_witness :
  ∃ out, @select_tags insertion_GoSort "upgrade" "1.9.0" (parse_tags sample_registry) = Val out
         ∧ length out ≤ 50 ∧ ∀ t, t ∈ out → t ∈ sample_registry.
Proof.
  exact (@select_tags_from_registry insertion_GoSort insertion_GoSortLaws "upgrade" "1.9.0" sample_registry).
Defined.
