(* ===== verification/Api.v ===== *)
(** * The Kubernetes API objects and helpers the console uses

    k8s.io/kubernetes is not part of the repository, so nothing of its behaviour
    is defined here.  [KubeApi] is the interface the console programs against:
    the type and operations of resource.Quantity, the string constants of package
    api, label selectors, object references.  The records hold the fields the
    console reads or writes, under the names the source uses, and an [Other] field
    for the rest of the object, which the console only copies.  [QuantityLaws] is
    the documented behaviour of Quantity the totals rely on.  The instance at the
    end of the file is a concrete model of the interface for witnesses. *)

From stdpp Require Import prelude gmap strings numbers.
From Stdlib Require Import ZArith NArith Ascii QArith Qcanon.
From S2P Require Import Prelude GoStrings.
Local Close Scope Qc_scope.
Local Close Scope Q_scope.

(** Instants and durations, in nanoseconds; 0 is the zero Time. *)
Definition Time : Type := Z.

(** Fields an object has beside the modelled ones, by name. *)
Definition other_fields : Type := gmap string string.

Class KubeApi : Type := {
  (** resource.Quantity: [*q.Copy()], [q.Add(y)] with the receiver's new value,
      [q.MilliValue()], [q.Value()], [q.String()], the zero value of the struct. *)
  Quantity : Type;
  Quantity_zero : Quantity;
  Quantity_Copy : Quantity → Quantity;
  Quantity_Add : Quantity → Quantity → Quantity * option string;
  (** What a struct the receiver was copied from holds after [Add] on the copy:
      the console calls Add on a copy of a map entry and reads the entry later. *)
  Quantity_AddToCopy : Quantity → Quantity → Quantity;
  Quantity_MilliValue : Quantity → Z;
  Quantity_Value : Quantity → Z;
  Quantity_String : Quantity → string;
  (** [ResourceList.Cpu()], [Memory()], [Pods()]. *)
  ResourceList_Cpu : gomap Quantity → Quantity;
  ResourceList_Memory : gomap Quantity → Quantity;
  ResourceList_Pods : gomap Quantity → Quantity;
  (** Constants of package api. *)
  ResourceCPU : string;
  ResourceMemory : string;
  PodSucceeded : string;
  PodFailed : string;
  PodReady : string;
  NodeReady : string;
  ConditionTrue : string;
  ServiceTypeClusterIP : string;
  ServiceTypeNodePort : string;
  ServiceTypeLoadBalancer : string;
  (** labels.Selector. *)
  Selector : Type;
  labels_Everything : Selector;
  labels_Parse : string → result string Selector;
  labels_SelectorFromSet : gmap string string → Selector;
}.

(** Quantity as documented: amounts are exact decimals, Copy copies the amount,
    Add adds it, and struct copies share the amount (it is held by pointer), so an
    Add on a copy is seen by the original. *)
Class QuantityLaws `{KubeApi} (amount : Quantity → Qc) : Prop := {
  amount_Copy q : amount (Quantity_Copy q) = amount q;
  amount_Add q y q' : Quantity_Add q y = (q', None) → amount q' = (amount q + amount y)%Qc;
  amount_shared q y q' : Quantity_Add q y = (q', None) → Quantity_AddToCopy q y = q';
}.

Module api.
Section objects.
Context `{K : KubeApi}.

Record ObjectMeta : Type := mkObjectMeta {
  Name : string;
  GenerateName : string;
  Namespace : string;
  ResourceVersion : string;
  CreationTimestamp : Time;
  DeletionTimestamp : option Time;
  Labels : gomap string;
  Annotations : gomap string;
  ObjectMeta_Other : other_fields;
}.

(** [var meta api.ObjectMeta]. *)
Definition ObjectMeta_zero : ObjectMeta := mkObjectMeta "" "" "" "" 0%Z None None None ∅.

Record ContainerPort : Type := mkContainerPort {
  HostPort : Z;
  ContainerPort_Protocol : string;
  ContainerPort_Other : other_fields;
}.

Record Container : Type := mkContainer {
  Container_Name : string;
  Image : string;
  Container_Ports : list ContainerPort;
  Requests : gomap Quantity;
  Limits : gomap Quantity;
  Container_Other : other_fields;
}.

Record PodSpec : Type := mkPodSpec {
  Containers : list Container;
  NodeName : string;
  HostNetwork : bool;
  PodSpec_Other : other_fields;
}.

Record PodCondition : Type := mkPodCondition {
  PodCondition_Type : string;
  PodCondition_Status : string;
}.

Record ContainerStateTerminated : Type := mkTerminated {
  Terminated_Reason : string;
  Signal : Z;
  ExitCode : Z;
}.

(** [State.Waiting] carries its reason, [State.Running] its start. *)
Record ContainerStatus : Type := mkContainerStatus {
  Waiting : option string;
  Running : option Time;
  Terminated : option ContainerStateTerminated;
  Ready : bool;
  RestartCount : Z;
  ContainerStatus_Image : string;
}.

Record PodStatus : Type := mkPodStatus {
  Phase : string;
  Conditions : list PodCondition;
  Message : string;
  Reason : string;
  PodIP : string;
  ContainerStatuses : list ContainerStatus;
  PodStatus_Other : other_fields;
}.

Record Pod : Type := mkPod {
  Pod_ObjectMeta : ObjectMeta;
  Pod_Spec : PodSpec;
  Pod_Status : PodStatus;
}.

Record NodeCondition : Type := mkNodeCondition {
  NodeCondition_Type : string;
  NodeCondition_Status : string;
}.

Record Node : Type := mkNode {
  Node_ObjectMeta : ObjectMeta;
  Unschedulable : bool;
  Capacity : gomap Quantity;
  Node_Conditions : list NodeCondition;
  NodeInfo : other_fields;
  Node_Other : other_fields;
}.

Record PodTemplateSpec : Type := mkPodTemplateSpec {
  Template_ObjectMeta : ObjectMeta;
  Template_Spec : PodSpec;
}.

(** [Spec.Template] is a pointer. *)
Record ReplicationController : Type := mkReplicationController {
  RC_ObjectMeta : ObjectMeta;
  RC_Spec_Replicas : Z;
  RC_Spec_Selector : gomap string;
  RC_Spec_Template : option PodTemplateSpec;
  RC_Status_Replicas : Z;
  RC_Other : other_fields;
}.

Record ServicePort : Type := mkServicePort {
  ServicePort_Port : Z;
  ServicePort_Protocol : string;
  ServicePort_Other : other_fields;
}.

(** [Status.LoadBalancer.Ingress] as the IPs of its entries. *)
Record Service : Type := mkService {
  Service_ObjectMeta : ObjectMeta;
  Service_Type : string;
  ClusterIP : string;
  ExternalIPs : list string;
  Service_Ports : list ServicePort;
  Service_Selector : gomap string;
  Ingress_IPs : list string;
  Service_Other : other_fields;
}.

Record EndpointPort : Type := mkEndpointPort {
  EndpointPort_Name : string;
  EndpointPort_Port : Z;
}.

(** A subset: the IPs of its addresses, and its ports. *)
Record EndpointSubset : Type := mkEndpointSubset {
  Addresses : list string;
  Subset_Ports : list EndpointPort;
}.

Record Endpoints : Type := mkEndpoints {
  Endpoints_ObjectMeta : ObjectMeta;
  Subsets : list EndpointSubset;
  Endpoints_Other : other_fields;
}.

Record ObjectReference : Type := mkObjectReference {
  Ref_Kind : string;
  Ref_Name : string;
  Ref_FieldPath : string;
  UID : string;
  Ref_Other : other_fields;
}.

Record Event : Type := mkEvent {
  Event_FirstTimestamp : Time;
  Event_LastTimestamp : Time;
  Event_Count : Z;
  Source_Component : string;
  Source_Host : string;
  InvolvedObject : ObjectReference;
  Event_Reason : string;
  Event_Message : string;
}.

End objects.
End api.

(** Record updates, one per assignment the console makes. *)
Section updates.
Context `{K : KubeApi}.
Import api.

Definition set_Image (image : string) (c : Container) : Container :=
  mkContainer (Container_Name c) image (Container_Ports c) (Requests c) (Limits c) (Container_Other c).

Definition set_Container_Name (name : string) (c : Container) : Container :=
  mkContainer name (Image c) (Container_Ports c) (Requests c) (Limits c) (Container_Other c).

Definition set_Containers (cs : list Container) (s : PodSpec) : PodSpec :=
  mkPodSpec cs (NodeName s) (HostNetwork s) (PodSpec_Other s).

Definition set_NodeName (n : string) (s : PodSpec) : PodSpec :=
  mkPodSpec (Containers s) n (HostNetwork s) (PodSpec_Other s).

Definition set_Annotations (a : gomap string) (m : ObjectMeta) : ObjectMeta :=
  mkObjectMeta (Name m) (GenerateName m) (Namespace m) (ResourceVersion m) (CreationTimestamp m)
    (DeletionTimestamp m) (Labels m) a (ObjectMeta_Other m).

Definition set_Labels (l : gomap string) (m : ObjectMeta) : ObjectMeta :=
  mkObjectMeta (Name m) (GenerateName m) (Namespace m) (ResourceVersion m) (CreationTimestamp m)
    (DeletionTimestamp m) l (Annotations m) (ObjectMeta_Other m).

Definition set_ResourceVersion (v : string) (m : ObjectMeta) : ObjectMeta :=
  mkObjectMeta (Name m) (GenerateName m) (Namespace m) v (CreationTimestamp m)
    (DeletionTimestamp m) (Labels m) (Annotations m) (ObjectMeta_Other m).

Definition set_Pod_Spec (s : PodSpec) (p : Pod) : Pod := mkPod (Pod_ObjectMeta p) s (Pod_Status p).
Definition set_Pod_Meta (m : ObjectMeta) (p : Pod) : Pod := mkPod m (Pod_Spec p) (Pod_Status p).

Definition set_Node_Meta (m : ObjectMeta) (n : Node) : Node :=
  mkNode m (Unschedulable n) (Capacity n) (Node_Conditions n) (NodeInfo n) (Node_Other n).

Definition set_Template_Meta (m : ObjectMeta) (t : PodTemplateSpec) : PodTemplateSpec :=
  mkPodTemplateSpec m (Template_Spec t).
Definition set_Template_Spec (s : PodSpec) (t : PodTemplateSpec) : PodTemplateSpec :=
  mkPodTemplateSpec (Template_ObjectMeta t) s.

Definition set_RC_Meta (m : ObjectMeta) (r : ReplicationController) : ReplicationController :=
  mkReplicationController m (RC_Spec_Replicas r) (RC_Spec_Selector r) (RC_Spec_Template r)
    (RC_Status_Replicas r) (RC_Other r).
Definition set_RC_Selector (s : gomap string) (r : ReplicationController) : ReplicationController :=
  mkReplicationController (RC_ObjectMeta r) (RC_Spec_Replicas r) s (RC_Spec_Template r)
    (RC_Status_Replicas r) (RC_Other r).
Definition set_RC_Template (t : option PodTemplateSpec) (r : ReplicationController) : ReplicationController :=
  mkReplicationController (RC_ObjectMeta r) (RC_Spec_Replicas r) (RC_Spec_Selector r) t
    (RC_Status_Replicas r) (RC_Other r).

Definition set_UID (uid : string) (r : ObjectReference) : ObjectReference :=
  mkObjectReference (Ref_Kind r) (Ref_Name r) (Ref_FieldPath r) uid (Ref_Other r).

End updates.

(** ** A concrete instance

    Amounts in thousandths of a unit, addition that always succeeds, and the
    constants as the Kubernetes API documentation spells them. *)
Definition demo_cpu (l : gomap Z) (name : string) : Z := default 0%Z (gm_get l name).

Definition demo_KubeApi : KubeApi := {|
  Quantity := Z;
  Quantity_zero := 0%Z;
  Quantity_Copy := id;
  Quantity_Add q y := ((q + y)%Z, None);
  Quantity_AddToCopy q y := (q + y)%Z;
  Quantity_MilliValue q := q;
  Quantity_Value q := ((q + 999) / 1000)%Z;
  Quantity_String q := FormatInt q +:+ "m";
  ResourceList_Cpu l := demo_cpu l "cpu";
  ResourceList_Memory l := demo_cpu l "memory";
  ResourceList_Pods l := demo_cpu l "pods";
  ResourceCPU := "cpu";
  ResourceMemory := "memory";
  PodSucceeded := "Succeeded";
  PodFailed := "Failed";
  PodReady := "Ready";
  NodeReady := "Ready";
  ConditionTrue := "True";
  ServiceTypeClusterIP := "ClusterIP";
  ServiceTypeNodePort := "NodePort";
  ServiceTypeLoadBalancer := "LoadBalancer";
  Selector := gmap string string;
  labels_Everything := ∅;
  labels_Parse s := match cut s "=" with Some (k, v) => Ok {[k := v]} | None => Err "no requirement" end;
  labels_SelectorFromSet m := m;
|}.

Lemma demo_QuantityLaws : @QuantityLaws demo_KubeApi (λ q : Z, Q2Qc (inject_Z q)).
Proof.
  split; simpl.
  - done.
  - intros q y q' [= <-]. apply Qc_is_canon. simpl.
    rewrite !Qred_correct, inject_Z_plus. reflexivity.
  - by intros q y q' [= <-].
Qed.
