(* ===== verification/GoRegexp.v ===== *)
(** * The regular expressions of main.go

    The console compiles three expressions: the text between "PortMapping(" and a
    closing parenthesis, [status=([^&]+)] and [image=([^&]+)].  They are sequences of literals and of
    greedily repeated character classes with one capture group, so an expression
    is a list of items and matching is the leftmost-first search with
    backtracking that package regexp specifies.  Classes and literals are tested
    byte by byte: the delimiters around each repetition are ASCII, so a repetition
    covers whole runes exactly when it covers their bytes. *)

From stdpp Require Import prelude strings.
From Stdlib Require Import ZArith NArith Ascii.
From S2P Require Import Prelude GoStrings.

Inductive item : Type :=
| Lit (c : ascii)
| Many (f : ascii → bool)
| Many1 (f : ascii → bool)
| Open
| Close.

Definition regex : Type := list item.

Fixpoint lits (s : string) : regex :=
  match s with EmptyString => [] | String c s => Lit c :: lits s end.

(** Greedy repetition before [k]: one more byte if the rest still matches, else
    stop here. *)
Fixpoint many {B} (f : ascii → bool) (k : string → option B) (s : string) : option B :=
  match s with
  | String c s' =>
      if f c then match many f k s' with Some b => Some b | None => k s end else k s
  | EmptyString => k s
  end.

(** Matching at the start of [s].  [open] is the text from the last [Open] on;
    the result is the text after the match and the text of the group. *)
Fixpoint match_here (r : regex) (open cap s : string) : option (string * string) :=
  match r with
  | [] => Some (s, cap)
  | Lit c :: r =>
      match s with
      | String a s' => if decide (a = c) then match_here r open cap s' else None
      | EmptyString => None
      end
  | Many f :: r => many f (match_here r open cap) s
  | Many1 f :: r =>
      match s with
      | String a s' => if f a then many f (match_here r open cap) s' else None
      | EmptyString => None
      end
  | Open :: r => match_here r s cap s
  | Close :: r => match_here r open (stake (String.length open - String.length s) open) s
  end.

(** The leftmost match: the text before it, the text after it, the group. *)
Fixpoint search (r : regex) (s : string) : option (string * string * string) :=
  match match_here r "" "" s with
  | Some (rest, cap) => Some ("", rest, cap)
  | None =>
      match s with
      | EmptyString => None
      | String a s' => '(pre, rest, cap) ← search r s'; Some (String a pre, rest, cap)
      end
  end.

(** [re.FindStringSubmatch(s)]: the group of the leftmost match, if any. *)
Definition FindSubmatch (r : regex) (s : string) : option string :=
  '(_, _, cap) ← search r s; Some cap.

(** [re.ReplaceAllString(s, repl)] for a replacement without a dollar sign and an
    expression that matches at least one byte: every match consumes a byte, so the
    length of the text bounds the number of matches. *)
Fixpoint replace_loop (fuel : nat) (r : regex) (s repl : string) : string :=
  match fuel with
  | O => s
  | S fuel =>
      match search r s with
      | Some (pre, rest, _) => pre +:+ repl +:+ replace_loop fuel r rest repl
      | None => s
      end
  end.

Definition ReplaceAllString (r : regex) (s repl : string) : string :=
  replace_loop (S (String.length s)) r s repl.

(** [.] matches any character but a newline. *)
Definition dot (c : ascii) : bool := bool_decide (c ≠ "010"%char).
Definition not_amp (c : ascii) : bool := bool_decide (c ≠ "&"%char).

Definition portMapping : regex := lits "PortMapping(" ++ [Open; Many dot; Close; Lit ")"].
Definition status_re : regex := lits "status=" ++ [Open; Many1 not_amp; Close].
Definition image_re : regex := lits "image=" ++ [Open; Many1 not_amp; Close].

Example portMapping_ex :
  FindSubmatch portMapping "x PortMapping(80->8080/TCP,(53)) y" = Some "80->8080/TCP,(53)".
Proof. vm_compute. reflexivity. Qed.

Example portMapping_none : FindSubmatch portMapping "PortMapping(80" = None.
Proof. vm_compute. reflexivity. Qed.

Example status_ex :
  ReplaceAllString status_re "/pods?status=Running&sort=ByName&status=" "status="
  = "/pods?status=&sort=ByName&status=".
Proof. vm_compute. reflexivity. Qed.

(** ** Lemmas *)

Lemma match_lits p r open cap s : match_here (lits p ++ r) open cap (p +:+ s) = match_here r open cap s.
Proof.
  induction p as [|c p IH]; [done|]. rewrite sapp_cons. simpl. by rewrite decide_True.
Qed.

(** A repetition that can consume a text and then succeed where it ends, and
    nowhere further, stops there. *)
Lemma many_app {B} f (k : string → option B) (x s : string) b :
  sforallb f x = true → many f k s = Some b → many f k (x +:+ s) = Some b.
Proof.
  intros Hx Hs. induction x as [|c x IH]; [done|]. simpl in Hx.
  apply andb_true_iff in Hx as [Hc Hx]. rewrite sapp_cons. simpl. by rewrite Hc, IH.
Qed.

Lemma many_stop {B} f (k : string → option B) s :
  (match s with String c _ => f c = false | EmptyString => True end) → many f k s = k s.
Proof. destruct s as [|c s]; simpl; [done|]. by intros ->. Qed.

(** The mapping written between the parentheses of a PortMapping note is what
    FindStringSubmatch returns. *)
Lemma portMapping_capture x :
  sforallb dot x = true → FindSubmatch portMapping ("PortMapping(" +:+ x +:+ ")") = Some x.
Proof.
  intros Hx. unfold FindSubmatch, portMapping.
  assert (match_here (lits "PortMapping(" ++ [Open; Many dot; Close; Lit ")"]) "" ""
            ("PortMapping(" +:+ x +:+ ")") = Some ("", x)) as Hm.
  { rewrite match_lits. cbn [match_here]. erewrite many_app; [done|done|].
    simpl. rewrite slength_app. simpl. rewrite Nat.add_sub. by rewrite stake_app. }
  destruct ("PortMapping(" +:+ x +:+ ")") as [|a s] eqn:E; [done|].
  cbn [search]. by rewrite Hm.
Qed.
