(* ===== verification/Float64.v ===== *)
(** * float64 and the integers

    Go's float64 is IEEE-754 binary64 with rounding to nearest even, which is the
    arithmetic of the standard library's SpecFloat at precision 53 and exponent
    bound 1024.  A conversion of a float64 outside the range of int64 (or of a NaN)
    is implementation-dependent in Go: it is the operation of the class [Platform]. *)

From stdpp Require Import prelude strings.
From Stdlib Require Import ZArith.
From Corelib Require Import SpecFloat.
From S2P Require Import Prelude GoStrings.

Local Open Scope Z_scope.

Definition float64 : Type := spec_float.

Definition float64_of_int (z : Z) : float64 := binary_normalize 53 1024 z 0 false.
Definition f64_add (x y : float64) : float64 := SFadd 53 1024 x y.
Definition f64_mul (x y : float64) : float64 := SFmul 53 1024 x y.
Definition f64_div (x y : float64) : float64 := SFdiv 53 1024 x y.

Definition min_int64 : Z := - 2 ^ 63.
Definition max_int64 : Z := 2 ^ 63 - 1.

(** The integer part, towards zero. *)
Definition trunc (x : float64) : option Z :=
  match x with
  | S754_zero _ => Some 0
  | S754_finite s m e =>
      let a := if 0 <=? e then Z.pos m * 2 ^ e else Z.pos m / 2 ^ (- e) in
      Some (if s then - a else a)
  | _ => None
  end.

Class Platform : Type := int64_of_unrepresentable : float64 → Z.

(** [int64(x)], and [int(x)] on a 64-bit platform. *)
Definition int64_of_float `{Platform} (x : float64) : Z :=
  match trunc x with
  | Some z => if (min_int64 <=? z) && (z <=? max_int64) then z else int64_of_unrepresentable x
  | None => int64_of_unrepresentable x
  end.

(** amd64 converts such values to the smallest int64. *)
Definition amd64 : Platform := λ _, min_int64.

(** ** time.Duration

    A duration is an int64 number of nanoseconds; division and remainder truncate
    towards zero. *)
Definition Nanosecond : Z := 1.
Definition Second : Z := 1000 * 1000 * 1000.
Definition Minute : Z := 60 * Second.
Definition Hour : Z := 60 * Minute.

(** [d.Seconds()], [d.Minutes()], [d.Hours()]: the whole units plus the remainder
    as a fraction of a unit. *)
Definition in_units (unit d : Z) : float64 :=
  f64_add (float64_of_int (Z.quot d unit))
          (f64_div (float64_of_int (Z.rem d unit)) (float64_of_int unit)).

Definition Seconds (d : Z) : float64 := in_units Second d.
Definition Minutes (d : Z) : float64 := in_units Minute d.
Definition Hours (d : Z) : float64 := in_units Hour d.

(** [t.Sub(u)]: the difference, saturated to the range of Duration. *)
Definition Sub (t u : Z) : Z := Z.max min_int64 (Z.min max_int64 (t - u)).

Lemma Sub_range t u : min_int64 <= Sub t u <= max_int64.
Proof. unfold Sub, min_int64, max_int64. lia. Qed.
