(* ===== verification/FloatRound.v ===== *)
(** * Rounding of binary64

    What Ages.v needs of float64: every operation on positive normal numbers is within
    half a unit of the last place of the exact result, so within 2^-53 of the
    result, and never passes an integer that is not between.  Values are taken as integers in
    units of 2^-200. *)

From stdpp Require Import prelude strings.
From Stdlib Require Import ZArith Lia.
From Corelib Require Import SpecFloat.
From S2P Require Import Prelude GoStrings Float64.

Local Open Scope Z_scope.

(** ** Digits *)

Lemma digits2_log2 p : Z.pos (digits2_pos p) = Z.log2 (Z.pos p) + 1.
Proof.
  assert (digits2_pos p = Pos.size p) as -> by (induction p as [p IH|p IH|]; simpl; by rewrite ?IH).
  destruct p; simpl; lia.
Qed.

Lemma Zdigits2_log2 z : 0 < z → Zdigits2 z = Z.log2 z + 1.
Proof. destruct z; [lia| |lia]. intros _. apply digits2_log2. Qed.

Lemma log2_between z k : 2 ^ k <= z < 2 ^ (k + 1) → 0 <= k → Z.log2 z = k.
Proof. intros. apply Z.log2_unique; [lia|]. by replace (Z.succ k) with (k + 1) by lia. Qed.

(** ** Locations *)

(** Where [N / D] lies from [m] to [m + 1]. *)
Definition inbetween (m : Z) (l : location) (N D : Z) : Prop :=
  match l with
  | loc_Exact => N = m * D
  | loc_Inexact Lt => m * D < N ∧ 2 * N < (2 * m + 1) * D
  | loc_Inexact Eq => 2 * N = (2 * m + 1) * D
  | loc_Inexact Gt => (2 * m + 1) * D < 2 * N ∧ N < (m + 1) * D
  end.

Definition located (r : shr_record) (N D : Z) : Prop := inbetween (shr_m r) (loc_of_shr_record r) N D.

Lemma loc_of_shr_record_of_loc m l : loc_of_shr_record (shr_record_of_loc m l) = l ∧ shr_m (shr_record_of_loc m l) = m.
Proof. by destruct l as [|[| |]]. Qed.

(** One bit to the right. *)
Lemma shr_1_located r N D :
  0 < D → 0 <= shr_m r → located r N D → shr_m (shr_1 r) = shr_m r / 2 ∧ located (shr_1 r) N (2 * D).
Proof.
  destruct r as [m b c]. cbn [shr_m]. intros HD Hm Hr. destruct (Z.eq_dec m 0) as [->|Hne].
  { split; [done|]. destruct b, c; unfold located in *; simpl in *; lia. }
  destruct m as [|[p|p|]|]; try lia; (split; [by (simpl; rewrite ?Z.div2_div, <- ?Z.div2_div)|]);
    destruct b, c; unfold located in *; simpl in *; lia.
Qed.

Lemma shr_located p r N D :
  0 < D → 0 <= shr_m r → located r N D →
  shr_m (iter_pos shr_1 p r) = shr_m r / 2 ^ Z.pos p ∧ located (iter_pos shr_1 p r) N (2 ^ Z.pos p * D).
Proof.
  revert r D. induction p as [p IH|p IH|]; intros r D HD Hm Hr; cbn [iter_pos].
  - destruct (shr_1_located r N D) as [E1 H1]; [done..|].
    destruct (IH (shr_1 r) (2 * D)) as [E2 H2]; [lia|rewrite E1; by apply Z.div_pos; lia|done|].
    assert (0 < 2 ^ Z.pos p) by (apply Z.pow_pos_nonneg; lia).
    destruct (IH (iter_pos shr_1 p (shr_1 r)) (2 ^ Z.pos p * (2 * D))) as [E3 H3]; [lia|rewrite E2, E1; repeat apply Z.div_pos; lia|done|].
    replace (Z.pos p~1) with (1 + Z.pos p + Z.pos p) by lia. rewrite !Z.pow_add_r, Z.pow_1_r by lia.
    rewrite E3, E2, E1, !Z.div_div by lia. split; [f_equal; ring|]. by replace (2 * _ * _ * D) with (2 ^ Z.pos p * (2 ^ Z.pos p * (2 * D))) by ring.
  - destruct (IH r D) as [E2 H2]; [done..|]. assert (0 < 2 ^ Z.pos p) by (apply Z.pow_pos_nonneg; lia).
    destruct (IH (iter_pos shr_1 p r) (2 ^ Z.pos p * D)) as [E3 H3]; [lia|rewrite E2; apply Z.div_pos; lia|done|].
    replace (Z.pos p~0) with (Z.pos p + Z.pos p) by lia. rewrite !Z.pow_add_r by lia.
    rewrite E3, E2, !Z.div_div by lia. split; [f_equal; ring|]. by rewrite <- Z.mul_assoc.
  - by apply shr_1_located.
Qed.

(** Rounding goes to the nearer end. *)
Lemma round_nearest_even_near m l N D :
  0 < D → inbetween m l N D →
  m <= round_nearest_even m l <= m + 1 ∧ 2 * Z.abs (round_nearest_even m l * D - N) <= D.
Proof.
  destruct l as [|[| |]]; simpl; intros HD Hl; [lia|destruct (Z.even m); lia|lia|lia].
Qed.

Lemma fexp_eq e : -1021 <= e → fexp 53 1024 e = e - 53.
Proof. unfold fexp, emin. lia. Qed.

(** A shift that keeps 53 bits. *)
Lemma shr_fexp_located mx ex lx N D :
  0 < D → 2 ^ 52 <= mx → inbetween mx lx N D → -1074 <= ex + (Z.log2 mx - 52) →
  ∃ r, shr_fexp 53 1024 mx ex lx = (r, ex + (Z.log2 mx - 52))
    ∧ shr_m r = mx / 2 ^ (Z.log2 mx - 52) ∧ located r N (2 ^ (Z.log2 mx - 52) * D).
Proof.
  intros HD Hmx Hl He. assert (52 <= Z.log2 mx) as Hlog by (apply Z.log2_le_pow2; lia).
  destruct (loc_of_shr_record_of_loc mx lx) as [E1 E2].
  assert (located (shr_record_of_loc mx lx) N D) as Hr by (unfold located; by rewrite E1, E2).
  unfold shr_fexp. rewrite Zdigits2_log2, fexp_eq by lia.
  replace (Z.log2 mx + 1 + ex - 53 - ex) with (Z.log2 mx - 52) by lia.
  assert (0 <= Z.log2 mx - 52) as Hk by lia. clear Hlog He. revert Hk. generalize (Z.log2 mx - 52). intros k Hk.
  destruct k as [|p|p]; [|..|lia]; cbn [shr].
  - exists (shr_record_of_loc mx lx). rewrite Z.pow_0_r, Z.div_1_r, Z.mul_1_l, Z.add_0_r. by split_and!.
  - destruct (shr_located p (shr_record_of_loc mx lx) N D) as [E3 H3]; [done|lia|done|].
    eexists. split; [done|]. by rewrite E3, E2.
Qed.

(** The rounded mantissa at the exponent that keeps 53 bits. *)
Lemma binary_round_aux_near sx mx ex lx N D :
  0 < D → 2 ^ 52 <= mx → inbetween mx lx N D → let k := Z.log2 mx - 52 in -1074 <= ex + k <= 960 →
  ∃ m e q, binary_round_aux 53 1024 sx mx ex lx = S754_finite sx m e
    ∧ 2 ^ 52 <= Z.pos m < 2 ^ 53 ∧ ex + k <= e <= ex + k + 1 ∧ q = Z.pos m * 2 ^ (e - (ex + k))
    ∧ mx / 2 ^ k <= q ∧ 2 * Z.abs (q * (2 ^ k * D) - N) <= 2 ^ k * D.
Proof.
  intros HD Hmx Hl k He. assert (52 <= Z.log2 mx) as Hlog by (apply Z.log2_le_pow2; lia).
  destruct (shr_fexp_located mx ex lx N D) as (r & E1 & Er & Hr); [done..|lia|]. fold k in E1, Er, Hr.
  assert (0 < 2 ^ k) as Hpk by (apply Z.pow_pos_nonneg; lia).
  destruct (round_nearest_even_near _ _ N (2 ^ k * D) ltac:(lia) Hr) as [Hq Hn].
  unfold binary_round_aux. rewrite E1. set (q := round_nearest_even _ _) in *. clearbody q.
  assert (2 ^ 52 <= mx / 2 ^ k < 2 ^ 53) as Hm.
  { pose proof (Z.log2_spec mx ltac:(lia)) as Hs. replace (Z.log2 mx) with (k + 52) in Hs by lia.
    rewrite Z.pow_succ_r, Z.pow_add_r in Hs by lia. split.
    - apply Z.div_le_lower_bound; lia.
    - apply Z.div_lt_upper_bound; [lia|]. replace (2 ^ 53) with (2 * 2 ^ 52) by done. lia. }
  rewrite Er in Hq. assert (q < 2 ^ 53 ∨ q = 2 ^ 53) as [Hq'| ->] by lia.
  - destruct (shr_fexp_located q (ex + k) loc_Exact q 1) as (r2 & E2 & Er2 & _); [lia|lia|simpl; lia| |].
    { rewrite (log2_between q 52) by lia. lia. }
    rewrite (log2_between q 52) in E2, Er2 by lia. rewrite E2, Er2. simpl. rewrite Z.div_1_r, Z.add_0_r.
    destruct q as [|m|m]; [lia| |lia]. rewrite (proj2 (Z.leb_le _ _)) by lia. eexists m, _, _. split; [done|].
    rewrite Z.sub_diag, Z.pow_0_r, Z.mul_1_r. split_and!; (done || lia).
  - unfold shr_fexp. change (Zdigits2 (2 ^ 53)) with 54. rewrite fexp_eq by lia.
    replace (54 + (ex + k) - 53 - (ex + k)) with 1 by lia. cbn [shr]. change (shr_m (iter_pos shr_1 1 _)) with (2 ^ 52).
    change (2 ^ 52) with (Z.pos 4503599627370496). cbv beta iota zeta.
    rewrite (proj2 (Z.leb_le _ _)) by lia. eexists _, _, (2 ^ 53). split; [done|].
    replace (ex + k + 1 - (ex + k)) with 1 by lia. split_and!; (done || lia).
Qed.

(** ** Values *)

(** The unit of values, one as a value. *)
Definition P : Z := 2 ^ 200.

(** [x] is normal, has the sign [sx] and the absolute value [v]. *)
Definition rep (sx : bool) (x : float64) (v : Z) : Prop :=
  ∃ m e, x = S754_finite sx m e ∧ 2 ^ 52 <= Z.pos m < 2 ^ 53 ∧ 0 <= e + 200 ∧ v = Z.pos m * 2 ^ (e + 200).

(** The exponent from bounds on the value. *)
Lemma exponent_bounds m e lo hi :
  2 ^ 52 <= m < 2 ^ 53 → 0 <= e → 0 <= lo → 0 <= hi → 2 ^ lo <= m * 2 ^ e < 2 ^ hi → lo - 53 < e < hi - 52.
Proof.
  intros Hm He Hlo Hhi [H1 H2]. assert (0 < 2 ^ e) by (apply Z.pow_pos_nonneg; lia). split.
  - assert (lo < 53 + e); [|lia]. apply (Z.pow_lt_mono_r_iff 2); [lia|lia|]. rewrite Z.pow_add_r by lia. nia.
  - assert (52 + e < hi); [|lia]. apply (Z.pow_lt_mono_r_iff 2); [lia|lia|]. rewrite Z.pow_add_r by lia. nia.
Qed.

Lemma shl_align_fst m e e' : e' <= e → Z.pos (fst (shl_align m e e')) = Z.pos m * 2 ^ (e - e').
Proof.
  intros He. unfold shl_align. destruct (e' - e) as [|d|d] eqn:Hd; [|lia|]; cbn [fst].
  - replace (e - e') with 0 by lia. lia.
  - replace (e - e') with (Z.pos d) by lia. clear.
    induction d as [|d IH] using Pos.peano_ind; [simpl; lia|]. rewrite Pos.iter_succ, Pos2Z.inj_succ, Z.pow_succ_r by lia.
    rewrite (Pos2Z.inj_xO (Pos.iter _ _ _)), IH. lia.
Qed.

Lemma scale_split m e ez : ez <= e → 0 <= ez + 200 → m * 2 ^ (e + 200) = m * 2 ^ (e - ez) * 2 ^ (ez + 200).
Proof.
  intros. rewrite <- Z.mul_assoc, <- Z.pow_add_r by lia. f_equal. f_equal. lia.
Qed.

Lemma rep_trunc sx x v : rep sx x v → trunc x = Some (if sx then - (v / P) else v / P).
Proof.
  intros (m & e & -> & Hm & He & ->). cbn [trunc]. f_equal.
  assert ((if 0 <=? e then Z.pos m * 2 ^ e else Z.pos m / 2 ^ (- e)) = Z.pos m * 2 ^ (e + 200) / P) as ->; [|by destruct sx].
  unfold P. destruct (Z.leb_spec 0 e).
  - rewrite Z.pow_add_r, Z.mul_assoc, Z.div_mul by lia. done.
  - replace (2 ^ 200) with (2 ^ (- e) * 2 ^ (e + 200)) by (rewrite <- Z.pow_add_r by lia; f_equal; lia).
    rewrite Z.div_mul_cancel_r; [done| |]; apply Z.pow_nonzero; lia.
Qed.

Lemma rep_of_int sx z : 0 < z < 2 ^ 53 → rep sx (float64_of_int (cond_Zopp sx z)) (z * P).
Proof.
  intros Hz. destruct z as [|z|z]; [lia| |lia].
  assert (float64_of_int (cond_Zopp sx (Z.pos z)) = binary_round 53 1024 sx z 0) as -> by by destruct sx.
  unfold binary_round. rewrite digits2_log2, fexp_eq by (pose proof (Z.log2_nonneg (Z.pos z)); lia).
  assert (Z.log2 (Z.pos z) < 53) as Hlog by (apply Z.log2_lt_pow2; lia).
  pose proof (Z.log2_spec (Z.pos z) ltac:(lia)) as Hs. pose proof (Z.log2_nonneg (Z.pos z)) as Hl0.
  set (e := Z.log2 (Z.pos z) + 1 + 0 - 53). pose proof (shl_align_fst z 0 e ltac:(lia)) as Hf.
  assert (snd (shl_align z 0 e) = e) as He.
  { unfold shl_align. destruct (e - 0) eqn:E; cbn [snd]; lia. }
  destruct (shl_align z 0 e) as [mz ez]. cbn [fst snd] in Hf, He. subst ez.
  assert (2 ^ 52 <= Z.pos mz < 2 ^ (52 + 1)) as Hmz.
  { rewrite Hf. replace (Z.log2 (Z.pos z)) with (e + 52) in Hs by lia.
    replace 52 with ((e + 52) + (0 - e)) at 1 by lia. replace (52 + 1) with (Z.succ (e + 52) + (0 - e)) by lia.
    rewrite !(Z.pow_add_r 2 _ (0 - e)) by lia. assert (0 < 2 ^ (0 - e)) by (apply Z.pow_pos_nonneg; lia). nia. }
  pose proof (log2_between (Z.pos mz) 52 Hmz ltac:(lia)) as Hlm.
  destruct (binary_round_aux_near sx (Z.pos mz) e loc_Exact (Z.pos mz) 1) as (m & e' & q & -> & Hm & He' & -> & _ & Hn);
    [lia|lia|simpl; lia|lia|]. rewrite Hlm in *. cbn in Hn. change (52 - 52) with 0 in *. rewrite Z.add_0_r in *.
  exists m, e'. split_and!; [done|lia|lia|lia|].
  assert (Z.pos m * 2 ^ (e' - e) = Z.pos mz) as Hv by lia.
  replace (e' + 200) with ((e' - e) + (e + 200)) by lia. rewrite Z.pow_add_r, Z.mul_assoc, Hv, Hf by lia.
  unfold P. rewrite <- Z.mul_assoc, <- Z.pow_add_r by lia. f_equal. f_equal. lia.
Qed.

(** The relative error of a rounded mantissa. *)
Lemma near_relative q G N : 0 < G → 2 ^ 52 <= q → 2 * Z.abs (q * G - N) <= G → 2 ^ 53 * Z.abs (q * G - N) <= q * G.
Proof.
  intros HG Hq Hn. transitivity (2 ^ 52 * G); [generalize dependent (Z.abs (q * G - N)); intros; lia|]. by apply Z.mul_le_mono_nonneg_r; [lia|].
Qed.

Lemma new_location_inbetween q r D : 0 < D → 0 <= r < D → inbetween q (new_location D r) (q * D + r) D.
Proof.
  intros HD Hr. unfold new_location, new_location_even, new_location_odd.
  destruct (Z.eqb_spec r 0) as [->|Hne]; [destruct (Z.even D); simpl; lia|].
  pose proof (proj2 (Z.eqb_neq _ _) Hne) as En. destruct (Z.even D) eqn:He; rewrite En; [apply Z.even_spec in He as [h ->]|].
  - destruct (Z.compare_spec (2 * r) (2 * h)); cbn [inbetween]; nia.
  - rewrite <- Z.negb_odd, negb_false_iff in He. apply Z.odd_spec in He as [h ->].
    destruct (Z.compare_spec (2 * r + 1) (2 * h + 1)); cbn [inbetween]; nia.
Qed.

(** Division is within 2^-53 of the quotient. *)
Lemma rep_div sx x y vx vy :
  rep sx x vx → rep false y vy → 2 ^ 150 <= vx < 2 ^ 260 → 2 ^ 150 <= vy < 2 ^ 260 →
  ∃ v, rep sx (f64_div x y) v ∧ 2 ^ 53 * Z.abs (v * vy - vx * P) <= v * vy.
Proof.
  intros (m1 & e1 & -> & Hm1 & He1 & ->) (m2 & e2 & -> & Hm2 & He2 & ->) Hvx Hvy.
  apply exponent_bounds in Hvx; [|done..]. apply exponent_bounds in Hvy; [|done..].
  unfold f64_div, SFdiv, SFdiv_core_binary. rewrite !Zdigits2_log2, (log2_between (Z.pos m1) 52), (log2_between (Z.pos m2) 52) by lia.
  rewrite fexp_eq by lia. set (ez := Z.min _ _). assert (ez = e1 - e2 - 53) as Ez by lia. clearbody ez.
  replace (e1 - e2 - ez) with 53 by lia. cbv zeta. rewrite Z.shiftl_mul_pow2 by lia.
  pose proof (Z_div_mod (Z.pos m1 * 2 ^ 53) (Z.pos m2) ltac:(lia)) as Hdm.
  destruct (Z.div_eucl (Z.pos m1 * 2 ^ 53) (Z.pos m2)) as [q0 r]. destruct Hdm as [Hq0 Hr].
  pose proof (new_location_inbetween q0 r (Z.pos m2) ltac:(lia) Hr) as Hl.
  replace (q0 * Z.pos m2 + r) with (Z.pos m1 * 2 ^ 53) in Hl by lia.
  assert (2 ^ 52 <= q0 < 2 ^ 54) as Hq by nia.
  assert (52 <= Z.log2 q0 <= 53) as Hk.
  { split; [apply Z.log2_le_pow2; lia|]. assert (Z.log2 q0 < 54); [apply Z.log2_lt_pow2; lia|lia]. }
  rewrite xorb_false_r.
  destruct (binary_round_aux_near sx q0 ez (new_location (Z.pos m2) r) (Z.pos m1 * 2 ^ 53) (Z.pos m2))
    as (m & e & q & -> & Hm & He & Hqm & Hf & Hn); [lia|lia|done|lia|].
  set (k := Z.log2 q0 - 52) in *. assert (0 <= k <= 1) as Hk' by lia. clearbody k.
  assert (2 ^ 52 <= q) as Hq52.
  { assert (1 <= 2 ^ (e - (ez + k))) by (apply (Z.pow_le_mono_r 2 0); lia). nia. }
  exists (Z.pos m * 2 ^ (e + 200)). split; [exists m, e; split_and!; (done || lia)|].
  assert (Z.pos m * 2 ^ (e + 200) * (Z.pos m2 * 2 ^ (e2 + 200)) = 2 ^ (e1 + 347) * (q * (2 ^ k * Z.pos m2))) as ->.
  { rewrite (scale_split _ e (ez + k)), <- Hqm by lia. replace (e1 + 347) with (ez + 200 + (e2 + 200)) by lia.
    replace (ez + k + 200) with (ez + 200 + k) by lia. rewrite (Z.pow_add_r 2 (ez + 200) k), (Z.pow_add_r 2 (ez + 200) (e2 + 200)) by lia.
    ring. }
  replace (Z.pos m1 * 2 ^ (e1 + 200) * P) with (2 ^ (e1 + 347) * (Z.pos m1 * 2 ^ 53)).
  2:{ unfold P. replace (2 ^ (e1 + 347) * (Z.pos m1 * 2 ^ 53)) with (Z.pos m1 * (2 ^ (e1 + 347) * 2 ^ 53)) by ring.
      rewrite <- Z.mul_assoc, <- !Z.pow_add_r by lia. f_equal. f_equal. lia. }
  rewrite <- Z.mul_sub_distr_l, Z.abs_mul, Z.abs_eq by (apply Z.pow_nonneg; lia).
  assert (0 < 2 ^ (e1 + 347)) by (apply Z.pow_pos_nonneg; lia). assert (0 < 2 ^ k) by (apply Z.pow_pos_nonneg; lia).
  rewrite Z.mul_assoc, (Z.mul_comm (2 ^ 53)), <- Z.mul_assoc. apply Z.mul_le_mono_nonneg_l; [lia|].
  by apply near_relative; [lia|..].
Qed.

Lemma not_below K A S t q s :
  0 < K → 0 < S → s / K <= q → t * (A * K * S) <= s * S → t * (A * K * S) <= S * (q * (K * 1)).
Proof.
  intros HK HS Hf. assert (t * (A * K * S) = K * (t * A) * S) as -> by ring. intros Ht%Z.mul_le_mono_pos_r; [|done].
  assert (t * A <= q) as Hq by (etrans; [by apply (Z.div_le_lower_bound s K)|exact Hf]).
  replace (S * (q * (K * 1))) with (K * q * S) by ring.
  apply Z.mul_le_mono_nonneg_r; [lia|]. apply Z.mul_le_mono_nonneg_l; [lia|done].
Qed.

(** Addition is within 2^-53 of the sum, and not below an integer the sum is not below. *)
Lemma rep_add sx x y vx vy :
  rep sx x vx → rep sx y vy → 2 ^ 60 <= vx → 2 ^ 60 <= vy → vx + vy < 2 ^ 252 →
  ∃ v, rep sx (f64_add x y) v ∧ 2 ^ 53 * Z.abs (v - (vx + vy)) <= v ∧ ∀ t, t * P <= vx + vy → t * P <= v.
Proof.
  intros (m1 & e1 & -> & Hm1 & He1 & ->) (m2 & e2 & -> & Hm2 & He2 & ->) Hvx Hvy Hsum.
  assert (0 < 2 ^ (e1 + 200)) by (apply Z.pow_pos_nonneg; lia). assert (0 < 2 ^ (e2 + 200)) by (apply Z.pow_pos_nonneg; lia).
  pose proof (exponent_bounds (Z.pos m1) (e1 + 200) 60 252 Hm1 He1 ltac:(lia) ltac:(lia) ltac:(lia)) as Hb1.
  pose proof (exponent_bounds (Z.pos m2) (e2 + 200) 60 252 Hm2 He2 ltac:(lia) ltac:(lia) ltac:(lia)) as Hb2.
  unfold f64_add, SFadd. set (ez := Z.min e1 e2).
  pose proof (shl_align_fst m1 e1 ez ltac:(lia)) as Ha. pose proof (shl_align_fst m2 e2 ez ltac:(lia)) as Hb.
  destruct (shl_align m1 e1 ez) as [a ?]. destruct (shl_align m2 e2 ez) as [b ?]. cbn [fst] in Ha, Hb |- *.
  replace (binary_normalize 53 1024 _ ez false) with (binary_round 53 1024 sx (a + b) ez) by by destruct sx.
  assert (2 ^ 52 <= Z.pos (a + b)) as Hab.
  { assert (1 <= 2 ^ (e1 - ez)) by (apply (Z.pow_le_mono_r 2 0); lia). nia. }
  assert (Z.pos m1 * 2 ^ (e1 + 200) + Z.pos m2 * 2 ^ (e2 + 200) = Z.pos (a + b) * 2 ^ (ez + 200)) as Hs.
  { rewrite Pos2Z.inj_add, Ha, Hb, (scale_split _ e1 ez), (scale_split _ e2 ez) by lia. ring. }
  rewrite Hs in *. assert (52 <= Z.log2 (Z.pos (a + b))) as Hlog by (apply Z.log2_le_pow2; lia).
  unfold binary_round. rewrite digits2_log2, fexp_eq by lia.
  replace (shl_align (a + b) ez _) with ((a + b)%positive, ez).
  2:{ unfold shl_align. destruct (Z.log2 _ + 1 + ez - 53 - ez) eqn:E; [done|done|lia]. }
  pose proof (Z.log2_spec (Z.pos (a + b)) ltac:(lia)) as Hls.
  assert (ez + (Z.log2 (Z.pos (a + b)) - 52) < 0) as Hneg.
  { assert (Z.log2 (Z.pos (a + b)) + (ez + 200) < 252); [|lia]. apply (Z.pow_lt_mono_r_iff 2); [lia|lia|].
    rewrite Z.pow_add_r by lia. assert (0 < 2 ^ (ez + 200)) by (apply Z.pow_pos_nonneg; lia). nia. }
  destruct (binary_round_aux_near sx (Z.pos (a + b)) ez loc_Exact (Z.pos (a + b)) 1) as (m & e & q & -> & Hm & He & Hqm & Hf & Hn);
    [lia|lia|simpl; lia|lia|].
  set (k := Z.log2 (Z.pos (a + b)) - 52) in *. assert (0 <= k) as Hk by lia. clearbody k.
  assert (2 ^ 52 <= q) as Hq52.
  { assert (1 <= 2 ^ (e - (ez + k))) by (apply (Z.pow_le_mono_r 2 0); lia). nia. }
  assert (Z.pos m * 2 ^ (e + 200) = 2 ^ (ez + 200) * (q * (2 ^ k * 1))) as Hv.
  { rewrite (scale_split _ e (ez + k)), <- Hqm by lia. replace (ez + k + 200) with (ez + 200 + k) by lia.
    rewrite (Z.pow_add_r 2 (ez + 200) k) by lia. ring. }
  assert (0 < 2 ^ (ez + 200)) by (apply Z.pow_pos_nonneg; lia). assert (0 < 2 ^ k) by (apply Z.pow_pos_nonneg; lia).
  exists (Z.pos m * 2 ^ (e + 200)). split; [exists m, e; split_and!; (done || lia)|]. rewrite Hv. split.
  - replace (2 ^ (ez + 200) * (q * (2 ^ k * 1)) - Z.pos (a + b) * 2 ^ (ez + 200))
      with (2 ^ (ez + 200) * (q * (2 ^ k * 1) - Z.pos (a + b))) by ring.
    rewrite Z.abs_mul, Z.abs_eq by lia.
    rewrite Z.mul_assoc, (Z.mul_comm (2 ^ 53)), <- Z.mul_assoc. apply Z.mul_le_mono_nonneg_l; [lia|].
    by apply near_relative; [lia|..].
  - intros t Ht. unfold P in *.
    replace (2 ^ 200) with (2 ^ (- (ez + k)) * 2 ^ k * 2 ^ (ez + 200)) in * by (rewrite <- !Z.pow_add_r by lia; f_equal; lia).
    by eapply not_below.
Qed.

(** Multiplication is within 2^-53 of the product. *)
Lemma rep_mul sx x y vx vy :
  rep sx x vx → rep false y vy → 2 ^ 140 <= vx < 2 ^ 260 → 2 ^ 160 <= vy < 2 ^ 260 →
  ∃ v, rep sx (f64_mul x y) v ∧ 2 ^ 53 * Z.abs (v * P - vx * vy) <= v * P.
Proof.
  intros (m1 & e1 & -> & Hm1 & He1 & ->) (m2 & e2 & -> & Hm2 & He2 & ->) Hvx Hvy.
  apply exponent_bounds in Hvx; [|done..]. apply exponent_bounds in Hvy; [|done..].
  unfold f64_mul, SFmul. rewrite Pos2Z.inj_mul, xorb_false_r. set (n := Z.pos m1 * Z.pos m2). set (ez := e1 + e2).
  assert (2 ^ 104 <= n < 2 ^ 106) as Hn.
  { unfold n. split; [change (2 ^ 104) with (2 ^ 52 * 2 ^ 52)|change (2 ^ 106) with (2 ^ 53 * 2 ^ 53)];
      [apply Z.mul_le_mono_nonneg|apply Z.mul_lt_mono_nonneg]; lia. }
  assert (104 <= Z.log2 n <= 105) as Hk.
  { split; [apply Z.log2_le_pow2; lia|]. assert (Z.log2 n < 106); [apply Z.log2_lt_pow2; lia|lia]. }
  destruct (binary_round_aux_near sx n ez loc_Exact n 1) as (m & e & q & -> & Hm & He & Hqm & _ & Hnr); [lia|lia|simpl; lia|lia|].
  set (k := Z.log2 n - 52) in *. assert (52 <= k <= 53) as Hk' by lia. clearbody k.
  assert (2 ^ 52 <= q) as Hq52.
  { assert (1 <= 2 ^ (e - (ez + k))) by (apply (Z.pow_le_mono_r 2 0); lia). nia. }
  exists (Z.pos m * 2 ^ (e + 200)). split; [exists m, e; split_and!; (done || lia)|].
  assert (Z.pos m * 2 ^ (e + 200) * P = 2 ^ (ez + 400) * (q * (2 ^ k * 1))) as ->.
  { rewrite (scale_split _ e (ez + k)), <- Hqm by lia. unfold P. rewrite <- Z.mul_assoc, <- Z.pow_add_r by lia.
    replace (ez + k + 200 + 200) with (ez + 400 + k) by lia. rewrite (Z.pow_add_r 2 (ez + 400) k) by lia. ring. }
  assert (Z.pos m1 * 2 ^ (e1 + 200) * (Z.pos m2 * 2 ^ (e2 + 200)) = 2 ^ (ez + 400) * n) as ->.
  { replace (ez + 400) with (e1 + 200 + (e2 + 200)) by lia. rewrite (Z.pow_add_r 2 (e1 + 200)) by lia. unfold n. ring. }
  rewrite <- Z.mul_sub_distr_l, Z.abs_mul, Z.abs_eq by (apply Z.pow_nonneg; lia).
  assert (0 < 2 ^ k) by (apply Z.pow_pos_nonneg; lia).
  rewrite Z.mul_assoc, (Z.mul_comm (2 ^ 53)), <- Z.mul_assoc. apply Z.mul_le_mono_nonneg_l; [apply Z.pow_nonneg; lia|].
  by apply near_relative; [lia|..].
Qed.
