(* ===== verification/Ratelimit.v ===== *)
(** * The token bucket: ratelimit.go

    The vendored package the Kubernetes client throttles its requests with.  An instant
    is a number of nanoseconds, and every operation takes the instant [time.Now()]
    returned; the mutex of a bucket makes each operation one step.  int64 arithmetic
    wraps. *)

From stdpp Require Import prelude strings.
From Stdlib Require Import ZArith.
From Corelib Require Import SpecFloat.
From S2P Require Import Prelude GoStrings Float64.

Local Open Scope Z_scope.

(** int64 arithmetic. *)
Definition wrap64 (z : Z) : Z := (z + 2 ^ 63) mod 2 ^ 64 - 2 ^ 63.

Record Bucket : Type := mkBucket {
  startTime : Z;
  capacity : Z;
  quantum : Z;
  fillInterval : Z;
  avail : Z;
  availTick : Z;
}.

Definition set_avail (a : Z) (tb : Bucket) : Bucket :=
  mkBucket (startTime tb) (capacity tb) (quantum tb) (fillInterval tb) a (availTick tb).
Definition set_availTick (t : Z) (tb : Bucket) : Bucket :=
  mkBucket (startTime tb) (capacity tb) (quantum tb) (fillInterval tb) (avail tb) t.

(** ** Construction *)

Definition NewBucketWithQuantum (now interval cap q : Z) : go Bucket :=
  if interval <=? 0 then gopanic (Panicked "token bucket fill interval is not > 0")
  else if cap <=? 0 then gopanic (Panicked "token bucket capacity is not > 0")
  else if q <=? 0 then gopanic (Panicked "token bucket quantum is not > 0")
  else Val (mkBucket now cap q interval cap 0).

Definition NewBucket (now interval cap : Z) : go Bucket := NewBucketWithQuantum now interval cap 1.

(** [rateMargin], the float64 nearest to 0.01. *)
Definition rateMargin : float64 := f64_div (float64_of_int 1) (float64_of_int 100).

Definition nextQuantum (q : Z) : Z :=
  let q1 := Z.quot (wrap64 (q * 11)) 10 in
  if q1 =? q then wrap64 (q1 + 1) else q1.

(** [Rate]: tokens per second. *)
Definition Rate (tb : Bucket) : float64 :=
  f64_div (f64_mul (float64_of_int 1000000000) (float64_of_int (quantum tb))) (float64_of_int (fillInterval tb)).

Definition f64_sub (x y : float64) : float64 := SFsub 53 1024 x y.
Definition f64_leb (x y : float64) : bool := SFleb x y.

(** The loop over quanta; the fuel is the number of quanta below 2^50. *)
Fixpoint rate_loop `{Platform} (fuel : nat) (now : Z) (rate : float64) (cap q : Z) : go Bucket :=
  match fuel with
  | O => gopanic (Panicked "out of fuel")
  | S fuel =>
      if q <? 2 ^ 50 then
        let interval := int64_of_float (f64_div (f64_mul (float64_of_int 1000000000) (float64_of_int q)) rate) in
        if interval <=? 0 then rate_loop fuel now rate cap (nextQuantum q)
        else
          tb ← NewBucketWithQuantum now interval cap q;
          if f64_leb (f64_div (SFabs (f64_sub (Rate tb) rate)) rate) rateMargin then Val tb
          else rate_loop fuel now rate cap (nextQuantum q)
      else gopanic (Panicked "cannot find suitable quantum")
  end.

Definition rate_fuel : nat := 400.

Definition NewBucketWithRate `{Platform} (now : Z) (rate : float64) (cap : Z) : go Bucket :=
  rate_loop rate_fuel now rate cap 1.

(** ** Taking tokens *)

(** The bucket brought up to date, and the current tick. *)
Definition adjust (now : Z) (tb : Bucket) : Bucket * Z :=
  let currentTick := Z.quot (Sub now (startTime tb)) (fillInterval tb) in
  if capacity tb <=? avail tb then (tb, currentTick)
  else
    let a := wrap64 (avail tb + wrap64 (wrap64 (currentTick - availTick tb) * quantum tb)) in
    let a := if capacity tb <? a then capacity tb else a in
    (set_availTick currentTick (set_avail a tb), currentTick).

Definition take (now count maxWait : Z) (tb : Bucket) : Bucket * (Z * bool) :=
  if count <=? 0 then (tb, (0, true))
  else
    let '(tb, currentTick) := adjust now tb in
    let a := wrap64 (avail tb - count) in
    if 0 <=? a then (set_avail a tb, (0, true))
    else
      let endTick := wrap64 (currentTick + Z.quot (wrap64 (wrap64 (wrap64 (- a) + quantum tb) - 1)) (quantum tb)) in
      let endTime := startTime tb + wrap64 (endTick * fillInterval tb) in
      let waitTime := Sub endTime now in
      if maxWait <? waitTime then (tb, (0, false)) else (set_avail a tb, (waitTime, true)).

Definition infinityDuration : Z := 2 ^ 63 - 1.

Definition Take (now count : Z) (tb : Bucket) : Bucket * Z :=
  let '(tb, (d, _)) := take now count infinityDuration tb in (tb, d).

Definition TakeMaxDuration (now count maxWait : Z) (tb : Bucket) : Bucket * (Z * bool) := take now count maxWait tb.

(** [Wait] and [WaitMaxDuration] sleep for the time [Take] and [TakeMaxDuration] give:
    the bucket, the instant at which they return, and whether tokens were taken. *)
Definition Wait (now count : Z) (tb : Bucket) : Bucket * Z :=
  let '(tb, d) := Take now count tb in (tb, if 0 <? d then now + d else now).

Definition WaitMaxDuration (now count maxWait : Z) (tb : Bucket) : Bucket * (Z * bool) :=
  let '(tb, (d, ok)) := TakeMaxDuration now count maxWait tb in (tb, (if 0 <? d then now + d else now, ok)).

Definition takeAvailable (now count : Z) (tb : Bucket) : Bucket * Z :=
  if count <=? 0 then (tb, 0)
  else
    let '(tb, _) := adjust now tb in
    if avail tb <=? 0 then (tb, 0)
    else
      let count := if avail tb <? count then avail tb else count in
      (set_avail (wrap64 (avail tb - count)) tb, count).

Definition available (now : Z) (tb : Bucket) : Bucket * Z :=
  let '(tb, _) := adjust now tb in (tb, avail tb).

(** reader.go: a reader waits after it has read [n] bytes, a writer before it writes
    its [n]. *)
Definition reader_Read (now n : Z) (tb : Bucket) : Bucket * Z := if n <=? 0 then (tb, now) else Wait now n tb.

Definition writer_Write (now n : Z) (tb : Bucket) : Bucket * Z := Wait now n tb.

(** The client's default: five requests a second, bursts of ten. *)
Example client_bucket :
  @NewBucketWithRate amd64 0 (float64_of_int 5) 10 = Val (mkBucket 0 10 1 200000000 10 0).
Proof. vm_compute. reflexivity. Qed.

(** The loop over quanta ends within its fuel: the quanta grow past 2^50. *)
Fixpoint quanta (n : nat) (q : Z) : Z :=
  match n with O => q | S n => quanta n (nextQuantum q) end.

Lemma quanta_end : (2 ^ 50 <=? quanta 399 1) = true.
Proof. vm_compute. reflexivity. Qed.

(** A full bucket for the rate. *)
Definition fits_rate (now : Z) (rate : float64) (tb : Bucket) : Prop :=
  0 < fillInterval tb ∧ 0 < quantum tb ∧ 0 < capacity tb ∧ avail tb = capacity tb ∧ startTime tb = now
  ∧ f64_leb (f64_div (SFabs (f64_sub (Rate tb) rate)) rate) rateMargin = true.

Definition try_quantum `{Platform} (now : Z) (rate : float64) (cap q : Z) (next : go Bucket) : go Bucket :=
  let interval := int64_of_float (f64_div (f64_mul (float64_of_int 1000000000) (float64_of_int q)) rate) in
  if interval <=? 0 then next
  else
    tb ← NewBucketWithQuantum now interval cap q;
    if f64_leb (f64_div (SFabs (f64_sub (Rate tb) rate)) rate) rateMargin then Val tb else next.

Lemma try_quantum_spec `{Platform} now rate cap q next :
  match next with Val tb => fits_rate now rate tb | Halt h => h ≠ HPanic (Panicked "out of fuel") end →
  match try_quantum now rate cap q next with
  | Val tb => fits_rate now rate tb | Halt h => h ≠ HPanic (Panicked "out of fuel")
  end.
Proof.
  intros Hnext. unfold try_quantum. destruct (int64_of_float _ <=? 0) eqn:Hi; [done|]. unfold NewBucketWithQuantum.
  rewrite Hi. destruct (cap <=? 0) eqn:Hc; [done|]. destruct (q <=? 0) eqn:Hq; [done|]. cbn [mbind go_bind].
  destruct (f64_leb _ _) eqn:Hm; [|done]. apply Z.leb_gt in Hi, Hc, Hq. by split_and!.
Qed.

(** Whatever the rate, the search for a quantum ends: with a bucket that is full and
    whose rate is within the margin, or with a panic of the source. *)
Lemma NewBucketWithRate_ends `{Platform} now rate cap :
  match NewBucketWithRate now rate cap with
  | Val tb => fits_rate now rate tb | Halt h => h ≠ HPanic (Panicked "out of fuel")
  end.
Proof.
  pose proof (proj1 (Z.leb_le _ _) quanta_end) as Hq. unfold NewBucketWithRate.
  change rate_fuel with (S 399). revert Hq. generalize 1 as q, 399%nat as fuel. intros q fuel. revert q.
  induction fuel as [|fuel IH]; intros q Hq.
  - cbn [rate_loop]. cbn [quanta] in Hq. by rewrite (proj2 (Z.ltb_ge q _)) by lia.
  - change (rate_loop (S (S fuel)) now rate cap q) with
      (if q <? 2 ^ 50 then try_quantum now rate cap q (rate_loop (S fuel) now rate cap (nextQuantum q))
       else gopanic (Panicked "cannot find suitable quantum")).
    destruct (q <? 2 ^ 50); [|done]. apply try_quantum_spec, IH, Hq.
Qed.

(** ** Without overflow *)

Lemma wrap64_id z : - 2 ^ 63 <= z < 2 ^ 63 → wrap64 z = z.
Proof. intros Hz. unfold wrap64. rewrite Z.mod_small; lia. Qed.

(** The tick of an instant. *)
Definition tick (tb : Bucket) (now : Z) : Z := (now - startTime tb) / fillInterval tb.

(** A bucket at tick [t]: at most [D] tokens are reserved beyond what is there, and
    [T] is a tick up to which no int64 overflows. *)
Record good (T D : Z) (t : Z) (tb : Bucket) : Prop := {
  good_interval : 0 < fillInterval tb;
  good_capacity : 0 < capacity tb;
  good_quantum : 0 < quantum tb;
  good_avail : - D <= avail tb <= capacity tb;
  good_tick : 0 <= availTick tb <= t;
  good_horizon : t <= T;
  good_debt : 0 <= D;
  good_tokens : (T + 1) * quantum tb + capacity tb + D < 2 ^ 62;
  good_time : (T + D + 2) * fillInterval tb < 2 ^ 62;
}.

(** The tokens there are at a tick. *)
Definition tokens (tb : Bucket) (t : Z) : Z :=
  if capacity tb <=? avail tb then avail tb
  else Z.min (capacity tb) (avail tb + (t - availTick tb) * quantum tb).

(** The fields an operation does not change. *)
Definition same_limits (tb tb' : Bucket) : Prop :=
  startTime tb' = startTime tb ∧ capacity tb' = capacity tb ∧ quantum tb' = quantum tb ∧ fillInterval tb' = fillInterval tb.

Lemma same_tick tb tb' now : same_limits tb tb' → tick tb' now = tick tb now.
Proof. unfold tick. by intros (-> & _ & _ & ->). Qed.

Lemma now_range T D tb now :
  good T D (tick tb now) tb → startTime tb <= now → 0 <= now - startTime tb < 2 ^ 62.
Proof.
  intros [Hf _ _ _ _ HT HD _ Ht] Hn. split; [lia|]. unfold tick in HT.
  pose proof (Z.mul_succ_div_gt (now - startTime tb) (fillInterval tb) Hf). nia.
Qed.

(** [adjust] counts the tokens. *)
Lemma adjust_spec T D tb now :
  good T D (tick tb now) tb → startTime tb <= now →
  let '(tb', t) := adjust now tb in
  t = tick tb now ∧ same_limits tb tb' ∧ avail tb' = tokens tb t ∧ good T D t tb'
  ∧ availTick tb' = (if capacity tb <=? avail tb then availTick tb else t).
Proof.
  intros Hg Hn. pose proof (now_range T D tb now Hg Hn) as Hr. unfold adjust.
  assert (Z.quot (Sub now (startTime tb)) (fillInterval tb) = tick tb now) as ->.
  { unfold Sub, min_int64, max_int64, tick. rewrite Z.min_r, Z.max_r by lia. destruct Hg. by rewrite Z.quot_div_nonneg by lia. }
  unfold tokens. destruct (capacity tb <=? avail tb) eqn:Hfull; [by split_and!|].
  apply Z.leb_gt in Hfull. destruct Hg as [Hf Hc Hq Ha Ht HT HD Htok Htime].
  set (d := tick tb now - availTick tb) in *. assert (0 <= d * quantum tb <= T * quantum tb) as Hdq by (subst d; nia).
  rewrite (wrap64_id d), (wrap64_id (d * quantum tb)), (wrap64_id (avail tb + _)) by (subst d; nia).
  cbn. assert ((if capacity tb <? avail tb + d * quantum tb then capacity tb else avail tb + d * quantum tb)
    = Z.min (capacity tb) (avail tb + d * quantum tb)) as ->.
  { destruct (Z.ltb_spec (capacity tb) (avail tb + d * quantum tb)); lia. }
  split_and!; try done. constructor; simpl; try done; lia.
Qed.

Lemma tokens_bounds T D t tb : good T D t tb → avail tb <= tokens tb t <= capacity tb.
Proof.
  intros [Hf Hc Hq Ha Ht _ _ _ _]. unfold tokens. destruct (Z.leb_spec (capacity tb) (avail tb)); nia.
Qed.

(** The first tick at which a debt of [n] is paid. *)
Definition pay_tick (tb : Bucket) (t n : Z) : Z := t + (n + quantum tb - 1) / quantum tb.

Lemma pay_tick_spec tb t n :
  0 < quantum tb → 0 < n →
  t < pay_tick tb t n ∧ n <= (pay_tick tb t n - t) * quantum tb ∧ (pay_tick tb t n - 1 - t) * quantum tb < n.
Proof.
  intros Hq Hn. unfold pay_tick.
  pose proof (Z.mul_div_le (n + quantum tb - 1) (quantum tb) Hq).
  pose proof (Z.mul_succ_div_gt (n + quantum tb - 1) (quantum tb) Hq).
  set (k := (n + quantum tb - 1) / quantum tb) in *. clearbody k. nia.
Qed.

(** [take] in the integers. *)
Lemma take_eq T D tb now count maxWait :
  good T D (tick tb now) tb → startTime tb <= now → 0 < count <= avail tb + D →
  let t := tick tb now in
  let a := tokens tb t - count in
  let E := pay_tick tb t (- a) in
  let wait := startTime tb + E * fillInterval tb - now in
  take now count maxWait tb
  = if 0 <=? a then (set_avail a (adjust now tb).1, (0, true))
    else if maxWait <? wait then ((adjust now tb).1, (0, false))
    else (set_avail a (adjust now tb).1, (wait, true)).
Proof.
  intros Hg Hn Hcount t a E wait. unfold take. rewrite (proj2 (Z.leb_gt count 0)) by lia.
  pose proof (adjust_spec T D tb now Hg Hn) as Ha. pose proof (now_range T D tb now Hg Hn) as Hr.
  pose proof (tokens_bounds T D _ tb Hg) as Htok.
  destruct (adjust now tb) as [tb' t']. destruct Ha as (-> & (Es & Ec & Eq & Ef) & Eav & Hg' & _). cbn [fst].
  fold t in Eav, Htok, Hg, Hg' |- *. rewrite Eav, Es, Eq, Ef. fold a.
  destruct Hg as [Hf Hc Hq Hav Ht HT HD Hbt Hbf]. assert (- D <= a < capacity tb) as Ha by (subst a; lia).
  clearbody a. assert (quantum tb <= (T + 1) * quantum tb) as HqT by (clear -Hq Ht HT; nia). assert (0 <= t) as Ht0 by lia.
  assert (now - startTime tb < (t + 1) * fillInterval tb ∧ t * fillInterval tb <= now - startTime tb) as [Hlt Hle].
  { subst t. unfold tick. pose proof (Z.mul_succ_div_gt (now - startTime tb) (fillInterval tb) Hf).
    pose proof (Z.mul_div_le (now - startTime tb) (fillInterval tb) Hf). lia. }
  clearbody t. rewrite (wrap64_id a) by lia. destruct (Z.leb_spec 0 a) as [|Hneg]; [done|].
  destruct (pay_tick_spec tb t (- a) Hq ltac:(lia)) as (He1 & He2 & He3).
  rewrite (wrap64_id (- a)), (wrap64_id (- a + _)), (wrap64_id (_ - 1)) by lia.
  rewrite Z.quot_div_nonneg by lia. change (t + (- a + quantum tb - 1) / quantum tb) with E. fold E in He1, He2, He3. clearbody E.
  assert (E - 1 - t <= D) as HE1 by (clear -He3 Hq Ha HD; nia). assert (0 <= E <= T + D + 1) as HE by lia.
  assert (T + D + 2 <= (T + D + 2) * fillInterval tb) as HTD by (clear -Hf HE Ht0 HD; nia).
  assert (0 <= E * fillInterval tb <= (T + D + 2) * fillInterval tb) as HEf by (clear -Hf HE; nia).
  rewrite (wrap64_id E), (wrap64_id (E * _)) by lia.
  assert ((t + 1) * fillInterval tb <= E * fillInterval tb) as HtE by (clear -Hf He1; nia).
  assert (Sub (startTime tb + E * fillInterval tb) now = wait) as ->; [|done].
  unfold Sub, min_int64, max_int64. fold wait. assert (0 < wait < 2 ^ 62) by (subst wait; lia). lia.
Qed.

(** What a [take] leaves: a good bucket with the tokens taken, or with none taken. *)
Lemma take_good T D tb now count maxWait :
  good T D (tick tb now) tb → startTime tb <= now → 0 < count <= avail tb + D →
  let '(tb', (d, ok)) := take now count maxWait tb in
  good T D (tick tb now) tb' ∧ same_limits tb tb'
  ∧ avail tb' = tokens tb (tick tb now) - (if ok then count else 0)
  ∧ availTick tb' = (if capacity tb <=? avail tb then availTick tb else tick tb now).
Proof.
  intros Hg Hn Hc. rewrite (take_eq T D) by done. pose proof (tokens_bounds T D _ tb Hg) as Htok.
  pose proof (adjust_spec T D tb now Hg Hn) as Ha. destruct (adjust now tb) as [tb' t].
  destruct Ha as (-> & Hs & Hav & Hg' & Ht). cbn [fst].
  assert (∀ a, - D <= a <= capacity tb → good T D (tick tb now) (set_avail a tb')) as Hset.
  { intros a Ha. destruct Hs as (_ & Ec & _). destruct Hg'. constructor; simpl; try done; lia. }
  destruct (0 <=? _); [|destruct (_ <? _)]; split_and!; try done; try (apply Hset; lia); rewrite Hav; lia.
Qed.

(** Waiting is exact. *)
Lemma take_exact T D tb now count maxWait :
  good T D (tick tb now) tb → startTime tb <= now → 0 < count <= avail tb + D →
  let t := tick tb now in
  let '(tb', (d, ok)) := take now count maxWait tb in
  avail tb' = tokens tb t - (if ok then count else 0)
  ∧ (count <= tokens tb t → ok = true ∧ d = 0)
  ∧ (tokens tb t < count →
     ∃ E, t < E ∧ count <= tokens tb t + (E - t) * quantum tb ∧ tokens tb t + (E - 1 - t) * quantum tb < count
       ∧ let wait := startTime tb + E * fillInterval tb - now in
         ok = negb (maxWait <? wait) ∧ d = (if ok then wait else 0)).
Proof.
  intros Hg Hn Hc t. pose proof (take_good T D tb now count maxWait Hg Hn Hc) as Htk. revert Htk.
  rewrite (take_eq T D) by done. fold t. destruct (Z.leb_spec 0 (tokens tb t - count)) as [H0|H0].
  - intros (_ & _ & Hav & _). split_and!; [done|done|lia].
  - destruct (pay_tick_spec tb t (- (tokens tb t - count))) as (H1 & H2 & H3); [by destruct Hg|lia|].
    destruct (maxWait <? _) eqn:Hw; intros (_ & _ & Hav & _); (split_and!; [done|lia|]); intros _;
      exists (pay_tick tb t (- (tokens tb t - count))); split_and!; try lia; cbv zeta; by rewrite Hw.
Qed.

(** C31. A request for tokens waits exactly as long as it must: on a bucket whose
    arithmetic does not overflow, [take] grants at once when the tokens are there, and
    otherwise gives the time until the first tick at which enough tokens have been
    added; it refuses, and takes nothing, exactly when that is longer than the limit. *)
Theorem take_waits_exactly T D tb now count maxWait :
  good T D (tick tb now) tb → startTime tb <= now → 0 < count <= avail tb + D →
  let t := tick tb now in
  let '(tb', (d, ok)) := take now count maxWait tb in
  avail tb' = tokens tb t - (if ok then count else 0)
  ∧ (count <= tokens tb t → ok = true ∧ d = 0)
  ∧ (tokens tb t < count →
     ∃ E, t < E ∧ count <= tokens tb t + (E - t) * quantum tb ∧ tokens tb t + (E - 1 - t) * quantum tb < count
       ∧ let wait := startTime tb + E * fillInterval tb - now in
         ok = negb (maxWait <? wait) ∧ d = (if ok then wait else 0)).
Proof. apply take_exact. Qed.

(** [takeAvailable] takes what there is, up to the count. *)
Lemma takeAvailable_spec T D tb now count :
  good T D (tick tb now) tb → startTime tb <= now → 0 < count →
  let '(tb', n) := takeAvailable now count tb in
  n = Z.max 0 (Z.min count (tokens tb (tick tb now))) ∧ avail tb' = tokens tb (tick tb now) - n ∧ good T D (tick tb now) tb'.
Proof.
  intros Hg Hn Hc. unfold takeAvailable. rewrite (proj2 (Z.leb_gt count 0)) by lia.
  pose proof (adjust_spec T D tb now Hg Hn) as Ha. destruct (adjust now tb) as [tb' t].
  destruct Ha as (-> & (_ & Ec & Eq & _) & Hav & Hg' & _). pose proof (tokens_bounds T D _ tb Hg) as Htok. rewrite <- Hav in *.
  destruct (Z.leb_spec (avail tb') 0); [split_and!; [lia|lia|done]|].
  assert ((if avail tb' <? count then avail tb' else count) = Z.min count (avail tb')) as -> by (destruct (Z.ltb_spec (avail tb') count); lia).
  destruct Hg' as [? ? ? ? ? ? ? Hbt ?].
  assert (quantum tb' <= (T + 1) * quantum tb') by nia. rewrite wrap64_id by lia.
  split_and!; [lia|simpl; lia|]. constructor; simpl; try done; lia.
Qed.

(** ** The rate *)

(** Requests [(now, count, maxWait)] in order: what is granted, with the instant at
    which it may be used. *)
Fixpoint grants (tb : Bucket) (reqs : list (Z * Z * Z)) : list (Z * Z) :=
  match reqs with
  | [] => []
  | (now, count, maxWait) :: reqs =>
      let '(tb', (d, ok)) := take now count maxWait tb in
      (if ok then [(count, now + d)] else []) ++ grants tb' reqs
  end.

(** The tokens released up to tick [E]. *)
Fixpoint released (tb : Bucket) (E : Z) (gs : list (Z * Z)) : Z :=
  match gs with
  | [] => 0
  | (count, at_) :: gs => (if tick tb at_ <=? E then count else 0) + released tb E gs
  end.

(** Requests in the order of time, each for at most the capacity, from tick [t] on. *)
Fixpoint in_order (tb : Bucket) (t : Z) (reqs : list (Z * Z * Z)) : Prop :=
  match reqs with
  | [] => True
  | (now, count, _) :: reqs => startTime tb <= now ∧ t <= tick tb now ∧ 0 < count <= capacity tb ∧ in_order tb (tick tb now) reqs
  end.

Definition total (reqs : list (Z * Z * Z)) : Z := foldr (λ r acc, r.1.2 + acc) 0 reqs.

(** The last tick of the requests. *)
Fixpoint last_tick (tb : Bucket) (t : Z) (reqs : list (Z * Z * Z)) : Z :=
  match reqs with [] => t | (now, _, _) :: reqs => last_tick tb (tick tb now) reqs end.

(** What a full bucket gains from not noting the time while it is full. *)
Definition idle_extra (tb : Bucket) (t : Z) : Z :=
  if capacity tb <=? avail tb then Z.min (capacity tb) ((t - availTick tb) * quantum tb) else 0.

(** The tokens that can be had at once. *)
Definition burst (tb : Bucket) (t : Z) : Z := tokens tb t + idle_extra tb t.

Lemma burst_later T D tb t t' :
  good T D t tb → t <= t' → burst tb t' <= burst tb t + (t' - t) * quantum tb.
Proof.
  intros [Hf Hc Hq Ha Ht _ _ _ _] Htt. unfold burst, tokens, idle_extra.
  assert ((t' - availTick tb) * quantum tb = (t - availTick tb) * quantum tb + (t' - t) * quantum tb) by lia.
  assert (0 <= (t' - t) * quantum tb) by nia. destruct (Z.leb_spec (capacity tb) (avail tb)); lia.
Qed.

Ltac leb_cases := match goal with |- context [?x <=? ?y] => destruct (Z.leb_spec x y) end.

(** A granted request uses up what it takes. *)
Lemma take_burst T D tb now count maxWait :
  good T D (tick tb now) tb → startTime tb <= now → 0 < count <= avail tb + D → count <= capacity tb →
  let t := tick tb now in
  let '(tb', (d, ok)) := take now count maxWait tb in
  burst tb' t <= burst tb t - (if ok then count else 0)
  ∧ (ok = true → 0 <= burst tb' t + (tick tb (now + d) - t) * quantum tb ∧ t <= tick tb (now + d)).
Proof.
  intros Hg Hn Hc Hcap t.
  pose proof (take_good T D tb now count maxWait Hg Hn Hc) as Hgood.
  pose proof (take_exact T D tb now count maxWait Hg Hn Hc) as Hwait.
  destruct (take now count maxWait tb) as [tb' [d ok]]. cbn zeta in Hwait. fold t in Hgood, Hwait.
  destruct Hgood as (Hg' & (Es & Ec & Eq & Ef) & Hav & Hat). destruct Hwait as (_ & Hnow & Hlater).
  pose proof (tokens_bounds T D t tb Hg) as Htok. destruct Hg as [Hf Hcp Hq Ha Ht _ _ _ _]. fold t in Ht.
  assert (0 <= (t - availTick tb) * quantum tb) as Hd by (clear -Ht Hq; nia).
  assert (burst tb' t <= burst tb t - (if ok then count else 0) ∧ avail tb' <= burst tb' t) as [Hb Hb'].
  { unfold burst, tokens, idle_extra in *. rewrite Ec, Eq, Hav, Hat.
    destruct (Z.leb_spec (capacity tb) (avail tb)) as [Hfull|Hfull].
    - destruct ok; repeat leb_cases; lia.
    - rewrite Z.sub_diag. destruct ok; repeat leb_cases; lia. }
  split; [done|]. intros ->. destruct (Z.le_gt_cases count (tokens tb t)) as [Hle|Hgt].
  - destruct (Hnow Hle) as [_ ->]. rewrite Z.add_0_r. fold t. lia.
  - destruct (Hlater Hgt) as (E & HtE & HE & _ & Hok). cbn zeta in Hok. destruct Hok as [_ ->].
    assert (tick tb (now + (startTime tb + E * fillInterval tb - now)) = E) as ->; [|lia].
    unfold tick. replace (_ - startTime tb) with (E * fillInterval tb) by lia. apply Z.div_mul. lia.
Qed.

Lemma released_same tb tb' E gs : same_limits tb tb' → released tb' E gs = released tb E gs.
Proof.
  intros Hs. induction gs as [|[c at_] gs IH]; [done|]. simpl. by rewrite IH, (same_tick tb tb').
Qed.

Lemma in_order_same tb tb' t reqs : same_limits tb tb' → in_order tb t reqs → in_order tb' t reqs.
Proof.
  intros Hs. revert t. induction reqs as [|[[now c] w] reqs IH]; intros t; [done|]. simpl.
  rewrite (same_tick tb tb') by done. destruct Hs as (Es & Ec & _). rewrite Es, Ec. naive_solver.
Qed.

Lemma good_later T D t t' tb : good T D t tb → t <= t' <= T → good T D t' tb.
Proof. intros [] ?. constructor; try done; lia. Qed.

Lemma last_tick_ge tb t reqs : in_order tb t reqs → t <= last_tick tb t reqs.
Proof.
  revert t. induction reqs as [|[[now c] w] reqs IH]; intros t; simpl; [lia|]. intros (_ & ? & _ & Hin).
  specialize (IH _ Hin). lia.
Qed.

Lemma last_tick_same tb tb' t reqs : same_limits tb tb' → last_tick tb' t reqs = last_tick tb t reqs.
Proof.
  intros Hs. revert t. induction reqs as [|[[now c] w] reqs IH]; intros t; [done|]. simpl.
  by rewrite (same_tick tb tb'), IH.
Qed.

Lemma total_nonneg tb t reqs : in_order tb t reqs → 0 <= total reqs.
Proof.
  revert t. induction reqs as [|[[now c] w] reqs IH]; intros t; simpl; [lia|]. intros (_ & _ & ? & Hin).
  specialize (IH _ Hin). unfold total in *. lia.
Qed.

(** What is released is covered by the burst and the refill. *)
Lemma released_burst T D t tb reqs E :
  good T D t tb → in_order tb t reqs → last_tick tb t reqs <= T → total reqs <= avail tb + D →
  released tb E (grants tb reqs) <= Z.max 0 (burst tb t + (E - t) * quantum tb).
Proof.
  revert t tb. induction reqs as [|[[now count] maxWait] reqs IH]; intros t tb Hg Hin Hlast Htot; cbn [grants]; [simpl; lia|].
  destruct Hin as (Hn & Ht & Hc & Hin). cbn [last_tick] in Hlast. pose proof (last_tick_ge _ _ _ Hin) as Hlt.
  pose proof (total_nonneg _ _ _ Hin) as Htn. cbn [total foldr fst snd] in Htot. fold (total reqs) in Htot.
  pose proof (good_later T D t (tick tb now) tb Hg ltac:(lia)) as Hg1.
  pose proof (burst_later T D tb t (tick tb now) Hg Ht) as Hbl.
  pose proof (take_good T D tb now count maxWait Hg1 Hn ltac:(lia)) as Hgood.
  pose proof (take_burst T D tb now count maxWait Hg1 Hn ltac:(lia) ltac:(lia)) as Hburst.
  pose proof (tokens_bounds T D _ tb Hg1) as Htok.
  destruct (take now count maxWait tb) as [tb' [d ok]]. cbn zeta in Hburst.
  destruct Hgood as (Hg' & Hs & Hav & _). destruct Hburst as [Hb Hrel].
  assert (quantum tb' = quantum tb) as Eq by (by destruct Hs as (_ & _ & ? & _)).
  specialize (IH (tick tb now) tb' Hg' (in_order_same _ _ _ _ Hs Hin)).
  rewrite (last_tick_same tb tb'), (released_same tb tb'), Eq in IH by done.
  specialize (IH ltac:(lia) ltac:(destruct ok; lia)).
  assert ((E - t) * quantum tb = (E - tick tb now) * quantum tb + (tick tb now - t) * quantum tb) as HE by lia.
  destruct ok; cbn [app released]; [|lia]. destruct (Hrel eq_refl) as [Hpay _].
  destruct (Z.leb_spec (tick tb (now + d)) E) as [Hle|Hgt]; [|lia].
  assert ((tick tb (now + d) - tick tb now) * quantum tb <= (E - tick tb now) * quantum tb) as Hmono.
  { destruct Hg. nia. }
  lia.
Qed.

(** C15. The rate limit: in any sequence of requests, each for at most the capacity,
    the tokens released between tick [t] and tick [E] are at most the capacity, the
    tokens added in between, and what a bucket gains that was full before [t]: it does
    not note the time while it is full, and so fills up a second time.  That is at
    most once more the capacity, and nothing for a new bucket.  No int64 overflows
    before tick [T] with at most [D] tokens reserved. *)
Theorem rate_is_limited T D t tb reqs E :
  good T D t tb → in_order tb t reqs → last_tick tb t reqs <= T → total reqs <= avail tb + D → t <= E →
  released tb E (grants tb reqs) <= capacity tb + idle_extra tb t + (E - t) * quantum tb
  ∧ 0 <= idle_extra tb t <= capacity tb
  ∧ (availTick tb = t → idle_extra tb t = 0).
Proof.
  intros Hg Hin Hlast Htot HE. pose proof (released_burst T D t tb reqs E Hg Hin Hlast Htot) as Hr.
  pose proof (tokens_bounds T D t tb Hg) as Htok. destruct Hg as [Hf Hc Hq Ha Ht _ _ _ _].
  assert (0 <= (E - t) * quantum tb) by nia. assert (0 <= (t - availTick tb) * quantum tb) by nia.
  unfold burst, idle_extra in *. split; [destruct (capacity tb <=? avail tb); lia|]. split; [destruct (capacity tb <=? avail tb); lia|].
  intros ->. rewrite Z.sub_diag, Z.mul_0_l. destruct (capacity tb <=? avail tb); lia.
Qed.

(** ** Witnesses *)

(** Two tokens a tick of a second, up to ten; four requests. *)
Definition demo_bucket : Bucket := mkBucket 0 10 2 1000000000 10 0.

Definition demo_takes : list (Z * Z * Z) :=
  [(0, 10, infinityDuration); (500000000, 3, infinityDuration); (600000000, 5, 1000000000); (2000000000, 4, infinityDuration)].

Lemma demo_good : good 1000 1000 0 demo_bucket.
Proof. constructor; cbn; lia. Qed.

Lemma take_waits_exactly_witness :
  let '(tb', (d, ok)) := take 0 12 infinityDuration demo_bucket in
  avail tb' = 10 - (if ok then 12 else 0)
  ∧ (12 <= 10 → ok = true ∧ d = 0)
  ∧ (10 < 12 →
     ∃ E, 0 < E ∧ 12 <= 10 + (E - 0) * 2 ∧ 10 + (E - 1 - 0) * 2 < 12
       ∧ let wait := 0 + E * 1000000000 - 0 in ok = negb (infinityDuration <? wait) ∧ d = (if ok then wait else 0)).
Proof. apply (take_waits_exactly 1000 1000 demo_bucket 0 12 infinityDuration demo_good); cbn; lia. Defined.

Lemma rate_is_limited_witness :
  grants demo_bucket demo_takes = [(10, 0); (3, 2000000000); (4, 4000000000)]
  ∧ released demo_bucket 2 (grants demo_bucket demo_takes) <= 10 + 0 + 2 * 2
  ∧ 0 <= 0 <= 10 ∧ (0 = 0 → 0 = 0).
Proof.
  split; [vm_compute; reflexivity|].
  apply (rate_is_limited 1000 1000 0 demo_bucket demo_takes 2 demo_good);
    [repeat split; vm_compute; first [discriminate|reflexivity]|vm_compute; discriminate|vm_compute; discriminate|lia].
Defined.

(** A bucket that was full for ten seconds hands out its capacity twice in an instant,
    and then no more. *)
Lemma idle_bucket_grants_twice :
  grants demo_bucket [(10000000000, 10, infinityDuration); (10000000000, 10, infinityDuration); (10000000000, 1, infinityDuration)]
  = [(10, 10000000000); (10, 10000000000); (1, 11000000000)].
Proof. vm_compute. reflexivity. Qed.
