(* ===== verification/Contexts.v ===== *)
(** * Cancellation contexts: context.go

    The vendored golang.org/x/net/context, whose interface [gin.Context] implements.  A
    context is a tree of the values the code never changes after it has made them; what
    the mutex of a cancelCtx guards is a cell of a store, and the address of the cell is
    the identity of the pointer.  Every operation that locks is one step of
    the store; timers, goroutines and the contexts of other packages take steps of their
    own ([step]). *)

From stdpp Require Import prelude gmap strings relations.
From Stdlib Require Import ZArith.
From S2P Require Import Prelude GoSort Float64.

Local Open Scope nat_scope.

Inductive error : Type := Canceled | DeadlineExceeded | OtherError (msg : string).

#[export] Instance error_eq_dec : EqDecision error.
Proof. solve_decision. Defined.

(** What an operation can get stuck on.  The runtime would report the first two; the
    mutex is not reentrant, so a goroutine that locks it twice waits for ever. *)
Inductive stuck : Type := Panics (msg : string) | Deadlock | NoSuchCell | OutOfFuel.

(** *cancelCtx or *timerCtx: the dynamic type of a canceler. *)
Inductive kind : Type := Plain | Timed.

#[export] Instance kind_eq_dec : EqDecision kind.
Proof. solve_decision. Defined.

#[export] Instance kind_countable : Countable kind.
Proof.
  refine (inj_countable' (λ k, match k with Plain => true | Timed => false end)
            (λ b, if b then Plain else Timed) _).
  by intros [].
Defined.

Section contexts.
Context {K V : Type} `{EqDecision K}.

(** A context of another package: what its methods answer; the instant its channel
    closes is a step of the environment. *)
Record foreign : Type := Foreign {
  f_id : nat;
  f_Deadline : option Z;
  f_Done : bool;
  f_Value : K → option V;
}.

Inductive ctx : Type :=
| background
| todo
| foreignCtx (f : foreign)
| cancelCtx (parent : ctx) (addr : nat)
| timerCtx (parent : ctx) (addr : nat) (deadline : Z)
| valueCtx (parent : ctx) (key : K) (val : V).

(** The key of a canceler in a map: two interface values are equal when their dynamic
    types and pointers are. *)
Definition ckey : Type := kind * nat.

Definition key_of (c : ctx) : option ckey :=
  match c with
  | cancelCtx _ a => Some (Plain, a)
  | timerCtx _ a _ => Some (Timed, a)
  | _ => None
  end.

(** The fields of a cancelCtx that change, and the [timer] of a timerCtx. *)
Record cell : Type := Cell {
  mu : bool;
  done_closed : bool;
  children : option (gmap ckey ctx);
  err : option error;
  timer : bool;
}.

Definition set_mu b (cl : cell) := Cell b (done_closed cl) (children cl) (err cl) (timer cl).
Definition set_done_closed b (cl : cell) := Cell (mu cl) b (children cl) (err cl) (timer cl).
Definition set_children m (cl : cell) := Cell (mu cl) (done_closed cl) m (err cl) (timer cl).
Definition set_err e (cl : cell) := Cell (mu cl) (done_closed cl) (children cl) e (timer cl).
Definition set_timer b (cl : cell) := Cell (mu cl) (done_closed cl) (children cl) (err cl) b.

(** [timers]: started timers and when they fire; [fired]: functions of fired timers
    that have yet to run; [watchers]: the goroutines of propagateCancel, each with the
    parent and the child it waits for. *)
Record world : Type := World {
  cells : list cell;
  foreigns : gmap nat error;
  timers : gmap nat Z;
  fired : gset nat;
  watchers : list (ctx * ctx);
  clock : Z;
}.

Definition set_cells l (w : world) := World l (foreigns w) (timers w) (fired w) (watchers w) (clock w).
Definition set_foreigns m (w : world) := World (cells w) m (timers w) (fired w) (watchers w) (clock w).
Definition set_timers m (w : world) := World (cells w) (foreigns w) m (fired w) (watchers w) (clock w).
Definition set_fired x (w : world) := World (cells w) (foreigns w) (timers w) x (watchers w) (clock w).
Definition set_watchers l (w : world) := World (cells w) (foreigns w) (timers w) (fired w) l (clock w).
Definition set_clock t (w : world) := World (cells w) (foreigns w) (timers w) (fired w) (watchers w) t.

(** ** Methods that read *)

(** The cell whose channel [Done] returns, or the foreign context. *)
Inductive channel : Type := ChanCell (a : nat) | ChanForeign (f : nat).

Fixpoint Done (c : ctx) : option channel :=
  match c with
  | background | todo => None
  | foreignCtx f => if f_Done f then Some (ChanForeign (f_id f)) else None
  | cancelCtx _ a | timerCtx _ a _ => Some (ChanCell a)
  | valueCtx parent _ _ => Done parent
  end.

Definition is_closed (w : world) (ch : channel) : bool :=
  match ch with
  | ChanCell a => match cells w !! a with Some cl => done_closed cl | None => false end
  | ChanForeign f => bool_decide (is_Some (foreigns w !! f))
  end.

Definition cell_err (w : world) (a : nat) : option error := cells w !! a ≫= err.

Fixpoint Err_ (w : world) (c : ctx) : option error :=
  match c with
  | background | todo => None
  | foreignCtx f => foreigns w !! f_id f
  | cancelCtx _ a | timerCtx _ a _ => cell_err w a
  | valueCtx parent _ _ => Err_ w parent
  end.

Fixpoint Deadline (c : ctx) : option Z :=
  match c with
  | background | todo => None
  | foreignCtx f => f_Deadline f
  | cancelCtx parent _ | valueCtx parent _ _ => Deadline parent
  | timerCtx _ _ deadline => Some deadline
  end.

Fixpoint Value (c : ctx) (k : K) : option V :=
  match c with
  | background | todo => None
  | foreignCtx f => f_Value f k
  | cancelCtx parent _ | timerCtx parent _ _ => Value parent k
  | valueCtx parent key val => if decide (key = k) then Some val else Value parent k
  end.

Fixpoint parentCancelCtx (parent : ctx) : option nat :=
  match parent with
  | cancelCtx _ a | timerCtx _ a _ => Some a
  | valueCtx c _ _ => parentCancelCtx c
  | _ => None
  end.

(** ** The store *)

Definition get_cell (w : world) (a : nat) : result stuck cell :=
  match cells w !! a with Some cl => Ok cl | None => Err NoSuchCell end.

Definition put_cell (w : world) (a : nat) (cl : cell) : world := set_cells (<[a := cl]> (cells w)) w.

Definition lock (w : world) (a : nat) : result stuck world :=
  cl ← get_cell w a;
  if mu cl then Err Deadlock else Ok (put_cell w a (set_mu true cl)).

Definition unlock (w : world) (a : nat) : result stuck world :=
  cl ← get_cell w a;
  if mu cl then Ok (put_cell w a (set_mu false cl)) else Err (Panics "sync: unlock of unlocked mutex").

Definition close_done (w : world) (a : nat) : result stuck world :=
  cl ← get_cell w a;
  if done_closed cl then Err (Panics "close of closed channel") else Ok (put_cell w a (set_done_closed true cl)).

Definition removeChild (w : world) (parent : ctx) (child : ckey) : result stuck world :=
  match parentCancelCtx parent with
  | None => Ok w
  | Some p =>
    w ← lock w p;
    cl ← get_cell w p;
    unlock (match children cl with
            | Some m => put_cell w p (set_children (Some (delete child m)) cl)
            | None => w
            end) p
  end.

(** ** Cancellation *)

Context `{MapRange}.

(** [range c.children], a nil map included. *)
Definition range_children (m : option (gmap ckey ctx)) : list ctx :=
  match m with Some m => (map_range m).*2 | None => [] end.

Section cancel_body.
Context (cancel : world → ctx → bool → option error → result stuck world).

Fixpoint cancel_children (l : list ctx) (w : world) (e : error) : result stuck world :=
  match l with
  | [] => Ok w
  | child :: l => w ← cancel w child false (Some e); cancel_children l w e
  end.

(** [cancelCtx.cancel] of the cancelCtx at [a]. *)
Definition cancelCtx_cancel (w : world) (parent : ctx) (a : nat) (removeFromParent : bool) (e : option error) :
    result stuck world :=
  match e with
  | None => Err (Panics "context: internal error: missing cancel error")
  | Some e =>
    w ← lock w a;
    cl ← get_cell w a;
    match err cl with
    | Some _ => unlock w a
    | None =>
      w ← close_done (put_cell w a (set_err (Some e) cl)) a;
      w ← cancel_children (range_children (children cl)) w e;
      cl ← get_cell w a;
      w ← unlock (put_cell w a (set_children None cl)) a;
      if removeFromParent then removeChild w parent (Plain, a) else Ok w
    end
  end.

(** [if c.timer != nil { c.timer.Stop(); c.timer = nil }], under the mutex. *)
Definition stop_timer (w : world) (a : nat) : result stuck world :=
  w ← lock w a;
  cl ← get_cell w a;
  unlock (if timer cl
          then put_cell (set_timers (delete a (timers w)) w) a (set_timer false cl)
          else w) a.

Definition timerCtx_cancel (w : world) (parent : ctx) (a : nat) (removeFromParent : bool) (e : option error) :
    result stuck world :=
  w ← cancelCtx_cancel w parent a false e;
  w ← (if removeFromParent then removeChild w parent (Timed, a) else Ok w);
  stop_timer w a.

End cancel_body.

(** The canceler's method, by its dynamic type. *)
Fixpoint cancel_loop (fuel : nat) (w : world) (c : ctx) (removeFromParent : bool) (e : option error) :
    result stuck world :=
  match fuel with
  | O => Err OutOfFuel
  | S fuel =>
    match c with
    | cancelCtx parent a => cancelCtx_cancel (cancel_loop fuel) w parent a removeFromParent e
    | timerCtx parent a _ => timerCtx_cancel (cancel_loop fuel) w parent a removeFromParent e
    | _ => Err NoSuchCell
    end
  end.

(** A child is younger than its parent, so a chain of children is no longer than the
    store. *)
Definition cancel (w : world) := cancel_loop (length (cells w)) w.

(** ** Construction *)

Definition newCancelCtx : cell := Cell false false None None false.

(** The address of the next cell, and the store with that cell. *)
Definition alloc (w : world) : nat * world := (length (cells w), set_cells (cells w ++ [newCancelCtx]) w).

Definition add_child (m : option (gmap ckey ctx)) (child : ctx) : option (gmap ckey ctx) :=
  match key_of child with
  | Some k => Some (<[k := child]> (default ∅ m))
  | None => m
  end.

Definition propagateCancel (w : world) (parent child : ctx) : result stuck world :=
  match Done parent with
  | None => Ok w
  | Some _ =>
    match parentCancelCtx parent with
    | Some p =>
      w ← lock w p;
      cl ← get_cell w p;
      w ← match err cl with
          | Some e => cancel w child false (Some e)
          | None => Ok (put_cell w p (set_children (add_child (children cl) child) cl))
          end;
      unlock w p
    | None => Ok (set_watchers (watchers w ++ [(parent, child)]) w)
    end
  end.

Definition WithCancel (w : world) (parent : ctx) : result stuck (ctx * world) :=
  let '(a, w) := alloc w in
  w ← propagateCancel w parent (cancelCtx parent a);
  Ok (cancelCtx parent a, w).

(** The CancelFunc a constructor returns with [c]. *)
Definition CancelFunc (w : world) (c : ctx) : result stuck world := cancel w c true (Some Canceled).

Definition sooner (cur : option Z) (deadline : Z) : bool :=
  match cur with Some cur => (cur <? deadline)%Z | None => false end.

(** WithDeadline up to the look at the clock: other goroutines may run before it goes on,
    with the parent but not with the new context. *)
Definition timerCtx_new (w : world) (parent : ctx) (deadline : Z) : result stuck (ctx * world) :=
  let '(a, w) := alloc w in
  w ← propagateCancel w parent (timerCtx parent a deadline);
  Ok (timerCtx parent a deadline, w).

(** The rest: [time.AfterFunc] starts a timer of [d] nanoseconds. *)
Definition timerCtx_arm (w : world) (c : ctx) : result stuck world :=
  match c with
  | timerCtx _ a deadline =>
    let d := Sub deadline (clock w) in
    if (d <=? 0)%Z then cancel w c true (Some DeadlineExceeded)
    else
      w ← lock w a;
      cl ← get_cell w a;
      unlock (match err cl with
              | None => put_cell (set_timers (<[a := (clock w + d)%Z]> (timers w)) w) a (set_timer true cl)
              | Some _ => w
              end) a
  | _ => Err NoSuchCell
  end.

Definition WithDeadline (w : world) (parent : ctx) (deadline : Z) : result stuck (ctx * world) :=
  if sooner (Deadline parent) deadline then WithCancel w parent
  else
    '(c, w) ← timerCtx_new w parent deadline;
    w ← timerCtx_arm w c;
    Ok (c, w).

Definition WithTimeout (w : world) (parent : ctx) (timeout : Z) : result stuck (ctx * world) :=
  WithDeadline w parent (clock w + timeout)%Z.

Definition WithValue (parent : ctx) (key : K) (val : V) : ctx := valueCtx parent key val.

(** ** The contexts allocated so far

    [ps] lists the pointers the constructors have returned, by address. *)

Implicit Types (c q parent : ctx) (w : world) (ps : list ctx) (a b k : nat) (e : error) (cl : cell).

Definition parent_of c : option ctx :=
  match c with cancelCtx parent _ | timerCtx parent _ _ => Some parent | _ => None end.

Definition is_timed c : bool := match c with timerCtx _ _ _ => true | _ => false end.

(** Built from known pointers. *)
Fixpoint valid_ctx ps c : Prop :=
  match c with
  | background | todo | foreignCtx _ => True
  | cancelCtx parent a | timerCtx parent a _ => ps !! a = Some c ∧ valid_ctx ps parent
  | valueCtx parent _ _ => valid_ctx ps parent
  end.

(** Every pointer has its own address and a parent that is older. *)
Definition wf_ps ps : Prop :=
  ∀ a c, ps !! a = Some c →
    (key_of c = Some (if is_timed c then Timed else Plain, a)) ∧ ∃ parent, parent_of c = Some parent ∧ valid_ctx (take a ps) parent.

(** The cells a cancellation of which ends the context: its own and those above, up to
    a context of another package. *)
Fixpoint line c : list nat :=
  match c with
  | cancelCtx parent a | timerCtx parent a _ => a :: line parent
  | valueCtx parent _ _ => line parent
  | _ => []
  end.

Definition ln ps a : list nat := match ps !! a with Some c => line c | None => [] end.

(** The cell that holds [a] among its children. *)
Definition up ps a : option nat := c ← ps !! a; parent ← parent_of c; parentCancelCtx parent.

Lemma valid_ctx_mono ps ps' c : (∀ a q, ps !! a = Some q → ps' !! a = Some q) → valid_ctx ps c → valid_ctx ps' c.
Proof. intros Hsub. induction c; simpl; naive_solver. Qed.

Lemma line_valid ps c : valid_ctx ps c → line c = match parentCancelCtx c with Some p => ln ps p | None => [] end.
Proof. unfold ln. induction c; simpl; try done; intros [-> _]; done. Qed.

Lemma parentCancelCtx_valid ps c p : valid_ctx ps c → parentCancelCtx c = Some p → is_Some (ps !! p).
Proof. induction c; simpl; naive_solver. Qed.

Section forest.
Context ps (Hps : wf_ps ps).

Local Abbreviation ln := (ln ps).
Local Abbreviation up := (up ps).

Lemma up_parent a c : ps !! a = Some c → up a = parent_of c ≫= parentCancelCtx.
Proof. unfold up. by intros ->. Qed.

Lemma up_lt a k : up k = Some a → a < k ∧ is_Some (ps !! a) ∧ is_Some (ps !! k).
Proof.
  unfold up. destruct (ps !! k) as [c|] eqn:Hk; [|done]. simpl.
  destruct (Hps _ _ Hk) as (_ & parent & -> & Hv). simpl. intros Hp.
  destruct (parentCancelCtx_valid _ _ _ Hv Hp) as [q Hq]. apply lookup_take_Some in Hq as [Hq ?]. eauto.
Qed.

Lemma ln_unfold a : is_Some (ps !! a) → ln a = a :: match up a with Some p => ln p | None => [] end.
Proof.
  intros [c Hc]. rewrite (up_parent _ _ Hc). unfold ln at 1. rewrite Hc.
  destruct (Hps _ _ Hc) as (Hk & parent & Hp & Hv). rewrite Hp. simpl.
  rewrite <- (line_valid ps). 2: { eapply valid_ctx_mono; [|exact Hv]. intros b q [? _]%lookup_take_Some. done. }
  destruct c; simplify_eq/=; done.
Qed.

Lemma ln_None a : ps !! a = None → ln a = [].
Proof. unfold ln. by intros ->. Qed.

Lemma elem_ln a b : a ∈ ln b ↔ is_Some (ps !! b) ∧ (a = b ∨ ∃ p, up b = Some p ∧ a ∈ ln p).
Proof.
  destruct (ps !! b) as [c|] eqn:Hb.
  - rewrite ln_unfold by eauto. rewrite elem_of_cons. destruct (up b) as [p|]; [naive_solver|].
    split; [intros [->|[]%not_elem_of_nil]; eauto|naive_solver].
  - rewrite ln_None by done. split; [by intros ?%not_elem_of_nil|by intros [[? ?] _]].
Qed.

Lemma ln_self a : is_Some (ps !! a) → a ∈ ln a.
Proof. rewrite elem_ln. auto. Qed.

Lemma ln_ind (P : nat → Prop) : (∀ b, (∀ p, up b = Some p → P p) → P b) → ∀ b, P b.
Proof.
  intros Hstep b. induction b as [b IH] using lt_wf_ind. apply Hstep. intros p Hp. apply IH. by apply up_lt in Hp as [? _].
Qed.

Lemma ln_le a b : a ∈ ln b → a ≤ b.
Proof.
  revert b. refine (ln_ind _ _). intros b IH. rewrite elem_ln. intros [_ [->|(p & Hp & Ha)]]; [done|].
  specialize (IH p Hp Ha). apply up_lt in Hp as [? _]. lia.
Qed.

Lemma ln_Some a b : a ∈ ln b → is_Some (ps !! a).
Proof.
  revert b. refine (ln_ind _ _). intros b IH. rewrite elem_ln. intros [? [->|(p & Hp & Ha)]]; [done|]. by apply (IH p).
Qed.

Lemma ln_trans a b k : a ∈ ln b → b ∈ ln k → a ∈ ln k.
Proof.
  intros Hab. revert k. refine (ln_ind _ _). intros k IH. rewrite (elem_ln b k). intros [Hk [->|(p & Hp & Hb)]]; [done|].
  rewrite elem_ln. eauto 8.
Qed.

Lemma ln_up a k : up k = Some a → a ∈ ln k.
Proof. intros Hk. pose proof (up_lt _ _ Hk) as (_ & ? & ?). rewrite elem_ln. eauto 8 using ln_self. Qed.

(** Below [a] and not [a] itself: below one of its children. *)
Lemma ln_kid a b : a ∈ ln b → b ≠ a → ∃ k, up k = Some a ∧ k ∈ ln b.
Proof.
  revert b. refine (ln_ind _ _). intros b IH. rewrite elem_ln. intros [Hb [->|(p & Hp & Ha)]] Hne; [done|].
  destruct (decide (p = a)) as [->|Hpa]; [exists b; auto using ln_self|].
  destruct (IH p Hp Ha Hpa) as (k & Hk & Hkp). exists k. split; [done|]. rewrite elem_ln. eauto.
Qed.

End forest.

(** ** What a cancellation does

    [cancelled]: every context below one of [tops] that has not ended does, and none of
    their timers is left. *)

Definition end_cell e cl : cell :=
  match err cl with Some _ => cl | None => Cell (mu cl) true None (Some e) false end.

Definition under ps (tops : list nat) b : Prop := Exists (λ a, a ∈ ln ps b) tops.

#[local] Instance under_dec ps tops b : Decision (under ps tops b).
Proof. unfold under. apply _. Defined.

Definition cancelled ps (tops : list nat) e w : world :=
  set_timers (filter (λ '(b, _), ¬ under ps tops b) (timers w))
    (set_cells (imap (λ b cl, if decide (under ps tops b) then end_cell e cl else cl) (cells w)) w).

Lemma lookup_cancelled ps tops e w b :
  cells (cancelled ps tops e w) !! b = (λ cl, if decide (under ps tops b) then end_cell e cl else cl) <$> cells w !! b.
Proof. apply list_lookup_imap. Qed.

Lemma timers_cancelled ps tops e w b t :
  timers (cancelled ps tops e w) !! b = Some t ↔ timers w !! b = Some t ∧ ¬ under ps tops b.
Proof. simpl. rewrite map_lookup_filter_Some. done. Qed.

Lemma length_cancelled ps tops e w : length (cells (cancelled ps tops e w)) = length (cells w).
Proof. apply length_imap. Qed.

Lemma end_cell_idem e cl : end_cell e (end_cell e cl) = end_cell e cl.
Proof. unfold end_cell. destruct (err cl) eqn:E; simpl; by rewrite ?E. Qed.

Lemma world_eq w w' :
  cells w = cells w' → foreigns w = foreigns w' → timers w = timers w' → fired w = fired w' →
  watchers w = watchers w' → clock w = clock w' → w = w'.
Proof. destruct w, w'; simpl. by intros -> -> -> -> -> ->. Qed.

Lemma cancelled_app ps tops tops' e w :
  cancelled ps tops' e (cancelled ps tops e w) = cancelled ps (tops ++ tops') e w.
Proof.
  apply world_eq; try done.
  - apply list_eq. intros b. rewrite !lookup_cancelled. destruct (cells w !! b) as [cl|]; [|done]. simpl. f_equal.
    unfold under. destruct (decide (Exists _ (tops ++ tops'))) as [He|He]; rewrite Exists_app in He;
      repeat case_decide; rewrite ?end_cell_idem; naive_solver.
  - apply map_eq. intros b. apply option_eq. intros t. rewrite !timers_cancelled. unfold under. rewrite Exists_app. naive_solver.
Qed.

Lemma under_singleton ps a b : under ps [a] b ↔ a ∈ ln ps b.
Proof. unfold under. rewrite Exists_cons, Exists_nil. naive_solver. Qed.

(** ** When a cell is in order *)

Definition in_children cl (x : ckey) q : Prop := default ∅ (children cl) !! x = Some q.

Record good ps w a : Prop := {
  good_cell : ∃ c cl, ps !! a = Some c ∧ cells w !! a = Some cl
    ∧ mu cl = false ∧ done_closed cl = bool_decide (is_Some (err cl))
    ∧ (timer cl = true → err cl = None ∧ is_timed c = true)
    ∧ (is_Some (timers w !! a) → timer cl = true)
    ∧ (is_Some (err cl) → children cl = None)
    ∧ (err cl = None → ∀ x q, in_children cl x q ↔
         key_of q = Some x ∧ ps !! x.2 = Some q ∧ up ps x.2 = Some a ∧ cell_err w x.2 = None);
  good_ended : cell_err w a ≠ None → ∀ k, up ps k = Some a → cell_err w k ≠ None;
}.

Lemma cell_err_cancelled ps tops e w b :
  is_Some (cells w !! b) →
  cell_err (cancelled ps tops e w) b =
    if decide (under ps tops b) then Some (default e (cell_err w b)) else cell_err w b.
Proof.
  unfold cell_err. rewrite lookup_cancelled. intros [cl ->]. simpl. case_decide; [|done].
  unfold end_cell. by destruct (err cl) eqn:E.
Qed.

Section cancelling.
Context ps (Hps : wf_ps ps).

Local Abbreviation ln := (ln ps).
Local Abbreviation up := (up ps).
Local Abbreviation good := (good ps).

Definition sized w : Prop := length (cells w) = length ps.

Lemma sized_lookup w a : sized w → is_Some (ps !! a) → is_Some (cells w !! a).
Proof. unfold sized. rewrite !lookup_lt_is_Some. by intros ->. Qed.

Lemma up_sized w a k : sized w → up k = Some a → is_Some (cells w !! k) ∧ is_Some (cells w !! a).
Proof. intros Hw Hk. apply up_lt in Hk as (_ & ? & ?); [|done]. eauto using sized_lookup. Qed.

Lemma ended_below w a b :
  (∀ b, a ∈ ln b → good w b) → cell_err w a ≠ None → a ∈ ln b → cell_err w b ≠ None.
Proof.
  intros Hg Ha. revert b. refine (ln_ind _ Hps _ _). intros b IH. rewrite (elem_ln _ Hps).
  intros [_ [->|(p & Hp & Hap)]]; [done|]. exact (good_ended _ _ _ (Hg p Hap) (IH p Hp Hap) b Hp).
Qed.

Lemma good_same w w' a :
  good w a → cells w' = cells w → timers w' !! a = timers w !! a → good w' a.
Proof. intros [Hc He] Hw Ht. split; unfold cell_err in *; rewrite ?Hw, ?Ht; done. Qed.

Lemma good_cancelled w top e b :
  sized w → (∀ b, top ∈ ln b → good w b) → good w b → up top ≠ Some b → good (cancelled ps [top] e w) b.
Proof.
  intros Hw Hd [(c & cl & Hc & Hcl & Hmu & Hdone & Htm & Htms & Hno & Hch) He] Hup.
  assert (∀ k, up k = Some b → (top ∈ ln k ↔ top ∈ ln b)) as Hkid.
  { intros k Hk. rewrite (elem_ln _ Hps top k). apply (up_lt _ Hps) in Hk as Hk'. destruct Hk' as (_ & _ & Hs).
    split; [intros [_ [->|(p & Hp & ?)]]; congruence|eauto 6]. }
  assert (∀ k, up k = Some b → is_Some (cells w !! k)) as Hsz by (intros k Hk; by apply (up_sized w) in Hk as [? _]).
  split.
  - exists c, (if decide (under ps [top] b) then end_cell e cl else cl). rewrite lookup_cancelled, Hcl.
    split_and!; [done|done|..].
    all: case_decide as Hu; rewrite under_singleton in Hu.
    all: try (unfold end_cell; destruct (err cl) eqn:Hcle; simpl in *; by rewrite ?Hcle).
    + intros [t Ht]. apply timers_cancelled in Ht as [_ []]. by rewrite under_singleton.
    + intros [t Ht]. apply timers_cancelled in Ht as [Ht _]. eauto.
    + intros Hn x q. rewrite Hch by done. split; intros (? & ? & Hk & Hx); split_and!; try done;
        rewrite cell_err_cancelled in * by auto; case_decide as Hu'; try done; rewrite under_singleton in Hu';
        by apply (Hkid _ Hk) in Hu'.
  - intros Hb k Hk. rewrite cell_err_cancelled in Hb by eauto. rewrite cell_err_cancelled by eauto.
    destruct (decide (under ps [top] k)) as [Hu|Hu]; [done|]. rewrite under_singleton, (Hkid k Hk) in Hu. rewrite decide_False in Hb by by rewrite under_singleton. by apply (He Hb).
Qed.

(** ** The store, cell by cell *)

Lemma lookup_put w a cl : is_Some (cells w !! a) → cells (put_cell w a cl) !! a = Some cl.
Proof. intros Ha. simpl. by rewrite list_lookup_insert_eq by by apply lookup_lt_is_Some. Qed.

Lemma get_put w a cl : is_Some (cells w !! a) → get_cell (put_cell w a cl) a = Ok cl.
Proof. intros Ha. unfold get_cell. by rewrite lookup_put. Qed.

Lemma put_put w a cl cl' : put_cell (put_cell w a cl) a cl' = put_cell w a cl'.
Proof. unfold put_cell, set_cells. simpl. by rewrite list_insert_insert_eq. Qed.

Lemma put_same w a cl : cells w !! a = Some cl → put_cell w a cl = w.
Proof. intros Ha. unfold put_cell. rewrite list_insert_id by done. by destruct w. Qed.

Lemma get_Ok w a cl : cells w !! a = Some cl → get_cell w a = Ok cl.
Proof. unfold get_cell. by intros ->. Qed.

Lemma lock_ok w a cl : cells w !! a = Some cl → mu cl = false → lock w a = Ok (put_cell w a (set_mu true cl)).
Proof. unfold lock. intros Ha Hmu. rewrite (get_Ok _ _ _ Ha). simpl. by rewrite Hmu. Qed.

Lemma unlock_put w a cl :
  is_Some (cells w !! a) → mu cl = true → unlock (put_cell w a cl) a = Ok (put_cell w a (set_mu false cl)).
Proof. unfold unlock. intros Ha Hmu. rewrite get_put by done. simpl. by rewrite Hmu, put_put. Qed.

Lemma set_mu_same cl : mu cl = false → set_mu false (set_mu true cl) = cl.
Proof. destruct cl; simpl. by intros ->. Qed.

Lemma lookup_put_ne w a b cl : b ≠ a → cells (put_cell w a cl) !! b = cells w !! b.
Proof. intros. simpl. by rewrite list_lookup_insert_ne. Qed.

Lemma cell_err_put_ne w a b cl : b ≠ a → cell_err (put_cell w a cl) b = cell_err w b.
Proof. intros. unfold cell_err. by rewrite lookup_put_ne. Qed.

Lemma sized_put w a cl : sized w → sized (put_cell w a cl).
Proof. unfold sized. simpl. by rewrite length_insert. Qed.

Lemma good_put w a cl b : b ≠ a → up a ≠ Some b → good w b → good (put_cell w a cl) b.
Proof.
  intros Hb Hup [(c & cl' & Hc & Hcl & Hmu & Hdone & Htm & Htms & Hno & Hch) He].
  assert (∀ k, up k = Some b → k ≠ a) as Hk by (intros k Hk ->; done). split.
  - exists c, cl'. rewrite lookup_put_ne by done. split_and!; try done. intros Hn x q. rewrite Hch by done.
    split; intros (? & ? & Hu & ?); split_and!; try done; rewrite cell_err_put_ne in * by auto; done.
  - rewrite cell_err_put_ne by done. intros Hn k Hu. rewrite cell_err_put_ne by auto. auto.
Qed.

(** ** The recursion *)

Definition addr_of q : nat := match key_of q with Some x => x.2 | None => 0 end.

Lemma cancelled_nil e w : cancelled ps [] e w = w.
Proof.
  apply world_eq; try done.
  - apply list_eq. intros b. rewrite lookup_cancelled. by destruct (cells w !! b).
  - apply map_eq. intros b. apply option_eq. intros t. rewrite timers_cancelled. unfold under. rewrite Exists_nil. naive_solver.
Qed.

Lemma sized_cancelled tops e w : sized w → sized (cancelled ps tops e w).
Proof. unfold sized. by rewrite length_cancelled. Qed.

Definition below_kid a b : Prop := ∃ k, up k = Some a ∧ k ∈ ln b.

Lemma cancel_children_ok rec a l e w :
  (∀ w k q, sized w → ps !! k = Some q → up k = Some a → (∀ b, k ∈ ln b → good w b) →
    rec w q false (Some e) = Ok (cancelled ps [k] e w)) →
  sized w → (∀ b, below_kid a b → good w b) →
  Forall (λ q, ps !! addr_of q = Some q ∧ up (addr_of q) = Some a) l →
  cancel_children rec l w e = Ok (cancelled ps (addr_of <$> l) e w).
Proof.
  intros Hrec Hw Hg Hl. revert w Hw Hg. induction Hl as [|q l [Hq Hu] _ IH]; intros w Hw Hg; simpl.
  { by rewrite cancelled_nil. }
  rewrite (Hrec w _ q Hw Hq Hu) by (intros b Hb; apply Hg; by exists (addr_of q)). simpl.
  rewrite IH, cancelled_app; [done|by apply sized_cancelled|].
  intros b Hb. apply good_cancelled; [done| |by apply Hg|].
  - intros b' Hb'. apply Hg. by exists (addr_of q).
  - rewrite Hu. intros [= ->]. destruct Hb as (k & Hk & Hkb). apply (ln_le _ Hps) in Hkb. apply (up_lt _ Hps) in Hk. lia.
Qed.

Lemma addr_of_ps a q : ps !! a = Some q → addr_of q = a ∧ key_of q = Some (if is_timed q then Timed else Plain, a).
Proof. intros Hq. destruct (Hps _ _ Hq) as [Hk _]. unfold addr_of. by rewrite Hk. Qed.

Context `{!MapRangeLaws}.

Lemma elem_range_children cl q : q ∈ range_children (children cl) ↔ ∃ x, in_children cl x q.
Proof.
  unfold in_children, range_children. destruct (children cl) as [m|]; simpl.
  - rewrite map_range_perm, list_elem_of_fmap. split.
    + intros ([x q'] & -> & Hx%elem_of_map_to_list). eauto.
    + intros [x Hx%elem_of_map_to_list]. by exists (x, q).
  - split; [by intros ?%not_elem_of_nil|]. intros [x Hx]. by rewrite lookup_empty in Hx.
Qed.

(** What the map of a live cell in order ranges over. *)
Lemma range_children_good w a cl q :
  good w a → cells w !! a = Some cl → err cl = None →
  (q ∈ range_children (children cl) ↔ ps !! addr_of q = Some q ∧ up (addr_of q) = Some a ∧ cell_err w (addr_of q) = None).
Proof.
  intros [(c & cl' & _ & Hcl' & _ & _ & _ & _ & _ & Hch) _] Hcl Hn. simplify_eq. rewrite elem_range_children. split.
  - intros [x (Hk & Hx & Hup & Hlive)%Hch]; [|done]. unfold addr_of. by rewrite Hk.
  - intros (Hq & Hup & Hlive). destruct (addr_of_ps _ _ Hq) as [_ Hk]. eexists. apply Hch; [done|]. simpl. eauto.
Qed.

Lemma children_under w a cl b :
  good w a → cells w !! a = Some cl → err cl = None →
  under ps (addr_of <$> range_children (children cl)) b → a ∈ ln b.
Proof.
  intros Hga Hcl Hn. unfold under. rewrite Exists_fmap, Exists_exists. intros (q & Hin & Hq).
  apply (range_children_good w a cl) in Hin as (_ & Hup & _); [|done..].
  by eapply (ln_trans _ Hps), Hq; apply (ln_up _ Hps).
Qed.

(** The live contexts below [a] but not at [a] are those below the children in its map. *)
Lemma under_children w a cl b :
  is_Some (ps !! a) → (∀ b, a ∈ ln b → good w b) → cells w !! a = Some cl → err cl = None →
  cell_err w b = None → b ≠ a →
  under ps (addr_of <$> range_children (children cl)) b ↔ a ∈ ln b.
Proof.
  intros Ha Hg Hcl Hn Hb Hne. assert (good w a) as Hga by by apply Hg, ln_self.
  split; [by eapply children_under|]. unfold under. rewrite Exists_fmap, Exists_exists.
  setoid_rewrite (range_children_good w a cl); [|done..].
  intros Hab. destruct (ln_kid _ Hps a b Hab Hne) as (k & Hk & Hkb).
  pose proof (up_lt _ Hps _ _ Hk) as (_ & _ & [q Hq]). destruct (addr_of_ps _ _ Hq) as [Hkq _].
  exists q. split; [|by simpl; rewrite Hkq]. rewrite Hkq. split_and!; try done.
  destruct (cell_err w k) eqn:Hke; [|done]. exfalso. apply (ended_below w k b); [|by rewrite Hke|done..].
  intros b' Hb'. apply Hg. by eapply (ln_trans _ Hps), Hb'; apply (ln_up _ Hps).
Qed.

Lemma under_children_self w a cl :
  good w a → cells w !! a = Some cl → err cl = None → ¬ under ps (addr_of <$> range_children (children cl)) a.
Proof.
  intros Hg Hcl Hn. unfold under. rewrite Exists_fmap, Exists_exists. intros (q & Hq & Hqa).
  apply (range_children_good w a cl) in Hq as (_ & Hup & _); [|done..].
  apply (ln_le _ Hps) in Hqa. apply (up_lt _ Hps) in Hup. lia.
Qed.

Lemma cancelled_ended w a e :
  (∀ b, a ∈ ln b → good w b) → cell_err w a ≠ None → cancelled ps [a] e w = w.
Proof.
  intros Hg Ha. assert (∀ b, a ∈ ln b → cell_err w b ≠ None) as Hb by (intros b; by apply ended_below).
  apply world_eq; try done.
  - apply list_eq. intros b. rewrite lookup_cancelled. destruct (cells w !! b) as [cl|] eqn:Hcl; [|done]. simpl. f_equal.
    case_decide as Hu; [|done]. rewrite under_singleton in Hu. specialize (Hb b Hu). unfold cell_err in Hb. rewrite Hcl in Hb.
    unfold end_cell. simpl in Hb. by destruct (err cl).
  - apply map_eq. intros b. apply option_eq. intros t. rewrite timers_cancelled, under_singleton. split; [by intros [? _]|].
    intros Ht. split; [done|]. intros Hab. specialize (Hb b Hab).
    destruct (Hg b Hab) as [(c & cl & Hc & Hcl & _ & _ & Htm & Htms & _) _]. unfold cell_err in Hb. rewrite Hcl in Hb.
    by apply Hb, Htm, Htms.
Qed.

(** [cancelCtx.cancel] on a timerCtx leaves its timer to [timerCtx.cancel]. *)
Definition halfway a e w : world :=
  match cells w !! a with
  | Some cl =>
    match err cl with
    | Some _ => w
    | None =>
      let w' := cancelled ps [a] e w in
      set_timers (partial_alter (λ _, timers w !! a) a (timers w')) (put_cell w' a (Cell false true None (Some e) (timer cl)))
    end
  | None => w
  end.

Lemma halfway_eq w a cl x e :
  is_Some (ps !! a) → (∀ b, a ∈ ln b → good w b) → cells w !! a = Some cl → err cl = None →
  put_cell (cancelled ps (addr_of <$> range_children (children cl)) e (put_cell w a x)) a
    (Cell false true None (Some e) (timer cl)) = halfway a e w.
Proof.
  intros Ha Hg Hcl Hn. assert (good w a) as Hga by by apply Hg, ln_self.
  unfold halfway. rewrite Hcl, Hn. apply world_eq; try done.
  - apply list_eq. intros b. destruct (decide (b = a)) as [->|Hb].
    { simpl. rewrite !list_lookup_insert_eq; [done|..]; rewrite length_imap, ?length_insert; apply lookup_lt_is_Some; eauto. }
    cbn [cells set_timers set_cells]. rewrite !lookup_put_ne, !lookup_cancelled, lookup_put_ne by done.
    destruct (cells w !! b) as [cl'|] eqn:Hcl'; [|done]. simpl. f_equal. unfold end_cell.
    destruct (err cl') eqn:Hn'; [by repeat case_decide|].
    pose proof (under_children w a cl b Ha Hg Hcl Hn) as Hu. unfold cell_err in Hu. rewrite Hcl' in Hu. specialize (Hu Hn' Hb).
    rewrite <- under_singleton in Hu. repeat case_decide; naive_solver.
  - apply map_eq. intros b. simpl. destruct (decide (b = a)) as [->|Hb].
    + rewrite lookup_partial_alter_eq. destruct (timers w !! a) as [t|] eqn:Ht.
      * apply map_lookup_filter_Some. split; [done|]. by eapply under_children_self.
      * apply map_lookup_filter_None. by left.
    + rewrite lookup_partial_alter_ne by done. apply option_eq. intros t.
      rewrite !map_lookup_filter_Some, under_singleton. split; intros [Ht Hu]; (split; [done|]); contradict Hu.
      * destruct (Hg b Hu) as [(c' & cl' & _ & Hcl' & _ & _ & Htm & Htms & _) _].
        eapply under_children; try done. unfold cell_err. rewrite Hcl'. by apply Htm, Htms.
      * by eapply children_under.
Qed.

Lemma cancelCtx_cancel_ok rec w parent a c e :
  (∀ w k q, sized w → ps !! k = Some q → up k = Some a → (∀ b, k ∈ ln b → good w b) →
    rec w q false (Some e) = Ok (cancelled ps [k] e w)) →
  sized w → ps !! a = Some c → (∀ b, a ∈ ln b → good w b) →
  cancelCtx_cancel rec w parent a false (Some e) = Ok (halfway a e w).
Proof.
  intros Hrec Hw Hc Hg. assert (is_Some (ps !! a)) as Ha by eauto. assert (good w a) as Hga by by apply Hg, ln_self.
  destruct (good_cell _ _ _ Hga) as (c' & cl & _ & Hcl & Hmu & Hdone & Htm & Htms & Hno & Hch).
  assert (is_Some (cells w !! a)) as Hs by eauto.
  unfold cancelCtx_cancel, halfway. rewrite (lock_ok w a cl), Hcl by done. simpl. rewrite get_put by done. simpl.
  destruct (err cl) as [e'|] eqn:Hn.
  { rewrite unlock_put, set_mu_same, put_same by done. done. }
  unfold close_done. rewrite put_put, get_put by done. simpl. rewrite Hdone. simpl. rewrite put_put.
  rewrite (cancel_children_ok _ a); [|done|by apply sized_put| |].
  2: { intros b (k & Hk & Hb). pose proof (ln_le _ Hps _ _ Hb). pose proof (up_lt _ Hps _ _ Hk) as [? _].
    apply good_put; [lia| |by apply Hg; eapply (ln_trans _ Hps), Hb; apply ln_up].
    intros Hup. apply (up_lt _ Hps) in Hup. lia. }
  2: { apply Forall_forall. intros q. rewrite (range_children_good w a cl) by done. naive_solver. }
  simpl.
  assert (cells (cancelled ps (addr_of <$> range_children (children cl)) e
       (put_cell w a (set_done_closed true (set_err (Some e) (set_mu true cl))))) !! a
     = Some (set_done_closed true (set_err (Some e) (set_mu true cl)))) as Hat.
  { rewrite lookup_cancelled. cbn [put_cell set_cells cells]. rewrite list_lookup_insert_eq by by apply lookup_lt_is_Some.
    simpl. by rewrite decide_False by by eapply under_children_self. }
  rewrite (get_Ok _ _ _ Hat). simpl. rewrite unlock_put by eauto. simpl. unfold set_mu, set_children; simpl.
  rewrite halfway_eq by done. unfold halfway. by rewrite Hcl, Hn.
Qed.

Lemma good_live_timer w a c cl :
  good w a → ps !! a = Some c → cells w !! a = Some cl → is_timed c = false → timer cl = false ∧ timers w !! a = None.
Proof.
  intros [(c' & cl' & Hc & Hcl & _ & _ & Htm & Htms & _) _] Hc' Hcl' Ht.
  assert (timer cl = true → False) as Hf by (intros ?; destruct Htm; congruence).
  rewrite Hcl in Hcl'. injection Hcl' as ->. split.
  - by destruct (timer cl).
  - destruct (timers w !! a); [|done]. destruct Hf. by apply Htms.
Qed.

Lemma length_halfway a e w : length (cells (halfway a e w)) = length (cells w).
Proof.
  unfold halfway. destruct (cells w !! a) as [cl|]; [|done]. destruct (err cl); [done|].
  simpl. by rewrite length_insert, length_imap.
Qed.

(** A cell that has ended but for its timer. *)
Definition with_timer w a (t : bool) (o : option Z) cl : world :=
  set_timers (partial_alter (λ _, o) a (timers w)) (put_cell w a (set_timer t cl)).

Lemma with_timer_same w a cl : cells w !! a = Some cl → timer cl = false → timers w !! a = None → with_timer w a false None cl = w.
Proof.
  intros Hcl Ht Hno. unfold with_timer. assert (set_timer false cl = cl) as -> by (destruct cl; simpl in Ht; by rewrite Ht).
  rewrite put_same by done. rewrite <- Hno, partial_alter_self. by destruct w.
Qed.

Lemma stop_with_timer w a cl t o :
  cells w !! a = Some cl → mu cl = false → timer cl = false → timers w !! a = None → (o ≠ None → t = true) →
  stop_timer (with_timer w a t o cl) a = Ok w.
Proof.
  intros Hcl Hmu Ht Hno Ho. assert (is_Some (cells w !! a)) as Hs by eauto.
  assert (cells (with_timer w a t o cl) !! a = Some (set_timer t cl)) as Hat by by apply lookup_put.
  unfold stop_timer. rewrite (lock_ok _ a _ Hat) by done. simpl. rewrite get_put by eauto. simpl.
  destruct t.
  - rewrite unlock_put; [|simpl; rewrite list_insert_insert_eq; eexists; by apply lookup_put|done].
    f_equal. apply world_eq; try done; simpl.
    + rewrite !list_insert_insert_eq. apply list_insert_id. rewrite Hcl. f_equal. destruct cl; simpl in Hmu, Ht; by subst.
    + by apply delete_partial_alter_id.
  - rewrite unlock_put by (try done; eauto). simpl. destruct o as [t|]; [by specialize (Ho ltac:(done))|].
    rewrite set_mu_same, put_same by done. by rewrite with_timer_same.
Qed.

(** The cell of [a] after [cancelCtx.cancel], and what stopping its timer comes to. *)
Lemma stop_timer_ok w a c e :
  sized w → ps !! a = Some c → (∀ b, a ∈ ln b → good w b) →
  stop_timer (halfway a e w) a = Ok (cancelled ps [a] e w) ∧ (is_timed c = false → halfway a e w = cancelled ps [a] e w).
Proof.
  intros Hw Hc Hg. assert (is_Some (ps !! a)) as Ha by eauto. assert (good w a) as Hga by by apply Hg, ln_self.
  destruct (good_cell _ _ _ Hga) as (c' & cl & Hc' & Hcl & Hmu & Hdone & Htm & Htms & Hno & Hch).
  assert (c' = c) as -> by congruence.
  assert (is_Some (cells w !! a)) as Hs by eauto.
  destruct (err cl) as [e'|] eqn:Hn.
  - rewrite cancelled_ended by (try done; unfold cell_err; rewrite Hcl; simpl; by rewrite Hn).
    unfold halfway. rewrite Hcl, Hn. split; [|done]. unfold stop_timer.
    rewrite (lock_ok w a cl) by done. simpl. rewrite get_put by done. simpl.
    destruct (timer cl) eqn:Ht; [by destruct Htm|]. rewrite unlock_put, set_mu_same, put_same by done. done.
  - assert (cells (cancelled ps [a] e w) !! a = Some (Cell false true None (Some e) false)) as Hat.
    { rewrite lookup_cancelled, Hcl. simpl. rewrite decide_True by (by apply under_singleton, ln_self).
      unfold end_cell. by rewrite Hn, Hmu. }
    assert (timers (cancelled ps [a] e w) !! a = None) as Hno'.
    { apply map_lookup_filter_None. right. intros t _ Hu. apply Hu, under_singleton, ln_self; done. }
    assert (halfway a e w = with_timer (cancelled ps [a] e w) a (timer cl) (timers w !! a) (Cell false true None (Some e) false)) as ->.
    { unfold halfway. by rewrite Hcl, Hn. }
    split.
    + apply stop_with_timer; try done. intros [t Ht]%not_eq_None_Some. by apply Htms.
    + intros Ht. destruct (good_live_timer w a c cl) as [-> ->]; try done. by apply with_timer_same.
Qed.

(** A canceler called by its parent ends what is live below it, and the chain of
    children is shorter than the fuel. *)
Lemma cancel_loop_ok fuel w a c e :
  sized w → ps !! a = Some c → (∀ b, a ∈ ln b → good w b) → length ps - a ≤ fuel →
  cancel_loop fuel w c false (Some e) = Ok (cancelled ps [a] e w).
Proof.
  revert w a c. induction fuel as [|fuel IH]; intros w a c Hw Hc Hg Hf.
  { apply lookup_lt_Some in Hc. lia. }
  destruct (Hps _ _ Hc) as [Hk (parent & Hpar & _)]. destruct (stop_timer_ok w a c e Hw Hc Hg) as [Hstop Hplain].
  assert (cancelCtx_cancel (cancel_loop fuel) w parent a false (Some e) = Ok (halfway a e w)) as Hcc.
  { apply cancelCtx_cancel_ok with c; try done. intros w' k q Hw' Hq Hup Hg'. apply IH; try done.
    apply (up_lt _ Hps) in Hup. lia. }
  destruct c as [| | |parent' a'|parent' a' d|]; try discriminate Hk; injection Hk as ->; injection Hpar as ->;
    cbn [cancel_loop]; unfold timerCtx_cancel; rewrite Hcc; [|done].
  f_equal. by apply Hplain.
Qed.

(** ** Removal from the parent *)

Definition unlink w parent (x : ckey) : world :=
  match parentCancelCtx parent with
  | Some p =>
    match cells w !! p with
    | Some cl => match children cl with Some m => put_cell w p (set_children (Some (delete x m)) cl) | None => w end
    | None => w
    end
  | None => w
  end.

Lemma removeChild_ok w parent x :
  (∀ p, parentCancelCtx parent = Some p → ∃ cl, cells w !! p = Some cl ∧ mu cl = false) →
  removeChild w parent x = Ok (unlink w parent x).
Proof.
  unfold removeChild, unlink. destruct (parentCancelCtx parent) as [p|]; [|done]. intros Hp.
  destruct (Hp p eq_refl) as (cl & Hcl & Hmu). assert (is_Some (cells w !! p)) as Hs by eauto.
  rewrite (lock_ok w p cl), Hcl by done. simpl. rewrite get_put by done. simpl.
  destruct (children cl) as [m|]; [rewrite put_put|]; rewrite unlock_put by done.
  - f_equal. f_equal. destruct cl; simpl in Hmu |- *. unfold set_mu, set_children; simpl. by rewrite Hmu.
  - by rewrite set_mu_same, put_same.
Qed.

(** A pointer that has ended is not in the map of its parent. *)
Lemma unlink_ended w a c parent x :
  ps !! a = Some c → parent_of c = Some parent → key_of c = Some x → cell_err w a ≠ None →
  (∀ p, up a = Some p → good w p) → unlink w parent x = w.
Proof.
  intros Hc Hpar Hx Ha Hg. unfold unlink. rewrite (up_parent _ _ _ Hc), Hpar in Hg. simpl in Hg.
  destruct (parentCancelCtx parent) as [p|]; [|done]. specialize (Hg p eq_refl).
  destruct (good_cell _ _ _ Hg) as (_ & cl & _ & Hcl & _ & _ & _ & _ & Hno & Hch). rewrite Hcl.
  destruct (children cl) as [m|] eqn:Hm; [|done]. destruct (err cl) eqn:Hn; [by specialize (Hno ltac:(eauto))|].
  rewrite delete_id. { rewrite <- Hm. apply put_same. rewrite Hcl. by destruct cl. }
  destruct (m !! x) as [q|] eqn:Hq; [|done]. exfalso. destruct (addr_of_ps _ _ Hc) as [Hac Hkc].
  destruct (proj1 (Hch eq_refl x q)) as (_ & _ & _ & Hl); [by unfold in_children; rewrite Hm|].
  rewrite Hkc in Hx. injection Hx as <-. done.
Qed.

Definition stopped w a cl : world :=
  if timer cl then put_cell (set_timers (delete a (timers w)) w) a (set_timer false cl) else w.

Lemma stop_timer_eq w a cl : cells w !! a = Some cl → mu cl = false → stop_timer w a = Ok (stopped w a cl).
Proof.
  intros Hcl Hmu. assert (is_Some (cells w !! a)) as Hs by eauto. unfold stop_timer, stopped.
  rewrite (lock_ok w a cl) by done. simpl. rewrite get_put by done. simpl. destruct (timer cl).
  - rewrite unlock_put; [|eexists; by apply (lookup_put w)|done].
    f_equal. apply world_eq; try done; simpl. rewrite !list_insert_insert_eq. f_equal.
    destruct cl; simpl in Hmu. by subst.
  - by rewrite unlock_put, set_mu_same, put_same.
Qed.

(** The parent's cell and the one of the context are different. *)
Lemma stop_unlink w w' a c parent x cl :
  ps !! a = Some c → parent_of c = Some parent → cells w !! a = Some cl → mu cl = false →
  stop_timer w a = Ok w' → stop_timer (unlink w parent x) a = Ok (unlink w' parent x).
Proof.
  intros Hc Hpar Hcl Hmu. rewrite (stop_timer_eq w a cl) by done. intros [= <-].
  assert (∀ p, parentCancelCtx parent = Some p → p ≠ a) as Hne.
  { intros p Hp ->. assert (up a = Some a) as Hup by by rewrite (up_parent _ _ _ Hc), Hpar.
    apply (up_lt _ Hps) in Hup. lia. }
  unfold unlink. destruct (parentCancelCtx parent) as [p|]; [|by apply stop_timer_eq]. specialize (Hne p eq_refl).
  assert (cells (stopped w a cl) !! p = cells w !! p) as ->.
  { unfold stopped. destruct (timer cl); [|done]. simpl. by rewrite list_lookup_insert_ne. }
  destruct (cells w !! p) as [clp|]; [|by apply stop_timer_eq]. destruct (children clp) as [m|]; [|by apply stop_timer_eq].
  rewrite (stop_timer_eq _ a cl) by (try done; by rewrite lookup_put_ne). f_equal. unfold stopped.
  destruct (timer cl); [|done]. apply world_eq; try done. simpl. by rewrite list_insert_insert_ne.
Qed.

Lemma cancelCtx_cancel_remove rec w w' parent a cl e :
  cells w !! a = Some cl → mu cl = false →
  cancelCtx_cancel rec w parent a false (Some e) = Ok w' →
  cancelCtx_cancel rec w parent a true (Some e) =
    match err cl with Some _ => Ok w' | None => removeChild w' parent (Plain, a) end.
Proof.
  intros Hcl Hmu. assert (is_Some (cells w !! a)) as Hs by eauto. unfold cancelCtx_cancel.
  rewrite (lock_ok w a cl) by done. simpl. rewrite get_put by done. simpl. destruct (err cl); [done|].
  destruct (close_done _ _) as [w1|]; [|done]. simpl. destruct (cancel_children _ _ _ _) as [w2|]; [|done]. simpl.
  destruct (get_cell _ _) as [cl'|]; [|done]. simpl. destruct (unlock _ _) as [w3|]; [|done]. simpl. by intros [= ->].
Qed.

Lemma not_under_parent a p : up a = Some p → a ∉ ln p.
Proof. intros Hp Hin. apply (ln_le _ Hps) in Hin. apply (up_lt _ Hps) in Hp. lia. Qed.

Lemma lookup_halfway w a b e : a ∉ ln b → a ≠ b → cells (halfway a e w) !! b = cells w !! b.
Proof.
  intros Hb Hne. unfold halfway. destruct (cells w !! a) as [cl|]; [|done]. destruct (err cl); [done|].
  cbn [set_timers cells]. rewrite lookup_put_ne, lookup_cancelled by done. destruct (cells w !! b); [|done]. simpl.
  by rewrite decide_False by by rewrite under_singleton.
Qed.

Lemma lookup_halfway_self w a c e :
  ps !! a = Some c → good w a → ∃ cl, cells (halfway a e w) !! a = Some cl ∧ mu cl = false.
Proof.
  intros Hc [(_ & cl & _ & Hcl & Hmu & _) _]. unfold halfway. rewrite Hcl. destruct (err cl); [eauto|].
  eexists. cbn [set_timers cells]. rewrite lookup_put; [done|]. rewrite lookup_cancelled, Hcl. eauto.
Qed.

(** A cancellation from outside. *)
Lemma cancel_ok w a c parent x e :
  sized w → (∀ b, is_Some (ps !! b) → good w b) → ps !! a = Some c → parent_of c = Some parent → key_of c = Some x →
  cancel w c true (Some e) = Ok (unlink (cancelled ps [a] e w) parent x).
Proof.
  intros Hw Hg Hc Hpar Hx. destruct (addr_of_ps _ _ Hc) as [_ Hk].
  assert (∀ b, a ∈ ln b → good w b) as Hga by (intros b Hb; apply Hg; apply (elem_ln _ Hps) in Hb; by destruct Hb).
  assert (∀ p, up a = Some p → good w p) as Hgp by (intros p Hp; apply Hg; by apply (up_lt _ Hps) in Hp as (_ & ? & _)).
  destruct (stop_timer_ok w a c e Hw Hc Hga) as [Hstop Hplain].
  assert (good w a) as Hgs by eauto. destruct (good_cell _ _ _ Hgs) as (_ & cl & _ & Hcl & Hmu & _).
  assert (∀ x, removeChild (halfway a e w) parent x = Ok (unlink (halfway a e w) parent x)) as Hrm.
  { intros y. apply removeChild_ok. intros p Hp. assert (up a = Some p) as Hup by by rewrite (up_parent _ _ _ Hc), Hpar.
    destruct (good_cell _ _ _ (Hgp p Hup)) as (_ & clp & _ & Hclp & Hmup & _). exists clp. split; [|done].
    rewrite lookup_halfway; [done|by apply not_under_parent|]. intros ->. apply (up_lt _ Hps) in Hup. lia. }
  unfold cancel. unfold sized in Hw. rewrite Hw. apply lookup_lt_Some in Hc as Hlt. destruct (length ps) as [|fuel] eqn:Hlen; [lia|].
  assert (cancelCtx_cancel (cancel_loop fuel) w parent a false (Some e) = Ok (halfway a e w)) as Hcc.
  { apply cancelCtx_cancel_ok with c; try done; [|unfold sized; congruence]. intros w' k q Hw' Hq Hup Hg'.
    apply cancel_loop_ok; try done. apply (up_lt _ Hps) in Hup. lia. }
  destruct c as [| | |parent' a'|parent' a' d|]; try discriminate Hk; injection Hk as ->; injection Hpar as ->;
    injection Hx as <-; cbn [cancel_loop].
  - rewrite (cancelCtx_cancel_remove _ _ _ _ _ _ _ Hcl Hmu Hcc). rewrite <- Hplain by done. destruct (err cl) eqn:Hn; [|apply Hrm].
    f_equal. unfold halfway. rewrite Hcl, Hn. symmetry. eapply unlink_ended; try done.
    unfold cell_err. rewrite Hcl. simpl. by rewrite Hn.
  - unfold timerCtx_cancel. rewrite Hcc. simpl. rewrite Hrm. simpl.
    destruct (lookup_halfway_self w a _ e Hc Hgs) as (cl' & Hcl' & Hmu'). by eapply stop_unlink.
Qed.

Lemma cell_err_unlink w parent x b : cell_err (unlink w parent x) b = cell_err w b.
Proof.
  unfold unlink. destruct (parentCancelCtx parent) as [p|]; [|done]. destruct (cells w !! p) as [cl|] eqn:Hcl; [|done].
  destruct (children cl); [|done]. unfold cell_err. destruct (decide (b = p)) as [->|Hb].
  - rewrite lookup_put by eauto. by rewrite Hcl.
  - by rewrite lookup_put_ne.
Qed.

Lemma unlink_rest w parent x :
  foreigns (unlink w parent x) = foreigns w ∧ timers (unlink w parent x) = timers w ∧ fired (unlink w parent x) = fired w
  ∧ watchers (unlink w parent x) = watchers w ∧ clock (unlink w parent x) = clock w
  ∧ length (cells (unlink w parent x)) = length (cells w).
Proof.
  unfold unlink. destruct (parentCancelCtx parent) as [p|]; [|done]. destruct (cells w !! p); [|done].
  destruct (children _); [|done]. simpl. by rewrite length_insert.
Qed.

Lemma unlink_cell w parent x p cl :
  parentCancelCtx parent = Some p → cells w !! p = Some cl →
  ∃ m, cells (unlink w parent x) !! p = Some (set_children m cl) ∧ default ∅ m = delete x (default ∅ (children cl))
    ∧ (children cl = None → m = None).
Proof.
  intros Hp Hcl. unfold unlink. rewrite Hp, Hcl. destruct (children cl) as [m|] eqn:Hm.
  - eexists. rewrite lookup_put by eauto. done.
  - exists None. split_and!; [|by simpl; rewrite delete_empty|done]. rewrite Hcl. f_equal. destruct cl; simpl in Hm. by subst.
Qed.

Lemma lookup_unlink_ne w parent x b : parentCancelCtx parent ≠ Some b → cells (unlink w parent x) !! b = cells w !! b.
Proof.
  intros Hp. unfold unlink. destruct (parentCancelCtx parent) as [p|]; [|done]. destruct (cells w !! p); [|done].
  destruct (children _); [|done]. apply lookup_put_ne. congruence.
Qed.

(** The cell of the parent after one of its children has ended and left its map. *)
Lemma good_unlink_parent w a c parent x e p :
  sized w → good w p → ps !! a = Some c → parent_of c = Some parent → key_of c = Some x →
  parentCancelCtx parent = Some p →
  good (unlink (cancelled ps [a] e w) parent x) p.
Proof.
  intros Hw Hg Hc Hpar Hx Hp. assert (up a = Some p) as Hup by by rewrite (up_parent _ _ _ Hc), Hpar.
  pose proof (not_under_parent a p Hup) as Hnot. destruct (addr_of_ps _ _ Hc) as [_ Hk].
  assert (x.2 = a) as Hxa by (rewrite Hk in Hx; by injection Hx as <-).
  destruct Hg as [(cp & cl & Hcp & Hcl & Hmu & Hdone & Htm & Htms & Hno & Hch) He].
  assert (∀ k, up k = Some p → cell_err (unlink (cancelled ps [a] e w) parent x) k
    = if decide (k = a) then Some (default e (cell_err w k)) else cell_err w k) as Hkids.
  { intros k Hk'. rewrite cell_err_unlink. apply (up_sized w) in Hk' as Hs; [|done]. rewrite cell_err_cancelled by by destruct Hs.
    apply (up_lt _ Hps) in Hk' as Hlt. assert (under ps [a] k ↔ k = a) as Hiff.
    { rewrite under_singleton, (elem_ln _ Hps). split; [intros [_ [?|(p' & Hp' & ?)]]; congruence|]. intros ->. naive_solver. }
    repeat case_decide; naive_solver. }
  destruct (unlink_cell (cancelled ps [a] e w) parent x p cl Hp) as (m & Hm & Hdef & Hnone).
  { rewrite lookup_cancelled, Hcl. simpl. by rewrite decide_False by by rewrite under_singleton. }
  split.
  - exists cp, (set_children m cl). split_and!; try done.
    + intros Ht. apply Htms. destruct (unlink_rest (cancelled ps [a] e w) parent x) as (_ & Heq & _). rewrite Heq in Ht.
      destruct Ht as [t Ht]. apply timers_cancelled in Ht as [Ht _]. eauto.
    + intros Hs. by apply Hnone, Hno.
    + intros Hn y q. unfold in_children. simpl. rewrite Hdef, lookup_delete_Some. specialize (Hch Hn y q).
      unfold in_children in Hch. rewrite Hch. split.
      * intros (Hne & Hy & Hq & Hu & Hl). split_and!; try done. rewrite Hkids, decide_False; try done.
        intros Hya. apply Hne. rewrite Hya in Hq. congruence.
      * intros (Hy & Hq & Hu & Hl). rewrite Hkids in Hl by done. case_decide; [done|]. split_and!; try done. congruence.
  - intros Hn k Hu. rewrite Hkids by done. case_decide; [done|]. apply He; [|done].
    unfold cell_err in Hn |- *. rewrite Hm in Hn. by rewrite Hcl.
Qed.

(** Every cell is in order after a cancellation. *)
Lemma good_cancel w a c parent x e b :
  sized w → (∀ b, is_Some (ps !! b) → good w b) → ps !! a = Some c → parent_of c = Some parent → key_of c = Some x →
  is_Some (ps !! b) → good (unlink (cancelled ps [a] e w) parent x) b.
Proof.
  intros Hw Hg Hc Hpar Hx Hb. assert (∀ b, a ∈ ln b → good w b) as Hga.
  { intros b' Hb'. apply Hg. apply (elem_ln _ Hps) in Hb'. by destruct Hb'. }
  destruct (decide (parentCancelCtx parent = Some b)) as [Hp|Hp]; [by eapply good_unlink_parent; eauto|].
  assert (good (cancelled ps [a] e w) b) as Hgc.
  { apply good_cancelled; auto. by rewrite (up_parent _ _ _ Hc), Hpar. }
  destruct Hgc as [(c' & cl & Hc' & Hcl & Hmu & Hdone & Htm & Htms & Hno & Hch) He].
  destruct (unlink_rest (cancelled ps [a] e w) parent x) as (_ & Heq & _). split.
  - exists c', cl. rewrite lookup_unlink_ne, Heq by done. split_and!; try done. intros Hn y q.
    rewrite cell_err_unlink. by apply Hch.
  - setoid_rewrite cell_err_unlink. done.
Qed.

End cancelling.

End contexts.

Arguments foreign : clear implicits.
Arguments ctx : clear implicits.
Arguments cell : clear implicits.
Arguments world : clear implicits.
Arguments background {K V}.
Arguments todo {K V}.
