(* ===== verification/ContextSteps.v ===== *)
(** * Runs of cancellation contexts

    The steps of the store of Contexts.v: constructors and CancelFuncs that goroutines
    call, timers that fire, contexts of other packages that end, the goroutines that
    watch those, the clock.  The invariant of every reachable store, and the refinement
    of the specification the package documents: a cancellation ends what is below it,
    once, and nothing else. *)

From stdpp Require Import prelude gmap strings relations.
From Stdlib Require Import ZArith.
From S2P Require Import Prelude GoSort Float64 Contexts.

Local Open Scope nat_scope.

Section steps.
Context {K V : Type} `{EqDecision K, MR : MapRange}.

Local Abbreviation ctx := (ctx K V).
Local Abbreviation world := (world K V).

Implicit Types (c parent child : ctx) (w : world) (ps : list ctx) (a b : nat) (e : error).

(** A store with the pointers handed out, by address, and the timerCtxs whose
    constructor has not returned. *)
Record state : Type := State {
  store : world;
  pointers : list ctx;
  arming : gset nat;
}.

Definition initial (t : Z) : state := State (World [] ∅ ∅ ∅ [] t) [] ∅.

(** A context that a caller may hold. *)
Definition usable (s : state) c : Prop :=
  valid_ctx (pointers s) c ∧ Forall (λ a, a ∉ arming s) (line c).

(** What a step is to an observer: a new context, the cancellation of one, or nothing. *)
Inductive event : Type := New c | Cancel a e | Silent.

Definition arm_event w c a : event :=
  match Deadline c with
  | Some d => if (Sub d (clock w) <=? 0)%Z then Cancel a DeadlineExceeded else Silent
  | None => Silent
  end.

Inductive step : state → event → state → Prop :=
| step_WithCancel w ps ar parent c w' :
    usable (State w ps ar) parent → WithCancel w parent = Ok (c, w') →
    step (State w ps ar) (New c) (State w' (ps ++ [c]) ar)
| step_timerCtx_new w ps ar parent d c w' :
    usable (State w ps ar) parent → sooner (Deadline parent) d = false → timerCtx_new w parent d = Ok (c, w') →
    step (State w ps ar) (New c) (State w' (ps ++ [c]) ({[length ps]} ∪ ar))
| step_timerCtx_arm w ps ar a c w' :
    a ∈ ar → ps !! a = Some c → timerCtx_arm w c = Ok w' →
    step (State w ps ar) (arm_event w c a) (State w' ps (ar ∖ {[a]}))
| step_CancelFunc w ps ar a c w' :
    a ∉ ar → ps !! a = Some c → CancelFunc w c = Ok w' →
    step (State w ps ar) (Cancel a Canceled) (State w' ps ar)
| step_fire w ps ar a t :
    timers w !! a = Some t → (t <= clock w)%Z →
    step (State w ps ar) Silent (State (set_fired ({[a]} ∪ fired w) (set_timers (delete a (timers w)) w)) ps ar)
| step_fired w ps ar a c w' :
    a ∈ fired w → ps !! a = Some c →
    cancel (set_fired (fired w ∖ {[a]}) w) c true (Some DeadlineExceeded) = Ok w' →
    step (State w ps ar) (Cancel a DeadlineExceeded) (State w' ps ar)
| step_foreign w ps ar f e :
    foreigns w !! f = None → step (State w ps ar) Silent (State (set_foreigns (<[f := e]> (foreigns w)) w) ps ar)
| step_watch_parent w ps ar i parent child ch a e w' :
    watchers w !! i = Some (parent, child) → Done parent = Some ch → is_closed w ch = true →
    ps !! a = Some child → Err_ w parent = Some e →
    cancel (set_watchers (delete i (watchers w)) w) child false (Some e) = Ok w' →
    step (State w ps ar) (Cancel a e) (State w' ps ar)
| step_watch_child w ps ar i parent child ch :
    watchers w !! i = Some (parent, child) → Done child = Some ch → is_closed w ch = true →
    step (State w ps ar) Silent (State (set_watchers (delete i (watchers w)) w) ps ar)
| step_clock w ps ar t :
    (clock w <= t)%Z → step (State w ps ar) Silent (State (set_clock t w) ps ar).

(** ** The invariant *)

(** A context of another package that can end stands between [c] and the contexts above. *)
Definition watched c : Prop :=
  ∃ parent ch, parent_of c = Some parent ∧ parentCancelCtx parent = None ∧ Done parent = Some ch.

Record inv (s : state) : Prop := {
  inv_ps : wf_ps (pointers s);
  inv_sized : sized (pointers s) (store s);
  inv_good : ∀ b, is_Some (pointers s !! b) → good (pointers s) (store s) b;
  inv_timers : ∀ a t, timers (store s) !! a = Some t →
    ∃ parent d, pointers s !! a = Some (timerCtx parent a d) ∧ (t <= d)%Z;
  inv_fired : ∀ a, a ∈ fired (store s) → is_Some (pointers s !! a);
  inv_arming : ∀ a, a ∈ arming s → ∃ parent d, pointers s !! a = Some (timerCtx parent a d);
  inv_armed : ∀ a parent d, pointers s !! a = Some (timerCtx parent a d) → a ∉ arming s →
    cell_err (store s) a = None → is_Some (timers (store s) !! a) ∨ a ∈ fired (store s);
  inv_watchers : ∀ parent child, (parent, child) ∈ watchers (store s) →
    watched child ∧ parent_of child = Some parent ∧ ∃ a, pointers s !! a = Some child;
  inv_watched : ∀ a child parent, pointers s !! a = Some child → watched child → parent_of child = Some parent →
    cell_err (store s) a = None → (parent, child) ∈ watchers (store s);
}.

Lemma inv_initial t : inv (initial t).
Proof.
  split; simpl; try done; [by intros ? [? ?]|..]; first [by intros ? ?%not_elem_of_empty|by intros ? ? ?%not_elem_of_nil].
Qed.

(** ** What every operation does to the errors *)

(** After a cancellation of [a] with [e]. *)
Definition ends ps w w' a e : Prop :=
  ∀ b, is_Some (ps !! b) →
    cell_err w' b = if decide (a ∈ ln ps b) then Some (default e (cell_err w b)) else cell_err w b.

Lemma pointer_facts s a c :
  inv s → pointers s !! a = Some c → ∃ parent x, parent_of c = Some parent ∧ key_of c = Some x ∧ x.2 = a.
Proof. intros Hi Hc. destruct (inv_ps _ Hi _ _ Hc) as (Hk & parent & Hp & _). eexists _, _. split_and!; [done|exact Hk|done]. Qed.

Lemma inv_cell s a : inv s → is_Some (pointers s !! a) → is_Some (cells (store s) !! a).
Proof. intros Hi. apply sized_lookup, inv_sized, Hi. Qed.

Lemma cancelled_ends s a w e :
  inv s → cells w = cells (store s) → ends (pointers s) (store s) (cancelled (pointers s) [a] e w) a e.
Proof.
  intros Hi Hw b Hb. rewrite cell_err_cancelled by (rewrite Hw; by apply inv_cell).
  assert (cell_err w b = cell_err (store s) b) as -> by (unfold cell_err; by rewrite Hw).
  repeat case_decide; rewrite under_singleton in *; done.
Qed.

(** [w] is the store of [s], but that what waits for [c] may be gone. *)
Record released s w (ar : gset nat) a c : Prop := {
  rel_cells : cells w = cells (store s);
  rel_timers : timers w = timers (store s);
  rel_fired : fired w ⊆ fired (store s) ∧ fired (store s) ⊆ {[a]} ∪ fired w;
  rel_arming : ar ⊆ arming s ∧ arming s ⊆ {[a]} ∪ ar;
  rel_watchers : ∀ x, x ∈ watchers w → x ∈ watchers (store s);
  rel_others : ∀ x, x ∈ watchers (store s) → x.2 ≠ c → x ∈ watchers w;
}.

Lemma released_unchanged s a c : released s (store s) (arming s) a c.
Proof. split; try done; set_solver. Qed.

Lemma released_good s w ar a c b : inv s → released s w ar a c → is_Some (pointers s !! b) → good (pointers s) w b.
Proof.
  intros Hi Hr Hb. apply (good_same _ (store s)); [by apply inv_good|by apply (rel_cells _ _ _ _ _ Hr)|].
  by rewrite (rel_timers _ _ _ _ _ Hr).
Qed.

Lemma released_sized s w ar a c : inv s → released s w ar a c → sized (pointers s) w.
Proof. intros Hi Hr. unfold sized. rewrite (rel_cells _ _ _ _ _ Hr). apply Hi. Qed.

Lemma inv_cancelled `{!MapRangeLaws} s a c w ar parent x e :
  inv s → pointers s !! a = Some c → parent_of c = Some parent → key_of c = Some x → released s w ar a c →
  let w' := unlink (cancelled (pointers s) [a] e w) parent x in
  inv (State w' (pointers s) ar) ∧ ends (pointers s) (store s) w' a e.
Proof.
  intros Hi Hc Hpar Hx Hr. set (w' := unlink _ _ _). cbn zeta.
  assert (ends (pointers s) (store s) w' a e) as Hends.
  { intros b Hb. unfold w'. rewrite cell_err_unlink. apply cancelled_ends; [done|by apply (rel_cells _ _ _ _ _ Hr)|done]. }
  split; [|done].
  destruct (unlink_rest (cancelled (pointers s) [a] e w) parent x) as (_ & Htm & Hfd & Hwt & _ & Hlen).
  assert (∀ b, is_Some (pointers s !! b) → cell_err w' b = None → cell_err (store s) b = None ∧ a ∉ ln (pointers s) b) as Hlive.
  { intros b Hb. rewrite (Hends b Hb). case_decide; done. }
  assert (a ∈ ln (pointers s) a) as Haa by (apply ln_self; [apply Hi|eauto]).
  pose proof Hr as [Hrc Hrt [Hf1 Hf2] [Ha1 Ha2] Hw1 Hw2].
  split; cbn [pointers store arming].
  - apply Hi.
  - unfold sized, w'. rewrite Hlen, length_cancelled, Hrc. apply Hi.
  - intros b Hb. eapply good_cancel; try done; [apply Hi|by eapply released_sized|]. intros b' Hb'. by eapply released_good.
  - intros b t. unfold w'. rewrite Htm. intros [Ht _]%timers_cancelled. rewrite Hrt in Ht. by apply (inv_timers _ Hi).
  - intros b. unfold w'. rewrite Hfd. intros Hb. by apply (inv_fired _ Hi), Hf1.
  - intros b Hb. by apply (inv_arming _ Hi), Ha1.
  - intros b p d Hb Hnot Hl. destruct (Hlive b (mk_is_Some _ _ Hb) Hl) as [Hl' Hna].
    assert (b ≠ a) as Hne by (intros ->; done). unfold w'. rewrite Htm, Hfd.
    destruct (inv_armed _ Hi b p d Hb) as [[t Ht]|Hf]; [set_solver|done| |right; simpl; set_solver].
    left. exists t. apply timers_cancelled. rewrite Hrt, under_singleton. done.
  - intros p q Hin. apply (inv_watchers _ Hi), Hw1. unfold w' in Hin. by rewrite Hwt in Hin.
  - intros b q p Hb Hwq Hp Hl. destruct (Hlive b (mk_is_Some _ _ Hb) Hl) as [Hl' Hna]. unfold w'. rewrite Hwt.
    apply Hw2; [by eapply (inv_watched _ Hi)|]. simpl. intros ->.
    destruct (pointer_facts _ _ _ Hi Hb) as (_ & xb & _ & Hxb & <-). destruct (pointer_facts _ _ _ Hi Hc) as (_ & xa & _ & Hxa & <-).
    rewrite Hxb in Hxa. injection Hxa as ->. done.
Qed.

(** ** A new pointer *)

(** [c] is the pointer at the next address, below [parent]. *)
Definition next_pointer ps parent c : Prop :=
  valid_ctx ps parent ∧ (c = cancelCtx parent (length ps) ∨ ∃ d, c = timerCtx parent (length ps) d).

Lemma lookup_next ps c k q : (ps ++ [c]) !! k = Some q ↔ ps !! k = Some q ∨ (k = length ps ∧ q = c).
Proof.
  rewrite lookup_app_Some, list_lookup_singleton_Some. split.
  - intros [?|(? & ? & ->)]; [by left|]. right. split; [lia|done].
  - intros [?|[-> ->]]; [by left|]. right. split_and!; [lia|lia|done].
Qed.

Section growing.
Context ps parent c (Hps : wf_ps ps) (Hc : next_pointer ps parent c).

Local Abbreviation n := (length ps).
Local Abbreviation ps' := (ps ++ [c]).

Lemma next_parent : parent_of c = Some parent ∧ key_of c = Some (if is_timed c then Timed else Plain, n).
Proof. by destruct Hc as [_ [->|[d ->]]]. Qed.

Lemma wf_next : wf_ps ps'.
Proof.
  intros a q [Ha|[-> ->]]%lookup_next.
  - destruct (Hps _ _ Ha) as [Hk (p & Hp & Hv)]. split; [done|]. exists p. split; [done|].
    rewrite take_app_le; [done|]. apply lookup_lt_Some in Ha. lia.
  - destruct next_parent as [Hp Hk]. split; [done|]. exists parent. split; [done|]. rewrite take_app_length. apply Hc.
Qed.

Lemma up_next k : k < n → up ps' k = up ps k.
Proof. intros Hk. unfold up. by rewrite lookup_app_l. Qed.

Lemma up_next_new : up ps' n = parentCancelCtx parent.
Proof. rewrite (up_parent ps' n c) by (apply lookup_next; auto). by rewrite (proj1 next_parent). Qed.

Lemma up_next_old b k : up ps' k = Some b → b ≠ n ∧ (up ps k = Some b ∨ k = n ∧ parentCancelCtx parent = Some b).
Proof.
  intros Hk. pose proof (up_lt _ wf_next _ _ Hk) as (Hlt & _ & Hs%lookup_lt_is_Some). rewrite length_app in Hs. simpl in Hs.
  split; [lia|]. destruct (decide (k = n)) as [->|Hne]; [right; by rewrite <- up_next_new|left; by rewrite <- up_next by lia].
Qed.

Lemma ln_next k : is_Some (ps !! k) → ln ps' k = ln ps k.
Proof. unfold ln. intros [q Hq]. by rewrite (proj2 (lookup_next ps c k q) (or_introl Hq)), Hq. Qed.

Lemma ln_next_new : ln ps' n = n :: match parentCancelCtx parent with Some p => ln ps p | None => [] end.
Proof.
  unfold ln at 1. rewrite (proj2 (lookup_next ps c n c)) by auto. destruct Hc as [Hv [->|[d ->]]]; simpl; f_equal; by apply line_valid.
Qed.

(** The new cell has no children. *)
Lemma good_fresh w cl :
  cells w !! n = Some cl → mu cl = false → done_closed cl = bool_decide (is_Some (err cl)) → children cl = None →
  timer cl = false → timers w !! n = None → good ps' w n.
Proof.
  intros Hcl Hmu Hdone Hch Ht Htm. split.
  - exists c, cl. rewrite Ht, Htm, Hch. split_and!; try done; [apply lookup_next; auto|].
    intros _ x q. unfold in_children. rewrite Hch. simpl. rewrite lookup_empty. split; [done|].
    intros (_ & _ & Hup & _). by apply up_next_old in Hup as [? _].
  - intros _ k Hk. by apply up_next_old in Hk as [? _].
Qed.

(** A cell the new one is not a live child of is in order as before. *)
Lemma good_grown w w' b :
  good ps w b → cells w' !! b = cells w !! b → timers w' !! b = timers w !! b →
  (∀ k, k < n → cell_err w' k = cell_err w k) →
  (parentCancelCtx parent = Some b → cell_err w b ≠ None ∧ cell_err w' n ≠ None) →
  good ps' w' b.
Proof.
  intros [(q & cl & Hq & Hcl & Hmu & Hdone & Htm & Htms & Hno & Hch) He] Hcell Htimer Hold Hnew.
  assert (b < n) as Hb by by eapply lookup_lt_Some. split.
  - exists q, cl. rewrite Hcell, Htimer. split_and!; try done; [apply lookup_next; auto|].
    intros Hn x q'. assert (parentCancelCtx parent ≠ Some b) as Hnb.
    { intros Hp. destruct (Hnew Hp) as [Hb' _]. apply Hb'. unfold cell_err. by rewrite Hcl. }
    assert (∀ k, up ps' k = Some b ↔ up ps k = Some b) as Hups.
    { intros k. split; [intros [_ [?|[_ ?]]]%up_next_old; done|]. intros Hk. rewrite up_next; [done|].
      apply (up_lt _ Hps) in Hk as (_ & _ & Hs%lookup_lt_is_Some). done. }
    rewrite Hch, Hups by done. apply and_iff_compat_l. split; intros (Hq' & Hup & Hl); split_and!; try done;
      apply (up_lt _ Hps) in Hup as Hlt; destruct Hlt as (_ & _ & Hs%lookup_lt_is_Some).
    + apply lookup_next; auto.
    + by rewrite Hold.
    + apply lookup_next in Hq' as [?|[Hxn _]]; [done|lia].
    + by rewrite <- Hold.
  - rewrite Hold by done. intros Hn k Hk. apply up_next_old in Hk as [_ [Hk|[-> Hp]]]; [|by apply Hnew].
    apply (up_lt _ Hps) in Hk as Hlt. destruct Hlt as (_ & _ & Hs%lookup_lt_is_Some). rewrite Hold by done. by apply He.
Qed.

(** The cell whose map the new pointer joins. *)
Lemma good_adopting w w' p cl :
  good ps w p → cells w !! p = Some cl → err cl = None → parentCancelCtx parent = Some p →
  cells w' !! p = Some (set_children (add_child (children cl) c) cl) → timers w' !! p = timers w !! p →
  (∀ k, k < n → cell_err w' k = cell_err w k) → cell_err w' n = None →
  good ps' w' p.
Proof.
  intros [(q & cl' & Hq & Hcl' & Hmu & Hdone & Htm & Htms & Hno & Hch) He] Hcl Hn Hp Hcell Htimer Hold Hnew.
  rewrite Hcl in Hcl'. injection Hcl' as <-. assert (p < n) as Hlt by by eapply lookup_lt_Some.
  destruct next_parent as [_ Hk]. split.
  - exists q, (set_children (add_child (children cl) c) cl). rewrite Hcell, Htimer. split_and!; try done; [apply lookup_next; auto| |].
    { simpl. rewrite Hn. by intros [? ?]. }
    intros _ x q'. unfold in_children, add_child. rewrite Hk. simpl. rewrite lookup_insert_Some.
    specialize (Hch Hn x q'). unfold in_children in Hch. rewrite Hch. split.
    + intros [[<- <-]|(Hne & Hx & Hq' & Hup & Hl)].
      * split_and!; [done|apply lookup_next; auto|by rewrite <- Hp, <- up_next_new|done].
      * assert (x.2 < n) by by eapply lookup_lt_Some. rewrite up_next, Hold by done. split_and!; try done. apply lookup_next; auto.
    + intros (Hx & [Hq'|[Hxn ->]]%lookup_next & Hup & Hl).
      * assert (x.2 < n) by by eapply lookup_lt_Some. rewrite up_next, Hold in * by done. right. split_and!; try done.
        intros <-. simpl in *. lia.
      * left. rewrite Hk in Hx. by injection Hx as <-.
  - unfold cell_err. rewrite Hcell. simpl. by rewrite Hn.
Qed.

Implicit Types cl : cell K V.

Definition with_cell w cl : world := set_cells (cells w ++ [cl]) w.

Lemma Done_cancel (q : ctx) p : parentCancelCtx q = Some p → Done q = Some (ChanCell p).
Proof. induction q; simpl; naive_solver. Qed.

Lemma propagate_none w :
  parentCancelCtx parent = None →
  propagateCancel w parent c = Ok (match Done parent with Some _ => set_watchers (watchers w ++ [(parent, c)]) w | None => w end).
Proof. unfold propagateCancel. intros ->. by destruct (Done parent). Qed.

Lemma lookup_with_cell w cl k : sized ps w → cells (with_cell w cl) !! k = if decide (k = n) then Some cl else cells w !! k.
Proof.
  unfold sized. intros Hw. simpl. rewrite lookup_app. case_decide as Hk.
  - subst k. rewrite (lookup_ge_None_2 _ n) by lia. by rewrite Hw, Nat.sub_diag.
  - destruct (cells w !! k) eqn:Hl; [done|]. apply lookup_ge_None in Hl. apply lookup_ge_None_2. simpl. lia.
Qed.

Lemma sized_with_cell w cl : sized ps w → sized ps' (with_cell w cl).
Proof. unfold sized. intros Hw. simpl. rewrite !length_app. simpl. by rewrite Hw. Qed.

Lemma propagate_live w p cl new :
  sized ps w → parentCancelCtx parent = Some p → p < n → cells w !! p = Some cl → mu cl = false → err cl = None →
  propagateCancel (with_cell w new) parent c
  = Ok (with_cell (put_cell w p (set_children (add_child (children cl) c) cl)) new).
Proof.
  intros Hw Hp Hlt Hcl Hmu Hn. unfold propagateCancel. rewrite (Done_cancel _ _ Hp), Hp.
  assert (cells (with_cell w new) !! p = Some cl) as Hclp by (rewrite lookup_with_cell, decide_False by (done || lia); done).
  rewrite (lock_ok _ p cl) by done. simpl. rewrite get_put by eauto. simpl. rewrite Hn. simpl.
  rewrite put_put, unlock_put by eauto. f_equal. apply world_eq; try done. simpl.
  rewrite insert_app_l by by eapply lookup_lt_Some. repeat f_equal. destruct cl; simpl in Hmu. by subst.
Qed.

Lemma propagate_dead `{!MapRangeLaws} w p cl e :
  sized ps w → parentCancelCtx parent = Some p → p < n → cells w !! p = Some cl → mu cl = false → err cl = Some e →
  timers w !! n = None →
  propagateCancel (with_cell w newCancelCtx) parent c = Ok (with_cell w (end_cell e newCancelCtx)).
Proof.
  intros Hw Hp Hlt Hcl Hmu Hn Htm. unfold propagateCancel. rewrite (Done_cancel _ _ Hp), Hp.
  assert (cells (with_cell w newCancelCtx) !! p = Some cl) as Hclp by (rewrite lookup_with_cell, decide_False by (done || lia); done).
  rewrite (lock_ok _ p cl) by done. simpl. rewrite get_put by eauto. simpl. rewrite Hn.
  set (w1 := put_cell _ _ _). assert (sized ps' w1) as Hw1 by by apply sized_put, sized_with_cell.
  assert (ps' !! n = Some c) as Hpn by (apply lookup_next; auto).
  assert (∀ b, under ps' [n] b ↔ b = n) as Hunder.
  { intros b. rewrite under_singleton. split.
    - intros Hb. pose proof (ln_le _ wf_next _ _ Hb) as Hle. apply (elem_ln _ wf_next) in Hb as [Hs%lookup_lt_is_Some _].
      rewrite length_app in Hs. simpl in Hs. lia.
    - intros ->. apply (ln_self _ wf_next). eauto. }
  unfold cancel. rewrite (cancel_loop_ok ps' wf_next _ _ n); [|done|done| |rewrite Hw1; lia].
  2: { intros b Hb. rewrite <- under_singleton, Hunder in Hb. subst b. apply good_fresh with newCancelCtx; try done.
    unfold w1. rewrite lookup_put_ne, lookup_with_cell, decide_True by (done || lia). done. }
  simpl. unfold unlock. assert (cells (cancelled ps' [n] e w1) !! p = Some (set_mu true cl)) as Hc1.
  { rewrite lookup_cancelled. unfold w1. rewrite lookup_put by eauto. simpl. rewrite decide_False; [done|]. rewrite Hunder. lia. }
  rewrite (get_Ok _ _ _ Hc1). simpl. f_equal. apply world_eq; try done.
  - apply list_eq. intros b. destruct (decide (b = p)) as [->|Hb].
    { rewrite lookup_put by eauto. rewrite lookup_with_cell, decide_False by (done || lia). by rewrite set_mu_same. }
    rewrite lookup_put_ne, lookup_cancelled by done. unfold w1. rewrite lookup_put_ne, !lookup_with_cell by done.
    destruct (decide (b = n)) as [->|Hbn]; cbn [fmap option_fmap option_map]; [by rewrite decide_True by by apply Hunder|].
    destruct (cells w !! b); [|done]. cbn [fmap option_fmap option_map].
    by rewrite decide_False by by rewrite Hunder.
  - apply map_eq. intros b. apply option_eq. intros t. simpl. rewrite map_lookup_filter_Some, Hunder.
    split; [by intros [? _]|]. intros Ht. split; [done|]. intros ->. congruence.
Qed.

End growing.

(** The error a new context starts with. *)
Definition inherited w parent : option error :=
  match parentCancelCtx parent with Some p => cell_err w p | None => None end.

(** [w] is the store of [s] with one more context in order. *)
Record grown s w parent c (ar : gset nat) : Prop := {
  gr_good : ∀ b, is_Some ((pointers s ++ [c]) !! b) → good (pointers s ++ [c]) w b;
  gr_sized : sized (pointers s ++ [c]) w;
  gr_timers : timers w = timers (store s) ∧ fired w = fired (store s);
  gr_arming : arming s ⊆ ar ∧ ar ⊆ {[length (pointers s)]} ∪ arming s
    ∧ (length (pointers s) ∈ ar ↔ is_timed c = true);
  gr_watchers : watchers w = watchers (store s) ++ (if decide (parentCancelCtx parent = None ∧ Done parent ≠ None) then [(parent, c)] else []);
  gr_old : ∀ k, k < length (pointers s) → cell_err w k = cell_err (store s) k;
  gr_new : cell_err w (length (pointers s)) = inherited (store s) parent;
}.

Lemma inv_grown s w parent c ar :
  inv s → next_pointer (pointers s) parent c → grown s w parent c ar → inv (State w (pointers s ++ [c]) ar).
Proof.
  intros Hi Hc [Hg Hw [Htm Hfd] (Ha1 & Ha2 & Ha3) Hwt Hold Hnew]. pose proof (next_parent _ _ _ Hc) as [Hpar Hk].
  assert (∀ k, k < length (pointers s) ↔ is_Some (pointers s !! k)) as Hsz by (intros k; symmetry; apply lookup_lt_is_Some).
  assert (∀ k q, pointers s !! k = Some q → (pointers s ++ [c]) !! k = Some q) as Hlift by (intros; by apply lookup_app_l_Some).
  split; cbn [pointers store arming]; try done.
  - by eapply wf_next; [apply Hi|].
  - intros a t. rewrite Htm. intros (p & d & Ha & Hle)%(inv_timers _ Hi). eauto 8.
  - intros a. rewrite Hfd. intros [q Hq]%(inv_fired _ Hi). eauto.
  - intros a Ha. apply Ha2 in Ha as Ha'. apply elem_of_union in Ha' as [->%elem_of_singleton|Ha'].
    + apply Ha3 in Ha. destruct Hc as [_ [->|[d ->]]]; [done|]. exists parent, d. by apply list_lookup_middle.
    + destruct (inv_arming _ Hi a Ha') as (p & d & Hp). eauto.
  - intros a p d [Ha|[-> <-]]%lookup_next Hnot; rewrite Htm, Hfd.
    + rewrite Hold by (apply Hsz; eauto). apply (inv_armed _ Hi a p d Ha). set_solver.
    + by destruct Hnot; apply Ha3.
  - intros p q. rewrite Hwt, elem_of_app. intros [Hin|Hin].
    + destruct (inv_watchers _ Hi _ _ Hin) as (? & ? & a & Ha). eauto 8.
    + case_decide as Hd; [|by apply not_elem_of_nil in Hin]. apply list_elem_of_singleton in Hin. simplify_eq.
      destruct Hd as [Hp [ch Hd]%not_eq_None_Some]. split_and!; [by exists parent, ch|done|].
      exists (length (pointers s)). by apply list_lookup_middle.
  - intros a q p Ha Hwq Hp Hl. rewrite Hwt, elem_of_app. apply lookup_next in Ha as [Ha|[-> ->]].
    + left. apply (inv_watched _ Hi a); try done. rewrite <- Hold; [done|]. apply Hsz. eauto.
    + right. destruct Hwq as (p' & ch & Hp' & Hno & Hd). assert (p = parent) as -> by congruence. assert (p' = parent) as -> by congruence.
      rewrite decide_True by (rewrite Hd; done). by apply list_elem_of_singleton.
Qed.

Lemma sized_timer s : inv s → timers (store s) !! length (pointers s) = None.
Proof.
  intros Hi. destruct (timers (store s) !! _) as [t|] eqn:Ht; [|done].
  apply (inv_timers _ Hi) in Ht as (p & d & Hl & _). apply lookup_lt_Some in Hl. lia.
Qed.

Lemma cell_err_with_cell ps w cl k :
  sized ps w → cell_err (with_cell w cl) k = if decide (k = length ps) then err cl else cell_err w k.
Proof. intros Hw. unfold cell_err. rewrite (lookup_with_cell ps) by done. by case_decide. Qed.

Definition arms s c (ar : gset nat) : Prop :=
  arming s ⊆ ar ∧ ar ⊆ {[length (pointers s)]} ∪ arming s ∧ (length (pointers s) ∈ ar ↔ is_timed c = true).

Lemma grown_intro s w cl parent c ar :
  inv s → next_pointer (pointers s) parent c → arms s c ar →
  sized (pointers s) w → timers w = timers (store s) ∧ fired w = fired (store s) →
  watchers w = watchers (store s) ++ (if decide (parentCancelCtx parent = None ∧ Done parent ≠ None) then [(parent, c)] else []) →
  (∀ k, cell_err w k = cell_err (store s) k) → (∀ b, parentCancelCtx parent ≠ Some b → cells w !! b = cells (store s) !! b) →
  mu cl = false → done_closed cl = bool_decide (is_Some (err cl)) → children cl = None → timer cl = false →
  err cl = inherited (store s) parent →
  (∀ b, parentCancelCtx parent = Some b → good (pointers s ++ [c]) (with_cell w cl) b) →
  grown s (with_cell w cl) parent c ar.
Proof.
  intros Hi Hc Har Hw [Htm Hfd] Hwt Hsame Hcells Hmu Hdone Hch Ht Herr Hp. pose proof (inv_ps _ Hi) as Hps.
  assert (∀ k, k < length (pointers s) → cell_err (with_cell w cl) k = cell_err (store s) k) as Hold.
  { intros k Hk. rewrite (cell_err_with_cell (pointers s)), decide_False by (done || lia). done. }
  split; try done.
  - intros b [q [Hb|[-> ->]]%lookup_next].
    + destruct (decide (parentCancelCtx parent = Some b)) as [Hpb|Hpb]; [by apply Hp|].
      apply (good_grown _ _ _ Hps Hc (store s)); [apply inv_good; [done|eauto]| |simpl; by rewrite Htm|done|done].
      rewrite (lookup_with_cell (pointers s)), decide_False by (done || (apply lookup_lt_Some in Hb; lia)). by apply Hcells.
    + apply (good_fresh _ _ _ Hps Hc _ cl); try done; [by rewrite (lookup_with_cell (pointers s)), decide_True|].
      simpl. rewrite Htm. by apply sized_timer.
  - by apply sized_with_cell.
  - by rewrite (cell_err_with_cell (pointers s)), decide_True by done.
Qed.

(** What every constructor does with the new context. *)
Lemma propagate_grown `{!MapRangeLaws} s parent c ar :
  inv s → next_pointer (pointers s) parent c → arms s c ar →
  ∃ w', propagateCancel (with_cell (store s) newCancelCtx) parent c = Ok w' ∧ grown s w' parent c ar.
Proof.
  intros Hi Hc Har. pose proof (inv_sized _ Hi) as Hw. pose proof (inv_ps _ Hi) as Hps. pose proof (sized_timer s Hi) as Htn.
  destruct (parentCancelCtx parent) as [p|] eqn:Hp.
  - assert (is_Some (pointers s !! p)) as Hps' by (eapply parentCancelCtx_valid; [apply Hc|done]).
    assert (p < length (pointers s)) as Hlt by by apply lookup_lt_is_Some.
    pose proof (inv_good _ Hi p Hps') as Hg. destruct (good_cell _ _ _ Hg) as (q & cl & _ & Hcl & Hmu & _).
    assert (inherited (store s) parent = err cl) as Hinh by (unfold inherited, cell_err; by rewrite Hp, Hcl).
    destruct (err cl) as [e|] eqn:Hn.
    + eexists. split; [by eapply propagate_dead|]. apply grown_intro; try done; [by rewrite decide_False, app_nil_r by naive_solver|].
      intros b Hb. assert (b = p) as -> by congruence. apply (good_grown _ _ _ Hps Hc (store s)); try done.
      * by rewrite (lookup_with_cell (pointers s)), decide_False by (done || lia).
      * intros k Hk. by rewrite (cell_err_with_cell (pointers s)), decide_False by (done || lia).
      * intros _. rewrite (cell_err_with_cell (pointers s)), decide_True by done. unfold cell_err. rewrite Hcl. simpl. by rewrite Hn.
    + eexists. split; [by eapply propagate_live|].
      assert (∀ k, cell_err (put_cell (store s) p (set_children (add_child (children cl) c) cl)) k = cell_err (store s) k) as Hsame.
      { intros k. unfold cell_err. destruct (decide (k = p)) as [->|Hk]; [by rewrite lookup_put, Hcl by eauto|by rewrite lookup_put_ne]. }
      assert (sized (pointers s) (put_cell (store s) p (set_children (add_child (children cl) c) cl))) as Hw' by by apply sized_put.
      apply grown_intro; try done; [by rewrite decide_False, app_nil_r by naive_solver| |].
      { intros b Hb. apply lookup_put_ne. congruence. }
      intros b Hb. assert (b = p) as -> by congruence. apply (good_adopting _ _ _ Hc (store s) _ p cl); try done.
      * by rewrite (lookup_with_cell (pointers s)), decide_False, lookup_put by (done || lia || eauto).
      * intros k Hk. by rewrite (cell_err_with_cell (pointers s)), decide_False by (done || lia).
      * by rewrite (cell_err_with_cell (pointers s)), decide_True by done.
  - rewrite (propagate_none _ _ _ Hp).
    assert (inherited (store s) parent = None) as Hinh by (unfold inherited; by rewrite Hp).
    eexists. split; [done|]. destruct (Done parent) as [ch|] eqn:Hd.
    + apply (grown_intro s (set_watchers (watchers (store s) ++ [(parent, c)]) (store s)) newCancelCtx); try done; [|congruence].
      by rewrite decide_True by (rewrite Hd; done).
    + apply grown_intro; try done; [|congruence]. rewrite decide_False, app_nil_r; [done|]. intros [_ []]. done.
Qed.

(** ** The specification

    A context as the documentation describes it: the contexts above it, and its error.  *)

Definition entry : Type := list nat * option error.

Definition spec_end a e (x : entry) : entry := if decide (a ∈ x.1) then (x.1, Some (default e x.2)) else x.

Definition spec_new (l : list entry) c : entry :=
  (line c, match tail (line c) with p :: _ => x ← l !! p; x.2 | [] => None end).

Inductive spec_step : list entry → event → list entry → Prop :=
| spec_step_new l c : head (line c) = Some (length l) → spec_step l (New c) (l ++ [spec_new l c])
| spec_step_cancel l a e : a < length l → spec_step l (Cancel a e) (spec_end a e <$> l)
| spec_step_silent l : spec_step l Silent l.

Definition abs (s : state) : list entry := imap (λ a c, (line c, cell_err (store s) a)) (pointers s).

Lemma lookup_abs s a : abs s !! a = (λ c, (line c, cell_err (store s) a)) <$> pointers s !! a.
Proof. apply list_lookup_imap. Qed.

Lemma abs_cancelled s w a e ar :
  is_Some (pointers s !! a) → ends (pointers s) (store s) w a e →
  spec_step (abs s) (Cancel a e) (abs (State w (pointers s) ar)).
Proof.
  intros Ha Hends. replace (abs (State w (pointers s) ar)) with (spec_end a e <$> abs s).
  { constructor. unfold abs. rewrite length_imap. by apply lookup_lt_is_Some. }
  apply list_eq. intros b. rewrite list_lookup_fmap, !lookup_abs. cbn [pointers store].
  destruct (pointers s !! b) as [c|] eqn:Hb; [|done]. simpl. f_equal. rewrite (Hends b) by eauto.
  unfold spec_end, ln. rewrite Hb. simpl. by case_decide.
Qed.

Lemma abs_errs s w ar : (∀ b, cell_err w b = cell_err (store s) b) → abs (State w (pointers s) ar) = abs s.
Proof. intros Hw. apply list_eq. intros b. rewrite !lookup_abs. cbn [pointers store]. by rewrite Hw. Qed.

Lemma abs_same s w ar : cells w = cells (store s) → abs (State w (pointers s) ar) = abs s.
Proof. intros Hw. apply abs_errs. intros b. unfold cell_err. by rewrite Hw. Qed.

Lemma abs_grown s w parent c ar :
  inv s → next_pointer (pointers s) parent c → grown s w parent c ar →
  spec_step (abs s) (New c) (abs (State w (pointers s ++ [c]) ar)).
Proof.
  intros Hi Hc Hg. pose proof (next_parent _ _ _ Hc) as [Hpar Hk].
  assert (line c = length (pointers s) :: line parent) as Hl by (by destruct Hc as [_ [->|[d ->]]]).
  replace (abs (State w (pointers s ++ [c]) ar)) with (abs s ++ [spec_new (abs s) c]).
  { constructor. unfold abs. rewrite Hl, length_imap. done. }
  apply list_eq. intros b. rewrite lookup_abs. cbn [pointers store].
  assert (length (abs s) = length (pointers s)) as Hlen by apply length_imap.
  destruct (decide (b < length (pointers s))) as [Hb|Hb].
  - rewrite !lookup_app_l, lookup_abs by lia. by rewrite (gr_old _ _ _ _ _ Hg).
  - destruct (decide (b = length (pointers s))) as [->|Hne].
    2: { rewrite !lookup_ge_None_2; [done|rewrite length_app; simpl; lia..]. }
    rewrite !list_lookup_middle by done. simpl. f_equal. unfold spec_new. f_equal. rewrite (gr_new _ _ _ _ _ Hg), Hl. simpl.
    destruct Hc as [Hv _]. rewrite (line_valid _ _ Hv). unfold inherited.
    destruct (parentCancelCtx parent) as [p|] eqn:Hp; [|done].
    pose proof (parentCancelCtx_valid _ _ _ Hv Hp) as Hps. rewrite (ln_unfold _ (inv_ps _ Hi)) by done.
    rewrite lookup_abs. by destruct Hps as [q ->].
Qed.

(** ** Every operation succeeds, keeps the invariant and does what the specification says *)

Definition simulated (s : state) (ev : event) (s' : state) : Prop := inv s' ∧ spec_step (abs s) ev (abs s').

Section simulation.
Context `{!MapRangeLaws}.

Lemma simulated_new s parent c ar :
  inv s → next_pointer (pointers s) parent c → arms s c ar →
  ∃ w', propagateCancel (with_cell (store s) newCancelCtx) parent c = Ok w'
    ∧ simulated s (New c) (State w' (pointers s ++ [c]) ar).
Proof.
  intros Hi Hc Har. destruct (propagate_grown s parent c ar Hi Hc Har) as (w' & Hw' & Hg). exists w'.
  split; [done|]. split; [by eapply inv_grown|by eapply abs_grown].
Qed.

Lemma simulated_cancel s a c w ar e :
  inv s → pointers s !! a = Some c → released s w ar a c →
  ∃ w', cancel w c true (Some e) = Ok w' ∧ simulated s (Cancel a e) (State w' (pointers s) ar).
Proof.
  intros Hi Hc Hr. destruct (pointer_facts _ _ _ Hi Hc) as (parent & x & Hpar & Hx & _).
  destruct (inv_cancelled s a c w ar parent x e Hi Hc Hpar Hx Hr) as [Hi' Hends].
  eexists. split; [|split; [exact Hi'|apply abs_cancelled; eauto]].
  apply (cancel_ok _ (inv_ps _ Hi)); [by eapply released_sized| |done..]. intros b Hb. by eapply released_good.
Qed.

(** A watcher, which does not remove its context from a parent. *)
Lemma simulated_watch s a c w ar e :
  inv s → pointers s !! a = Some c → watched c → released s w ar a c →
  ∃ w', cancel w c false (Some e) = Ok w' ∧ simulated s (Cancel a e) (State w' (pointers s) ar).
Proof.
  intros Hi Hc (parent & ch & Hpar & Hno & _) Hr. destruct (pointer_facts _ _ _ Hi Hc) as (parent' & x & Hpar' & Hx & _).
  destruct (inv_cancelled s a c w ar parent x e Hi Hc Hpar Hx Hr) as [Hi' Hends].
  unfold unlink in Hi', Hends. rewrite Hno in Hi', Hends.
  eexists. split; [|split; [exact Hi'|apply abs_cancelled; eauto]].
  pose proof (released_sized _ _ _ _ _ Hi Hr) as Hw. apply (cancel_loop_ok _ (inv_ps _ Hi)); [done|done| |unfold sized in Hw; lia].
  intros b Hb. eapply released_good; [done..|]. apply (elem_ln _ (inv_ps _ Hi)) in Hb. by destruct Hb.
Qed.

Lemma alloc_eq s : inv s → alloc (store s) = (length (pointers s), with_cell (store s) newCancelCtx).
Proof. intros Hi. unfold alloc. by rewrite (inv_sized _ Hi). Qed.

Lemma arming_lt s a : inv s → a ∈ arming s → a < length (pointers s).
Proof. intros Hi Ha. destruct (inv_arming _ Hi a Ha) as (p & d & Hl). by eapply lookup_lt_Some. Qed.

Lemma WithCancel_ok s parent :
  inv s → usable s parent →
  ∃ c w', WithCancel (store s) parent = Ok (c, w') ∧ simulated s (New c) (State w' (pointers s ++ [c]) (arming s)).
Proof.
  intros Hi [Hv _]. set (c := cancelCtx parent (length (pointers s))).
  destruct (simulated_new s parent c (arming s)) as (w' & Hw' & Hsim); [done|split; auto| |].
  { split_and!; [done|set_solver|]. split; [intros Ha%arming_lt; [lia|done]|done]. }
  exists c, w'. split; [|done]. unfold WithCancel. rewrite alloc_eq by done. fold c. by rewrite Hw'.
Qed.

Lemma timerCtx_new_ok s parent d :
  inv s → usable s parent →
  ∃ c w', timerCtx_new (store s) parent d = Ok (c, w')
    ∧ simulated s (New c) (State w' (pointers s ++ [c]) ({[length (pointers s)]} ∪ arming s)).
Proof.
  intros Hi [Hv _]. set (c := timerCtx parent (length (pointers s)) d).
  destruct (simulated_new s parent c ({[length (pointers s)]} ∪ arming s)) as (w' & Hw' & Hsim); [done|split; eauto| |].
  { split_and!; [set_solver|done|]. simpl. set_solver. }
  exists c, w'. split; [|done]. unfold timerCtx_new. rewrite alloc_eq by done. fold c. by rewrite Hw'.
Qed.

(** The steps that leave the cells and timers alone. *)
Lemma simulated_silent s w :
  inv s → cells w = cells (store s) → timers w = timers (store s) → fired w = fired (store s) → watchers w = watchers (store s) →
  simulated s Silent (State w (pointers s) (arming s)).
Proof.
  intros Hi Hc Ht Hf Hw. split; [|rewrite (abs_same _ w) by done; constructor].
  destruct Hi as [H1 H2 H3 H4 H5 H6 H7 H8 H9].
  split; cbn [pointers store arming]; unfold sized, cell_err in *; rewrite ?Hc, ?Ht, ?Hf, ?Hw; try done.
  intros b Hb. eapply good_same; eauto. by rewrite Ht.
Qed.

Lemma simulated_fire s a t :
  inv s → timers (store s) !! a = Some t →
  simulated s Silent (State (set_fired ({[a]} ∪ fired (store s)) (set_timers (delete a (timers (store s))) (store s))) (pointers s) (arming s)).
Proof.
  intros Hi Ha. split; [|rewrite (abs_same s) by done; constructor]. pose proof Hi as [H1 H2 H3 H4 H5 H6 H7 H8 H9].
  split; cbn [pointers store arming set_fired set_timers timers fired]; try done.
  - intros b Hb. destruct (H3 b Hb) as [(c & cl & Hc & Hcl & Hmu & Hdone & Htm & Htms & Hno & Hch) He]. split; [|done].
    exists c, cl. split_and!; try done. intros [t' Ht']. cbn in Ht'. apply lookup_delete_Some in Ht' as [_ Ht']. eauto.
  - intros b t' [_ Hb]%lookup_delete_Some. eauto.
  - intros b [->%elem_of_singleton|Hb]%elem_of_union; [|eauto]. destruct (H4 a t Ha) as (p & d & Hp & _). eauto.
  - intros b p d Hb Hnot Hl. destruct (decide (b = a)) as [->|Hne]; [right; set_solver|].
    rewrite lookup_delete_ne by done. destruct (H7 b p d Hb Hnot Hl); [by left|right; set_solver].
Qed.

Lemma elem_of_delete_ne {A} (l : list A) i x y : l !! i = Some y → x ∈ l → x ≠ y → x ∈ delete i l.
Proof.
  intros Hi [j Hj]%list_elem_of_lookup Hne. apply list_elem_of_lookup.
  destruct (decide (j < i)); [exists j; by rewrite list_lookup_delete_lt|].
  assert (j ≠ i) by congruence. exists (pred j). rewrite list_lookup_delete_ge by lia. by replace (S (pred j)) with j by lia.
Qed.

(** A watcher goes when its context has ended. *)
Lemma simulated_unwatch s i parent child :
  inv s → watchers (store s) !! i = Some (parent, child) → Err_ (store s) child ≠ None →
  simulated s Silent (State (set_watchers (delete i (watchers (store s))) (store s)) (pointers s) (arming s)).
Proof.
  intros Hi Hx He. split; [|rewrite (abs_same s) by done; constructor]. pose proof Hi as [H1 H2 H3 H4 H5 H6 H7 H8 H9].
  split; cbn [pointers store arming set_watchers watchers]; try done.
  - intros b Hb. by eapply good_same; [by apply H3| |].
  - intros p c Hin%list_elem_of_delete_inv. by apply H8.
  - intros a c p Ha Hc Hp Hl. apply (elem_of_delete_ne _ _ _ (parent, child)); [done|by eapply H9|].
    intros [= -> ->]. apply He. destruct (H1 _ _ Ha) as [Hk _]. destruct child; try discriminate Hk; by injection Hk as ->.
Qed.

Lemma released_unwatch s i parent child a :
  watchers (store s) !! i = Some (parent, child) →
  released s (set_watchers (delete i (watchers (store s))) (store s)) (arming s) a child.
Proof.
  intros Hx. split; simpl; try done; [set_solver..|by intros ? ?%list_elem_of_delete_inv|].
  intros x Hin Hne. apply (elem_of_delete_ne _ _ _ (parent, child)); [done..|]. by intros ->.
Qed.

(** [Done] is closed exactly when [Err] is not nil. *)
Lemma closed_pointer s a c ch :
  inv s → pointers s !! a = Some c → Done c = Some ch → is_closed (store s) ch = bool_decide (cell_err (store s) a ≠ None)
    ∧ Err_ (store s) c = cell_err (store s) a.
Proof.
  intros Hi Ha Hd. destruct (inv_ps _ Hi _ _ Ha) as [Hk _].
  destruct (good_cell _ _ _ (inv_good _ Hi a (mk_is_Some _ _ Ha))) as (_ & cl & _ & Hcl & _ & Hdone & _).
  assert (is_closed (store s) (ChanCell a) = bool_decide (cell_err (store s) a ≠ None)) as Hclosed.
  { simpl. unfold cell_err. rewrite Hcl, Hdone. simpl. apply bool_decide_ext. by rewrite not_eq_None_Some. }
  destruct c; try discriminate Hk; injection Hk as ->; injection Hd as <-; done.
Qed.

Lemma closed_foreign w c ch :
  parentCancelCtx c = None → Done c = Some ch → is_closed w ch = bool_decide (Err_ w c ≠ None).
Proof.
  intros Hno. induction c as [| |f|p IH a|p IH a d|p IH k v]; try done; simpl in *; [|by auto].
  destruct (f_Done f); [|done]. intros [= <-]. simpl. apply bool_decide_ext. by rewrite not_eq_None_Some.
Qed.

Lemma subset_remove (X : gset nat) a : X ∖ {[a]} ⊆ X ∧ X ⊆ {[a]} ∪ X ∖ {[a]}.
Proof. split; [set_solver|]. intros b Hb. destruct (decide (b = a)); set_solver. Qed.

Lemma released_disarmed s a c : released s (store s) (arming s ∖ {[a]}) a c.
Proof. split; try done; [set_solver|apply subset_remove]. Qed.

(** A live timerCtx gets its timer. *)
Definition started w a t cl : world := put_cell (set_timers (<[a:=t]> (timers w)) w) a (set_timer true cl).

Lemma simulated_start s a parent d t cl :
  inv s → pointers s !! a = Some (timerCtx parent a d) → cells (store s) !! a = Some cl → err cl = None → (t <= d)%Z →
  simulated s Silent (State (started (store s) a t cl) (pointers s) (arming s ∖ {[a]})).
Proof.
  intros Hi Hc Hcl Hn Ht. assert (is_Some (cells (store s) !! a)) as Hs by eauto.
  assert (∀ b, cell_err (started (store s) a t cl) b = cell_err (store s) b) as Herr.
  { intros b. unfold cell_err, started. destruct (decide (b = a)) as [->|Hb]; [|by rewrite lookup_put_ne].
    rewrite (lookup_put (set_timers _ (store s))) by done. by rewrite Hcl. }
  pose proof Hi as [H1 H2 H3 H4 H5 H6 H7 H8 H9]. split.
  - split; cbn [pointers store arming]; try done.
    + by apply sized_put.
    + intros b Hb. destruct (H3 b Hb) as [(c & cl' & Hc' & Hcl' & Hmu & Hdone & Htm & Htms & Hno & Hch) He].
      split; [|by setoid_rewrite Herr]. destruct (decide (b = a)) as [->|Hne].
      * rewrite Hcl in Hcl'. injection Hcl' as <-. exists c, (set_timer true cl).
        split_and!; try done; [by apply (lookup_put (set_timers _ (store s)))| |].
        { intros _. split; [done|]. rewrite Hc in Hc'. by injection Hc' as <-. }
        setoid_rewrite Herr. apply Hch.
      * exists c, cl'. unfold started at 1. rewrite lookup_put_ne by done. setoid_rewrite Herr.
        simpl. rewrite lookup_insert_ne by done. done.
    + intros b t' Hb. cbn in Hb. apply lookup_insert_Some in Hb as [[<- <-]|[Hne Hb]]; eauto.
    + intros b Hb. apply H6. set_solver.
    + intros b p d' Hb Hnot. rewrite Herr. intros Hl. simpl. destruct (decide (b = a)) as [->|Hne].
      { rewrite lookup_insert_eq. eauto. }
      rewrite lookup_insert_ne by done. apply (H7 b p d'); [done|set_solver|done].
    + intros b. rewrite Herr. apply H9.
  - rewrite abs_errs by done. constructor.
Qed.

Lemma arm_ok s a c :
  inv s → a ∈ arming s → pointers s !! a = Some c →
  ∃ w', timerCtx_arm (store s) c = Ok w' ∧ simulated s (arm_event (store s) c a) (State w' (pointers s) (arming s ∖ {[a]})).
Proof.
  intros Hi Ha Hc. destruct (inv_arming _ Hi a Ha) as (parent & d & Hc'). rewrite Hc in Hc'. injection Hc' as ->.
  unfold timerCtx_arm, arm_event. simpl. destruct (Sub d (clock (store s)) <=? 0)%Z eqn:Hd.
  { apply simulated_cancel; [done..|apply released_disarmed]. }
  pose proof (inv_good _ Hi a (mk_is_Some _ _ Hc)) as Hg.
  destruct (good_cell _ _ _ Hg) as (c & cl & Hc' & Hcl & Hmu & Hdone & Htm & Htms & Hno & Hch).
  rewrite Hc in Hc'. injection Hc' as <-. assert (is_Some (cells (store s) !! a)) as Hs by eauto.
  rewrite (lock_ok _ a cl) by done. simpl. rewrite get_put by done. simpl.
  pose proof Hi as [H1 H2 H3 H4 H5 H6 H7 H8 H9].
  destruct (err cl) as [e|] eqn:Hn.
  - rewrite unlock_put, set_mu_same, put_same by done. eexists. split; [done|].
    split; [|rewrite abs_same by done; constructor]. split; cbn [pointers store arming]; try done; [set_solver|].
    intros b p d' Hb Hnot Hl. destruct (decide (b = a)) as [->|Hne]; [|apply (H7 b p d'); [done|set_solver|done]].
    exfalso. unfold cell_err in Hl. rewrite Hcl in Hl. simpl in Hl. congruence.
  - rewrite unlock_put by (done || (eexists; by apply (lookup_put (store s)))).
    eexists. split; [done|].
    replace (put_cell _ a _) with (started (store s) a (clock (store s) + Sub d (clock (store s))) cl).
    { eapply simulated_start; try done. unfold Sub, min_int64, max_int64 in *. lia. }
    apply world_eq; try done. simpl. rewrite list_insert_insert_eq. f_equal. destruct cl; simpl in Hmu. by subst.
Qed.

Lemma step_simulated s ev s' : inv s → step s ev s' → simulated s ev s'.
Proof.
  intros Hi Hs. destruct Hs as
    [w ps ar parent c w' Hu Hop|w ps ar parent d c w' Hu _ Hop|w ps ar a c w' Ha Hc Hop|w ps ar a c w' _ Hc Hop
    |w ps ar a t Ht _|w ps ar a c w' Hf Hc Hop|w ps ar f e _|w ps ar i parent child ch a e w' Hw Hd Hcl Hc He Hop
    |w ps ar i parent child ch Hw Hd Hcl|w ps ar t _].
  - destruct (WithCancel_ok _ parent Hi Hu) as (c' & w'' & Hop' & Hsim). simpl in Hop'. rewrite Hop in Hop'. by simplify_eq.
  - destruct (timerCtx_new_ok _ parent d Hi Hu) as (c' & w'' & Hop' & Hsim). simpl in Hop'. rewrite Hop in Hop'. by simplify_eq.
  - destruct (arm_ok _ a c Hi Ha Hc) as (w'' & Hop' & Hsim). simpl in Hop'. rewrite Hop in Hop'. by simplify_eq.
  - destruct (simulated_cancel _ a c w ar Canceled Hi Hc) as (w'' & Hop' & Hsim); [apply released_unchanged|].
    unfold CancelFunc in Hop. rewrite Hop in Hop'. by simplify_eq.
  - by apply (simulated_fire _ _ _ Hi Ht).
  - destruct (simulated_cancel _ a c (set_fired (fired w ∖ {[a]}) w) ar DeadlineExceeded Hi Hc) as (w'' & Hop' & Hsim).
    { split; try done; [apply subset_remove|]. simpl. set_solver. }
    rewrite Hop in Hop'. by simplify_eq.
  - by apply (simulated_silent _ (set_foreigns _ w) Hi).
  - assert ((parent, child) ∈ watchers w) as Hin by by eapply list_elem_of_lookup_2.
    destruct (inv_watchers _ Hi _ _ Hin) as (Hwd & _ & _).
    destruct (simulated_watch _ a child (set_watchers (delete i (watchers w)) w) ar e Hi Hc Hwd) as (w'' & Hop' & Hsim).
    { by apply (released_unwatch (State w ps ar) i parent child a). }
    rewrite Hop in Hop'. by simplify_eq.
  - assert ((parent, child) ∈ watchers w) as Hin by by eapply list_elem_of_lookup_2.
    destruct (inv_watchers _ Hi _ _ Hin) as (_ & _ & a & Ha).
    apply (simulated_unwatch _ _ _ _ Hi Hw). destruct (closed_pointer _ a child ch Hi Ha Hd) as [Hb He].
    simpl in Hb, He. rewrite Hcl in Hb. simpl. rewrite He.
    by apply (bool_decide_eq_true_1 _ (eq_sym Hb)).
  - by apply (simulated_silent _ (set_clock t w) Hi).
Qed.

End simulation.

(** ** Runs *)

Inductive runs (t : Z) : list event → state → Prop :=
| runs_nil : runs t [] (initial t)
| runs_snoc tr s ev s' : runs t tr s → step s ev s' → runs t (tr ++ [ev]) s'.

Inductive spec_runs : list event → list entry → Prop :=
| spec_runs_nil : spec_runs [] []
| spec_runs_snoc tr l ev l' : spec_runs tr l → spec_step l ev l' → spec_runs (tr ++ [ev]) l'.

Lemma runs_inv `{!MapRangeLaws} t tr s : runs t tr s → inv s.
Proof. induction 1 as [|tr s ev s' _ IH Hs]; [apply inv_initial|]. by apply (step_simulated s ev s' IH Hs). Qed.

(** C22. Contexts refine what the package documents.  Whatever goroutines create, cancel
    and abandon contexts, and whenever timers fire and contexts of other packages end,
    each operation of the package being one step:
    the errors of the contexts are those of the specification, in which a new context
    starts with the error of the context above it, and a cancellation gives its error to
    the context and to everything below it that has none yet, and changes nothing else. *)
Theorem contexts_refine `{!MapRangeLaws} t tr s : runs t tr s → spec_runs tr (abs s).
Proof.
  induction 1 as [|tr s ev s' Hr IH Hs]; [constructor|]. econstructor; [exact IH|].
  by apply (step_simulated s ev s' (runs_inv _ _ _ Hr) Hs).
Qed.

Lemma WithDeadline_ok `{!MapRangeLaws} s parent d :
  inv s → usable s parent → ∃ c w', WithDeadline (store s) parent d = Ok (c, w').
Proof.
  intros Hi Hu. unfold WithDeadline. destruct (sooner (Deadline parent) d).
  { destruct (WithCancel_ok s parent Hi Hu) as (c & w' & Hop & _). eauto. }
  destruct (timerCtx_new_ok s parent d Hi Hu) as (c & w1 & Hop & [Hi1 _]). rewrite Hop. cbn [mbind result_bind].
  destruct (arm_ok _ (length (pointers s)) c Hi1) as (w2 & Hop2 & _); [simpl; set_solver|by apply list_lookup_middle|].
  simpl in Hop2. rewrite Hop2. simpl. eauto.
Qed.

(** No operation gets stuck, in any reachable store: no mutex is locked twice or
    unlocked unlocked, no channel closed twice, no cancellation lacks its error, and the
    recursion over children ends within its fuel. *)
Theorem operations_never_stuck `{!MapRangeLaws} t tr s :
  runs t tr s →
  (∀ parent, usable s parent → ∃ c w', WithCancel (store s) parent = Ok (c, w'))
  ∧ (∀ parent d, usable s parent → ∃ c w', WithDeadline (store s) parent d = Ok (c, w'))
  ∧ (∀ a c, a ∈ arming s → pointers s !! a = Some c → ∃ w', timerCtx_arm (store s) c = Ok w')
  ∧ (∀ a c, pointers s !! a = Some c →
       (∃ w', CancelFunc (store s) c = Ok w') ∧ (∃ w', cancel (store s) c true (Some DeadlineExceeded) = Ok w'))
  ∧ (∀ parent child ch, (parent, child) ∈ watchers (store s) → Done parent = Some ch → is_closed (store s) ch = true →
       ∃ w', cancel (store s) child false (Err_ (store s) parent) = Ok w').
Proof.
  intros Hi%runs_inv. split_and!.
  - intros parent Hu. destruct (WithCancel_ok s parent Hi Hu) as (c & w' & ? & _). eauto.
  - intros parent d Hu. by apply WithDeadline_ok.
  - intros a c Ha Hc. destruct (arm_ok s a c Hi Ha Hc) as (w' & ? & _). eauto.
  - intros a c Hc. split; edestruct (simulated_cancel s a c (store s) (arming s)) as (w' & Hw' & _);
      eauto using released_unchanged.
  - intros parent child ch Hin Hd Hcl. destruct (inv_watchers _ Hi _ _ Hin) as ((parent' & ch' & Hp' & Hno & Hd') & Hp & a & Ha).
    assert (parent' = parent) as -> by congruence. rewrite (closed_foreign _ _ _ Hno Hd) in Hcl.
    apply bool_decide_eq_true_1 in Hcl as [e He]%not_eq_None_Some. rewrite He.
    destruct (simulated_watch s a child (store s) (arming s) e Hi Ha) as (w' & Hw' & _);
      [by exists parent, ch|apply released_unchanged|eauto].
Qed.

(** Who is in a map. *)
Lemma in_children_iff s b cl x c :
  inv s → cells (store s) !! b = Some cl →
  in_children cl x c ↔ err cl = None ∧ key_of c = Some x ∧ pointers s !! x.2 = Some c
    ∧ up (pointers s) x.2 = Some b ∧ cell_err (store s) x.2 = None.
Proof.
  intros Hi Hb. assert (is_Some (pointers s !! b)) as Hs.
  { apply lookup_lt_is_Some. rewrite <- (inv_sized _ Hi). by eapply lookup_lt_Some. }
  destruct (good_cell _ _ _ (inv_good _ Hi b Hs)) as (q & cl' & _ & Hcl & _ & _ & _ & _ & Hno & Hch).
  rewrite Hb in Hcl. injection Hcl as <-. destruct (err cl) as [e|]; [|rewrite Hch by done; naive_solver].
  split; [|by intros [? _]]. unfold in_children. rewrite Hno by eauto. simpl. by rewrite lookup_empty.
Qed.

(** C23. What has ended holds nothing.  In every store between whole operations a context that has ended
    has no children, no started timer and no place in the map of another, and everything
    below it has ended; and a live context is in the map of the one above it, so that
    cancellation reaches it. *)
Theorem ended_contexts_hold_nothing `{!MapRangeLaws} t tr s a c :
  runs t tr s → pointers s !! a = Some c →
  (cell_err (store s) a ≠ None →
     children <$> cells (store s) !! a = Some None ∧ timers (store s) !! a = None
     ∧ (∀ b cl x, cells (store s) !! b = Some cl → ¬ in_children cl x c)
     ∧ (∀ b, a ∈ ln (pointers s) b → cell_err (store s) b ≠ None))
  ∧ (cell_err (store s) a = None →
     ∀ p, parent_of c ≫= parentCancelCtx = Some p →
       cell_err (store s) p = None ∧ ∃ cl x, cells (store s) !! p = Some cl ∧ in_children cl x c).
Proof.
  intros Hi%runs_inv Hc. pose proof (inv_ps _ Hi) as Hps.
  pose proof (inv_good _ Hi a (mk_is_Some _ _ Hc)) as Hg.
  destruct (good_cell _ _ _ Hg) as (c' & cl & Hc' & Hcl & Hmu & Hdone & Htm & Htms & Hno & Hch).
  assert (cell_err (store s) a = err cl) as Herr by (unfold cell_err; by rewrite Hcl).
  rewrite <- (up_parent (pointers s) a c Hc). split.
  - intros Hend. rewrite Herr in Hend. split_and!.
    + rewrite Hcl. simpl. f_equal. by apply Hno, not_eq_None_Some.
    + destruct (timers (store s) !! a) eqn:Ht; [|done]. by destruct Hend; apply Htm, Htms.
    + intros b clb x Hb (_ & Hx & Hq & _ & Hl)%(in_children_iff s b clb x c Hi Hb).
      destruct (Hps _ _ Hc) as [Hk _]. rewrite Hk in Hx. injection Hx as <-. simpl in Hl. congruence.
    + intros b Hb. apply (ended_below _ Hps (store s) a b); [|by rewrite Herr|done].
      intros b' Hb'. apply (inv_good _ Hi). apply (elem_ln _ Hps) in Hb'. by destruct Hb'.
  - intros Hl p Hp. destruct (Hps _ _ Hc) as [Hk _]. destruct (up_lt _ Hps _ _ Hp) as (_ & Hps' & _).
    destruct (inv_cell s p Hi Hps') as [clp Hclp]. destruct (cell_err (store s) p) as [e|] eqn:Hpe.
    { exfalso. by apply (good_ended _ _ _ (inv_good _ Hi p Hps')) in Hp; [|rewrite Hpe]. }
    split; [done|]. eexists clp, _. split; [done|]. apply (in_children_iff s p); [done..|].
    split_and!; [unfold cell_err in Hpe; by rewrite Hclp in Hpe|exact Hk|done..].
Qed.

(** The instant a timer of [c] or of a context above it stands for. *)
Fixpoint timer_deadline c : option Z :=
  match c with
  | timerCtx _ _ d => Some d
  | cancelCtx parent _ | valueCtx parent _ _ => timer_deadline parent
  | _ => None
  end.

Lemma timer_deadline_spec ps c d :
  valid_ctx ps c → timer_deadline c = Some d →
  Deadline c = Some d ∧ ∃ a parent, ps !! a = Some (timerCtx parent a d) ∧ a ∈ line c.
Proof.
  induction c as [| |f|p IH a|p IH a d'|p IH k v]; simpl; try done.
  - intros [Hl Hv] Hd. destruct (IH Hv Hd) as (? & b & q & Hb & Hin). split; [done|]. exists b, q. split; [done|by right].
  - intros [Hl Hv] [= ->]. split; [done|]. exists a, p. split; [done|by left].
Qed.

Lemma Err_line s c : valid_ctx (pointers s) c → parentCancelCtx c ≠ None → Err_ (store s) c = inherited (store s) c.
Proof. unfold inherited. induction c; simpl; try done. Qed.

(** The deadline of what WithDeadline returns. *)
Lemma Deadline_WithDeadline w parent d c w' :
  WithDeadline w parent d = Ok (c, w') →
  Deadline c = Some (match Deadline parent with Some p => Z.min p d | None => d end).
Proof.
  unfold WithDeadline, sooner. destruct (Deadline parent) as [p|] eqn:Hp; [destruct (p <? d)%Z eqn:Hlt|].
  - unfold WithCancel. destruct (alloc w) as [a w1]. destruct (propagateCancel _ _ _); [|done]. simpl. intros [= <- _].
    simpl. rewrite Hp. f_equal. lia.
  - unfold timerCtx_new. destruct (alloc w) as [a w1]. destruct (propagateCancel _ _ _); [|done].
    cbn [mbind result_bind]. destruct (timerCtx_arm _ _); [|done]. cbn [mbind result_bind]. intros [= <- _]. simpl. f_equal. lia.
  - unfold timerCtx_new. destruct (alloc w) as [a w1]. destruct (propagateCancel _ _ _); [|done].
    cbn [mbind result_bind]. destruct (timerCtx_arm _ _); [|done]. cbn [mbind result_bind]. by intros [= <- _].
Qed.

(** Deadlines are kept.  The deadline of what WithDeadline returns is the earlier of
    the parent's and the one asked for; and in a reachable store in which the timers that
    are due have fired and their functions have run, every context below a timer whose
    deadline has passed has ended. *)
Theorem deadlines_are_kept `{!MapRangeLaws} t tr s :
  runs t tr s →
  (∀ parent d c w', WithDeadline (store s) parent d = Ok (c, w') →
     Deadline c = Some (match Deadline parent with Some p => Z.min p d | None => d end))
  ∧ (fired (store s) = ∅ → (∀ a u, timers (store s) !! a = Some u → (clock (store s) < u)%Z) →
     ∀ c d, usable s c → timer_deadline c = Some d → (d <= clock (store s))%Z →
       Deadline c = Some d ∧ Err_ (store s) c ≠ None).
Proof.
  intros Hi%runs_inv. split; [intros parent d c w'; apply Deadline_WithDeadline|].
  intros Hfd Htm c d [Hv Har] Hd Hle. destruct (timer_deadline_spec _ _ _ Hv Hd) as (HD & a & q & Ha & Hin). split; [done|].
  pose proof (inv_ps _ Hi) as Hps. rewrite (line_valid _ _ Hv) in Hin, Har.
  destruct (parentCancelCtx c) as [p|] eqn:Hp; [|by apply not_elem_of_nil in Hin].
  rewrite (Err_line s) by (done || congruence). unfold inherited. rewrite Hp.
  apply (ended_below _ Hps (store s) a p); [| |done].
  { intros b Hb. apply (inv_good _ Hi). apply (elem_ln _ Hps) in Hb. by destruct Hb. }
  intros Hl. rewrite Forall_forall in Har. destruct (inv_armed _ Hi a q d Ha (Har a Hin) Hl) as [[u Hu]|Hf].
  - destruct (inv_timers _ Hi a u Hu) as (q' & d' & Ha' & Hu'). rewrite Ha in Ha'. injection Ha' as <- <-.
    specialize (Htm a u Hu). lia.
  - rewrite Hfd in Hf. by apply not_elem_of_empty in Hf.
Qed.

End steps.

(** ** gin's context

    It implements the interface: it never ends and has no deadline; its values are the
    request, under the int 0, and the keys handlers have set. *)

Inductive ikey : Type := KInt (z : Z) | KString (s : string) | KOther (n : nat).

#[export] Instance ikey_eq_dec : EqDecision ikey.
Proof. solve_decision. Defined.

Definition gin_Value {V} (Request : V) (Keys : gomap V) (key : ikey) : option V :=
  if decide (key = KInt 0) then Some Request
  else match key with KString keyAsString => gm_get Keys keyAsString | _ => None end.

Definition gin_Context {V} (id : nat) (Request : V) (Keys : gomap V) : ctx ikey V :=
  foreignCtx (Foreign id None false (gin_Value Request Keys)).

(** A context below a request ends through its own CancelFunc and deadlines only: no
    watcher is started, and no other context lists it. *)
Lemma below_gin_Context {V} `{MapRange} (w : world ikey V) id (req : V) keys :
  ∃ w', WithCancel w (gin_Context id req keys) = Ok (cancelCtx (gin_Context id req keys) (length (cells w)), w')
    ∧ watchers w' = watchers w ∧ ∀ a, a < length (cells w) → cells w' !! a = cells w !! a.
Proof. eexists. split; [done|]. split; [done|]. intros a Ha. simpl. by rewrite lookup_app_l. Qed.

(** ** A run

    A handler derives a context with a deadline from its request, a value below it and a
    context below that; the deadline passes; the handler returns. *)

Section demo.

Local Existing Instance list_MapRange.

Definition demo_request : ctx ikey string := gin_Context 0 "GET /namespaces" (Some {["user" := "admin"]}).
Definition demo_world : world ikey string := store (initial 0).

Definition after {A} (d : A) (r : result stuck A) : A := match r with Ok x => x | Err _ => d end.

Definition demo_1 := after (todo, demo_world) (WithCancel demo_world demo_request).
Definition demo_2 := after (todo, demo_world) (timerCtx_new demo_1.2 demo_1.1 100).
Definition demo_3 := after demo_world (timerCtx_arm demo_2.2 demo_2.1).
Definition demo_value := WithValue demo_2.1 (KString "trace") "7".
Definition demo_4 := after (todo, demo_world) (WithCancel demo_3 demo_value).
Definition demo_5 := set_clock 100 demo_4.2.
Definition demo_6 := set_fired ({[1]} ∪ fired demo_5) (set_timers (delete 1 (timers demo_5)) demo_5).
Definition demo_7 := after demo_world (cancel (set_fired (fired demo_6 ∖ {[1]}) demo_6) demo_2.1 true (Some DeadlineExceeded)).
Definition demo_8 := after demo_world (CancelFunc demo_7 demo_1.1).

Definition demo_pointers : list (ctx ikey string) := [demo_1.1; demo_2.1; demo_4.1].

(** The contexts and their errors while the deadline has not passed, and at the end. *)
Example demo_errors :
  map (cell_err demo_4.2) [0; 1; 2] = [None; None; None]
  ∧ map (cell_err demo_7) [0; 1; 2] = [None; Some DeadlineExceeded; Some DeadlineExceeded]
  ∧ map (cell_err demo_8) [0; 1; 2] = [Some Canceled; Some DeadlineExceeded; Some DeadlineExceeded]
  ∧ Value demo_4.1 (KString "trace") = Some "7" ∧ Value demo_4.1 (KString "user") = Some "admin".
Proof. vm_compute. done. Qed.

Lemma demo_usable (w : world ikey string) ps ar c :
  forallb (λ a, negb (bool_decide (a ∈ ar))) (line c) = true → valid_ctx ps c → usable (State w ps ar) c.
Proof.
  intros Hl Hv. split; [done|]. apply Forall_forall. intros a Ha. rewrite forallb_forall in Hl.
  specialize (Hl a (proj1 (list_elem_of_In _ _) Ha)). by case_bool_decide.
Qed.

Definition demo_trace : list event :=
  [New demo_1.1; New demo_2.1; Silent; New demo_4.1; Silent; Silent; Cancel 1 DeadlineExceeded].

Lemma runs_step t tr (s s' s1 : @state ikey string) ev tr1 :
  runs t tr s → step s ev s' → tr1 = tr ++ [ev] → s1 = s' → runs t tr1 s1.
Proof. intros Hr Hs -> ->. by econstructor. Qed.

Ltac demo_step :=
  match goal with
  | |- usable _ _ => apply demo_usable; vm_compute; tauto
  | |- _ => by vm_compute
  end.

Lemma demo_runs : runs 0 demo_trace (State demo_7 demo_pointers ∅).
Proof.
  assert (runs 0 [New demo_1.1] (State demo_1.2 [demo_1.1] ∅)) as H1.
  { eapply runs_step; [apply runs_nil|apply (step_WithCancel _ [] _ demo_request)|..]; demo_step. }
  assert (runs 0 (take 2 demo_trace) (State demo_2.2 (take 2 demo_pointers) {[1]})) as H2.
  { eapply runs_step; [exact H1|apply (step_timerCtx_new _ _ _ demo_1.1 100)|..]; demo_step. }
  assert (runs 0 (take 3 demo_trace) (State demo_3 (take 2 demo_pointers) ∅)) as H3.
  { eapply runs_step; [exact H2|apply (step_timerCtx_arm _ _ _ 1 demo_2.1 demo_3)|..]; demo_step. }
  assert (runs 0 (take 4 demo_trace) (State demo_4.2 demo_pointers ∅)) as H4.
  { eapply runs_step; [exact H3|apply (step_WithCancel _ _ _ demo_value)|..]; demo_step. }
  assert (runs 0 (take 5 demo_trace) (State demo_5 demo_pointers ∅)) as H5.
  { eapply runs_step; [exact H4|apply (step_clock _ _ _ 100)|..]; demo_step. }
  assert (runs 0 (take 6 demo_trace) (State demo_6 demo_pointers ∅)) as H6.
  { eapply runs_step; [exact H5|apply (step_fire _ _ _ 1 100)|..]; demo_step. }
  eapply runs_step; [exact H6|apply (step_fired _ _ _ 1 demo_2.1 demo_7)|..]; demo_step.
Qed.

Local Existing Instance list_MapRangeLaws.

Definition demo_state : @state ikey string := State demo_7 demo_pointers ∅.

Lemma contexts_refine_witness :
  spec_runs demo_trace (abs demo_state)
  ∧ abs demo_state = [([0], None); ([1; 0], Some DeadlineExceeded); ([2; 1; 0], Some DeadlineExceeded)].
Proof. split; [exact (contexts_refine 0 demo_trace demo_state demo_runs)|by vm_compute]. Defined.

Lemma operations_never_stuck_witness :
  (∃ w', CancelFunc (store demo_state) demo_1.1 = Ok w') ∧ (∃ c w', WithDeadline (store demo_state) demo_value 50 = Ok (c, w')).
Proof.
  destruct (operations_never_stuck 0 demo_trace demo_state demo_runs) as (_ & Hd & _ & Hc & _). split.
  - refine (proj1 (Hc 0 demo_1.1 _)). by vm_compute.
  - refine (Hd demo_value 50%Z _). unfold demo_state. demo_step.
Defined.

Lemma ended_contexts_hold_nothing_witness :
  timers (store demo_state) !! 1 = None ∧ cell_err (store demo_state) 2 ≠ None.
Proof.
  destruct (ended_contexts_hold_nothing 0 demo_trace demo_state 1 demo_2.1 demo_runs) as [He _]; [by vm_compute|].
  destruct He as (_ & Ht & _ & Hb); [by vm_compute|]. split; [exact Ht|apply Hb]. vm_compute. right. left.
Defined.

Lemma deadlines_are_kept_witness :
  Deadline demo_4.1 = Some 100%Z ∧ Err_ (store demo_state) demo_4.1 ≠ None
  ∧ (∀ c w', WithDeadline (store demo_state) demo_value 500 = Ok (c, w') → Deadline c = Some 100%Z).
Proof.
  destruct (deadlines_are_kept 0 demo_trace demo_state demo_runs) as [Hm Hd].
  destruct (Hd ltac:(by vm_compute) ltac:(intros a u Hu; by vm_compute in Hu) demo_4.1 100%Z) as [H1 H2];
    [unfold demo_state; demo_step|by vm_compute|by vm_compute|].
  split_and!; [exact H1|exact H2|]. intros c w' Hop. exact (Hm demo_value 500%Z c w' Hop).
Defined.

End demo.
