(* ===== verification/KubeUtil.v ===== *)
(** * Package kube: pkg/kube/util.go

    Filters of pods and events, totals of resource requests and limits, and the
    texts the console shows for ages, services, ports and endpoints. *)

From stdpp Require Import prelude gmap strings numbers.
From Stdlib Require Import ZArith NArith Ascii QArith Qcanon.
From S2P Require Import Prelude GoStrings GoSort Float64 Api.
Local Close Scope Qc_scope.
Local Close Scope Q_scope.

Section util.
Context `{K : KubeApi, MR : MapRange, PF : Platform}.
Local Open Scope Z_scope.

Definition FilterEventsFromNode (events : list api.Event) (node : api.Node) : list api.Event :=
  filter (λ ev, api.Source_Host ev = api.Name (api.Node_ObjectMeta node)
                ∧ api.Ref_Kind (api.InvolvedObject ev) ≠ "Node") events.

Definition FilterNodePods (pods : list api.Pod) (node : api.Node) : list api.Pod :=
  filter (λ pod, api.NodeName (api.Pod_Spec pod) = api.Name (api.Node_ObjectMeta node)) pods.

Definition is_terminated (pod : api.Pod) : bool :=
  bool_decide (api.Phase (api.Pod_Status pod) = PodSucceeded)
  || bool_decide (api.Phase (api.Pod_Status pod) = PodFailed).

(** One pass with two result slices. *)
Fixpoint FilterTerminatedPods (pods : list api.Pod) : list api.Pod * list api.Pod :=
  match pods with
  | [] => ([], [])
  | pod :: pods =>
      let '(terminated, nonTerminated) := FilterTerminatedPods pods in
      if is_terminated pod then (pod :: terminated, nonTerminated)
      else (terminated, pod :: nonTerminated)
  end.

(** ** Totals *)

(** One entry of a range loop: a first occurrence is copied into the map, a later
    one is added to a copy of the entry. *)
Definition add_quantity (m : gmap string Quantity) (entry : string * Quantity) :
    result string (gmap string Quantity) :=
  let '(name, quantity) := entry in
  match m !! name with
  | None => Ok (<[name := Quantity_Copy quantity]> m)
  | Some value =>
      match Quantity_Add value quantity with
      | (_, Some err) => Err err
      | (_, None) => Ok (<[name := Quantity_AddToCopy value quantity]> m)
      end
  end.

Fixpoint add_entries (m : gmap string Quantity) (entries : list (string * Quantity)) :
    result string (gmap string Quantity) :=
  match entries with
  | [] => Ok m
  | e :: entries => m ← add_quantity m e; add_entries m entries
  end.

Definition add_resources (m : gmap string Quantity) (l : gomap Quantity) :
    result string (gmap string Quantity) :=
  add_entries m (map_range (gm_entries l)).

Definition totals : Type := gmap string Quantity * gmap string Quantity.

Fixpoint add_containers (t : totals) (cs : list api.Container) : result string totals :=
  match cs with
  | [] => Ok t
  | container :: cs =>
      reqs ← add_resources t.1 (api.Requests container);
      limits ← add_resources t.2 (api.Limits container);
      add_containers (reqs, limits) cs
  end.

Definition GetSinglePodTotalRequestsAndLimits (pod : api.Pod) : result string totals :=
  add_containers (∅, ∅) (api.Containers (api.Pod_Spec pod)).

Fixpoint add_pods (t : totals) (pods : list api.Pod) : result string totals :=
  match pods with
  | [] => Ok t
  | pod :: pods =>
      p ← GetSinglePodTotalRequestsAndLimits pod;
      reqs ← add_resources t.1 (Some p.1);
      limits ← add_resources t.2 (Some p.2);
      add_pods (reqs, limits) pods
  end.

Definition GetPodsTotalRequestsAndLimits (pods : list api.Pod) : result string totals :=
  add_pods (∅, ∅) pods.

(** ** Texts *)

Definition shortHumanDuration (d : Z) : string :=
  let seconds := int64_of_float (Seconds d) in
  if seconds <? -1 then "<invalid>"
  else if seconds <? 0 then "0s"
  else if seconds <? 60 then FormatInt seconds +:+ "s"
  else
    let minutes := int64_of_float (Minutes d) in
    if minutes <? 60 then FormatInt minutes +:+ "m"
    else
      let hours := int64_of_float (Hours d) in
      if hours <? 24 then FormatInt hours +:+ "h"
      else if hours <? 24 * 364 then FormatInt (Z.quot hours 24) +:+ "d"
      else FormatInt (int64_of_float
             (f64_div (f64_div (Hours d) (float64_of_int 24)) (float64_of_int 365))) +:+ "y".

(** [now] is what time.Now returned. *)
Definition TranslateTimestamp (now timestamp : Time) : string :=
  if timestamp =? 0 then "<unknown>" else shortHumanDuration (Sub now timestamp).

Definition TranslateResourseList (resourceList : gomap Quantity) : gomap string :=
  Some (Quantity_String <$> gm_entries resourceList).

(** The IPs of the ingress points that have one. *)
Definition loadBalancerStatusStringer (ingress : list string) : string :=
  Join (filter (λ ip, ip ≠ "") ingress) ",".

Definition GetServiceExternalIP (svc : api.Service) : string :=
  let type := api.Service_Type svc in
  let external := api.ExternalIPs svc in
  if bool_decide (type = ServiceTypeClusterIP) then
    if Nat.ltb 0 (length external) then Join external "," else ""
  else if bool_decide (type = ServiceTypeNodePort) then
    if Nat.ltb 0 (length external) then Join external "," else "nodes"
  else if bool_decide (type = ServiceTypeLoadBalancer) then
    let lbIps := loadBalancerStatusStringer (api.Ingress_IPs svc) in
    if Nat.ltb 0 (length external) then Join (Split lbIps "," ++ external) "," else lbIps
  else "unknown".

Definition MakePorts (ports : list api.ServicePort) : list string :=
  (λ port, TrimSuffix (FormatInt (api.ServicePort_Port port) +:+ "/" +:+ api.ServicePort_Protocol port) "/TCP")
  <$> ports.

(** The state of the three nested loops of FormatEndpoints. *)
Record ep_state : Type := mkEp { ep_list : list string; ep_more : bool; ep_count : Z }.

Definition ep_max : nat := 3.

Definition visit_address (port : api.EndpointPort) (st : ep_state) (ip : string) : ep_state :=
  let more := ep_more st || Nat.eqb (length (ep_list st)) ep_max in
  let list := if more then ep_list st
              else ep_list st ++ [ip +:+ ":" +:+ FormatInt (api.EndpointPort_Port port)] in
  mkEp list more (ep_count st + 1).

Definition visit_port (ports : option (gset string)) (addresses : list string)
    (st : ep_state) (port : api.EndpointPort) : ep_state :=
  if match ports with None => true | Some s => bool_decide (api.EndpointPort_Name port ∈ s) end
  then foldl (visit_address port) st addresses else st.

Definition visit_subset (ports : option (gset string)) (st : ep_state) (ss : api.EndpointSubset) : ep_state :=
  foldl (visit_port ports (api.Addresses ss)) st (api.Subset_Ports ss).

(** [ports = None] stands for the nil set: all ports. *)
Definition FormatEndpoints (endpoints : api.Endpoints) (ports : option (gset string)) : string :=
  if Nat.eqb (length (api.Subsets endpoints)) 0 then ""
  else
    let st := foldl (visit_subset ports) (mkEp [] false 0) (api.Subsets endpoints) in
    let ret := Join (ep_list st) "," in
    if ep_more st then ret +:+ " + " +:+ FormatInt (ep_count st - Z.of_nat ep_max) +:+ " more..."
    else ret.

End util.

(** ** Sums of amounts *)

Definition qsum {A} (f : A → Qc) (l : list A) : Qc := foldr (λ x acc, (f x + acc)%Qc) 0%Qc l.

Lemma qsum_perm {A} (f : A → Qc) l k : l ≡ₚ k → qsum f l = qsum f k.
Proof. induction 1; simpl; [done|congruence|ring|congruence]. Qed.

Lemma qsum_app {A} (f : A → Qc) l k : qsum f (l ++ k) = (qsum f l + qsum f k)%Qc.
Proof. induction l as [|x l IH]; simpl; [ring|]. rewrite IH. ring. Qed.

Section totals.
Context `{K : KubeApi, MR : MapRange, HMR : !MapRangeLaws}.
Context (amount : Quantity → Qc) `{!QuantityLaws amount}.

(** The amount a map holds under a name, zero when absent. *)
Definition amount_at (m : gmap string Quantity) (name : string) : Qc :=
  match m !! name with Some q => amount q | None => 0%Qc end.

Definition entry_amount (name : string) (e : string * Quantity) : Qc :=
  if decide (e.1 = name) then amount e.2 else 0%Qc.

Lemma add_quantity_amount m e m' name :
  add_quantity m e = Ok m' → amount_at m' name = (amount_at m name + entry_amount name e)%Qc.
Proof.
  destruct e as [n q]. unfold add_quantity, amount_at, entry_amount; simpl.
  destruct (m !! n) as [v|] eqn:E; [destruct (Quantity_Add v q) as [q' [err|]] eqn:EA|];
    intros H; go_inv; case_decide as Hn; simplify_map_eq; try ring.
  - by rewrite (amount_shared _ _ _ EA), (amount_Add _ _ _ EA).
  - rewrite amount_Copy. ring.
Qed.

Lemma add_entries_amount entries m m' name :
  add_entries m entries = Ok m' → amount_at m' name = (amount_at m name + qsum (entry_amount name) entries)%Qc.
Proof.
  revert m. induction entries as [|e entries IH]; intros m H; simpl in *; go_inv; [ring|].
  destruct (add_quantity m e) as [m1|] eqn:E; simpl in *; [|done].
  rewrite (IH _ H), (add_quantity_amount _ _ _ _ E). ring.
Qed.

Lemma qsum_map_to_list (m : gmap string Quantity) name :
  qsum (entry_amount name) (map_to_list m) = amount_at m name.
Proof.
  induction m as [|n q m Hn IH] using map_ind.
  { rewrite map_to_list_empty. unfold amount_at. by rewrite lookup_empty. }
  rewrite (qsum_perm _ _ _ (map_to_list_insert _ _ _ Hn)). simpl. rewrite IH.
  unfold amount_at, entry_amount; simpl. case_decide; simplify_map_eq; [|ring]. ring.
Qed.

Lemma add_resources_amount m l m' name :
  add_resources m l = Ok m' → amount_at m' name = (amount_at m name + amount_at (gm_entries l) name)%Qc.
Proof.
  unfold add_resources. intros H. rewrite (add_entries_amount _ _ _ _ H).
  by rewrite (qsum_perm _ _ _ (map_range_perm _)), qsum_map_to_list.
Qed.

(** What the containers of a pod ask for, and may use, of a resource. *)
Definition container_requests (name : string) (cs : list api.Container) : Qc :=
  qsum (λ c, amount_at (gm_entries (api.Requests c)) name) cs.
Definition container_limits (name : string) (cs : list api.Container) : Qc :=
  qsum (λ c, amount_at (gm_entries (api.Limits c)) name) cs.

Lemma add_containers_amount cs t t' name :
  add_containers t cs = Ok t' →
  amount_at t'.1 name = (amount_at t.1 name + container_requests name cs)%Qc
  ∧ amount_at t'.2 name = (amount_at t.2 name + container_limits name cs)%Qc.
Proof.
  revert t. induction cs as [|c cs IH]; intros t H; simpl in *; go_inv; [split; ring|].
  destruct (add_resources t.1 (api.Requests c)) as [r|] eqn:E1; simpl in *; [|done].
  destruct (add_resources t.2 (api.Limits c)) as [l|] eqn:E2; simpl in *; [|done].
  destruct (IH _ H) as [-> ->]; simpl.
  rewrite (add_resources_amount _ _ _ _ E1), (add_resources_amount _ _ _ _ E2). split; ring.
Qed.

Definition pod_requests (name : string) (pod : api.Pod) : Qc :=
  container_requests name (api.Containers (api.Pod_Spec pod)).
Definition pod_limits (name : string) (pod : api.Pod) : Qc :=
  container_limits name (api.Containers (api.Pod_Spec pod)).

Lemma amount_at_empty name : amount_at ∅ name = 0%Qc.
Proof. unfold amount_at. by rewrite lookup_empty. Qed.

Lemma single_pod_amount pod t name :
  GetSinglePodTotalRequestsAndLimits pod = Ok t →
  amount_at t.1 name = pod_requests name pod ∧ amount_at t.2 name = pod_limits name pod.
Proof.
  intros H. destruct (add_containers_amount _ _ _ name H) as [-> ->]; simpl.
  rewrite amount_at_empty. split; unfold pod_requests, pod_limits; ring.
Qed.

Lemma add_pods_amount pods t t' name :
  add_pods t pods = Ok t' →
  amount_at t'.1 name = (amount_at t.1 name + qsum (pod_requests name) pods)%Qc
  ∧ amount_at t'.2 name = (amount_at t.2 name + qsum (pod_limits name) pods)%Qc.
Proof.
  revert t. induction pods as [|p pods IH]; intros t H; simpl in *; go_inv; [split; ring|].
  destruct (GetSinglePodTotalRequestsAndLimits p) as [tp|] eqn:Ep; simpl in *; [|done].
  destruct (add_resources t.1 (Some tp.1)) as [r|] eqn:E1; simpl in *; [|done].
  destruct (add_resources t.2 (Some tp.2)) as [l|] eqn:E2; simpl in *; [|done].
  destruct (IH _ H) as [-> ->]; simpl.
  rewrite (add_resources_amount _ _ _ _ E1), (add_resources_amount _ _ _ _ E2). simpl.
  destruct (single_pod_amount _ _ name Ep) as [-> ->]. split; ring.
Qed.

(** C26. The totals shown for a node are the sums over its pods and their
    containers: for every resource name, the amount in the request (limit) map is
    the sum of the requests (limits) of all containers of all pods. *)
Theorem GetPodsTotalRequestsAndLimits_sum pods reqs limits :
  GetPodsTotalRequestsAndLimits pods = Ok (reqs, limits) →
  ∀ name, amount_at reqs name = qsum (pod_requests name) pods
          ∧ amount_at limits name = qsum (pod_limits name) pods.
Proof.
  intros H name. destruct (add_pods_amount _ _ _ name H) as [Hr Hl]; simpl in *.
  rewrite Hr, Hl, amount_at_empty. split; ring.
Qed.

(** ** When the totals exist *)

Section no_error.
Hypothesis Add_ok : ∀ q y, (Quantity_Add q y).2 = None.

Lemma add_entries_ok entries m : ∃ m', add_entries m entries = Ok m'.
Proof.
  revert m. induction entries as [|[n q] entries IH]; intros m; simpl; [by eexists|].
  destruct (m !! n) as [v|]; [|apply IH].
  pose proof (Add_ok v q). destruct (Quantity_Add v q) as [? [?|]]; [done|]. apply IH.
Qed.

Lemma single_pod_ok pod : ∃ t, GetSinglePodTotalRequestsAndLimits pod = Ok t.
Proof.
  unfold GetSinglePodTotalRequestsAndLimits. generalize ((∅, ∅) : totals).
  induction (api.Containers (api.Pod_Spec pod)) as [|c cs IH]; intros t; simpl; [by eexists|].
  unfold add_resources.
  destruct (add_entries_ok (map_range (gm_entries (api.Requests c))) t.1) as [r ->].
  destruct (add_entries_ok (map_range (gm_entries (api.Limits c))) t.2) as [l ->]. apply IH.
Qed.

(** The totals exist whenever no single addition of two quantities fails: the
    only error the two loops can return is one of Quantity.Add. *)
Lemma GetPodsTotalRequestsAndLimits_total pods :
  ∃ t, GetPodsTotalRequestsAndLimits pods = Ok t.
Proof.
  unfold GetPodsTotalRequestsAndLimits. generalize ((∅, ∅) : totals).
  induction pods as [|p pods IH]; intros t; simpl; [by eexists|].
  destruct (single_pod_ok p) as [tp ->]. simpl. unfold add_resources.
  destruct (add_entries_ok (map_range (gm_entries (Some tp.1))) t.1) as [r ->].
  destruct (add_entries_ok (map_range (gm_entries (Some tp.2))) t.2) as [l ->]. apply IH.
Qed.
End no_error.
End totals.

(** ** Pods of a node *)

Section filters.
Context `{K : KubeApi}.

Lemma FilterTerminatedPods_filter pods :
  FilterTerminatedPods pods
  = (filter (λ p, is_terminated p = true) pods, filter (λ p, is_terminated p = false) pods).
Proof.
  induction pods as [|p pods IH]; [done|]. simpl. rewrite IH, !filter_cons.
  destruct (is_terminated p); done.
Qed.

Lemma partition_perm {A} (f : A → bool) (l : list A) :
  filter (λ x, f x = true) l ++ filter (λ x, f x = false) l ≡ₚ l.
Proof.
  induction l as [|x l IH]; [done|]. rewrite !filter_cons. destruct (f x); simpl.
  - by rewrite IH.
  - by rewrite <- Permutation_middle, IH.
Qed.

(** Splitting the pods of a node into terminated and running ones loses and
    duplicates nothing and keeps the order on each side; the terminated ones are
    those whose phase is Succeeded or Failed. *)
Theorem FilterTerminatedPods_partition pods terminated nonTerminated :
  FilterTerminatedPods pods = (terminated, nonTerminated) →
  terminated ++ nonTerminated ≡ₚ pods
  ∧ sublist terminated pods ∧ sublist nonTerminated pods
  ∧ (∀ p, p ∈ terminated →
       api.Phase (api.Pod_Status p) = PodSucceeded ∨ api.Phase (api.Pod_Status p) = PodFailed)
  ∧ (∀ p, p ∈ nonTerminated →
       api.Phase (api.Pod_Status p) ≠ PodSucceeded ∧ api.Phase (api.Pod_Status p) ≠ PodFailed).
Proof.
  rewrite FilterTerminatedPods_filter. intros [= <- <-].
  split_and!; [apply partition_perm|apply sublist_filter|apply sublist_filter|..];
    intros p [Hp _]%list_elem_of_filter; unfold is_terminated in Hp;
    repeat case_bool_decide; simpl in *; naive_solver.
Qed.

End filters.

(** ** Endpoints *)

Section endpoints.
Context `{K : KubeApi}.

(** All the endpoints of an object, in order: for each subset, for each selected
    port, each address. *)
Definition selected (ports : option (gset string)) (port : api.EndpointPort) : bool :=
  match ports with None => true | Some s => bool_decide (api.EndpointPort_Name port ∈ s) end.

Definition subset_endpoints (ports : option (gset string)) (ss : api.EndpointSubset) : list string :=
  port ← filter (λ port, selected ports port = true) (api.Subset_Ports ss);
  (λ ip, ip +:+ ":" +:+ FormatInt (api.EndpointPort_Port port)) <$> api.Addresses ss.

Definition all_endpoints (ports : option (gset string)) (ep : api.Endpoints) : list string :=
  ss ← api.Subsets ep; subset_endpoints ports ss.

(** The loop state after the endpoints [seen]. *)
Definition ep_after (seen : list string) : ep_state :=
  mkEp (take ep_max seen) (Nat.ltb ep_max (length seen)) (Z.of_nat (length seen)).

Lemma visit_address_after port seen ip :
  visit_address port (ep_after seen) ip
  = ep_after (seen ++ [ip +:+ ":" +:+ FormatInt (api.EndpointPort_Port port)]).
Proof.
  unfold visit_address, ep_after, ep_max. cbn [ep_list ep_more ep_count].
  rewrite length_app, length_take. simpl length.
  destruct (Nat.ltb_spec 3 (length seen)) as [H1|H1].
  - rewrite (proj2 (Nat.ltb_lt _ _)) by lia. simpl orb. cbv iota.
    f_equal; [|lia]. rewrite take_app_le by lia. done.
  - destruct (decide (length seen = 3)) as [He|Hne].
    + rewrite He. simpl orb. cbv iota. f_equal. rewrite take_app_le by lia. done.
    + replace (Nat.min 3 (length seen)) with (length seen) by lia.
      rewrite (proj2 (Nat.eqb_neq _ _)) by done. rewrite (proj2 (Nat.ltb_ge _ _)) by lia.
      simpl orb. cbv iota. f_equal; [|lia].
      rewrite !take_ge; [done|rewrite length_app; simpl; lia|lia].
Qed.

Lemma foldl_after {A} (f : ep_state → A → ep_state) (g : A → list string) l seen :
  (∀ seen x, f (ep_after seen) x = ep_after (seen ++ g x)) →
  foldl f (ep_after seen) l = ep_after (seen ++ (x ← l; g x)).
Proof.
  intros Hf. revert seen. induction l as [|x l IH]; intros seen; simpl; [by rewrite app_nil_r|].
  by rewrite Hf, IH, app_assoc.
Qed.

Lemma visit_subset_after ports seen ss :
  visit_subset ports (ep_after seen) ss = ep_after (seen ++ subset_endpoints ports ss).
Proof.
  unfold visit_subset, subset_endpoints.
  rewrite (foldl_after _ (λ port, if selected ports port
    then (λ ip, ip +:+ ":" +:+ FormatInt (api.EndpointPort_Port port)) <$> api.Addresses ss else [])).
  - by rewrite bind_filter.
  - intros seen' p. unfold visit_port. fold (selected ports p).
    destruct (selected ports p); [|by rewrite app_nil_r].
    rewrite (foldl_after _ (λ ip, [ip +:+ ":" +:+ FormatInt (api.EndpointPort_Port p)])).
    + by rewrite bind_singleton_fmap.
    + intros seen'' ip. apply visit_address_after.
Qed.

(** FormatEndpoints shows the first three endpoints (of the selected ports)
    joined by commas and, when there are more, how many are left out: the count in
    "+ n more..." is the number of endpoints minus three. *)
Theorem FormatEndpoints_spec ep ports :
  let all := all_endpoints ports ep in
  FormatEndpoints ep ports
  = if Nat.leb (length all) 3 then Join all ","
    else Join (take 3 all) "," +:+ " + " +:+ FormatInt (Z.of_nat (length all - 3)) +:+ " more...".
Proof.
  unfold FormatEndpoints, all_endpoints.
  change (mkEp [] false 0) with (ep_after []).
  rewrite (foldl_after _ (subset_endpoints ports)) by apply visit_subset_after. simpl app.
  destruct (Nat.eqb_spec (length (api.Subsets ep)) 0) as [H|H].
  { by destruct (api.Subsets ep). }
  set (all := api.Subsets ep ≫= subset_endpoints ports).
  unfold ep_after. cbn [ep_list ep_more ep_count]. unfold ep_max.
  destruct (Nat.ltb_spec 3 (length all)) as [Hl|Hl].
  - rewrite (proj2 (Nat.leb_gt _ _)) by lia. by rewrite Nat2Z.inj_sub by lia.
  - rewrite (proj2 (Nat.leb_le _ _)) by lia. by rewrite take_ge by lia.
Qed.

(** ** Services *)

(** The port column of a service shows a TCP port as its number alone and a
    port of any other protocol as number/protocol. *)
Lemma MakePorts_spec ports :
  Forall (λ port, sfree "/" (api.ServicePort_Protocol port) = true) ports →
  MakePorts ports =
  (λ port, if decide (api.ServicePort_Protocol port = "TCP")
           then FormatInt (api.ServicePort_Port port)
           else FormatInt (api.ServicePort_Port port) +:+ "/" +:+ api.ServicePort_Protocol port) <$> ports.
Proof.
  unfold MakePorts. induction 1 as [|p ports Hp _ IH]; [done|].
  rewrite !fmap_cons, IH. f_equal. case_decide as Ht.
  - rewrite Ht. apply (TrimSuffix_app _ "/TCP").
  - unfold TrimSuffix. destruct (HasSuffix _ _) eqn:Hs; [|done].
    apply HasSuffix_spec in Hs as [t Heq].
    destruct Ht. by apply (last_cut_inj _ t _ "TCP" "/" Heq).
Qed.

(** A load-balanced service that has external IPs but no ingress IP yet is
    shown with a leading comma: the empty text splits into one empty piece, which
    is joined in front of the external IPs. *)
Theorem GetServiceExternalIP_leading_comma svc :
  api.Service_Type svc = ServiceTypeLoadBalancer →
  ServiceTypeLoadBalancer ≠ ServiceTypeClusterIP →
  ServiceTypeLoadBalancer ≠ ServiceTypeNodePort →
  Forall (λ ip, ip = "") (api.Ingress_IPs svc) →
  api.ExternalIPs svc ≠ [] →
  GetServiceExternalIP svc = "," +:+ Join (api.ExternalIPs svc) ",".
Proof.
  intros Ht H1 H2 Hing Hext. unfold GetServiceExternalIP, loadBalancerStatusStringer.
  rewrite Ht, !bool_decide_eq_false_2, bool_decide_eq_true_2 by done.
  rewrite list_filter_nil by (eapply List.Forall_impl; [|exact Hing]; by intros ? -> []).
  destruct (api.ExternalIPs svc) as [|e l]; [done|]. simpl length. cbv [Nat.ltb Nat.leb].
  apply (Join_cons "" (e :: l) ","). done.
Qed.

End endpoints.

(** ** Ages *)

(** An object between 364 and 365 days old is shown as "0y" old: the day range
    ends at 24*364 hours while a year is 365 days. *)
Theorem shortHumanDuration_zero_years `{Platform} :
  shortHumanDuration (364 * 24 * Hour) = "0y"
  ∧ shortHumanDuration (364 * 24 * Hour + 23 * Hour) = "0y"
  ∧ shortHumanDuration (363 * 24 * Hour) = "363d"
  ∧ shortHumanDuration (365 * 24 * Hour) = "1y".
Proof. split_and!; vm_compute; reflexivity. Qed.

(** ** Witnesses *)

Definition demo_container (requests : gmap string Z) : @api.Container demo_KubeApi :=
  @api.mkContainer demo_KubeApi "c" "img:1.0.0" [] (Some requests) None ∅.

Definition demo_pod (phase : string) (cs : list (@api.Container demo_KubeApi)) : @api.Pod demo_KubeApi :=
  @api.mkPod demo_KubeApi (api.mkObjectMeta "p" "" "default" "1" 5%Z None None None ∅)
    (@api.mkPodSpec demo_KubeApi cs "node-1" false ∅)
    (api.mkPodStatus phase [] "" "" "" [] ∅).

Definition demo_pods : list (@api.Pod demo_KubeApi) :=
  [demo_pod "Running" [demo_container {["cpu" := 250%Z]}; demo_container {["cpu" := 500%Z]}];
   demo_pod "Failed" [demo_container {["cpu" := 100%Z]}]].

Definition demo_reqs : gmap string Z := {["cpu" := 850%Z]}.
Definition demo_limits : gmap string Z := ∅.

Lemma GetPodsTotalRequestsAndLimits_sum_witness :
  @GetPodsTotalRequestsAndLimits demo_KubeApi list_MapRange demo_pods = Ok (demo_reqs, demo_limits)
  ∧ @amount_at demo_KubeApi (λ q : Z, Q2Qc (inject_Z q)) demo_reqs "cpu"
    = qsum (@pod_requests demo_KubeApi (λ q : Z, Q2Qc (inject_Z q)) "cpu") demo_pods.
Proof.
  split; [vm_compute; reflexivity|].
  exact (proj1 (@GetPodsTotalRequestsAndLimits_sum demo_KubeApi list_MapRange list_MapRangeLaws
    _ demo_QuantityLaws demo_pods demo_reqs demo_limits ltac:(vm_compute; reflexivity) "cpu")).
Defined.

Lemma FilterTerminatedPods_partition_witness :
  [demo_pod "Failed" []] ++ [demo_pod "Running" []]
  ≡ₚ [demo_pod "Running" []; demo_pod "Failed" []].
Proof.
  exact (proj1 (@FilterTerminatedPods_partition demo_KubeApi
    [demo_pod "Running" []; demo_pod "Failed" []] [demo_pod "Failed" []] [demo_pod "Running" []] eq_refl)).
Defined.

Lemma GetServiceExternalIP_leading_comma_witness :
  @GetServiceExternalIP demo_KubeApi
    (api.mkService api.ObjectMeta_zero "LoadBalancer" "10.0.0.1" ["1.2.3.4"] [] None [] ∅) = ",1.2.3.4".
Proof.
  exact (@GetServiceExternalIP_leading_comma demo_KubeApi
    (api.mkService api.ObjectMeta_zero "LoadBalancer" "10.0.0.1" ["1.2.3.4"] [] None [] ∅)
    eq_refl ltac:(discriminate) ltac:(discriminate) ltac:(repeat constructor) ltac:(discriminate)).
Defined.
