(* ===== verification/Ages.v ===== *)
(** * The ages of pkg/kube/util.go

    [shortHumanDuration] computes in float64.  Its text is that of exact arithmetic for
    every duration below thirteen days, and for every longer one that of a duration a
    few microseconds away. *)

From stdpp Require Import prelude strings.
From Stdlib Require Import ZArith Lia.
From Corelib Require Import SpecFloat.
From S2P Require Import Prelude GoStrings GoSort Float64 FloatRound Api KubeUtil.

Local Open Scope Z_scope.

(** ** Units *)

Section units.
Context (sx : bool) (u : Z) (Hu : 2 ^ 29 <= u < 2 ^ 43).

(** A part of a unit. *)
Lemma fraction_near f :
  0 < f < u → ∃ v, rep sx (f64_div (float64_of_int (cond_Zopp sx f)) (float64_of_int u)) v
    ∧ 2 ^ 53 * Z.abs (v * u - f * P) <= v * u ∧ 2 ^ 60 <= v <= 2 * P.
Proof.
  intros Hf. destruct (rep_div sx _ _ _ _ (rep_of_int sx f ltac:(lia)) (rep_of_int false u ltac:(lia))) as (v & Hv & Hn);
    [unfold P; lia..|].
  assert (2 ^ 53 * Z.abs (v * u - f * P) <= v * u) as Hn'.
  { replace (v * (u * P) - f * P * P) with ((v * u - f * P) * P) in Hn by ring. replace (v * (u * P)) with (v * u * P) in Hn by ring.
    rewrite Z.abs_mul, (Z.abs_eq P), Z.mul_assoc in Hn by (unfold P; lia). by apply Z.mul_le_mono_pos_r in Hn; [|unfold P; lia]. }
  exists v. split_and!; [done|done|..].
  - destruct (Z.le_gt_cases (2 ^ 60) v) as [?|Hlt]; [done|exfalso]. assert (v * u <= 2 ^ 103) by nia. unfold P in *. lia.
  - destruct (Z.le_gt_cases v (2 * P)) as [?|Hlt]; [done|exfalso]. assert (2 * P * u < v * u) by nia.
    assert (f * P < u * P) by (unfold P; lia). lia.
Qed.

(** Whole units and a part of one: the value is not below the whole units, and relatively
    within 2^-51. *)
Lemma units_near d :
  0 < d <= 2 ^ 63 →
  ∃ v, rep sx (in_units u (cond_Zopp sx d)) v ∧ d / u * P <= v ∧ 2 ^ 51 * Z.abs (v * u - d * P) <= d * P.
Proof.
  intros Hd. unfold in_units.
  assert (Z.quot (cond_Zopp sx d) u = cond_Zopp sx (d / u)) as ->.
  { destruct sx; simpl; rewrite ?Z.quot_opp_l, Z.quot_div_nonneg by lia; done. }
  assert (Z.rem (cond_Zopp sx d) u = cond_Zopp sx (d mod u)) as ->.
  { destruct sx; simpl; rewrite ?Z.rem_opp_l, Z.rem_mod_nonneg by lia; done. }
  pose proof (Z.div_mod d u ltac:(lia)) as Edm. pose proof (Z.mod_pos_bound d u ltac:(lia)) as Hf.
  assert (0 <= d / u <= 2 ^ 34) as Hs.
  { split; [apply Z.div_pos; lia|]. apply Z.div_le_upper_bound; lia. }
  generalize dependent (d / u). generalize dependent (d mod u). intros f Hf s Edm Hs.
  assert (f = 0 ∨ 0 < f) as [->|Hf0] by lia.
  - assert (0 < s) as Hs0 by nia. pose proof (rep_of_int sx s ltac:(lia)) as Hrep.
    exists (s * P). split_and!; [|lia|unfold P; nia].
    replace (f64_div (float64_of_int (cond_Zopp sx 0)) (float64_of_int u)) with (S754_zero false).
    + destruct Hrep as (m & e & -> & Hr). exists m, e. done.
    + destruct (rep_of_int false u ltac:(lia)) as (m & e & E & _). simpl in E. unfold f64_div. rewrite E. by destruct sx.
  - destruct (fraction_near f ltac:(lia)) as (g & Hg & Hn & Hgb).
    assert (s = 0 ∨ 0 < s) as [->|Hs0] by lia.
    + exists g. split_and!; [|lia|unfold P in *; lia].
      destruct Hg as (m & e & -> & Hr). exists m, e. by destruct sx.
    + destruct (rep_add sx _ _ _ _ (rep_of_int sx s ltac:(lia)) Hg) as (v & Hv & Hvn & Hfl); [unfold P in *; lia..|].
      exists v. split_and!; [done|apply Hfl; lia|].
      assert (v * u - d * P = u * (v - (s * P + g)) + (g * u - f * P)) as -> by (rewrite Edm; ring).
      assert (2 ^ 53 * Z.abs (u * (v - (s * P + g))) <= u * v) as H1 by (rewrite Z.abs_mul, (Z.abs_eq u) by lia; nia).
      assert (u * v - (u * (s * P) + u * g) = u * (v - (s * P + g))) as H2 by ring.
      assert (d * P = u * (s * P) + f * P) as H3 by (rewrite Edm; ring). rewrite (Z.mul_comm g u) in *.
      assert (0 <= u * (s * P)) by (unfold P; lia). assert (0 <= f * P) by (unfold P; lia). assert (0 <= u * g) by lia.
      generalize dependent (u * (v - (s * P + g))). generalize dependent (u * g). generalize dependent (u * v).
      generalize dependent (u * (s * P)). generalize dependent (f * P). generalize dependent (d * P). intros. lia.
Qed.

End units.

(** Whole units after the conversion to an integer. *)
Lemma whole_units `{Platform} sx u d :
  2 ^ 29 <= u < 2 ^ 43 → 0 <= d <= 2 ^ 63 →
  ∃ h, int64_of_float (in_units u (cond_Zopp sx d)) = cond_Zopp sx h ∧ d / u <= h <= (d + d / 2 ^ 51) / u.
Proof.
  intros Hu Hd. assert (d = 0 ∨ 0 < d) as [->|Hd0] by lia.
  { exists 0. split; [|by rewrite Z.div_0_l by lia]. replace (cond_Zopp sx 0) with 0 by by destruct sx.
    unfold in_units. rewrite Z.quot_0_l, Z.rem_0_l by lia.
    destruct (rep_of_int false u ltac:(lia)) as (m & e & E & _). simpl in E. unfold f64_div. by rewrite E. }
  destruct (units_near sx u Hu d ltac:(lia)) as (v & Hv & Hlo & Hn). apply rep_trunc in Hv.
  assert (d / u <= v / P <= (d + d / 2 ^ 51) / u) as Hb.
  { split; [apply Z.div_le_lower_bound; unfold P in *; lia|]. apply Z.div_le_lower_bound; [lia|].
    pose proof (Z.mul_div_le v P ltac:(done)) as Hm. assert (2 ^ 51 * (u * (v / P)) <= 2 ^ 51 * d + d) as Hk.
    { apply (Z.mul_le_mono_pos_r _ _ P); [done|]. assert (u * (v / P) * P <= v * u) by nia. lia. }
    assert (u * (v / P) - d <= d / 2 ^ 51); [|lia]. apply Z.div_le_lower_bound; lia. }
  exists (v / P). split; [|done]. unfold int64_of_float. rewrite Hv.
  assert ((d + d / 2 ^ 51) / u <= 2 ^ 36 ∧ 0 <= d / u) as [? ?].
  { split; [|apply Z.div_pos; lia]. apply Z.div_le_upper_bound; [lia|].
    assert (d / 2 ^ 51 <= 2 ^ 12) by (apply Z.div_le_upper_bound; lia). lia. }
  rewrite (proj2 (Z.leb_le _ _)), (proj2 (Z.leb_le _ _)) by (unfold min_int64, max_int64; destruct sx; lia).
  by destruct sx.
Qed.

(** Below the precision whole units are exact. *)
Lemma whole_units_exact `{Platform} sx u d :
  2 ^ 29 <= u < 2 ^ 43 → 0 <= d < 2 ^ 51 → int64_of_float (in_units u (cond_Zopp sx d)) = cond_Zopp sx (d / u).
Proof.
  intros Hu Hd. destruct (whole_units sx u d Hu ltac:(lia)) as (h & -> & Hh).
  rewrite (Z.div_small d (2 ^ 51)), Z.add_0_r in Hh by lia. f_equal. lia.
Qed.

(** A quotient by a small number. *)
Lemma small_div x v c :
  rep false x v → 0 < c < 2 ^ 20 → 2 ^ 200 <= v < 2 ^ 240 →
  ∃ w, rep false (f64_div x (float64_of_int c)) w ∧ 2 ^ 53 * Z.abs (w * c - v) <= w * c.
Proof.
  intros Hx Hc Hv. destruct (rep_div false _ _ _ _ Hx (rep_of_int false c ltac:(lia))) as (w & Hw & Hn); [unfold P; lia..|].
  exists w. split; [done|]. replace (w * (c * P) - v * P) with ((w * c - v) * P) in Hn by ring.
  replace (w * (c * P)) with (w * c * P) in Hn by ring.
  rewrite Z.abs_mul, (Z.abs_eq P), Z.mul_assoc in Hn by (unfold P; lia). by apply Z.mul_le_mono_pos_r in Hn; [|unfold P; lia].
Qed.

Definition Day : Z := 24 * Hour.
Definition Year : Z := 365 * Day.

Lemma whole_years `{Platform} d :
  300 * Day <= d <= 2 ^ 63 →
  ∃ y, int64_of_float (f64_div (f64_div (Hours d) (float64_of_int 24)) (float64_of_int 365)) = y
    ∧ y * Year <= d + d / 2 ^ 50 ∧ d - d / 2 ^ 50 < (y + 1) * Year.
Proof.
  intros Hd. destruct (units_near false Hour ltac:(done) d ltac:(unfold Day, Hour, Minute, Second in *; lia)) as (v & Hv & Hlo & Hn).
  change (cond_Zopp false d) with d in Hv. change (in_units Hour d) with (Hours d) in Hv.
  assert (7000 * P <= v <= 2 ^ 23 * P) as Hvb.
  { assert (7200 * P * Hour <= d * P <= 2 ^ 22 * P * Hour) by (unfold Day, Hour, Minute, Second, P in *; lia).
    unfold Hour, Minute, Second in *. lia. }
  destruct (small_div _ v 24 Hv) as (w & Hw & Hnw); [lia|unfold P in *; lia|].
  destruct (small_div _ w 365 Hw) as (z & Hz & Hnz); [lia|unfold P in *; lia|].
  apply rep_trunc in Hz. exists (z / P). unfold int64_of_float. rewrite Hz. simpl.
  assert (0 <= z / P <= 2 ^ 23) as Hzb.
  { split; [apply Z.div_pos; unfold P in *; lia|]. apply Z.div_le_upper_bound; unfold P in *; lia. }
  rewrite (proj2 (Z.leb_le _ _)), (proj2 (Z.leb_le _ _)) by (unfold min_int64, max_int64; lia). split; [done|].
  assert (5 * 2 ^ 50 * Z.abs (z * Year - d * P) <= 4 * (d * P)) as Hn'.
  { unfold Year, Day. unfold Hour, Minute, Second in *. lia. }
  pose proof (Z.mul_div_le z P ltac:(done)) as H1. pose proof (Z.mul_succ_div_gt z P ltac:(done)) as H2.
  pose proof (Z.div_mod d (2 ^ 50) ltac:(done)) as H3. pose proof (Z.mod_pos_bound d (2 ^ 50) ltac:(done)) as H4.
  generalize dependent (z / P). generalize dependent (d / 2 ^ 50). generalize dependent (d mod 2 ^ 50).
  intros r Hr e He y _ H1 H2. clear Hn Hnw Hnz. unfold Year, Day, Hour, Minute, Second, P in *. lia.
Qed.

(** ** Texts *)

(** The text of a duration in exact arithmetic: days up to the 364th, then years. *)
Definition age_text (d : Z) : string :=
  if d <=? -2 * Second then "<invalid>"
  else if d <? 0 then "0s"
  else if d <? Minute then FormatInt (d / Second) +:+ "s"
  else if d <? Hour then FormatInt (d / Minute) +:+ "m"
  else if d <? Day then FormatInt (d / Hour) +:+ "h"
  else if d <? 364 * Day then FormatInt (d / Day) +:+ "d"
  else FormatInt (d / Year) +:+ "y".

(** Instants ahead of the clock. *)
Lemma age_ahead `{Platform} d : 0 < d <= 2 ^ 63 → shortHumanDuration (- d) = age_text (- d).
Proof.
  intros Hd. unfold shortHumanDuration, age_text, Seconds.
  destruct (Z.le_gt_cases (2 * Second) d) as [Hlo|Hhi].
  - destruct (whole_units true Second d) as (h & E & Hh & _); [done|lia|]. cbn [cond_Zopp] in E. rewrite E.
    assert (2 <= d / Second) by (apply Z.div_le_lower_bound; unfold Second in *; lia).
    rewrite (proj2 (Z.ltb_lt _ _)), (proj2 (Z.leb_le _ _)) by (unfold Second in *; lia). done.
  - pose proof (whole_units_exact true Second d ltac:(done) ltac:(unfold Second in *; lia)) as E. cbn [cond_Zopp] in E. rewrite E.
    assert (0 <= d / Second < 2) by (split; [apply Z.div_pos|apply Z.div_lt_upper_bound]; unfold Second in *; lia).
    rewrite (proj2 (Z.ltb_ge _ _)), (proj2 (Z.leb_gt _ _)), (proj2 (Z.ltb_lt (- d) 0)) by (unfold Second in *; lia).
    destruct (Z.ltb_spec (- (d / Second)) 0); [done|]. replace (d / Second) with 0 by lia. done.
Qed.

(** Up to a day. *)
Lemma age_short `{Platform} d : 0 <= d < Day → shortHumanDuration d = age_text d.
Proof.
  intros Hd. unfold shortHumanDuration, age_text, Seconds, Minutes, Hours.
  pose proof (whole_units_exact false Second d ltac:(done)) as Es. pose proof (whole_units_exact false Minute d ltac:(done)) as Em.
  pose proof (whole_units_exact false Hour d ltac:(done)) as Eh. simpl in Es, Em, Eh.
  rewrite Es, Em, Eh by (unfold Day, Hour, Minute, Second in *; lia).
  assert (∀ u n, 0 < u → (d / u <? n) = (d <? n * u)) as Hlt.
  { intros u n Hu. apply eq_true_iff_eq. rewrite !Z.ltb_lt. split; intros.
    - apply Z.nle_gt. intros Hle. assert (n <= d / u) by (apply Z.div_le_lower_bound; lia). lia.
    - apply Z.div_lt_upper_bound; lia. }
  rewrite !Hlt by done. rewrite (proj2 (Z.ltb_ge d (-1 * Second))), (proj2 (Z.leb_gt _ _)) by (unfold Second in *; lia).
  change (0 * Second) with 0. change (60 * Second) with Minute. change (60 * Minute) with Hour. change (24 * Hour) with Day.
  by rewrite (proj2 (Z.ltb_lt d Day)) by lia.
Qed.

(** The texts of days and years. *)
Lemma age_text_days d h :
  Day <= d → h < 24 * 364 → h * Hour <= d < (h + 1) * Hour → age_text d = FormatInt (Z.quot h 24) +:+ "d".
Proof.
  intros Hd Hh Hb. unfold age_text.
  rewrite (proj2 (Z.leb_gt _ _)), !(proj2 (Z.ltb_ge d _)), (proj2 (Z.ltb_lt d (364 * Day)))
    by (unfold Day, Hour, Minute, Second in *; lia).
  do 2 f_equal. assert (h = d / Hour) as -> by (apply (Z.div_unique_pos d Hour h (d - h * Hour)); lia).
  rewrite Z.quot_div_nonneg, Z.div_div by (try apply Z.div_pos; unfold Day, Hour, Minute, Second in *; lia).
  unfold Day. by rewrite Z.mul_comm.
Qed.

Lemma age_text_years d y :
  364 * Day <= d → y * Year <= d < (y + 1) * Year → age_text d = FormatInt y +:+ "y".
Proof.
  intros Hd Hb. unfold age_text.
  rewrite (proj2 (Z.leb_gt _ _)), !(proj2 (Z.ltb_ge d _)) by (unfold Day, Hour, Minute, Second in *; lia).
  do 2 f_equal. symmetry. apply (Z.div_unique_pos d Year y (d - y * Year)); lia.
Qed.

(** From a day on, by the hours the code computes. *)
Lemma age_long `{Platform} d :
  Day <= d <= 2 ^ 63 → ∃ d', Z.abs (d' - d) <= d / 2 ^ 50 ∧ shortHumanDuration d = age_text d'.
Proof.
  intros Hd. unfold shortHumanDuration.
  destruct (whole_units false Second d) as (s & Es & Hs & _); [done|unfold Day, Hour, Minute, Second in *; lia|].
  destruct (whole_units false Minute d) as (m & Em & Hm & _); [done|unfold Day, Hour, Minute, Second in *; lia|].
  destruct (whole_units false Hour d) as (h & Eh & Hh1 & Hh2); [done|unfold Day, Hour, Minute, Second in *; lia|].
  cbn [cond_Zopp] in Es, Em, Eh. fold (Seconds d) in Es. fold (Minutes d) in Em. fold (Hours d) in Eh. rewrite Es, Em, Eh.
  assert (60 <= s) by (etrans; [apply (Z.div_le_lower_bound d Second); unfold Day, Hour, Minute, Second in *; lia|done]).
  assert (60 <= m) by (etrans; [apply (Z.div_le_lower_bound d Minute); unfold Day, Hour, Minute, Second in *; lia|done]).
  assert (24 <= h) by (etrans; [apply (Z.div_le_lower_bound d Hour); unfold Day, Hour, Minute, Second in *; lia|done]).
  rewrite (proj2 (Z.ltb_ge s (-1))), (proj2 (Z.ltb_ge s 0)), (proj2 (Z.ltb_ge s 60)), (proj2 (Z.ltb_ge m 60)), (proj2 (Z.ltb_ge h 24)) by lia.
  assert (d < (h + 1) * Hour) as Hlt.
  { pose proof (Z.mul_succ_div_gt d Hour ltac:(done)). unfold Hour, Minute, Second in *. lia. }
  assert (h * Hour <= d + d / 2 ^ 51) as Hle.
  { pose proof (Z.mul_div_le (d + d / 2 ^ 51) Hour ltac:(done)). unfold Hour, Minute, Second in *. lia. }
  assert (d / 2 ^ 51 <= d / 2 ^ 50) as Hee by (apply Z.div_le_compat_l; unfold Day, Hour, Minute, Second in *; lia).
  assert (0 <= d / 2 ^ 50 <= 2 ^ 13) as He.
  { split; [apply Z.div_pos|apply Z.div_le_upper_bound]; unfold Day, Hour, Minute, Second in *; lia. }
  destruct (Z.ltb_spec h (24 * 364)) as [Hday|Hyear].
  - exists (Z.max d (h * Hour)). split; [lia|]. symmetry.
    apply age_text_days; [lia|done|]. unfold Hour, Minute, Second in *. lia.
  - destruct (whole_years d) as (y & -> & Hy1 & Hy2); [unfold Day, Hour, Minute, Second in *; lia|].
    assert (0 <= y) as Hy0 by (unfold Year, Day, Hour, Minute, Second in *; lia).
    destruct (Z.le_gt_cases (364 * Day) d) as [Hd'|Hd'].
    + exists (Z.max (y * Year) (Z.min d ((y + 1) * Year - 1))). split; [lia|]. symmetry.
      apply age_text_years; unfold Year, Day, Hour, Minute, Second in *; lia.
    + exists (364 * Day). split; [unfold Day, Hour, Minute, Second in *; lia|]. symmetry.
      apply age_text_years; unfold Year, Day, Hour, Minute, Second in *; lia.
Qed.

Lemma shortHumanDuration_near `{Platform} d :
  min_int64 <= d <= max_int64 → ∃ d', Z.abs (d' - d) <= Z.abs d / 2 ^ 50 ∧ shortHumanDuration d = age_text d'.
Proof.
  intros Hd. unfold min_int64, max_int64 in Hd.
  assert (d < 0 ∨ 0 <= d < Day ∨ Day <= d) as [Hneg|[Hshort|Hlong]] by (unfold Day; lia).
  - exists d. rewrite Z.sub_diag. split; [apply Z.div_pos; lia|].
    pose proof (age_ahead (- d) ltac:(lia)) as Ha. by rewrite Z.opp_involutive in Ha.
  - exists d. rewrite Z.sub_diag. split; [apply Z.div_pos; lia|]. by apply age_short.
  - rewrite Z.abs_eq by (unfold Day in Hlong; unfold Hour, Minute, Second in *; lia). apply age_long. lia.
Qed.

(** C24. Ages are exact: the text of every age within the range of a duration, which the
    code computes in float64, is the text in exact arithmetic of an age that differs
    by at most one part in 2^50; so it is exact below thirteen days, and off by at most
    8192 nanoseconds for any age. *)
Theorem age_is_exact `{Platform} now timestamp :
  timestamp ≠ 0 → min_int64 <= now - timestamp <= max_int64 →
  ∃ d, Z.abs (d - (now - timestamp)) <= Z.abs (now - timestamp) / 2 ^ 50 ∧ TranslateTimestamp now timestamp = age_text d.
Proof.
  intros Ht Hd. unfold TranslateTimestamp. rewrite (proj2 (Z.eqb_neq _ _) Ht).
  replace (Sub now timestamp) with (now - timestamp) by (unfold Sub; lia). by apply shortHumanDuration_near.
Qed.

(** ** Witness *)

(** A nanosecond before the end of the 171st day its text is already there. *)
Lemma age_is_exact_witness :
  @TranslateTimestamp amd64 (171 * Day) 1 = "171d"
  ∧ ∃ d, Z.abs (d - (171 * Day - 1)) <= Z.abs (171 * Day - 1) / 2 ^ 50 ∧ @TranslateTimestamp amd64 (171 * Day) 1 = age_text d.
Proof.
  split; [vm_compute; reflexivity|]. apply (@age_is_exact amd64 (171 * Day) 1); [discriminate|vm_compute; split; discriminate].
Defined.
