(* ===== verification/Client.v ===== *)
(** * Effects of the console, and package kubeclient

    A handler talks to the API server, the image registry, the clock, two files
    and the global variables of package kubeclient.  A [prog] is the code between
    those interactions: a command with the continuation for each answer.  Every
    program is a finite tree, so a handler terminates once its calls return.
    [exec] relates a program to the traces it can produce under an arbitrary
    environment; [run] executes it against a given one.

    The second half is pkg/kubeclient/helper.go: loading and saving the
    configuration, and the client built from it. *)

From stdpp Require Import prelude gmap strings.
From Stdlib Require Import ZArith NArith Ascii.
From S2P Require Import Prelude GoStrings Api Page.

(** [kubeclient.Config]. *)
Record Config : Type := mkConfig {
  APIServerURL : string;
  Username : string;
  Password : string;
}.

(** [kube_client.Config]; a client is determined by it. *)
Record Client : Type := mkClient {
  Client_Host : string;
  Client_Version : string;
  Client_Insecure : bool;
  Client_Username : string;
  Client_Password : string;
}.

#[export] Instance Config_eq_dec : EqDecision Config.
Proof. solve_decision. Defined.

#[export] Instance Client_eq_dec : EqDecision Client.
Proof. solve_decision. Defined.

(** Options of a log request (api.PodLogOptions as query parameters). *)
Record LogOptions : Type := mkLogOptions {
  Log_Container : string;
  Log_Follow : bool;
  Log_Previous : bool;
  Log_Timestamps : bool;
  Log_TailLines : Z;
  Log_LimitBytes : Z;
}.

Section effects.
Context `{K : KubeApi}.

(** ** Commands

    One constructor per kind of interaction.  API calls carry the client they go
    through; the names are those of the typed clients, [Pods(ns).Get(name)] being
    [Pods_Get]. *)
Inductive cmd : Type :=
| Now
| ReadFile (path : string)
| WriteFile (path data : string) (perm : Z)
| HttpGet (url : string)
| GetKubeConfig
| SetKubeConfig (cfg : Config)
| GetKubeClient
| SetKubeClient (cl : option Client)
| NewOrDie (cfg : Client)
| Namespaces_List (cl : Client)
| Pods_Get (cl : Client) (ns name : string)
| Pods_List (cl : Client) (ns : string) (sel : Selector)
| Pods_Update (cl : Client) (ns : string) (pod : api.Pod)
| Pods_Log (cl : Client) (ns name : string) (opts : LogOptions)
| Events_List (cl : Client) (ns : string)
| Events_Search (cl : Client) (ns : string) (ref : api.ObjectReference)
| Nodes_Get (cl : Client) (name : string)
| Nodes_List (cl : Client) (sel : Selector)
| Nodes_Update (cl : Client) (node : api.Node)
| Nodes_Delete (cl : Client) (name : string)
| RCs_Get (cl : Client) (ns name : string)
| RCs_List (cl : Client) (ns : string)
| RCs_Update (cl : Client) (ns : string) (rc : api.ReplicationController)
| RCs_Create (cl : Client) (ns : string) (rc : api.ReplicationController)
| RCs_Delete (cl : Client) (ns name : string)
| Services_Get (cl : Client) (ns name : string)
| Services_List (cl : Client) (ns : string)
| Services_Update (cl : Client) (ns : string) (svc : api.Service)
| Services_Create (cl : Client) (ns : string) (svc : api.Service)
| Services_Delete (cl : Client) (ns name : string)
| Endpoints_Get (cl : Client) (ns name : string)
| Endpoints_List (cl : Client) (ns : string)
| Endpoints_Update (cl : Client) (ns : string) (ep : api.Endpoints)
| Endpoints_Delete (cl : Client) (ns name : string).

Abbreviation error := string (only parsing).

(** A pointer result with its error, as Go returns it. *)
Abbreviation ptr_err A := (option A * option string)%type (only parsing).

(** The type of the answer to a command. *)
Definition resp (c : cmd) : Type :=
  match c with
  | Now => Time
  | ReadFile _ => result error string
  | WriteFile _ _ _ => option error
  | HttpGet _ => result error string
  | GetKubeConfig => option Config
  | SetKubeConfig _ => unit
  | GetKubeClient => option Client
  | SetKubeClient _ => unit
  | NewOrDie _ => result error Client
  | Namespaces_List _ => ptr_err (list string)
  | Pods_Get _ _ _ => ptr_err api.Pod
  | Pods_List _ _ _ => ptr_err (list api.Pod)
  | Pods_Update _ _ _ => ptr_err api.Pod
  | Pods_Log _ _ _ _ => result error (result error string)
  | Events_List _ _ => ptr_err (list api.Event)
  | Events_Search _ _ _ => ptr_err (list api.Event)
  | Nodes_Get _ _ => ptr_err api.Node
  | Nodes_List _ _ => ptr_err (list api.Node)
  | Nodes_Update _ _ => ptr_err api.Node
  | Nodes_Delete _ _ => option error
  | RCs_Get _ _ _ => ptr_err api.ReplicationController
  | RCs_List _ _ => ptr_err (list api.ReplicationController)
  | RCs_Update _ _ _ => ptr_err api.ReplicationController
  | RCs_Create _ _ _ => ptr_err api.ReplicationController
  | RCs_Delete _ _ _ => option error
  | Services_Get _ _ _ => ptr_err api.Service
  | Services_List _ _ => ptr_err (list api.Service)
  | Services_Update _ _ _ => ptr_err api.Service
  | Services_Create _ _ _ => ptr_err api.Service
  | Services_Delete _ _ _ => option error
  | Endpoints_Get _ _ _ => ptr_err api.Endpoints
  | Endpoints_List _ _ => ptr_err (list api.Endpoints)
  | Endpoints_Update _ _ _ => ptr_err api.Endpoints
  | Endpoints_Delete _ _ _ => option error
  end.

(** The commands that change the cluster. *)
Definition is_cluster_write (c : cmd) : bool :=
  match c with
  | Pods_Update _ _ _ | Nodes_Update _ _ | Nodes_Delete _ _
  | RCs_Update _ _ _ | RCs_Create _ _ _ | RCs_Delete _ _ _
  | Services_Update _ _ _ | Services_Create _ _ _ | Services_Delete _ _ _
  | Endpoints_Update _ _ _ | Endpoints_Delete _ _ _ => true
  | _ => false
  end.

(** The commands that change the configuration of the console. *)
Definition is_config_write (c : cmd) : bool :=
  match c with
  | WriteFile _ _ _ | SetKubeConfig _ | SetKubeClient _ | NewOrDie _ => true
  | _ => false
  end.

Definition is_read (c : cmd) : bool := negb (is_cluster_write c) && negb (is_config_write c).

(** ** Programs *)

Inductive prog (A : Type) : Type :=
| Ret (a : A)
| Stop (h : halt)
| Do (c : cmd) (k : resp c → prog A).

End effects.

Arguments Ret {K A} _.
Arguments Stop {K A} _.
Arguments Do {K A} _ _.

Fixpoint prog_bind_def `{K : KubeApi} {A B} (f : A → prog B) (p : prog A) : prog B :=
  match p with
  | Ret a => f a
  | Stop h => Stop h
  | Do c k => Do c (λ r, prog_bind_def f (k r))
  end.

#[export] Instance prog_ret `{KubeApi} : MRet prog := λ A, Ret.
#[export] Instance prog_bind `{KubeApi} : MBind prog := λ A B, prog_bind_def.
#[export] Instance prog_fmap `{KubeApi} : FMap prog := λ A B f, prog_bind_def (λ a, Ret (f a)).

(** Issue a command. *)
Definition call `{KubeApi} (c : cmd) : prog (resp c) := Do c Ret.

(** A pure computation that may panic. *)
Definition lift `{KubeApi} {A} (m : go A) : prog A :=
  match m with Val a => Ret a | Halt h => Stop h end.

(** [panic] in the middle of a program. *)
Definition throw `{KubeApi} {A} (p : panic) : prog A := Stop (HPanic p).

Section semantics.
Context `{K : KubeApi}.

(** One interaction: a command and the answer it got. *)
Inductive event : Type := Ev (c : cmd) (r : resp c).

(** [exec p tr o]: [p] can produce the trace [tr] and the outcome [o]. *)
Fixpoint exec {A} (p : prog A) (tr : list event) (o : go A) : Prop :=
  match p with
  | Ret a => tr = [] ∧ o = Val a
  | Stop h => tr = [] ∧ o = Halt h
  | Do c k => ∃ r tr', tr = Ev c r :: tr' ∧ exec (k r) tr' o
  end.

(** Every command of every execution satisfies [P]. *)
Fixpoint all_cmds {A} (P : cmd → Prop) (p : prog A) : Prop :=
  match p with
  | Ret _ | Stop _ => True
  | Do c k => P c ∧ ∀ r, all_cmds P (k r)
  end.

(** Execution against an environment: a state and an answer to each command. *)
Fixpoint run {S A} (env : ∀ c, S → resp c * S) (p : prog A) (s : S) : go A * S :=
  match p with
  | Ret a => (Val a, s)
  | Stop h => (Halt h, s)
  | Do c k => let '(r, s') := env c s in run env (k r) s'
  end.

(** The interactions of such an execution. *)
Fixpoint trace {S A} (env : ∀ c, S → resp c * S) (p : prog A) (s : S) : list event :=
  match p with
  | Ret _ | Stop _ => []
  | Do c k => let '(r, s') := env c s in Ev c r :: trace env (k r) s'
  end.

End semantics.

(** ** Reasoning about programs *)

Section rules.
Context `{K : KubeApi}.

Lemma all_cmds_bind {A B} P (p : prog A) (f : A → prog B) :
  all_cmds P p → (∀ a, all_cmds P (f a)) → all_cmds P (p ≫= f).
Proof.
  intros Hp Hf. induction p as [a|h|c k IH]; simpl in *; [apply Hf|done|].
  destruct Hp as [Hc Hk]. split; [done|]. intros r. apply IH, Hk.
Qed.

Lemma all_cmds_impl {A} (P Q : cmd → Prop) (p : prog A) :
  (∀ c, P c → Q c) → all_cmds P p → all_cmds Q p.
Proof. intros HPQ. induction p as [a|h|c k IH]; simpl; [done|done|]. intros [? ?]. auto. Qed.

Lemma all_cmds_call P c : P c → all_cmds P (call c).
Proof. intros Hc. by split. Qed.

Lemma all_cmds_lift {A} P (m : go A) : all_cmds P (lift m).
Proof. by destruct m. Qed.

Lemma exec_bind {A B} (p : prog A) (f : A → prog B) tr o :
  exec (p ≫= f) tr o ↔
  (∃ tr1 tr2 a, tr = tr1 ++ tr2 ∧ exec p tr1 (Val a) ∧ exec (f a) tr2 o)
  ∨ (∃ h, exec p tr (Halt h) ∧ o = Halt h).
Proof.
  revert tr. induction p as [a|h|c k IH]; intros tr; simpl.
  - split; [intros H; left; by exists [], tr, a|].
    intros [(tr1 & tr2 & a' & -> & [-> ?] & Hf)|(h & [_ ?] & _)]; by go_inv.
  - split; [intros [-> ->]; right; by exists h|].
    intros [(tr1 & tr2 & a' & _ & [_ ?] & _)|(h' & [-> Hh] & ->)]; [done|by injection Hh as ->].
  - split.
    + intros (r & tr' & -> & H). apply IH in H as [(tr1 & tr2 & a & -> & H1 & H2)|(h & H1 & ->)].
      * left. exists (Ev c r :: tr1), tr2, a. split_and!; [done| |done]. by exists r, tr1.
      * right. exists h. split; [|done]. by exists r, tr'.
    + intros [(tr1 & tr2 & a & -> & (r & tr' & -> & H1) & H2)|(h & (r & tr' & -> & H1) & ->)].
      * exists r, (tr' ++ tr2). split; [done|]. apply IH. left. by exists tr', tr2, a.
      * exists r, tr'. split; [done|]. apply IH. right. by exists h.
Qed.

(** The command of an interaction. *)
Definition ev_cmd (e : event) : cmd := match e with Ev c _ => c end.

Lemma exec_all_cmds {A} P (p : prog A) tr o :
  all_cmds P p → exec p tr o → Forall (λ e, P (ev_cmd e)) tr.
Proof.
  revert tr. induction p as [a|h|c k IH]; intros tr; simpl.
  - intros _ [-> _]. constructor.
  - intros _ [-> _]. constructor.
  - intros [Hc Hk] (r & tr' & -> & H). constructor; [done|]. by eapply IH.
Qed.

(** A run is one of the executions. *)
Lemma exec_trace {S A} (env : ∀ c, S → resp c * S) (p : prog A) s :
  exec p (trace env p s) (run env p s).1.
Proof.
  revert s. induction p as [a|h|c k IH]; intros s; simpl; [done|done|].
  destruct (env c s) as [r s']. by exists r, (trace env (k r) s').
Qed.

Lemma run_bind {S A B} (env : ∀ c, S → resp c * S) (p : prog A) (f : A → prog B) s :
  run env (p ≫= f) s
  = match run env p s with (Val a, s') => run env (f a) s' | (Halt h, s') => (Halt h, s') end.
Proof.
  revert s. induction p as [a|h|c k IH]; intros s; simpl; [done|done|].
  destruct (env c s) as [r s']. apply IH.
Qed.

(** Commands that leave the state of an environment alone. *)
Lemma run_preserves {S A} (env : ∀ c, S → resp c * S) (P : cmd → Prop) (p : prog A) s :
  (∀ c s, P c → (env c s).2 = s) → all_cmds P p → (run env p s).2 = s.
Proof.
  intros Henv. revert s. induction p as [a|h|c k IH]; intros s; simpl; [done|done|].
  intros [Hc Hk]. pose proof (Henv c s Hc). destruct (env c s) as [r s']; simpl in *; subst. by apply IH.
Qed.

End rules.

(** ** JSON

    The texts exchanged with the browser, the registry and the configuration file.
    The objects of the API are encoded by types outside the repository; each
    operation returns what encoding/json returns for its type. *)
Class JsonApi `{KubeApi} : Type := {
  Marshal_Pod : api.Pod → result string string;
  Marshal_Node : api.Node → result string string;
  Marshal_RC : api.ReplicationController → result string string;
  Marshal_Service : api.Service → result string string;
  Marshal_Endpoints : api.Endpoints → result string string;
  Unmarshal_Pod : string → result string api.Pod;
  Unmarshal_Node : string → result string api.Node;
  Unmarshal_RC : string → result string api.ReplicationController;
  Unmarshal_Service : string → result string api.Service;
  Unmarshal_Endpoints : string → result string api.Endpoints;
  json_Indent : string → result string string;
  Unmarshal_strings : string → result string (list string);
  Unmarshal_bools : string → result string (list bool);
  Unmarshal_SimplePods : string → result string (list page.SimplePod);
  Decode_TagList : string → result string (list string);
  MarshalIndent_Config : option Config → result string string;
  (** Decoding into an existing struct: its new value, and the error. *)
  Unmarshal_Config : string → Config → Config * option string;
}.

(** ** Package kubeclient *)

Section kubeclient.
Context `{K : KubeApi, J : !JsonApi}.

(** The flag variable naming the configuration file. *)
Context (KubeConfigFile : string).

Definition APIVersion : string := "v1".

Definition default_Config : Config := mkConfig "https://61.160.36.122" "test" "test123".

Definition loadKubeConfig : prog unit :=
  call (SetKubeConfig default_Config);;
  cfg ← call (ReadFile KubeConfigFile);
  match cfg with
  | Err _ => Ret tt
  | Ok data => call (SetKubeConfig (Unmarshal_Config data default_Config).1)
  end.

(** The permission 0640. *)
Definition config_perm : Z := 416.

Definition SaveKubeConfig : prog unit :=
  cfg ← call GetKubeConfig;
  match MarshalIndent_Config cfg with
  | Err _ => Ret tt
  | Ok data => call (WriteFile KubeConfigFile data config_perm);; Ret tt
  end.

(** [KubeConfig.Field]: reading through the global pointer. *)
Definition config_deref : prog Config := cfg ← call GetKubeConfig; lift (deref cfg).

(** The overrides: version, server, InsecureSkipTLSVerify. *)
Definition getConfigOverrides : prog (string * string * bool) :=
  cfg ← config_deref; Ret (APIVersion, APIServerURL cfg, true).

(** The client is built from the overrides and the user name and password;
    NewOrDie panics when the configuration is rejected. *)
Definition getKubeClient : prog Client :=
  '(version, server, insecure) ← getConfigOverrides;
  user ← config_deref;
  pass ← config_deref;
  r ← call (NewOrDie (mkClient server version insecure (Username user) (Password pass)));
  match r with Ok cl => Ret cl | Err msg => throw (Panicked msg) end.

Definition Init : prog unit :=
  cfg ← call GetKubeConfig;
  (match cfg with None => loadKubeConfig | Some _ => Ret tt end);;
  cl ← getKubeClient;
  call (SetKubeClient (Some cl)).

(** [kubeclient.Get()]. *)
Definition Get : prog Client :=
  cl ← call GetKubeClient;
  match cl with Some c => Ret c | None => Stop (HFatal "Forget to call kubeclient.Init()?") end.

(** [kubeClient] is used without the check of [Get] here. *)
Definition GetAllPods : prog (result string (list api.Pod)) :=
  cl ← call GetKubeClient;
  cl ← lift (deref cl);
  r ← call (Pods_List cl "" labels_Everything);
  match r with
  | (_, Some err) => Ret (Err err)
  | (podList, None) => items ← lift (deref podList); Ret (Ok items)
  end.

End kubeclient.
