(* ===== verification/Render.v ===== *)
(** * From API objects to rows: the gen* and compute* functions of main.go

    Each function is the pure row for given ages, and a program that reads the
    clock for them as kube.TranslateTimestamp does.  page.Node and
    page.NodeDetail, the two rows that embed API objects, are defined here. *)

From stdpp Require Import prelude gmap strings sorting.
From Stdlib Require Import ZArith NArith Ascii.
From S2P Require Import Prelude GoStrings GoSort GoRegexp Float64 Api Page KubeUtil Client.

Definition PrivateRepoPrefix : string := "61.160.36.122:8080/".
Definition PauseImage : string := "sigmas/pause:0.8.0".

(** The order of kubectl.SortableEvents. *)
Class EventOrder : Type := SortableEvents_Less : api.Event → api.Event → bool.

(** [t.Format(time.RFC1123Z)], in the location the timestamp carries. *)
Class TimeFormat : Type := Format_RFC1123Z : Time → string.

Section render.
Context `{K : KubeApi, GS : GoSort, MR : MapRange, PF : Platform, EO : EventOrder, J : !JsonApi}.
Local Open Scope Z_scope.

Record Node : Type := mkNode {
  Node_Name : string;
  Node_Status : list string;
  Node_Age : string;
  Node_Labels : gomap string;
  Node_Capacity : gomap string;
  Node_Pods : list api.Pod;
  Node_TerminatedPods : list api.Pod;
  Node_NonTerminatedPods : list api.Pod;
  Node_AllocatedResources : page.Resources;
  Node_FractionPods : Z;
}.

Record NodeDetail : Type := mkNodeDetail {
  NodeDetail_Name : string;
  NodeDetail_Labels : gomap string;
  NodeDetail_CreationTimestamp : string;
  NodeDetail_Conditions : list api.NodeCondition;
  NodeDetail_Capacity : gomap string;
  NodeDetail_SystemInfo : other_fields;
  NodeDetail_Pods : list api.Pod;
  NodeDetail_TerminatedPods : list api.Pod;
  NodeDetail_NonTerminatedPods : list api.Pod;
  NodeDetail_TerminatedPodsResources : list page.Resources;
  NodeDetail_NonTerminatedPodsResources : list page.Resources;
  NodeDetail_AllocatedResources : page.Resources;
}.

(** ** Resources *)

(** [int64(float64(part) / float64(whole) * 100)]. *)
Definition percent (part whole : Z) : Z :=
  int64_of_float (f64_mul (f64_div (float64_of_int part) (float64_of_int whole)) (float64_of_int 100)).

(** Reading a totals map: a missing name reads as the zero Quantity. *)
Definition quantity_of (m : gmap string Quantity) (name : string) : Quantity :=
  default Quantity_zero (m !! name).

Definition resources_row (ns name : string) (t : totals) (capacity : gomap Quantity) : page.Resources :=
  let cpuReq := quantity_of t.1 ResourceCPU in
  let cpuLimit := quantity_of t.2 ResourceCPU in
  let memoryReq := quantity_of t.1 ResourceMemory in
  let memoryLimit := quantity_of t.2 ResourceMemory in
  let cpu := Quantity_MilliValue (ResourceList_Cpu capacity) in
  let memory := Quantity_MilliValue (ResourceList_Memory capacity) in
  page.mkResources ns name
    (Quantity_String cpuReq) (Quantity_String cpuLimit)
    (Quantity_String memoryReq) (Quantity_String memoryLimit)
    (percent (Quantity_MilliValue cpuReq) cpu) (percent (Quantity_MilliValue cpuLimit) cpu)
    (percent (Quantity_MilliValue memoryReq) memory) (percent (Quantity_MilliValue memoryLimit) memory).

Definition computeNodeResources (nonTerminated : list api.Pod) (node : api.Node) :
    result string page.Resources :=
  t ← GetPodsTotalRequestsAndLimits nonTerminated;
  Ok (resources_row "" "" t (api.Capacity node)).

Definition computePodResources (pod : api.Pod) (node : api.Node) : result string page.Resources :=
  t ← GetSinglePodTotalRequestsAndLimits pod;
  Ok (resources_row (api.Namespace (api.Pod_ObjectMeta pod)) (api.Name (api.Pod_ObjectMeta pod))
        t (api.Capacity node)).

(** A pod whose resources cannot be computed is logged and gets the zero row. *)
Definition computePodsResources (pods : list api.Pod) (node : api.Node) : list page.Resources :=
  (λ pod, match computePodResources pod node with Ok m => m | Err _ => page.Resources_zero end) <$> pods.

(** ** Pods *)

Definition populatePodImages (containers : list api.Container) : list page.PodImage :=
  (λ container,
     let image := api.Image container in
     if HasPrefix image PrivateRepoPrefix
     then page.mkPodImage (TrimPrefix image PrivateRepoPrefix) true
     else page.mkPodImage image false) <$> containers.

(** The last condition of each type. *)
Definition pod_condition_map (conditions : list api.PodCondition) : gmap string api.PodCondition :=
  foldl (λ m cond, <[api.PodCondition_Type cond := cond]> m) ∅ conditions.

(** The reason before the container statuses are looked at. *)
Definition initial_reason (status : api.PodStatus) : string :=
  let reason := api.Phase status in
  let reason :=
    match pod_condition_map (api.Conditions status) !! PodReady with
    | Some condition =>
        if bool_decide (api.PodCondition_Status condition = ConditionTrue) then reason
        else "Not" +:+ api.PodCondition_Type condition
    | None => reason
    end in
  if bool_decide (api.Reason status = "") then reason else api.Reason status.

Record pod_scan : Type := mkScan {
  scan_restarts : Z;
  scan_ready : Z;
  scan_reason : string;
  scan_birth : Time;
}.

(** [p != nil && p.Reason != ""]. *)
Definition given (reason : option string) : option string :=
  match reason with
  | Some r => if bool_decide (r = "") then None else Some r
  | None => None
  end.

Definition terminated_reason (t : api.ContainerStateTerminated) : string :=
  if negb (bool_decide (api.Terminated_Reason t = "")) then api.Terminated_Reason t
  else if negb (api.Signal t =? 0) then "Signal:" +:+ FormatInt (api.Signal t)
  else "ExitCode:" +:+ FormatInt (api.ExitCode t).

(** The body of the loop over the container statuses. *)
Definition scan_container (container : api.ContainerStatus) (st : pod_scan) : pod_scan :=
  let restarts := scan_restarts st + api.RestartCount container in
  match given (api.Waiting container) with
  | Some reason => mkScan restarts (scan_ready st) reason (scan_birth st)
  | None =>
      match api.Terminated container with
      | Some t => mkScan restarts (scan_ready st) (terminated_reason t) (scan_birth st)
      | None =>
          match api.Ready container, api.Running container with
          | true, Some startedAt =>
              mkScan restarts (scan_ready st + 1)
                (if bool_decide (api.ContainerStatus_Image container = PauseImage)
                 then "Stopped" else scan_reason st)
                (if scan_birth st <? startedAt then startedAt else scan_birth st)
          | _, _ => mkScan restarts (scan_ready st) (scan_reason st) (scan_birth st)
          end
      end
  end.

(** The loop runs from the last status to the first. *)
Definition scan_pod (pod : api.Pod) : pod_scan :=
  foldr scan_container (mkScan 0 0 (initial_reason (api.Pod_Status pod)) 0)
    (api.ContainerStatuses (api.Pod_Status pod)).

Definition pod_reason (pod : api.Pod) : string :=
  match api.DeletionTimestamp (api.Pod_ObjectMeta pod) with
  | Some _ => "Terminating"
  | None => scan_reason (scan_pod pod)
  end.

(** The host ports of all containers, each followed by a comma. *)
Definition host_ports (containers : list api.Container) : string :=
  foldl (λ acc container,
    foldl (λ acc port, acc +:+ FormatInt (api.HostPort port) +:+ "/" +:+ api.ContainerPort_Protocol port +:+ ",")
      acc (api.Container_Ports container)) "" containers.

Definition port_string (pod : api.Pod) : string :=
  if api.HostNetwork (api.Pod_Spec pod)
  then TrimSuffix (host_ports (api.Containers (api.Pod_Spec pod))) ","
  else match FindSubmatch portMapping (api.Message (api.Pod_Status pod)) with
       | Some m => m
       | None => ""
       end.

Definition pod_ports (pod : api.Pod) : list string :=
  (λ p, TrimSuffix p "/TCP") <$> Split (port_string pod) ",".

(** The row for the two ages. *)
Definition pod_row (pod : api.Pod) (age containerAge : string) : page.Pod :=
  let st := scan_pod pod in
  let '(req, limit) :=
    match GetSinglePodTotalRequestsAndLimits pod with
    | Ok t => (Some t.1, Some t.2)
    | Err _ => (None, None)
    end in
  page.mkPod
    (api.Namespace (api.Pod_ObjectMeta pod)) (api.Name (api.Pod_ObjectMeta pod))
    (populatePodImages (api.Containers (api.Pod_Spec pod)))
    (Z.of_nat (length (api.Containers (api.Pod_Spec pod))))
    (scan_ready st) (pod_reason pod) (scan_restarts st)
    age containerAge (scan_birth st)
    (api.HostNetwork (api.Pod_Spec pod)) (api.NodeName (api.Pod_Spec pod))
    (if api.HostNetwork (api.Pod_Spec pod) then "" else api.PodIP (api.Pod_Status pod))
    (pod_ports pod)
    (TranslateResourseList req) (TranslateResourseList limit).

(** [kube.TranslateTimestamp], with the clock: it is read for a non-zero time
    only. *)
Definition translate_timestamp (timestamp : Time) : prog string :=
  if timestamp =? 0 then Ret "<unknown>"
  else now ← call Now; Ret (TranslateTimestamp now timestamp).

Definition genOnePod (pod : api.Pod) : prog page.Pod :=
  age ← translate_timestamp (api.CreationTimestamp (api.Pod_ObjectMeta pod));
  containerAge ← translate_timestamp (scan_birth (scan_pod pod));
  Ret (pod_row pod age containerAge).

(** The loops [for i := range items { rows = append(rows, gen(&items[i])) }]. *)
Fixpoint gen_loop {A B} (gen : A → prog B) (items : list A) : prog (list B) :=
  match items with
  | [] => Ret []
  | x :: items => row ← gen x; rows ← gen_loop gen items; Ret (row :: rows)
  end.

(** Lists come as pointers; [list.Items] panics on a nil one. *)
Definition genPods (list : option (list api.Pod)) : prog (Datatypes.list page.Pod) :=
  items ← lift (deref list);
  gen_loop genOnePod items.

(** ** Nodes *)

Definition node_condition_map (conditions : list api.NodeCondition) : gmap string api.NodeCondition :=
  foldl (λ m cond, <[api.NodeCondition_Type cond := cond]> m) ∅ conditions.

Definition node_status (node : api.Node) : list string :=
  let status :=
    match node_condition_map (api.Node_Conditions node) !! NodeReady with
    | Some condition =>
        if bool_decide (api.NodeCondition_Status condition = ConditionTrue)
        then [api.NodeCondition_Type condition]
        else ["Not" +:+ api.NodeCondition_Type condition]
    | None => []
    end in
  let status := if Nat.eqb (length status) 0 then status ++ ["Unknown"] else status in
  if api.Unschedulable node then status ++ ["SchedulingDisabled"] else status.

Definition node_labels (node : api.Node) : gomap string :=
  Some (filter (λ kv : string * string, HasPrefix kv.1 "kubernetes.io" = false)
          (gm_entries (api.Labels (api.Node_ObjectMeta node)))).

Definition node_row (node : api.Node) (allPods : list api.Pod) (age : string) : Node :=
  let pods := FilterNodePods allPods node in
  let '(terminated, nonTerminated) := FilterTerminatedPods pods in
  let allocated :=
    match computeNodeResources nonTerminated node with Ok r => r | Err _ => page.Resources_zero end in
  mkNode (api.Name (api.Node_ObjectMeta node)) (node_status node) age (node_labels node)
    (TranslateResourseList (api.Capacity node))
    pods terminated nonTerminated allocated
    (percent (Z.of_nat (length pods)) (Quantity_Value (ResourceList_Pods (api.Capacity node)))).

Definition genOneNode (node : api.Node) (allPods : list api.Pod) : prog Node :=
  age ← translate_timestamp (api.CreationTimestamp (api.Node_ObjectMeta node));
  Ret (node_row node allPods age).

(** An error of GetAllPods is dropped; the nodes are then shown without pods. *)
Definition genNodes (list : option (list api.Node)) : prog (Datatypes.list Node) :=
  r ← GetAllPods;
  let allPods := match r with Ok l => l | Err _ => [] end in
  items ← lift (deref list);
  gen_loop (λ node, genOneNode node allPods) items.

(** ** Replication controllers, services, endpoints, events *)

(** The loop over a selector map, and the trailing comma removed. *)
Definition selector_string (selector : gomap string) : string :=
  TrimSuffix
    (foldl (λ acc (kv : string * string), acc +:+ kv.1 +:+ "=" +:+ kv.2 +:+ ",") ""
       (map_range (gm_entries selector))) ",".

Definition genOneReplicationController (rc : api.ReplicationController) : prog page.ReplicationController :=
  age ← translate_timestamp (api.CreationTimestamp (api.RC_ObjectMeta rc));
  template ← lift (deref (api.RC_Spec_Template rc));
  Ret (page.mkReplicationController
    (api.Name (api.RC_ObjectMeta rc)) (api.RC_Spec_Replicas rc) (api.RC_Status_Replicas rc) age
    (api.RC_Spec_Selector rc) (selector_string (api.RC_Spec_Selector rc))
    (populatePodImages (api.Containers (api.Template_Spec template)))).

Definition genReplicationControllers (list : option (list api.ReplicationController)) :
    prog (Datatypes.list page.ReplicationController) :=
  items ← lift (deref list);
  gen_loop genOneReplicationController items.

Definition genOneService (svc : api.Service) : prog page.Service :=
  age ← translate_timestamp (api.CreationTimestamp (api.Service_ObjectMeta svc));
  Ret (page.mkService (api.Name (api.Service_ObjectMeta svc)) (api.ClusterIP svc)
    (GetServiceExternalIP svc) (MakePorts (api.Service_Ports svc)) age
    (api.Service_Selector svc) (selector_string (api.Service_Selector svc))).

Definition genServices (list : option (list api.Service)) : prog (Datatypes.list page.Service) :=
  items ← lift (deref list);
  gen_loop genOneService
    (filter (λ svc, api.Name (api.Service_ObjectMeta svc) ≠ "kubernetes") items).

Definition genOneEndpoint (ep : api.Endpoints) : prog page.Endpoint :=
  age ← translate_timestamp (api.CreationTimestamp (api.Endpoints_ObjectMeta ep));
  Ret (page.mkEndpoint (api.Name (api.Endpoints_ObjectMeta ep)) age (FormatEndpoints ep None)).

Definition genEndpoints (list : option (list api.Endpoints)) : prog (Datatypes.list page.Endpoint) :=
  items ← lift (deref list);
  gen_loop genOneEndpoint
    (filter (λ ep, api.Name (api.Endpoints_ObjectMeta ep) ≠ "kubernetes") items).

Definition genOneEvent (ev : api.Event) : prog page.Event :=
  firstSeen ← translate_timestamp (api.Event_FirstTimestamp ev);
  lastSeen ← translate_timestamp (api.Event_LastTimestamp ev);
  Ret (page.mkEvent firstSeen lastSeen (api.Event_Count ev)
    (api.Source_Component ev) (api.Source_Host ev)
    (api.Ref_Name (api.InvolvedObject ev)) (api.Ref_Kind (api.InvolvedObject ev))
    (api.Ref_FieldPath (api.InvolvedObject ev))
    (api.Event_Reason ev) (api.Event_Message ev)).

(** Most recent first, by the order of kubectl. *)
Definition genEvents (list : option (list api.Event)) : prog (Datatypes.list page.Event) :=
  items ← lift (deref list);
  gen_loop genOneEvent (sort_Sort (Reverse SortableEvents_Less) items).

End render.

(** ** The status column *)

Section pods.
Context `{K : KubeApi, MR : MapRange, PF : Platform}.
Local Open Scope Z_scope.

(** Running and reported ready, with nothing that overrides it. *)
Definition is_ready (c : api.ContainerStatus) : bool :=
  match given (api.Waiting c), api.Terminated c, api.Running c with
  | None, None, Some _ => api.Ready c
  | _, _, _ => false
  end.

(** What one container status says about the pod, if anything. *)
Definition container_reason (c : api.ContainerStatus) : option string :=
  match given (api.Waiting c), api.Terminated c with
  | Some r, _ => Some r
  | None, Some t => Some (terminated_reason t)
  | None, None =>
      if is_ready c && bool_decide (api.ContainerStatus_Image c = PauseImage) then Some "Stopped" else None
  end.

Definition started_at (c : api.ContainerStatus) : Time :=
  if is_ready c then default 0 (api.Running c) else 0.

Fixpoint first_some {A B} (f : A → option B) (l : list A) : option B :=
  match l with
  | [] => None
  | x :: l => match f x with Some b => Some b | None => first_some f l end
  end.

Definition zsum {A} (f : A → Z) (l : list A) : Z := foldr (λ x acc, f x + acc) 0 l.
Definition zcount {A} (f : A → bool) (l : list A) : Z := zsum (λ x, if f x then 1 else 0) l.
Definition zmax {A} (f : A → Z) (l : list A) : Z := foldr (λ x acc, Z.max acc (f x)) 0 l.

Lemma zmax_nonneg {A} (f : A → Z) l : 0 <= zmax f l.
Proof. induction l as [|x l IH]; simpl; lia. Qed.

(** One turn of the loop, by what it adds. *)
Lemma scan_container_spec c st :
  0 <= scan_birth st →
  scan_container c st
  = mkScan (api.RestartCount c + scan_restarts st)
      ((if is_ready c then 1 else 0) + scan_ready st)
      (default (scan_reason st) (container_reason c))
      (Z.max (scan_birth st) (started_at c)).
Proof.
  intros Hb. unfold scan_container, container_reason, started_at, is_ready.
  rewrite (Z.add_comm (api.RestartCount c)).
  destruct (given (api.Waiting c)); simpl; [f_equal; lia|].
  destruct (api.Terminated c); simpl; [f_equal; lia|].
  destruct (api.Ready c), (api.Running c) as [t|]; simpl; try (f_equal; lia).
  rewrite (Z.add_comm 1). f_equal; [by case_bool_decide|].
  destruct (Z.ltb_spec (scan_birth st) t); lia.
Qed.

Lemma scan_containers_spec cs reason :
  foldr scan_container (mkScan 0 0 reason 0) cs
  = mkScan (zsum api.RestartCount cs) (zcount is_ready cs)
      (default reason (first_some container_reason cs)) (zmax started_at cs).
Proof.
  induction cs as [|c cs IH]; [done|]. cbn [foldr]. rewrite IH.
  rewrite scan_container_spec by apply zmax_nonneg.
  cbn [scan_restarts scan_ready scan_reason scan_birth first_some].
  by destruct (container_reason c).
Qed.

(** The status column of a pod, by priority: "Terminating" once deletion was
    requested; else what the first container (in order) that is waiting with a
    reason, terminated, or running the pause image says; else the reason of the pod
    status; else "Not" and the condition type when the pod is not ready; else its
    phase. *)
Theorem pod_row_status pod age containerAge :
  page.Pod_Status (pod_row pod age containerAge)
  = match api.DeletionTimestamp (api.Pod_ObjectMeta pod),
          first_some container_reason (api.ContainerStatuses (api.Pod_Status pod)) with
    | Some _, _ => "Terminating"
    | None, Some reason => reason
    | None, None => initial_reason (api.Pod_Status pod)
    end.
Proof.
  unfold pod_row. destruct (match GetSinglePodTotalRequestsAndLimits pod with Ok _ => _ | Err _ => _ end).
  simpl. unfold pod_reason, scan_pod. rewrite scan_containers_spec. simpl.
  by repeat case_match.
Qed.

(** The counters of a pod row: ready containers are those running, reported
    ready and neither waiting with a reason nor terminated (so never more than there
    are statuses); restarts are added up; the container birth is the latest start of
    a ready container, the zero time when there is none. *)
Theorem pod_row_counters pod age containerAge :
  let row := pod_row pod age containerAge in
  let statuses := api.ContainerStatuses (api.Pod_Status pod) in
  page.Pod_ReadyContainers row = zcount is_ready statuses
  ∧ 0 <= page.Pod_ReadyContainers row <= Z.of_nat (length statuses)
  ∧ page.Pod_Restarts row = zsum api.RestartCount statuses
  ∧ page.Pod_ContainerBirth row = zmax started_at statuses
  ∧ (∀ c t, c ∈ statuses → is_ready c = true → api.Running c = Some t →
       t <= page.Pod_ContainerBirth row).
Proof.
  unfold pod_row. destruct (match GetSinglePodTotalRequestsAndLimits pod with Ok _ => _ | Err _ => _ end).
  simpl. unfold scan_pod. rewrite scan_containers_spec. simpl.
  set (l := api.ContainerStatuses (api.Pod_Status pod)). clearbody l. split_and!; try done.
  - unfold zcount. induction l as [|x l IH]; simpl; [lia|]. destruct (is_ready x); lia.
  - unfold zcount. induction l as [|x l IH]; simpl; [lia|]. destruct (is_ready x); lia.
  - intros c t Hc Hr Ht. induction l as [|x l IH]; [by apply not_elem_of_nil in Hc|].
    simpl. apply elem_of_cons in Hc as [->|Hc]; [|specialize (IH Hc); lia].
    unfold started_at at 2. rewrite Hr, Ht. simpl. lia.
Qed.

(** The image a row stands for. *)
Definition full_image (i : page.PodImage) : string :=
  if page.PodImage_PrivateRepo i then PrivateRepoPrefix +:+ page.PodImage_Image i
  else page.PodImage_Image i.

(** Shortening image names loses nothing: one row per container, in order, and
    putting the repository prefix back gives the image the container runs. *)
Theorem populatePodImages_full containers :
  full_image <$> populatePodImages containers = api.Image <$> containers.
Proof.
  unfold populatePodImages. rewrite <- list_fmap_compose. apply list_fmap_ext.
  intros i c _. simpl. unfold full_image. destruct (HasPrefix _ _) eqn:E; simpl; [|done].
  apply HasPrefix_spec in E as [t ->]. by rewrite TrimPrefix_app.
Qed.

(** The ports of a pod on the pod network are the entries of the PortMapping
    note in its status message, the "/TCP" of each removed; without such a note the
    row has a single empty port (the empty text splits into one empty piece). *)
Theorem pod_ports_mapping pod entries :
  api.HostNetwork (api.Pod_Spec pod) = false →
  (entries ≠ [] → Forall (λ e, sfree "," e = true ∧ sforallb dot e = true) entries →
   api.Message (api.Pod_Status pod) = "PortMapping(" +:+ Join entries "," +:+ ")" →
   pod_ports pod = (λ e, TrimSuffix e "/TCP") <$> entries)
  ∧ (FindSubmatch portMapping (api.Message (api.Pod_Status pod)) = None → pod_ports pod = [""]).
Proof.
  intros Hn. unfold pod_ports, port_string. rewrite Hn. split; [|by intros ->].
  intros Hne Hall ->. rewrite portMapping_capture.
  - rewrite Split_Join; [done|done|]. eapply Forall_impl; [exact Hall|]. by intros ? [].
  - clear Hne. induction Hall as [|e l [_ He] Hl IH]; [done|].
    destruct l as [|e' l]; [done|]. rewrite Join_cons by done.
    by rewrite !sforallb_app, He, IH.
Qed.

End pods.

(** ** Witness *)

Definition demo_mapped_pod : @api.Pod demo_KubeApi :=
  @api.mkPod demo_KubeApi api.ObjectMeta_zero (@api.mkPodSpec demo_KubeApi [] "" false ∅)
    (api.mkPodStatus "Running" [] "PortMapping(8080/TCP,53/UDP)" "" "" [] ∅).

Lemma pod_ports_mapping_witness : @pod_ports demo_KubeApi demo_mapped_pod = ["8080"; "53/UDP"].
Proof.
  exact (proj1 (@pod_ports_mapping demo_KubeApi demo_mapped_pod ["8080/TCP"; "53/UDP"] eq_refl)
    ltac:(discriminate) ltac:(repeat constructor) eq_refl).
Defined.
