(* ===== verification/Percentages.v ===== *)
(** * The percentages of the node pages

    computeNodeResources, computePodResources and genOneNode of main.go show parts of a
    node's capacity as whole percent, computed in float64. *)

From stdpp Require Import prelude strings.
From Stdlib Require Import ZArith Lia.
From Corelib Require Import SpecFloat.
From S2P Require Import Prelude GoStrings GoSort Float64 FloatRound Api Page KubeUtil Client Render.

Local Open Scope Z_scope.

(** The value before the conversion. *)
Lemma percent_near part whole :
  0 < part < 2 ^ 53 → 0 < whole < 2 ^ 53 →
  ∃ v, rep false (f64_mul (f64_div (float64_of_int part) (float64_of_int whole)) (float64_of_int 100)) v
    ∧ 2 ^ 51 * Z.abs (v * whole - 100 * part * P) <= 100 * part * P.
Proof.
  intros Hp Hw.
  destruct (rep_div false _ _ _ _ (rep_of_int false part ltac:(lia)) (rep_of_int false whole ltac:(lia))) as (x & Hx & Hnx);
    [unfold P; lia..|].
  assert (2 ^ 53 * Z.abs (x * whole - part * P) <= x * whole) as Hnx'.
  { replace (x * (whole * P) - part * P * P) with ((x * whole - part * P) * P) in Hnx by ring.
    replace (x * (whole * P)) with (x * whole * P) in Hnx by ring.
    rewrite Z.abs_mul, (Z.abs_eq P), Z.mul_assoc in Hnx by (unfold P; lia). by apply Z.mul_le_mono_pos_r in Hnx; [|unfold P; lia]. }
  assert (2 ^ 140 <= x < 2 ^ 260) as Hxb.
  { split; [destruct (Z.le_gt_cases (2 ^ 140) x); [done|exfalso]|destruct (Z.lt_ge_cases x (2 ^ 260)); [done|exfalso]].
    - assert (x * whole <= 2 ^ 193) by nia. unfold P in *. lia.
    - assert (2 ^ 260 <= x * whole) by nia. unfold P in *. lia. }
  destruct (rep_mul false _ _ _ _ Hx (rep_of_int false 100 ltac:(lia)) Hxb ltac:(unfold P; lia)) as (v & Hv & Hnv).
  exists v. split; [done|].
  assert (2 ^ 53 * Z.abs (v - 100 * x) <= v) as Hnv'.
  { replace (v * P - x * (100 * P)) with ((v - 100 * x) * P) in Hnv by ring.
    rewrite Z.abs_mul, (Z.abs_eq P), Z.mul_assoc in Hnv by (unfold P; lia). by apply Z.mul_le_mono_pos_r in Hnv; [|unfold P; lia]. }
  assert (2 ^ 53 * Z.abs (v * whole - 100 * (x * whole)) <= v * whole) as Hnw.
  { replace (v * whole - 100 * (x * whole)) with ((v - 100 * x) * whole) by ring. rewrite Z.abs_mul, (Z.abs_eq whole) by lia. nia. }
  rewrite <- (Z.mul_assoc 100). clear -Hnx' Hnw.
  generalize dependent (v * whole). generalize dependent (x * whole). generalize dependent (part * P). intros. lia.
Qed.

(** C25. Percentages are exact: a part of a capacity, both below 2^53 units (8 TiB of memory in
    thousandths of a byte), is shown as the whole number of percent of a part that differs by at
    most one hundredth of a unit and one part in 2^51; so the shown number is too
    small by one only where there is almost no rest. *)
Theorem percent_is_exact `{Platform} part whole :
  0 <= part < 2 ^ 53 → 0 < whole < 2 ^ 53 →
  ∃ n, Z.abs (n - 100 * part) <= 1 + 100 * part / 2 ^ 51 ∧ percent part whole = n / whole.
Proof.
  intros Hp Hw. unfold percent. assert (part = 0 ∨ 0 < part) as [->|Hp0] by lia.
  { exists 0. split; [done|]. rewrite Z.div_0_l by lia.
    destruct (rep_of_int false whole ltac:(lia)) as (m & e & E & _). simpl in E. unfold f64_div. rewrite E. done. }
  destruct (percent_near part whole ltac:(lia) Hw) as (v & Hv & Hn). apply rep_trunc in Hv. cbn iota in Hv.
  unfold int64_of_float. rewrite Hv.
  assert (0 <= v / P <= 2 ^ 61) as Hb.
  { assert (0 <= v * whole <= 2 ^ 61 * P) by (unfold P in *; lia).
    split; [apply Z.div_pos; [|done]; nia|]. apply Z.div_le_upper_bound; [done|]. nia. }
  rewrite (proj2 (Z.leb_le _ _)), (proj2 (Z.leb_le _ _)) by (unfold min_int64, max_int64; lia). cbn [andb].
  pose proof (Z.mul_div_le v P ltac:(done)) as H1. pose proof (Z.mul_succ_div_gt v P ltac:(done)) as H2.
  generalize dependent (v / P). intros p _ _ H1 H2.
  assert (2 ^ 51 * (p * whole) <= 2 ^ 51 * (100 * part) + 100 * part) as H3.
  { apply (Z.mul_le_mono_pos_r _ _ P); [done|]. assert (p * whole * P <= v * whole) by nia. lia. }
  assert (2 ^ 51 * (100 * part) - 100 * part <= 2 ^ 51 * ((p + 1) * whole)) as H4.
  { apply (Z.mul_le_mono_pos_r _ _ P); [done|]. assert (v * whole <= (p + 1) * whole * P) by nia. lia. }
  assert (p * whole - 100 * part <= 100 * part / 2 ^ 51) as H5 by (apply Z.div_le_lower_bound; lia).
  assert (100 * part - (p + 1) * whole <= 100 * part / 2 ^ 51) as H6 by (apply Z.div_le_lower_bound; lia).
  rewrite Z.mul_add_distr_r, Z.mul_1_l in H6. set (n := Z.max (p * whole) (Z.min (100 * part) (p * whole + whole - 1))).
  assert (0 <= 100 * part / 2 ^ 51) by (apply Z.div_pos; lia). exists n. assert (p * whole <= n < p * whole + whole) by lia. split; [lia|].
  apply (Z.div_unique_pos _ whole p (n - p * whole)); lia.
Qed.


(** ** Witness *)

(** 29 of 100 is shown as 28 percent. *)
Lemma percent_is_exact_witness :
  @percent amd64 29 100 = 28
  ∧ ∃ n, Z.abs (n - 100 * 29) <= 1 + 100 * 29 / 2 ^ 51 ∧ @percent amd64 29 100 = n / 100.
Proof.
  split; [vm_compute; reflexivity|]. apply (@percent_is_exact amd64 29 100); lia.
Defined.

(** A node that reports no capacity: the conversion is left to the platform, and the pages show
    the smallest int64. *)
Lemma percent_of_nothing : @percent amd64 0 0 = min_int64 ∧ @percent amd64 250 0 = min_int64.
Proof. split; vm_compute; reflexivity. Qed.
