(* ===== verification/PodActions.v ===== *)
(** * Actions on pods: setPodImage, stopPod, startPod and syncPod of main.go

    An action reads a pod, edits the copy and writes it back.  The edits are pure
    functions that may panic (an index past the containers, a write to a nil
    annotation map); the programs around them are the reads and writes in order.
    A stopped container runs the pause image, its own image kept in the annotation
    "pausedN". *)

From stdpp Require Import prelude gmap strings.
From Stdlib Require Import ZArith NArith Ascii.
From S2P Require Import Prelude GoStrings GoSort Api Client Render.

Section actions.
Context `{K : KubeApi, MR : MapRange}.

(** [fmt.Sprintf("paused%d", i)]. *)
Definition paused (i : nat) : string := "paused" +:+ FormatInt (Z.of_nat i).

(** ** The edits *)

(** [for i, image := range fullImages]: an empty image leaves the container alone. *)
Fixpoint set_images_loop (images : list string) (i : nat) (cs : list api.Container) :
    go (list api.Container) :=
  match images with
  | [] => Val cs
  | image :: images =>
      if bool_decide (image = "") then set_images_loop images (S i) cs
      else
        c ← index cs i;
        cs ← set_index cs i (set_Image image c);
        set_images_loop images (S i) cs
  end.

(** [for i, check := range checks] of stopPod. *)
Fixpoint stop_loop (checks : list bool) (i : nat) (cs : list api.Container) (ann : gomap string) :
    go (list api.Container * gomap string) :=
  match checks with
  | [] => Val (cs, ann)
  | check :: checks =>
      c ← index cs i;
      if bool_decide (api.Image c = PauseImage) then stop_loop checks (S i) cs ann
      else if check then
        ann ← gm_set ann (paused i) (api.Image c);
        cs ← set_index cs i (set_Image PauseImage c);
        stop_loop checks (S i) cs ann
      else stop_loop checks (S i) cs ann
  end.

(** [for i, check := range checks] of startPod: a missing annotation reads as the
    empty string. *)
Fixpoint start_loop (checks : list bool) (i : nat) (cs : list api.Container) (ann : gomap string) :
    go (list api.Container * gomap string) :=
  match checks with
  | [] => Val (cs, ann)
  | check :: checks =>
      c ← index cs i;
      if negb (bool_decide (api.Image c = PauseImage)) then start_loop checks (S i) cs ann
      else if check then
        cs ← set_index cs i (set_Image (default "" (gm_get ann (paused i))) c);
        start_loop checks (S i) cs (gm_delete ann (paused i))
      else start_loop checks (S i) cs ann
  end.

Definition edit_containers (cs : list api.Container) (ann : gomap string) (pod : api.Pod) : api.Pod :=
  set_Pod_Meta (set_Annotations ann (api.Pod_ObjectMeta pod))
    (set_Pod_Spec (set_Containers cs (api.Pod_Spec pod)) pod).

Definition set_images (images : list string) (pod : api.Pod) : go api.Pod :=
  cs ← set_images_loop images 0 (api.Containers (api.Pod_Spec pod));
  Val (set_Pod_Spec (set_Containers cs (api.Pod_Spec pod)) pod).

Definition stop_containers (checks : list bool) (pod : api.Pod) : go api.Pod :=
  '(cs, ann) ← stop_loop checks 0 (api.Containers (api.Pod_Spec pod)) (api.Annotations (api.Pod_ObjectMeta pod));
  Val (edit_containers cs ann pod).

Definition start_containers (checks : list bool) (pod : api.Pod) : go api.Pod :=
  '(cs, ann) ← start_loop checks 0 (api.Containers (api.Pod_Spec pod)) (api.Annotations (api.Pod_ObjectMeta pod));
  Val (edit_containers cs ann pod).

(** The loop that copies the "config/" annotations of a template. *)
Definition copy_config (from : gomap string) (to : gmap string string) : gmap string string :=
  foldl (λ m (kv : string * string), if HasPrefix kv.1 "config/" then <[kv.1 := kv.2]> m else m)
    to (map_range (gm_entries from)).

(** The pod of syncPod: the template's spec on the node the pod is on. *)
Definition sync_with (rcname : string) (template : api.PodTemplateSpec) (pod : api.Pod) : api.Pod :=
  let nodeName := api.NodeName (api.Pod_Spec pod) in
  let spec := set_NodeName nodeName (api.Template_Spec template) in
  let ann := gm_entries (api.Annotations (api.Pod_ObjectMeta pod)) in
  let ann := <["copied-from" := rcname]> ann in
  let ann := copy_config (api.Annotations (api.Template_ObjectMeta template)) ann in
  set_Pod_Meta (set_Annotations (Some ann) (api.Pod_ObjectMeta pod)) (set_Pod_Spec spec pod).

(** ** The programs *)

(** Read, edit, write back; the result is the error returned. *)
Definition modify_pod (namespace podname : string) (edit : api.Pod → go api.Pod) : prog (option string) :=
  cl ← Get;
  r ← call (Pods_Get cl namespace podname);
  match r with
  | (_, Some err) => Ret (Some err)
  | (p, None) =>
      pod ← lift (deref p);
      pod ← lift (edit pod);
      cl ← Get;
      r ← call (Pods_Update cl namespace pod);
      Ret r.2
  end.

Definition setPodImage (namespace podname : string) (fullImages : list string) : prog (option string) :=
  modify_pod namespace podname (set_images fullImages).

Definition stopPod (namespace podname : string) (checks : list bool) : prog (option string) :=
  modify_pod namespace podname (stop_containers checks).

Definition startPod (namespace podname : string) (checks : list bool) : prog (option string) :=
  modify_pod namespace podname (start_containers checks).

Definition syncPod (namespace podname : string) : prog (option string) :=
  cl ← Get;
  r ← call (Pods_Get cl namespace podname);
  match r with
  | (_, Some err) => Ret (Some err)
  | (p, None) =>
      pod ← lift (deref p);
      match gm_get (api.Labels (api.Pod_ObjectMeta pod)) "managed-by" with
      | None => Ret (Some "Need a `managed-by` label")
      | Some rcname =>
          cl ← Get;
          r ← call (RCs_Get cl namespace rcname);
          match r with
          | (_, Some err) => Ret (Some err)
          | (rc, None) =>
              rc ← lift (deref rc);
              template ← lift (deref (api.RC_Spec_Template rc));
              cl ← Get;
              r ← call (Pods_Update cl namespace (sync_with rcname template pod));
              Ret r.2
          end
      end
  end.

End actions.

(** ** Closed forms of the loops *)

Section closed_forms.
Context `{K : KubeApi, MR : MapRange}.
Implicit Types (cs : list api.Container) (a : gmap string string).

Lemma FormatInt_nat_inj (i j : nat) : FormatInt (Z.of_nat i) = FormatInt (Z.of_nat j) → i = j.
Proof.
  unfold FormatInt. destruct (Z.of_nat i) eqn:Ei, (Z.of_nat j) eqn:Ej; try lia;
    intros ?%FormatUint_inj; lia.
Qed.

Lemma paused_inj i j : paused i = paused j → i = j.
Proof. intros H. unfold paused in H. apply (inj (String.app "paused")) in H. by apply FormatInt_nat_inj. Qed.

(** The check box of container [j] when the boxes start at container [i];
    containers outside the boxes have none. *)
Definition check_at (i : nat) (checks : list bool) (j : nat) : bool :=
  if decide (i ≤ j) then default false (checks !! (j - i)) else false.

Lemma check_at_cons i b checks j :
  check_at i (b :: checks) j = if decide (j = i) then b else check_at (S i) checks j.
Proof.
  unfold check_at. destruct (decide (j = i)) as [->|Hne].
  - rewrite decide_True by lia. by rewrite Nat.sub_diag.
  - destruct (decide (i ≤ j)), (decide (S i ≤ j)); try lia.
    by replace (j - i) with (S (j - S i)) by lia.
Qed.

Lemma check_at_before i checks : check_at (S i) checks i = false.
Proof. unfold check_at. by rewrite decide_False by lia. Qed.

Lemma check_at_nil i j : check_at i [] j = false.
Proof. unfold check_at. by case_decide. Qed.

Definition is_paused (c : api.Container) : bool := bool_decide (api.Image c = PauseImage).

(** The effect of a check box on a container. *)
Definition stop_container (check : bool) (c : api.Container) : api.Container :=
  if check && negb (is_paused c) then set_Image PauseImage c else c.

Lemma stop_container_paused c : is_paused (stop_container true c) = true.
Proof. unfold stop_container. by destruct (is_paused c) eqn:E. Qed.

Definition start_container (check : bool) (kept : option string) (c : api.Container) : api.Container :=
  if check && is_paused c then set_Image (default "" kept) c else c.

(** Container [j] is stopped (started) by the check boxes. *)
Definition stops i checks cs j : Prop :=
  ∃ c, cs !! j = Some c ∧ check_at i checks j = true ∧ is_paused c = false.
Definition starts i checks cs j : Prop :=
  ∃ c, cs !! j = Some c ∧ check_at i checks j = true ∧ is_paused c = true.

Lemma set_index_Some cs i c d : cs !! i = Some c → set_index cs i d = Val (<[i := d]> cs).
Proof. intros H. unfold set_index. by rewrite H. Qed.

(** What the turns of stopPod from container [i] on do: the containers are
    stopped, their images are kept under "pausedN", and no other annotation
    changes. *)
Definition stop_post i checks cs a cs' a' : Prop :=
  (∀ j, cs' !! j = stop_container (check_at i checks j) <$> cs !! j)
  ∧ (∀ j c, cs !! j = Some c → check_at i checks j = true → is_paused c = false →
       a' !! paused j = Some (api.Image c))
  ∧ (∀ k, (∀ j, stops i checks cs j → k ≠ paused j) → a' !! k = a !! k).

(** One more turn in front. *)
Lemma stop_post_cons i b checks cs a c cs1 a1 cs' a' :
  cs !! i = Some c →
  cs1 = <[i := stop_container b c]> cs →
  a1 = (if b && negb (is_paused c) then <[paused i := api.Image c]> a else a) →
  stop_post (S i) checks cs1 a1 cs' a' → stop_post i (b :: checks) cs a cs' a'.
Proof.
  intros Hc -> -> (H1 & H2 & H3).
  assert (∀ j, stops (S i) checks (<[i := stop_container b c]> cs) j →
               j ≠ i ∧ stops i (b :: checks) cs j) as Hst.
  { intros j (d & Hd & Hj & Hpd). assert (j ≠ i) by (intros ->; by rewrite check_at_before in Hj).
    split; [done|]. exists d. rewrite list_lookup_insert_ne in Hd by done.
    by rewrite check_at_cons, decide_False. }
  assert (stops i (b :: checks) cs i ↔ b && negb (is_paused c) = true) as Hi.
  { unfold stops. rewrite check_at_cons, decide_True, Hc, andb_true_iff, negb_true_iff by done.
    naive_solver. }
  split_and!.
  - intros j. rewrite H1, check_at_cons. case_decide as Hj; [subst|by rewrite list_lookup_insert_ne].
    by rewrite list_lookup_insert_eq, check_at_before, Hc by by eapply lookup_lt_Some.
  - intros j d Hd Hj Hpd. rewrite check_at_cons in Hj. case_decide as Hji.
    + subst. rewrite H3; [|intros j' [Hj' _]%Hst Heq%paused_inj; done].
      rewrite Hc in Hd. simplify_eq. rewrite Hpd. simpl. by simplify_map_eq.
    + apply H2; [by rewrite list_lookup_insert_ne|done|done].
  - intros k Hk. rewrite H3 by (intros j [_ Hj]%Hst; by apply Hk).
    destruct (b && negb (is_paused c)) eqn:E; [|done].
    apply lookup_insert_ne. intros <-. by eapply Hk; [apply Hi|].
Qed.

Lemma stop_loop_spec checks i cs a :
  i + length checks ≤ length cs →
  ∃ cs' a', stop_loop checks i cs (Some a) = Val (cs', Some a') ∧ stop_post i checks cs a cs' a'.
Proof.
  revert i cs a. induction checks as [|b checks IH]; intros i cs a Hlen; simpl in *.
  { exists cs, a. split; [done|]. unfold stop_post, stops. setoid_rewrite check_at_nil.
    split_and!; [|done|done]. intros j. unfold stop_container. simpl. by destruct (cs !! j). }
  destruct (lookup_lt_is_Some_2 cs i ltac:(lia)) as [c Hc].
  destruct (IH (S i) (<[i := stop_container b c]> cs)
    (if b && negb (is_paused c) then <[paused i := api.Image c]> a else a)) as (cs' & a' & Heq & Hpost).
  { rewrite length_insert. lia. }
  exists cs', a'. split; [|by eapply stop_post_cons]. rewrite <- Heq.
  unfold index. rewrite Hc. simpl. fold (is_paused c). unfold stop_container.
  destruct (is_paused c), b; simpl; rewrite ?(list_insert_id _ _ _ Hc); try done.
  by rewrite (set_index_Some _ _ _ _ Hc).
Qed.

(** What the turns of startPod from container [i] on do: the containers get back
    what "pausedN" holds (nothing: the empty image), those annotations are removed,
    and no other annotation changes. *)
Definition start_post i checks cs ann cs' ann' : Prop :=
  (∀ j, cs' !! j = start_container (check_at i checks j) (gm_get ann (paused j)) <$> cs !! j)
  ∧ (ann' = None ↔ ann = None)
  ∧ (∀ j, starts i checks cs j → gm_get ann' (paused j) = None)
  ∧ (∀ k, (∀ j, starts i checks cs j → k ≠ paused j) → gm_get ann' k = gm_get ann k).

Lemma gm_get_delete (ann : gomap string) k k' :
  gm_get (gm_delete ann k) k' = if decide (k = k') then None else gm_get ann k'.
Proof. destruct ann; simpl; [apply lookup_delete|by case_decide]. Qed.

Lemma start_post_cons i b checks cs ann c cs1 ann1 cs' ann' :
  cs !! i = Some c →
  cs1 = <[i := start_container b (gm_get ann (paused i)) c]> cs →
  ann1 = (if b && is_paused c then gm_delete ann (paused i) else ann) →
  start_post (S i) checks cs1 ann1 cs' ann' → start_post i (b :: checks) cs ann cs' ann'.
Proof.
  intros Hc -> -> (H1 & Hn & H2 & H3).
  assert (∀ j, j ≠ i → starts (S i) checks (<[i := start_container b (gm_get ann (paused i)) c]> cs) j
                       ↔ starts i (b :: checks) cs j) as Hst.
  { intros j Hj. unfold starts. by rewrite check_at_cons, decide_False, list_lookup_insert_ne. }
  assert (¬ starts (S i) checks (<[i := start_container b (gm_get ann (paused i)) c]> cs) i) as Hni.
  { intros (d & _ & Hj & _). by rewrite check_at_before in Hj. }
  assert (starts i (b :: checks) cs i ↔ b && is_paused c = true) as Hi.
  { unfold starts. rewrite check_at_cons, decide_True, Hc, andb_true_iff by done. naive_solver. }
  assert (∀ k, gm_get (if b && is_paused c then gm_delete ann (paused i) else ann) k
    = if b && is_paused c && bool_decide (paused i = k) then None else gm_get ann k) as Hget.
  { intros k. destruct (b && is_paused c); [|done]. rewrite gm_get_delete. simpl.
    by case_decide; case_bool_decide. }
  split_and!.
  - intros j. rewrite H1, check_at_cons. case_decide as Hj.
    + subst. by rewrite list_lookup_insert_eq, check_at_before, Hc by by eapply lookup_lt_Some.
    + rewrite list_lookup_insert_ne, Hget, bool_decide_eq_false_2, andb_false_r; [done| |done].
      by intros ?%paused_inj.
  - rewrite Hn. destruct (b && is_paused c), ann; done.
  - intros j Hj. destruct (decide (j = i)) as [->|Hne]; [|by apply H2, Hst].
    rewrite H3 by (intros j' Hj' ->%paused_inj; done). apply Hi in Hj.
    by rewrite Hget, Hj, bool_decide_eq_true_2.
  - intros k Hk. rewrite H3 by (intros j Hj; apply Hk, Hst; [by intros ->|done]).
    rewrite Hget. destruct (b && is_paused c) eqn:E; [|done]. simpl.
    rewrite bool_decide_eq_false_2; [done|]. intros <-. by eapply Hk; [apply Hi|].
Qed.

Lemma start_loop_spec checks i cs ann :
  i + length checks ≤ length cs →
  ∃ cs' ann', start_loop checks i cs ann = Val (cs', ann') ∧ start_post i checks cs ann cs' ann'.
Proof.
  revert i cs ann. induction checks as [|b checks IH]; intros i cs ann Hlen; simpl in *.
  { exists cs, ann. split; [done|]. unfold start_post, starts. setoid_rewrite check_at_nil.
    split_and!; [|done|by intros j (?&_&?&_)|done].
    intros j. unfold start_container. simpl. by destruct (cs !! j). }
  destruct (lookup_lt_is_Some_2 cs i ltac:(lia)) as [c Hc].
  destruct (IH (S i) (<[i := start_container b (gm_get ann (paused i)) c]> cs)
    (if b && is_paused c then gm_delete ann (paused i) else ann)) as (cs' & ann' & Heq & Hpost).
  { rewrite length_insert. lia. }
  exists cs', ann'. split; [|by eapply start_post_cons]. rewrite <- Heq.
  unfold index. rewrite Hc. simpl. fold (is_paused c). unfold start_container.
  destruct (is_paused c), b; simpl; rewrite ?(list_insert_id _ _ _ Hc); try done.
  by rewrite (set_index_Some _ _ _ _ Hc).
Qed.

(** The loop cannot succeed with more check boxes than containers, nor stop a
    container of a pod whose annotation map is nil. *)
Lemma stop_loop_length checks i cs ann r :
  i ≤ length cs → stop_loop checks i cs ann = Val r → i + length checks ≤ length cs.
Proof.
  revert i cs ann. induction checks as [|b checks IH]; intros i cs ann Hi H; simpl in *; [lia|].
  unfold index in H. destruct (cs !! i) as [c|] eqn:Hc; [simpl in H|done].
  apply lookup_lt_Some in Hc as Hlt.
  destruct (bool_decide _); [apply IH in H; lia|]. destruct b; [|apply IH in H; lia].
  destruct ann as [a|]; [simpl in H|done]. rewrite (set_index_Some _ _ _ _ Hc) in H. simpl in H.
  apply IH in H; rewrite length_insert in *; lia.
Qed.

Lemma start_loop_length checks i cs ann r :
  i ≤ length cs → start_loop checks i cs ann = Val r → i + length checks ≤ length cs.
Proof.
  revert i cs ann. induction checks as [|b checks IH]; intros i cs ann Hi H; simpl in *; [lia|].
  unfold index in H. destruct (cs !! i) as [c|] eqn:Hc; [simpl in H|done].
  apply lookup_lt_Some in Hc as Hlt.
  destruct (negb _); [apply IH in H; lia|]. destruct b; [|apply IH in H; lia].
  rewrite (set_index_Some _ _ _ _ Hc) in H. simpl in H.
  apply IH in H; rewrite length_insert in *; lia.
Qed.

Lemma stop_loop_nil checks i cs :
  i + length checks ≤ length cs →
  (∃ j, stops i checks cs j) ∧ stop_loop checks i cs None = Halt (HPanic NilMapAssignment)
  ∨ (∀ j, ¬ stops i checks cs j) ∧ stop_loop checks i cs None = Val (cs, None).
Proof.
  revert i. induction checks as [|b checks IH]; intros i Hlen; simpl in *.
  { right. split; [|done]. intros j (c & _ & H & _). by rewrite check_at_nil in H. }
  destruct (lookup_lt_is_Some_2 cs i ltac:(lia)) as [c Hc].
  unfold index. rewrite Hc. simpl. fold (is_paused c).
  destruct (b && negb (is_paused c)) eqn:Eb.
  { apply andb_true_iff in Eb as [-> Hp%negb_true_iff]. rewrite Hp. left. split; [|done].
    exists i, c. by rewrite check_at_cons, decide_True. }
  assert (∀ j, stops i (b :: checks) cs j ↔ stops (S i) checks cs j) as Hst.
  { intros j. unfold stops. rewrite check_at_cons. case_decide as Hj; [subst|done].
    rewrite check_at_before. split; [|naive_solver]. intros (d & Hd & -> & Hp).
    rewrite Hc in Hd. simplify_eq. by rewrite Hp in Eb. }
  setoid_rewrite Hst. specialize (IH (S i) ltac:(lia)).
  by destruct (is_paused c), b.
Qed.

End closed_forms.

(** ** What the edits do to a pod *)

Section pods.
Context `{K : KubeApi, MR : MapRange}.
Implicit Types pod : api.Pod.

Abbreviation containers pod := (api.Containers (api.Pod_Spec pod)).
Abbreviation annotations pod := (api.Annotations (api.Pod_ObjectMeta pod)).

Lemma edit_containers_id cs ann pod :
  cs = containers pod → ann = annotations pod → edit_containers cs ann pod = pod.
Proof. intros -> ->. by destruct pod as [[] [] ?]. Qed.

Lemma gm_get_entries {V} (m : gomap V) k : gm_get m k = gm_entries m !! k.
Proof. by destruct m. Qed.

Lemma stop_containers_Some checks pod a :
  annotations pod = Some a → length checks ≤ length (containers pod) →
  ∃ cs' a', stop_containers checks pod = Val (edit_containers cs' (Some a') pod)
            ∧ stop_post 0 checks (containers pod) a cs' a'.
Proof.
  intros Ha Hlen. destruct (stop_loop_spec checks 0 (containers pod) a) as (cs' & a' & H & Hpost); [done|].
  exists cs', a'. split; [|done]. unfold stop_containers. by rewrite Ha, H.
Qed.

Lemma stop_containers_None checks pod :
  annotations pod = None → length checks ≤ length (containers pod) →
  (∃ j, stops 0 checks (containers pod) j) ∧ stop_containers checks pod = Halt (HPanic NilMapAssignment)
  ∨ (∀ j, ¬ stops 0 checks (containers pod) j) ∧ stop_containers checks pod = Val pod.
Proof.
  intros Ha Hlen. unfold stop_containers. rewrite Ha.
  destruct (stop_loop_nil checks 0 (containers pod)) as [[? ->]|[? ->]]; [done|by left|right].
  split; [done|]. simpl. by rewrite edit_containers_id.
Qed.

Lemma stop_containers_length checks pod pod' :
  stop_containers checks pod = Val pod' → length checks ≤ length (containers pod).
Proof.
  unfold stop_containers. destruct (stop_loop _ _ _ _) as [r|] eqn:E; [|done]. intros _.
  apply stop_loop_length in E; lia.
Qed.

Lemma start_containers_length checks pod pod' :
  start_containers checks pod = Val pod' → length checks ≤ length (containers pod).
Proof.
  unfold start_containers. destruct (start_loop _ _ _ _) as [r|] eqn:E; [|done]. intros _.
  apply start_loop_length in E; lia.
Qed.

Lemma start_containers_post checks pod :
  length checks ≤ length (containers pod) →
  ∃ cs' ann', start_containers checks pod = Val (edit_containers cs' ann' pod)
              ∧ start_post 0 checks (containers pod) (annotations pod) cs' ann'.
Proof.
  intros Hlen. destruct (start_loop_spec checks 0 (containers pod) (annotations pod))
    as (cs' & ann' & H & Hpost); [done|].
  exists cs', ann'. split; [|done]. unfold start_containers. by rewrite H.
Qed.

(** No checked container is stopped, and the names their images are kept under
    are unused. *)
Definition all_started (checks : list bool) (cs : list api.Container) (a : gmap string string) : Prop :=
  ∀ j c, cs !! j = Some c → check_at 0 checks j = true →
         is_paused c = false ∧ a !! paused j = None.

Lemma restart_post checks cs a cs1 a1 ann1 cs2 ann2 :
  all_started checks cs a → stop_post 0 checks cs a cs1 a1 → gm_entries ann1 = a1 →
  start_post 0 checks cs1 ann1 cs2 ann2 → cs2 = cs ∧ gm_entries ann2 = a.
Proof.
  intros Hfresh (Hcs1 & Hkept & Ha1) <- (Hcs2 & _ & Hgone & Ha2). split.
  - apply list_eq. intros j. rewrite Hcs2, Hcs1, gm_get_entries.
    destruct (cs !! j) as [c|] eqn:Hc; [simpl|done].
    destruct (check_at 0 checks j) eqn:Hj; [|done].
    destruct (Hfresh j c Hc Hj) as [Hp _]. rewrite (Hkept j c Hc Hj Hp).
    unfold stop_container. rewrite Hp. by destruct c.
  - apply map_eq. intros k.
    destruct (decide (Exists (λ j, k = paused j ∧ check_at 0 checks j = true) (seq 0 (length cs))))
      as [(j & [_ Hlt]%elem_of_seq & -> & Hj)%Exists_exists|Hno].
    + destruct (lookup_lt_is_Some_2 cs j ltac:(lia)) as [c Hc].
      destruct (Hfresh j c Hc Hj) as [Hp ->]. rewrite <- gm_get_entries. apply Hgone.
      exists (stop_container true c). rewrite Hcs1, Hc, Hj. split_and!; [done|done|].
      unfold stop_container. by rewrite Hp.
    + assert (∀ j, (∃ c, cs !! j = Some c) → check_at 0 checks j = true → k ≠ paused j) as Hk.
      { intros j [c Hc%lookup_lt_Some] Hj ->. apply Hno, Exists_exists. exists j.
        rewrite elem_of_seq. split; [lia|done]. }
      rewrite <- !gm_get_entries, Ha2, gm_get_entries.
      * apply Ha1. intros j (c & Hc & Hj & _). apply Hk; eauto.
      * intros j (c & Hc & Hj & _). apply Hk; [|done]. rewrite Hcs1 in Hc. destruct (cs !! j); [eauto|done].
Qed.

(** C16. Restarting a pod, stopping its checked containers and starting them
    again, gives back the very same pod: every image comes back from the
    annotation it was kept in, and the annotations are removed. *)
Theorem restart_restores checks pod a :
  annotations pod = Some a → length checks ≤ length (containers pod) →
  all_started checks (containers pod) a →
  (stop_containers checks pod ≫= start_containers checks) = Val pod.
Proof.
  intros Ha Hlen Hfresh. destruct (stop_containers_Some checks pod a) as (cs1 & a1 & -> & H1); [done..|].
  destruct (start_containers_post checks (edit_containers cs1 (Some a1) pod)) as (cs2 & ann2 & Heq & H2).
  { simpl. rewrite (length_of_lookups _ _ _ (proj1 H1)). done. }
  simpl in *. rewrite Heq. destruct (restart_post _ _ _ _ _ (Some a1) _ _ Hfresh H1 eq_refl H2) as [-> Ha2].
  destruct H2 as (_ & Hnil & _). destruct ann2 as [a2|]; [|by destruct Hnil; naive_solver].
  simpl in Ha2. subst a2. f_equal. apply (edit_containers_id _ _ pod); done.
Qed.

(** Stopping succeeds exactly when there are no more check boxes than
    containers and either the pod has an annotation map or there is nothing to
    stop: a pod decoded without annotations makes stopPod panic (assignment to a
    nil map), the guard syncPod has being absent. *)
Theorem stop_containers_succeeds_iff checks pod :
  (∃ pod', stop_containers checks pod = Val pod') ↔
  length checks ≤ length (containers pod)
  ∧ (annotations pod ≠ None ∨ ∀ j, ¬ stops 0 checks (containers pod) j).
Proof.
  split.
  - intros [pod' H]. pose proof (stop_containers_length _ _ _ H) as Hlen. split; [done|].
    destruct (annotations pod) eqn:Ha; [by left|right].
    destruct (stop_containers_None _ _ Ha Hlen) as [[_ ?]|[? _]]; [congruence|done].
  - intros [Hlen Hor]. destruct (annotations pod) eqn:Ha.
    + destruct (stop_containers_Some _ _ _ Ha Hlen) as (cs & a & -> & _). eauto.
    + destruct (stop_containers_None _ _ Ha Hlen) as [[[j Hj] _]|[_ ->]]; [|eauto].
      destruct Hor as [?|Hno]; [done|]. by destruct (Hno j).
Qed.

(** Stopping is idempotent: stopping a stopped pod changes nothing, so the
    kept images are not overwritten by the pause image. *)
Theorem stop_containers_idempotent checks pod pod' :
  stop_containers checks pod = Val pod' → stop_containers checks pod' = Val pod'.
Proof.
  intros H. pose proof (stop_containers_length _ _ _ H) as Hlen.
  destruct (annotations pod) as [a|] eqn:Ha.
  - destruct (stop_containers_Some _ _ _ Ha Hlen) as (cs & a1 & H' & Hcs & _ & _).
    rewrite H in H'. go_inv.
    destruct (stop_containers_Some checks (edit_containers cs (Some a1) pod) a1) as (cs2 & a2 & Heq & Hcs2 & _ & Ha2).
    { done. } { simpl. by rewrite (length_of_lookups _ _ _ Hcs). }
    simpl in *. rewrite Heq. f_equal.
    assert (∀ j, ¬ stops 0 checks cs j) as Hno.
    { intros j (c & Hc & Hj & Hp). rewrite Hcs, Hj in Hc. destruct (containers pod !! j) as [d|]; [|done].
      injection Hc as <-. by rewrite stop_container_paused in Hp. }
    apply (edit_containers_id _ _ (edit_containers cs (Some a1) pod)); simpl.
    + apply list_eq. intros j. rewrite Hcs2. destruct (cs !! j) as [c|] eqn:Hc; [|done]. simpl. f_equal.
      unfold stop_container. destruct (check_at 0 checks j) eqn:Hj, (is_paused c) eqn:Hp; try done.
      by destruct (Hno j); exists c.
    + f_equal. apply map_eq. intros k. apply Ha2. intros j Hj. by destruct (Hno j).
  - destruct (stop_containers_None _ _ Ha Hlen) as [[_ ?]|[_ ?]]; congruence.
Qed.

(** Starting succeeds exactly when there are no more check boxes than
    containers.  A checked stopped container gets the image kept in its annotation,
    or the empty image when there is none, and the annotation is removed; every
    other container and annotation stays. *)
Theorem start_containers_effect checks pod :
  (length (containers pod) < length checks →
     ∀ pod', start_containers checks pod ≠ Val pod')
  ∧ (length checks ≤ length (containers pod) →
     ∃ pod', start_containers checks pod = Val pod'
       ∧ pod' = edit_containers (containers pod') (annotations pod') pod
       ∧ (∀ j, containers pod' !! j =
            start_container (check_at 0 checks j) (gm_get (annotations pod) (paused j)) <$> containers pod !! j)
       ∧ (∀ j, starts 0 checks (containers pod) j → gm_get (annotations pod') (paused j) = None)
       ∧ (∀ k, (∀ j, starts 0 checks (containers pod) j → k ≠ paused j) →
            gm_get (annotations pod') k = gm_get (annotations pod) k)).
Proof.
  split.
  - intros Hlt pod' H%start_containers_length. lia.
  - intros Hlen. destruct (start_containers_post checks pod Hlen) as (cs & ann & -> & H1 & _ & H2 & H3).
    by exists (edit_containers cs ann pod).
Qed.

(** *** setPodImage *)

Lemma set_images_loop_Val images i cs cs' :
  set_images_loop images i cs = Val cs' →
  (∀ j image, images !! j = Some image → image ≠ "" → i + j < length cs)
  ∧ (∀ j, cs' !! j = (λ c, match (if decide (i ≤ j) then images !! (j - i) else None) with
                           | Some image => if bool_decide (image = "") then c else set_Image image c
                           | None => c
                           end) <$> cs !! j).
Proof.
  revert i cs. induction images as [|image images IH]; intros i cs H; simpl in H.
  { go_inv. split; [done|]. intros j. destruct (cs' !! j); [simpl|done]. by case_decide. }
  destruct (bool_decide (image = "")) eqn:E.
  - apply IH in H as [H1 H2]. split.
    + intros [|j] im; simpl; [intros [= <-]; by apply bool_decide_eq_true in E|].
      intros Hj Hne. specialize (H1 j im Hj Hne). lia.
    + intros j. rewrite H2. destruct (cs !! j); [simpl|done]. f_equal.
      destruct (decide (i ≤ j)), (decide (S i ≤ j)); try done; try lia.
      * by replace (j - i) with (S (j - S i)) by lia.
      * replace (j - i) with 0 by lia. simpl. by rewrite E.
  - unfold index in H. destruct (cs !! i) as [c|] eqn:Hc; [simpl in H|done].
    rewrite (set_index_Some _ _ _ _ Hc) in H. simpl in H.
    apply lookup_lt_Some in Hc as Hlt. apply IH in H as [H1 H2]. rewrite length_insert in H1. split.
    + intros [|j] im; simpl; [intros; lia|]. intros Hj Hne. specialize (H1 j im Hj Hne). lia.
    + intros j. rewrite H2. destruct (decide (j = i)) as [->|Hne].
      * rewrite list_lookup_insert_eq, Hc by done. simpl.
        rewrite decide_False, decide_True, Nat.sub_diag by lia. simpl. by rewrite E.
      * rewrite list_lookup_insert_ne by done. destruct (cs !! j); [simpl|done]. f_equal.
        destruct (decide (i ≤ j)), (decide (S i ≤ j)); try done; try lia.
        by replace (j - i) with (S (j - S i)) by lia.
Qed.

Lemma set_images_loop_total images i cs :
  (∀ j image, images !! j = Some image → image ≠ "" → i + j < length cs) →
  ∃ cs', set_images_loop images i cs = Val cs'.
Proof.
  revert i cs. induction images as [|image images IH]; intros i cs H; simpl; [eauto|].
  assert (∀ cs', length cs' = length cs → ∃ r, set_images_loop images (S i) cs' = Val r) as Hrec.
  { intros cs' Hl. apply IH. intros j im Hj Hne. rewrite Hl. specialize (H (S j) im Hj Hne). lia. }
  case_bool_decide as Him; [by apply Hrec|].
  destruct (lookup_lt_is_Some_2 cs i) as [c Hc]; [specialize (H 0 image eq_refl Him); lia|].
  unfold index. rewrite Hc. simpl. rewrite (set_index_Some _ _ _ _ Hc). simpl.
  apply Hrec, length_insert.
Qed.

(** Setting images succeeds exactly when every image given is for a container
    of the pod; then container j runs the j-th image, an empty or absent one
    leaving it as it is, and nothing else of the pod changes. *)
Theorem set_images_effect images pod :
  ((∃ pod', set_images images pod = Val pod') ↔
     ∀ j image, images !! j = Some image → image ≠ "" → j < length (containers pod))
  ∧ (∀ pod', set_images images pod = Val pod' →
       pod' = set_Pod_Spec (set_Containers (containers pod') (api.Pod_Spec pod)) pod
       ∧ ∀ j, containers pod' !! j =
           (λ c, match images !! j with
                 | Some image => if bool_decide (image = "") then c else set_Image image c
                 | None => c
                 end) <$> containers pod !! j).
Proof.
  unfold set_images.
  assert (∀ cs, set_images_loop images 0 (containers pod) = Val cs →
    ∀ j image, images !! j = Some image → image ≠ "" → j < length (containers pod)) as Hlt.
  { by intros cs [H _]%set_images_loop_Val. }
  split; [split|].
  - intros [pod' H]. destruct (set_images_loop _ _ _) eqn:E; [by eapply Hlt|done].
  - intros H. destruct (set_images_loop_total images 0 (containers pod) H) as [cs ->]. by eexists.
  - intros pod' H. destruct (set_images_loop _ _ _) as [cs|] eqn:E; [|done]. simpl in H. go_inv.
    split; [done|]. apply set_images_loop_Val in E as [_ E]. intros j. simpl. rewrite E.
    rewrite decide_True by lia. by rewrite Nat.sub_0_r.
Qed.

End pods.

(** *** syncPod *)

Section sync.
Context `{K : KubeApi, ML : MapRangeLaws}.

Lemma copy_fold_lookup (l : list (string * string)) (m : gmap string string) k :
  NoDup l.*1 →
  (∀ v, (k, v) ∈ l →
     foldl (λ m (kv : string * string), if HasPrefix kv.1 "config/" then <[kv.1 := kv.2]> m else m) m l !! k
     = if HasPrefix k "config/" then Some v else m !! k)
  ∧ (k ∉ l.*1 →
     foldl (λ m (kv : string * string), if HasPrefix kv.1 "config/" then <[kv.1 := kv.2]> m else m) m l !! k
     = m !! k).
Proof.
  revert m. induction l as [|[k' v'] l IH]; intros m; simpl.
  { intros _. split; [intros v Hv; by apply not_elem_of_nil in Hv|done]. }
  intros [Hk' Hnd]%NoDup_cons. destruct (IH (if HasPrefix k' "config/" then <[k':=v']> m else m) Hnd) as [IH1 IH2].
  split.
  - intros v [[= -> ->]|Hv]%elem_of_cons.
    + rewrite IH2 by done. destruct (HasPrefix k' "config/"); by simplify_map_eq.
    + rewrite (IH1 v Hv). destruct (HasPrefix k "config/"); [done|].
      destruct (HasPrefix k' "config/"); [|done]. rewrite lookup_insert_ne; [done|]. intros ->.
      apply Hk', list_elem_of_fmap. by exists (k, v).
  - intros [Hne Hk]%not_elem_of_cons. rewrite IH2 by done. destruct (HasPrefix k' "config/"); [|done].
    by rewrite lookup_insert_ne.
Qed.

(** The copied annotations do not depend on the order the map is ranged over. *)
Lemma copy_config_lookup from to k :
  copy_config from to !! k =
  if HasPrefix k "config/" then union_with (λ v _, Some v) (gm_get from k) (to !! k) else to !! k.
Proof.
  unfold copy_config. rewrite gm_get_entries.
  destruct (copy_fold_lookup (map_range (gm_entries from)) to k (NoDup_range_keys _)) as [H1 H2].
  destruct (gm_entries from !! k) as [v|] eqn:E.
  - rewrite (H1 v) by by apply elem_of_map_range. by destruct (HasPrefix k "config/"), (to !! k).
  - rewrite H2; [by destruct (HasPrefix k "config/"), (to !! k)|].
    intros ([k' v] & -> & Hv%elem_of_map_range)%list_elem_of_fmap. simpl in E. congruence.
Qed.

Lemma copy_config_twice from rcname m :
  copy_config from (<["copied-from" := rcname]> (copy_config from (<["copied-from" := rcname]> m)))
  = copy_config from (<["copied-from" := rcname]> m).
Proof.
  apply map_eq. intros k. rewrite !copy_config_lookup. destruct (HasPrefix k "config/") eqn:Hp.
  - rewrite !lookup_insert_ne by (intros <-; done). rewrite copy_config_lookup, Hp.
    rewrite lookup_insert_ne by (intros <-; done). by destruct (gm_get _ k), (m !! k).
  - destruct (decide (k = "copied-from")) as [->|Hne]; [by simplify_map_eq|].
    by rewrite lookup_insert_ne, copy_config_lookup, Hp by done.
Qed.

(** Synchronising a pod with its controller's template takes over the
    template's spec but for the node the pod is on, records the controller under
    "copied-from", takes over the template's "config/" annotations whatever order
    the map is iterated in, and keeps everything else; a second synchronisation
    changes nothing. *)
Theorem sync_with_effect rcname template pod :
  let pod' := sync_with rcname template pod in
  let ann := api.Annotations (api.Pod_ObjectMeta pod) in
  let ann' := api.Annotations (api.Pod_ObjectMeta pod') in
  api.Pod_Spec pod' = set_NodeName (api.NodeName (api.Pod_Spec pod)) (api.Template_Spec template)
  ∧ (∀ k, gm_get ann' k =
       if HasPrefix k "config/"
       then union_with (λ v _, Some v) (gm_get (api.Annotations (api.Template_ObjectMeta template)) k) (gm_get ann k)
       else if decide (k = "copied-from") then Some rcname else gm_get ann k)
  ∧ api.Pod_ObjectMeta pod' = set_Annotations ann' (api.Pod_ObjectMeta pod)
  ∧ api.Pod_Status pod' = api.Pod_Status pod
  ∧ sync_with rcname template pod' = pod'.
Proof.
  simpl. split_and!; [done| |done|done|].
  - intros k. rewrite copy_config_lookup, !gm_get_entries.
    destruct (HasPrefix k "config/") eqn:Hp; [|case_decide; subst; by simplify_map_eq].
    by rewrite lookup_insert_ne by (intros <-; done).
  - unfold sync_with. simpl. by rewrite copy_config_twice.
Qed.

End sync.

(** ** Witnesses *)

(** A pod with a running and an already stopped container. *)
Definition demo_actions_pod : @api.Pod demo_KubeApi :=
  @api.mkPod demo_KubeApi
    (api.mkObjectMeta "web-1" "" "default" "7" 0%Z None None (Some {["owner" := "ops"; "paused1" := "db:3"]}) ∅)
    (@api.mkPodSpec demo_KubeApi
       [@api.mkContainer demo_KubeApi "web" "web:1" [] None None ∅;
        @api.mkContainer demo_KubeApi "db" PauseImage [] None None ∅] "node-3" false ∅)
    (api.mkPodStatus "Running" [] "" "" "" [] ∅).

Definition demo_annotations : gmap string string := {["owner" := "ops"; "paused1" := "db:3"]}.

Lemma demo_all_started :
  @all_started demo_KubeApi [true] (@api.Containers demo_KubeApi (api.Pod_Spec demo_actions_pod)) demo_annotations.
Proof.
  intros [|[|j]] c Hc Hj; [|done..]. injection Hc as <-. split; vm_compute; reflexivity.
Qed.

Lemma restart_restores_witness :
  (@stop_containers demo_KubeApi [true] demo_actions_pod ≫= @start_containers demo_KubeApi [true])
  = Val demo_actions_pod.
Proof.
  exact (@restart_restores demo_KubeApi [true] demo_actions_pod demo_annotations eq_refl
    ltac:(simpl; lia) demo_all_started).
Defined.

(** The pod after its first container was stopped. *)
Definition demo_stopped_pod : @api.Pod demo_KubeApi :=
  Eval vm_compute in
    match @stop_containers demo_KubeApi [true] demo_actions_pod with Val p => p | Halt _ => demo_actions_pod end.

Lemma stop_containers_idempotent_witness :
  @stop_containers demo_KubeApi [true] demo_actions_pod = Val demo_stopped_pod
  ∧ @stop_containers demo_KubeApi [true] demo_stopped_pod = Val demo_stopped_pod.
Proof.
  split; [vm_compute; reflexivity|].
  exact (@stop_containers_idempotent demo_KubeApi [true] demo_actions_pod demo_stopped_pod
    ltac:(vm_compute; reflexivity)).
Defined.

(** The template of a controller, and what synchronising copies. *)
Definition demo_template : @api.PodTemplateSpec demo_KubeApi :=
  @api.mkPodTemplateSpec demo_KubeApi
    (api.mkObjectMeta "" "" "" "" 0%Z None None (Some {["config/log" := "debug"; "secret" := "x"]}) ∅)
    (@api.mkPodSpec demo_KubeApi [@api.mkContainer demo_KubeApi "web" "web:2" [] None None ∅] "" true ∅).

Lemma sync_with_effect_witness :
  @api.NodeName demo_KubeApi (api.Pod_Spec (@sync_with demo_KubeApi list_MapRange "web" demo_template demo_actions_pod))
  = "node-3"
  ∧ gm_get (api.Annotations (api.Pod_ObjectMeta
      (@sync_with demo_KubeApi list_MapRange "web" demo_template demo_actions_pod))) "config/log" = Some "debug".
Proof.
  destruct (@sync_with_effect demo_KubeApi list_MapRange list_MapRangeLaws "web" demo_template demo_actions_pod)
    as (H1 & H2 & _).
  split; [by rewrite H1|]. rewrite H2. reflexivity.
Defined.

Lemma start_containers_effect_witness :
  ∃ pod', @start_containers demo_KubeApi [false; true] demo_actions_pod = Val pod'.
Proof.
  destruct (proj2 (@start_containers_effect demo_KubeApi [false; true] demo_actions_pod) ltac:(simpl; lia))
    as (pod' & H & _).
  by exists pod'.
Defined.
