(* ===== verification/Http.v ===== *)
(** * Requests, responses and the middleware of gin

    The console is a set of gin handlers.  This file has what they use of gin
    (vendored under Godeps): the accessors of a request (context.go), the HTTP basic
    authentication middleware (auth.go) over an executable base64 encoder, and the
    recovery middleware (recovery.go).  A handler is a program that ends in a
    response. *)

From stdpp Require Import prelude gmap strings.
From Stdlib Require Import ZArith NArith Ascii.
From S2P Require Import Prelude GoStrings GoSort Api Page Client Render.

(** ** Requests *)

(** [gin.Context] with the request it carries: route parameters in order, query
    and form values by key, headers, and the keys set by middleware. *)
Record Context : Type := mkContext {
  Params : list (string * string);
  URL_Query : gmap string (list string);
  Request_PostForm : gmap string (list string);
  (** [MultipartForm.Value] when there is a multipart form with files, else empty. *)
  Multipart_Value : gmap string (list string);
  Header : gmap string string;
  Keys : gmap string string;
}.

(** [Params.ByName]: the first entry with that name, else the empty string. *)
Fixpoint ByName (ps : list (string * string)) (name : string) : string :=
  match ps with
  | [] => ""
  | (k, v) :: ps => if bool_decide (k = name) then v else ByName ps name
  end.

Definition Param (c : Context) (key : string) : string := ByName (Params c) key.

(** The first of the values of a key. *)
Definition first_value (m : gmap string (list string)) (key : string) : option string :=
  match m !! key with Some (v :: _) => Some v | _ => None end.

Definition GetQuery (c : Context) (key : string) : string * bool :=
  match first_value (URL_Query c) key with Some v => (v, true) | None => ("", false) end.

Definition GetPostForm (c : Context) (key : string) : string * bool :=
  match first_value (Request_PostForm c) key with
  | Some v => (v, true)
  | None => match first_value (Multipart_Value c) key with Some v => (v, true) | None => ("", false) end
  end.

Definition PostForm (c : Context) (key : string) : string := (GetPostForm c key).1.

Definition AuthUserKey : string := "user".

(** [c.MustGet(key).(string)]. *)
Definition MustGet (c : Context) (key : string) : go string :=
  match Keys c !! key with Some v => Val v | None => gopanic MissingContextKey end.

Definition Set_ (key value : string) (c : Context) : Context :=
  mkContext (Params c) (URL_Query c) (Request_PostForm c) (Multipart_Value c) (Header c)
    (<[key := value]> (Keys c)).

(** ** Responses *)

Section http.
Context `{K : KubeApi}.

(** What the handlers put into a [gin.H]. *)
Inductive value : Type :=
| VString (s : string)
| VStrings (l : list string)
| VInt (n : Z)
| VQueries (m : list (string * string))
| VConfig (c : option Config)
| VSummary (s : page.Summary)
| VNodes (l : list Node)
| VNodeDetail (d : NodeDetail)
| VPods (l : list page.Pod)
| VImages (l : list page.PodImage)
| VEvents (l : list page.Event)
| VRCs (l : list page.ReplicationController)
| VServices (l : list page.Service)
| VEndpoints (l : list page.Endpoint)
| VSimplePods (l : list page.SimplePod)
| VSimpleImages (l : list page.SimpleImage).

Definition gin_H : Type := list (string * value).

(** [c.HTML], [c.Redirect], and a bare status with its headers. *)
Inductive response : Type :=
| HTML (code : Z) (name : string) (obj : gin_H)
| Redirect (code : Z) (location : string)
| Status (code : Z) (headers : list (string * string)).

Definition StatusOK : Z := 200.
Definition StatusMovedPermanently : Z := 301.
Definition StatusBadRequest : Z := 400.
Definition StatusInternalServerError : Z := 500.

Definition handler : Type := Context → prog response.

(** [c.HTML(code, "error", gin.H{"error": err})]. *)
Definition error_page (code : Z) (err : string) : response := HTML code "error" [("error", VString err)].

(** [if err != nil { c.HTML(500, "error", ...); return }]. *)
Definition or_error {A} (r : result string A) (k : A → prog response) : prog response :=
  match r with
  | Err err => Ret (error_page StatusInternalServerError err)
  | Ok a => k a
  end.

(** The pointer of a call whose error was checked. *)
Definition checked {A} (r : option A * option string) : result string (option A) :=
  match r with (_, Some err) => Err err | (p, None) => Ok p end.

(** The error of a call alone. *)
Definition failed (e : option string) : result string unit :=
  match e with Some err => Err err | None => Ok tt end.

End http.

Notation "x <~ r ; k" := (or_error r (λ x, k))
  (at level 20, r at level 100, k at level 200, only parsing) : kubecon_scope.

(** ** base64.StdEncoding.EncodeToString *)

Section base64.
Local Open Scope N_scope.

Definition encodeStd : string := "ABCDEFGHIJKLMNOPQRSTUVWXYZabcdefghijklmnopqrstuvwxyz0123456789+/".

Definition b64_char (n : N) : ascii :=
  match String.get (N.to_nat n) encodeStd with Some c => c | None => "="%char end.

Definition byte_val (c : ascii) : N := N_of_ascii c.

(** Groups of three bytes become four characters; one or two bytes left over are
    padded with '='. *)
Fixpoint EncodeToString (s : string) : string :=
  match s with
  | EmptyString => ""
  | String a EmptyString =>
      let a := byte_val a in
      String (b64_char (a / 4)) (String (b64_char (a mod 4 * 16)) "==")
  | String a (String b EmptyString) =>
      let a := byte_val a in let b := byte_val b in
      String (b64_char (a / 4)) (String (b64_char (a mod 4 * 16 + b / 16))
        (String (b64_char (b mod 16 * 4)) "="))
  | String a (String b (String c s)) =>
      let a := byte_val a in let b := byte_val b in let c := byte_val c in
      String (b64_char (a / 4)) (String (b64_char (a mod 4 * 16 + b / 16))
        (String (b64_char (b mod 16 * 4 + c / 64)) (String (b64_char (c mod 64)) (EncodeToString s))))
  end.

End base64.

(** ** Middleware *)

Record authPair : Type := mkAuthPair { Value : string; User : string }.

(** The first pair with the given header value; an empty header has none. *)
Fixpoint find_credential (pairs : list authPair) (authValue : string) : option string :=
  match pairs with
  | [] => None
  | p :: pairs => if bool_decide (Value p = authValue) then Some (User p) else find_credential pairs authValue
  end.

Definition searchCredential (pairs : list authPair) (authValue : string) : option string :=
  if bool_decide (authValue = "") then None else find_credential pairs authValue.

Definition authorizationHeader (user password : string) : string :=
  "Basic " +:+ EncodeToString (user +:+ ":" +:+ password).

Section middleware.
Context `{K : KubeApi, MR : MapRange}.

(** [for user, password := range accounts]: an empty user panics. *)
Fixpoint process_pairs (accounts : list (string * string)) : go (list authPair) :=
  match accounts with
  | [] => Val []
  | (user, password) :: accounts =>
      if bool_decide (user = "") then gopanic (Panicked "User can not be empty")
      else pairs ← process_pairs accounts; Val (mkAuthPair (authorizationHeader user password) user :: pairs)
  end.

Definition processAccounts (accounts : gmap string string) : go (list authPair) :=
  if bool_decide (accounts = ∅) then gopanic (Panicked "Empty list of authorized credentials")
  else process_pairs (map_range accounts).

(** The realm, quoted. *)
Definition realm : string := "Basic realm=" +:+ String "034" ("Authorization Required" +:+ String "034" "").

(** The middleware in front of a handler: without valid credentials the chain is
    aborted with 401, else the handler runs with the user's name set. *)
Definition BasicAuth (pairs : list authPair) (next : handler) : handler := λ c,
  match searchCredential pairs (default "" (Header c !! "Authorization")) with
  | None => Ret (Status 401 [("WWW-Authenticate", realm)])
  | Some user => next (Set_ AuthUserKey user c)
  end.

(** A panic of the chain becomes a 500. *)
Fixpoint recover (p : prog response) : prog response :=
  match p with
  | Ret r => Ret r
  | Stop (HPanic _) => Ret (Status 500 [])
  | Stop (HFatal msg) => Stop (HFatal msg)
  | Do c k => Do c (λ r, recover (k r))
  end.

Definition Recovery (next : handler) : handler := λ c, recover (next c).

End middleware.

(** ** Base64 is injective *)

Section base64_lemmas.
Local Open Scope N_scope.

Lemma b64_char_inj m n : m < 64 → n < 64 → b64_char m = b64_char n → m = n.
Proof.
  assert (∀ i j : nat, (i < 64)%nat → (j < 64)%nat → b64_char (N.of_nat i) = b64_char (N.of_nat j) → i = j) as H.
  { assert (Forall (λ i, Forall (λ j, b64_char (N.of_nat i) = b64_char (N.of_nat j) → i = j) (seq 0 64)) (seq 0 64))
      as Hall by (apply (bool_decide_unpack _); vm_compute; exact I).
    intros i j Hi Hj. rewrite Forall_forall in Hall. specialize (Hall i). rewrite elem_of_seq in Hall.
    specialize (Hall ltac:(lia)). rewrite Forall_forall in Hall. apply Hall. apply elem_of_seq. lia. }
  intros Hm Hn Heq. assert (N.to_nat m = N.to_nat n); [|lia].
  apply H; [lia|lia|]. by rewrite !N2Nat.id.
Qed.

Lemma b64_char_not_pad n : n < 64 → b64_char n ≠ "="%char.
Proof.
  assert (Forall (λ i, b64_char (N.of_nat i) ≠ "="%char) (seq 0 64)) as Hall
    by (apply (bool_decide_unpack _); vm_compute; exact I).
  intros Hn. rewrite <- (N2Nat.id n). rewrite Forall_forall in Hall. apply Hall, elem_of_seq. lia.
Qed.

Lemma byte_val_bound c : byte_val c < 256.
Proof. apply N_ascii_bounded. Qed.

Lemma byte_val_inj a b : byte_val a = byte_val b → a = b.
Proof. intros H. rewrite <- (ascii_N_embedding a), <- (ascii_N_embedding b). by f_equal. Qed.


(** The sextets of a group determine its bytes. *)
Lemma group_inj a b c a' b' c' :
  a < 256 → b < 256 → c < 256 → a' < 256 → b' < 256 → c' < 256 →
  b64_char (a / 4) = b64_char (a' / 4) →
  b64_char (a mod 4 * 16 + b / 16) = b64_char (a' mod 4 * 16 + b' / 16) →
  b64_char (b mod 16 * 4 + c / 64) = b64_char (b' mod 16 * 4 + c' / 64) →
  a = a' ∧ b = b' ∧ (b64_char (c mod 64) = b64_char (c' mod 64) → c = c').
Proof.
  intros Ha Hb Hc Ha' Hb' Hc' H1 H2 H3.
  assert (∀ x, x < 256 → x / 4 < 64 ∧ x / 16 < 16 ∧ x / 64 < 4 ∧ x mod 4 < 4 ∧ x mod 16 < 16 ∧ x mod 64 < 64
    ∧ x = 4 * (x / 4) + x mod 4 ∧ x = 16 * (x / 16) + x mod 16 ∧ x = 64 * (x / 64) + x mod 64) as H.
  { intros x Hx. split_and!; try (by apply N.Div0.div_lt_upper_bound); try (by apply N.mod_lt);
      by apply N.Div0.div_mod. }
  pose proof (H a Ha). pose proof (H b Hb). pose proof (H c Hc).
  pose proof (H a' Ha'). pose proof (H b' Hb'). pose proof (H c' Hc'). clear H.
  apply b64_char_inj in H1; [|lia|lia]. apply b64_char_inj in H2; [|lia|lia].
  apply b64_char_inj in H3; [|lia|lia].
  split_and!; [lia|lia|]. intros Hd%b64_char_inj; lia.
Qed.

Lemma pad_ne a b : a < 256 → b < 256 → b64_char (a mod 16 * 4 + b / 64) ≠ "="%char.
Proof.
  intros Ha Hb. apply b64_char_not_pad.
  assert (a mod 16 < 16) by by apply N.mod_lt. assert (b / 64 < 4) by by apply N.Div0.div_lt_upper_bound.
  lia.
Qed.

(** The padded groups, as groups of zero bytes. *)
Lemma EncodeToString_1 a :
  EncodeToString (String a "")
  = String (b64_char (byte_val a / 4)) (String (b64_char (byte_val a mod 4 * 16 + 0 / 16)) "==").
Proof. simpl. by rewrite N.add_0_r. Qed.

Lemma EncodeToString_2 a b :
  EncodeToString (String a (String b ""))
  = String (b64_char (byte_val a / 4)) (String (b64_char (byte_val a mod 4 * 16 + byte_val b / 16))
      (String (b64_char (byte_val b mod 16 * 4 + 0 / 64)) "=")).
Proof. simpl. by rewrite N.add_0_r. Qed.

Lemma EncodeToString_3 a b c s :
  EncodeToString (String a (String b (String c s)))
  = String (b64_char (byte_val a / 4)) (String (b64_char (byte_val a mod 4 * 16 + byte_val b / 16))
      (String (b64_char (byte_val b mod 16 * 4 + byte_val c / 64))
        (String (b64_char (byte_val c mod 64)) (EncodeToString s)))).
Proof. done. Qed.

(** Decides a case where the lengths of the last groups differ. *)
Ltac b64_pad :=
  match goal with
  | H : "="%char = _ |- _ => symmetry in H; b64_pad
  | H : b64_char (_ mod 16 * 4 + _ / 64) = "="%char |- _ => exfalso; apply pad_ne in H; try lia; apply byte_val_bound
  | H : b64_char (_ mod 64) = "="%char |- _ => exfalso; apply b64_char_not_pad in H; [done|by apply N.mod_lt]
  end.

Lemma EncodeToString_inj s t : EncodeToString s = EncodeToString t → s = t.
Proof.
  remember (String.length s) as n eqn:Hn. revert s t Hn.
  induction (lt_wf n) as [n _ IH]. intros s t -> H.
  assert (0 < 256) as H0 by lia.
  destruct s as [|a [|b [|c s]]], t as [|a' [|b' [|c' t]]]; try done;
    rewrite ?EncodeToString_1, ?EncodeToString_2, ?EncodeToString_3 in H; simplify_eq; try b64_pad.
  - destruct (group_inj (byte_val a) 0 0 (byte_val a') 0 0) as (?%byte_val_inj & _);
      [apply byte_val_bound|done|done|apply byte_val_bound|done|done|done|done|done|]. by subst.
  - destruct (group_inj (byte_val a) (byte_val b) 0 (byte_val a') (byte_val b') 0)
      as (?%byte_val_inj & ?%byte_val_inj & _); try done; try apply byte_val_bound. by subst.
  - destruct (group_inj (byte_val a) (byte_val b) (byte_val c) (byte_val a') (byte_val b') (byte_val c'))
      as (?%byte_val_inj & ?%byte_val_inj & Hc); try done; try apply byte_val_bound.
    apply Hc, byte_val_inj in H3 as ->. subst. do 3 f_equal. eapply IH; [|done|done]. simpl; lia.
Qed.

End base64_lemmas.

(** ** Authentication *)

Section auth.
Context `{K : KubeApi, ML : MapRangeLaws}.
Implicit Types accounts : gmap string string.

(** A header determines user and password, user names having no colon. *)
Lemma authorizationHeader_inj u u' p p' :
  sfree ":" u = true → sfree ":" u' = true →
  authorizationHeader u p = authorizationHeader u' p' → u = u' ∧ p = p'.
Proof.
  unfold authorizationHeader. intros Hu Hu' Heq%(inj (String.app "Basic "))%EncodeToString_inj.
  pose proof (cut_app u p ":" Hu) as H1. pose proof (cut_app u' p' ":" Hu') as H2.
  change (u +:+ String ":" p = u' +:+ String ":" p') in Heq.
  rewrite Heq, H2 in H1. by simplify_eq.
Qed.

Lemma process_pairs_Val (l : list (string * string)) :
  Forall (λ up, up.1 ≠ "") l →
  process_pairs l = Val ((λ up, mkAuthPair (authorizationHeader up.1 up.2) up.1) <$> l).
Proof.
  induction 1 as [|[u p] l Hu _ IH]; [done|]. simpl in *.
  rewrite bool_decide_eq_false_2 by done. by rewrite IH.
Qed.

Lemma find_credential_Some pairs h u :
  find_credential pairs h = Some u → mkAuthPair h u ∈ pairs.
Proof.
  induction pairs as [|[v w] pairs IH]; simpl; [done|].
  case_bool_decide; [intros [= <-]; subst; by left|]. intros ?. right. by apply IH.
Qed.

Lemma find_credential_None pairs h u :
  find_credential pairs h = None → mkAuthPair h u ∉ pairs.
Proof.
  induction pairs as [|[v w] pairs IH]; simpl; [by intros _ ?%not_elem_of_nil|].
  case_bool_decide; [done|]. intros H' [[= <- <-]|Hin]%elem_of_cons; [done|]. by apply IH.
Qed.

(** What gin asks of the accounts, and that no user name has a colon. *)
Definition valid_accounts accounts : Prop :=
  accounts ≠ ∅ ∧ map_Forall (λ u _, u ≠ "" ∧ sfree ":" u = true) accounts.

#[export] Instance valid_accounts_dec accounts : Decision (valid_accounts accounts).
Proof. unfold valid_accounts. apply _. Defined.

Lemma searchCredential_iff accounts :
  valid_accounts accounts →
  ∃ pairs, processAccounts accounts = Val pairs
    ∧ ∀ h u, searchCredential pairs h = Some u
             ↔ ∃ p, accounts !! u = Some p ∧ h = authorizationHeader u p.
Proof.
  intros [Hne Hall]. unfold processAccounts. rewrite bool_decide_eq_false_2 by done.
  rewrite process_pairs_Val.
  2:{ apply Forall_forall. intros [u p] Hup%elem_of_map_range. apply (Hall u p Hup). }
  eexists. split; [done|]. intros h u.
  assert (∀ v w, mkAuthPair v w ∈ ((λ up : string * string, mkAuthPair (authorizationHeader up.1 up.2) up.1)
      <$> map_range accounts) ↔ ∃ p, accounts !! w = Some p ∧ v = authorizationHeader w p) as Hin.
  { intros v w. rewrite list_elem_of_fmap. split.
    - intros ([w' p] & [= -> ->] & Hp%elem_of_map_range). by exists p.
    - intros (p & Hp & ->). exists (w, p). by rewrite elem_of_map_range. }
  unfold searchCredential. case_bool_decide as Hh.
  { split; [done|]. by intros (p & _ & ->). }
  split; [by intros ?%find_credential_Some%Hin|].
  intros Hp. destruct (find_credential _ h) as [u'|] eqn:E.
  - f_equal. apply find_credential_Some, Hin in E as (p' & Hp' & ->). destruct Hp as (p & Hp & Heq).
    destruct (Hall _ _ Hp) as [_ ?], (Hall _ _ Hp') as [_ ?]. by apply authorizationHeader_inj in Heq as [-> _].
  - by apply find_credential_None with (u := u) in E as []; apply Hin.
Qed.

(** Authentication is exact and does not depend on the order the account map
    is iterated in: a header is accepted as user [u] exactly when it is the basic
    authentication header of [u] and the password of [u]'s account. *)
Theorem searchCredential_exact accounts :
  valid_accounts accounts →
  ∃ pairs, processAccounts accounts = Val pairs
    ∧ ∀ h u, searchCredential pairs h = Some u
             ↔ ∃ p, accounts !! u = Some p ∧ h = authorizationHeader u p.
Proof. apply searchCredential_iff. Qed.

End auth.

Lemma searchCredential_exact_witness :
  ∃ pairs, @processAccounts list_MapRange {["admin" := "secret"; "ops" := "x"]} = Val pairs
    ∧ searchCredential pairs "Basic YWRtaW46c2VjcmV0" = Some "admin"
    ∧ searchCredential pairs "Basic YWRtaW46" = None.
Proof.
  destruct (@searchCredential_exact list_MapRange list_MapRangeLaws {["admin" := "secret"; "ops" := "x"]})
    as (pairs & Hp & H).
  - apply (bool_decide_unpack _). vm_compute. exact I.
  - exists pairs. split; [exact Hp|]. split.
    + apply H. exists "secret". split; vm_compute; reflexivity.
    + vm_compute in Hp. injection Hp as <-. reflexivity.
Defined.
