(* ===== verification/Handlers.v ===== *)
(** * The request handlers of main.go

    One definition per handler, in the order of the source.  Results that carry an
    error go through [<~], which answers with the error page and returns; values
    behind pointers are dereferenced where the source reads through them. *)

From stdpp Require Import prelude gmap strings.
From Stdlib Require Import ZArith NArith Ascii.
From S2P Require Import Prelude GoStrings GoSort GoRegexp Float64 Api Page Versions KubeUtil Client Render PodActions Http.
Local Open Scope kubecon_scope.

(** [api.GetReference(node)]. *)
Class NodeReference `{KubeApi} : Type := api_GetReference : api.Node → result string api.ObjectReference.

Section handlers.
Context `{K : KubeApi, GS : GoSort, MR : MapRange, PF : Platform, EO : EventOrder, TF : TimeFormat,
          J : !JsonApi, NR : !NodeReference}.
Context (KubeConfigFile : string).

(** json.Marshal of a pointer, a nil one being "null", then json.Indent. *)
Definition marshal_indent {A} (Marshal : A → result string string) (p : option A) : result string string :=
  b ← (match p with Some a => Marshal a | None => Ok "null" end);
  json_Indent b.

(** ** Configuration *)

Definition config : handler := λ c,
  cfg ← call GetKubeConfig;
  Ret (HTML StatusOK "config" [("title", VString "Sigma Config"); ("config", VConfig cfg)]).

(** An assignment to a field of [*kubeclient.KubeConfig]. *)
Definition assign_config (f : Config → Config) : prog unit :=
  cfg ← config_deref;
  call (SetKubeConfig (f cfg)).

Definition updateConfig : handler := λ c,
  user ← lift (MustGet c AuthUserKey);
  if negb (bool_decide (user = "admin")) then Ret (error_page StatusInternalServerError "Unauthorized")
  else
    assign_config (λ cfg, mkConfig (PostForm c "inputAPIServerURL") (Username cfg) (Password cfg));;
    assign_config (λ cfg, mkConfig (APIServerURL cfg) (PostForm c "inputUsername") (Password cfg));;
    assign_config (λ cfg, mkConfig (APIServerURL cfg) (Username cfg) (PostForm c "inputPassword"));;
    SaveKubeConfig KubeConfigFile;;
    Init KubeConfigFile;;
    Ret (Redirect StatusMovedPermanently "/").

(** ** Edit forms *)

Definition editService : handler := λ c,
  let namespace := Param c "ns" in
  let svcname := Param c "svc" in
  let delete := (GetQuery c "delete").2 in
  cl ← Get;
  r ← call (Services_Get cl namespace svcname);
  svc <~ checked r;
  out <~ marshal_indent Marshal_Service svc;
  Ret (HTML StatusOK "serviceEdit"
    [("title", VString svcname); ("namespace", VString namespace); ("objname", VString svcname);
     ("json", VString out); ("delete", VString (FormatBool delete))]).

Definition editNode : handler := λ c,
  let nodename := Param c "no" in
  let delete := (GetQuery c "delete").2 in
  cl ← Get;
  r ← call (Nodes_Get cl nodename);
  node <~ checked r;
  out <~ marshal_indent Marshal_Node node;
  Ret (HTML StatusOK "nodeEdit"
    [("title", VString nodename); ("objname", VString nodename);
     ("json", VString out); ("delete", VString (FormatBool delete))]).

Definition editEndpoints : handler := λ c,
  let namespace := Param c "ns" in
  let epname := Param c "ep" in
  let delete := (GetQuery c "delete").2 in
  cl ← Get;
  r ← call (Endpoints_Get cl namespace epname);
  ep <~ checked r;
  out <~ marshal_indent Marshal_Endpoints ep;
  Ret (HTML StatusOK "endpointsEdit"
    [("title", VString epname); ("namespace", VString namespace); ("objname", VString epname);
     ("json", VString out); ("delete", VString (FormatBool delete))]).

Definition editReplicationController : handler := λ c,
  let namespace := Param c "ns" in
  let rcname := Param c "rc" in
  let delete := (GetQuery c "delete").2 in
  cl ← Get;
  r ← call (RCs_Get cl namespace rcname);
  rc <~ checked r;
  out <~ marshal_indent Marshal_RC rc;
  Ret (HTML StatusOK "replicationControllerEdit"
    [("title", VString rcname); ("namespace", VString namespace); ("objname", VString rcname);
     ("json", VString out); ("delete", VString (FormatBool delete))]).

(** [for i := range pod.Spec.Containers]: the names. *)
Definition container_names (pod : api.Pod) : list string :=
  api.Container_Name <$> api.Containers (api.Pod_Spec pod).

(** The page of a pod, "podEdit" or "podDetail": the two handlers differ in its
    name only. *)
Definition pod_page (name : string) : handler := λ c,
  let namespace := Param c "ns" in
  let podname := Param c "po" in
  cl ← Get;
  r ← call (Pods_Get cl namespace podname);
  p <~ checked r;
  out <~ marshal_indent Marshal_Pod p;
  pod ← lift (deref p);
  Ret (HTML StatusOK name
    [("title", VString podname); ("namespace", VString namespace); ("pod", VString podname);
     ("containers", VStrings (container_names pod)); ("json", VString out)]).

Definition editPod : handler := pod_page "podEdit".
Definition describePod : handler := pod_page "podDetail".

(** ** Logs *)

Definition readLog (namespace podname containername : string) (previous : bool) : prog response :=
  cl ← Get;
  r ← call (Pods_Get cl namespace podname);
  p <~ checked r;
  pod ← lift (deref p);
  first ← lift (index (api.Containers (api.Pod_Spec pod)) 0);
  let container := if bool_decide (containername = "") then api.Container_Name first else containername in
  let logOptions := mkLogOptions container false previous false 500 (256 * 1024) in
  cl ← Get;
  r ← call (Pods_Log cl namespace podname logOptions);
  copied <~ r;
  log <~ copied;
  Ret (HTML StatusOK "podLog"
    [("title", VString podname); ("namespace", VString namespace); ("pod", VString podname);
     ("containers", VStrings (container_names pod)); ("log", VString log);
     ("previous", VString (FormatBool (Log_Previous logOptions)))]).

Definition readContainerLog : handler := λ c,
  readLog (Param c "ns") (Param c "po") (Param c "ct") (GetQuery c "previous").2.

Definition readPodLog : handler := λ c,
  readLog (Param c "ns") (Param c "po") "" (GetQuery c "previous").2.

(** ** Nodes and overview *)

(** The events of a list that may be nil. *)
Definition gen_events_of (list : option (list api.Event)) : prog (Datatypes.list page.Event) :=
  match list with None => Ret [] | Some _ => genEvents list end.

Definition describeNode : handler := λ c,
  let nodename := Param c "no" in
  cl ← Get;
  r ← call (Nodes_Get cl nodename);
  p <~ checked r;
  node ← lift (deref p);
  r ← GetAllPods;
  allPods <~ r;
  let pods := FilterNodePods allPods node in
  let '(terminated, nonTerminated) := FilterTerminatedPods pods in
  allocated <~ computeNodeResources nonTerminated node;
  let d := mkNodeDetail (api.Name (api.Node_ObjectMeta node)) (api.Labels (api.Node_ObjectMeta node))
    (Format_RFC1123Z (api.CreationTimestamp (api.Node_ObjectMeta node)))
    (api.Node_Conditions node) (TranslateResourseList (api.Capacity node)) (api.NodeInfo node)
    pods terminated nonTerminated
    (computePodsResources terminated node) (computePodsResources nonTerminated node) allocated in
  rows ← gen_loop genOnePod pods;
  nodeEventList ←
    (match api_GetReference node with
     | Err _ => Ret None
     | Ok ref =>
         cl ← Get;
         r ← call (Events_Search cl "" (set_UID (api.Ref_Name ref) ref));
         Ret r.1
     end);
  nodeEvents ← gen_events_of nodeEventList;
  cl ← Get;
  r ← call (Events_List cl "");
  events ← gen_events_of ((λ items, FilterEventsFromNode items node) <$> r.1);
  Ret (HTML StatusOK "nodeDetail"
    [("title", VString nodename); ("node", VNodeDetail d); ("pods", VPods rows);
     ("events", VEvents events); ("nodeEvents", VEvents nodeEvents)]).

Definition help : handler := λ c, Ret (HTML StatusOK "help" [("title", VString "Sigma Help")]).

(** The loop of overview: a namespace whose pods cannot be listed is left out,
    one whose events cannot be listed counts none. *)
Fixpoint summarize (namespaces : list string) : prog (list page.Namespace) :=
  match namespaces with
  | [] => Ret []
  | namespace :: namespaces =>
      cl ← Get;
      r ← call (Pods_List cl namespace labels_Everything);
      match r with
      | (_, Some _) => summarize namespaces
      | (podList, None) =>
          cl ← Get;
          r ← call (Events_List cl namespace);
          let eventList := match r with (_, Some _) => Some [] | (l, None) => l end in
          pods ← lift (deref podList);
          events ← lift (deref eventList);
          rest ← summarize namespaces;
          Ret (page.mkNamespace namespace (Z.of_nat (length pods)) (Z.of_nat (length events)) :: rest)
      end
  end.

Definition overview : handler := λ c,
  cl ← Get;
  r ← call (Namespaces_List cl);
  l <~ checked r;
  namespaces ← lift (deref l);
  rows ← summarize namespaces;
  cl ← Get;
  r ← call (Nodes_List cl labels_Everything);
  l <~ checked r;
  nodes ← lift (deref l);
  Ret (HTML StatusOK "overview"
    [("title", VString "Sigma Overview"); ("summary", VSummary (page.mkSummary rows (Z.of_nat (length nodes))))]).

Definition listNodes : handler := λ c,
  user ← lift (MustGet c AuthUserKey);
  if negb (bool_decide (user = "admin")) then Ret (error_page StatusInternalServerError "Unauthorized")
  else
    cl ← Get;
    r ← call (Nodes_List cl labels_Everything);
    list <~ checked r;
    nodes ← genNodes list;
    Ret (HTML StatusOK "nodeList" [("title", VString "Sigma Nodes"); ("nodes", VNodes nodes)]).

(** [user != "admin" && user != namespace]. *)
Definition is_foreign (user namespace : string) : bool :=
  negb (bool_decide (user = "admin")) && negb (bool_decide (user = namespace)).

(** ** Lists in a namespace *)

(** [value, ok := c.GetQuery(key); if ok && len(value) > 0 { pods = filter }]. *)
Definition filter_by (c : Context) (key : string) (f : list page.Pod → string → list page.Pod)
    (pods : list page.Pod) : list page.Pod :=
  let '(v, ok) := GetQuery c key in
  if ok && negb (bool_decide (v = "")) then f pods v else pods.

Definition sort_pods (c : Context) (pods : list page.Pod) : list page.Pod :=
  let '(sortAlgo, ok) := GetQuery c "sort" in
  if ok && negb (bool_decide (sortAlgo = "")) then
    if bool_decide (sortAlgo = "ByName") then sort_Sort page.ByName_Less pods
    else sort_Sort (Reverse page.ByBirth_Less) pods
  else sort_Sort (Reverse page.ByBirth_Less) pods.

(** The three filters in the order they are applied, then the sort. *)
Definition select_pods (c : Context) (pods : list page.Pod) : list page.Pod :=
  let pods := filter_by c "image" (λ pods image, page.FilterPodsByImage pods (page.mkPodImage image true)) pods in
  let pods := filter_by c "status" page.FilterPodsByStatus pods in
  let pods := filter_by c "host" page.FilterPodsByHost pods in
  sort_pods c pods.

Definition listPodsInNamespace : handler := λ c,
  let namespace := Param c "ns" in
  user ← lift (MustGet c AuthUserKey);
  if is_foreign user namespace then Ret (error_page StatusInternalServerError "Unauthorized")
  else
    let '(labelSelectorString, ok) := GetQuery c "labelSelector" in
    match (if ok then labels_Parse labelSelectorString else Ok labels_Everything) with
    | Err err => Ret (error_page StatusBadRequest err)
    | Ok labelSelector =>
        cl ← Get;
        r ← call (Pods_List cl namespace labelSelector);
        list <~ checked r;
        pods ← genPods list;
        let '(images, statuses, hosts) := page.GetPodsFilters pods in
        Ret (HTML StatusOK "podList"
          [("title", VString "Sigma Pods"); ("refresh", VInt 60); ("namespace", VString namespace);
           ("queries", VQueries [("labelSelector", labelSelectorString); ("image", (GetQuery c "image").1);
              ("status", (GetQuery c "status").1); ("host", (GetQuery c "host").1); ("sort", (GetQuery c "sort").1)]);
           ("pods", VPods (select_pods c pods)); ("images", VImages images);
           ("statuses", VStrings statuses); ("hosts", VStrings hosts)])
    end.

Definition listEventsInNamespace : handler := λ c,
  let namespace := Param c "ns" in
  user ← lift (MustGet c AuthUserKey);
  if is_foreign user namespace then Ret (error_page StatusInternalServerError "Unauthorized")
  else
    cl ← Get;
    r ← call (Events_List cl namespace);
    list <~ checked r;
    events ← genEvents list;
    Ret (HTML StatusOK "eventList" [("title", VString "Sigma Events"); ("events", VEvents events)]).

Definition listOthersInNamespace : handler := λ c,
  let namespace := Param c "ns" in
  user ← lift (MustGet c AuthUserKey);
  if is_foreign user namespace then Ret (error_page StatusInternalServerError "Unauthorized")
  else
    cl ← Get;
    r ← call (RCs_List cl namespace);
    rcList <~ checked r;
    cl ← Get;
    r ← call (Services_List cl namespace);
    svcList <~ checked r;
    cl ← Get;
    r ← call (Endpoints_List cl namespace);
    epList <~ checked r;
    cl ← Get;
    r ← call (Nodes_List cl (labels_SelectorFromSet {["project" := namespace]}));
    nodeList <~ checked r;
    rcs ← genReplicationControllers rcList;
    svcs ← genServices svcList;
    eps ← genEndpoints epList;
    nodes ← genNodes nodeList;
    Ret (HTML StatusOK "nsInfo"
      [("refresh", VInt 60); ("title", VString namespace); ("ns", VString namespace);
       ("rcs", VRCs rcs); ("svcs", VServices svcs); ("eps", VEndpoints eps); ("nodes", VNodes nodes)]).

(** ** Pod actions *)

(** Tags that cannot be fetched or parsed are logged and left out. *)
Definition getImageTags (name : string) : prog (list CombinedVersion) :=
  let url := "http://" +:+ PrivateRepoPrefix +:+ "v2/" +:+ name +:+ "/tags/list" in
  res ← call (HttpGet url);
  match res with
  | Err _ => Ret []
  | Ok body => match Decode_TagList body with Err _ => Ret [] | Ok tags => Ret (parse_tags tags) end
  end.

(** The registry is asked only for an upgrade or a downgrade. *)
Definition image_tags (action name : string) : prog (list CombinedVersion) :=
  if bool_decide (action = "upgrade") || bool_decide (action = "downgrade") then getImageTags name else Ret [].

Fixpoint form_images (action : string) (images : list string) : prog (list page.SimpleImage) :=
  match images with
  | [] => Ret []
  | image :: images =>
      let '(name, tag) := split_image image in
      tags ← image_tags action name;
      offered ← lift (select_tags action tag tags);
      rest ← form_images action images;
      Ret (page.mkSimpleImage name offered :: rest)
  end.

(** The form looks at the first two images of the first pod. *)
Definition showPodsForm : handler := λ c,
  let namespace := Param c "ns" in
  let action := PostForm c "action" in
  let podsJson := PostForm c "pods" in
  let location := PostForm c "location" in
  pods <~ Unmarshal_SimplePods podsJson;
  first ← lift (index pods 0);
  images ← form_images action (take 2 (page.SimplePod_Images first));
  Ret (HTML StatusOK "podForm"
    [("title", VString action); ("action", VString action); ("namespace", VString namespace);
     ("pods", VSimplePods pods); ("location", VString location); ("images", VSimpleImages images)]).

(** [for _, podname := range pods { if err := act(podname); err != nil { errs = append(errs, err) } }]. *)
Fixpoint for_pods (act : string → prog (list string)) (pods : list string) : prog (list string) :=
  match pods with
  | [] => Ret []
  | podname :: pods => errs ← act podname; rest ← for_pods act pods; Ret (errs ++ rest)
  end.

(** The errors one action leaves. *)
Definition collect_err (m : prog (option string)) : prog (list string) :=
  e ← m; Ret (match e with Some err => [err] | None => [] end).

Definition full_images (images : list string) : list string :=
  (λ image, if bool_decide (image = "") then "" else PrivateRepoPrefix +:+ image) <$> images.

(** The switch over the action; an unknown one, and "delete", do nothing. *)
Definition perform (namespace action : string) (fullImages : list string) (checks : list bool) (podname : string) :
    prog (list string) :=
  if bool_decide (action = "upgrade") || bool_decide (action = "downgrade") then
    collect_err (setPodImage namespace podname fullImages)
  else if bool_decide (action = "start") then collect_err (startPod namespace podname checks)
  else if bool_decide (action = "stop") then collect_err (stopPod namespace podname checks)
  else if bool_decide (action = "restart") then
    errs ← collect_err (stopPod namespace podname checks);
    errs' ← collect_err (startPod namespace podname checks);
    Ret (errs ++ errs')
  else if bool_decide (action = "sync") then collect_err (syncPod namespace podname)
  else Ret [].

(** The location to return to, its status and image filters emptied. *)
Definition cleared_location (location : string) : string :=
  ReplaceAllString image_re (ReplaceAllString status_re location "status=") "image=".

Definition performPodsAction : handler := λ c,
  let namespace := Param c "ns" in
  let action := PostForm c "action" in
  let location := PostForm c "location" in
  pods <~ Unmarshal_strings (PostForm c "pods");
  images <~ Unmarshal_strings (PostForm c "images");
  checks <~ Unmarshal_bools (PostForm c "checks");
  let checks := if bool_decide (checks = []) then [true] else checks in
  errs ← for_pods (perform namespace action (full_images images) checks) pods;
  match errs with
  | [] => Ret (Redirect StatusMovedPermanently (cleared_location location))
  | _ => Ret (HTML StatusInternalServerError "errors" [("errors", VStrings errs)])
  end.

(** ** Updates *)

(** [fmt.Sprintf("/namespaces/%s/<kind>/%s/edit", namespace, name)]. *)
Definition edit_location (namespace kind name : string) : string :=
  "/namespaces/" +:+ namespace +:+ "/" +:+ kind +:+ "/" +:+ name +:+ "/edit".

Definition namespace_location (namespace : string) : string := "/namespaces/" +:+ namespace.

(** The error of reading the current pod is dropped; its pointer is used. *)
Definition updatePod : handler := λ c,
  let namespace := Param c "ns" in
  let podname := Param c "po" in
  pod <~ Unmarshal_Pod (PostForm c "json");
  cl ← Get;
  r ← call (Pods_Get cl namespace (api.Name (api.Pod_ObjectMeta pod)));
  cur ← lift (deref r.1);
  let version := api.ResourceVersion (api.Pod_ObjectMeta cur) in
  let pod := set_Pod_Meta (set_ResourceVersion version (api.Pod_ObjectMeta pod)) pod in
  cl ← Get;
  r ← call (Pods_Update cl namespace pod);
  _u <~ failed r.2;
  Ret (Redirect StatusMovedPermanently (edit_location namespace "pods" podname)).

(** The controller of updateReplicationControllerWithPod: the pod's spec in the
    template, on the template's node. *)
Definition export_to (podname : string) (pod : api.Pod) (rc : api.ReplicationController) :
    go api.ReplicationController :=
  template ← deref (api.RC_Spec_Template rc);
  let nodeName := api.NodeName (api.Template_Spec template) in
  let template := set_Template_Spec (set_NodeName nodeName (api.Pod_Spec pod)) template in
  let ann := <["copied-from" := podname]> (gm_entries (api.Annotations (api.RC_ObjectMeta rc))) in
  let tann := copy_config (api.Annotations (api.Pod_ObjectMeta pod))
                (gm_entries (api.Annotations (api.Template_ObjectMeta template))) in
  let template := set_Template_Meta (set_Annotations (Some tann) (api.Template_ObjectMeta template)) template in
  Val (set_RC_Template (Some template) (set_RC_Meta (set_Annotations (Some ann) (api.RC_ObjectMeta rc)) rc)).

Definition updateReplicationControllerWithPod : handler := λ c,
  let namespace := Param c "ns" in
  let podname := Param c "po" in
  pod <~ Unmarshal_Pod (PostForm c "json");
  match gm_get (api.Labels (api.Pod_ObjectMeta pod)) "managed-by" with
  | None => Ret (error_page StatusInternalServerError "Need a `managed-by` label")
  | Some rcname =>
      cl ← Get;
      r ← call (RCs_Get cl namespace rcname);
      p <~ checked r;
      rc ← lift (deref p);
      rc ← lift (export_to podname pod rc);
      cl ← Get;
      r ← call (RCs_Update cl namespace rc);
      _u <~ failed r.2;
      Ret (Redirect StatusMovedPermanently (edit_location namespace "pods" podname))
  end.

Definition updatePodWithReplicationController : handler := λ c,
  let namespace := Param c "ns" in
  let podname := Param c "po" in
  e ← syncPod namespace podname;
  _u <~ failed e;
  Ret (Redirect StatusMovedPermanently (edit_location namespace "pods" podname)).

Definition updateReplicationController : handler := λ c,
  let namespace := Param c "ns" in
  let rcname := Param c "rc" in
  rc <~ Unmarshal_RC (PostForm c "json");
  cl ← Get;
  r ← call (RCs_Update cl namespace rc);
  _u <~ failed r.2;
  Ret (Redirect StatusMovedPermanently (edit_location namespace "replicationcontrollers" rcname)).

Definition deleteReplicationController : handler := λ c,
  let namespace := Param c "ns" in
  let rcname := Param c "rc" in
  cl ← Get;
  r ← call (RCs_Get cl namespace rcname);
  p <~ checked r;
  rc ← lift (deref p);
  if (0 <? api.RC_Spec_Replicas rc)%Z || (0 <? api.RC_Status_Replicas rc)%Z then
    Ret (error_page StatusInternalServerError "Replicas must be 0")
  else
    cl ← Get;
    e ← call (RCs_Delete cl namespace rcname);
    _u <~ failed e;
    Ret (Redirect StatusMovedPermanently (namespace_location namespace)).

(** A form pre-filled from a file. *)
Definition file_form (file name : string) : handler := λ c,
  let namespace := Param c "ns" in
  r ← call (ReadFile file);
  bytes <~ r;
  Ret (HTML StatusOK name
    [("title", VString namespace); ("namespace", VString namespace); ("json", VString bytes)]).

Definition showReplicationControllerForm : handler :=
  file_form "replication-controller.json" "replicationControllerForm".

(** What createReplicationController makes of the decoded object: selector and
    template labels tied to the name, the first container named after it, clean
    metadata. *)
Definition tie_to_name (rc : api.ReplicationController) : go api.ReplicationController :=
  let name := api.Name (api.RC_ObjectMeta rc) in
  let selector := <["managed-by" := name]> (gm_entries (api.RC_Spec_Selector rc)) in
  template ← deref (api.RC_Spec_Template rc);
  let labels := <["managed-by" := name]> (gm_entries (api.Labels (api.Template_ObjectMeta template))) in
  first ← index (api.Containers (api.Template_Spec template)) 0;
  cs ← set_index (api.Containers (api.Template_Spec template)) 0 (set_Container_Name name first);
  let template := set_Template_Spec (set_Containers cs (api.Template_Spec template))
                    (set_Template_Meta (set_Labels (Some labels) (api.Template_ObjectMeta template)) template) in
  let meta := api.RC_ObjectMeta rc in
  let meta := api.mkObjectMeta name (api.GenerateName meta) "" "" 0%Z None
                (match api.Labels meta with Some l => Some (<["managed-by" := name]> l) | None => None end) (api.Annotations meta) ∅ in
  Val (set_RC_Meta meta (set_RC_Template (Some template) (set_RC_Selector (Some selector) rc))).

Definition createReplicationController : handler := λ c,
  let namespace := Param c "ns" in
  rc <~ Unmarshal_RC (PostForm c "json");
  rc ← lift (tie_to_name rc);
  cl ← Get;
  r ← call (RCs_Create cl namespace rc);
  _u <~ failed r.2;
  Ret (Redirect StatusMovedPermanently (namespace_location namespace)).

Definition updateService : handler := λ c,
  let namespace := Param c "ns" in
  let svcname := Param c "svc" in
  svc <~ Unmarshal_Service (PostForm c "json");
  cl ← Get;
  r ← call (Services_Update cl namespace svc);
  _u <~ failed r.2;
  Ret (Redirect StatusMovedPermanently (edit_location namespace "services" svcname)).

Definition deleteService : handler := λ c,
  let namespace := Param c "ns" in
  let svcname := Param c "svc" in
  cl ← Get;
  e ← call (Services_Delete cl namespace svcname);
  _u <~ failed e;
  Ret (Redirect StatusMovedPermanently (namespace_location namespace)).

Definition updateEndpoints : handler := λ c,
  let namespace := Param c "ns" in
  let epname := Param c "ep" in
  ep <~ Unmarshal_Endpoints (PostForm c "json");
  cl ← Get;
  r ← call (Endpoints_Update cl namespace ep);
  _u <~ failed r.2;
  Ret (Redirect StatusMovedPermanently (edit_location namespace "endpoints" epname)).

Definition deleteEndpoints : handler := λ c,
  let namespace := Param c "ns" in
  let epname := Param c "ep" in
  cl ← Get;
  e ← call (Endpoints_Delete cl namespace epname);
  _u <~ failed e;
  Ret (Redirect StatusMovedPermanently (namespace_location namespace)).

Definition showServiceForm : handler := file_form "service.json" "serviceForm".

Definition createService : handler := λ c,
  let namespace := Param c "ns" in
  svc <~ Unmarshal_Service (PostForm c "json");
  cl ← Get;
  r ← call (Services_Create cl namespace svc);
  _u <~ failed r.2;
  Ret (Redirect StatusMovedPermanently (namespace_location namespace)).

Definition updateNode : handler := λ c,
  let nodename := Param c "no" in
  node <~ Unmarshal_Node (PostForm c "json");
  cl ← Get;
  r ← call (Nodes_Get cl (api.Name (api.Node_ObjectMeta node)));
  cur ← lift (deref r.1);
  let version := api.ResourceVersion (api.Node_ObjectMeta cur) in
  let node := set_Node_Meta (set_ResourceVersion version (api.Node_ObjectMeta node)) node in
  cl ← Get;
  r ← call (Nodes_Update cl node);
  _u <~ failed r.2;
  Ret (Redirect StatusMovedPermanently ("/nodes/" +:+ nodename +:+ "/edit")).

Definition deleteNode : handler := λ c,
  let nodename := Param c "no" in
  cl ← Get;
  e ← call (Nodes_Delete cl nodename);
  _u <~ failed e;
  Ret (Redirect StatusMovedPermanently "/nodes").

End handlers.
