(* ===== verification/Demo.v ===== *)
(** * Concrete instances of the interfaces

    Executable stand-ins for what is outside the repository, on which the witnesses
    of the handler theorems run: a line-based codec in place of encoding/json, and an
    API server that stores pods and replication controllers, bumps resource versions
    and rejects an update of another version.  Nothing is proved of the program from
    these definitions alone. *)

From stdpp Require Import prelude gmap strings.
From Stdlib Require Import ZArith NArith Ascii.
From S2P Require Import Prelude GoStrings GoSort Float64 Api Page Client Render PodActions Http Handlers.

#[local] Existing Instance demo_KubeApi.

Definition demo_EventOrder : EventOrder := λ a b, (api.Event_LastTimestamp a <? api.Event_LastTimestamp b)%Z.

Definition demo_TimeFormat : TimeFormat := FormatInt.

Definition demo_NodeReference : NodeReference :=
  λ node, Ok (api.mkObjectReference "Node" (api.Name (api.Node_ObjectMeta node)) "" "" ∅).

Definition demo_meta (name : string) : api.ObjectMeta :=
  api.mkObjectMeta name "" "" "0" 0%Z None None None ∅.

(** A pod by its name, with one container. *)
Definition demo_named_pod (name : string) : api.Pod :=
  api.mkPod (demo_meta name)
    (api.mkPodSpec [api.mkContainer "main" (name +:+ ":1") [] None None ∅] "node-1" false ∅)
    (api.mkPodStatus "Running" [] "" "" "" [] ∅).

Definition newline : ascii := "010".

Definition demo_config_text (c : Config) : string :=
  APIServerURL c +:+ String newline (Username c +:+ String newline (Password c)).

(** Controllers are decoded with [replicas] replicas. *)
Definition demo_json (replicas : Z) : JsonApi := {|
  Marshal_Pod p := Ok (api.Name (api.Pod_ObjectMeta p));
  Marshal_Node n := Ok (api.Name (api.Node_ObjectMeta n));
  Marshal_RC r := Ok (api.Name (api.RC_ObjectMeta r));
  Marshal_Service s := Ok (api.Name (api.Service_ObjectMeta s));
  Marshal_Endpoints e := Ok (api.Name (api.Endpoints_ObjectMeta e));
  Unmarshal_Pod s := Ok (demo_named_pod s);
  Unmarshal_Node s := Ok (api.mkNode (demo_meta s) false None [] ∅ ∅);
  Unmarshal_RC s := Ok (api.mkReplicationController (demo_meta s) replicas None None 0 ∅);
  Unmarshal_Service s := Ok (api.mkService (demo_meta s) "ClusterIP" "" [] [] None [] ∅);
  Unmarshal_Endpoints s := Ok (api.mkEndpoints (demo_meta s) [] ∅);
  json_Indent s := Ok s;
  Unmarshal_strings s := Ok (Split s ",");
  Unmarshal_bools s := Ok ((λ b, bool_decide (b = "true")) <$> Split s ",");
  Unmarshal_SimplePods s := Ok ((λ n, page.mkSimplePod n []) <$> Split s ",");
  Decode_TagList s := Ok (Split s ",");
  MarshalIndent_Config c := match c with Some c => Ok (demo_config_text c) | None => Ok "null" end;
  Unmarshal_Config s c :=
    match Split s newline with [u; n; p] => (mkConfig u n p, None) | _ => (c, Some "bad configuration") end;
|}.

Definition demo_JsonApi : JsonApi := demo_json 0.

(** ** A server *)

Record demo_state : Type := mkState {
  st_config : option Config;
  st_client : option Client;
  st_files : gmap string string;
  st_pods : gmap (string * string) api.Pod;
  st_rcs : gmap (string * string) api.ReplicationController;
  st_clock : Z;
}.

Definition set_pods (pods : gmap (string * string) api.Pod) (s : demo_state) : demo_state :=
  mkState (st_config s) (st_client s) (st_files s) pods (st_rcs s) (st_clock s).
Definition set_config (c : option Config) (s : demo_state) : demo_state :=
  mkState c (st_client s) (st_files s) (st_pods s) (st_rcs s) (st_clock s).
Definition set_client (c : option Client) (s : demo_state) : demo_state :=
  mkState (st_config s) c (st_files s) (st_pods s) (st_rcs s) (st_clock s).
Definition set_files (f : gmap string string) (s : demo_state) : demo_state :=
  mkState (st_config s) (st_client s) f (st_pods s) (st_rcs s) (st_clock s).

(** Stores a pod when its version is the stored one, giving it a new version. *)
Definition demo_update_pod (ns : string) (pod : api.Pod) (s : demo_state) :
    (option api.Pod * option string) * demo_state :=
  let name := api.Name (api.Pod_ObjectMeta pod) in
  match st_pods s !! (ns, name) with
  | None => ((None, Some "not found"), s)
  | Some cur =>
      if bool_decide (api.ResourceVersion (api.Pod_ObjectMeta pod) = api.ResourceVersion (api.Pod_ObjectMeta cur)) then
        let version := api.ResourceVersion (api.Pod_ObjectMeta cur) +:+ "'" in
        let stored := set_Pod_Meta (set_ResourceVersion version (api.Pod_ObjectMeta pod)) pod in
        ((Some stored, None), set_pods (<[(ns, name) := stored]> (st_pods s)) s)
      else ((None, Some "conflict"), s)
  end.

Definition lookup_or_error {A} (r : option A) : option A * option string :=
  match r with Some a => (Some a, None) | None => (None, Some "not found") end.

Definition demo_env (c : cmd) (s : demo_state) : resp c * demo_state :=
  match c return resp c * demo_state with
  | Now => (st_clock s, s)
  | ReadFile path => (match st_files s !! path with Some d => Ok d | None => Err "no such file" end, s)
  | WriteFile path data _ => (None, set_files (<[path := data]> (st_files s)) s)
  | HttpGet _ => (Ok "1.0.0,1.1.0", s)
  | GetKubeConfig => (st_config s, s)
  | SetKubeConfig cfg => (tt, set_config (Some cfg) s)
  | GetKubeClient => (st_client s, s)
  | SetKubeClient cl => (tt, set_client cl s)
  | NewOrDie cfg => (if bool_decide (Client_Host cfg = "") then Err "no host" else Ok cfg, s)
  | Namespaces_List _ => ((Some ["default"], None), s)
  | Pods_Get _ ns name => (lookup_or_error (st_pods s !! (ns, name)), s)
  | Pods_List _ ns _ => ((Some (map_to_list (st_pods s)).*2, None), s)
  | Pods_Update _ ns pod => demo_update_pod ns pod s
  | Pods_Log _ _ _ _ => (Ok (Ok "log"), s)
  | Events_List _ _ => ((Some [], None), s)
  | Events_Search _ _ _ => ((Some [], None), s)
  | Nodes_Get _ _ => ((None, Some "not found"), s)
  | Nodes_List _ _ => ((Some [], None), s)
  | Nodes_Update _ _ => ((None, Some "not found"), s)
  | Nodes_Delete _ _ => (Some "not found", s)
  | RCs_Get _ ns name => (lookup_or_error (st_rcs s !! (ns, name)), s)
  | RCs_List _ _ => ((Some (map_to_list (st_rcs s)).*2, None), s)
  | RCs_Update _ _ _ => ((None, Some "not found"), s)
  | RCs_Create _ _ _ => ((None, Some "forbidden"), s)
  | RCs_Delete _ _ _ => (None, s)
  | Services_Get _ _ _ => ((None, Some "not found"), s)
  | Services_List _ _ => ((Some [], None), s)
  | Services_Update _ _ _ => ((None, Some "not found"), s)
  | Services_Create _ _ _ => ((None, Some "forbidden"), s)
  | Services_Delete _ _ _ => (Some "not found", s)
  | Endpoints_Get _ _ _ => ((None, Some "not found"), s)
  | Endpoints_List _ _ => ((Some [], None), s)
  | Endpoints_Update _ _ _ => ((None, Some "not found"), s)
  | Endpoints_Delete _ _ _ => (Some "not found", s)
  end.

Definition demo_client : Client := mkClient "https://host" "v1" true "u" "p".
Definition demo_config : Config := mkConfig "https://host" "u" "p".

(** The pod of the action witnesses, stored in namespace "default". *)
Definition demo_start : demo_state :=
  mkState (Some demo_config) (Some demo_client) ∅ {[("default", "web-1") := demo_actions_pod]} ∅ 1000.

(** Requests. *)
Definition demo_request (params : list (string * string)) (form : gmap string (list string)) : Context :=
  mkContext params ∅ form ∅ ∅ {[AuthUserKey := "admin"]}.

(** Reads leave the state alone. *)
Lemma demo_env_reads c s : is_read c = true → (demo_env c s).2 = s.
Proof. by destruct c. Qed.

(** No command but an explicit assignment unsets the client. *)
Lemma demo_env_client c s :
  is_Some (st_client s) → c ≠ SetKubeClient None → is_Some (st_client (demo_env c s).2).
Proof.
  intros Hs Hc. destruct c; try exact Hs.
  - destruct cl; [eexists; reflexivity|done].
  - simpl. unfold demo_update_pod. by repeat case_match.
Qed.
