(* ===== verification/Routes.v ===== *)
(** * The route table of main and what holds of every route

    [routes] is the table main registers in the authenticated group.  The theorems
    quantify over it: the read-only routes, the answer to a request without
    credentials, the routes that look at the user, and that no request stops the
    server. *)

From stdpp Require Import prelude gmap strings.
From Stdlib Require Import ZArith NArith Ascii.
From S2P Require Import Prelude GoStrings GoSort Float64 Api Page Versions KubeUtil Client Render PodActions Http Handlers Demo.

Inductive method : Type := GET | POST.

#[export] Instance method_eq_dec : EqDecision method.
Proof. solve_decision. Defined.

(** [gin.Accounts]. *)
Definition accounts : gmap string string :=
  {["admin" := "secretsigma"; "bamboo" := "oobmab"; "default" := "test123";
    "rds" := "rrddss"; "rds-test" := "rrddsstt"]}.

Section routes.
Context `{K : KubeApi, GS : GoSort, MR : MapRange, PF : Platform, EO : EventOrder, TF : TimeFormat,
          J : !JsonApi, NR : !NodeReference}.
Context (KubeConfigFile : string).

Record route : Type := mkRoute {
  route_method : method;
  route_path : string;
  route_handler : handler;
}.

Definition routes : list route :=
  [mkRoute GET "/" overview;
   mkRoute GET "/namespaces/:ns" listOthersInNamespace;
   mkRoute GET "/namespaces/:ns/pods" listPodsInNamespace;
   mkRoute GET "/namespaces/:ns/pods/:po" describePod;
   mkRoute GET "/namespaces/:ns/pods/:po/log" readPodLog;
   mkRoute GET "/namespaces/:ns/pods/:po/containers/:ct/log" readContainerLog;
   mkRoute GET "/namespaces/:ns/pods/:po/edit" editPod;
   mkRoute GET "/namespaces/:ns/replicationcontrollers/:rc/edit" editReplicationController;
   mkRoute GET "/namespaces/:ns/services/:svc/edit" editService;
   mkRoute GET "/namespaces/:ns/endpoints/:ep/edit" editEndpoints;
   mkRoute GET "/nodes/:no/edit" editNode;
   mkRoute GET "/namespaces/:ns/events" listEventsInNamespace;
   mkRoute GET "/nodes" listNodes;
   mkRoute GET "/nodes/:no" describeNode;
   mkRoute GET "/help" help;
   mkRoute GET "/config" config;
   mkRoute GET "/namespaces/:ns/replicationcontrollers.form" showReplicationControllerForm;
   mkRoute POST "/namespaces/:ns/replicationcontrollers" createReplicationController;
   mkRoute GET "/namespaces/:ns/services.form" showServiceForm;
   mkRoute POST "/namespaces/:ns/services" createService;
   mkRoute POST "/namespaces/:ns/pods.form" showPodsForm;
   mkRoute POST "/namespaces/:ns/pods" performPodsAction;
   mkRoute POST "/config/update" (updateConfig KubeConfigFile);
   mkRoute POST "/namespaces/:ns/pods/:po/update" updatePod;
   mkRoute POST "/namespaces/:ns/pods/:po/export" updateReplicationControllerWithPod;
   mkRoute POST "/namespaces/:ns/pods/:po/import" updatePodWithReplicationController;
   mkRoute POST "/namespaces/:ns/services/:svc/update" updateService;
   mkRoute POST "/namespaces/:ns/services/:svc/delete" deleteService;
   mkRoute POST "/namespaces/:ns/endpoints/:ep/update" updateEndpoints;
   mkRoute POST "/namespaces/:ns/endpoints/:ep/delete" deleteEndpoints;
   mkRoute POST "/namespaces/:ns/replicationcontrollers/:rc/update" updateReplicationController;
   mkRoute POST "/namespaces/:ns/replicationcontrollers/:rc/delete" deleteReplicationController;
   mkRoute POST "/nodes/:no/update" updateNode;
   mkRoute POST "/nodes/:no/delete" deleteNode].

(** The chain of a route: recovery, authentication, handler.  The pairs are made
    once, at start; a panic there stops the program. *)
Definition serve (pairs : list authPair) (r : route) : handler :=
  Recovery (BasicAuth pairs (route_handler r)).

End routes.

(** ** Reads *)

Lemma all_cmds_gen_loop `{K : KubeApi} {A B} P (gen : A → prog B) l :
  (∀ x, all_cmds P (gen x)) → all_cmds P (gen_loop gen l).
Proof.
  intros Hgen. induction l as [|x l IH]; simpl; [done|].
  apply all_cmds_bind; [apply Hgen|]. intros row. by apply all_cmds_bind.
Qed.

(** Decomposes a program along its structure. *)
Ltac prog_step :=
  lazymatch goal with
  | |- ∀ _, _ => intros ?
  | |- all_cmds _ (mbind _ _) => apply all_cmds_bind
  | |- all_cmds _ (call _) => apply all_cmds_call
  | |- all_cmds _ (lift _) => apply all_cmds_lift
  | |- all_cmds _ (Ret _) => exact I
  | |- all_cmds _ (Stop _) => exact I
  | |- all_cmds _ (or_error ?r _) => unfold or_error
  | |- all_cmds _ (match ?x with _ => _ end) => destruct x
  | |- all_cmds _ (gen_loop _ ?l) => apply all_cmds_gen_loop
  | |- all_cmds _ _ => solve [eauto with kubecon]
  | |- _ = true => reflexivity
  end.

Section reads.
Context `{K : KubeApi, GS : GoSort, MR : MapRange, PF : Platform, EO : EventOrder, TF : TimeFormat,
          J : !JsonApi, NR : !NodeReference}.

(** A program that only reads. *)
Definition reads {A} (p : prog A) : Prop := all_cmds (λ c, is_read c = true) p.

Lemma reads_Get : reads Get.
Proof. unfold reads, Get. repeat prog_step. Qed.

Lemma reads_GetAllPods : reads GetAllPods.
Proof. unfold reads, GetAllPods. repeat prog_step. Qed.

Lemma reads_translate_timestamp t : reads (translate_timestamp t).
Proof. unfold reads, translate_timestamp. repeat prog_step. Qed.

End reads.

#[export] Hint Extern 1 (all_cmds _ Get) => apply reads_Get : kubecon.
#[export] Hint Extern 1 (all_cmds _ GetAllPods) => apply reads_GetAllPods : kubecon.
#[export] Hint Extern 1 (all_cmds _ (translate_timestamp _)) => apply reads_translate_timestamp : kubecon.

Section reads_lists.
Context `{K : KubeApi, GS : GoSort, MR : MapRange, PF : Platform, EO : EventOrder, TF : TimeFormat,
          J : !JsonApi, NR : !NodeReference}.

Lemma reads_genOnePod pod : reads (genOnePod pod).
Proof. unfold reads, genOnePod. repeat prog_step. Qed.

Lemma reads_genNodes l : reads (genNodes l).
Proof. unfold reads, genNodes, genOneNode. repeat prog_step. Qed.

Lemma reads_genReplicationControllers l : reads (genReplicationControllers l).
Proof. unfold reads, genReplicationControllers, genOneReplicationController. repeat prog_step. Qed.

Lemma reads_genServices l : reads (genServices l).
Proof. unfold reads, genServices, genOneService. repeat prog_step. Qed.

Lemma reads_genEndpoints l : reads (genEndpoints l).
Proof. unfold reads, genEndpoints, genOneEndpoint. repeat prog_step. Qed.

Lemma reads_genEvents l : reads (genEvents l).
Proof. unfold reads, genEvents, genOneEvent. repeat prog_step. Qed.

Lemma reads_summarize l : reads (summarize l).
Proof.
  unfold reads. induction l as [|ns l IH]; [done|]. cbn [summarize]. repeat first [exact IH|prog_step].
Qed.

Lemma reads_form_images action l : reads (form_images action l).
Proof.
  unfold reads. induction l as [|image l IH]; [done|]. cbn [form_images].
  unfold image_tags, getImageTags. repeat first [exact IH|prog_step].
Qed.

End reads_lists.

#[export] Hint Extern 1 (all_cmds _ (genOnePod _)) => apply reads_genOnePod : kubecon.
#[export] Hint Extern 1 (all_cmds _ (genNodes _)) => apply reads_genNodes : kubecon.
#[export] Hint Extern 1 (all_cmds _ (genReplicationControllers _)) => apply reads_genReplicationControllers : kubecon.
#[export] Hint Extern 1 (all_cmds _ (genServices _)) => apply reads_genServices : kubecon.
#[export] Hint Extern 1 (all_cmds _ (genEndpoints _)) => apply reads_genEndpoints : kubecon.
#[export] Hint Extern 1 (all_cmds _ (genEvents _)) => apply reads_genEvents : kubecon.
#[export] Hint Extern 1 (all_cmds _ (summarize _)) => apply reads_summarize : kubecon.
#[export] Hint Extern 1 (all_cmds _ (form_images _ _)) => apply reads_form_images : kubecon.

Section read_only.
Context `{K : KubeApi, GS : GoSort, MR : MapRange, PF : Platform, EO : EventOrder, TF : TimeFormat,
          J : !JsonApi, NR : !NodeReference}.
Context (KubeConfigFile : string).

Lemma reads_readLog ns po ct previous : reads (readLog ns po ct previous).
Proof. unfold reads, readLog. repeat prog_step. Qed.

Lemma reads_showPodsForm c : reads (showPodsForm c).
Proof. unfold reads, showPodsForm. repeat prog_step. Qed.

Lemma reads_routes c :
  Forall (λ r, route_method r = GET → reads (route_handler r c)) (routes KubeConfigFile).
Proof.
  unfold routes. repeat (apply Forall_cons_2); try apply Forall_nil_2; cbn [route_method route_handler]; intros Hm; try discriminate Hm;
    unfold reads, overview, listOthersInNamespace, listPodsInNamespace, describePod, readPodLog, readContainerLog,
      editPod, editReplicationController, editService, editEndpoints, editNode, listEventsInNamespace,
      listNodes, describeNode, help, config, showReplicationControllerForm, showServiceForm,
      pod_page, file_form, genPods, gen_events_of;
    try apply reads_readLog; repeat prog_step.
Qed.

Lemma all_cmds_recover P (p : prog response) : all_cmds P p → all_cmds P (recover p).
Proof.
  induction p as [a|h|c k IH]; simpl; [done|by destruct h|]. intros [? ?]. auto.
Qed.

Lemma all_cmds_serve P pairs r c :
  (∀ c, all_cmds P (route_handler r c)) → all_cmds P (serve pairs r c).
Proof.
  intros Hr. apply all_cmds_recover. unfold BasicAuth. destruct (searchCredential _ _); [apply Hr|done].
Qed.

(** C7. Every GET route only reads: whatever the request and whatever the answers
    of the cluster, none of its commands changes the cluster or the configuration;
    against an environment where reads change nothing, its state is as before. *)
Theorem get_routes_read_only {S} (env : ∀ c, S → resp c * S) pairs r c s :
  r ∈ routes KubeConfigFile → route_method r = GET →
  (∀ c s, is_read c = true → (env c s).2 = s) →
  (∀ tr o, exec (serve pairs r c) tr o → Forall (λ e, is_read (ev_cmd e) = true) tr)
  ∧ (run env (serve pairs r c) s).2 = s.
Proof.
  intros Hr Hget Henv. assert (reads (serve pairs r c)) as H.
  { apply all_cmds_serve. intros c'. pose proof (reads_routes c') as Hall. rewrite Forall_forall in Hall.
    by apply Hall. }
  split; [|by apply (run_preserves env (λ c, is_read c = true))].
  intros tr o Hex. by eapply (exec_all_cmds (λ c, is_read c = true)).
Qed.

End read_only.

(** ** Authentication and authorisation *)

Section access.
Context `{K : KubeApi, GS : GoSort, ML : MapRangeLaws, PF : Platform, EO : EventOrder, TF : TimeFormat,
          J : !JsonApi, NR : !NodeReference}.
Context (KubeConfigFile : string).

Lemma accounts_valid : valid_accounts accounts.
Proof. apply (bool_decide_unpack _). vm_compute. exact I. Qed.

(** C17. The server starts with valid credentials for exactly its five accounts:
    a request to a route whose Authorization header is not the header of one of them
    is answered 401 without a single command, and one that is runs the handler with
    that account's name. *)
Theorem serve_authenticates :
  ∃ pairs, processAccounts accounts = Val pairs ∧ ∀ r c,
    let h := default "" (Header c !! "Authorization") in
    ((∀ u p, accounts !! u = Some p → h ≠ authorizationHeader u p) →
       serve pairs r c = Ret (Status 401 [("WWW-Authenticate", realm)]))
    ∧ (∀ u p, accounts !! u = Some p → h = authorizationHeader u p →
       serve pairs r c = recover (route_handler r (Set_ AuthUserKey u c))).
Proof.
  destruct (searchCredential_iff accounts accounts_valid) as (pairs & Hp & Hs). exists pairs. split; [done|].
  intros r c h. unfold serve, Recovery, BasicAuth. fold h. split.
  - intros Hno. destruct (searchCredential pairs h) as [u|] eqn:E; [|done].
    apply Hs in E as (p & Hup & Hh). by destruct (Hno u p Hup).
  - intros u p Hup Hh. by rewrite (proj2 (Hs h u)) by by exists p.
Qed.

(** Who a route is for: the administrator, the owner of the namespace (the
    account of that name) and the administrator, or every account. *)
Inductive audience : Type := Administrator | Owner | Everyone.

Definition route_audience (r : route) : audience :=
  if bool_decide (route_method r = POST ∧ route_path r = "/config/update") then Administrator
  else if bool_decide (route_method r = GET ∧ route_path r = "/nodes") then Administrator
  else if bool_decide (route_method r = GET ∧ route_path r ∈
         ["/namespaces/:ns"; "/namespaces/:ns/pods"; "/namespaces/:ns/events"]) then Owner
  else Everyone.

Definition admits (a : audience) (c : Context) (user : string) : bool :=
  match a with
  | Administrator => bool_decide (user = "admin")
  | Owner => bool_decide (user = "admin") || bool_decide (user = Param c "ns")
  | Everyone => true
  end.

Lemma is_foreign_true user ns :
  bool_decide (user = "admin") || bool_decide (user = ns) = false → is_foreign user ns = true.
Proof. unfold is_foreign. by intros [-> ->]%orb_false_iff. Qed.

(** The authorisation the handlers really enforce: changing the configuration
    and listing all nodes is for the administrator, the three namespace lists are for
    the administrator and the account named like the namespace; a user not admitted
    gets the error page and no command is issued.  Every other route, among them
    those that update or delete pods, controllers, services and nodes of any
    namespace, behaves the same for all accounts. *)
Theorem authorisation_of_routes r c user :
  r ∈ routes KubeConfigFile →
  (admits (route_audience r) c user = false →
     route_handler r (Set_ AuthUserKey user c) = Ret (error_page StatusInternalServerError "Unauthorized"))
  ∧ (route_audience r = Everyone →
     ∀ user', route_handler r (Set_ AuthUserKey user c) = route_handler r (Set_ AuthUserKey user' c)).
Proof.
  intros Hr. revert r Hr. apply Forall_forall. unfold routes.
  assert (∀ user, MustGet (Set_ AuthUserKey user c) AuthUserKey = Val user) as Huser.
  { intros u. unfold MustGet. simpl. by rewrite lookup_insert_eq. }
  repeat (apply Forall_cons_2); try apply Forall_nil_2; cbn [route_handler].
  all: match goal with
       | |- context [route_audience ?r] =>
           let a := eval vm_compute in (route_audience r) in change (route_audience r) with a
       end.
  all: split; [intros Hadm; try discriminate Hadm|intros Ha; first [discriminate Ha|intros user'; reflexivity]].
  all: unfold listOthersInNamespace, listPodsInNamespace, listEventsInNamespace, listNodes, updateConfig;
    rewrite Huser; cbn [admits] in Hadm;
    match goal with |- mbind ?f (lift (Val ?u)) = ?p => change (f u = p); cbv beta end.
  all: first [rewrite Hadm; reflexivity|apply is_foreign_true in Hadm;
              match goal with
              | |- context [is_foreign ?u ?ns] => change (is_foreign u ns) with (is_foreign u (Param c "ns"))
              end; rewrite Hadm; reflexivity].
Qed.

End access.

(** ** Witnesses *)

Section witnesses.
#[local] Existing Instances demo_KubeApi insertion_GoSort list_MapRange amd64 demo_EventOrder demo_TimeFormat
  demo_JsonApi demo_NodeReference.

Definition demo_delete_node : Context := demo_request [("no", "node-1")] ∅.

Lemma authorisation_of_routes_witness :
  (route_handler (mkRoute GET "/nodes" listNodes) (Set_ AuthUserKey "rds" demo_delete_node)
    = Ret (error_page StatusInternalServerError "Unauthorized"))
  ∧ route_handler (mkRoute POST "/nodes/:no/delete" deleteNode) (Set_ AuthUserKey "rds" demo_delete_node)
    = route_handler (mkRoute POST "/nodes/:no/delete" deleteNode) (Set_ AuthUserKey "admin" demo_delete_node).
Proof.
  split.
  - apply (proj1 (authorisation_of_routes "kubeconfig.json" (mkRoute GET "/nodes" listNodes)
      demo_delete_node "rds" ltac:(unfold routes; set_solver))).
    vm_compute; reflexivity.
  - apply (proj2 (authorisation_of_routes "kubeconfig.json" (mkRoute POST "/nodes/:no/delete" deleteNode)
      demo_delete_node "rds" ltac:(unfold routes; set_solver))).
    vm_compute; reflexivity.
Defined.

Lemma serve_authenticates_witness :
  ∃ pairs, processAccounts accounts = Val pairs
    ∧ serve pairs (mkRoute GET "/help" help) demo_delete_node = Ret (Status 401 [("WWW-Authenticate", realm)]).
Proof.
  destruct (@serve_authenticates demo_KubeApi list_MapRange list_MapRangeLaws) as (pairs & Hp & H).
  exists pairs. split; [exact Hp|]. apply H. intros u p _. discriminate.
Defined.

Lemma get_routes_read_only_witness :
  (run demo_env (serve [] (mkRoute GET "/" overview) demo_delete_node) demo_start).2 = demo_start.
Proof.
  apply (get_routes_read_only "kubeconfig.json" demo_env [] (mkRoute GET "/" overview) demo_delete_node demo_start
    ltac:(left) eq_refl demo_env_reads).
Defined.

End witnesses.
