(* ===== verification/Router.v ===== *)
(** * Which handler a request reaches

    The registration of the routes of main with gin (routergroup.go, gin.go,
    utils.go) into one radix tree per method, and the dispatch of a request through
    them.  The main theorem: whatever the path, a request is dispatched to the one
    registered route whose pattern matches it, with the parameters that pattern
    binds. *)

From stdpp Require Import prelude gmap strings.
From Stdlib Require Import ZArith NArith Ascii.
From S2P Require Import Prelude GoStrings GoSort RadixTree Float64 Api Page Client Render Http Handlers Demo Routes.

(** ** Paths *)

(** path.Clean: empty and "." elements dropped, ".." taken with what precedes it
    (dropped at the root); [stack] holds the elements kept, last first. *)
Fixpoint clean_elements (rooted : bool) (stack : list string) (es : list string) : list string :=
  match es with
  | [] => reverse stack
  | e :: es =>
      if bool_decide (e = "") || bool_decide (e = ".") then clean_elements rooted stack es
      else if bool_decide (e = "..") then
        match stack with
        | top :: stack' =>
            if bool_decide (top = "..") then clean_elements rooted (e :: stack) es
            else clean_elements rooted stack' es
        | [] => if rooted then clean_elements rooted [] es else clean_elements rooted [e] es
        end
      else clean_elements rooted (e :: stack) es
  end.

Definition path_Clean (p : string) : string :=
  let rooted := HasPrefix p "/" in
  let body := Join (clean_elements rooted [] (Split p "/")) "/" in
  if rooted then "/" +:+ body else if bool_decide (body = "") then "." else body.

(** path.Join of two elements, empty ones ignored. *)
Definition path_Join (a b : string) : string :=
  match filter (λ e, e ≠ "") [a; b] with [] => "" | es => path_Clean (Join es "/") end.

Definition joinPaths (absolutePath relativePath : string) : string :=
  if bool_decide (relativePath = "") then absolutePath
  else
    let finalPath := path_Join absolutePath relativePath in
    if HasSuffix relativePath "/" && negb (HasSuffix finalPath "/") then finalPath +:+ "/" else finalPath.

(** ** Registration *)

(** The functions of a handler chain: gin's logger and recovery, the basic
    authentication of the group, a static directory, a handler of the console by its
    place in the route table. *)
Inductive hid : Type := HLogger | HRecovery | HBasicAuth | HStatic (dir : string) | HConsole (i : nat).

#[export] Instance hid_eq_dec : EqDecision hid.
Proof. solve_decision. Defined.

Definition HandlersChain : Type := list hid.

Record RouterGroup : Type := mkGroup { group_Handlers : HandlersChain; basePath : string }.

Definition abortIndex : nat := 63.

Definition combineHandlers (group : RouterGroup) (hs : HandlersChain) : go HandlersChain :=
  if Nat.leb abortIndex (length (group_Handlers group) + length hs) then gopanic (Panicked "too many handlers")
  else Val (group_Handlers group ++ hs).

Definition calculateAbsolutePath (group : RouterGroup) (relativePath : string) : string :=
  joinPaths (basePath group) relativePath.

Definition Group (group : RouterGroup) (relativePath : string) (hs : HandlersChain) : go RouterGroup :=
  hs ← combineHandlers group hs;
  Val (mkGroup hs (calculateAbsolutePath group relativePath)).

(** The trees of the engine, by method, in order of first use. *)
Definition methodTrees : Type := list (string * node HandlersChain).

Fixpoint trees_get (trees : methodTrees) (m : string) : option (node HandlersChain) :=
  match trees with
  | [] => None
  | (m', tree) :: trees => if bool_decide (m' = m) then Some tree else trees_get trees m
  end.

Fixpoint trees_set (trees : methodTrees) (m : string) (tree : node HandlersChain) : methodTrees :=
  match trees with
  | [] => [(m, tree)]
  | (m', r) :: trees => if bool_decide (m' = m) then (m', tree) :: trees else (m', r) :: trees_set trees m tree
  end.

Definition engine_addRoute (trees : methodTrees) (m p : string) (hs : HandlersChain) : go methodTrees :=
  if negb (HasPrefix p "/") then gopanic (Panicked "path must begin with '/'")
  else if bool_decide (m = "") then gopanic (Panicked "HTTP method can not be empty")
  else if bool_decide (hs = []) then gopanic (Panicked "there must be at least one handler")
  else
    tree ← addRoute (default node_zero (trees_get trees m)) p hs;
    Val (trees_set trees m tree).

Definition handle (group : RouterGroup) (trees : methodTrees) (m relativePath : string) (hs : HandlersChain) :
    go methodTrees :=
  let absolutePath := calculateAbsolutePath group relativePath in
  hs ← combineHandlers group hs;
  engine_addRoute trees m absolutePath hs.

(** [Static]: GET and HEAD of everything below a path. *)
Definition Static (group : RouterGroup) (trees : methodTrees) (relativePath dir : string) : go methodTrees :=
  if negb (sforallb (λ a, negb (is_wild a)) relativePath) then
    gopanic (Panicked "URL parameters can not be used when serving a static folder")
  else
    let urlPattern := path_Join relativePath "/*filepath" in
    trees ← handle group trees "GET" urlPattern [HStatic dir];
    handle group trees "HEAD" urlPattern [HStatic dir].

Definition method_name (m : method) : string := match m with GET => "GET" | POST => "POST" end.

(** The methods and paths of the route table. *)
Definition route_table : list (method * string) :=
  (λ r, (route_method r, route_path r)) <$>
    @routes demo_KubeApi insertion_GoSort list_MapRange amd64 demo_EventOrder demo_TimeFormat demo_JsonApi
      demo_NodeReference "".

(** The calls [a.GET(path, handler)] and [a.POST(path, handler)], in order. *)
Fixpoint register (group : RouterGroup) (trees : methodTrees) (i : nat) (l : list (method * string)) : go methodTrees :=
  match l with
  | [] => Val trees
  | (m, p) :: l =>
      trees ← handle group trees (method_name m) p [HConsole i];
      register group trees (S i) l
  end.

(** What main registers: gin.Default, the four static directories, the group. *)
Definition main_trees : go methodTrees :=
  let engine := mkGroup [HLogger; HRecovery] "/" in
  trees ← Static engine [] "/js" "js";
  trees ← Static engine trees "/css" "css";
  trees ← Static engine trees "/fonts" "fonts";
  trees ← Static engine trees "/img" "img";
  a ← Group engine "/" [HBasicAuth];
  register a trees 0 route_table.

(** ** Dispatch *)

(** The outcome of routing: a chain with its parameters, a redirect to the path
    with or without its trailing slash, or the 404 chain. *)
Inductive outcome : Type :=
| Chain (hs : HandlersChain) (params : list (string * string))
| SlashRedirect (code : Z) (path : string)
| NotFound.

(** The path redirectTrailingSlash goes to. *)
Definition other_slash (p : string) : string :=
  if Nat.ltb 1 (String.length p) && HasSuffix p "/" then TrimSuffix p "/" else p +:+ "/".

(** handleHTTPRequest; [cap] is the capacity the pooled context's parameters have. *)
Definition handleHTTPRequest (trees : methodTrees) (httpMethod p : string) (cap : nat) : go outcome :=
  match trees_get trees httpMethod with
  | None => Val NotFound
  | Some tree =>
      '(hs, params, tsr) ← getValue tree p [] cap;
      match hs with
      | Some hs => Val (Chain hs params)
      | None =>
          if negb (bool_decide (httpMethod = "CONNECT")) && negb (bool_decide (p = "/")) && tsr
          then Val (SlashRedirect (if bool_decide (httpMethod = "GET") then 301 else 307)%Z (other_slash p))
          else Val NotFound
      end
  end.

(** ** The trees of the console *)

(** The registrations of a method: static directories first. *)
Definition static_dirs : list string := ["js"; "css"; "fonts"; "img"].

Definition static_table : list (string * HandlersChain) :=
  (λ dir, ("/" +:+ dir +:+ "/*filepath", [HLogger; HRecovery; HStatic dir])) <$> static_dirs.

Fixpoint console_table (m : method) (i : nat) (l : list (method * string)) : list (string * HandlersChain) :=
  match l with
  | [] => []
  | (m', p) :: l =>
      if decide (m' = m) then (p, [HLogger; HRecovery; HBasicAuth; HConsole i]) :: console_table m (S i) l
      else console_table m (S i) l
  end.

(** What is registered for each method. *)
Definition registered (httpMethod : string) : list (string * HandlersChain) :=
  if bool_decide (httpMethod = "GET") then static_table ++ console_table GET 0 route_table
  else if bool_decide (httpMethod = "HEAD") then static_table
  else if bool_decide (httpMethod = "POST") then console_table POST 0 route_table
  else [].

Definition the_trees : methodTrees :=
  Eval vm_compute in match main_trees with Val trees => trees | Halt _ => [] end.

Lemma main_trees_Val : main_trees = Val the_trees.
Proof. vm_compute. reflexivity. Qed.

(** The tree of a method is well formed and has the routes registered. *)
Definition tree_ok (m : string) (tree : node HandlersChain) : bool :=
  wf tree && negb (is_catch_all tree)
  && bool_decide (norm_routes (routes_of tree) ≡ₚ norm_routes (table_routes (registered m))).

Lemma the_trees_ok : forallb (λ mt, tree_ok mt.1 mt.2) the_trees = true.
Proof. vm_compute. reflexivity. Qed.

Lemma the_trees_get m tree : trees_get the_trees m = Some tree → tree_ok m tree = true.
Proof.
  pose proof the_trees_ok as Hok. revert Hok. generalize the_trees as trees.
  induction trees as [|[m' t] trees IH]; simpl; [done|]. intros [Ht Hts]%andb_true_iff.
  case_bool_decide; [|by apply IH]. intros [= ->]. by subst.
Qed.

Lemma the_trees_None m : trees_get the_trees m = None → registered m = [].
Proof.
  unfold registered. intros H. repeat case_bool_decide; subst; try done; vm_compute in H; discriminate H.
Qed.

(** Routing never panics and finds the one registration that matches. *)
Lemma handleHTTPRequest_spec m p cap :
  ∃ o, handleHTTPRequest the_trees m p cap = Val o
    ∧ matches (table_routes (registered m)) p = match o with Chain hs ps => [(hs, ps)] | _ => [] end.
Proof.
  unfold handleHTTPRequest. destruct (trees_get the_trees m) as [tree|] eqn:Ht.
  2:{ exists NotFound. split; [done|]. by rewrite (the_trees_None m Ht). }
  apply the_trees_get in Ht. unfold tree_ok in Ht. rewrite !andb_true_iff, negb_true_iff in Ht.
  destruct Ht as [[Hwf Hca] Hperm%bool_decide_eq_true].
  destruct (lookup_in_table tree (registered m) p cap Hwf Hca Hperm) as (hs & ps & tsr & -> & Hms).
  destruct hs as [h|]; simpl; [by eexists|]. rewrite Hms. destruct (_ && tsr); by eexists.
Qed.

(** C13. main registers all its routes without a conflict, and routing is exact: for
    every method and path, gin's tree finds the handler chain and the parameters of
    the only registered route whose pattern matches the path; when none matches it
    finds none.  It never panics, whatever capacity the recycled parameter slice
    has. *)
Theorem routing_is_exact :
  ∃ trees, main_trees = Val trees ∧ ∀ m p cap,
  ∃ o, handleHTTPRequest trees m p cap = Val o
    ∧ matches (table_routes (registered m)) p = match o with Chain hs ps => [(hs, ps)] | _ => [] end.
Proof. exists the_trees. split; [apply main_trees_Val|]. apply handleHTTPRequest_spec. Qed.

(** ** The routes behind the registrations *)

Section dispatch.
Context `{K : KubeApi, GS : GoSort, MR : MapRange, PF : Platform, EO : EventOrder, TF : TimeFormat,
          J : !JsonApi, NR : !NodeReference}.
Context (KubeConfigFile : string).

Definition set_Params (ps : list (string * string)) (c : Context) : Context :=
  mkContext ps (URL_Query c) (Request_PostForm c) (Multipart_Value c) (Header c) (Keys c).

Lemma route_table_routes :
  (λ r, (route_method r, route_path r)) <$> routes KubeConfigFile = route_table.
Proof. reflexivity. Qed.

Lemma elem_of_console_table m i l p hs :
  (p, hs) ∈ console_table m i l ↔
  ∃ j, l !! j = Some (m, p) ∧ hs = [HLogger; HRecovery; HBasicAuth; HConsole (i + j)].
Proof.
  revert i. induction l as [|[m' p'] l IH]; intros i; simpl.
  { split; [by intros ?%not_elem_of_nil|by intros (j & ? & _)]. }
  assert ((∃ j, ((m', p') :: l) !! j = Some (m, p) ∧ hs = [HLogger; HRecovery; HBasicAuth; HConsole (i + j)])
    ↔ ((m', p') = (m, p) ∧ hs = [HLogger; HRecovery; HBasicAuth; HConsole i])
      ∨ ∃ j, l !! j = Some (m, p) ∧ hs = [HLogger; HRecovery; HBasicAuth; HConsole (S i + j)]) as ->.
  { split.
    - intros ([|j] & Hj & ->); simpl in Hj; [left; rewrite Nat.add_0_r; by simplify_eq|].
      right. exists j. by rewrite Nat.add_succ_r.
    - intros [[[= -> ->] ->]|(j & Hj & ->)]; [exists 0; by rewrite Nat.add_0_r|].
      exists (S j). by rewrite Nat.add_succ_r. }
  case_decide as Hm.
  - rewrite elem_of_cons, IH. naive_solver.
  - rewrite IH. naive_solver.
Qed.

(** The registrations of the console's routes. *)
Lemma registered_route r i :
  routes KubeConfigFile !! i = Some r →
  (route_path r, [HLogger; HRecovery; HBasicAuth; HConsole i]) ∈ registered (method_name (route_method r)).
Proof.
  intros Hr. assert (route_table !! i = Some (route_method r, route_path r)) as Ht.
  { by rewrite <- route_table_routes, list_lookup_fmap, Hr. }
  destruct (route_method r).
  - change (registered (method_name GET)) with (static_table ++ console_table GET 0 route_table).
    apply elem_of_app. right. apply elem_of_console_table. by exists i.
  - change (registered (method_name POST)) with (console_table POST 0 route_table).
    apply elem_of_console_table. by exists i.
Qed.

Lemma registered_console m p hs i :
  (p, hs) ∈ registered m → last hs = Some (HConsole i) →
  ∃ r, routes KubeConfigFile !! i = Some r ∧ method_name (route_method r) = m ∧ route_path r = p
       ∧ hs = [HLogger; HRecovery; HBasicAuth; HConsole i].
Proof.
  intros Hin Hl.
  assert (∃ m', method_name m' = m ∧ (p, hs) ∈ console_table m' 0 route_table) as (m' & <- & Hc).
  { unfold registered in Hin.
    assert ((p, hs) ∉ static_table) as Hno.
    { intros (dir & [= -> ->] & _)%list_elem_of_fmap. discriminate Hl. }
    repeat case_bool_decide; subst; [exists GET|done|exists POST|by apply not_elem_of_nil in Hin]; split; try done.
    by apply elem_of_app in Hin as [?|?]. }
  apply elem_of_console_table in Hc as (j & Hj & ->). injection Hl as ->. rewrite <- route_table_routes in Hj.
  rewrite list_lookup_fmap in Hj. destruct (routes KubeConfigFile !! i) as [r|]; [|done].
  injection Hj as <- <-. by exists r.
Qed.

Lemma elem_of_matches {H} (l : list (string * H)) p h ps :
  (h, ps) ∈ matches (table_routes l) p ↔ ∃ pat, (pat, h) ∈ l ∧ match_toks (pattern_of pat) p = Some ps.
Proof.
  unfold matches, table_routes. rewrite list_elem_of_omap. split.
  - intros ([ts h'] & Hin & Heq). apply list_elem_of_fmap in Hin as ([pat h''] & [= -> ->] & Hin).
    simpl in Heq. destruct (match_toks (pattern_of pat) p) as [qs|] eqn:E; [|done]. injection Heq as -> ->.
    by exists pat.
  - intros (pat & Hin & Hm). exists (pattern_of pat, h). simpl. rewrite Hm. split; [|done].
    apply list_elem_of_fmap. by exists (pat, h).
Qed.

End dispatch.
