(* ===== verification/RouteListing.v ===== *)
(** * The listing of registered routes: Routes of gin.go

    [Engine.Routes] walks the trees and puts the paths of the registrations together
    again.  Reading a registered path as a pattern and printing the pattern are inverse
    ([unparse_pattern]), so the listing is the list of the registrations. *)

From stdpp Require Import prelude strings.
From Stdlib Require Import ZArith NArith Ascii.
From S2P Require Import Prelude GoStrings RadixTree RadixPatterns RadixInsert RadixBuild RadixTables Router.

(** ** Patterns as text *)

Fixpoint unparse (ts : list tok) : string :=
  match ts with
  | [] => ""
  | TText s :: ts => s +:+ unparse ts
  | TParam x :: ts => ":" +:+ x +:+ unparse ts
  | TAll x :: ts => "/*" +:+ x +:+ unparse ts
  end.

Lemma unparse_norm ts : unparse (norm ts) = unparse ts.
Proof.
  induction ts as [|[s|x|x] ts IH]; [done| |simpl; by rewrite IH..]. cbn [unparse]. rewrite <- IH. cbn [norm].
  destruct (norm ts) as [|[t|y|y] ts']; [|by cbn [unparse]; rewrite sapp_assoc|..]; case_bool_decide; by subst.
Qed.

Lemma unparse_parse fuel p : count_wild p ≤ fuel → valid_loop fuel p = true → unparse (parse_pattern fuel p) = p.
Proof.
  revert p. induction fuel as [|fuel IH]; intros p Hc Hv; [apply sapp_nil_r|]. cbn [parse_pattern valid_loop] in *.
  pose proof (find_wild_spec p) as Hf. destruct (find_wild p) as [[[pre c] rest]|]; [|apply sapp_nil_r].
  destruct Hf as (-> & Hpre & Hcw). pose proof (span_segment_spec rest) as Hs. destruct (span_segment rest) as [name tail].
  destruct Hs as (-> & Hfree & Htail). rewrite count_wild_app in Hc. simpl in Hc. rewrite Hcw, count_wild_app in Hc.
  apply andb_true_iff in Hv as [Hn Hv]. case_bool_decide as Hcc.
  - subst c. cbn [unparse]. case_bool_decide as Ht; [by subst tail; cbn [unparse]|]. by rewrite IH by (done || lia).
  - apply is_wild_cases in Hcw as [->| ->]; [done|]. apply andb_true_iff in Hv as [[u ->]%HasSuffix_spec ->%bool_decide_eq_true].
    rewrite TrimSuffix_app. cbn [unparse]. by rewrite !sapp_nil_r, sapp_assoc.
Qed.

(** Reading a valid path and printing it. *)
Lemma unparse_pattern p : valid p = true → unparse (pattern_of p) = p.
Proof. intros Hv. by apply unparse_parse. Qed.

(** ** The listing *)

Record RouteInfo : Type := mkRouteInfo { Method : string; Path : string; Handler : string }.

Section listing.
Context (nameOfFunction : hid → string).

Definition Last (c : HandlersChain) : option hid := last c.

(** [nameOfFunction] of the last handler, where there is one. *)
Definition name_of_last (c : HandlersChain) : string :=
  match Last c with Some h => nameOfFunction h | None => "" end.

Fixpoint iterate (path m : string) (routes : list RouteInfo) (root : node HandlersChain) : list RouteInfo :=
  match root with
  | Node npath _ _ _ _ cs hs _ =>
      let path := path +:+ npath in
      let routes :=
        match hs with
        | Some c => if Nat.ltb 0 (length c) then routes ++ [mkRouteInfo m path (name_of_last c)] else routes
        | None => routes
        end in
      foldl (λ routes child, iterate path m routes child) routes cs
  end.

Definition Routes (trees : methodTrees) : list RouteInfo :=
  foldl (λ routes tree, iterate "" tree.1 routes tree.2) [] trees.

(** The lines for a list of patterns with their chains. *)
Definition lines (pre m : string) (l : list (list tok * HandlersChain)) : list RouteInfo :=
  (λ r, mkRouteInfo m (pre +:+ unparse r.1) (name_of_last r.2)) <$> l.

Lemma lines_app pre m l k : lines pre m (l ++ k) = lines pre m l ++ lines pre m k.
Proof. apply fmap_app. Qed.

Lemma lines_text pre m s l : lines pre m (prepend (TText s) l) = lines (pre +:+ s) m l.
Proof.
  unfold lines, prepend. rewrite <- list_fmap_compose. apply list_fmap_ext. intros _ r _. simpl. by rewrite sapp_assoc.
Qed.

Lemma lines_param pre m x l : lines pre m (prepend (TParam x) l) = lines (pre +:+ ":" +:+ x) m l.
Proof.
  unfold lines, prepend. rewrite <- list_fmap_compose. apply list_fmap_ext. intros _ r _. simpl.
  rewrite !sapp_assoc. by rewrite sapp_cons.
Qed.

(** Every chain has a handler. *)
Definition handled (l : list (list tok * HandlersChain)) : Prop := Forall (λ r, r.2 ≠ []) l.

Lemma lines_own pre m hs acc :
  handled (own_route hs) →
  match hs with
  | Some c => if Nat.ltb 0 (length c) then acc ++ [mkRouteInfo m pre (name_of_last c)] else acc
  | None => acc
  end = acc ++ lines pre m (own_route hs).
Proof.
  destruct hs as [[|h c]|]; [intros [Hne _]%Forall_cons; done| |by rewrite app_nil_r].
  intros _. simpl. by rewrite sapp_nil_r.
Qed.

Lemma handled_prepend t l : handled (prepend t l) ↔ handled l.
Proof. unfold handled, prepend. by rewrite Forall_fmap. Qed.

Lemma iterate_children pre m cs acc :
  (∀ c acc, c ∈ cs → iterate pre m acc c = acc ++ lines pre m (routes_of c)) →
  foldl (λ routes child, iterate pre m routes child) acc cs = acc ++ lines pre m (concat (map routes_of cs)).
Proof.
  revert acc. induction cs as [|c cs IH]; intros acc Hcs; [by rewrite app_nil_r|]. cbn [map concat foldl].
  rewrite lines_app, app_assoc, <- Hcs by by left. apply IH. intros c' acc' Hc'. apply Hcs. by right.
Qed.

(** The walk of a well-formed tree lists its routes. *)
Lemma iterate_routes k n pre m acc :
  size n ≤ k → wf n = true → handled (routes_of n) → iterate pre m acc n = acc ++ lines pre m (routes_of n).
Proof.
  revert n pre acc. induction k as [|k IH]; intros n pre acc Hk Hwf Hh; [destruct n; simpl in Hk; lia|].
  destruct n as [npath [|] nt mp idx cs hs prio].
  - cbn [routes_of] in *. rewrite handled_prepend in Hh. rewrite lines_text.
    cbn [wf] in Hwf. apply andb_true_iff in Hwf as [_ Hwf].
    apply Forall_app in Hh as [Hown Hh]. rewrite lines_app, app_assoc.
    cbn [iterate]. rewrite (lines_own _ _ hs acc Hown). generalize (acc ++ lines (pre +:+ npath) m (own_route hs)). intros acc'.
    destruct cs as [|[cpath [|] [| | |] cm cidx ccs chs cprio] [|? ?]]; try done.
    + rewrite !andb_true_iff in Hwf. destruct Hwf as [[[_ [name ->]%HasPrefix_spec] _] Hccs].
      change (sdrop 1 (":" +:+ name)) with name in *. rewrite lines_param. apply handled_prepend, Forall_app in Hh as [Hchs Hh].
      cbn [foldl iterate]. rewrite (lines_own _ _ chs acc' Hchs), lines_app, app_assoc.
      destruct ccs as [|c1 [|? ?]]; [by rewrite app_nil_r| |done]. rewrite !andb_true_iff in Hccs.
      cbn [foldl]. apply IH; [simpl in Hk; lia|by apply Hccs|done].
    + destruct ccs as [|? ?], chs as [h|]; try done. rewrite !andb_true_iff in Hwf.
      destruct Hwf as [[[[name ->]%HasPrefix_spec _] _] _]. apply Forall_cons in Hh as [Hne _].
      cbn [foldl iterate]. destruct h as [|h0 h]; [done|]. simpl. by rewrite sapp_nil_r.
    + by destruct ccs, chs.
  - rewrite wf_static, !andb_true_iff in Hwf. destruct Hwf as [_ [Hcs _]%wf_children_spec].
    cbn [routes_of] in *. rewrite handled_prepend in Hh. rewrite lines_text.
    apply Forall_app in Hh as [Hown Hh]. rewrite lines_app, app_assoc.
    cbn [iterate]. rewrite (lines_own _ _ hs acc Hown). apply iterate_children. intros c acc' Hc. apply IH.
    + pose proof (size_child c cs Hc). simpl in Hk. lia.
    + apply list_elem_of_lookup in Hc as [i Hi]. by destruct (Forall2_lookup_l _ _ _ _ _ Hcs Hi) as (b & _ & Hwc & _).
    + apply Forall_forall. intros r Hr. rewrite Forall_forall in Hh. apply Hh.
      apply list_elem_of_In, in_concat. exists (routes_of c). split; [|by apply list_elem_of_In].
      apply in_map. by apply list_elem_of_In.
Qed.

(** ** Trees built by registration *)

Lemma lines_norm pre m l : lines pre m (norm_routes l) = lines pre m l.
Proof.
  unfold lines, norm_routes. rewrite <- list_fmap_compose. apply list_fmap_ext. intros _ r _. simpl. by rewrite unparse_norm.
Qed.

Lemma lines_same pre m l k : same_routes l k → lines pre m l ≡ₚ lines pre m k.
Proof. intros Hlk. rewrite <- (lines_norm pre m l), <- (lines_norm pre m k). by apply fmap_Permutation. Qed.

Lemma handled_same l k : same_routes l k → handled l → handled k.
Proof.
  intros Hlk. assert (∀ l : list (list tok * HandlersChain), handled (norm_routes l) ↔ handled l) as Hn.
  { intros l'. unfold handled, norm_routes. by rewrite Forall_fmap. }
  rewrite <- (Hn l), <- (Hn k). unfold handled, same_routes in *. by rewrite Hlk.
Qed.

(** The trees of an engine: well formed, every route with a handler. *)
Definition listable (t : string * node HandlersChain) : Prop := is_router t.2 = true ∧ handled (routes_of t.2).

Definition tree_lines (t : string * node HandlersChain) : list RouteInfo := lines "" t.1 (routes_of t.2).

Lemma Routes_lines trees : Forall listable trees → Routes trees = concat (map tree_lines trees).
Proof.
  unfold Routes. intros Ht. change (concat (map tree_lines trees)) with ([] ++ concat (map tree_lines trees)).
  generalize (@nil RouteInfo). induction Ht as [|t trees [Hr Hh] _ IH]; intros acc; [by rewrite app_nil_r|].
  cbn [foldl map concat]. rewrite IH, app_assoc. f_equal. unfold is_router in Hr. rewrite !andb_true_iff in Hr.
  destruct Hr as [[Hwf _] _]. by apply (iterate_routes (size t.2)).
Qed.

Lemma trees_set_lines trees m tree0 tree :
  Forall listable trees → listable (m, tree) → default node_zero (trees_get trees m) = tree0 →
  Forall listable (trees_set trees m tree)
  ∧ ∃ rest, concat (map tree_lines trees) ≡ₚ tree_lines (m, tree0) ++ rest
      ∧ concat (map tree_lines (trees_set trees m tree)) ≡ₚ tree_lines (m, tree) ++ rest.
Proof.
  intros Ht Hm. induction Ht as [|[m' t'] trees Hl Ht IH]; cbn [trees_get trees_set].
  { intros <-. split; [by constructor|]. exists []. done. }
  case_bool_decide as Hmm.
  - subst m'. intros [= ->]. split; [by constructor|]. exists (concat (map tree_lines trees)). done.
  - intros Hd. destruct (IH Hd) as (Hl' & rest & Hr & Hr'). split; [by constructor|].
    exists (tree_lines (m', t') ++ rest). cbn [map concat]. rewrite Hr, Hr'. split; solve_Permutation.
Qed.

Definition line (r : string * string * HandlersChain) : RouteInfo := mkRouteInfo r.1.1 r.1.2 (name_of_last r.2).

Lemma engine_addRoute_lines trees trees' m p hs :
  Forall listable trees → registrable p = true → engine_addRoute trees m p hs = Val trees' →
  Forall listable trees' ∧ concat (map tree_lines trees') ≡ₚ line (m, p, hs) :: concat (map tree_lines trees).
Proof.
  intros Ht Hp. unfold engine_addRoute. case_match; [done|]. case_bool_decide; [done|]. case_bool_decide as Hhs; [done|].
  set (tree0 := default node_zero (trees_get trees m)).
  assert (router tree0 ∧ handled (routes_of tree0)) as [Hr0 Hh0].
  { unfold tree0. destruct (trees_get trees m) as [t|] eqn:Hg; simpl; [|by split; [left|constructor]].
    assert ((m, t) ∈ trees) as Hin.
    { clear -Hg. induction trees as [|[m' t'] trees IH]; [done|]. simpl in Hg. case_bool_decide; [|right; auto].
      simplify_eq. by left. }
    rewrite Forall_forall in Ht. destruct (Ht _ Hin). by split; [right|]. }
  pose proof (addRoute_ok tree0 p hs Hr0 Hp) as Hw. destruct (addRoute tree0 p hs) as [tree|]; [|done]. simpl in Hw.
  intros [= <-]. destruct Hw as (Hv & Hrt & Hsame).
  assert (listable (m, tree)) as Hlt.
  { split; [done|]. eapply handled_same; [symmetry; exact Hsame|]. by constructor. }
  destruct (trees_set_lines trees m tree0 tree Ht Hlt eq_refl) as (Hl & rest & Hr & Hr'). split; [done|].
  rewrite Hr', Hr. unfold tree_lines. cbn [fst snd]. rewrite (lines_same _ _ _ _ Hsame). cbn. by rewrite unparse_pattern.
Qed.

(** The registrations [engine.addRoute(method, path, handlers)], in order. *)
Fixpoint engine_addRoutes (trees : methodTrees) (l : list (string * string * HandlersChain)) : go methodTrees :=
  match l with
  | [] => Val trees
  | (m, p, hs) :: l => trees ← engine_addRoute trees m p hs; engine_addRoutes trees l
  end.

Lemma engine_addRoutes_lines l trees trees' :
  Forall listable trees → Forall (λ r, registrable r.1.2 = true) l → engine_addRoutes trees l = Val trees' →
  Forall listable trees' ∧ concat (map tree_lines trees') ≡ₚ (line <$> l) ++ concat (map tree_lines trees).
Proof.
  intros Ht Hl. revert trees Ht. induction Hl as [|[[m p] hs] l Hp Hl IH]; intros trees Ht; [by intros [= ->]|].
  cbn [engine_addRoutes]. destruct (engine_addRoute trees m p hs) as [trees1|] eqn:Ha; [|done]. cbn [mbind go_bind].
  intros Hr. destruct (engine_addRoute_lines _ _ _ _ _ Ht Hp Ha) as [Ht1 Hp1].
  destruct (IH trees1 Ht1 Hr) as [Ht' Hp']. split; [done|]. rewrite Hp', Hp1. cbn. solve_Permutation.
Qed.

(** C11. The listing of the routes is the list of the registrations.  Whatever routes an
    engine has registered, over all methods and in any order: [Routes] returns each of
    them once, with its method, its path as it was registered (the tree holds it in
    pieces, on edges and wildcard nodes) and the name of its last handler. *)
Theorem routes_list_registrations l trees :
  Forall (λ r, registrable r.1.2 = true) l → engine_addRoutes [] l = Val trees → Routes trees ≡ₚ line <$> l.
Proof.
  intros Hl Ha. destruct (engine_addRoutes_lines l [] trees (Forall_nil_2 _) Hl Ha) as [Ht Hp].
  rewrite Routes_lines by done. by rewrite Hp, app_nil_r.
Qed.

End listing.

(** ** Witnesses *)

Definition demo_name (h : hid) : string :=
  match h with
  | HLogger => "gin.Logger" | HRecovery => "gin.Recovery" | HBasicAuth => "gin.BasicAuth"
  | HStatic _ => "createStaticHandler" | HConsole _ => "main"
  end.

Definition demo_registrations : list (string * string * HandlersChain) :=
  [("GET", "/pods/:po/log", [HBasicAuth; HConsole 0]); ("GET", "/pods", [HConsole 1]); ("POST", "/pods/:po", [HConsole 2]);
   ("GET", "/pods/:po", [HConsole 3]); ("HEAD", "/js/*filepath", [HStatic "js"]); ("GET", "/js/*filepath", [HStatic "js"])].

Lemma routes_list_registrations_witness :
  match engine_addRoutes [] demo_registrations with
  | Val trees => Routes demo_name trees ≡ₚ line demo_name <$> demo_registrations
      ∧ (Path <$> Routes demo_name trees) = ["/pods"; "/pods/:po"; "/pods/:po/log"; "/js/*filepath"; "/pods/:po"; "/js/*filepath"]
  | Halt _ => False
  end.
Proof.
  destruct (engine_addRoutes [] demo_registrations) as [trees|] eqn:Ht; [|vm_compute in Ht; discriminate]. split.
  - apply routes_list_registrations; [repeat (constructor; [reflexivity|]); constructor|exact Ht].
  - vm_compute in Ht. injection Ht as <-. vm_compute. reflexivity.
Defined.

Lemma same_elements_perm {A} `{EqDecision A} (l k : list A) :
  NoDup l → NoDup k → Forall (λ x, x ∈ k) l → Forall (λ x, x ∈ l) k → l ≡ₚ k.
Proof. rewrite !Forall_forall. intros Hl Hk Hlk Hkl. apply NoDup_Permutation; [done..|]. naive_solver. Qed.

(** The listing of the console: the static directories, and every route of the table. *)
Lemma console_listing :
  (λ r, (Method r, Path r)) <$> Routes demo_name the_trees
  ≡ₚ (m ← ["GET"; "HEAD"]; d ← ["js"; "css"; "fonts"; "img"]; [(m, "/" +:+ d +:+ "/*filepath")])
     ++ ((λ r, (method_name r.1, r.2)) <$> route_table).
Proof.
  apply same_elements_perm; refine (bool_decide_unpack _ _); vm_compute; done.
Qed.
