(* ===== verification/Binding.v ===== *)
(** * Binding of form values to structs: gin's binding package

    [mapForm] fills the fields of a struct from the values of a form by reflection
    (form_mapping.go); the bindings differ in the form they take and all validate
    afterwards (form.go, binding.go).  A Go type is data here, as reflect has it; a
    struct is the list of the values of its fields.

    [strconv.ParseFloat] and the validator package are operations of an interface. *)

From stdpp Require Import prelude gmap strings.
From Stdlib Require Import ZArith NArith Ascii.
From S2P Require Import Prelude GoStrings.

(** ** package strconv, with a bit size *)

Local Open Scope N_scope.

(** The loop of [strconv.ParseUint(s, 10, bitSize)]. *)
Fixpoint parse_bits_loop (maxVal : N) (s : string) (n : N) : result num_error N :=
  match s with
  | EmptyString => Ok n
  | String c s =>
      match char_digit c with
      | None => Err ErrSyntax
      | Some d =>
          if cutoff <=? n then Err ErrRange
          else let n := n * 10 in
               let n1 := (n + d) mod two64 in
               if (n1 <? n) || (maxVal <? n1) then Err ErrRange else parse_bits_loop maxVal s n1
      end
  end.

(** [int] and [uint] have 64 bits. *)
Definition width (bitSize : N) : N := if bitSize =? 0 then 64 else bitSize.

Definition ParseUintBits (s : string) (bitSize : N) : result num_error N :=
  match s with
  | EmptyString => Err ErrSyntax
  | _ => parse_bits_loop (2 ^ width bitSize - 1) s 0
  end.

Definition ParseInt (s0 : string) (bitSize : N) : result num_error Z :=
  match s0 with
  | EmptyString => Err ErrSyntax
  | String c rest =>
      let neg := bool_decide (c = "-"%char) in
      let s := if bool_decide (c = "+"%char) || neg then rest else s0 in
      match ParseUintBits s bitSize with
      | Err e => Err e
      | Ok un =>
          let cut := 2 ^ (width bitSize - 1) in
          if negb neg && (cut <=? un) then Err ErrRange
          else if neg && (cut <? un) then Err ErrRange
          else Ok (if neg then - Z.of_N un else Z.of_N un)%Z
      end
  end.

Definition ParseBool (s : string) : result num_error bool :=
  if bool_decide (s ∈ ["1"; "t"; "T"; "true"; "TRUE"; "True"]) then Ok true
  else if bool_decide (s ∈ ["0"; "f"; "F"; "false"; "FALSE"; "False"]) then Ok false
  else Err ErrSyntax.

Local Close Scope N_scope.

(** ** Types and values *)

(** [reflect.Kind]; the bit size is the one setWithProperType passes on. *)
Inductive kind : Type :=
| KInt (bitSize : N)
| KUint (bitSize : N)
| KBool
| KFloat (bitSize : N)
| KString
| KSlice
| KStruct
| KOther.

#[export] Instance kind_eq_dec : EqDecision kind.
Proof. solve_decision. Defined.

(** [reflect.StructField], and whether the field can be set. *)
Record field : Type := mkField { Name : string; form_tag : string; CanSet : bool }.

Inductive type : Type :=
| TScalar (k : kind)
| TSlice (elem : type)
| TStruct (fields : list (field * type)).

Definition Kind (t : type) : kind :=
  match t with TScalar k => k | TSlice _ => KSlice | TStruct _ => KStruct end.

(** The value of a float64 is what ParseFloat makes. *)
Class FloatText : Type := {
  float : Type;
  float_zero : float;
  ParseFloat : string → N → result num_error float;
  FormatFloat : float → N → string;
  float_fits : N → float → Prop;
}.

(** What strconv documents: the shortest text of a float reads as that float, and what
    is read fits the bit size. *)
Class FloatTextLaws `{FloatText} : Prop := {
  ParseFloat_FormatFloat x b : float_fits b x → ParseFloat (FormatFloat x b) b = Ok x;
  FormatFloat_nonempty x b : FormatFloat x b ≠ "";
  ParseFloat_fits s b x : ParseFloat s b = Ok x → float_fits b x;
  float_zero_fits b : float_fits b float_zero;
}.

Section binding.
Context `{FloatText}.

(** A slice that is nil is the empty one; [VOpaque] is a value of another kind. *)
Inductive value : Type :=
| VInt (z : Z)
| VUint (n : N)
| VBool (b : bool)
| VFloat (x : float)
| VString (s : string)
| VSlice (l : list value)
| VStruct (l : list value)
| VOpaque.

Inductive bind_error : Type := NumError (val : string) (e : num_error) | UnknownType | Invalid (msg : string).

(** [reflect.Zero], for the elements MakeSlice makes. *)
Fixpoint zero (t : type) : value :=
  match t with
  | TScalar (KInt _) => VInt 0
  | TScalar (KUint _) => VUint 0
  | TScalar KBool => VBool false
  | TScalar (KFloat _) => VFloat float_zero
  | TScalar KString => VString ""
  | TScalar _ => VOpaque
  | TSlice _ => VSlice []
  | TStruct fields => VStruct (map (λ f, zero f.2) fields)
  end.

(** ** form_mapping.go

    A setter returns what the field holds afterwards, and its error. *)

Definition setter : Type := value * option bind_error.

Definition or_default (val default : string) : string := if bool_decide (val = "") then default else val.

Definition setIntField (val : string) (bitSize : N) (field : value) : setter :=
  let val := or_default val "0" in
  match ParseInt val bitSize with Ok intVal => (VInt intVal, None) | Err e => (field, Some (NumError val e)) end.

Definition setUintField (val : string) (bitSize : N) (field : value) : setter :=
  let val := or_default val "0" in
  match ParseUintBits val bitSize with Ok uintVal => (VUint uintVal, None) | Err e => (field, Some (NumError val e)) end.

(** The source returns nil also when the text is not a bool. *)
Definition setBoolField (val : string) (field : value) : setter :=
  let val := or_default val "false" in
  match ParseBool val with Ok boolVal => (VBool boolVal, None) | Err _ => (field, None) end.

Definition setFloatField (val : string) (bitSize : N) (field : value) : setter :=
  let val := or_default val "0.0" in
  match ParseFloat val bitSize with Ok floatVal => (VFloat floatVal, None) | Err e => (field, Some (NumError val e)) end.

Definition setWithProperType (valueKind : kind) (val : string) (structField : value) : setter :=
  match valueKind with
  | KInt bitSize => setIntField val bitSize structField
  | KUint bitSize => setUintField val bitSize structField
  | KBool => setBoolField val structField
  | KFloat bitSize => setFloatField val bitSize structField
  | KString => (VString val, None)
  | _ => (structField, Some UnknownType)
  end.

(** The loop that fills the slice; its elements, or the error it returns with. *)
Fixpoint fill_slice (sliceOf : type) (inputValue : list string) : list value * option bind_error :=
  match inputValue with
  | [] => ([], None)
  | val :: rest =>
      match setWithProperType (Kind sliceOf) val (zero sliceOf) with
      | (_, Some e) => ([], Some e)
      | (v, None) => let '(vs, e) := fill_slice sliceOf rest in (v :: vs, e)
      end
  end.

(** A field that is not a struct to descend into, with the values of its name. *)
Definition set_field (t : type) (structField : value) (inputValue : list string) : go setter :=
  match t, inputValue with
  | TSlice sliceOf, _ :: _ =>
      match fill_slice sliceOf inputValue with
      | (_, Some e) => Val (structField, Some e)
      | (slice, None) => Val (VSlice slice, None)
      end
  | _, _ =>
      val ← index inputValue 0;
      Val (setWithProperType (Kind t) val structField)
  end.

Definition inputFieldName (f : field) : string := or_default (form_tag f) (Name f).

(** Is the field a struct whose fields are taken from the same form? *)
Definition descends (f : field) (t : type) : bool :=
  bool_decide (form_tag f = "") && bool_decide (Kind t = KStruct).

(** The loop over the fields, given what the recursive call does to a struct. *)
Section fields.
Context (form : gmap string (list string)) (mapStruct : type → value → go setter).

Definition map_field (f : field) (t : type) (structField : value) : go setter :=
  if negb (CanSet f) then Val (structField, None)
  else if descends f t then mapStruct t structField
  else
    match form !! inputFieldName f with
    | None => Val (structField, None)
    | Some inputValue => set_field t structField inputValue
    end.

Fixpoint map_fields (fields : list (field * type)) (vals : list value) : go (list value * option bind_error) :=
  match fields, vals with
  | (f, t) :: fields, structField :: vals =>
      '(structField, e) ← map_field f t structField;
      match e with
      | Some e => Val (structField :: vals, Some e)
      | None => '(vals, e) ← map_fields fields vals; Val (structField :: vals, e)
      end
  | _, _ => Val (vals, None)
  end.

End fields.

Fixpoint mapForm (form : gmap string (list string)) (typ : type) (val : value) : go setter :=
  match typ, val with
  | TStruct fields, VStruct vals =>
      '(vals, e) ← map_fields form (mapForm form) fields vals;
      Val (VStruct vals, e)
  | _, _ => gopanic (Panicked "reflect: call of NumField on a value that is not a struct")
  end.

(** ** Parsing of integers *)

Lemma width_le b : (b <= 64)%N → (2 ^ width b - 1 < two64)%N ∧ (1 <= width b <= 64)%N.
Proof.
  intros Hb. assert (1 <= width b <= 64)%N as Hw by (unfold width; case_match eqn:E; [|apply N.eqb_neq in E]; lia).
  split; [|done]. pose proof (N.pow_le_mono_r 2 (width b) 64 ltac:(lia) ltac:(lia)). unfold two64.
  assert (2 ^ width b ≠ 0)%N by by apply N.pow_nonzero. lia.
Qed.

Lemma parse_bits_complete maxVal s n :
  (maxVal < two64)%N → sforallb is_digit s = true → (sval s n <= maxVal)%N → parse_bits_loop maxVal s n = Ok (sval s n).
Proof.
  intros Hm. revert n. induction s as [|c s IH]; intros n; [done|].
  simpl sforallb. rewrite andb_true_iff, is_digit_spec. intros [[d Hd] Hs] Hv.
  simpl in *. rewrite Hd in *. simpl in *. pose proof (sval_ge s (n * 10 + d)).
  assert (Hc : (n < cutoff)%N) by (rewrite cutoff_val; rewrite two64_val in *; lia).
  rewrite (proj2 (N.leb_gt _ _)) by done. rewrite N.mod_small by lia.
  rewrite (proj2 (N.ltb_ge _ _)) by lia. rewrite (proj2 (N.ltb_ge _ _)) by lia. by apply IH.
Qed.

Lemma parse_bits_bound maxVal s n m : (n <= maxVal)%N → parse_bits_loop maxVal s n = Ok m → (m <= maxVal)%N.
Proof.
  revert n. induction s as [|c s IH]; intros n Hn Hp; simpl in *; [by simplify_eq|].
  destruct (char_digit c) as [d|]; [|done]. destruct (cutoff <=? n)%N; [done|].
  destruct ((_ <? n * 10)%N || _) eqn:E; [done|]. apply orb_false_iff in E as [_ E%N.ltb_ge]. by apply (IH _ E).
Qed.

Lemma ParseUintBits_FormatUint n b : (b <= 64)%N → (n < 2 ^ width b)%N → ParseUintBits (FormatUint n) b = Ok n.
Proof.
  intros Hb Hn. destruct (width_le b Hb) as [Hm _]. destruct (FormatUint_canonical n) as [(Hne & Hd & _) Hv].
  unfold ParseUintBits. destruct (FormatUint n) as [|c s] eqn:E; [done|]. rewrite parse_bits_complete; [by rewrite Hv|done..|].
  rewrite Hv. lia.
Qed.

Lemma ParseUintBits_bound s b n : ParseUintBits s b = Ok n → (n < 2 ^ width b)%N.
Proof.
  unfold ParseUintBits. destruct s; [done|]. intros Hp%parse_bits_bound; [|apply N.le_0_l].
  assert (2 ^ width b ≠ 0)%N by by apply N.pow_nonzero. lia.
Qed.

(** The integers of a signed type. *)
Definition int_range (b : N) (z : Z) : Prop := (- 2 ^ (Z.of_N (width b) - 1) <= z < 2 ^ (Z.of_N (width b) - 1))%Z.

Lemma half_width b : (b <= 64)%N → Z.of_N (2 ^ (width b - 1)) = (2 ^ (Z.of_N (width b) - 1))%Z.
Proof. intros Hb. destruct (width_le b Hb) as [_ ?]. rewrite N2Z.inj_pow. f_equal. lia. Qed.

Lemma ParseInt_FormatInt z b : (b <= 64)%N → int_range b z → ParseInt (FormatInt z) b = Ok z.
Proof.
  intros Hb Hz. unfold int_range in Hz. pose proof (half_width b Hb) as Hh. destruct (width_le b Hb) as [_ Hw].
  assert (2 * 2 ^ (width b - 1) = 2 ^ width b)%N as H2 by (rewrite <- N.pow_succ_r'; f_equal; lia).
  assert (∀ n, (n <= 2 ^ (width b - 1))%N → (n < 2 ^ width b)%N) as Hle.
  { assert (2 ^ (width b - 1) ≠ 0)%N by by apply N.pow_nonzero. lia. }
  assert (∀ n c rest, FormatUint n = String c rest → c ≠ "+"%char ∧ c ≠ "-"%char) as Hsign.
  { intros n c rest Hn. destruct (FormatUint_canonical n) as [(_ & Hd & _) _]. rewrite Hn in Hd. simpl in Hd.
    apply andb_true_iff in Hd as [Hd _]. by split; intros ->. }
  assert (∀ n, (n < 2 ^ (width b - 1))%N → ParseInt (FormatUint n) b = Ok (Z.of_N n)) as Hpos.
  { intros n Hn. unfold ParseInt. destruct (FormatUint n) as [|c rest] eqn:E.
    { destruct (FormatUint_canonical n) as [(Hne & _) _]. done. }
    destruct (Hsign _ _ _ E) as [H1 H3]. rewrite !bool_decide_eq_false_2 by done. simpl orb. cbn iota.
    rewrite <- E, ParseUintBits_FormatUint by (done || apply Hle; lia). simpl. by rewrite (proj2 (N.leb_gt _ _)) by done. }
  destruct z as [|p|p]; [apply (Hpos 0%N)|apply (Hpos (Npos p))|]; try lia.
  simpl. rewrite ParseUintBits_FormatUint by (done || apply Hle; lia).
  rewrite (proj2 (N.ltb_ge _ _)) by lia. done.
Qed.

Lemma ParseInt_bound s b z : (b <= 64)%N → ParseInt s b = Ok z → int_range b z.
Proof.
  intros Hb. unfold ParseInt, int_range. destruct s as [|c s]; [done|].
  destruct (ParseUintBits _ b) as [un|]; [|done]. pose proof (half_width b Hb) as Hh.
  assert (2 ^ (width b - 1) ≠ 0)%N by by apply N.pow_nonzero. destruct (bool_decide (c = "-"%char)); simpl.
  - case_match eqn:E; [done|]. apply N.ltb_ge in E. intros [= <-]. lia.
  - case_match eqn:E; [done|]. apply N.leb_gt in E. intros [= <-]. lia.
Qed.

(** ** Types, and values of a type *)

Lemma type_ind' (P : type → Prop) :
  (∀ k, P (TScalar k)) → (∀ e, P e → P (TSlice e)) → (∀ fs, Forall (λ f, P f.2) fs → P (TStruct fs)) → ∀ t, P t.
Proof.
  intros Hk Hs Hf. fix IH 1. intros [k|e|fs]; [apply Hk|apply Hs, IH|]. apply Hf.
  induction fs as [|[f t] fs IHfs]; constructor; [apply IH|done].
Qed.

Section all2.
Context {A B : Type} (P : A → B → Prop).

Fixpoint all2 (l : list A) (k : list B) : Prop :=
  match l, k with
  | [], [] => True
  | a :: l, b :: k => P a b ∧ all2 l k
  | _, _ => False
  end.
End all2.

(** A type reflect can show: machine widths, and the kinds of slices and structs only on
    such types. *)
Fixpoint reflect_type (t : type) : Prop :=
  match t with
  | TScalar (KInt b) | TScalar (KUint b) => (b <= 64)%N
  | TScalar KSlice | TScalar KStruct => False
  | TScalar _ => True
  | TSlice e => reflect_type e
  | TStruct fs => foldr (λ f acc, reflect_type f.2 ∧ acc) True fs
  end.

Fixpoint well_typed (t : type) (v : value) : Prop :=
  match t, v with
  | TScalar (KInt b), VInt z => int_range b z
  | TScalar (KUint b), VUint n => (n < 2 ^ width b)%N
  | TScalar KBool, VBool _ | TScalar KString, VString _ => True
  | TScalar (KFloat b), VFloat x => float_fits b x
  | TScalar KOther, VOpaque => True
  | TSlice e, VSlice l => foldr (λ v acc, well_typed e v ∧ acc) True l
  | TStruct fs, VStruct vs => all2 (λ f v, well_typed f.2 v) fs vs
  | _, _ => False
  end.

(** What a form says about a struct, without the setters.  A text of a kind is read by the
    function of strconv for it; the empty text stands for zero. *)
Definition empty_text (k : kind) : string :=
  match k with KInt _ | KUint _ => "0" | KBool => "false" | KFloat _ => "0.0" | _ => "" end.

Definition read {A} (f : A → value) (val : string) (r : result num_error A) : result bind_error value :=
  match r with Ok a => Ok (f a) | Err e => Err (NumError val e) end.

Definition parse_text (k : kind) (val : string) : result bind_error value :=
  let val := if bool_decide (val = "") then empty_text k else val in
  match k with
  | KInt bitSize => read VInt val (ParseInt val bitSize)
  | KUint bitSize => read VUint val (ParseUintBits val bitSize)
  | KBool => read VBool val (ParseBool val)
  | KFloat bitSize => read VFloat val (ParseFloat val bitSize)
  | KString => Ok (VString val)
  | _ => Err UnknownType
  end.

(** The texts of a form that do not parse, of bools too, in the order of the fields, each with its
    kind. *)
Definition text_problems (k : kind) (vals : list string) : list (kind * bind_error) :=
  omap (λ val, match parse_text k val with Ok _ => None | Err e => Some (k, e) end) vals.

Definition field_problems (t : type) (inputValue : list string) : list (kind * bind_error) :=
  match t with
  | TSlice e => text_problems (Kind e) inputValue
  | _ => text_problems (Kind t) (take 1 inputValue)
  end.

Fixpoint problems (form : gmap string (list string)) (typ : type) : list (kind * bind_error) :=
  match typ with
  | TStruct fields =>
      concat (map (λ f,
        if negb (CanSet f.1) then []
        else if descends f.1 f.2 then problems form f.2
        else match form !! inputFieldName f.1 with Some inputValue => field_problems f.2 inputValue | None => [] end) fields)
  | _ => []
  end.

(** The first of them that is not a bool's. *)
Definition reported (ps : list (kind * bind_error)) : option bind_error := snd <$> head (filter (λ p, p.1 ≠ KBool) ps).

(** The struct a form stands for: the fields that can be set and that the form names hold what their texts
    read as, the others what they held. *)
Definition read_text (k : kind) (v : value) (val : string) : value :=
  match parse_text k val with Ok v' => v' | Err _ => v end.

Definition read_field (t : type) (inputValue : list string) (v : value) : value :=
  match t with
  | TSlice e => VSlice (map (read_text (Kind e) (zero e)) inputValue)
  | _ => match inputValue with val :: _ => read_text (Kind t) v val | [] => v end
  end.

Section assigned.
Context (form : gmap string (list string)) (assigned : type → value → value).

Definition assigned_field (f : field) (t : type) (v : value) : value :=
  if negb (CanSet f) then v
  else if descends f t then assigned t v
  else match form !! inputFieldName f with Some inputValue => read_field t inputValue v | None => v end.

Fixpoint assigned_fields (fields : list (field * type)) (vals : list value) : list value :=
  match fields, vals with
  | (f, t) :: fields, v :: vals => assigned_field f t v :: assigned_fields fields vals
  | _, _ => vals
  end.
End assigned.

Fixpoint assigned (form : gmap string (list string)) (typ : type) (v : value) : value :=
  match typ, v with
  | TStruct fields, VStruct vals => VStruct (assigned_fields form (assigned form) fields vals)
  | _, _ => v
  end.

Context `{!FloatTextLaws}.

(** A setter stores what the text reads as, or reports that it does not parse, unless it is a bool's. *)
Lemma setWithProperType_reads k val v :
  setWithProperType k val v = (read_text k v val, reported (text_problems k [val])).
Proof.
  unfold read_text, text_problems, parse_text, reported.
  destruct k; try done; simpl; unfold setIntField, setUintField, setBoolField, setFloatField, or_default, read;
    case_bool_decide; subst; simpl; try case_match; done.
Qed.

Lemma reported_app ps qs : reported (ps ++ qs) = match reported ps with Some e => Some e | None => reported qs end.
Proof. unfold reported. rewrite filter_app. by destruct (filter _ ps). Qed.

Lemma text_problems_cons k val vals : text_problems k (val :: vals) = text_problems k [val] ++ text_problems k vals.
Proof. unfold text_problems. simpl. by case_match. Qed.

Lemma zero_typed t : reflect_type t → well_typed t (zero t).
Proof.
  induction t as [k|e IH|fs IH] using type_ind'.
  - destruct k as [b|b| |b| | | |]; simpl; try done; intros Hb.
    + unfold int_range. destruct (width_le b Hb) as [_ ?]. pose proof (Z.pow_pos_nonneg 2 (Z.of_N (width b) - 1) ltac:(lia) ltac:(lia)). lia.
    + assert (2 ^ width b ≠ 0)%N by by apply N.pow_nonzero. lia.
    + apply float_zero_fits.
  - done.
  - induction IH as [|f fs Hf _ IHfs]; simpl; [done|]. intros [Ht Hts]. split; [by apply Hf|by apply IHfs].
Qed.

(** What a setter leaves is of the type. *)
Lemma setWithProperType_typed t val v v' e :
  reflect_type t → well_typed t v → setWithProperType (Kind t) val v = (v', e) → well_typed t v'.
Proof.
  intros Ht Hv. destruct t as [[b|b| |b| | | |]|t|fs]; simpl; try by intros [= <- _].
  - unfold setIntField. destruct (ParseInt _ b) eqn:E; intros [= <- _]; [|done]. by eapply ParseInt_bound.
  - unfold setUintField. destruct (ParseUintBits _ b) eqn:E; intros [= <- _]; [|done]. by eapply ParseUintBits_bound.
  - unfold setBoolField. case_match; by intros [= <- _].
  - unfold setFloatField. destruct (ParseFloat _ b) eqn:E; intros [= <- _]; [|done]. by eapply ParseFloat_fits.
Qed.

Lemma fill_slice_spec t l :
  reflect_type t →
  ∃ vs, fill_slice t l = (vs, reported (text_problems (Kind t) l))
    ∧ foldr (λ v acc, well_typed t v ∧ acc) True vs
    ∧ (reported (text_problems (Kind t) l) = None → vs = map (read_text (Kind t) (zero t)) l).
Proof.
  intros Ht. induction l as [|x l (vs & IH & Hvs & Hread)]; [by exists []|]. cbn [fill_slice].
  rewrite (text_problems_cons _ x l), reported_app.
  pose proof (setWithProperType_reads (Kind t) x (zero t)) as He. rewrite He.
  apply setWithProperType_typed in He; [|done|by apply zero_typed].
  destruct (reported (text_problems (Kind t) [x])); [by exists []|]. rewrite IH. eexists (_ :: vs). split; [done|].
  split; [done|]. intros Hn. cbn [map]. by rewrite Hread.
Qed.

Lemma set_field_spec t v inputValue :
  reflect_type t → well_typed t v → inputValue ≠ [] →
  ∃ v', set_field t v inputValue = Val (v', reported (field_problems t inputValue)) ∧ well_typed t v'
    ∧ (reported (field_problems t inputValue) = None → v' = read_field t inputValue v).
Proof.
  intros Ht Hv Hne. destruct inputValue as [|x l]; [done|].
  pose proof (setWithProperType_reads (Kind t) x v) as He.
  pose proof (setWithProperType_typed _ _ _ _ _ Ht Hv He) as Hty. destruct t as [k|e|fs].
  - exists (read_text k v x). split_and!; [|done..]. transitivity (Val (setWithProperType (Kind (TScalar k)) x v)); [done|by rewrite He].
  - destruct (fill_slice_spec e (x :: l) Ht) as (vs & Hfill & Hvs & Hread). cbn [set_field field_problems read_field].
    clear He Hty. rewrite Hfill. destruct (reported _); [by exists v|exists (VSlice vs)]. split_and!; [done..|]. intros _. by rewrite Hread.
  - exists v. by split_and!.
Qed.

(** A form binds to a struct of a type: what is left is of the type, and everything the form says is in it
    when nothing is reported. *)
Definition binds {A} (m : go (A * option bind_error)) (typed : A → Prop) (all : A) (ps : list (kind * bind_error)) : Prop :=
  ∃ v', m = Val (v', reported ps) ∧ typed v' ∧ (reported ps = None → v' = all).

Lemma map_fields_binds form fs vs :
  (∀ key, form !! key ≠ Some []) → reflect_type (TStruct fs) → well_typed (TStruct fs) (VStruct vs) →
  Forall (λ f, ∀ v, Kind f.2 = KStruct → reflect_type f.2 → well_typed f.2 v →
    binds (mapForm form f.2 v) (well_typed f.2) (assigned form f.2 v) (problems form f.2)) fs →
  binds (map_fields form (mapForm form) fs vs) (all2 (λ f v, well_typed f.2 v) fs)
    (assigned_fields form (assigned form) fs vs) (problems form (TStruct fs)).
Proof.
  intros Hform Ht Hv IH. cbn [problems]. revert vs Ht Hv.
  induction IH as [|[f t] fs Hf _ IHfs]; intros [|v vs] Ht Hv; try done; [by exists []|].
  simpl in Hv, Ht. destruct Hv as [Hv Hvs], Ht as [Ht Hts]. cbn [map_fields map concat fst snd assigned_fields].
  set (pf := if negb (CanSet f) then [] else _).
  assert (binds (map_field form (mapForm form) f t v) (well_typed t) (assigned_field form (assigned form) f t v) pf)
    as (v' & Hmf & Hv' & Hall).
  { unfold map_field, assigned_field, pf. destruct (negb (CanSet f)); [by exists v|]. destruct (descends f t) eqn:Hd.
    - apply Hf; [|done..]. by apply andb_true_iff in Hd as [_ ?%bool_decide_eq_true].
    - destruct (form !! inputFieldName f) as [l|] eqn:Hl; [|by exists v]. apply set_field_spec; [done..|].
      intros ->. by apply (Hform (inputFieldName f)). }
  unfold binds. rewrite Hmf, reported_app. cbn [mbind go_bind]. destruct (reported pf) as [e|]; [by exists (v' :: vs)|].
  destruct (IHfs vs Hts Hvs) as (vs' & Heq & Hvs' & Halls). rewrite Heq. exists (v' :: vs'). split_and!; [done..|].
  intros Hn. by rewrite Hall, Halls.
Qed.

(** C37. Binding a form to a struct never panics, keeps every field in the range of its
    type, and reports the first text that does not parse, those of bools apart.  For every struct
    type and every value of it, and a form without empty lists of values (as parsing
    makes them): of the texts that do not parse or whose kind is not supported, in
    the order of the declaration ([problems], which reads the texts itself), [mapForm] returns
    the error of the first that is not a bool's, and no error when there is none.  Then
    every field holds what its text reads as; a bool whose text does not parse keeps what it
    had, unreported ([bad_bool_is_ignored]).  And the struct left, also when binding fails
    halfway, is a value of the type, with every integer in the range of its width. *)
Theorem mapForm_reports_first_problem form t v :
  (∀ key, form !! key ≠ Some []) → Kind t = KStruct → reflect_type t → well_typed t v →
  ∃ v', mapForm form t v = Val (v', snd <$> head (filter (λ p, p.1 ≠ KBool) (problems form t)))
    ∧ well_typed t v'
    ∧ (Forall (λ p, p.1 = KBool) (problems form t) → v' = assigned form t v).
Proof.
  intros Hform Hk Ht Hv. enough (binds (mapForm form t v) (well_typed t) (assigned form t v) (problems form t)) as (v' & Hm & Hv' & Hall).
  { exists v'. split_and!; [done..|]. intros Hb. apply Hall. unfold reported.
    enough (filter (λ p : kind * bind_error, p.1 ≠ KBool) (problems form t) = []) as -> by done.
    clear -Hb. induction Hb as [|p ps Hp _ IH]; [done|]. rewrite filter_cons_False by auto. done. }
  revert v Hk Ht Hv. induction t as [k|e _|fs IH] using type_ind'; intros v Hk Ht Hv;
    [by simpl in Hk; subst k|done|]. clear Hk. destruct v as [| | | | | |vs|]; try done.
  destruct (map_fields_binds form fs vs Hform Ht Hv IH) as (vs' & Hm & Hvs & Hall). exists (VStruct vs').
  cbn [mapForm assigned]. rewrite Hm. split_and!; [done..|]. intros Hn. by rewrite Hall.
Qed.

(** ** Forms made of structs *)

(** The text of a value of a kind. *)
Definition text (k : kind) (v : value) : string :=
  match k, v with
  | KInt _, VInt z => FormatInt z
  | KUint _, VUint n => FormatUint n
  | KBool, VBool b => FormatBool b
  | KFloat b, VFloat x => FormatFloat x b
  | KString, VString s => s
  | _, _ => ""
  end.

Definition texts (t : type) (v : value) : list string :=
  match t, v with
  | TSlice e, VSlice l => text (Kind e) <$> l
  | _, _ => [text (Kind t) v]
  end.

Section flatten.
Context (flatten : type → value → list (string * list string)).

Fixpoint flatten_fields (fields : list (field * type)) (vals : list value) : list (string * list string) :=
  match fields, vals with
  | (f, t) :: fields, v :: vals =>
      (if descends f t then flatten t v else [(inputFieldName f, texts t v)]) ++ flatten_fields fields vals
  | _, _ => []
  end.
End flatten.

(** The entries of the form that stands for a struct. *)
Fixpoint form_list (t : type) (v : value) : list (string * list string) :=
  match t, v with
  | TStruct fields, VStruct vals => flatten_fields form_list fields vals
  | _, _ => []
  end.

Definition basic (k : kind) : bool := match k with KInt _ | KUint _ | KBool | KFloat _ | KString => true | _ => false end.

(** A value a form can hold: fields that can be set, of basic kinds, non-empty slices of
    such, or structs without a tag. *)
Fixpoint formable (t : type) (v : value) : Prop :=
  match t, v with
  | TScalar k, _ => basic k = true
  | TSlice e, VSlice l => basic (Kind e) = true ∧ l ≠ []
  | TStruct fs, VStruct vs =>
      all2 (λ f v, CanSet f.1 = true ∧ (Kind f.2 = KStruct → form_tag f.1 = "") ∧ formable f.2 v) fs vs
  | _, _ => False
  end.

Lemma basic_scalar t : basic (Kind t) = true → ∃ k, t = TScalar k ∧ basic k = true.
Proof. destruct t as [k| |]; simpl; [eauto|done..]. Qed.

(** Reading the text of a value gives the value. *)
Lemma set_text k v v0 :
  basic k = true → reflect_type (TScalar k) → well_typed (TScalar k) v →
  setWithProperType k (text k v) v0 = (v, None).
Proof.
  assert (∀ n s, FormatUint n = s → s ≠ "") as Hu by (intros n s <-; destruct (FormatUint_canonical n) as [(? & _) _]; done).
  intros Hb Ht Hv. destruct k as [b|b| |b| | | |]; try done; destruct v; try done; simpl in *.
  - unfold setIntField, or_default. rewrite bool_decide_eq_false_2; [by rewrite ParseInt_FormatInt|].
    destruct z; simpl; [|by eapply Hu|done]. by apply (Hu 0%N).
  - unfold setUintField, or_default. rewrite bool_decide_eq_false_2 by (by eapply Hu). by rewrite ParseUintBits_FormatUint.
  - by destruct b.
  - unfold setFloatField, or_default. rewrite bool_decide_eq_false_2 by apply FormatFloat_nonempty.
    by rewrite ParseFloat_FormatFloat.
Qed.

Lemma set_texts t v v0 :
  reflect_type t → well_typed t v → formable t v → Kind t ≠ KStruct → set_field t v0 (texts t v) = Val (v, None).
Proof.
  intros Ht Hv Hf Hk. destruct t as [k|e|fs]; [| |done].
  - unfold set_field, texts. simpl. by rewrite set_text.
  - destruct v as [| | | | |l| |]; try done. destruct Hf as [Hb Hne].
    assert (fill_slice e (text (Kind e) <$> l) = (l, None)) as Hfill.
    { clear Hne. simpl in Hv, Ht. destruct (basic_scalar e Hb) as (k & -> & Hk'). induction l as [|v l IH]; [done|].
      destruct Hv as [Hv Hvs]. cbn [fmap list_fmap fill_slice]. cbn [Kind] in *.
      rewrite set_text by done. by rewrite IH. }
    destruct l as [|v l]; [done|]. unfold set_field, texts. cbn [fmap list_fmap]. cbn [fmap list_fmap] in Hfill. by rewrite Hfill.
Qed.

(** C36. Binding undoes encoding.  A struct, nested structs included, whose values a form
    can hold is what binding the form of its entries makes of any struct of the type,
    where no two fields have the same name. *)
Theorem mapForm_decodes_forms t v v0 :
  Kind t = KStruct → reflect_type t → well_typed t v → well_typed t v0 → formable t v →
  NoDup (form_list t v).*1 →
  mapForm (list_to_map (form_list t v)) t v0 = Val (v, None).
Proof.
  intros Hk Ht Hv Hv0 Hf Hnd.
  assert (∀ x, x ∈ form_list t v → (list_to_map (form_list t v) : gmap string (list string)) !! x.1 = Some x.2) as Hform.
  { intros [k l] Hx. by apply elem_of_list_to_map_1. }
  clear Hnd. revert Hform. generalize (list_to_map (form_list t v) : gmap string (list string)). intros form.
  revert v v0 Hk Ht Hv Hv0 Hf. induction t as [k|e _|fs IH] using type_ind'; intros v v0 Hk Ht Hv Hv0 Hf Hform;
    [by simpl in Hk; subst k|done|]. clear Hk.
  destruct v as [| | | | | |vs|]; try done. destruct v0 as [| | | | | |vs0|]; try done. cbn [mapForm].
  enough (map_fields form (mapForm form) fs vs0 = Val (vs, None)) as -> by done.
  cbn [form_list] in Hform. simpl in Hf.
  revert vs vs0 Hv Hv0 Hf Hform. induction IH as [|[f t] fs IHf _ IHfs]; intros [|v vs] [|v0 vs0] Hv Hv0 Hf Hform; try done.
  simpl in Hv, Hv0, Hf, Ht. destruct Hv as [Hv Hvs], Hv0 as [Hv0 Hvs0], Ht as [Ht Hts], Hf as [(Hset & Htag & Hft) Hfs].
  cbn [flatten_fields] in Hform. cbn [map_fields]. setoid_rewrite elem_of_app in Hform.
  assert (map_field form (mapForm form) f t v0 = Val (v, None)) as Hmf.
  { unfold map_field. rewrite Hset. cbn [negb]. destruct (descends f t) eqn:Hd.
    - apply IHf; try done; [by apply andb_true_iff in Hd as [_ ?%bool_decide_eq_true]|]. intros x Hx. apply Hform. by left.
    - assert (form !! inputFieldName f = Some (texts t v)) as ->.
      { apply (Hform (inputFieldName f, texts t v)). left. by apply list_elem_of_singleton. }
      apply set_texts; try done. intros Hk. unfold descends in Hd. by rewrite (Htag Hk), Hk in Hd. }
  rewrite Hmf. cbn [mbind go_bind]. rewrite (IHfs Hts vs vs0); [done..|]. intros x Hx. apply Hform. by right.
Qed.

(** The text of a bool that is none is ignored: the field keeps what it had, and no
    error is reported. *)
Lemma bad_bool_is_ignored val v : ParseBool (or_default val "false") = Err ErrSyntax → setBoolField val v = (v, None).
Proof. unfold setBoolField. by intros ->. Qed.

End binding.

(** ** Witnesses *)

(** Floats that are whole numbers of 64 bits. *)
#[local] Instance demo_FloatText : FloatText := {|
  float := Z; float_zero := 0%Z;
  ParseFloat := λ s _, ParseInt s 64;
  FormatFloat := λ x _, FormatInt x;
  float_fits := λ _ x, int_range 64 x;
|}.

#[local] Instance demo_FloatTextLaws : FloatTextLaws.
Proof.
  split; simpl.
  - intros x b Hx. by apply ParseInt_FormatInt.
  - intros x _. destruct x as [|p|p]; simpl; [|destruct (FormatUint_canonical (Npos p)) as [(Hne & _) _]; done|done].
    by destruct (FormatUint_canonical 0) as [(Hne & _) _].
  - intros s b x Hp. by eapply ParseInt_bound.
  - intros _. by vm_compute.
Qed.

(** A form of a pod's resources: a struct in a struct, a slice, and machine integers. *)
Definition demo_type : type :=
  TStruct [(mkField "Name" "" true, TScalar KString);
           (mkField "Port" "port" true, TScalar (KUint 16));
           (mkField "Labels" "label" true, TSlice (TScalar KString));
           (mkField "Limits" "" true, TStruct [(mkField "Cpu" "cpu" true, TScalar (KInt 0));
                                               (mkField "Share" "share" true, TScalar (KInt 8))]);
           (mkField "Privileged" "" true, TScalar KBool)].

Definition demo_value : value :=
  VStruct [VString "web"; VUint 8080; VSlice [VString "a"; VString ""]; VStruct [VInt 500; VInt (-128)]; VBool true].

Lemma demo_typed : reflect_type demo_type ∧ well_typed demo_type demo_value ∧ well_typed demo_type (zero demo_type)
  ∧ formable demo_type demo_value.
Proof.
  split; [|split; [|split]]; cbn; unfold int_range; cbn; repeat split; done.
Qed.

Lemma mapForm_decodes_forms_witness :
  form_list demo_type demo_value
  = [("Name", ["web"]); ("port", ["8080"]); ("label", ["a"; ""]); ("cpu", ["500"]); ("share", ["-128"]); ("Privileged", ["true"])]
  ∧ mapForm (list_to_map (form_list demo_type demo_value)) demo_type (zero demo_type) = Val (demo_value, None).
Proof.
  destruct demo_typed as (Ht & Hv & Hz & Hf). split; [vm_compute; reflexivity|].
  apply mapForm_decodes_forms; [reflexivity|exact Ht|exact Hv|exact Hz|exact Hf|].
  refine (bool_decide_unpack _ _). vm_compute. done.
Defined.

(** 70000 is no uint16 and 200 no int8; the name before them is set.  [maybe] is no bool,
    which is not reported. *)
Definition demo_form : gmap string (list string) :=
  {["Name" := ["api"]; "port" := ["70000"]; "share" := ["200"]; "Privileged" := ["maybe"]]}.

Definition demo_form_bool : gmap string (list string) := {["Name" := ["api"]; "port" := [""]; "Privileged" := ["maybe"]]}.

Lemma mapForm_reports_first_problem_witness :
  problems demo_form demo_type
  = [(KUint 16, NumError "70000" ErrRange); (KInt 8, NumError "200" ErrRange); (KBool, NumError "maybe" ErrSyntax)]
  ∧ problems demo_form_bool demo_type = [(KBool, NumError "maybe" ErrSyntax)]
  ∧ (∃ v', mapForm demo_form demo_type demo_value
         = Val (v', snd <$> head (filter (λ p, p.1 ≠ KBool) (problems demo_form demo_type)))
      ∧ well_typed demo_type v'
      ∧ (Forall (λ p, p.1 = KBool) (problems demo_form demo_type) → v' = assigned demo_form demo_type demo_value))
  ∧ ∃ v', mapForm demo_form_bool demo_type demo_value
         = Val (v', snd <$> head (filter (λ p, p.1 ≠ KBool) (problems demo_form_bool demo_type)))
      ∧ well_typed demo_type v'
      ∧ (Forall (λ p, p.1 = KBool) (problems demo_form_bool demo_type) → v' = assigned demo_form_bool demo_type demo_value).
Proof.
  destruct demo_typed as (Ht & Hv & _ & _). do 2 (split; [vm_compute; reflexivity|]).
  split; (apply mapForm_reports_first_problem; [|reflexivity|exact Ht|exact Hv]; intros key Hk;
    apply elem_of_map_to_list in Hk; vm_compute in Hk; repeat (apply elem_of_cons in Hk as [Hk|Hk]; [discriminate Hk|]);
    by apply not_elem_of_nil in Hk).
Defined.

(** A text that is no bool is not reported, and the field keeps what it had. *)
Example bad_bool :
  mapForm {["Privileged" := ["maybe"]]} demo_type demo_value = Val (demo_value, None).
Proof. reflexivity. Qed.
