(* ===== verification/Safety.v ===== *)
(** * No request stops the server

    A panic in a handler is answered with a 500 by the recovery middleware; the
    process ends only where [kubeclient.Get] finds no client and logs a fatal error.
    Once a client is set it stays set: the only assignment, in [kubeclient.Init],
    stores a client.  Hence every request to every route is answered. *)

From stdpp Require Import prelude gmap strings.
From Stdlib Require Import ZArith NArith Ascii.
From S2P Require Import Prelude GoStrings GoSort Float64 Api Page Versions KubeUtil Client Render PodActions Http Handlers Demo Routes.

(** ** Computations that may panic but not end the process *)

Definition no_fatal {A} (m : go A) : Prop := ∀ msg, m ≠ Halt (HFatal msg).

Lemma no_fatal_bind {A B} (m : go A) (f : A → go B) :
  no_fatal m → (∀ a, no_fatal (f a)) → no_fatal (m ≫= f).
Proof. intros Hm Hf. destruct m as [a|h]; [apply Hf|]. intros msg [= ->]. by destruct (Hm msg). Qed.

Lemma no_fatal_Val {A} (a : A) : no_fatal (Val a).
Proof. by intros msg. Qed.

Lemma no_fatal_deref {A} (p : option A) : no_fatal (deref p).
Proof. by destruct p. Qed.

Lemma no_fatal_index {A} (l : list A) i : no_fatal (index l i).
Proof. unfold index. by destruct (l !! i). Qed.

Lemma no_fatal_set_index {A} (l : list A) i x : no_fatal (set_index l i x).
Proof. unfold set_index. by destruct (l !! i). Qed.

Lemma no_fatal_gm_set {V} (m : gomap V) k v : no_fatal (gm_set m k v).
Proof. by destruct m. Qed.

Lemma no_fatal_MustGet c key : no_fatal (MustGet c key).
Proof. unfold MustGet. by destruct (Keys c !! key). Qed.

#[export] Hint Resolve no_fatal_Val no_fatal_deref no_fatal_index no_fatal_set_index no_fatal_gm_set no_fatal_MustGet : kubecon.

Ltac go_step :=
  lazymatch goal with
  | |- ∀ _, _ => intros ?
  | |- no_fatal (mbind _ _) => apply no_fatal_bind
  | |- no_fatal (match ?x with _ => _ end) => destruct x
  | |- no_fatal _ => solve [eauto with kubecon]
  end.

Section edits.
Context `{K : KubeApi, GSL : GoSortLaws, MR : MapRange}.

Lemma no_fatal_set_images images pod : no_fatal (set_images images pod).
Proof.
  unfold set_images. apply no_fatal_bind; [|eauto with kubecon]. generalize 0 (api.Containers (api.Pod_Spec pod)).
  induction images as [|image images IH]; intros i cs; cbn [set_images_loop]; repeat first [apply IH|go_step].
Qed.

Lemma no_fatal_stop_containers checks pod : no_fatal (stop_containers checks pod).
Proof.
  unfold stop_containers. apply no_fatal_bind; [|intros []; eauto with kubecon].
  generalize 0 (api.Containers (api.Pod_Spec pod)) (api.Annotations (api.Pod_ObjectMeta pod)).
  induction checks as [|b checks IH]; intros i cs ann; cbn [stop_loop]; repeat first [apply IH|go_step].
Qed.

Lemma no_fatal_start_containers checks pod : no_fatal (start_containers checks pod).
Proof.
  unfold start_containers. apply no_fatal_bind; [|intros []; eauto with kubecon].
  generalize 0 (api.Containers (api.Pod_Spec pod)) (api.Annotations (api.Pod_ObjectMeta pod)).
  induction checks as [|b checks IH]; intros i cs ann; cbn [start_loop]; repeat first [apply IH|go_step].
Qed.

Lemma no_fatal_export_to podname pod rc : no_fatal (export_to podname pod rc).
Proof. unfold export_to. repeat go_step. Qed.

Lemma no_fatal_tie_to_name rc : no_fatal (tie_to_name rc).
Proof. unfold tie_to_name. repeat go_step. Qed.

Lemma no_fatal_select_tags action tag tags : no_fatal (select_tags action tag tags).
Proof. destruct (select_tags_Val action tag tags) as (l & -> & _). apply no_fatal_Val. Qed.

End edits.

#[export] Hint Resolve no_fatal_set_images no_fatal_stop_containers no_fatal_start_containers
  no_fatal_export_to no_fatal_tie_to_name no_fatal_select_tags : kubecon.

(** ** Programs that survive *)

(** An answer compatible with a client having been set. *)
Definition client_set `{K : KubeApi} (c : cmd) : resp c → Prop :=
  match c with GetKubeClient => λ r, r ≠ None | _ => λ _, True end.

(** As long as a client is set: no fatal error, and no assignment of nil to the
    client. *)
Fixpoint survives `{K : KubeApi} {A} (p : prog A) : Prop :=
  match p with
  | Ret _ => True
  | Stop h => no_fatal (@Halt A h)
  | Do c k => c ≠ SetKubeClient None ∧ ∀ r, client_set c r → survives (k r)
  end.

Section survival.
Context `{K : KubeApi}.

Lemma survives_bind {A B} (p : prog A) (f : A → prog B) :
  survives p → (∀ a, survives (f a)) → survives (p ≫= f).
Proof.
  intros Hp Hf. induction p as [a|h|c k IH]; simpl in *; [apply Hf| |].
  - intros msg [= ->]. by destruct (Hp msg).
  - destruct Hp as [Hc Hk]. split; [done|]. intros r Hr. by apply IH, Hk.
Qed.

Lemma survives_call c : c ≠ SetKubeClient None → survives (call c).
Proof. intros Hc. by split. Qed.

Lemma survives_lift {A} (m : go A) : no_fatal m → survives (lift m).
Proof. by destruct m. Qed.

Lemma survives_Get : survives Get.
Proof. split; [done|]. by intros [cl|] Hr. Qed.

Lemma survives_gen_loop {A B} (gen : A → prog B) l :
  (∀ x, survives (gen x)) → survives (gen_loop gen l).
Proof.
  intros Hgen. induction l as [|x l IH]; cbn [gen_loop]; [done|].
  apply survives_bind; [apply Hgen|]. intros row. by apply survives_bind.
Qed.

(** Behind the recovery middleware a surviving program answers, and a client is
    still set. *)
Lemma run_recover {S} (env : ∀ c, S → resp c * S) (Inv : S → Prop) (p : prog response) s :
  (∀ c s, Inv s → client_set c (env c s).1) →
  (∀ c s, Inv s → c ≠ SetKubeClient None → Inv (env c s).2) →
  survives p → Inv s → ∃ a s', run env (recover p) s = (Val a, s') ∧ Inv s'.
Proof.
  intros Hans Hinv. revert s. induction p as [a|h|c k IH]; intros s Hp Hs; simpl in *.
  - by exists a, s.
  - destruct h as [q|msg]; [by eexists _, s|]. by destruct (Hp msg).
  - destruct Hp as [Hc Hk]. pose proof (Hans c s Hs) as Hr. pose proof (Hinv c s Hs Hc) as Hs'.
    destruct (env c s) as [r s']. by apply IH; [apply Hk|].
Qed.

End survival.

Ltac survive_step :=
  lazymatch goal with
  | |- ∀ _, _ => intros ?
  | |- survives (mbind _ _) => apply survives_bind
  | |- survives (call _) => apply survives_call; discriminate
  | |- survives (lift _) => apply survives_lift; repeat go_step
  | |- survives (Ret _) => exact I
  | |- survives (throw _) => intros ?; discriminate
  | |- survives (or_error _ _) => unfold or_error
  | |- survives (match ?x with _ => _ end) => destruct x
  | |- survives (gen_loop _ _) => apply survives_gen_loop
  | |- survives Get => apply survives_Get
  | |- survives _ => solve [eauto with kubecon]
  end.

Section parts.
Context `{K : KubeApi, GSL : GoSortLaws, MR : MapRange, PF : Platform, EO : EventOrder, TF : TimeFormat,
          J : !JsonApi, NR : !NodeReference}.
Context (KubeConfigFile : string).

Lemma survives_GetAllPods : survives GetAllPods.
Proof. unfold GetAllPods. repeat survive_step. Qed.

Lemma survives_translate_timestamp t : survives (translate_timestamp t).
Proof. unfold translate_timestamp. repeat survive_step. Qed.

Lemma survives_SaveKubeConfig : survives (SaveKubeConfig KubeConfigFile).
Proof. unfold SaveKubeConfig. repeat survive_step. Qed.

Lemma survives_Init : survives (Init KubeConfigFile).
Proof. unfold Init, loadKubeConfig, getKubeClient, getConfigOverrides, config_deref. repeat survive_step. Qed.

Lemma survives_assign_config f : survives (assign_config f).
Proof. unfold assign_config, config_deref. repeat survive_step. Qed.

Lemma survives_summarize l : survives (summarize l).
Proof. induction l as [|ns l IH]; [done|]. cbn [summarize]. repeat first [exact IH|survive_step]. Qed.

Lemma survives_form_images action l : survives (form_images action l).
Proof.
  induction l as [|image l IH]; [done|]. cbn [form_images]. unfold image_tags, getImageTags.
  repeat first [exact IH|survive_step].
Qed.

Lemma survives_modify_pod ns name edit : (∀ pod, no_fatal (edit pod)) → survives (modify_pod ns name edit).
Proof. intros He. unfold modify_pod. repeat first [apply He|survive_step]. Qed.

Lemma survives_syncPod ns name : survives (syncPod ns name).
Proof. unfold syncPod. repeat survive_step. Qed.

End parts.

#[export] Hint Resolve survives_GetAllPods survives_translate_timestamp survives_SaveKubeConfig survives_Init
  survives_assign_config survives_summarize survives_form_images survives_syncPod : kubecon.

Section all_routes.
Context `{K : KubeApi, GSL : GoSortLaws, MR : MapRange, PF : Platform, EO : EventOrder, TF : TimeFormat,
          J : !JsonApi, NR : !NodeReference}.
Context (KubeConfigFile : string).

Lemma survives_genNodes l : survives (genNodes l).
Proof. unfold genNodes, genOneNode. repeat survive_step. Qed.

Lemma survives_genEvents l : survives (genEvents l).
Proof. unfold genEvents, genOneEvent. repeat survive_step. Qed.

Lemma survives_readLog ns po ct previous : survives (readLog ns po ct previous).
Proof. unfold readLog. repeat survive_step. Qed.

Lemma survives_perform ns action images checks name : survives (perform ns action images checks name).
Proof.
  unfold perform, collect_err, setPodImage, startPod, stopPod.
  repeat first [apply survives_modify_pod; eauto with kubecon|survive_step].
Qed.

Lemma survives_for_pods act l : (∀ name, survives (act name)) → survives (for_pods act l).
Proof.
  intros Hact. induction l as [|name l IH]; cbn [for_pods]; [done|].
  repeat first [exact IH|apply Hact|survive_step].
Qed.

Lemma survives_routes c :
  Forall (λ r, survives (route_handler r c)) (routes KubeConfigFile).
Proof.
  unfold routes. repeat (apply Forall_cons_2); try apply Forall_nil_2; cbn [route_handler];
    unfold overview, listOthersInNamespace, listPodsInNamespace, describePod, readPodLog, readContainerLog,
      editPod, editReplicationController, editService, editEndpoints, editNode, listEventsInNamespace,
      listNodes, describeNode, help, config, showReplicationControllerForm, showServiceForm, showPodsForm,
      createReplicationController, createService, performPodsAction, updateConfig, updatePod,
      updateReplicationControllerWithPod, updatePodWithReplicationController, updateService, deleteService,
      updateEndpoints, deleteEndpoints, updateReplicationController, deleteReplicationController,
      updateNode, deleteNode,
      pod_page, file_form, genPods, genOnePod, gen_events_of, genReplicationControllers,
      genOneReplicationController, genServices, genOneService, genEndpoints, genOneEndpoint;
    repeat first [apply survives_readLog|apply survives_genNodes|apply survives_genEvents
                 |apply survives_for_pods; intros; apply survives_perform|survive_step].
Qed.

(** Every request to every route is answered: if the environment keeps a
    client that was set, then whatever the cluster answers, whatever the request
    holds and even where a handler panics, the server produces a response and a
    client is still set afterwards, so the same holds of the next request. *)
Theorem every_request_is_answered {S} (env : ∀ c, S → resp c * S) (Inv : S → Prop) pairs r c s :
  (∀ c s, Inv s → client_set c (env c s).1) →
  (∀ c s, Inv s → c ≠ SetKubeClient None → Inv (env c s).2) →
  r ∈ routes KubeConfigFile → Inv s →
  ∃ resp s', run env (serve pairs r c) s = (Val resp, s') ∧ Inv s'.
Proof.
  intros Hans Hinv Hr Hs. apply run_recover; [done|done| |done].
  unfold BasicAuth. destruct (searchCredential _ _) as [user|]; [|done].
  pose proof (survives_routes (Set_ AuthUserKey user c)) as Hall. rewrite Forall_forall in Hall. by apply Hall.
Qed.

End all_routes.

(** ** Witness *)

Section witness.
#[local] Existing Instances demo_KubeApi insertion_GoSort insertion_GoSortLaws list_MapRange amd64 demo_EventOrder
  demo_TimeFormat demo_JsonApi demo_NodeReference.

Lemma demo_env_answers c s : is_Some (st_client s) → client_set c (demo_env c s).1.
Proof. destruct c; simpl; try done. by intros [cl ->]. Qed.

(** Stopping a pod without annotations panics; the server answers 500. *)
Definition demo_nil_start : demo_state :=
  set_pods {[("default", "web-2") := demo_named_pod "web-2"]} demo_start.

Definition demo_stop_request : Context :=
  mkContext [("ns", "default")] ∅
    {["action" := ["stop"]; "pods" := ["web-2"]; "images" := [""]; "checks" := ["true"]; "location" := ["/"]]} ∅
    {["Authorization" := "Basic YTpi"]} ∅.

Definition demo_stop_route : route := mkRoute POST "/namespaces/:ns/pods" performPodsAction.

Lemma demo_stop_in_routes : demo_stop_route ∈ routes "kubeconfig.json".
Proof. unfold routes, demo_stop_route. do 21 right. left. Qed.

Definition answer_code (r : go response) : option Z :=
  match r with Val (HTML code _ _) | Val (Redirect code _) | Val (Status code _) => Some code | Halt _ => None end.

Lemma every_request_is_answered_witness :
  answer_code (run demo_env (serve [mkAuthPair "Basic YTpi" "a"] demo_stop_route demo_stop_request) demo_nil_start).1
    = Some 500%Z
  ∧ ∃ resp s',
    run demo_env (serve [mkAuthPair "Basic YTpi" "a"] demo_stop_route demo_stop_request) demo_nil_start
    = (Val resp, s') ∧ is_Some (st_client s').
Proof.
  split; [vm_cast_no_check (eq_refl (Some 500%Z))|].
  exact (every_request_is_answered "kubeconfig.json" demo_env (λ s, is_Some (st_client s)) _ _ _ demo_nil_start
    demo_env_answers demo_env_client demo_stop_in_routes (ex_intro _ demo_client eq_refl)).
Defined.

End witness.
