(* ===== verification/Server.v ===== *)
(** * Pod actions against an API server

    [PodServer] states what the console relies on of the API server's pods: a read
    returns the stored pod; an update is rejected, or it carries the stored resource
    version (or none), and the server stores what was submitted, up to fields the
    console does not edit.  The theorems run the actions of the console against any
    such server: a restart never loses an image, actions write back the version they
    read, and the edit form overwrites whatever version is stored. *)

From stdpp Require Import prelude gmap strings.
From Stdlib Require Import ZArith NArith Ascii.
From S2P Require Import Prelude GoStrings GoSort Float64 Api Page Versions KubeUtil Client Render PodActions Http Handlers Demo.

Section same_pod.
Context `{K : KubeApi}.

(** Pods with the same name, spec and annotations; a nil and an empty annotation
    map are the same to the server. *)
Definition same_pod (p q : api.Pod) : Prop :=
  api.Name (api.Pod_ObjectMeta p) = api.Name (api.Pod_ObjectMeta q)
  ∧ api.Pod_Spec p = api.Pod_Spec q
  ∧ gm_entries (api.Annotations (api.Pod_ObjectMeta p)) = gm_entries (api.Annotations (api.Pod_ObjectMeta q)).

#[export] Instance same_pod_equiv : Equivalence same_pod.
Proof.
  split.
  - by intros p.
  - intros p q (? & ? & ?). split_and!; congruence.
  - intros p q r (? & ? & ?) (? & ? & ?). split_and!; congruence.
Qed.

#[export] Instance edit_containers_proper cs ann : Proper (same_pod ==> same_pod) (edit_containers cs ann).
Proof. intros p q (H1 & H2 & H3). split_and!; simpl; [done|by rewrite H2|done]. Qed.

End same_pod.

Class PodServer `{K : KubeApi} {S : Type} (env : ∀ c, S → resp c * S) (cl : Client)
    (pod_at : S → string → string → option api.Pod) : Prop := {
  server_client s : env GetKubeClient s = (Some cl, s);
  server_get s ns name pod :
    pod_at s ns name = Some pod →
    api.Name (api.Pod_ObjectMeta pod) = name ∧ env (Pods_Get cl ns name) s = ((Some pod, None), s);
  server_update s ns pod cur :
    pod_at s ns (api.Name (api.Pod_ObjectMeta pod)) = Some cur →
    let '(r, s') := env (Pods_Update cl ns pod) s in
    (r.2 ≠ None ∧ s' = s)
    ∨ (r.2 = None
       ∧ (api.ResourceVersion (api.Pod_ObjectMeta pod) = api.ResourceVersion (api.Pod_ObjectMeta cur)
          ∨ api.ResourceVersion (api.Pod_ObjectMeta pod) = "")
       ∧ (∃ stored, pod_at s' ns (api.Name (api.Pod_ObjectMeta pod)) = Some stored ∧ same_pod stored pod)
       ∧ ∀ ns' name', (ns', name') ≠ (ns, api.Name (api.Pod_ObjectMeta pod)) →
           pod_at s' ns' name' = pod_at s ns' name');
}.

Section actions_on_server.
Context `{K : KubeApi, MR : MapRange}.
Context {S : Type} (env : ∀ c, S → resp c * S) (cl : Client) (pod_at : S → string → string → option api.Pod).
Context `{PS : !PodServer env cl pod_at}.
Implicit Types pod : api.Pod.

Abbreviation containers pod := (api.Containers (api.Pod_Spec pod)).
Abbreviation annotations pod := (api.Annotations (api.Pod_ObjectMeta pod)).

(** An edit that keeps the pod's name is rejected or stored. *)
Lemma run_modify_pod s ns name pod edit pod' :
  pod_at s ns name = Some pod → edit pod = Val pod' →
  api.Name (api.Pod_ObjectMeta pod') = name →
  ∃ e s', run env (modify_pod ns name edit) s = (Val e, s')
    ∧ ((e ≠ None ∧ s' = s)
       ∨ (e = None ∧ (∃ stored, pod_at s' ns name = Some stored ∧ same_pod stored pod')
          ∧ ∀ ns' name', (ns', name') ≠ (ns, name) → pod_at s' ns' name' = pod_at s ns' name')).
Proof.
  intros Hat Hedit Hname. destruct (server_get s ns name pod Hat) as [_ Hget].
  unfold modify_pod, Get. cbn. rewrite server_client. cbn. rewrite Hget. cbn. rewrite Hedit. cbn.
  rewrite server_client. cbn. subst name.
  pose proof (server_update s ns pod' pod Hat) as Hup. destruct (env (Pods_Update cl ns pod') s) as [r s'].
  cbn. exists r.2, s'. split; [done|]. destruct Hup as [?|(? & _ & ? & ?)]; [by left|by right].
Qed.

(** Starting a pod whose checked containers all run changes nothing. *)
Lemma start_all_started checks pod a :
  gm_entries (annotations pod) = a → all_started checks (containers pod) a →
  length checks ≤ length (containers pod) →
  ∃ pod', start_containers checks pod = Val pod' ∧ same_pod pod' pod.
Proof.
  intros Ha Hfresh Hlen. destruct (start_containers_post checks pod Hlen) as (cs' & ann' & -> & Hcs & _ & _ & Hann).
  assert (∀ j, ¬ starts 0 checks (containers pod) j) as Hno.
  { intros j (c & Hc & Hj & Hp). destruct (Hfresh j c Hc Hj). congruence. }
  eexists. split; [done|]. split_and!; [done| |]; simpl.
  - replace cs' with (containers pod); [by destruct (api.Pod_Spec pod)|].
    apply list_eq. intros j. rewrite Hcs. destruct (containers pod !! j) as [c|] eqn:Hc; [|done]. simpl. f_equal.
    unfold start_container. destruct (check_at 0 checks j && is_paused c) eqn:E; [|done].
    apply andb_true_iff in E as [Hj Hp]. by destruct (Hno j); exists c.
  - apply map_eq. intros k. rewrite <- !gm_get_entries. apply Hann. intros j Hj. by destruct (Hno j).
Qed.

(** Starting a pod the server stored as the stopped one gives the pod back. *)
Lemma start_stopped checks pod a stopped stored :
  annotations pod = Some a → all_started checks (containers pod) a →
  stop_containers checks pod = Val stopped → same_pod stored stopped →
  ∃ pod', start_containers checks stored = Val pod' ∧ same_pod pod' pod.
Proof.
  intros Ha Hfresh Hstop (Hn & Hspec & Hann). pose proof (stop_containers_length _ _ _ Hstop) as Hlen.
  destruct (stop_containers_Some checks pod a Ha Hlen) as (cs1 & a1 & Heq & Hpost).
  rewrite Hstop in Heq. injection Heq as ->. cbn in Hn, Hspec, Hann.
  destruct (start_containers_post checks stored) as (cs2 & ann2 & Hs & Hpost2).
  { rewrite Hspec. simpl. by rewrite (length_of_lookups _ _ _ (proj1 Hpost)). }
  rewrite Hspec in Hpost2. simpl in Hpost2.
  destruct (restart_post _ _ _ _ _ _ _ _ Hfresh Hpost Hann Hpost2) as [-> Ha2].
  eexists. split; [done|]. split_and!; simpl; [done| |by rewrite Ha2, Ha].
  rewrite Hspec. by destruct (api.Pod_Spec pod).
Qed.

Lemma perform_restart ns images checks name :
  perform ns "restart" images checks name
  = (errs ← collect_err (stopPod ns name checks);
     errs' ← collect_err (startPod ns name checks);
     Ret (errs ++ errs')).
Proof. reflexivity. Qed.

Lemma run_collect_err s m e s' :
  run env m s = (Val e, s') →
  run env (collect_err m) s = (Val (match e with Some err => [err] | None => [] end), s').
Proof. intros H. unfold collect_err. by rewrite run_bind, H. Qed.

(** C1. Restarting a pod against the API server never loses an image.  If no error
    is reported the pod is back as it was; if an update was rejected the pod is
    either as it was or stopped with its images kept in the annotations, and the
    error is reported.  No other pod changes. *)
Theorem restart_never_loses_images s ns name images checks pod a :
  pod_at s ns name = Some pod → annotations pod = Some a →
  length checks ≤ length (containers pod) → all_started checks (containers pod) a →
  ∃ errs s' pod' stopped,
    run env (perform ns "restart" images checks name) s = (Val errs, s')
    ∧ stop_containers checks pod = Val stopped
    ∧ pod_at s' ns name = Some pod'
    ∧ (same_pod pod' pod ∨ (errs ≠ [] ∧ same_pod pod' stopped))
    ∧ ∀ ns' name', (ns', name') ≠ (ns, name) → pod_at s' ns' name' = pod_at s ns' name'.
Proof.
  intros Hat Ha Hlen Hfresh. destruct (stop_containers_Some checks pod a Ha Hlen) as (cs1 & a1 & Hstop & _).
  destruct (server_get s ns name pod Hat) as [Hname _].
  destruct (run_modify_pod s ns name pod _ _ Hat Hstop) as (e1 & s1 & Hrun1 & Hcase1); [done|].
  apply run_collect_err in Hrun1.
  assert (∃ e2 s2 pod', run env (startPod ns name checks) s1 = (Val e2, s2)
    ∧ pod_at s2 ns name = Some pod'
    ∧ (same_pod pod' pod ∨ (e2 ≠ None ∧ same_pod pod' (edit_containers cs1 (Some a1) pod)))
    ∧ ∀ ns' name', (ns', name') ≠ (ns, name) → pod_at s2 ns' name' = pod_at s ns' name')
    as (e2 & s2 & pod' & Hrun2 & Hat2 & Hsame & Hother).
  { destruct Hcase1 as [[_ ->]|(_ & (stored & Hst & Hsame) & Hother)].
    - destruct (start_all_started checks pod a) as (p' & Hstart & Hsp); [by rewrite Ha|done|done|].
      destruct (run_modify_pod s ns name pod _ _ Hat Hstart) as (e2 & s2 & Hrun2 & Hcase2); [by rewrite (proj1 Hsp)|].
      exists e2, s2. destruct Hcase2 as [[_ ->]|(_ & (st & Hst & Hs) & Ho)].
      + exists pod. split_and!; [done|done|by left|done].
      + exists st. split_and!; [done|done|left; by rewrite Hs|done].
    - destruct (start_stopped checks pod a _ stored Ha Hfresh Hstop Hsame) as (p' & Hstart & Hsp).
      destruct (run_modify_pod s1 ns name stored _ _ Hst Hstart) as (e2 & s2 & Hrun2 & Hcase2); [by rewrite (proj1 Hsp)|].
      exists e2, s2. destruct Hcase2 as [[He ->]|(_ & (st & Hst2 & Hs) & Ho)].
      + exists stored. split_and!; [done|done|by right|done].
      + exists st. split_and!; [done|done|left; by rewrite Hs|]. intros ns' n' Hne. by rewrite Ho, Hother. }
  apply run_collect_err in Hrun2.
  eexists _, s2, pod', _. split_and!; [|done|done| |done].
  - rewrite perform_restart, run_bind. unfold stopPod. rewrite Hrun1, run_bind, Hrun2. reflexivity.
  - destruct Hsame as [?|[He2 ?]]; [by left|right]. split; [|done]. by destruct e1, e2.
Qed.

End actions_on_server.

(** ** Versions *)

Section versions.
Context `{K : KubeApi, MR : MapRange, J : !JsonApi}.

(** The pod an interaction writes, with its namespace. *)
Definition pod_update (e : event) : option (string * api.Pod) :=
  match e with Ev (Pods_Update _ ns pod) _ => Some (ns, pod) | _ => None end.

(** A pod that was read: where it was asked for, the pod, and the error beside it. *)
Record read_pod : Type := mkRead { rd_ns : string; rd_name : string; rd_pod : api.Pod; rd_err : option string }.

Definition pod_read (e : event) : option read_pod :=
  match e with
  | Ev c r =>
      match c return resp c → option read_pod with
      | Pods_Get _ ns name => λ r, match r.1 with Some pod => Some (mkRead ns name pod r.2) | None => None end
      | _ => λ _, None
      end r
  end.

(** Every pod a trace writes is related by [R] to a pod read earlier in it. *)
Definition writes_follow_reads (R : string * api.Pod → read_pod → Prop) (tr : list event) : Prop :=
  ∀ tr1 e tr2 w, tr = tr1 ++ e :: tr2 → pod_update e = Some w →
  ∃ e' r, e' ∈ tr1 ∧ pod_read e' = Some r ∧ R w r.

Lemma writes_follow_reads_nil R : writes_follow_reads R [].
Proof. intros tr1 e tr2 w H. by destruct tr1. Qed.

Lemma writes_follow_reads_app R tr tr' :
  writes_follow_reads R tr → writes_follow_reads R tr' → writes_follow_reads R (tr ++ tr').
Proof.
  intros H H' tr1 e tr2 w Heq Hw.
  apply app_eq_app in Heq as [l [[-> Hl]|[-> Hl]]].
  - destruct l as [|e0 l]; simpl in Hl.
    + destruct (H' [] e tr2 w) as (e' & ? & ?%not_elem_of_nil & _); [by rewrite <- Hl|done|done].
    + injection Hl as <- Hl. by apply (H tr1 e l w).
  - destruct (H' l e tr2 w Hl Hw) as (e' & r & Hin & ?). exists e', r.
    split; [|done]. apply elem_of_app. by right.
Qed.

Lemma writes_follow_reads_impl (R R' : string * api.Pod → read_pod → Prop) tr :
  (∀ w r, R w r → R' w r) → writes_follow_reads R tr → writes_follow_reads R' tr.
Proof. intros HR H tr1 e tr2 w Htr Hw. destruct (H tr1 e tr2 w Htr Hw) as (e' & r & ? & ? & ?). exists e', r. auto. Qed.

(** The written pod is the read one's successor: same name, same version. *)
Definition same_version (ns name : string) (w : string * api.Pod) (r : read_pod) : Prop :=
  w.1 = ns ∧ rd_ns r = ns ∧ rd_name r = name ∧ rd_err r = None
  ∧ api.Name (api.Pod_ObjectMeta w.2) = api.Name (api.Pod_ObjectMeta (rd_pod r))
  ∧ api.ResourceVersion (api.Pod_ObjectMeta w.2) = api.ResourceVersion (api.Pod_ObjectMeta (rd_pod r)).

(** What an action makes of a pod it read. *)
Definition pod_edit (action : string) (images : list string) (checks : list bool) (pod pod' : api.Pod) : Prop :=
  (action ∈ ["upgrade"; "downgrade"] ∧ set_images images pod = Val pod')
  ∨ (action ∈ ["start"; "restart"] ∧ start_containers checks pod = Val pod')
  ∨ (action ∈ ["stop"; "restart"] ∧ stop_containers checks pod = Val pod')
  ∨ action = "sync" ∧ ∃ rcname template, gm_get (api.Labels (api.Pod_ObjectMeta pod)) "managed-by" = Some rcname
      ∧ pod' = sync_with rcname template pod.

(** A write of an action, and the read it edits. *)
Definition edit_of_read (ns name : string) (E : api.Pod → api.Pod → Prop) (w : string * api.Pod) (r : read_pod) : Prop :=
  same_version ns name w r ∧ E (rd_pod r) w.2.

End versions.

(** Follows the interactions of an execution. *)
Ltac exec_inv H :=
  cbn in H;
  repeat match type of H with
  | ∃ _, _ => let r := fresh "r" in let tr := fresh "tr" in let Heq := fresh "Htr" in
              destruct H as (r & tr & Heq & H); subst; cbn in H
  | exec (match ?x with _ => _ end) _ _ => destruct x eqn:?; cbn in H
  | exec (mbind _ (match ?x with _ => _ end)) _ _ => destruct x eqn:?; cbn in H
  | exec (mbind _ (lift ?x)) _ _ => destruct x eqn:?; cbn in H
  | _ ∧ _ => destruct H as [? H]; subst
  end.

(** Finds the place of a write in a trace written out. *)
Ltac trace_cases :=
  let tr1 := fresh "tr1" in let e := fresh "e" in let tr2 := fresh "tr2" in let w := fresh "w" in
  intros tr1 e tr2 w Htr Hw;
  repeat match goal with
  | H : _ = ?t ++ _ :: _ |- _ => destruct t as [|? ?]; cbn in H; simplify_eq
  end; cbn in Hw; simplify_eq.

Section versions_of_actions.
Context `{K : KubeApi, MR : MapRange, J : !JsonApi}.

Lemma modify_pod_versions ns name edit (E : api.Pod → api.Pod → Prop) tr o :
  (∀ pod pod', edit pod = Val pod' →
     E pod pod'
     ∧ api.Name (api.Pod_ObjectMeta pod') = api.Name (api.Pod_ObjectMeta pod)
     ∧ api.ResourceVersion (api.Pod_ObjectMeta pod') = api.ResourceVersion (api.Pod_ObjectMeta pod)) →
  exec (modify_pod ns name edit) tr o → writes_follow_reads (edit_of_read ns name E) tr.
Proof.
  intros Hedit H. unfold modify_pod, Get in H. exec_inv H.
  all: trace_cases.
  apply deref_Val in Heqg as ->. destruct (Hedit _ _ Heqg0) as (? & ? & ?).
  eexists _, _. split_and!; [right; left|reflexivity|done].
Qed.

Lemma syncPod_versions ns name images checks tr o :
  exec (syncPod ns name) tr o → writes_follow_reads (edit_of_read ns name (pod_edit "sync" images checks)) tr.
Proof.
  intros H. unfold syncPod, Get in H. exec_inv H.
  all: trace_cases.
  apply deref_Val in Heqg as ->.
  eexists _, _. split_and!; [right; left|reflexivity|]. split; [done|]. do 3 right. eauto 6.
Qed.

Lemma writes_follow_reads_bind {A B} R (p : prog A) (f : A → prog B) tr o :
  (∀ tr o, exec p tr o → writes_follow_reads R tr) →
  (∀ a tr o, exec (f a) tr o → writes_follow_reads R tr) →
  exec (p ≫= f) tr o → writes_follow_reads R tr.
Proof.
  intros Hp Hf [(tr1 & tr2 & a & -> & H1 & H2)|(h & H1 & _)]%exec_bind; [|by eapply Hp].
  apply writes_follow_reads_app; [by eapply Hp|by eapply Hf].
Qed.

Lemma writes_follow_reads_Ret {A} R (a : A) tr o : exec (Ret a) tr o → writes_follow_reads R tr.
Proof. intros [-> _]. apply writes_follow_reads_nil. Qed.

Lemma collect_err_versions R m tr o :
  (∀ tr o, exec m tr o → writes_follow_reads R tr) →
  exec (collect_err m) tr o → writes_follow_reads R tr.
Proof.
  intros Hm. apply writes_follow_reads_bind; [done|]. intros a tr' o'. apply writes_follow_reads_Ret.
Qed.

Lemma set_images_meta images pod pod' :
  set_images images pod = Val pod' → api.Pod_ObjectMeta pod' = api.Pod_ObjectMeta pod.
Proof. unfold set_images. destruct (set_images_loop _ _ _); [|done]. by intros [= <-]. Qed.

(** Every write of an action is an edit of a pod it read before, at its version. *)
Lemma perform_edits ns action images checks name tr o :
  exec (perform ns action images checks name) tr o →
  writes_follow_reads (edit_of_read ns name (pod_edit action images checks)) tr.
Proof.
  assert (∀ tr o, action ∈ ["stop"; "restart"] → exec (stopPod ns name checks) tr o →
            writes_follow_reads (edit_of_read ns name (pod_edit action images checks)) tr) as Hstop.
  { intros tr' o' Ha. apply modify_pod_versions. intros pod pod' Heq. split; [by do 2 right; left|].
    revert Heq. unfold stop_containers. destruct (stop_loop _ _ _ _) as [[]|]; [|done]. by intros [= <-]. }
  assert (∀ tr o, action ∈ ["start"; "restart"] → exec (startPod ns name checks) tr o →
            writes_follow_reads (edit_of_read ns name (pod_edit action images checks)) tr) as Hstart.
  { intros tr' o' Ha. apply modify_pod_versions. intros pod pod' Heq. split; [by right; left|].
    revert Heq. unfold start_containers. destruct (start_loop _ _ _ _) as [[]|]; [|done]. by intros [= <-]. }
  unfold perform. destruct (_ || _) eqn:Hup.
  { apply collect_err_versions. intros tr' o'. apply modify_pod_versions.
    intros pod pod' Heq. split; [|by rewrite (set_images_meta _ _ _ Heq)]. left. split; [|done].
    apply orb_true_iff in Hup as [->%bool_decide_eq_true| ->%bool_decide_eq_true]; set_solver. }
  clear Hup. case_bool_decide; [apply collect_err_versions; intros ??; apply Hstart; set_solver|].
  case_bool_decide; [apply collect_err_versions; intros ??; apply Hstop; set_solver|].
  case_bool_decide.
  { apply writes_follow_reads_bind; [intros ??; apply collect_err_versions; intros ??; apply Hstop; set_solver|].
    intros errs tr' o'. apply writes_follow_reads_bind; [|intros ???; apply writes_follow_reads_Ret].
    intros ??. apply collect_err_versions. intros ??. apply Hstart; set_solver. }
  case_bool_decide as Hs; [|apply writes_follow_reads_Ret].
  apply collect_err_versions. intros ??. rewrite Hs. apply syncPod_versions.
Qed.

(** C19. Every action writes back the version it read: each pod an action writes
    has the name and the resource version of a pod the same action read before,
    without an error and from the same namespace, so a concurrent change in between is a conflict for the
    server to detect. *)
Theorem actions_write_the_version_they_read ns action images checks name tr o :
  exec (perform ns action images checks name) tr o → writes_follow_reads (same_version ns name) tr.
Proof. intros H%perform_edits. eapply writes_follow_reads_impl; [|exact H]. by intros w r [? _]. Qed.

(** The edit form overwrites: whatever version the submitted text holds, the
    pod updatePod writes is the decoded one with the version of a pod read just
    before (even if that read reported an error), so a change made while the form
    was open is lost without a conflict. *)
Theorem updatePod_overwrites c tr o :
  exec (updatePod c) tr o →
  writes_follow_reads
    (λ w r, ∃ form, Unmarshal_Pod (PostForm c "json") = Ok form
       ∧ w.1 = Param c "ns"
       ∧ rd_ns r = Param c "ns" ∧ rd_name r = api.Name (api.Pod_ObjectMeta form)
       ∧ w.2 = set_Pod_Meta (set_ResourceVersion (api.ResourceVersion (api.Pod_ObjectMeta (rd_pod r)))
                               (api.Pod_ObjectMeta form)) form) tr.
Proof.
  intros H. unfold updatePod, Get, or_error in H. exec_inv H.
  all: trace_cases.
  all: apply deref_Val in Heqg; destruct r0 as [p err]; simpl in Heqg; subst p.
  all: eexists _, _; split_and!; [right; left|reflexivity|]; by exists a.
Qed.

End versions_of_actions.

(** ** Witnesses *)

(** The demonstration server, with the client fixed. *)
Definition demo_pod_env (c : @cmd demo_KubeApi) (s : demo_state) : @resp demo_KubeApi c * demo_state :=
  match c return @resp demo_KubeApi c * demo_state with
  | GetKubeClient => (Some demo_client, s)
  | c => demo_env c s
  end.

Definition demo_pod_at (s : demo_state) (ns name : string) : option (@api.Pod demo_KubeApi) :=
  match st_pods s !! (ns, name) with
  | Some pod => if bool_decide (api.Name (api.Pod_ObjectMeta pod) = name) then Some pod else None
  | None => None
  end.

Lemma demo_PodServer : @PodServer demo_KubeApi demo_state demo_pod_env demo_client demo_pod_at.
Proof.
  split.
  - done.
  - intros s ns name pod. unfold demo_pod_at. simpl.
    destruct (st_pods s !! (ns, name)) as [p|]; [|done]. case_bool_decide; [|done]. by intros [= ->].
  - intros s ns pod cur. unfold demo_pod_at. simpl. unfold demo_update_pod.
    destruct (st_pods s !! (ns, _)) as [p|]; [|done]. case_bool_decide as Hn; [|done]. intros [= ->].
    case_bool_decide as Hv; [right|by left]. split_and!; [done|by left| |].
    + eexists. simpl. rewrite lookup_insert_eq. simpl. by rewrite bool_decide_eq_true_2.
    + intros ns' name' Hne. simpl. by rewrite lookup_insert_ne.
Qed.

Definition demo_restart : prog (list string) :=
  @perform demo_KubeApi list_MapRange "default" "restart" [] [true] "web-1".

Lemma demo_pod_at_start : demo_pod_at demo_start "default" "web-1" = Some demo_actions_pod.
Proof. vm_cast_no_check (eq_refl (Some demo_actions_pod)). Qed.

Lemma restart_never_loses_images_witness :
  ∃ errs s' pod', run demo_pod_env demo_restart demo_start = (Val errs, s')
    ∧ demo_pod_at s' "default" "web-1" = Some pod' ∧ (errs = [] → @same_pod demo_KubeApi pod' demo_actions_pod).
Proof.
  destruct (@restart_never_loses_images demo_KubeApi list_MapRange demo_state demo_pod_env demo_client demo_pod_at
    demo_PodServer demo_start "default" "web-1" [] [true] demo_actions_pod demo_annotations
    demo_pod_at_start eq_refl ltac:(simpl; lia) demo_all_started)
    as (errs & s' & pod' & stopped & H1 & _ & H3 & H4 & _).
  exists errs, s', pod'. split; [exact H1|]. split; [exact H3|]. intros He.
  destruct H4 as [H4|[Hne _]]; [exact H4|contradiction].
Defined.

(** The versions of the pods a trace writes. *)
Definition written_versions (tr : list (@event demo_KubeApi)) : list string :=
  tr ≫= λ e, match pod_update e with Some (_, p) => [api.ResourceVersion (api.Pod_ObjectMeta p)] | None => [] end.

(** A stop of one container. *)
Definition demo_stop : prog (list string) :=
  @perform demo_KubeApi list_MapRange "default" "stop" [] [true] "web-1".

Lemma actions_write_the_version_they_read_witness :
  written_versions (trace demo_pod_env demo_stop demo_start) = ["7"]
  ∧ @writes_follow_reads demo_KubeApi (@same_version demo_KubeApi "default" "web-1")
      (trace demo_pod_env demo_stop demo_start).
Proof.
  split; [vm_cast_no_check (eq_refl ["7"])|].
  exact (@actions_write_the_version_they_read demo_KubeApi list_MapRange "default" "stop" [] [true] "web-1" _ _
    (exec_trace demo_pod_env demo_stop demo_start)).
Defined.

(** A submitted form whose pod has version "0", the stored one having "7". *)
Definition demo_update_request : Context :=
  demo_request [("ns", "default"); ("po", "web-1")] {["json" := ["web-1"]]}.

Definition demo_update : prog response := @updatePod demo_KubeApi demo_JsonApi demo_update_request.

Lemma updatePod_overwrites_witness :
  written_versions (trace demo_pod_env demo_update demo_start) = ["7"]
  ∧ @writes_follow_reads demo_KubeApi
      (λ w r, ∃ form, @Unmarshal_Pod demo_KubeApi demo_JsonApi (PostForm demo_update_request "json") = Ok form
       ∧ w.1 = Param demo_update_request "ns"
       ∧ rd_ns r = Param demo_update_request "ns" ∧ rd_name r = api.Name (api.Pod_ObjectMeta form)
       ∧ w.2 = set_Pod_Meta (set_ResourceVersion (api.ResourceVersion (api.Pod_ObjectMeta (rd_pod r)))
                               (api.Pod_ObjectMeta form)) form)
      (trace demo_pod_env demo_update demo_start).
Proof.
  split; [vm_cast_no_check (eq_refl ["7"])|].
  exact (@updatePod_overwrites demo_KubeApi demo_JsonApi demo_update_request _ _
    (exec_trace demo_pod_env demo_update demo_start)).
Defined.
