(* ===== verification/HandlerSpec.v ===== *)
(** * What single handlers promise

    The pod list of a namespace, the pod actions form, the creation and deletion of
    replication controllers, and the update of the configuration. *)

From stdpp Require Import prelude gmap strings sorting.
From Stdlib Require Import ZArith NArith Ascii.
From S2P Require Import Prelude GoStrings GoSort Float64 Api Page Versions KubeUtil Client Render PodActions Http Handlers Demo Server.

(** ** The pod list *)

Section pod_list.
Context `{GSL : GoSortLaws}.
Implicit Types pods : list page.Pod.

(** A query parameter that is given and not empty asks for [f]. *)
Definition query_accepts (c : Context) (key : string) (f : string → bool) : bool :=
  let '(v, ok) := GetQuery c key in
  if ok && negb (bool_decide (v = "")) then f v else true.

Definition wanted (c : Context) (pod : page.Pod) : bool :=
  query_accepts c "image" (λ v, page.hasImage pod (page.mkPodImage v true))
  && query_accepts c "status" (λ v, bool_decide (page.Pod_Status pod = v))
  && query_accepts c "host" (λ v, bool_decide (page.Pod_HostIP pod = v)).

Lemma filter_by_spec c key f (g : page.Pod → string → bool) pods :
  (∀ v, f pods v = filter (λ pod, g pod v = true) pods) →
  filter_by c key f pods = filter (λ pod, query_accepts c key (g pod) = true) pods.
Proof.
  intros Hf. unfold filter_by, query_accepts. destruct (GetQuery c key) as [v ok].
  destruct (ok && negb (bool_decide (v = ""))); [apply Hf|].
  symmetry. apply list_filter_all, Forall_forall. done.
Qed.

(** C29. The pods shown are those, each as often as it occurs, that satisfy all the
    filters given in the query, ordered by name if asked for and else by container
    birth, youngest first.  The image filter asks for the image in the private
    repository: when no pod runs it from there, nothing is shown, also if pods run a
    public image of that name. *)
Theorem select_pods_spec c pods :
  select_pods c pods ≡ₚ filter (λ pod, wanted c pod = true) pods
  ∧ (GetQuery c "sort" = ("ByName", true) →
       StronglySorted (λ a b, String.le (page.Pod_Name a) (page.Pod_Name b)) (select_pods c pods))
  ∧ (GetQuery c "sort" ≠ ("ByName", true) →
       StronglySorted (λ a b, (page.Pod_ContainerBirth b <= page.Pod_ContainerBirth a)%Z) (select_pods c pods))
  ∧ (∀ v, GetQuery c "image" = (v, true) → v ≠ "" →
       Forall (λ pod, page.mkPodImage v true ∉ page.Pod_Images pod) pods → select_pods c pods = []).
Proof.
  set (kept := filter (λ pod, wanted c pod = true) pods).
  assert (select_pods c pods = sort_pods c kept) as Hsel.
  { unfold select_pods. f_equal.
    rewrite (filter_by_spec c "host" page.FilterPodsByHost (λ pod v, bool_decide (page.Pod_HostIP pod = v))).
    2:{ intros v. apply list_filter_iff. intros pod. by rewrite bool_decide_eq_true. }
    rewrite (filter_by_spec c "status" page.FilterPodsByStatus (λ pod v, bool_decide (page.Pod_Status pod = v))).
    2:{ intros v. apply list_filter_iff. intros pod. by rewrite bool_decide_eq_true. }
    rewrite (filter_by_spec c "image" _ (λ pod v, page.hasImage pod (page.mkPodImage v true))) by done.
    rewrite !list_filter_filter. apply list_filter_iff. intros pod. unfold wanted. rewrite !andb_true_iff. tauto. }
  assert (∀ pods, sort_pods c pods =
    if decide (GetQuery c "sort" = ("ByName", true)) then sort_Sort page.ByName_Less pods
    else sort_Sort (Reverse page.ByBirth_Less) pods) as Hsort.
  { intros l. unfold sort_pods. destruct (GetQuery c "sort") as [v ok]. destruct ok; simpl.
    - destruct (decide (v = "ByName")) as [->|Hne]; [by rewrite decide_True|].
      rewrite (decide_False (P := (v, true) = _)), (bool_decide_eq_false_2 (v = "ByName")) by congruence.
      by case_bool_decide.
    - by case_decide. }
  rewrite Hsel, Hsort. split_and!.
  - case_decide; apply sort_perm.
  - intros Hq. rewrite decide_True by done.
    refine (StronglySorted_impl _ _ _ _ (sort_sorted page.ByName_Less _ page.ByName_swo)).
    intros a b Hab. by apply (not_after_sltb_le (page.Pod_Name a) (page.Pod_Name b)).
  - intros Hq. rewrite decide_False by done.
    refine (StronglySorted_impl _ _ _ _ (sort_sorted (Reverse page.ByBirth_Less) _ (Reverse_swo _ page.ByBirth_swo))).
    intros a b. unfold not_after, Reverse, page.ByBirth_Less. rewrite Z.ltb_ge. done.
  - intros v Hq Hv Hpub.
    assert (kept = []) as ->; [|apply Permutation_nil_r; case_decide; apply sort_perm].
    apply list_filter_nil. eapply Forall_impl; [exact Hpub|]. intros pod Hno Hw. apply Hno.
    unfold wanted in Hw. rewrite !andb_true_iff in Hw. destruct Hw as [[Hw _] _].
    unfold query_accepts in Hw. rewrite Hq, bool_decide_eq_false_2 in Hw by done. simpl in Hw.
    by apply page.hasImage_spec.
Qed.

End pod_list.

(** ** Replication controllers *)

Section controllers.
Context `{K : KubeApi, J : !JsonApi}.

(** The deletion an interaction asks for, and the controller one reads. *)
Definition rc_delete (e : event) : option (string * string) :=
  match e with Ev (RCs_Delete _ ns name) _ => Some (ns, name) | _ => None end.

Definition rc_read (e : event) : option (string * string * api.ReplicationController) :=
  match e with
  | Ev c r =>
      match c return resp c → option (string * string * api.ReplicationController) with
      | RCs_Get _ ns name => λ r, match r with (Some rc, None) => Some (ns, name, rc) | _ => None end
      | _ => λ _, None
      end r
  end.

(** A replication controller is deleted only after it was read with no
    desired and no current replicas: in every execution, whatever the cluster answers,
    a deletion is of the controller the request names and comes after a read of that
    controller that returned such a state.  (Nothing ties the deletion to the version
    read: a controller scaled up in between is deleted.) *)
Theorem deleteReplicationController_only_empty c tr o tr1 e tr2 w :
  exec (deleteReplicationController c) tr o → tr = tr1 ++ e :: tr2 → rc_delete e = Some w →
  w = (Param c "ns", Param c "rc")
  ∧ ∃ e' rc, e' ∈ tr1 ∧ rc_read e' = Some (Param c "ns", Param c "rc", rc)
     ∧ (api.RC_Spec_Replicas rc <= 0)%Z ∧ (api.RC_Status_Replicas rc <= 0)%Z.
Proof.
  intros Hex Htr Hw. revert tr1 e tr2 w Htr Hw.
  unfold deleteReplicationController, Get, or_error in Hex. exec_inv Hex.
  all: trace_cases.
  all: split; [reflexivity|].
  all: apply deref_Val in Heqg; subst.
  all: destruct r0 as [p [err|]]; simpl in Heqr; [discriminate Heqr|injection Heqr as ->].
  all: eexists _, _; split_and!; [right; left|reflexivity|..].
  all: rewrite orb_false_iff, !Z.ltb_ge in Heqb; tauto.
Qed.

(** A created controller selects its own pods: its selector and its
    template's labels both tie "managed-by" to its name (so that the pods it makes
    lead back to it, as the sync and export actions expect), a selector that matched
    the template still does, the first container is named after it, and of the
    submitted metadata only name, generate-name, labels and annotations survive.  It
    panics exactly when the template or its first container is missing. *)
Theorem tie_to_name_spec rc :
  let name := api.Name (api.RC_ObjectMeta rc) in
  match api.RC_Spec_Template rc with
  | None => tie_to_name rc = Halt (HPanic NilDereference)
  | Some template =>
      match api.Containers (api.Template_Spec template) with
      | [] => tie_to_name rc = Halt (HPanic IndexOutOfRange)
      | first :: rest =>
          ∃ rc' template' selector labels,
            tie_to_name rc = Val rc'
            ∧ api.RC_Spec_Template rc' = Some template'
            ∧ api.RC_Spec_Selector rc' = Some selector
            ∧ api.Labels (api.Template_ObjectMeta template') = Some labels
            ∧ selector !! "managed-by" = Some name ∧ labels !! "managed-by" = Some name
            ∧ (gm_entries (api.RC_Spec_Selector rc) ⊆ gm_entries (api.Labels (api.Template_ObjectMeta template)) →
               selector ⊆ labels)
            ∧ api.Template_Spec template' =
                set_Containers (set_Container_Name name first :: rest) (api.Template_Spec template)
            ∧ api.Name (api.RC_ObjectMeta rc') = name
            ∧ api.ResourceVersion (api.RC_ObjectMeta rc') = ""
            ∧ api.Annotations (api.RC_ObjectMeta rc') = api.Annotations (api.RC_ObjectMeta rc)
            ∧ (∀ l, api.Labels (api.RC_ObjectMeta rc) = Some l →
                 gm_get (api.Labels (api.RC_ObjectMeta rc')) "managed-by" = Some name)
      end
  end.
Proof.
  simpl. unfold tie_to_name. destruct (api.RC_Spec_Template rc) as [template|]; [|done]. simpl.
  unfold index, set_index. destruct (api.Containers (api.Template_Spec template)) as [|first rest] eqn:Hcs; [done|].
  simpl. eexists _, _, _, _. split; [done|]. simpl. split_and!; try done.
  - by simplify_map_eq.
  - by simplify_map_eq.
  - intros Hsub. by apply insert_mono.
  - intros l ->. simpl. by simplify_map_eq.
Qed.

End controllers.

(** ** Pod actions *)

Section pod_actions.
Context `{K : KubeApi, MR : MapRange, J : !JsonApi}.

(** A run over several pods that returns is a run per pod, in order, the errors
    of all of them collected. *)
Lemma exec_for_pods act pods tr errs :
  exec (for_pods act pods) tr (Val errs) ↔
  ∃ trs errss, tr = concat trs ∧ errs = concat errss
    ∧ Forall3 (λ name t es, exec (act name) t (Val es)) pods trs errss.
Proof.
  revert tr errs. induction pods as [|name pods IH]; intros tr errs.
  { simpl. split.
    - intros [-> [= ->]]. exists [], []. split_and!; [done|done|constructor].
    - intros (trs & errss & -> & -> & HF). inversion HF; subst. by split. }
  cbn [for_pods]. rewrite exec_bind. split.
  - intros [(tr1 & tr2 & es & -> & H1 & H2)|(h & _ & ?)]; [|done].
    apply exec_bind in H2 as [(tr3 & tr4 & rest & -> & H3 & [-> [= ->]])|(h & _ & ?)]; [|done].
    apply IH in H3 as (trs & errss & -> & -> & HF). exists (tr1 :: trs), (es :: errss).
    split_and!; [by rewrite app_nil_r|done|by constructor].
  - intros (trs & errss & -> & -> & HF). apply Forall3_cons_inv_l in HF as (t & trs' & es & errss' & -> & -> & H1 & HF'). left.
    exists t, (concat trs'), es. split_and!; [done|done|]. apply exec_bind. left.
    exists (concat trs'), [], (concat errss'). rewrite app_nil_r. split_and!; [done| |done].
    apply IH. by exists trs', errss'.
Qed.

(** What the form's check boxes mean: none at all stands for the first container. *)
Definition effective_checks (checks : list bool) : list bool :=
  if bool_decide (checks = []) then [true] else checks.

(** C27. The pod action form treats the pods one after another, whatever the
    earlier ones reported: an execution that answers is one execution of the action
    per pod, in order; the answer lists the errors of all pods if there are any and is
    else a redirect to where the user came from, the status and image filters
    cleared. *)
Theorem performPodsAction_answers c pods images checks tr resp :
  Unmarshal_strings (PostForm c "pods") = Ok pods →
  Unmarshal_strings (PostForm c "images") = Ok images →
  Unmarshal_bools (PostForm c "checks") = Ok checks →
  exec (performPodsAction c) tr (Val resp) ↔
  ∃ trs errss, tr = concat trs
    ∧ Forall3 (λ name t es,
        exec (perform (Param c "ns") (PostForm c "action") (full_images images) (effective_checks checks) name)
          t (Val es)) pods trs errss
    ∧ resp = match concat errss with
             | [] => Redirect StatusMovedPermanently (cleared_location (PostForm c "location"))
             | errs => HTML StatusInternalServerError "errors" [("errors", VStrings errs)]
             end.
Proof.
  intros Hp Hi Hc. unfold performPodsAction. rewrite Hp, Hi, Hc. cbn [or_error]. rewrite exec_bind. split.
  - intros [(tr1 & tr2 & errs & -> & H1 & H2)|(h & _ & ?)]; [|done].
    apply exec_for_pods in H1 as (trs & errss & -> & -> & HF). exists trs, errss.
    destruct (concat errss) eqn:E; destruct H2 as [-> [= ->]]; rewrite app_nil_r; split_and!; try done.
  - intros (trs & errss & -> & HF & ->). left. exists (concat trs), [], (concat errss).
    rewrite app_nil_r. split_and!; [done|apply exec_for_pods; by exists trs, errss|].
    by destruct (concat errss).
Qed.

(** The delete action does nothing: it issues no command whatever the pods,
    and answers with the redirect of a success. *)
Theorem delete_action_does_nothing c pods images checks :
  Unmarshal_strings (PostForm c "pods") = Ok pods →
  Unmarshal_strings (PostForm c "images") = Ok images →
  Unmarshal_bools (PostForm c "checks") = Ok checks →
  PostForm c "action" = "delete" →
  performPodsAction c = Ret (Redirect StatusMovedPermanently (cleared_location (PostForm c "location"))).
Proof.
  intros Hp Hi Hc Ha. unfold performPodsAction. rewrite Hp, Hi, Hc, Ha. cbn [or_error].
  assert (∀ act, (∀ name, act name = Ret []) → for_pods act pods = Ret []) as Hfor.
  { clear Hp. intros act Hact. induction pods as [|name l IH]; [done|]. cbn [for_pods]. rewrite Hact. simpl.
    by rewrite IH. }
  rewrite Hfor by done. done.
Qed.

End pod_actions.

(** ** The configuration *)

(** What the console relies on for its own state: the two package variables hold
    what was last assigned to them, the configuration file what was last written to
    it, and a client is determined by its configuration. *)
Class ConfigStore `{K : KubeApi} {S : Type} (env : ∀ c, S → resp c * S) (file : string)
    (config_of : S → option Config) (client_of : S → option Client) (file_of : S → option string) : Prop := {
  store_get_config s : env GetKubeConfig s = (config_of s, s);
  store_set_config s cfg :
    let s' := (env (SetKubeConfig cfg) s).2 in
    config_of s' = Some cfg ∧ client_of s' = client_of s ∧ file_of s' = file_of s;
  store_set_client s cl :
    let s' := (env (SetKubeClient cl) s).2 in
    config_of s' = config_of s ∧ client_of s' = cl ∧ file_of s' = file_of s;
  store_write s data perm :
    let '(e, s') := env (WriteFile file data perm) s in
    config_of s' = config_of s ∧ client_of s' = client_of s ∧ (e = None → file_of s' = Some data);
  store_read s data : file_of s = Some data → env (ReadFile file) s = (Ok data, s);
  store_new s cfg :
    let '(r, s') := env (NewOrDie cfg) s in
    config_of s' = config_of s ∧ client_of s' = client_of s ∧ file_of s' = file_of s
    ∧ (∀ cl, r = Ok cl → cl = cfg);
}.

Section configuration.
Context `{K : KubeApi, J : !JsonApi} {S : Type} (env : ∀ c, S → resp c * S) (file : string).
Context (config_of : S → option Config) (client_of : S → option Client) (file_of : S → option string).
Context `{CS : !ConfigStore env file config_of client_of file_of}.

(** The client a configuration leads to. *)
Definition client_for (cfg : Config) : Client :=
  mkClient (APIServerURL cfg) APIVersion true (Username cfg) (Password cfg).

Lemma run_config_deref s cfg :
  config_of s = Some cfg → run env config_deref s = (Val cfg, s).
Proof. intros H. unfold config_deref. cbn. by rewrite store_get_config, H. Qed.

Lemma run_assign_config s cfg f :
  config_of s = Some cfg →
  ∃ s', run env (assign_config f) s = (Val tt, s')
    ∧ config_of s' = Some (f cfg) ∧ client_of s' = client_of s ∧ file_of s' = file_of s.
Proof.
  intros H. unfold assign_config. rewrite run_bind, (run_config_deref _ _ H). cbn.
  pose proof (store_set_config s (f cfg)) as Hset. destruct (env (SetKubeConfig (f cfg)) s) as [[] s']. by exists s'.
Qed.

Lemma run_SaveKubeConfig s cfg data :
  config_of s = Some cfg → MarshalIndent_Config (Some cfg) = Ok data →
  ∃ s', run env (SaveKubeConfig file) s = (Val tt, s')
    ∧ config_of s' = Some cfg ∧ client_of s' = client_of s
    ∧ ((env (WriteFile file data config_perm) s).1 = None → file_of s' = Some data).
Proof.
  intros H Hm. unfold SaveKubeConfig. cbn. rewrite store_get_config, H, Hm. cbn.
  pose proof (store_write s data config_perm) as Hw. destruct (env (WriteFile file data config_perm) s) as [e s'].
  destruct Hw as (Hc & Hcl & Hf). exists s'. by rewrite Hc, H.
Qed.

(** Building the client: it is set to what the configuration says, or the program
    panics with the client as it was. *)
Lemma run_connect s cfg :
  config_of s = Some cfg →
  ∃ o s', run env (cl ← getKubeClient; call (SetKubeClient (Some cl))) s = (o, s')
    ∧ config_of s' = Some cfg ∧ file_of s' = file_of s
    ∧ ((o = Val tt ∧ client_of s' = Some (client_for cfg))
       ∨ ((∃ msg, o = Halt (HPanic (Panicked msg))) ∧ client_of s' = client_of s)).
Proof.
  intros H. unfold getKubeClient, getConfigOverrides.
  rewrite !run_bind, (run_config_deref _ _ H). cbn [run]. rewrite !run_bind, (run_config_deref _ _ H).
  rewrite run_bind, (run_config_deref _ _ H). cbn. fold (client_for cfg).
  pose proof (store_new s (client_for cfg)) as Hn. destruct (env (NewOrDie (client_for cfg)) s) as [[cl|msg] s1].
  - destruct Hn as (Hc & Hcl & Hf & Heq). rewrite (Heq cl eq_refl). cbn.
    pose proof (store_set_client s1 (Some (client_for cfg))) as Hs.
    destruct (env (SetKubeClient (Some (client_for cfg))) s1) as [[] s2]. simpl in Hs. destruct Hs as (Hc2 & Hcl2 & Hf2).
    exists (Val tt), s2. split_and!; [done|by rewrite Hc2, Hc|by rewrite Hf2|by left].
  - destruct Hn as (Hc & Hcl & Hf & _). cbn. eexists _, s1. split_and!; [done|by rewrite Hc|done|right]. by eauto.
Qed.

(** Init with a configuration only connects; without one it loads the file. *)
Lemma run_Init_configured s cfg :
  config_of s = Some cfg →
  run env (Init file) s = run env (cl ← getKubeClient; call (SetKubeClient (Some cl))) s.
Proof. intros H. unfold Init. cbn [run call mbind prog_bind prog_bind_def]. rewrite store_get_config, H. reflexivity. Qed.

Lemma run_Init_load s data cfg :
  config_of s = None → file_of s = Some data → Unmarshal_Config data default_Config = (cfg, None) →
  ∃ o s', run env (Init file) s = (o, s') ∧ config_of s' = Some cfg
    ∧ (o = Val tt → client_of s' = Some (client_for cfg)).
Proof.
  intros H Hf Hu. unfold Init. rewrite run_bind. cbn [run call]. rewrite store_get_config, H.
  rewrite run_bind. unfold loadKubeConfig. cbn [run call mbind prog_bind prog_bind_def].
  pose proof (store_set_config s default_Config) as H1. destruct (env (SetKubeConfig default_Config) s) as [[] s1].
  simpl in H1. destruct H1 as (_ & _ & Hf1). cbn. rewrite (store_read s1 data) by by rewrite Hf1. cbn. rewrite Hu. cbn.
  pose proof (store_set_config s1 cfg) as H2. destruct (env (SetKubeConfig cfg) s1) as [[] s2].
  simpl in H2. destruct H2 as (Hc2 & _ & _).
  destruct (run_connect s2 cfg Hc2) as (o & s3 & Hrun & Hc3 & _ & Hcl).
  exists o, s3. split_and!; [exact Hrun|done|]. intros ->. by destruct Hcl as [[_ ?]|[[msg ?] _]].
Qed.

(** The configuration a request submits. *)
Definition submitted (c : Context) : Config :=
  mkConfig (PostForm c "inputAPIServerURL") (PostForm c "inputUsername") (PostForm c "inputPassword").

(** C28. An update of the configuration by the administrator always takes effect on
    the configuration and the file (if it can be written), before it is known to work:
    either the client is then the one for the new configuration and the answer is a
    redirect, or building it panics and the old client stays beside the new
    configuration.  A console started afresh on the saved file (decoding giving back
    what was encoded) has the new configuration. *)
Theorem updateConfig_takes_effect s c old data :
  Keys c !! AuthUserKey = Some "admin" → config_of s = Some old →
  MarshalIndent_Config (Some (submitted c)) = Ok data →
  Unmarshal_Config data default_Config = (submitted c, None) →
  (∀ s, (env (WriteFile file data config_perm) s).1 = None) →
  ∃ o s', run env (updateConfig file c) s = (o, s')
    ∧ config_of s' = Some (submitted c) ∧ file_of s' = Some data
    ∧ ((o = Val (Redirect StatusMovedPermanently "/") ∧ client_of s' = Some (client_for (submitted c)))
       ∨ ((∃ msg, o = Halt (HPanic (Panicked msg))) ∧ client_of s' = client_of s))
    ∧ ∀ fresh, config_of fresh = None → file_of fresh = file_of s' →
        ∃ o2 s2, run env (Init file) fresh = (o2, s2) ∧ config_of s2 = Some (submitted c)
          ∧ (o2 = Val tt → client_of s2 = Some (client_for (submitted c))).
Proof.
  intros Huser Hcfg Hm Hu Hw. unfold updateConfig, MustGet. rewrite Huser.
  change (lift (Val "admin") ≫= ?f) with (f "admin"). cbv beta. rewrite bool_decide_eq_true_2 by done. cbn [negb].
  destruct (run_assign_config s old (λ cfg, mkConfig (PostForm c "inputAPIServerURL") (Username cfg) (Password cfg)) Hcfg)
    as (s1 & E1 & H1 & L1 & _).
  destruct (run_assign_config s1 _ (λ cfg, mkConfig (APIServerURL cfg) (PostForm c "inputUsername") (Password cfg)) H1)
    as (s2 & E2 & H2 & L2 & _).
  destruct (run_assign_config s2 _ (λ cfg, mkConfig (APIServerURL cfg) (Username cfg) (PostForm c "inputPassword")) H2)
    as (s3 & E3 & H3 & L3 & _).
  destruct (run_SaveKubeConfig s3 (submitted c) data H3 Hm) as (s4 & E4 & H4 & L4 & F4).
  destruct (run_connect s4 (submitted c) H4) as (o & s5 & E5 & H5 & F5 & L5).
  rewrite <- (run_Init_configured s4 _ H4) in E5.
  rewrite run_bind, E1, run_bind, E2, run_bind, E3, run_bind, E4, run_bind, E5.
  assert (file_of s5 = Some data) as Hf by by rewrite F5, F4.
  assert (∀ fresh, config_of fresh = None → file_of fresh = file_of s5 →
    ∃ o2 s2, run env (Init file) fresh = (o2, s2) ∧ config_of s2 = Some (submitted c)
      ∧ (o2 = Val tt → client_of s2 = Some (client_for (submitted c)))) as Hfresh.
  { intros fresh Hno Hff. apply (run_Init_load fresh data); [done|by rewrite Hff|done]. }
  destruct L5 as [[-> L5]|[[msg ->] L5]]; eexists _, s5; split_and!; try done.
  - by left.
  - right. split; [by eexists|]. by rewrite L5, L4, L3, L2, L1.
Qed.

End configuration.

(** ** Witnesses *)

Section witnesses.
#[local] Existing Instances demo_KubeApi insertion_GoSort insertion_GoSortLaws list_MapRange amd64 demo_EventOrder
  demo_TimeFormat demo_JsonApi demo_NodeReference.

(** A pod that runs a public image. *)
Definition public_row (name : string) (birth : Z) : page.Pod :=
  page.mkPod "default" name [page.mkPodImage "nginx" false] 1 1 "Running" 0 "1d" "1d" birth false "10.0.0.1" "" []
    None None.

Definition demo_image_query (image : string) : Context := mkContext [] {["image" := [image]]} ∅ ∅ ∅ ∅.

(** Filtering by the image both pods run shows neither. *)
Lemma select_pods_spec_witness :
  select_pods (demo_image_query "nginx") [public_row "a" 1; public_row "b" 2] = [].
Proof.
  apply (proj2 (proj2 (proj2 (select_pods_spec (demo_image_query "nginx") [public_row "a" 1; public_row "b" 2])))
    "nginx" eq_refl ltac:(discriminate)).
  repeat constructor; vm_compute; intros Hin; inversion Hin as [|? ? ? Hin']; inversion Hin'.
Defined.

Definition demo_rc : api.ReplicationController :=
  api.mkReplicationController (demo_meta "web") 0 None None 0 ∅.

Definition demo_rc_start : demo_state :=
  mkState (Some demo_config) (Some demo_client) ∅ ∅ {[("default", "web") := demo_rc]} 1000.

Definition demo_rc_request : Context := demo_request [("ns", "default"); ("rc", "web")] ∅.

Definition demo_rc_trace : list event := trace demo_env (deleteReplicationController demo_rc_request) demo_rc_start.

Lemma deleteReplicationController_only_empty_witness :
  ∃ e' rc, e' ∈ take 3 demo_rc_trace ∧ rc_read e' = Some ("default", "web", rc)
     ∧ (api.RC_Spec_Replicas rc <= 0)%Z ∧ (api.RC_Status_Replicas rc <= 0)%Z.
Proof.
  assert (demo_rc_trace = take 3 demo_rc_trace ++ Ev (RCs_Delete demo_client "default" "web") None :: []) as Heq
    by (vm_cast_no_check (eq_refl demo_rc_trace)).
  exact (proj2 (deleteReplicationController_only_empty demo_rc_request _ _ _ _ _ ("default", "web")
    (exec_trace demo_env (deleteReplicationController demo_rc_request) demo_rc_start) Heq eq_refl)).
Defined.

Definition demo_action_request (action : string) : Context :=
  demo_request [("ns", "default")]
    {["action" := [action]; "pods" := ["web-1"]; "images" := [""]; "checks" := ["true"];
      "location" := ["/namespaces/default/pods?status=Running&host=h"]]}.

Definition demo_action : prog response := performPodsAction (demo_action_request "stop").

Lemma demo_action_answer :
  (run demo_env demo_action demo_start).1
  = Val (Redirect StatusMovedPermanently "/namespaces/default/pods?status=&host=h").
Proof. vm_cast_no_check (eq_refl (Val (Redirect StatusMovedPermanently "/namespaces/default/pods?status=&host=h"))). Qed.

Lemma performPodsAction_answers_witness :
  ∃ trs errss, trace demo_env demo_action demo_start = concat trs
    ∧ Forall3 (λ name t es,
        exec (perform "default" "stop" (full_images [""]) (effective_checks [true]) name) t (Val es)) ["web-1"] trs errss.
Proof.
  destruct (proj1 (@performPodsAction_answers demo_KubeApi list_MapRange demo_JsonApi (demo_action_request "stop") ["web-1"] [""] [true]
    (trace demo_env demo_action demo_start)
    (Redirect StatusMovedPermanently "/namespaces/default/pods?status=&host=h")
    ltac:(vm_compute; reflexivity) ltac:(vm_compute; reflexivity) ltac:(vm_compute; reflexivity)))
    as (trs & errss & H1 & H2 & _).
  - rewrite <- demo_action_answer. exact (exec_trace demo_env demo_action demo_start).
  - exists trs, errss. split; [exact H1|exact H2].
Defined.

Lemma delete_action_does_nothing_witness :
  performPodsAction (demo_action_request "delete")
  = Ret (Redirect StatusMovedPermanently (cleared_location "/namespaces/default/pods?status=Running&host=h")).
Proof.
  exact (@delete_action_does_nothing demo_KubeApi list_MapRange demo_JsonApi (demo_action_request "delete") ["web-1"] [""] [true]
    ltac:(vm_compute; reflexivity) ltac:(vm_compute; reflexivity) ltac:(vm_compute; reflexivity) ltac:(vm_compute; reflexivity)).
Defined.

Lemma demo_ConfigStore :
  ConfigStore demo_env "kubeconfig.json" st_config st_client (λ s, st_files s !! "kubeconfig.json").
Proof.
  split; try done.
  - intros s data perm. simpl. split_and!; [done|done|]. intros _. by rewrite lookup_insert_eq.
  - intros s data H. simpl. by rewrite H.
  - intros s cfg. simpl. split_and!; [done|done|done|]. intros cl. case_bool_decide; [done|]. by intros [= ->].
Qed.

Definition demo_config_request : Context :=
  demo_request [] {["inputAPIServerURL" := ["https://new"]; "inputUsername" := ["me"]; "inputPassword" := ["pw"]]}.

Lemma updateConfig_takes_effect_witness :
  ∃ o s', run demo_env (updateConfig "kubeconfig.json" demo_config_request) demo_start = (o, s')
    ∧ st_config s' = Some (mkConfig "https://new" "me" "pw").
Proof.
  destruct (@updateConfig_takes_effect demo_KubeApi demo_JsonApi demo_state demo_env "kubeconfig.json" st_config st_client _ demo_ConfigStore
    demo_start demo_config_request demo_config (demo_config_text (submitted demo_config_request))
    ltac:(vm_compute; reflexivity) eq_refl ltac:(vm_compute; reflexivity) ltac:(vm_compute; reflexivity) (λ s, eq_refl)) as (o & s' & H1 & H2 & _).
  exists o, s'. split; [exact H1|exact H2].
Defined.

End witnesses.
