(* ===== verification/Concurrent.v ===== *)
(** * Requests that run at the same time

    net/http serves every request in a goroutine of its own, and the console has no
    lock: the commands of concurrent requests interleave, with each other and with
    what other clients do to the cluster.  A pool of programs takes steps, one command
    of one program at a time, against one server.  [VersionedPods] states the
    optimistic concurrency control the API server documents.  The main theorem: under
    every interleaving, a pod changes only by whole edits of the action forms, each
    made of the pod stored at that moment; no edit is lost.  The handlers that do not
    rely on versions have races, each shown by a concrete interleaving. *)

From stdpp Require Import prelude gmap strings relations.
From Stdlib Require Import ZArith NArith Ascii.
From S2P Require Import Prelude GoStrings GoSort Float64 Api Page Versions KubeUtil Client Render PodActions Http Handlers Demo Server HandlerSpec.

Section pool.
Context `{K : KubeApi} {S A : Type} (env : ∀ c, S → resp c * S) (other : S → S → Prop).

(** Each thread with the interactions it had so far. *)
Record conf : Type := mkConf { threads : list (list event * prog A); shared : S }.

Inductive step : conf → conf → Prop :=
| step_thread i tr c k pool s r s' :
    pool !! i = Some (tr, Do c k) → env c s = (r, s') →
    step (mkConf pool s) (mkConf (<[i := (tr ++ [Ev c r], k r)]> pool) s')
| step_other pool s s' : other s s' → step (mkConf pool s) (mkConf pool s').

Definition initial (ps : list (prog A)) (s : S) : conf := mkConf ((λ p, ([], p)) <$> ps) s.

(** [p] has had the interactions [tr] and goes on as [q]. *)
Inductive emits (p : prog A) : list event → prog A → Prop :=
| emits_nil : emits p [] p
| emits_snoc tr c k r : emits p tr (Do c k) → emits p (tr ++ [Ev c r]) (k r).

Lemma emits_exec p tr q tr' o : emits p tr q → exec q tr' o → exec p (tr ++ tr') o.
Proof.
  intros He. revert tr'. induction He as [|tr c k r _ IH]; intros tr' Hq; [done|].
  rewrite <- app_assoc. apply IH. simpl. eauto.
Qed.

(** Every command has an answer. *)
Lemma resp_inhabited c : inhabited (resp c).
Proof.
  constructor.
  destruct c; simpl;
    first [exact 0%Z | exact tt | exact None | exact (None, None) | exact (Err "") ].
Qed.

Lemma exec_exists (q : prog A) : ∃ tr o, exec q tr o.
Proof.
  induction q as [a|h|c k IH]; [by exists [], (Val a)|by exists [], (Halt h)|].
  destruct (resp_inhabited c) as [r]. destruct (IH r) as (tr & o & He).
  exists (Ev c r :: tr), o. simpl. eauto.
Qed.

End pool.

Arguments mkConf {K S A} _ _.
Arguments threads {K S A} _.
Arguments shared {K S A} _.

(** ** Versioned pods *)

Abbreviation version pod := (api.ResourceVersion (api.Pod_ObjectMeta pod)).
Abbreviation pod_name pod := (api.Name (api.Pod_ObjectMeta pod)).

(** What the API server and its other clients do to pods.  [seen s ns name v]: some
    pod of that name has or had the version [v].  Every stored pod has a version; a
    pod that changes gets a version not seen before; an update that carries a version
    is stored only when that is the stored version. *)
Class VersionedPods `{K : KubeApi} {S : Type} (env : ∀ c, S → resp c * S)
    (pod_at : S → string → string → option api.Pod) (seen : S → string → string → string → Prop)
    (other : S → S → Prop) : Prop := {
  stored_seen s ns name pod : pod_at s ns name = Some pod → seen s ns name (version pod) ∧ version pod ≠ "";
  seen_env c s ns name v : seen s ns name v → seen (env c s).2 ns name v;
  seen_other s s' ns name v : other s s' → seen s ns name v → seen s' ns name v;
  fresh_env c s ns name pod :
    pod_at (env c s).2 ns name = Some pod → pod_at s ns name = Some pod ∨ ¬ seen s ns name (version pod);
  fresh_other s s' ns name pod :
    other s s' → pod_at s' ns name = Some pod → pod_at s ns name = Some pod ∨ ¬ seen s ns name (version pod);
  get_stored s cl ns name pod :
    (env (Pods_Get cl ns name) s).1 = (Some pod, None) → pod_at s ns name = Some pod ∧ pod_name pod = name;
  only_updates c s : (∀ cl ns pod, c ≠ Pods_Update cl ns pod) → pod_at (env c s).2 = pod_at s;
  update_effect s cl ns pod :
    let '(r, s') := env (Pods_Update cl ns pod) s in
    version pod ≠ "" →
    (r.2 ≠ None ∧ pod_at s' = pod_at s)
    ∨ (∃ cur stored, pod_at s ns (pod_name pod) = Some cur ∧ version cur = version pod
         ∧ pod_at s' ns (pod_name pod) = Some stored ∧ same_pod stored pod
         ∧ ∀ ns' name', (ns', name') ≠ (ns, pod_name pod) → pod_at s' ns' name' = pod_at s ns' name');
}.

Section atomic.
Context `{K : KubeApi, MR : MapRange} {S A : Type} (env : ∀ c, S → resp c * S)
  (pod_at : S → string → string → option api.Pod) (seen : S → string → string → string → Prop)
  (other : S → S → Prop) `{VP : !VersionedPods env pod_at seen other}.

(** Programs whose writes of pods are edits of pods they read. *)
Definition edits (E : string → string → api.Pod → api.Pod → Prop) (p : prog A) : Prop :=
  ∀ tr o, exec p tr o → writes_follow_reads (λ w r, ∃ ns name, edit_of_read ns name (E ns name) w r) tr.

Context (ps : list (prog A)) (E : nat → string → string → api.Pod → api.Pod → Prop).
Context (Hedits : ∀ i p, ps !! i = Some p → edits (E i) p).

(** One change of a pod: a whole edit of it by a thread, or the doing of others. *)
Definition pod_change (ns name : string) (o o' : option api.Pod) : Prop :=
  (∃ i cur pod' stored, i < length ps ∧ o = Some cur ∧ o' = Some stored
     ∧ E i ns name cur pod' ∧ same_pod stored pod')
  ∨ (∃ s1 s2, other s1 s2 ∧ o = pod_at s1 ns name ∧ o' = pod_at s2 ns name).

(** A pod read is the stored one as long as the stored one has its version. *)
Definition reads_current (s : S) (tr : list event) : Prop :=
  ∀ e r, e ∈ tr → pod_read e = Some r → rd_err r = None →
  pod_name (rd_pod r) = rd_name r ∧ version (rd_pod r) ≠ ""
  ∧ seen s (rd_ns r) (rd_name r) (version (rd_pod r))
  ∧ ∀ cur, pod_at s (rd_ns r) (rd_name r) = Some cur → version cur = version (rd_pod r) → cur = rd_pod r.

Definition pool_inv (c : conf) : Prop :=
  ∀ i tr q, threads c !! i = Some (tr, q) → ∃ p, ps !! i = Some p ∧ emits p tr q ∧ reads_current (shared c) tr.

(** A later state: what was seen is still seen, what is new was not. *)
Definition later (s s' : S) : Prop :=
  (∀ ns name v, seen s ns name v → seen s' ns name v)
  ∧ (∀ ns name pod, pod_at s' ns name = Some pod → pod_at s ns name = Some pod ∨ ¬ seen s ns name (version pod)).

Lemma later_env c s : later s (env c s).2.
Proof. split; [intros ???; apply seen_env|intros ???; apply fresh_env]. Qed.

Lemma later_other s s' : other s s' → later s s'.
Proof. intros Ho. split; [intros ???; by apply seen_other|intros ???; by apply fresh_other]. Qed.

Lemma reads_current_later s s' tr : later s s' → reads_current s tr → reads_current s' tr.
Proof.
  intros [Hseen Hfresh] H e r He Hr Herr. destruct (H e r He Hr Herr) as (Hn & Hv & Hs & Hcur).
  split_and!; [done|done|by apply Hseen|]. intros cur Hat Hver.
  destruct (Hfresh _ _ _ Hat) as [Hat'|Hnot]; [by apply Hcur|]. by rewrite Hver in Hnot.
Qed.

(** An interaction that happens now keeps the reads of its thread current. *)
Lemma reads_current_snoc s c r s' tr :
  env c s = (r, s') → reads_current s tr → reads_current s' (tr ++ [Ev c r]).
Proof.
  intros Henv H. pose proof (later_env c s) as Hl. rewrite Henv in Hl. simpl in Hl.
  intros e rd [Hin|Hin]%elem_of_app Hr Herr; [by apply (reads_current_later s s' tr Hl H e)|].
  apply list_elem_of_singleton in Hin as ->.
  destruct c; try done. simpl in Hr. destruct r as [[pod|] err]; [|done]. injection Hr as <-. simpl in *. subst err.
  destruct (get_stored s cl ns name pod) as [Hat Hname]; [by rewrite Henv|].
  destruct (stored_seen s ns name pod Hat) as [Hs Hv]. destruct Hl as [Hseen _].
  split_and!; [done|done|by apply Hseen|]. intros cur Hcur _.
  assert (pod_at s' = pod_at s) as Hkeep.
  { replace s' with (env (Pods_Get cl ns name) s).2 by (by rewrite Henv). apply only_updates. done. }
  rewrite Hkeep, Hat in Hcur. by injection Hcur.
Qed.

Lemma pool_inv_initial s : pool_inv (initial ps s).
Proof.
  intros i tr q Hi. simpl in Hi. rewrite list_lookup_fmap in Hi.
  destruct (ps !! i) as [p|] eqn:Hp; [|done]. injection Hi as <- <-. exists p.
  split_and!; [done|constructor|]. by intros e r ?%not_elem_of_nil.
Qed.

Lemma pool_inv_step c c' : step env other c c' → pool_inv c → pool_inv c'.
Proof.
  intros Hstep Hinv. destruct Hstep as [i tr cm k pool s r s' Hi Henv|pool s s' Ho]; intros j tr' q Hj; simpl in *.
  - destruct (Hinv i _ _ Hi) as (p & Hp & Hem & Hrc). simpl in Hrc.
    destruct (decide (j = i)) as [->|Hne].
    + rewrite list_lookup_insert_eq in Hj by (by eapply lookup_lt_Some). injection Hj as <- <-.
      exists p. split_and!; [done|by constructor|by eapply reads_current_snoc].
    + rewrite list_lookup_insert_ne in Hj by done. destruct (Hinv j _ _ Hj) as (p' & Hp' & Hem' & Hrc').
      exists p'. split_and!; [done|done|]. eapply reads_current_later; [|exact Hrc'].
      replace s' with (env cm s).2 by (by rewrite Henv). apply later_env.
  - destruct (Hinv j _ _ Hj) as (p & Hp & Hem & Hrc). exists p. split_and!; [done|done|].
    eapply reads_current_later; [by apply later_other|done].
Qed.

Lemma update_or_not (c : cmd) :
  (∃ cl ns pod, c = Pods_Update cl ns pod) ∨ (∀ cl ns pod, c ≠ Pods_Update cl ns pod).
Proof. destruct c; try (by right). left. eauto. Qed.

(** The pod a thread is about to write is an edit of a pod it read. *)
Lemma next_write p i tr cl ns pod k :
  ps !! i = Some p → emits p tr (Do (Pods_Update cl ns pod) k) →
  ∃ e r name, e ∈ tr ∧ pod_read e = Some r ∧ edit_of_read ns name (E i ns name) (ns, pod) r.
Proof.
  intros Hp Hem. set (ans := (None, None) : resp (Pods_Update cl ns pod)).
  destruct (exec_exists (k ans)) as (tr' & o & Hex).
  assert (exec p (tr ++ Ev (Pods_Update cl ns pod) ans :: tr') o) as Hall.
  { eapply emits_exec; [done|]. exists ans, tr'. done. }
  destruct (Hedits i p Hp _ _ Hall tr _ tr' _ eq_refl eq_refl) as (e & r & He & Hr & ns' & name & Hed).
  pose proof (proj1 (proj1 Hed)) as Hns. simpl in Hns. subst ns'. by exists e, r, name.
Qed.

(** A thread's command changes no pod, or one, by an edit of the stored pod. *)
Lemma thread_change i tr cm k pool s r s' :
  pool_inv (mkConf pool s) → pool !! i = Some (tr, Do cm k) → env cm s = (r, s') →
  ∀ ns name, pod_at s' ns name = pod_at s ns name ∨ pod_change ns name (pod_at s ns name) (pod_at s' ns name).
Proof.
  intros Hinv Hi Henv ns name.
  assert (s' = (env cm s).2) as Hs' by (by rewrite Henv).
  destruct (update_or_not cm) as [(cl & ns0 & pod & ->)|Hno]; cycle 1.
  { left. by rewrite Hs', only_updates. }
  destruct (Hinv i _ _ Hi) as (p & Hp & Hem & Hrc).
  destruct (next_write p i tr cl ns0 pod k Hp Hem) as (e & rd & nm & He & Hr & (_ & Hns & Hnm & Herr & Hname & Hver) & HE).
  simpl in *. destruct (Hrc e rd He Hr Herr) as (Hrn & Hrv & _ & Hcur).
  pose proof (update_effect s cl ns0 pod) as Hup. rewrite Henv in Hup.
  destruct Hup as [[_ Hkeep]|(cur & stored & Hat & Hv & Hst & Hsame & Hoth)]; [by rewrite Hver|left; by rewrite Hkeep|].
  assert (pod_name pod = nm) as Hpn by congruence. rewrite Hpn in *.
  destruct (decide ((ns, name) = (ns0, nm))) as [[= -> ->]|Hne]; [|left; by apply Hoth].
  right. left. exists i, cur, pod, stored. split_and!; [by eapply lookup_lt_Some|done|done| |done].
  rewrite <- (Hcur cur) in HE; [done|by rewrite Hns, Hnm|by rewrite Hv].
Qed.

(** Under every interleaving, each pod gets from its first to its last state by
    whole edits of what is stored. *)
Lemma pods_change_atomically s c :
  rtc (step env other) (initial ps s) c →
  pool_inv c ∧ ∀ ns name, rtc (pod_change ns name) (pod_at s ns name) (pod_at (shared c) ns name).
Proof.
  revert c. apply rtc_ind_r.
  - split; [apply pool_inv_initial|done].
  - intros c c' _ Hstep [Hinv Hch]. split; [by eapply pool_inv_step|]. intros ns name.
    destruct Hstep as [i tr cm k pool s1 r s2 Hi Henv|pool s1 s2 Ho]; simpl in *.
    + destruct (thread_change i tr cm k pool s1 r s2 Hinv Hi Henv ns name) as [->|Hc]; [apply Hch|].
      eapply rtc_r; [apply Hch|done].
    + eapply rtc_r; [apply Hch|]. right. by exists s1, s2.
Qed.

End atomic.

(** ** Concurrent action forms *)

Section action_forms.
Context `{K : KubeApi, MR : MapRange, J : !JsonApi}.

(** What the action form [c] may make of the pod [name] of [ns]. *)
Definition request_edit (c : Context) (ns name : string) (pod pod' : api.Pod) : Prop :=
  ns = Param c "ns" ∧ ∃ pods images checks,
    Unmarshal_strings (PostForm c "pods") = Ok pods ∧ name ∈ pods
    ∧ Unmarshal_strings (PostForm c "images") = Ok images
    ∧ Unmarshal_bools (PostForm c "checks") = Ok checks
    ∧ pod_edit (PostForm c "action") (full_images images) (effective_checks checks) pod pod'.

Lemma for_pods_follows R act pods tr o :
  (∀ name tr o, name ∈ pods → exec (act name) tr o → writes_follow_reads R tr) →
  exec (for_pods act pods) tr o → writes_follow_reads R tr.
Proof.
  revert tr o. induction pods as [|name pods IH]; intros tr o Hact; [apply writes_follow_reads_Ret|].
  cbn [for_pods]. apply writes_follow_reads_bind; [intros ??; apply Hact; by left|].
  intros errs tr' o'. apply writes_follow_reads_bind; [|intros ???; apply writes_follow_reads_Ret].
  intros ??. apply IH. intros nm ???. apply Hact. by right.
Qed.

Lemma or_error_follows {B} R (x : result string B) (f : B → prog response) tr o :
  (∀ b tr o, x = Ok b → exec (f b) tr o → writes_follow_reads R tr) →
  exec (or_error x f) tr o → writes_follow_reads R tr.
Proof. intros Hf. destruct x as [b|e]; [by apply Hf|apply writes_follow_reads_Ret]. Qed.

Lemma performPodsAction_edits c : edits (request_edit c) (performPodsAction c).
Proof.
  intros tr o. apply or_error_follows. intros pods tr' o' Hpods.
  apply or_error_follows. clear tr' o'. intros images tr' o' Himages.
  apply or_error_follows. clear tr' o'. intros checks tr' o' Hchecks.
  apply writes_follow_reads_bind; [|intros [] ??; apply writes_follow_reads_Ret].
  intros tr1 o1. apply for_pods_follows. intros name tr2 o2 Hin He%perform_edits.
  eapply writes_follow_reads_impl; [|exact He]. intros w r [Hv Hed].
  exists (Param c "ns"), name. split; [done|]. split; [done|]. by exists pods, images, checks.
Qed.

Context {S : Type} (env : ∀ c, S → resp c * S)
  (pod_at : S → string → string → option api.Pod) (seen : S → string → string → string → Prop)
  (other : S → S → Prop) `{VP : !VersionedPods env pod_at seen other}.

(** One change of a pod: a whole edit by one of the requests, or the doing of others. *)
Definition action_change (reqs : list Context) (ns name : string) (o o' : option api.Pod) : Prop :=
  (∃ c cur pod' stored, c ∈ reqs ∧ o = Some cur ∧ o' = Some stored
     ∧ request_edit c ns name cur pod' ∧ same_pod stored pod')
  ∨ (∃ s1 s2, other s1 s2 ∧ o = pod_at s1 ns name ∧ o' = pod_at s2 ns name).

(** C2. Action forms are atomic: however the commands of any number of concurrent
    action requests interleave, with each other and with other clients of the
    cluster, every pod gets from its first state to its last by a sequence of changes
    each of which is a change by others or a whole edit of one request, made of
    exactly the pod that is stored at that moment.  In particular no request
    overwrites a change it has not seen. *)
Theorem concurrent_actions_are_atomic reqs s c :
  rtc (step env other) (initial (performPodsAction <$> reqs) s) c →
  ∀ ns name, rtc (action_change reqs ns name) (pod_at s ns name) (pod_at (shared c) ns name).
Proof.
  intros Hsteps ns name.
  set (E i := match reqs !! i with Some c => request_edit c | None => λ _ _ _ _, False end).
  destruct (pods_change_atomically env pod_at seen other (performPodsAction <$> reqs) E) with s c as [_ Hch]; [|done|].
  { intros i p. rewrite list_lookup_fmap. unfold E. destruct (reqs !! i) as [q|]; [|done].
    intros [= <-]. apply performPodsAction_edits. }
  eapply rtc_subrel; [|apply Hch]. intros o o' [(i & cur & pod' & st & _ & Ho & Ho' & HE & Hs)|?]; [left|by right].
  unfold E in HE. destruct (reqs !! i) as [q|] eqn:Hq; [|done]. exists q, cur, pod', st.
  split_and!; try done. by eapply list_elem_of_lookup_2.
Qed.

End action_forms.

(** ** Schedules *)

Section schedule.
Context `{K : KubeApi} {S A : Type} (env : ∀ c, S → resp c * S) (other : S → S → Prop).

(** The thread [i] takes a step, if it can. *)
Definition turn (c : @conf K S A) (i : nat) : conf :=
  match threads c !! i with
  | Some (tr, Do cm k) =>
      let '(r, s') := env cm (shared c) in mkConf (<[i := (tr ++ [Ev cm r], k r)]> (threads c)) s'
  | _ => c
  end.

Definition schedule (turns : list nat) (c : conf) : conf := foldl turn c turns.

Lemma schedule_steps turns c : rtc (step env other) c (schedule turns c).
Proof.
  revert c. induction turns as [|i turns IH]; intros c; [done|]. simpl.
  transitivity (turn c i); [|apply IH]. unfold turn.
  destruct (threads c !! i) as [[tr [a|h|cm k]]|] eqn:Hi; try done.
  destruct (env cm (shared c)) as [r s'] eqn:Henv. apply rtc_once. destruct c as [pool s]. by apply step_thread.
Qed.

(** What the threads have come to. *)
Definition outcomes (c : @conf K S A) : list (option A) :=
  (λ t, match t.2 with Ret a => Some a | _ => None end) <$> threads c.

End schedule.

(** ** Witness *)

#[local] Existing Instances demo_KubeApi list_MapRange demo_JsonApi.

(** The demonstration server, for pods stored under their name with a version. *)
Definition demo_stored (s : demo_state) (ns name : string) : option api.Pod :=
  match st_pods s !! (ns, name) with
  | Some pod => if bool_decide (pod_name pod = name ∧ version pod ≠ "") then Some pod else None
  | None => None
  end.

Definition versioned_env (c : cmd) (s : demo_state) : resp c * demo_state :=
  match c return resp c * demo_state with
  | Pods_Get _ ns name => (lookup_or_error (demo_stored s ns name), s)
  | Pods_Update _ ns pod =>
      match demo_stored s ns (pod_name pod) with
      | None => ((None, Some "not found"), s)
      | Some _ => demo_update_pod ns pod s
      end
  | c => demo_env c s
  end.

(** Versions only get longer. *)
Definition demo_seen (s : demo_state) (ns name v : string) : Prop :=
  ∃ pod, demo_stored s ns name = Some pod ∧ String.length v ≤ String.length (version pod).

Lemma demo_stored_Some s ns name pod :
  demo_stored s ns name = Some pod ↔ st_pods s !! (ns, name) = Some pod ∧ pod_name pod = name ∧ version pod ≠ "".
Proof.
  unfold demo_stored. destruct (st_pods s !! (ns, name)) as [p|]; [|naive_solver].
  case_bool_decide; naive_solver.
Qed.

(** An update is a conflict, or stores the pod with a longer version. *)
Lemma demo_update_cases cl ns pod s :
  (∃ e, versioned_env (Pods_Update cl ns pod) s = ((None, Some e), s))
  ∨ ∃ cur stored s', versioned_env (Pods_Update cl ns pod) s = ((Some stored, None), s')
      ∧ demo_stored s ns (pod_name pod) = Some cur ∧ version cur = version pod
      ∧ stored = set_Pod_Meta (set_ResourceVersion (version cur +:+ "'") (api.Pod_ObjectMeta pod)) pod
      ∧ s' = set_pods (<[(ns, pod_name pod) := stored]> (st_pods s)) s.
Proof.
  cbn [versioned_env]. destruct (demo_stored s ns (pod_name pod)) as [cur|] eqn:Hcur; [|left; eauto].
  pose proof (proj1 (demo_stored_Some _ _ _ _) Hcur) as (Hat & Hname & Hv).
  unfold demo_update_pod. rewrite Hat. case_bool_decide as Hver; [right|left; eauto].
  eexists cur, _, _. split_and!; done.
Qed.

Lemma demo_stored_update s ns name stored ns' name' :
  pod_name stored = name → version stored ≠ "" →
  demo_stored (set_pods (<[(ns, name) := stored]> (st_pods s)) s) ns' name' =
  if decide ((ns', name') = (ns, name)) then Some stored else demo_stored s ns' name'.
Proof.
  intros Hn Hv. unfold demo_stored. simpl. destruct (decide _) as [[= -> ->]|Hne].
  - rewrite lookup_insert_eq. by rewrite bool_decide_eq_true_2.
  - by rewrite lookup_insert_ne.
Qed.

Lemma longer_version v : String.length (v +:+ "'") = (String.length v + 1)%nat.
Proof. by rewrite slength_app. Qed.

Lemma demo_seen_update s ns name cur stored ns' name' v :
  demo_stored s ns name = Some cur → pod_name stored = name → version stored = version cur +:+ "'" →
  demo_seen s ns' name' v →
  demo_seen (set_pods (<[(ns, name) := stored]> (st_pods s)) s) ns' name' v.
Proof.
  intros Hcur Hn Hv (pod & Hat & Hlen). unfold demo_seen.
  rewrite demo_stored_update by (done || (rewrite Hv; by destruct (version cur))).
  destruct (decide _) as [[= -> ->]|Hne]; [|eauto]. exists stored. split; [done|].
  rewrite Hcur in Hat. injection Hat as <-. rewrite Hv, longer_version. lia.
Qed.

Lemma demo_VersionedPods : VersionedPods versioned_env demo_stored demo_seen (λ _ _, False).
Proof.
  assert (∀ c s, (∀ cl ns pod, c ≠ Pods_Update cl ns pod) → demo_stored (versioned_env c s).2 = demo_stored s) as Hkeep.
  { intros c s Hc. destruct c; try reflexivity. by destruct (Hc cl ns pod). }
  assert (∀ c s ns name v, (∀ cl ns pod, c ≠ Pods_Update cl ns pod) → demo_seen s ns name v →
            demo_seen (versioned_env c s).2 ns name v) as Hkeep'.
  { intros c s ns name v Hc. unfold demo_seen. by rewrite Hkeep. }
  split; try done.
  - intros s ns name pod Hat. split; [by exists pod|]. by apply demo_stored_Some in Hat as (_ & _ & ?).
  - intros c s ns name v Hs. destruct (update_or_not c) as [(cl & ns0 & pod & ->)|Hno]; [|by apply Hkeep'].
    destruct (demo_update_cases cl ns0 pod s) as [(e & ->)|(cur & st & s' & -> & Hcur & Hv & -> & ->)]; [done|].
    by eapply demo_seen_update.
  - intros c s ns name pod. destruct (update_or_not c) as [(cl & ns0 & p & ->)|Hno]; [|rewrite Hkeep; auto].
    destruct (demo_update_cases cl ns0 p s) as [(e & ->)|(cur & st & s' & -> & Hcur & Hv & Hst & ->)]; [auto|].
    cbn [snd]. rewrite demo_stored_update; [|by subst st|subst st; simpl; by destruct (version cur)].
    destruct (decide _) as [[= -> ->]|Hne]; [|auto]. intros [= <-]. right. intros (q & Hq & Hlen).
    rewrite Hcur in Hq. injection Hq as <-. subst st. simpl in Hlen. rewrite longer_version in Hlen. lia.
  - intros s cl ns name pod. simpl. destruct (demo_stored s ns name) as [p|] eqn:Hp; [|done]. simpl.
    intros [= ->]. split; [done|]. by apply demo_stored_Some in Hp as (_ & ? & _).
  - intros s cl ns pod. destruct (demo_update_cases cl ns pod s) as [(e & ->)|(cur & st & s' & -> & Hcur & Hv & Hst & ->)];
      intros Hne; [by left|right].
    assert (pod_name st = pod_name pod ∧ version st ≠ "") as [Hn Hv'] by (subst st; split; [done|simpl; by destruct (version cur)]).
    exists cur, st. split_and!; [done|done| |by subst st|].
    + rewrite demo_stored_update by done. by rewrite decide_True.
    + intros ns' name' Hne'. rewrite demo_stored_update by done. by rewrite decide_False.
Qed.

(** A stop of the first container and an upgrade of it, at the same time. *)
Definition demo_form (action images checks : string) : Context :=
  demo_request [("ns", "default")]
    {["action" := [action]; "pods" := ["web-1"]; "images" := [images]; "checks" := [checks]; "location" := ["/"]]}.

Definition demo_requests : list Context := [demo_form "stop" "" "true"; demo_form "upgrade" "web:2" "true"].

(** Both read the pod, then both write: the second is refused and reports it. *)
Definition demo_schedule : list nat := [0; 0; 1; 1; 0; 0; 1; 1].

Definition demo_race : conf :=
  schedule versioned_env demo_schedule (initial (performPodsAction <$> demo_requests) demo_start).

Lemma concurrent_actions_are_atomic_witness :
  outcomes demo_race =
    [Some (Redirect StatusMovedPermanently "/");
     Some (HTML StatusInternalServerError "errors" [("errors", VStrings ["conflict"])])]
  ∧ rtc (action_change demo_stored (λ _ _, False) demo_requests "default" "web-1")
      (demo_stored demo_start "default" "web-1") (demo_stored (shared demo_race) "default" "web-1").
Proof.
  split; [vm_cast_no_check (eq_refl (outcomes demo_race))|].
  exact (@concurrent_actions_are_atomic _ _ _ _ versioned_env demo_stored demo_seen (λ _ _, False) demo_VersionedPods
    demo_requests demo_start demo_race (schedule_steps versioned_env (λ _ _, False) demo_schedule _) "default" "web-1").
Defined.
