(* ===== verification/Races.v ===== *)
(** * Races between requests

    Concrete interleavings of the console's own requests that go wrong.  The
    configuration and the client are package variables the
    handlers read and write without a lock, and deleteReplicationController checks the
    replicas before it deletes.  Each theorem gives a schedule, from a start where
    everything is in order, and what it leads to. *)

From stdpp Require Import prelude gmap strings relations.
From Stdlib Require Import ZArith NArith Ascii.
From S2P Require Import Prelude GoStrings GoSort Float64 Api Page Versions KubeUtil Client Render PodActions Http Handlers Demo Concurrent.

#[local] Existing Instances demo_KubeApi list_MapRange.

(** Nobody but the console acts. *)
Definition alone {S} (_ _ : S) : Prop := False.

(** The next command of a thread. *)
Definition next_cmd {S A} (c : @conf demo_KubeApi S A) (i : nat) : option cmd :=
  match threads c !! i with Some (_, Do cm _) => Some cm | _ => None end.

Lemma turn_step {S A} env other (c : @conf demo_KubeApi S A) i cm :
  next_cmd c i = Some cm → step env other c (turn env c i).
Proof.
  unfold next_cmd, turn. destruct c as [pool s]. simpl.
  destruct (pool !! i) as [[tr [a|h|cm' k]]|] eqn:Hi; [done|done| |done]. intros _.
  destruct (env cm' s) as [r s'] eqn:Henv. by apply step_thread.
Qed.

Lemma quad_eq {A B C D} (a a' : A) (b b' : B) (c c' : C) (d d' : D) :
  (a, b, c, d) = (a', b', c', d') → a = a' ∧ b = b' ∧ c = c' ∧ d = d'.
Proof. by intros [= -> -> -> ->]. Qed.

(** ** Deleting a controller that was just scaled *)

Definition set_rcs (rcs : gmap (string * string) api.ReplicationController) (s : demo_state) : demo_state :=
  mkState (st_config s) (st_client s) (st_files s) (st_pods s) rcs (st_clock s).

(** The demonstration server with updates and deletions of controllers. *)
Definition rc_env (c : cmd) (s : demo_state) : resp c * demo_state :=
  match c return resp c * demo_state with
  | RCs_Update _ ns rc =>
      ((Some rc, None), set_rcs (<[(ns, api.Name (api.RC_ObjectMeta rc)) := rc]> (st_rcs s)) s)
  | RCs_Delete _ ns name =>
      match st_rcs s !! (ns, name) with
      | Some _ => (None, set_rcs (delete (ns, name) (st_rcs s)) s)
      | None => (Some "not found", s)
      end
  | c => demo_env c s
  end.

Definition demo_rc (replicas : Z) : api.ReplicationController :=
  api.mkReplicationController (demo_meta "web") replicas None None 0 ∅.

Definition rc_start : demo_state :=
  mkState (Some demo_config) (Some demo_client) ∅ ∅ {[("default", "web") := demo_rc 0]} 1000.

Definition rc_params : list (string * string) := [("ns", "default"); ("rc", "web")].

(** A deletion, and an edit that scales the controller to three replicas. *)
Definition rc_threads : list (prog response) :=
  [deleteReplicationController (demo_request rc_params ∅);
   @updateReplicationController _ (demo_json 3) (demo_request rc_params {["json" := ["web"]]})].

(** The check of deleteReplicationController does not protect a controller that is in
    use: when an edit scales it up after the check, a controller with three replicas
    is deleted and both requests report success. *)
Theorem deleteReplicationController_races :
  ∃ c c' : conf,
    rtc (step rc_env alone) (initial rc_threads rc_start) c
    ∧ api.RC_Spec_Replicas <$> st_rcs (shared c) !! ("default", "web") = Some 3%Z
    ∧ next_cmd c 0 = Some (RCs_Delete demo_client "default" "web")
    ∧ step rc_env alone c c'
    ∧ st_rcs (shared c') !! ("default", "web") = None
    ∧ outcomes c' = [Some (Redirect StatusMovedPermanently "/namespaces/default");
                     Some (Redirect StatusMovedPermanently "/namespaces/default/replicationcontrollers/web/edit")].
Proof.
  set (c := schedule rc_env [0; 0; 1; 1; 0] (initial rc_threads rc_start)).
  assert ((next_cmd c 0, api.RC_Spec_Replicas <$> st_rcs (shared c) !! ("default", "web"),
           st_rcs (shared (turn rc_env c 0)) !! ("default", "web"), outcomes (turn rc_env c 0))
    = (Some (RCs_Delete demo_client "default" "web"), Some 3%Z, None,
       [Some (Redirect StatusMovedPermanently "/namespaces/default");
        Some (Redirect StatusMovedPermanently "/namespaces/default/replicationcontrollers/web/edit")])) as H.
  { match goal with |- _ = ?e => vm_cast_no_check (eq_refl e) end. }
  apply quad_eq in H as (Hnext & Hrc & Hgone & Hout).
  exists c, (turn rc_env c 0). split; [apply schedule_steps|].
  split_and!; [exact Hrc|exact Hnext|exact (turn_step _ _ _ _ _ Hnext)|exact Hgone|exact Hout].
Qed.

(** ** Two updates of the configuration *)

#[local] Existing Instance demo_JsonApi.

Definition config_form (url user password : string) : Context :=
  demo_request [] {["inputAPIServerURL" := [url]; "inputUsername" := [user]; "inputPassword" := [password]]}.

Definition config_threads : list (prog response) :=
  [updateConfig "kubeconfig.json" (config_form "https://a" "alice" "secret-a");
   updateConfig "kubeconfig.json" (config_form "https://b" "bob" "secret-b")].

(** The fields of the configuration are assigned one by one: with an assignment of
    another update in between, the client is built for the server of one update with
    the user and the password of the other. *)
Theorem updateConfig_races :
  ∃ c : conf,
    rtc (step demo_env alone) (initial config_threads demo_start) c
    ∧ next_cmd c 0 = Some (NewOrDie (mkClient "https://b" APIVersion true "alice" "secret-a")).
Proof.
  set (c := schedule demo_env (replicate 6 0 ++ replicate 2 1 ++ replicate 6 0)
              (initial config_threads demo_start)).
  exists c. split; [apply schedule_steps|].
  vm_cast_no_check (eq_refl (Some (NewOrDie (mkClient "https://b" APIVersion true "alice" "secret-a")))).
Qed.

(** ** Switching the cluster during an action *)

(** Each server has its own pods. *)
Record clusters : Type := mkClusters { console : demo_state; pods_of : gmap (string * string * string) api.Pod }.

Definition clusters_env (c : cmd) (s : clusters) : resp c * clusters :=
  match c return resp c * clusters with
  | Pods_Get cl ns name => (lookup_or_error (pods_of s !! (Client_Host cl, ns, name)), s)
  | Pods_Update cl ns pod =>
      let key := (Client_Host cl, ns, pod_name pod) in
      match pods_of s !! key with
      | None => ((None, Some "not found"), s)
      | Some cur =>
          if bool_decide (version pod = version cur) then
            ((Some pod, None), mkClusters (console s) (<[key := pod]> (pods_of s)))
          else ((None, Some "conflict"), s)
      end
  | c => let '(r, s') := demo_env c (console s) in (r, mkClusters s' (pods_of s))
  end.

(** Another pod of the same name and version, in another cluster. *)
Definition other_pod : api.Pod :=
  set_Pod_Spec (api.mkPodSpec [api.mkContainer "shop" "shop:9" [] None None ∅] "node-9" false ∅) demo_actions_pod.

Definition clusters_start : clusters :=
  mkClusters demo_start
    {[("https://host", "default", "web-1") := demo_actions_pod; ("https://b", "default", "web-1") := other_pod]}.

Definition switch_threads : list (prog response) :=
  [performPodsAction (demo_form "stop" "" "true"); updateConfig "kubeconfig.json" (config_form "https://b" "bob" "secret-b")].

(** An action asks for the client again before it writes: when the configuration is
    switched in between, the pod read in one cluster is written to the other, where
    the equal version does not protect the pod of that name, and both requests report
    success. *)
Theorem config_switch_crosses_clusters :
  ∃ c : conf,
    rtc (step clusters_env alone) (initial switch_threads clusters_start) c
    ∧ pods_of (shared c) !! ("https://host", "default", "web-1") = Some demo_actions_pod
    ∧ pods_of (shared c) !! ("https://b", "default", "web-1") = Some demo_stopped_pod
    ∧ outcomes c = [Some (Redirect StatusMovedPermanently "/"); Some (Redirect StatusMovedPermanently "/")].
Proof.
  set (c := schedule clusters_env (replicate 2 0 ++ replicate 30 1 ++ replicate 2 0)
              (initial switch_threads clusters_start)).
  assert ((pods_of (shared c) !! ("https://host", "default", "web-1"),
           pods_of (shared c) !! ("https://b", "default", "web-1"), outcomes c, tt)
    = (Some demo_actions_pod, Some demo_stopped_pod,
       [Some (Redirect StatusMovedPermanently "/"); Some (Redirect StatusMovedPermanently "/")], tt)) as H.
  { match goal with |- _ = ?e => vm_cast_no_check (eq_refl e) end. }
  apply quad_eq in H as (Ha & Hb & Hout & _).
  exists c. split; [apply schedule_steps|]. split_and!; [exact Ha|exact Hb|exact Hout].
Qed.
