(* ===== verification/Engine.v ===== *)
(** * How gin runs a chain of handlers

    The flow control of context.go ([Next], [Abort] and the index they share), the
    response writer of response_writer.go, and the middleware as handler functions.
    A handler function is a tree of what it does to its context: call [Next], change
    the context, read it, issue a command of the console, or panic.  [Next] is the loop
    of the source over the shared int8 index; calls of [Next] inside a handler nest. *)

From stdpp Require Import prelude gmap strings sorting.
From Stdlib Require Import ZArith NArith Ascii.
From S2P Require Import Prelude GoStrings GoSort Api Client Http.

Local Open Scope Z_scope.

Definition wrap8 (z : Z) : Z := (z + 128) mod 256 - 128.

(** [abortIndex int8 = math.MaxInt8 / 2]. *)
Definition abort_index : Z := 63.

(** ** The response writer *)

(** What reaches the connection. *)
Inductive wevent : Type :=
| WHeader (code : Z) (header : gmap string string)
| WBody (data : string).

Record responseWriter : Type := mkWriter {
  w_size : Z;
  w_status : Z;
  w_header : gmap string string;
  w_wire : list wevent;
}.

Definition noWritten : Z := -1.
Definition defaultStatus : Z := 200.

Definition w_reset : responseWriter := mkWriter noWritten defaultStatus ∅ [].

Definition Written (w : responseWriter) : bool := negb (w_size w =? noWritten).

Definition WriteHeader (code : Z) (w : responseWriter) : responseWriter :=
  if (0 <? code) && negb (w_status w =? code) then mkWriter (w_size w) code (w_header w) (w_wire w) else w.

Definition WriteHeaderNow (w : responseWriter) : responseWriter :=
  if Written w then w
  else mkWriter 0 (w_status w) (w_header w) (w_wire w ++ [WHeader (w_status w) (w_header w)]).

(** The connection takes all of the data. *)
Definition Write (data : string) (w : responseWriter) : responseWriter :=
  let w := WriteHeaderNow w in
  mkWriter (w_size w + Z.of_nat (String.length data)) (w_status w) (w_header w) (w_wire w ++ [WBody data]).

(** [w.Header().Set] and [Del]; changes after the header was sent have no effect on
    the connection. *)
Definition set_header (key value : string) (w : responseWriter) : responseWriter :=
  mkWriter (w_size w) (w_status w)
    (if bool_decide (value = "") then delete key (w_header w) else <[key := value]> (w_header w)) (w_wire w).

(** [writeContentType]: only when none is set. *)
Definition writeContentType (value : string) (w : responseWriter) : responseWriter :=
  match w_header w !! "Content-Type" with
  | Some _ => w
  | None => mkWriter (w_size w) (w_status w) (<["Content-Type" := value]> (w_header w)) (w_wire w)
  end.

(** ** Errors attached to a context *)

Record gin_Error : Type := mkError { Err : string; Type_ : Z; Meta : option string }.

Definition ErrorTypeBind : Z := 2 ^ 63.
Definition ErrorTypeRender : Z := 2 ^ 62.
Definition ErrorTypePrivate : Z := 1.
Definition ErrorTypePublic : Z := 2.
Definition ErrorTypeAny : Z := 2 ^ 64 - 1.

Definition IsType (msg : gin_Error) (flags : Z) : bool := 0 <? Z.land (Type_ msg) flags.

Definition ByType (a : list gin_Error) (typ : Z) : list gin_Error :=
  if typ =? ErrorTypeAny then a else filter (λ msg, IsType msg typ = true) a.

(** [%02d]. *)
Definition pad2 (n : nat) : string :=
  if (n <? 10)%nat then "0" +:+ FormatUint (N.of_nat n) else FormatUint (N.of_nat n).

Definition newline : string := String "010" "".

Fixpoint errors_String_from (i : nat) (a : list gin_Error) : string :=
  match a with
  | [] => ""
  | msg :: a =>
      "Error #" +:+ pad2 (i + 1) +:+ ": " +:+ Err msg +:+ newline
      +:+ (match Meta msg with Some m => "     Meta: " +:+ m +:+ newline | None => "" end)
      +:+ errors_String_from (S i) a
  end.

Definition errors_String (a : list gin_Error) : string := errors_String_from 0 a.

(** ** Contexts and handler functions *)

(** The line the logger writes, without the times and the address of the client. *)
Record log_line : Type := mkLog {
  log_statusColor : string; log_statusCode : Z;
  log_methodColor : string; log_method : string; log_path : string; log_comment : string }.

(** What happened to the flow, in order; not in the source. *)
Inductive flow_event : Type := Started (i : Z) | Aborted.

Record Ctx : Type := mkCtx {
  c_index : Z;
  c_request : Context;
  c_method : string;
  c_path : string;
  c_writer : responseWriter;
  c_Errors : list gin_Error;
  c_log : list log_line;
  c_flow : list flow_event;
}.

Definition set_index_ (i : Z) (c : Ctx) : Ctx :=
  mkCtx i (c_request c) (c_method c) (c_path c) (c_writer c) (c_Errors c) (c_log c) (c_flow c).
Definition set_request (r : Context) (c : Ctx) : Ctx :=
  mkCtx (c_index c) r (c_method c) (c_path c) (c_writer c) (c_Errors c) (c_log c) (c_flow c).
Definition set_writer (w : responseWriter) (c : Ctx) : Ctx :=
  mkCtx (c_index c) (c_request c) (c_method c) (c_path c) w (c_Errors c) (c_log c) (c_flow c).
Definition set_Errors (e : list gin_Error) (c : Ctx) : Ctx :=
  mkCtx (c_index c) (c_request c) (c_method c) (c_path c) (c_writer c) e (c_log c) (c_flow c).
Definition set_log (l : list log_line) (c : Ctx) : Ctx :=
  mkCtx (c_index c) (c_request c) (c_method c) (c_path c) (c_writer c) (c_Errors c) l (c_flow c).
Definition set_flow (f : list flow_event) (c : Ctx) : Ctx :=
  mkCtx (c_index c) (c_request c) (c_method c) (c_path c) (c_writer c) (c_Errors c) (c_log c) f.

(** [c.index++]. *)
Definition incr_index (c : Ctx) : Ctx := set_index_ (wrap8 (c_index c + 1)) c.

Definition IsAborted (c : Ctx) : bool := abort_index <=? c_index c.

(** The changes a handler can make without running other handlers. *)
Inductive update : Type :=
| UAbort
| UStatus (code : Z)
| UHeader (key value : string)
| UContentType (value : string)
| UWrite (data : string)
| USet (key value : string)
| UError (err : gin_Error)
| ULog (l : log_line).

Definition apply_update (u : update) (c : Ctx) : Ctx :=
  match u with
  | UAbort => set_flow (c_flow c ++ [Aborted]) (set_index_ abort_index c)
  | UStatus code => set_writer (WriteHeader code (c_writer c)) c
  | UHeader key value => set_writer (set_header key value (c_writer c)) c
  | UContentType value => set_writer (writeContentType value (c_writer c)) c
  | UWrite data => set_writer (Write data (c_writer c)) c
  | USet key value => set_request (Set_ key value (c_request c)) c
  | UError err => set_Errors (c_Errors c ++ [err]) c
  | ULog l => set_log (c_log c ++ [l]) c
  end.

Section engine.
Context `{K : KubeApi}.

Inductive HandlerFunc : Type :=
| FReturn
| FPanic (p : panic)
| FFatal (msg : string)
| FRead (k : Ctx → HandlerFunc)
| FUpdate (u : update) (k : HandlerFunc)
| FNext (k : HandlerFunc)
| FDo (c : cmd) (k : resp c → HandlerFunc)
(** [defer func() { if recover() != nil { rescue } }(); body]. *)
| FRecover (body rescue : HandlerFunc).

(** How a handler or a chain ends. *)
Inductive ending : Type := Done | Panicking (p : panic) | OutOfFuel.

(** A handler function, given what a call of [c.Next()] does. *)
Fixpoint eval (next : Ctx → prog (ending * Ctx)) (h : HandlerFunc) (c : Ctx) : prog (ending * Ctx) :=
  match h with
  | FReturn => Ret (Done, c)
  | FPanic p => Ret (Panicking p, c)
  | FFatal msg => Stop (HFatal msg)
  | FRead k => eval next (k c) c
  | FUpdate u k => eval next k (apply_update u c)
  | FNext k =>
      '(e, c) ← next c;
      match e with Done => eval next k c | _ => Ret (e, c) end
  | FDo cmd k => Do cmd (λ r, eval next (k r) c)
  | FRecover body rescue =>
      '(e, c) ← eval next body c;
      match e with Panicking _ => eval next rescue c | _ => Ret (e, c) end
  end.

(** The loop of Next, from the current index on. *)
Fixpoint Next_loop (fuel : nat) (handlers : list HandlerFunc) (c : Ctx) : prog (ending * Ctx) :=
  match fuel with
  | O => Ret (OutOfFuel, c)
  | S fuel =>
      let s := wrap8 (Z.of_nat (length handlers)) in
      if c_index c <? s then
        match (if c_index c <? 0 then None else handlers !! Z.to_nat (c_index c)) with
        | None => Ret (Panicking IndexOutOfRange, c)
        | Some h =>
            let c := set_flow (c_flow c ++ [Started (c_index c)]) c in
            '(e, c) ← eval (λ c, Next_loop fuel handlers (incr_index c)) h c;
            match e with Done => Next_loop fuel handlers (incr_index c) | _ => Ret (e, c) end
        end
      else Ret (Done, c)
  end.

(** As many turns as there are handlers, and one to see the end. *)
Definition Next (handlers : list HandlerFunc) (c : Ctx) : prog (ending * Ctx) :=
  Next_loop (S (length handlers)) handlers (incr_index c).

(** [c.reset()] on a context from the pool, with the writer reset. *)
Definition ctx_reset (req : Context) (m p : string) : Ctx := mkCtx (-1) req m p w_reset [] [] [].

(** The end of handleHTTPRequest for a route that was found. *)
Definition serve_chain (handlers : list HandlerFunc) (c : Ctx) : prog (ending * Ctx) :=
  '(e, c) ← Next handlers c;
  match e with
  | Done => Ret (Done, set_writer (WriteHeaderNow (c_writer c)) c)
  | _ => Ret (e, c)
  end.

(** serveError: the chain runs, then the default message, unless something was
    written or the status changed. *)
Definition serveError (handlers : list HandlerFunc) (code : Z) (defaultMessage : string) (c : Ctx) :
    prog (ending * Ctx) :=
  let w := c_writer c in
  let c := set_writer (mkWriter (w_size w) code (w_header w) (w_wire w)) c in
  '(e, c) ← Next handlers c;
  match e with
  | Done =>
      let w := c_writer c in
      Ret (Done,
        if Written w then c
        else if w_status w =? code then
          set_writer (Write defaultMessage
            (mkWriter (w_size w) (w_status w) (<["Content-Type" := "text/plain"]> (w_header w)) (w_wire w))) c
        else set_writer (WriteHeaderNow w) c)
  | _ => Ret (e, c)
  end.

End engine.

(** ** What every end of a program satisfies *)

Section post.
Context `{K : KubeApi}.

(** Every value returned satisfies [Q]; a fatal log ends the process, and no Go panic
    escapes as one. *)
Fixpoint post {A} (Q : A → Prop) (p : prog A) : Prop :=
  match p with
  | Ret a => Q a
  | Stop (HFatal _) => True
  | Stop (HPanic _) => False
  | Do c k => ∀ r, post Q (k r)
  end.

Lemma post_bind {A B} (Q : A → Prop) (R : B → Prop) (p : prog A) (f : A → prog B) :
  post Q p → (∀ a, Q a → post R (f a)) → post R (p ≫= f).
Proof.
  intros Hp Hf. induction p as [a|[]|c k IH]; simpl in *; [by apply Hf|done|done|].
  intros r. by apply IH, Hp.
Qed.

Lemma post_impl {A} (Q R : A → Prop) (p : prog A) : post Q p → (∀ a, Q a → R a) → post R p.
Proof. intros Hp HQR. induction p as [a|[]|c k IH]; simpl in *; auto. Qed.

End post.

(** ** The flow of a chain *)

Definition started (f : list flow_event) : list Z := omap (λ e, match e with Started i => Some i | Aborted => None end) f.

(** Nothing starts after an abort. *)
Definition stops_at_abort (f : list flow_event) : Prop :=
  ∀ f1 f2, f = f1 ++ Aborted :: f2 → started f2 = [].

Lemma started_app f g : started (f ++ g) = started f ++ started g.
Proof. apply omap_app. Qed.

Lemma app_snoc_inv {A} (f f1 f2 : list A) x y :
  f ++ [x] = f1 ++ y :: f2 → (f2 = [] ∧ x = y ∧ f = f1) ∨ ∃ f2', f2 = f2' ++ [x] ∧ f = f1 ++ y :: f2'.
Proof.
  destruct f2 as [|z f2 _] using rev_ind.
  - intros [-> [= ->]]%app_inj_2; [|done]. auto.
  - intros H. right. exists f2. change (f ++ [x] = f1 ++ ([y] ++ f2 ++ [z])) in H.
    rewrite !app_assoc in H. apply app_inj_2 in H as [-> [= ->]]; [|done]. by rewrite <- app_assoc.
Qed.

Lemma StronglySorted_snoc l i : StronglySorted Z.lt l → Forall (λ e, e < i) l → StronglySorted Z.lt (l ++ [i]).
Proof.
  induction 1 as [|x l Hs IH Hx]; intros Hl; simpl; [repeat constructor|].
  apply Forall_cons in Hl as [Hxi Hl]. constructor; [by apply IH|].
  apply Forall_app. split; [done|]. by constructor.
Qed.

(** Starts are increasing and bounded by the index, and none follows an abort. *)
Record flow_inv (n b : Z) (c : Ctx) : Prop := mkFlowInv {
  fi_sorted : StronglySorted Z.lt (started (c_flow c));
  fi_bound : Forall (λ e, 0 <= e < n ∧ e <= b) (started (c_flow c));
  fi_abort : stops_at_abort (c_flow c);
  fi_index : Aborted ∈ c_flow c → abort_index <= c_index c;
}.

Lemma flow_inv_start n c :
  0 <= c_index c < n → n <= 62 → flow_inv n (c_index c - 1) c →
  flow_inv n (c_index c) (set_flow (c_flow c ++ [Started (c_index c)]) c).
Proof.
  intros Hi Hn [Hs Hb Ha Hx]. split; simpl; rewrite ?started_app.
  - apply StronglySorted_snoc; [done|]. eapply Forall_impl; [exact Hb|]. simpl. lia.
  - apply Forall_app. split; [eapply Forall_impl; [exact Hb|]; simpl; lia|]. repeat constructor; lia.
  - intros f1 f2 [(-> & ? & _)|(f2' & -> & Hf)]%app_snoc_inv; [done|].
    exfalso. assert (Aborted ∈ c_flow c) as H%Hx by (rewrite Hf; apply elem_of_app; right; by left).
    unfold abort_index in H. lia.
  - intros [H%Hx|H]%elem_of_app; [done|]. by apply list_elem_of_singleton in H.
Qed.

Lemma flow_inv_incr n c c' : c_flow c' = c_flow c → c_index c <= c_index c' - 1 →
  flow_inv n (c_index c) c → flow_inv n (c_index c' - 1) c'.
Proof.
  intros Hf Hi [Hs Hb Ha Hx]. split; rewrite ?Hf; [done| |done|intros; etrans; [by apply Hx|lia]].
  eapply Forall_impl; [exact Hb|]. simpl. lia.
Qed.

Lemma flow_inv_update n u c :
  n <= 62 → flow_inv n (c_index c) c →
  let c' := apply_update u c in
  flow_inv n (c_index c') c' ∧ (c_index c' = c_index c ∨ c_index c' = abort_index).
Proof.
  intros Hn [Hs Hb Ha Hx]. destruct u; simpl; try (by split; [split|left]).
  split; [|by right]. split; simpl; rewrite ?started_app, ?app_nil_r; [done| | |done].
  - eapply Forall_impl; [exact Hb|]. unfold abort_index. simpl. lia.
  - intros f1 f2 [(-> & _)|(f2' & -> & Hf)]%app_snoc_inv; [done|].
    rewrite started_app, app_nil_r. by apply (Ha f1).
Qed.

(** A handler function that calls Next at most once on every path, as middleware
    does; [b] tells whether it still may. *)
Fixpoint linear `{K : KubeApi} (b : bool) (h : HandlerFunc) : Prop :=
  match h with
  | FReturn | FPanic _ | FFatal _ => True
  | FRead k => ∀ c, linear b (k c)
  | FUpdate _ k => linear b k
  | FNext k => b = true ∧ linear false k
  | FDo _ k => ∀ r, linear b (k r)
  | FRecover body rescue => linear b body ∧ linear false rescue
  end.

Section flow.
Context `{K : KubeApi} (hs : list HandlerFunc).

Local Abbreviation n := (Z.of_nat (length hs)).

(** During handler [i]: while it may still call Next, the index is [i] or an abort. *)
Definition in_handler (i : Z) (b : bool) (c : Ctx) : Prop :=
  i <= c_index c <= 63 + n - i ∧ (b = true → c_index c = i ∨ c_index c = abort_index)
  ∧ flow_inv n (c_index c) c.

Lemma eval_inv i next h b c :
  n <= 62 → 0 <= i < n → linear b h → in_handler i b c →
  (∀ c, in_handler i true c → post (λ ec, ec.1 ≠ OutOfFuel ∧ in_handler i false ec.2) (next c)) →
  post (λ ec, ec.1 ≠ OutOfFuel ∧ in_handler i false ec.2) (eval next h c).
Proof.
  intros Hn Hi Hl Hc Hnext. revert b c Hl Hc.
  assert (∀ b c, in_handler i b c → in_handler i false c) as Hweak by (intros b c (? & _ & ?); split; [done|split; [discriminate|done]]).
  induction h as [|p|msg|k IH|u k IH|k IH|cm k IH|body IHb rescue IHr]; intros b c Hl Hc; simpl in *.
  - split; [done|]. by eapply Hweak.
  - split; [done|]. by eapply Hweak.
  - done.
  - by eapply IH.
  - eapply IH; [done|]. destruct Hc as (Hr & Hb & Hf). destruct (flow_inv_update n u c Hn Hf) as [Hf' Hor].
    split_and!; [| | |done].
    + destruct Hor as [->| ->]; unfold abort_index; lia.
    + destruct Hor as [->| ->]; unfold abort_index; lia.
    + intros Hbt. destruct Hor as [->| ->]; [by apply Hb|by right].
  - destruct Hl as [-> Hk]. eapply post_bind; [by apply Hnext|]. intros [e c'] [He Hc'].
    destruct e; [by eapply IH|done|done].
  - intros r. by eapply IH.
  - destruct Hl as [Hb Hr]. eapply post_bind; [by eapply IHb|]. intros [e c'] [He Hc'].
    destruct e; [done| |done]. by eapply IHr.
Qed.

Lemma wrap8_id z : -128 <= z <= 127 → wrap8 z = z.
Proof. unfold wrap8. intros H. rewrite Z.mod_small; lia. Qed.

Lemma Next_loop_inv fuel c :
  n <= 62 → Forall (linear true) hs → 0 <= c_index c <= 126 → Z.max 0 (n - c_index c) < Z.of_nat fuel →
  flow_inv n (c_index c - 1) c →
  post (λ ec, ec.1 ≠ OutOfFuel ∧ c_index c <= c_index ec.2 <= Z.max (c_index c) (64 + n - c_index c)
              ∧ flow_inv n (c_index ec.2) ec.2) (Next_loop fuel hs c).
Proof.
  intros Hn Hlin. revert c. induction fuel as [|fuel IH]; intros c Hc Hf Hinv; [lia|].
  cbn [Next_loop]. rewrite wrap8_id by lia. destruct (Z.ltb_spec (c_index c) n) as [Hi|Hi].
  2:{ split; [done|]. split; [simpl; lia|]. destruct Hinv as [? Hb ? ?]. split; try done.
      eapply Forall_impl; [exact Hb|]. simpl. lia. }
  rewrite (proj2 (Z.ltb_ge _ _)) by lia.
  destruct (hs !! Z.to_nat (c_index c)) as [h|] eqn:Hh; [|apply lookup_ge_None in Hh; lia].
  set (i := c_index c) in *.
  set (c0 := set_flow (c_flow c ++ [Started i]) c).
  assert (∀ c1 b, in_handler i b c1 → c_index (incr_index c1) = c_index c1 + 1
    ∧ flow_inv n (c_index (incr_index c1) - 1) (incr_index c1)) as Hincr.
  { intros c1 b (Hr & _ & Hf1). assert (c_index (incr_index c1) = c_index c1 + 1) as Heq
      by (simpl; apply wrap8_id; lia). split; [done|]. apply (flow_inv_incr n c1); [done|lia|done]. }
  eapply post_bind.
  - eapply (eval_inv i _ h true); [done|lia|by eapply Forall_lookup_1| |].
    + split_and!; [subst i c0; simpl; lia..|by left|apply (flow_inv_start n c); [subst i; lia|done|done]].
    + intros c1 Hc1. destruct (Hincr c1 true Hc1) as [Heq Hf1]. destruct Hc1 as (Hr & Hor & _).
      specialize (Hor eq_refl). unfold abort_index in Hor.
      eapply post_impl; [apply IH; [lia|lia|done]|]. intros [e c2] (He & Hb & Hf2). split; [done|].
      split_and!; [simpl in *; lia..|done|done].
  - intros [e c1] [He Hc1]. destruct e; [|by destruct Hc1 as (? & _ & ?); split_and!; [done|simpl in *; lia..|done]|done].
    destruct (Hincr c1 false Hc1) as [Heq Hf1]. destruct Hc1 as (Hr & _ & _). simpl in Hr.
    eapply post_impl; [apply IH; [lia|lia|done]|]. intros [e c2] (He2 & Hb & Hf2).
    split_and!; [done|simpl in *; lia..|done].
Qed.

(** The state in which a request starts. *)
Lemma flow_inv_reset req m p : flow_inv n (-1) (ctx_reset req m p).
Proof.
  split; simpl; [constructor|constructor| |by intros ?%elem_of_nil].
  intros [|x f1] f2 H; simpl in H; discriminate H.
Qed.

Lemma Next_inv req m p :
  n <= 62 → Forall (linear true) hs →
  post (λ ec, ec.1 ≠ OutOfFuel ∧ 0 <= c_index ec.2 <= 126 ∧ flow_inv n (c_index ec.2) ec.2)
    (Next hs (ctx_reset req m p)).
Proof.
  intros Hn Hlin. eapply post_impl; [apply Next_loop_inv; [done|done|done|change (c_index (incr_index _)) with 0; lia|]|].
  - apply (flow_inv_incr n (ctx_reset req m p)); [done|done|apply flow_inv_reset].
  - intros [e c] (He & Hb & Hf). change (c_index (incr_index _)) with 0 in Hb. simpl in *.
    split_and!; [done|lia|lia|done].
Qed.

(** C20. Running a chain terminates and the index never overflows: for every chain that
    combineHandlers accepts (fewer than 63 handlers), of handlers that call Next at
    most once, the nested loops end within one turn per handler, whatever the
    handlers do and whatever answers their commands get, and the int8 index stays
    between 0 and 126, aborts included. *)
Theorem Next_terminates req m p :
  (length hs < 63)%nat → Forall (linear true) hs →
  post (λ ec, ec.1 ≠ OutOfFuel ∧ 0 <= c_index ec.2 <= 126) (Next hs (ctx_reset req m p)).
Proof.
  intros Hn Hlin. eapply post_impl; [apply Next_inv; [lia|done]|]. intros ec (? & ? & _). done.
Qed.

(** C21. A chain runs its handlers in order, each at most once, and none after an
    abort. *)
Theorem Next_runs_in_order req m p :
  (length hs < 63)%nat → Forall (linear true) hs →
  post (λ ec, StronglySorted Z.lt (started (c_flow ec.2))
              ∧ Forall (λ i, 0 <= i < Z.of_nat (length hs)) (started (c_flow ec.2))
              ∧ stops_at_abort (c_flow ec.2)) (Next hs (ctx_reset req m p)).
Proof.
  intros Hn Hlin. eapply post_impl; [apply Next_inv; [lia|done]|]. intros [e c] (_ & _ & [? Hb ? _]).
  split_and!; [done| |done]. eapply Forall_impl; [exact Hb|]. simpl. lia.
Qed.

End flow.

(** ** One response per request *)

Definition body_size (bodies : list string) : Z := foldr (λ d s, Z.of_nat (String.length d) + s) 0 bodies.

(** Nothing was sent, or a header and then the body that [size] counts. *)
Definition writer_ok (w : responseWriter) : Prop :=
  (w_size w = noWritten ∧ w_wire w = [])
  ∨ ∃ code h bodies, w_wire w = WHeader code h :: (WBody <$> bodies) ∧ w_size w = body_size bodies.

Lemma body_size_app l1 l2 : body_size (l1 ++ l2) = body_size l1 + body_size l2.
Proof. induction l1 as [|d l1 IH]; simpl; [done|]. rewrite IH. lia. Qed.

Lemma body_size_nonneg l : 0 <= body_size l.
Proof. induction l as [|d l IH]; simpl; lia. Qed.

Lemma WriteHeaderNow_ok w :
  writer_ok w → ∃ code h bodies,
    w_wire (WriteHeaderNow w) = WHeader code h :: (WBody <$> bodies) ∧ w_size (WriteHeaderNow w) = body_size bodies.
Proof.
  unfold WriteHeaderNow, Written. intros [[Hs Hw]|(code & h & bodies & Hw & Hs)].
  - rewrite Hs, Hw. simpl. by eexists _, _, [].
  - rewrite Hs. rewrite (proj2 (Z.eqb_neq _ _)) by (pose proof (body_size_nonneg bodies); unfold noWritten; lia).
    simpl. eauto.
Qed.

Lemma Write_ok data w : writer_ok w → writer_ok (Write data w).
Proof.
  intros (code & h & bodies & Hw & Hs)%WriteHeaderNow_ok. right. exists code, h, (bodies ++ [data]).
  simpl. rewrite Hw, Hs, fmap_app, body_size_app. simpl. split; [done|lia].
Qed.

Lemma update_writer_ok u c : writer_ok (c_writer c) → writer_ok (c_writer (apply_update u c)).
Proof.
  destruct u; simpl; try done.
  - unfold WriteHeader. by destruct (_ && _).
  - unfold writeContentType. by destruct (_ !! _).
  - apply Write_ok.
Qed.

Section writer.
Context `{K : KubeApi}.

Lemma eval_writer_ok next h c :
  (∀ c, writer_ok (c_writer c) → post (λ ec, writer_ok (c_writer ec.2)) (next c)) →
  writer_ok (c_writer c) → post (λ ec, writer_ok (c_writer ec.2)) (eval next h c).
Proof.
  intros Hnext. revert c.
  induction h as [|p|msg|k IH|u k IH|k IH|cm k IH|body IHb rescue IHr]; intros c Hc; simpl; auto using update_writer_ok.
  - eapply post_bind; [by apply Hnext|]. intros [[] c'] Hc'; [by apply IH|done|done].
  - eapply post_bind; [by apply IHb|]. intros [[] c'] Hc'; [done|by apply IHr|done].
Qed.

Lemma Next_loop_writer_ok fuel hs c :
  writer_ok (c_writer c) → post (λ ec, writer_ok (c_writer ec.2)) (Next_loop fuel hs c).
Proof.
  revert c. induction fuel as [|fuel IH]; intros c Hc; simpl; [done|].
  destruct (_ <? _); [|done]. destruct (if c_index c <? 0 then None else _) as [h|]; [|done].
  eapply post_bind; [apply eval_writer_ok; [|done]|]; [intros c' Hc'; by apply IH|].
  intros [[] c'] Hc'; [by apply IH|done|done].
Qed.

(** A request gets exactly one response: whatever its handlers do, when the chain
    has ended the connection has received one header, before all of the body, and the
    writer's size is the number of body bytes sent. *)
Theorem one_response hs req m p :
  post (λ ec, ec.1 = Done →
    ∃ code h bodies, w_wire (c_writer ec.2) = WHeader code h :: (WBody <$> bodies)
      ∧ w_size (c_writer ec.2) = body_size bodies) (serve_chain hs (ctx_reset req m p)).
Proof.
  unfold serve_chain. eapply post_bind; [apply Next_loop_writer_ok; by left|].
  intros [[] c] Hc; [|done|done]. intros _. by apply WriteHeaderNow_ok.
Qed.

End writer.
