(* ===== verification/Requests.v ===== *)
(** * What gin reads from a request, and content negotiation

    The parts of context.go and utils.go that read headers (the type of the body, the
    accepted types, the address of the client), cookies, and the binding of requests to
    structs with its answer to a failure (context.go, binding.go, form.go) over the form
    mapping of Binding.v.

    net/url's escaping and net.SplitHostPort are modelled as they are in the standard
    library; the decoders of JSON, XML and protocol buffers and the validator are
    operations of an interface. *)

From stdpp Require Import prelude gmap strings.
From Stdlib Require Import ZArith NArith Ascii.
From S2P Require Import Prelude GoStrings SemverRange Api Client Http Engine Binding.

(** ** Headers *)

Definition headers : Type := gmap string (list string).

(** The keys of a header map are canonical; the source looks them up as they are. *)
Definition requestHeader (Header : headers) (key : string) : string :=
  match Header !! key with Some (v :: _) => v | _ => "" end.

Fixpoint filterFlags (content : string) : string :=
  match content with
  | EmptyString => ""
  | String char rest =>
      if bool_decide (char = " "%char) || bool_decide (char = ";"%char) then "" else String char (filterFlags rest)
  end.

Definition ContentType (Header : headers) : string := filterFlags (requestHeader Header "Content-Type").

(** [part[0:index]] for the index of a byte, the whole text without one. *)
Definition until (part : string) (c : ascii) : string :=
  match cut part c with Some (before, _) => before | None => part end.

Definition parseAccept (acceptHeader : string) : list string :=
  filter (λ part, part ≠ "") ((λ part, TrimSpace (until part ";")) <$> Split acceptHeader ",").

(** ** Content negotiation *)

Fixpoint first_offered (accepted offered : list string) : string :=
  match accepted with
  | [] => ""
  | a :: accepted => if bool_decide (a ∈ offered) then a else first_offered accepted offered
  end.

(** With [c.Accepted], nil until the header is parsed; it is kept for the next call. *)
Definition NegotiateFormat (Header : headers) (Accepted : option (list string)) (offered : list string) :
    go (string * option (list string)) :=
  match offered with
  | [] => gopanic (Panicked "you must provide at least one offer")
  | offer :: _ =>
      let accepted := match Accepted with Some a => a | None => parseAccept (requestHeader Header "Accept") end in
      Val (match accepted with [] => offer | _ => first_offered accepted offered end, Some accepted)
  end.

(** A call without formats sets the nil slice, so that the header is parsed after all. *)
Definition SetAccepted (formats : list string) : option (list string) :=
  match formats with [] => None | _ => Some formats end.

Definition chooseData {A} (custom wildcard : option A) : go A :=
  match custom, wildcard with
  | Some a, _ => Val a
  | None, Some a => Val a
  | None, None => gopanic (Panicked "negotiation config is invalid")
  end.

(** [Negotiate]: the configuration, and what is rendered. *)
Record negotiation (A : Type) : Type := mkNegotiation {
  Offered : list string;
  HTMLName : string;
  HTMLData : option A;
  JSONData : option A;
  XMLData : option A;
  Data : option A;
}.
Arguments Offered {A} _.
Arguments HTMLName {A} _.
Arguments HTMLData {A} _.
Arguments JSONData {A} _.
Arguments XMLData {A} _.
Arguments Data {A} _.

Inductive negotiated (A : Type) : Type :=
| AsJSON (data : A)
| AsHTML (name : string) (data : A)
| AsXML (data : A)
| NotAcceptable.
Arguments AsJSON {A} _.
Arguments AsHTML {A} _ _.
Arguments AsXML {A} _.
Arguments NotAcceptable {A}.

Definition MIMEJSON : string := "application/json".
Definition MIMEHTML : string := "text/html".
Definition MIMEXML : string := "application/xml".
Definition MIMEXML2 : string := "text/xml".
Definition MIMEPROTOBUF : string := "application/x-protobuf".

Definition Negotiate {A} (Header : headers) (Accepted : option (list string)) (config : negotiation A) : go (negotiated A) :=
  '(format, _) ← NegotiateFormat Header Accepted (Offered config);
  if bool_decide (format = MIMEJSON) then AsJSON <$> chooseData (JSONData config) (Data config)
  else if bool_decide (format = MIMEHTML) then AsHTML (HTMLName config) <$> chooseData (HTMLData config) (Data config)
  else if bool_decide (format = MIMEXML) then AsXML <$> chooseData (XMLData config) (Data config)
  else Val NotAcceptable.

(** ** The address of the client *)

(** [strings.LastIndex] of a byte, as the text before and after it. *)
Fixpoint cut_last (s : string) (c : ascii) : option (string * string) :=
  match s with
  | EmptyString => None
  | String a s =>
      match cut_last s c with
      | Some (before, after) => Some (String a before, after)
      | None => if bool_decide (a = c) then Some ("", s) else None
      end
  end.

Definition contains (s : string) (c : ascii) : bool := match IndexRune s c with Some _ => true | None => false end.

(** net.SplitHostPort: the host, the port, or an error. *)
Definition SplitHostPort (hostport : string) : option (string * string) :=
  match cut_last hostport ":" with
  | None => None
  | Some (before, port) =>
      match before with
      | String "[" inside =>
          match cut inside "]" with
          | Some (host, EmptyString) =>
              if contains inside "[" || contains port "[" || contains port "]" then None else Some (host, port)
          | _ => None
          end
      | _ =>
          if contains before ":" || contains before "%" then None
          else if contains hostport "[" || contains hostport "]" then None
          else Some (before, port)
      end
  end.

Definition ClientIP (ForwardedByClientIP : bool) (Header : headers) (RemoteAddr : string) : string :=
  let direct := match SplitHostPort (TrimSpace RemoteAddr) with Some (ip, _) => ip | None => "" end in
  if ForwardedByClientIP then
    let clientIP := TrimSpace (requestHeader Header "X-Real-Ip") in
    if negb (bool_decide (clientIP = "")) then clientIP
    else
      let clientIP := TrimSpace (until (requestHeader Header "X-Forwarded-For") ",") in
      if negb (bool_decide (clientIP = "")) then clientIP else direct
  else direct.

(** ** Cookies *)

Definition hex_digit (n : N) : ascii := ascii_of_N (if (n <? 10)%N then 48 + n else 55 + n).

Definition unhex (c : ascii) : option N :=
  let n := N_of_ascii c in
  if (48 <=? n)%N && (n <=? 57)%N then Some (n - 48)%N
  else if (97 <=? n)%N && (n <=? 102)%N then Some (n - 87)%N
  else if (65 <=? n)%N && (n <=? 70)%N then Some (n - 55)%N
  else None.

(** net/url's shouldEscape, negated, for the component of a query. *)
Definition unreserved (c : ascii) : bool :=
  let n := N_of_ascii c in
  ((97 <=? n) && (n <=? 122) || (65 <=? n) && (n <=? 90) || (48 <=? n) && (n <=? 57))%N
  || bool_decide (c ∈ ["-"; "_"; "."; "~"]%char).

Fixpoint QueryEscape (s : string) : string :=
  match s with
  | EmptyString => ""
  | String c s =>
      if bool_decide (c = " "%char) then String "+" (QueryEscape s)
      else if unreserved c then String c (QueryEscape s)
      else let n := N_of_ascii c in String "%" (String (hex_digit (n / 16)) (String (hex_digit (n mod 16)) (QueryEscape s)))
  end.

(** None for an invalid escape. *)
Fixpoint QueryUnescape (s : string) : option string :=
  match s with
  | EmptyString => Some ""
  | String "%" s =>
      match s with
      | String h (String l s) =>
          match unhex h, unhex l with
          | Some h, Some l => String (ascii_of_N (16 * h + l)) <$> QueryUnescape s
          | _, _ => None
          end
      | _ => None
      end
  | String c s => String (if bool_decide (c = "+"%char) then " "%char else c) <$> QueryUnescape s
  end.

Record cookie : Type := mkCookie {
  cookie_Name : string; cookie_Value : string; MaxAge : Z; cookie_Path : string; Domain : string; Secure : bool; HttpOnly : bool;
}.

(** What is handed to http.SetCookie. *)
Definition SetCookie (name value : string) (maxAge : Z) (path domain : string) (secure httpOnly : bool) : cookie :=
  mkCookie name (QueryEscape value) maxAge (if bool_decide (path = "") then "/" else path) domain secure httpOnly.

(** [Request.Cookie]: the first cookie of the request with that name. *)
Fixpoint Request_Cookie (cookies : list (string * string)) (name : string) : option string :=
  match cookies with
  | [] => None
  | (n, v) :: cookies => if bool_decide (n = name) then Some v else Request_Cookie cookies name
  end.

Definition ErrNoCookie : string := "http: named cookie not present".

Definition Cookie (cookies : list (string * string)) (name : string) : string * option string :=
  match Request_Cookie cookies name with
  | None => ("", Some ErrNoCookie)
  | Some v => (default "" (QueryUnescape v), None)
  end.

(** ** Binding a request *)

(** What parsing the request made of its body, and the body itself. *)
Record parsed_request : Type := mkParsed {
  ParseForm : option string;
  ParseMultipartForm : option string;
  Form : gmap string (list string);
  PostForm : gmap string (list string);
  MultipartForm : gmap string (list string);
  Body : string;
}.

Inductive binder : Type := JSON | XML | FormB | FormPost | FormMultipart | ProtoBuf.

(** [binding.Default]. *)
Definition binding_Default (method contentType : string) : binder :=
  if bool_decide (method = "GET") then FormB
  else if bool_decide (contentType = MIMEJSON) then JSON
  else if bool_decide (contentType ∈ [MIMEXML; MIMEXML2]) then XML
  else if bool_decide (contentType = MIMEPROTOBUF) then ProtoBuf
  else FormB.

(** The decoders and the validator: what they leave in the struct, and the error. *)
Class Decoders `{FloatText} : Type := {
  decode : binder → string → type → value → value * option string;
  validator_Struct : type → value → option string;
}.

Section bind.
Context `{KubeApi, Decoders}.

(** [defaultValidator.ValidateStruct] for a pointer to a value of the type. *)
Definition ValidateStruct (t : type) (obj : value) : option bind_error :=
  if bool_decide (Kind t = KStruct) then Invalid <$> validator_Struct t obj else None.

(** [mapForm], then [validate]. *)
Definition map_and_validate (form : gmap string (list string)) (t : type) (obj : value) : go setter :=
  '(obj, e) ← mapForm form t obj;
  Val (obj, match e with Some e => Some e | None => ValidateStruct t obj end).

Definition Bind_by (b : binder) (req : parsed_request) (t : type) (obj : value) : go setter :=
  match b with
  | FormB =>
      match ParseForm req with Some msg => Val (obj, Some (Invalid msg)) | None => map_and_validate (Form req) t obj end
  | FormPost =>
      match ParseForm req with Some msg => Val (obj, Some (Invalid msg)) | None => map_and_validate (PostForm req) t obj end
  | FormMultipart =>
      match ParseMultipartForm req with
      | Some msg => Val (obj, Some (Invalid msg))
      | None => map_and_validate (MultipartForm req) t obj
      end
  | JSON | XML | ProtoBuf =>
      match decode b (Body req) t obj with
      | (obj, Some msg) => Val (obj, Some (Invalid msg))
      | (obj, None) => Val (obj, ValidateStruct t obj)
      end
  end.

Context (bind_message : bind_error → string).

(** [c.AbortWithError(400, err).SetType(ErrorTypeBind)], then what the handler does with
    the struct and the error. *)
Definition BindWith (b : binder) (req : parsed_request) (t : type) (obj : value)
    (k : setter → HandlerFunc) : HandlerFunc :=
  match Bind_by b req t obj with
  | Val (obj, Some err) =>
      FUpdate (UStatus 400) (FUpdate UAbort (FUpdate (UError (mkError (bind_message err) ErrorTypeBind None)) (k (obj, Some err))))
  | Val (obj, None) => k (obj, None)
  | Halt (HPanic p) => FPanic p
  | Halt (HFatal msg) => FFatal msg
  end.

Definition Bind (method : string) (Header : headers) := BindWith (binding_Default method (ContentType Header)).

Definition BindJSON := BindWith JSON.

End bind.

(** ** Theorems *)

(** Content negotiation.  What is chosen is the first type of the Accept header, in
    the order of the header, that the server offers; the first offer when the header
    names no type; and the empty type exactly when it names some and none is offered.
    The types are those between the commas, without parameters and blanks. *)
Theorem NegotiateFormat_chooses Header offered :
  offered ≠ [] →
  let accepted := parseAccept (requestHeader Header "Accept") in
  ∃ format, NegotiateFormat Header None offered = Val (format, Some accepted)
    ∧ (accepted = [] → head offered = Some format)
    ∧ (accepted ≠ [] →
        (format = "" ∧ Forall (λ a, a ∉ offered) accepted)
        ∨ (∃ before after, accepted = before ++ format :: after ∧ format ∈ offered ∧ Forall (λ a, a ∉ offered) before)).
Proof.
  intros Hne accepted. destruct offered as [|offer offered]; [done|]. unfold NegotiateFormat. fold accepted.
  eexists. split; [done|]. split; [by intros ->|]. intros Hacc.
  replace (match accepted with [] => offer | _ => _ end) with (first_offered accepted (offer :: offered)) by by destruct accepted.
  clear Hacc. induction accepted as [|a l IH]; [by left|]. cbn [first_offered]. case_bool_decide as Ha.
  { right. exists [], l. split_and!; [done|done|constructor]. }
  destruct IH as [[-> Hl]|(before & after & Heq & Hin & Hb)]; [left; by split; [|constructor]|right].
  exists (a :: before), after. rewrite Heq at 1. split_and!; [done|done|by constructor].
Qed.

Lemma unhex_hex n : (n < 16)%N → unhex (hex_digit n) = Some n.
Proof.
  intros Hn. assert (n = 0 ∨ n = 1 ∨ n = 2 ∨ n = 3 ∨ n = 4 ∨ n = 5 ∨ n = 6 ∨ n = 7 ∨ n = 8 ∨ n = 9 ∨ n = 10
    ∨ n = 11 ∨ n = 12 ∨ n = 13 ∨ n = 14 ∨ n = 15)%N by lia. by destruct_or!; subst n.
Qed.

Lemma QueryUnescape_plain c s :
  c ≠ "%"%char → QueryUnescape (String c s) = String (if bool_decide (c = "+"%char) then " "%char else c) <$> QueryUnescape s.
Proof. intros Hc. destruct c as [[|] [|] [|] [|] [|] [|] [|] [|]]; try done. Qed.

Lemma QueryUnescape_QueryEscape s : QueryUnescape (QueryEscape s) = Some s.
Proof.
  induction s as [|c s IH]; [done|]. cbn [QueryEscape]. case_bool_decide as Hsp; [|destruct (unreserved c) eqn:Hu].
  - subst c. rewrite QueryUnescape_plain by done. rewrite IH. done.
  - assert (c ≠ "%"%char ∧ c ≠ "+"%char) as [H1 H2] by (by split; intros ->).
    rewrite QueryUnescape_plain, IH by done. by rewrite bool_decide_eq_false_2.
  - cbn [QueryUnescape]. pose proof (N_ascii_bounded c) as Hb.
    rewrite !unhex_hex, IH by (try apply N.mod_lt; try apply N.Div0.div_lt_upper_bound; lia). simpl. f_equal. f_equal.
    rewrite <- N.div_mod by done. apply ascii_N_embedding.
Qed.

(** The bytes net/http allows in the value of a cookie without quotes; others it would
    drop or quote. *)
Definition cookie_byte (c : ascii) : bool :=
  let n := N_of_ascii c in
  (32 <? n)%N && (n <? 127)%N && negb (existsb (N.eqb n) [34; 44; 59; 92]%N).

Lemma QueryEscape_bytes s : sforallb cookie_byte (QueryEscape s) = true.
Proof.
  induction s as [|c s IH]; [done|]. cbn [QueryEscape]. case_bool_decide; [|destruct (unreserved c) eqn:Hu]; cbn [sforallb]; rewrite IH, andb_true_r.
  - done.
  - destruct c as [[|] [|] [|] [|] [|] [|] [|] [|]]; vm_compute in Hu |- *; congruence.
  - destruct c as [[|] [|] [|] [|] [|] [|] [|] [|]]; vm_compute; reflexivity.
Qed.

(** A cookie is read back.  Whatever bytes a value has, the cookie SetCookie makes of
    it has only bytes that net/http leaves alone, and a request that sends it back reads
    as the value, unless it sends an earlier cookie of the name. *)
Theorem Cookie_SetCookie name v maxAge path domain secure httpOnly before after :
  let ck := SetCookie name v maxAge path domain secure httpOnly in
  sforallb cookie_byte (cookie_Value ck) = true
  ∧ (Forall (λ p : string * string, p.1 ≠ name) before →
     Cookie (before ++ (cookie_Name ck, cookie_Value ck) :: after) name = (v, None)).
Proof.
  intros ck. split; [apply QueryEscape_bytes|]. intros Hb. unfold Cookie.
  change (cookie_Name ck) with name. change (cookie_Value ck) with (QueryEscape v).
  assert (Request_Cookie (before ++ (name, QueryEscape v) :: after) name = Some (QueryEscape v)) as ->.
  { induction Hb as [|[n x] l Hn _ IH]; simpl; [by rewrite bool_decide_eq_true_2|]. by rewrite bool_decide_eq_false_2. }
  by rewrite QueryUnescape_QueryEscape.
Qed.

(** *** Addresses *)

Lemma contains_cons a s c : contains (String a s) c = bool_decide (a = c) || contains s c.
Proof.
  unfold contains. simpl. case_bool_decide as Ha; destruct (decide (a = c)); try done. by destruct (IndexRune s c).
Qed.

Lemma contains_app s t c : contains (s +:+ t) c = contains s c || contains t c.
Proof. induction s as [|a s IH]; [done|]. by rewrite sapp_cons, !contains_cons, IH, orb_assoc. Qed.

Lemma cut_last_app s t c : contains t c = false → cut_last (s +:+ String c t) c = Some (s, t).
Proof.
  intros Ht. assert (∀ t, contains t c = false → cut_last t c = None) as Hno.
  { clear. intros t. induction t as [|a t IH]; [done|]. rewrite contains_cons. intros [Ha Ht]%orb_false_iff.
    simpl. by rewrite IH, Ha. }
  induction s as [|a s IH]; [simpl; by rewrite Hno, bool_decide_eq_true_2|]. rewrite sapp_cons. simpl. by rewrite IH.
Qed.

(** A host and a port joined by a colon are split again. *)
Lemma SplitHostPort_join host port :
  Forall (λ c, contains host c = false) [":"; "%"; "["; "]"]%char → Forall (λ c, contains port c = false) [":"; "["; "]"]%char →
  SplitHostPort (host +:+ ":" +:+ port) = Some (host, port).
Proof.
  rewrite !Forall_cons. intros (H1 & H2 & H3 & H4 & _) (P1 & P2 & P3 & _). unfold SplitHostPort.
  change (":" +:+ port) with (String ":" port). rewrite cut_last_app by done.
  assert ((if contains host ":" || contains host "%" then None
    else if contains (host +:+ String ":" port) "[" || contains (host +:+ String ":" port) "]" then None
    else Some (host, port)) = Some (host, port)) as Hplain.
  { by rewrite H1, H2, !contains_app, !contains_cons, H3, H4, P2, P3. }
  destruct host as [|a host]; [exact Hplain|]. destruct a as [[|] [|] [|] [|] [|] [|] [|] [|]]; try exact Hplain.
  by rewrite contains_cons in H3.
Qed.

(** A request that does not bind is answered with 400 and an error of type bind, the
    rest of its chain does not run, and nothing else is done before the handler goes on;
    one that binds goes on with the struct alone. *)
Theorem BindWith_answers `{KubeApi, Decoders} msg b req t obj k next c :
  match Bind_by b req t obj with
  | Val (obj', Some err) =>
      ∃ c', eval next (BindWith msg b req t obj k) c = eval next (k (obj', Some err)) c'
        ∧ IsAborted c' = true ∧ c_Errors c' = c_Errors c ++ [mkError (msg err) ErrorTypeBind None]
        ∧ c_request c' = c_request c ∧ w_status (c_writer c') = 400%Z ∧ w_wire (c_writer c') = w_wire (c_writer c)
  | Val (obj', None) => eval next (BindWith msg b req t obj k) c = eval next (k (obj', None)) c
  | Halt (HPanic p) => eval next (BindWith msg b req t obj k) c = Ret (Panicking p, c)
  | Halt (HFatal m) => eval next (BindWith msg b req t obj k) c = Stop (HFatal m)
  end.
Proof.
  unfold BindWith. destruct (Bind_by b req t obj) as [[obj' [err|]]|[p|m]]; try done.
  eexists. split; [reflexivity|]. split_and!; try done; simpl; unfold WriteHeader;
    destruct (w_status (c_writer c) =? 400)%Z eqn:E; simpl; try done. by apply Z.eqb_eq in E.
Qed.

(** *** The wildcard type

    The type "*/*", which clients send to accept anything, is compared as it is:
    nothing is offered under that name, so such a client is answered 406. *)
Example any_type_is_refused :
  let Header : headers := {[ "Accept" := ["*/*"] ]} in
  NegotiateFormat Header None [MIMEJSON; MIMEHTML] = Val ("", Some ["*/*"])
  ∧ Negotiate Header None (mkNegotiation string [MIMEJSON; MIMEHTML] "" None None None (Some "data")) = Val NotAcceptable.
Proof. by vm_compute. Qed.
