(* ===== verification/Serving.v ===== *)
(** * From the request to the bytes of the response

    The middleware of gin and the handlers of the console as handler functions of the
    engine, and the theorem that running them through [Next] is the nesting
    "recovery around authentication around handler" the other theorems speak of: the
    same commands in the same order, and the response written to the connection.

    Rendering a template and the text of a redirect are in the standard library and
    in the pages of the console; [PageRender] has them as operations. *)

From stdpp Require Import prelude gmap strings sorting.
From Stdlib Require Import ZArith NArith Ascii.
From S2P Require Import Prelude GoStrings GoSort Api Client Http Engine.

Local Open Scope Z_scope.

(** ** The logger *)

Definition esc (s : string) : string := String "027" s.

Definition green : string := esc "[97;42m".
Definition white : string := esc "[90;47m".
Definition yellow : string := esc "[97;43m".
Definition red : string := esc "[97;41m".
Definition blue : string := esc "[97;44m".
Definition magenta : string := esc "[97;45m".
Definition cyan : string := esc "[97;46m".
Definition reset_color : string := esc "[0m".

Definition colorForStatus (code : Z) : string :=
  if (200 <=? code) && (code <? 300) then green
  else if (300 <=? code) && (code <? 400) then white
  else if (400 <=? code) && (code <? 500) then yellow
  else red.

Definition colorForMethod (method : string) : string :=
  if bool_decide (method = "GET") then blue
  else if bool_decide (method = "POST") then cyan
  else if bool_decide (method = "PUT") then yellow
  else if bool_decide (method = "DELETE") then red
  else if bool_decide (method = "PATCH") then green
  else if bool_decide (method = "HEAD") then magenta
  else if bool_decide (method = "OPTIONS") then white
  else reset_color.

Section serving.
Context `{K : KubeApi}.

(** The line for the context at the end of a request of [path]. *)
Definition log_line_of (path : string) (c : Ctx) : log_line :=
  let statusCode := w_status (c_writer c) in
  mkLog (colorForStatus statusCode) statusCode (colorForMethod (c_method c)) (c_method c) path
    (errors_String (ByType (c_Errors c) ErrorTypePrivate)).

Definition LoggerWithWriter (notlogged : list string) : HandlerFunc :=
  FRead (λ c,
    let path := c_path c in
    FNext (FRead (λ c,
      if bool_decide (path ∈ notlogged) then FReturn
      else FUpdate (ULog (log_line_of path c)) FReturn))).

Definition Logger : HandlerFunc := LoggerWithWriter [].

(** ** Recovery and authentication *)

(** [c.AbortWithStatus(code)]. *)
Definition AbortWithStatus (code : Z) (k : HandlerFunc) : HandlerFunc := FUpdate (UStatus code) (FUpdate UAbort k).

Definition Recovery_func : HandlerFunc := FRecover (FNext FReturn) (AbortWithStatus 500 FReturn).

Definition BasicAuth_func (pairs : list authPair) : HandlerFunc :=
  FRead (λ c,
    match searchCredential pairs (default "" (Header (c_request c) !! "Authorization")) with
    | None => FUpdate (UHeader "WWW-Authenticate" realm) (AbortWithStatus 401 FReturn)
    | Some user => FUpdate (USet AuthUserKey user) FReturn
    end).

(** ** Rendering *)

(** [ExecuteTemplate]: the pieces written and the error that ended it, if any.
    [http_Redirect method path code location], for a request of [method] and [path]:
    the Location header and the body.  [URL_String query path]: the text of the
    request's URL with [path] for its path. *)
Class PageRender : Type := {
  ExecuteTemplate : string → gin_H → list string * option string;
  http_Redirect : string → string → Z → string → string * list string;
  URL_String : gmap string (list string) → string → string;
}.

Context `{PR : !PageRender}.

Fixpoint writes (chunks : list string) (k : HandlerFunc) : HandlerFunc :=
  match chunks with
  | [] => k
  | d :: chunks => FUpdate (UWrite d) (writes chunks k)
  end.

Fixpoint headers_func (hs : list (string * string)) (k : HandlerFunc) : HandlerFunc :=
  match hs with
  | [] => k
  | (key, v) :: hs => FUpdate (UHeader key v) (headers_func hs k)
  end.

Definition htmlContentType : string := "text/html; charset=utf-8".

Definition valid_redirect (code : Z) : bool := ((300 <=? code) && (code <=? 308)) || (code =? 201).

(** [c.HTML] through [c.Render]; an error of the renderer is a panic. *)
Definition html_func (code : Z) (name : string) (obj : gin_H) : HandlerFunc :=
  FUpdate (UStatus code) (FUpdate (UContentType htmlContentType)
    (let '(chunks, err) := ExecuteTemplate name obj in
     writes chunks (match err with None => FReturn | Some e => FPanic (Panicked e) end))).

(** [c.Redirect] through [c.Render(-1, ...)]. *)
Definition redirect_func (code : Z) (location : string) : HandlerFunc :=
  FUpdate (UStatus (-1))
    (if valid_redirect code then
       FRead (λ c,
         let '(loc, body) := http_Redirect (c_method c) (c_path c) code location in
         FUpdate (UHeader "Location" loc) (FUpdate (UStatus code) (writes body FReturn)))
     else FPanic (Panicked ("Cannot redirect with status code " +:+ FormatInt code))).

(** What a handler does last: a page, a redirect or a bare status. *)
Definition render_func (r : response) : HandlerFunc :=
  match r with
  | HTML code name obj => html_func code name obj
  | Redirect code location => redirect_func code location
  | Status code headers => headers_func headers (AbortWithStatus code FReturn)
  end.

(** A handler of the console as a handler function. *)
Fixpoint of_prog (p : prog response) : HandlerFunc :=
  match p with
  | Ret r => render_func r
  | Stop (HPanic e) => FPanic e
  | Stop (HFatal msg) => FFatal msg
  | Do c k => FDo c (λ r, of_prog (k r))
  end.

Definition console_func (h : handler) : HandlerFunc := FRead (λ c, of_prog (h (c_request c))).

(** The chain of a route of the console. *)
Definition console_chain (pairs : list authPair) (h : handler) : list HandlerFunc :=
  [Logger; Recovery_func; BasicAuth_func pairs; console_func h].

End serving.

(** ** Simulation *)

Section sim.
Context `{K : KubeApi}.

(** Two programs that issue the same commands and, for the same answers, end in
    related results or stop in the same way. *)
Inductive sim {A B} (R : A → B → Prop) : prog A → prog B → Prop :=
| sim_ret a b : R a b → sim R (Ret a) (Ret b)
| sim_stop h : sim R (Stop h) (Stop h)
| sim_do c k k' : (∀ r, sim R (k r) (k' r)) → sim R (Do c k) (Do c k').

Lemma sim_bind {A B A' B'} (R : A → B → Prop) (S : A' → B' → Prop) p q f g :
  sim R p q → (∀ a b, R a b → sim S (f a) (g b)) → sim S (p ≫= f) (q ≫= g).
Proof. intros Hp Hf. induction Hp as [a b H|h|c k k' _ IH]; simpl; [by apply Hf|constructor|constructor; auto]. Qed.

Lemma sim_bind_l {A B A'} (R : A → B → Prop) (S : A' → B → Prop) p q f :
  sim R p q → (∀ a b, R a b → sim S (f a) (Ret b)) → sim S (p ≫= f) q.
Proof. intros Hp Hf. induction Hp as [a b H|h|c k k' _ IH]; simpl; [by apply Hf|constructor|constructor; auto]. Qed.

Lemma sim_impl {A B} (R S : A → B → Prop) p q : sim R p q → (∀ a b, R a b → S a b) → sim S p q.
Proof. intros Hp H. induction Hp; constructor; auto. Qed.

(** Simulation is about traces: each execution of one side is one of the other. *)
Lemma sim_exec_l {A B} (R : A → B → Prop) p q tr o :
  sim R p q → exec p tr o → ∃ o', exec q tr o' ∧
    match o, o' with Val a, Val b => R a b | Halt h, Halt h' => h = h' | _, _ => False end.
Proof.
  intros Hs. revert tr. induction Hs as [a b H|h|c k k' _ IH]; intros tr He; simpl in *.
  - destruct He as [-> ->]. by exists (Val b).
  - destruct He as [-> ->]. by exists (Halt h).
  - destruct He as (r & tr' & -> & He). destruct (IH r tr' He) as (o' & He' & Ho). exists o'. split; [|done]. by eexists _, _.
Qed.

Lemma sim_sym {A B} (R : A → B → Prop) p q : sim R p q → sim (λ b a, R a b) q p.
Proof. induction 1; constructor; auto. Qed.

End sim.

(** ** The chains of the console call Next at most once *)

Section linear.
Context `{K : KubeApi, PR : !PageRender}.

Lemma linear_writes chunks k : linear true k → linear true (writes chunks k).
Proof. intros Hk. by induction chunks. Qed.

Lemma linear_headers hs k : linear true k → linear true (headers_func hs k).
Proof. intros Hk. induction hs as [|[] hs IH]; simpl; auto. Qed.

Lemma linear_render r : linear true (render_func r).
Proof.
  destruct r as [code name obj|code loc|code hs]; simpl.
  - destruct (ExecuteTemplate name obj) as [chunks [e|]]; by apply linear_writes.
  - destruct (valid_redirect code); [|done]. intros c. destruct (http_Redirect _ _ _ _) as [loc' body].
    simpl. by apply linear_writes.
  - by apply linear_headers.
Qed.

Lemma linear_of_prog p : linear true (of_prog p).
Proof. induction p as [r|[]|c k IH]; simpl; auto using linear_render. Qed.

Lemma linear_console_chain pairs h : Forall (linear true) (console_chain pairs h).
Proof.
  unfold console_chain. rewrite !Forall_cons. split_and!; [|done| | |constructor].
  - intros c. split; [done|]. intros c'. by case_bool_decide.
  - intros c. by destruct (searchCredential _ _).
  - intros c. apply linear_of_prog.
Qed.

End linear.

(** ** Behind recovery every chain ends *)

Section recovered.
Context `{K : KubeApi}.

Lemma post_and {A} (Q R : A → Prop) (p : prog A) : post Q p → post R p → post (λ a, Q a ∧ R a) p.
Proof. intros HQ HR. induction p as [a|[]|c k IH]; simpl in *; auto. Qed.

Lemma eval_post_True next h c :
  (∀ c, post (λ _, True) (next c)) → post (λ _, True) (eval next h c).
Proof.
  intros Hn. revert c. induction h as [|p|msg|k IH|u k IH|k IH|cm k IH|body IHb rescue IHr]; intros c; simpl; auto.
  - eapply post_bind; [apply Hn|]. intros [[] c'] _; [apply IH|done|done].
  - eapply post_bind; [apply IHb|]. intros [[] c'] _; [done|apply IHr|done].
Qed.

(** A chain is done only with its index behind the last handler. *)
Lemma Next_loop_done fuel hs c :
  (length hs < 63)%nat →
  post (λ ec, ec.1 = Done → Z.of_nat (length hs) <= c_index ec.2) (Next_loop fuel hs c).
Proof.
  intros Hn. revert c. induction fuel as [|fuel IH]; intros c; simpl; [done|]. rewrite wrap8_id by lia.
  destruct (Z.ltb_spec (c_index c) (Z.of_nat (length hs))) as [Hi|Hi]; [|by intros _].
  destruct (if c_index c <? 0 then None else _) as [h|]; [|done].
  eapply post_bind; [apply eval_post_True; intros c'; eapply post_impl; [apply IH|done]|].
  intros [[] c'] _; [apply IH|done|done].
Qed.

Context (rest : list HandlerFunc).
Local Abbreviation hs := (Logger :: Recovery_func :: rest).
Local Abbreviation n := (Z.of_nat (length hs)).

Lemma Next_loop_behind fuel c :
  (length hs < 63)%nat → n <= c_index c → Next_loop (S fuel) hs c = Ret (Done, c).
Proof. intros Hn Hi. cbn [Next_loop]. rewrite wrap8_id by lia. by rewrite (proj2 (Z.ltb_ge _ _)). Qed.

(** From the recovery middleware on. *)
Lemma recovery_catches fuel c :
  (length hs < 63)%nat → Forall (linear true) hs → c_index c = 1 → flow_inv n 0 c → n < Z.of_nat fuel + 2 →
  post (λ ec, ec.1 = Done ∧ n <= c_index ec.2 <= 125) (Next_loop (S fuel) hs c).
Proof.
  intros Hn Hlin Hi Hf Hfuel. cbn [Next_loop]. rewrite wrap8_id by lia. rewrite Hi.
  rewrite (proj2 (Z.ltb_lt _ _)) by (simpl length; lia). cbn [Z.to_nat lookup list_lookup Pos.to_nat Z.ltb Z.compare eval Recovery_func].
  set (c1 := set_flow (c_flow c ++ [Started 1]) c).
  assert (flow_inv n 1 c1) as Hf1.
  { unfold c1. rewrite <- Hi. apply flow_inv_start; rewrite ?Hi; [simpl length; lia|lia|done]. }
  assert (c_index (incr_index c1) = 2) as Hi2 by (simpl; rewrite Hi; reflexivity).
  assert (flow_inv n (2 - 1) (incr_index c1)) as Hf2.
  { rewrite <- Hi2. apply (flow_inv_incr n c1); [done|rewrite Hi2; simpl; lia|]. simpl. by rewrite Hi. }
  eapply (post_bind (λ ec, ec.1 = Done ∧ n <= c_index ec.2 <= 124)).
  - eapply post_bind; [eapply post_bind|].
    + apply post_and; [apply (Next_loop_inv hs fuel (incr_index c1))|apply Next_loop_done; done].
      * lia.
      * done.
      * lia.
      * rewrite Hi2. simpl length in *. lia.
      * by rewrite Hi2.
    + intros [e c2] H. instantiate (1 := λ ec, ec.1 ≠ OutOfFuel ∧ (ec.1 = Done → n <= c_index ec.2) ∧ c_index ec.2 <= 124).
      cbn [fst snd] in H. destruct H as [(He & Hb & _) Hd]. rewrite Hi2 in Hb. destruct e; cbn [post fst snd]; (split_and!; [done|done|lia]).
    + intros [e c2] (He & Hd & Hb). cbn [fst snd] in *. destruct e; [| |done]; cbn [post eval AbortWithStatus fst snd].
      * split; [done|]. specialize (Hd eq_refl). lia.
      * split; [done|]. change (c_index _) with 63. lia.
  - intros [e c2] [He Hb]. cbn [fst snd] in *. subst e.
    assert (c_index (incr_index c2) = c_index c2 + 1) as Hinc by (simpl; apply wrap8_id; lia).
    destruct fuel as [|fuel]; [simpl length in *; lia|]. rewrite Next_loop_behind by (done || lia). cbn [post fst snd].
    split; [done|]. rewrite Hinc. lia.
Qed.

Lemma Next_recovers req m p :
  (length hs < 63)%nat → Forall (linear true) hs →
  post (λ ec, ec.1 = Done) (Next hs (ctx_reset req m p)).
Proof.
  intros Hn Hlin. unfold Next. set (c0 := incr_index (ctx_reset req m p)). assert (c_index c0 = 0) as Hi by done.
  assert (flow_inv n (0 - 1) c0) as Hf.
  { apply (flow_inv_incr n (ctx_reset req m p) c0); [done|done|apply flow_inv_reset]. }
  remember (length hs) as fuel eqn:Hfuel in |- * at 1. cbn [Next_loop]. rewrite wrap8_id by lia. rewrite Hi.
  rewrite (proj2 (Z.ltb_lt _ _)) by (simpl length; lia). cbn [Z.to_nat lookup list_lookup Z.ltb Z.compare eval Logger LoggerWithWriter].
  set (c1 := set_flow (c_flow c0 ++ [Started 0]) c0).
  assert (flow_inv n 0 c1) as Hf1.
  { unfold c1. rewrite <- Hi. apply flow_inv_start; rewrite ?Hi; [simpl length; lia|lia|done]. }
  eapply (post_bind (λ ec, ec.1 = Done ∧ n <= c_index ec.2 <= 125)).
  - subst fuel. eapply post_bind; [apply (recovery_catches (S (length rest)) (incr_index c1)); [done|done|done| |]|].
    + apply (flow_inv_incr n c1 (incr_index c1)); [done|done|done].
    + simpl length. lia.
    + intros [e c2] [He Hb]. cbn [fst snd] in *. subst e.
      rewrite bool_decide_eq_false_2 by apply not_elem_of_nil. cbn [post eval fst snd]. split; [done|]. exact Hb.
  - intros [e c2] [He Hb]. cbn [fst snd] in *. subst e.
    assert (c_index (incr_index c2) = c_index c2 + 1) as Hinc by (simpl; apply wrap8_id; lia).
    subst fuel. simpl length at 1. by rewrite Next_loop_behind by (done || lia).
Qed.

(** One response, whatever the handlers behind recovery do. *)
Lemma serve_chain_recovers req m p :
  (length hs < 63)%nat → Forall (linear true) hs →
  post (λ ec, ec.1 = Done ∧ ∃ code h bodies, w_wire (c_writer ec.2) = WHeader code h :: (WBody <$> bodies)
                ∧ w_size (c_writer ec.2) = body_size bodies)
    (serve_chain hs (ctx_reset req m p)).
Proof.
  intros Hn Hlin. unfold serve_chain. eapply post_bind; [apply post_and|].
  - by apply Next_recovers.
  - apply Next_loop_writer_ok. by left.
  - intros [e c] [He Hw]. cbn [fst snd] in *. subst e. cbn. split; [done|]. by apply WriteHeaderNow_ok.
Qed.

End recovered.

(** ** What a response puts on the wire *)

Section wire.
Context `{K : KubeApi, PR : !PageRender}.

(** The writer ignores a code that is not positive. *)
Definition effective (code : Z) : Z := if 0 <? code then code else defaultStatus.

(** The status a response ends with: a renderer that fails makes it a 500. *)
Definition response_status (r : response) : Z :=
  match r with
  | HTML code name obj =>
      match (ExecuteTemplate name obj).2 with None => effective code | Some _ => 500 end
  | Redirect code _ => if valid_redirect code then code else 500
  | Status code _ => effective code
  end.

(** The headers of a bare status. *)
Definition header_map (hs : list (string * string)) : gmap string string :=
  foldl (λ m kv, if bool_decide (kv.2 = "") then delete kv.1 m else <[kv.1 := kv.2]> m) ∅ hs.

(** Header and body on the connection; the status of a failing template is too late
    once a piece of it was sent. *)
Definition response_wire (method path : string) (r : response) : list wevent :=
  match r with
  | HTML code name obj =>
      let chunks := (ExecuteTemplate name obj).1 in
      WHeader (if bool_decide (chunks = []) then response_status r else effective code)
        {["Content-Type" := htmlContentType]} :: (WBody <$> chunks)
  | Redirect code location =>
      if valid_redirect code then
        let '(loc, body) := http_Redirect method path code location in
        WHeader code (header_map [("Location", loc)]) :: (WBody <$> body)
      else [WHeader 500 ∅]
  | Status code hs => [WHeader (effective code) (header_map hs)]
  end.

(** A writer nothing was written to. *)
Definition fresh_writer (w : responseWriter) : Prop := w_size w = noWritten ∧ w_wire w = [].

Definition write_all (chunks : list string) (w : responseWriter) : responseWriter := foldl (λ w d, Write d w) w chunks.

Lemma eval_writes next chunks k c :
  eval next (writes chunks k) c = eval next k (set_writer (write_all chunks (c_writer c)) c).
Proof. revert c. induction chunks as [|d chunks IH]; intros c; simpl; [by destruct c|]. by rewrite IH. Qed.

Lemma WriteHeaderNow_written w : Written w = true → WriteHeaderNow w = w.
Proof. unfold WriteHeaderNow. by intros ->. Qed.

Lemma Write_written d w : writer_ok w → Written (Write d w) = true.
Proof.
  intros (code & h & bodies & _ & Hs)%WriteHeaderNow_ok. unfold Written. simpl. rewrite Hs.
  rewrite (proj2 (Z.eqb_neq _ _)); [done|]. pose proof (body_size_nonneg bodies). unfold noWritten. lia.
Qed.

Lemma WriteHeaderNow_status w : w_status (WriteHeaderNow w) = w_status w.
Proof. unfold WriteHeaderNow. by destruct (Written w). Qed.

Lemma write_all_written chunks w :
  writer_ok w → Written w = true →
  let w' := write_all chunks w in
  Written w' = true ∧ w_wire w' = w_wire w ++ (WBody <$> chunks) ∧ w_status w' = w_status w.
Proof.
  revert w. induction chunks as [|d chunks IH]; intros w Hok Hw; simpl; [by rewrite app_nil_r|].
  destruct (IH (Write d w)) as (H1 & H2 & H3); [by apply Write_ok|by apply Write_written|].
  split_and!; [done| |].
  - rewrite H2. simpl. rewrite WriteHeaderNow_written, <- app_assoc by done. done.
  - rewrite H3. simpl. apply WriteHeaderNow_status.
Qed.

Lemma write_all_fresh chunks w :
  fresh_writer w →
  let w' := write_all chunks w in
  w_wire (WriteHeaderNow w') = WHeader (w_status w) (w_header w) :: (WBody <$> chunks)
  ∧ w_status w' = w_status w ∧ (chunks ≠ [] → Written w' = true) ∧ (chunks = [] → w' = w).
Proof.
  intros [Hs Hw]. destruct chunks as [|d chunks]; simpl.
  { unfold WriteHeaderNow, Written. rewrite Hs. simpl. by rewrite Hw. }
  assert (writer_ok w) as Hok by (by left).
  destruct (write_all_written chunks (Write d w)) as (H1 & H2 & H3);
    [by apply Write_ok|by apply Write_written|].
  split_and!; [|rewrite H3; simpl; apply WriteHeaderNow_status|done|done].
  rewrite WriteHeaderNow_written, H2 by done. simpl. unfold WriteHeaderNow, Written. rewrite Hs. simpl. by rewrite Hw.
Qed.

Lemma WriteHeader_status code w : w_status w = defaultStatus → w_status (WriteHeader code w) = effective code.
Proof.
  intros Hs. unfold WriteHeader, effective. rewrite Hs. destruct (0 <? code), (Z.eqb_spec defaultStatus code); simpl; congruence.
Qed.

Lemma WriteHeader_same code w :
  w_size (WriteHeader code w) = w_size w ∧ w_wire (WriteHeader code w) = w_wire w
  ∧ w_header (WriteHeader code w) = w_header w.
Proof. unfold WriteHeader. by destruct (_ && _). Qed.

(** A status set after the header was sent changes nothing on the connection. *)
Lemma WriteHeader_written code w :
  Written w = true → w_wire (WriteHeaderNow (WriteHeader code w)) = w_wire (WriteHeaderNow w).
Proof.
  intros H. destruct (WriteHeader_same code w) as (Hs & Hw & _).
  rewrite !WriteHeaderNow_written; [done|done|]. unfold Written. by rewrite Hs.
Qed.

(** How a chain that ended in [e] with [c] continues: after a panic recovery sets a
    500. *)
Definition outcome_writer (e : ending) (c : Ctx) : responseWriter :=
  match e with Panicking _ => WriteHeader 500 (c_writer c) | _ => c_writer c end.

(** A handler function from context [c] ended with the response [r] written. *)
Definition wrote (r : response) (c : Ctx) (ec : ending * Ctx) : Prop :=
  ec.1 ≠ OutOfFuel
  ∧ w_wire (WriteHeaderNow (outcome_writer ec.1 ec.2)) = response_wire (c_method c) (c_path c) r
  ∧ w_status (outcome_writer ec.1 ec.2) = response_status r
  ∧ (c_index ec.2 = c_index c ∨ c_index ec.2 = abort_index)
  ∧ c_log ec.2 = c_log c ∧ c_Errors ec.2 = c_Errors c ∧ c_method ec.2 = c_method c ∧ c_path ec.2 = c_path c.

Lemma eval_headers next hs k c :
  eval next (headers_func hs k) c =
  eval next k (set_writer (foldl (λ w kv, set_header kv.1 kv.2 w) (c_writer c) hs) c).
Proof. revert c. induction hs as [|[key v] hs IH]; intros c; simpl; [by destruct c|]. by rewrite IH. Qed.

Lemma fold_set_header hs w :
  let w' := foldl (λ w kv, set_header kv.1 kv.2 w) w hs in
  w_size w' = w_size w ∧ w_wire w' = w_wire w ∧ w_status w' = w_status w
  ∧ w_header w' = foldl (λ m kv, if bool_decide (kv.2 = "") then delete kv.1 m else <[kv.1 := kv.2]> m) (w_header w) hs.
Proof.
  revert w. induction hs as [|[key v] hs IH]; intros w; simpl; [done|].
  by destruct (IH (set_header key v w)) as (-> & -> & -> & ->).
Qed.

Lemma WriteHeaderNow_fresh w :
  fresh_writer w → w_wire (WriteHeaderNow w) = [WHeader (w_status w) (w_header w)].
Proof. intros [Hs Hw]. unfold WriteHeaderNow, Written. rewrite Hs. simpl. by rewrite Hw. Qed.

Lemma fresh_WriteHeader code w : fresh_writer w → fresh_writer (WriteHeader code w).
Proof. intros [Hs Hw]. destruct (WriteHeader_same code w) as (H1 & H2 & _). split; congruence. Qed.

(** Rendering from a context that has written nothing. *)
Lemma render_wrote next r c :
  c_writer c = w_reset → ∃ ec, eval next (render_func r) c = Ret ec ∧ wrote r c ec.
Proof.
  intros Hc. destruct r as [code name obj|code location|code hs]; simpl.
  - destruct (ExecuteTemplate name obj) as [chunks err] eqn:Ht. rewrite eval_writes. rewrite Hc. simpl.
    set (w := writeContentType htmlContentType (WriteHeader code w_reset)).
    assert (fresh_writer w ∧ w_status w = effective code ∧ w_header w = {["Content-Type" := htmlContentType]})
      as (Hf & Hst & Hh).
    { subst w. unfold writeContentType. destruct (WriteHeader_same code w_reset) as (H1 & H2 & H3).
      rewrite H3. simpl. split_and!; [by split|by apply WriteHeader_status|done]. }
    destruct (write_all_fresh chunks w Hf) as (Hwire & Hstat & Hwr & Hnil).
    destruct err as [e|]; simpl; (eexists; split; [done|]); unfold wrote; simpl; rewrite Ht; simpl;
      (split_and!; [done|..|by left|done|done|done|done]).
    + case_bool_decide as Hch.
      * rewrite Hnil, Hch by done. rewrite WriteHeaderNow_fresh by (by apply fresh_WriteHeader).
        destruct (WriteHeader_same 500 w) as (_ & _ & ->). rewrite Hh. f_equal. f_equal.
        unfold WriteHeader. destruct (Z.eqb_spec (w_status w) 500); done.
      * rewrite WriteHeader_written by auto. by rewrite Hwire, Hst, Hh.
    + unfold WriteHeader. rewrite Hstat. destruct (Z.eqb_spec (w_status w) 500); simpl; [congruence|done].
    + rewrite Hwire, Hst, Hh. by case_bool_decide.
    + congruence.
  - destruct (valid_redirect code) eqn:Hv; simpl.
    + rewrite Hc. destruct (http_Redirect (c_method c) (c_path c) code location) as [loc body] eqn:Hr. simpl.
      rewrite eval_writes. simpl. set (w := WriteHeader code _).
      assert (0 < code) as Hpos by (unfold valid_redirect in Hv; lia).
      assert (fresh_writer w ∧ w_status w = code ∧ w_header w = header_map [("Location", loc)]) as (Hf & Hst & Hh).
      { subst w. destruct (WriteHeader_same code (set_header "Location" loc (WriteHeader (-1) w_reset))) as (H1 & H2 & H3).
        split_and!; [by split|rewrite WriteHeader_status by done; unfold effective; by rewrite (proj2 (Z.ltb_lt _ _))|done]. }
      destruct (write_all_fresh body w Hf) as (Hwire & Hstat & _).
      eexists. split; [done|]. unfold wrote. simpl. rewrite Hv, Hr.
      split_and!; [done|by rewrite Hwire, Hst, Hh|congruence|by left|done|done|done|done].
    + eexists. split; [done|]. unfold wrote. simpl. rewrite Hv, Hc.
      split_and!; [done|done|done|by left|done|done|done|done].
  - rewrite eval_headers. simpl. rewrite Hc. eexists. split; [done|]. unfold wrote. simpl.
    destruct (fold_set_header hs w_reset) as (H1 & H2 & H3 & H4).
    set (w := foldl _ w_reset hs) in *. pose proof (WriteHeader_same code w) as (_ & _ & Hh).
    assert (fresh_writer w) as Hf by (by split).
    split_and!; [done| |by apply WriteHeader_status|by right|done|done|done|done].
    rewrite WriteHeaderNow_fresh by (by apply fresh_WriteHeader).
    rewrite WriteHeader_status, Hh, H4 by done. done.
Qed.

(** A handler function of the console issues the commands of its handler and writes
    its response; a panic becomes the response of recovery. *)
Lemma sim_of_prog next p c :
  c_writer c = w_reset →
  sim (λ ec resp, wrote resp c ec) (eval next (of_prog p) c) (recover p).
Proof.
  intros Hc. induction p as [r|[e|msg]|cm k IH]; simpl.
  - destruct (render_wrote next r c Hc) as (ec & -> & Hw). by constructor.
  - constructor. unfold wrote. simpl. rewrite Hc. split_and!; [done|done|done|by left|done|done|done|done].
  - constructor.
  - constructor. intros r. apply IH.
Qed.

(** ** The whole chain *)

(** The index at which the loop goes on after a handler of a chain of four. *)
Lemma Next_loop_end fuel hs c :
  length hs = 4%nat → 4 <= c_index c → Next_loop (S fuel) hs c = Ret (Done, c).
Proof.
  intros Hl Hi. cbn [Next_loop]. rewrite Hl. change (wrap8 (Z.of_nat 4)) with 4.
  by rewrite (proj2 (Z.ltb_ge _ _)).
Qed.

Lemma Next_loop_run fuel hs c i hf :
  length hs = 4%nat → c_index c = Z.of_nat i → hs !! i = Some hf →
  Next_loop (S fuel) hs c =
    '(e, c) ← eval (λ c, Next_loop fuel hs (incr_index c)) hf (set_flow (c_flow c ++ [Started (c_index c)]) c);
    match e with Done => Next_loop fuel hs (incr_index c) | _ => Ret (e, c) end.
Proof.
  intros Hl Hi Hh. pose proof (lookup_lt_Some _ _ _ Hh). cbn [Next_loop]. rewrite Hl.
  change (wrap8 (Z.of_nat 4)) with 4. rewrite Hi.
  rewrite (proj2 (Z.ltb_lt _ _)), (proj2 (Z.ltb_ge _ _)) by lia. by rewrite Nat2Z.id, Hh.
Qed.

Section chain.
Context (pairs : list authPair) (h : handler) (req : Context) (m p : string).

Local Abbreviation chain := (console_chain pairs h).

Definition started_at (i : Z) (w : responseWriter) (r : Context) (f : list flow_event) : Ctx :=
  mkCtx i r m p w [] [] f.

(** After the inner handlers: the index is past them, the logger's list is empty. *)
Definition inner_done (ec : ending * Ctx) (resp : response) : Prop :=
  ec.1 ≠ OutOfFuel
  ∧ w_wire (WriteHeaderNow (outcome_writer ec.1 ec.2)) = response_wire m p resp
  ∧ w_status (outcome_writer ec.1 ec.2) = response_status resp
  ∧ (2 <= c_index ec.2 <= 70 ∧ (ec.1 = Done → 4 <= c_index ec.2)) ∧ c_log ec.2 = [] ∧ c_Errors ec.2 = [] ∧ c_method ec.2 = m ∧ c_path ec.2 = p.

Lemma incr_small c : -1 <= c_index c <= 126 → c_index (incr_index c) = c_index c + 1.
Proof. intros H. simpl. apply wrap8_id. lia. Qed.

(** The handler of the console, last in the chain. *)
Lemma sim_handler fuel r f :
  sim inner_done (Next_loop (S (S fuel)) chain (started_at 3 w_reset r f)) (recover (h r)).
Proof.
  rewrite (Next_loop_run _ _ _ 3 (console_func h)) by done. cbn [eval console_func].
  eapply sim_bind_l; [by apply sim_of_prog|].
  intros [e c] resp (He & Hw & Hs & Hi & Hl & Herr & Hm & Hp).
  cbn [c_index c_log c_Errors c_method c_path c_request started_at set_flow fst snd] in *. unfold abort_index in Hi.
  destruct e; [|constructor; unfold inner_done; simpl in *; rewrite Hl, Herr, Hm, Hp; split_and!; try done; lia|done].
  assert (c_index (incr_index c) = c_index c + 1) as Hincr by (apply incr_small; lia).
  rewrite Next_loop_end by (done || lia). constructor. unfold inner_done. cbn [fst snd]. rewrite Hincr.
  split_and!; [done|exact Hw|exact Hs|lia|lia|lia|done|done|done|done].
Qed.

(** Authentication, and the handler behind it. *)
Lemma sim_auth fuel f :
  sim inner_done (Next_loop (S (S (S fuel))) chain (started_at 2 w_reset req f))
    (recover (BasicAuth pairs h req)).
Proof.
  rewrite (Next_loop_run _ _ _ 2 (BasicAuth_func pairs)) by done. cbn [eval BasicAuth_func]. unfold BasicAuth.
  cbn [c_request started_at set_flow].
  destruct (searchCredential pairs (default "" (Header req !! "Authorization"))) as [user|].
  - apply sim_handler.
  - cbn [eval AbortWithStatus mbind prog_bind prog_bind_def recover].
    rewrite Next_loop_end by done. constructor. split_and!; done.
Qed.

(** Recovery around them: a panic is no longer one. *)
Definition recovered (ec : ending * Ctx) (resp : response) : Prop :=
  ec.1 = Done
  ∧ w_wire (WriteHeaderNow (c_writer ec.2)) = response_wire m p resp
  ∧ w_status (c_writer ec.2) = response_status resp
  ∧ 4 <= c_index ec.2 <= 71 ∧ c_log ec.2 = [] ∧ c_Errors ec.2 = [] ∧ c_method ec.2 = m ∧ c_path ec.2 = p.

Lemma sim_recovery f :
  sim recovered (Next_loop 4 chain (started_at 1 w_reset req f)) (recover (BasicAuth pairs h req)).
Proof.
  rewrite (Next_loop_run _ _ _ 1 Recovery_func) by done. cbn [eval Recovery_func AbortWithStatus].
  eapply (sim_bind_l (λ ec resp, recovered ec resp ∧ c_index ec.2 <= 70)).
  - eapply (sim_bind_l inner_done).
    + eapply (sim_bind_l inner_done); [apply sim_auth|].
      intros [[] c] resp Hd; constructor; done.
    + intros [e c] resp (He & Hw & Hs & Hi & Hl & Herr & Hm & Hp). cbn [fst snd] in *.
      destruct e; [| |done]; constructor; unfold recovered; cbn [fst snd].
      * destruct Hi as [? Hd]. specialize (Hd eq_refl). split; [|lia]. split_and!; [done|exact Hw|exact Hs|lia|lia|done|done|done|done].
      * split; [|simpl; unfold abort_index; lia].
        split_and!; [done|exact Hw|exact Hs|simpl; unfold abort_index; lia..|done|done|done|done].
  - intros [e c] resp [(He & Hw & Hs & Hi & Hl & Herr & Hm & Hp) Hi']. cbn [fst snd] in *. subst e.
    assert (c_index (incr_index c) = c_index c + 1) as Hincr by (apply incr_small; lia).
    rewrite Next_loop_end by (done || lia). constructor. unfold recovered. cbn [fst snd]. rewrite Hincr.
    split_and!; [done|exact Hw|exact Hs|lia|lia|done|done|done|done].
Qed.

Lemma sim_console_chain :
  sim (λ ec resp, ec.1 = Done ∧ w_wire (c_writer ec.2) = response_wire m p resp
         ∧ c_log ec.2 = [mkLog (colorForStatus (response_status resp)) (response_status resp)
                           (colorForMethod m) m p ""])
    (serve_chain chain (ctx_reset req m p))
    (Recovery (BasicAuth pairs h) req).
Proof.
  unfold serve_chain, Next, Recovery. change (length chain) with 4%nat.
  eapply sim_bind_l with (R := λ ec resp, ec.1 = Done ∧ w_wire (WriteHeaderNow (c_writer ec.2)) = response_wire m p resp
         ∧ c_log ec.2 = [mkLog (colorForStatus (response_status resp)) (response_status resp) (colorForMethod m) m p ""]).
  2:{ intros [e c] resp (He & Hw & Hl). simpl in He. subst e. by constructor. }
  rewrite (Next_loop_run _ _ _ 0 Logger) by done. cbn [eval Logger LoggerWithWriter].
  eapply (sim_bind_l (λ ec resp, ec.1 = Done ∧ w_wire (WriteHeaderNow (c_writer ec.2)) = response_wire m p resp
    ∧ c_log ec.2 = [mkLog (colorForStatus (response_status resp)) (response_status resp) (colorForMethod m) m p ""]
    ∧ 4 <= c_index ec.2 <= 71)).
  - eapply (sim_bind_l recovered); [apply sim_recovery|].
    intros [e c] resp (He & Hw & Hs & Hi & Hl & Herr & Hm & Hp). cbn [fst snd] in *. subst e.
    rewrite bool_decide_eq_false_2 by apply not_elem_of_nil. constructor. cbn [fst snd].
    split_and!; [done|exact Hw| |simpl; lia|simpl; lia].
    simpl. rewrite Hl. unfold log_line_of. by rewrite Herr, Hm, Hs.
  - intros [e c] resp (He & Hw & Hl & Hi). cbn [fst snd] in *. subst e.
    assert (c_index (incr_index c) = c_index c + 1) as Hincr by (apply incr_small; lia).
    rewrite Next_loop_end by (done || lia). by constructor.
Qed.

(** C14. gin's way of running a console route, a loop over the chain that nests through
    Next and stops through Abort, is the nesting of recovery, authentication and
    handler: it issues the same commands in the same order, and ends with the
    response of that nesting written to the connection and one line in the log with
    its status. *)
Theorem serving_is_nesting :
  sim (λ ec resp, ec.1 = Done ∧ w_wire (c_writer ec.2) = response_wire m p resp
         ∧ c_log ec.2 = [mkLog (colorForStatus (response_status resp)) (response_status resp)
                           (colorForMethod m) m p ""])
    (serve_chain chain (ctx_reset req m p))
    (Recovery (BasicAuth pairs h) req).
Proof. exact sim_console_chain. Qed.

End chain.

End wire.

(** ** Witnesses *)

#[local] Existing Instance demo_KubeApi.

Definition demo_PageRender : PageRender := {|
  ExecuteTemplate name _ := ([name], None);
  http_Redirect _ _ _ location := (location, []);
  URL_String _ path := path;
|}.

#[local] Existing Instance demo_PageRender.

(** A handler that asks for the time and renders a page. *)
Definition demo_handler : handler := λ _, Do Now (λ _, Ret (HTML 200 "overview" [])).

Definition demo_chain : list HandlerFunc := console_chain [mkAuthPair "Basic YQ==" "a"] demo_handler.

Definition demo_get : Context := mkContext [] ∅ ∅ ∅ ∅ ∅.

Lemma Next_terminates_witness :
  post (λ ec, ec.1 ≠ OutOfFuel ∧ 0 <= c_index ec.2 <= 126) (Next demo_chain (ctx_reset demo_get "GET" "/")).
Proof. apply Next_terminates; [simpl; lia|apply linear_console_chain]. Defined.

Lemma Next_runs_in_order_witness :
  post (λ ec, StronglySorted Z.lt (started (c_flow ec.2))
              ∧ Forall (λ i, 0 <= i < Z.of_nat (length demo_chain)) (started (c_flow ec.2))
              ∧ stops_at_abort (c_flow ec.2)) (Next demo_chain (ctx_reset demo_get "GET" "/")).
Proof. apply Next_runs_in_order; [simpl; lia|apply linear_console_chain]. Defined.
