(* ===== verification/Frontend.v ===== *)
(** * The server: from a request to its response

    [ServeHTTP] of gin with the trees main builds: routing, the chain of handler
    functions, the redirect to the other trailing slash, and the 404.  The main theorem
    puts the router, the engine and the handlers together. *)

From stdpp Require Import prelude gmap strings.
From Stdlib Require Import ZArith NArith Ascii.
From S2P Require Import Prelude GoStrings GoSort RadixTree Float64 Api Page Versions KubeUtil Client Render PodActions Http Handlers Demo Routes Router Engine Serving.

Local Open Scope Z_scope.

Section frontend.
Context `{K : KubeApi, GS : GoSort, MR : MapRange, PF : Platform, EO : EventOrder, TF : TimeFormat,
          J : !JsonApi, NR : !NodeReference, PR : !PageRender}.
(** [static_func dir] is the file server of a static directory. *)
Context (KubeConfigFile : string) (pairs : list authPair) (static_func : string → HandlerFunc).

(** The functions main puts into the chains. *)
Definition func_of (x : hid) : HandlerFunc :=
  match x with
  | HLogger => Logger
  | HRecovery => Recovery_func
  | HBasicAuth => BasicAuth_func pairs
  | HStatic dir => static_func dir
  | HConsole i =>
      match routes KubeConfigFile !! i with
      | Some r => console_func (route_handler r)
      | None => FPanic NilDereference
      end
  end.

Definition default404Body : string := "404 page not found".

(** [http.Redirect] by redirectTrailingSlash, and the header sent at once. *)
Definition redirectTrailingSlash (code : Z) (path : string) (c : Ctx) : Ctx :=
  let '(loc, body) := http_Redirect (c_method c) path code (URL_String (URL_Query (c_request c)) path) in
  let w := WriteHeader code (set_header "Location" loc (c_writer c)) in
  set_writer (WriteHeaderNow (write_all body w)) c.

(** engine.Use(Logger(), Recovery()) makes the chain of requests without a route. *)
Definition allNoRoute : list hid := [HLogger; HRecovery].

Definition ServeHTTP (trees : methodTrees) (req : Context) (m p : string) (cap : nat) : prog (ending * Ctx) :=
  match handleHTTPRequest trees m p cap with
  | Val (Chain hs ps) => serve_chain (func_of <$> hs) (ctx_reset (set_Params ps req) m p)
  | Val (SlashRedirect code path) => Ret (Done, redirectTrailingSlash code path (ctx_reset req m p))
  | Val NotFound => serveError (func_of <$> allNoRoute) 404 default404Body (ctx_reset req m p)
  | Halt h => Stop h
  end.

(** The answer to a request no route fits. *)
Lemma serve_404 req m p :
  ∃ c, serveError (func_of <$> allNoRoute) 404 default404Body (ctx_reset req m p) = Ret (Done, c)
    ∧ w_wire (c_writer c) = [WHeader 404 {["Content-Type" := "text/plain"]}; WBody default404Body]
    ∧ w_size (c_writer c) = body_size [default404Body].
Proof. eexists. split; [vm_compute; reflexivity|split; reflexivity]. Qed.

Lemma serve_redirect code path req m p :
  let c := redirectTrailingSlash code path (ctx_reset req m p) in
  let '(loc, body) := http_Redirect m path code (URL_String (URL_Query req) path) in
  w_wire (c_writer c) = WHeader (effective code) (header_map [("Location", loc)]) :: (WBody <$> body).
Proof.
  unfold redirectTrailingSlash. simpl. destruct (http_Redirect m path code (URL_String (URL_Query req) path)) as [loc body]. simpl.
  set (w := WriteHeader code (set_header "Location" loc w_reset)).
  destruct (WriteHeader_same code (set_header "Location" loc w_reset)) as (H1 & H2 & H3).
  destruct (write_all_fresh body w) as (Hw & _); [by split|]. rewrite Hw. subst w.
  rewrite WriteHeader_status, H3 by done. done.
Qed.

(** Every chain main registers starts with the logger and recovery. *)
Lemma registered_chain m p hs :
  (p, hs) ∈ registered m → ∃ rest, hs = HLogger :: HRecovery :: rest ∧ (length rest ≤ 2)%nat.
Proof.
  assert (∀ m', (p, hs) ∈ console_table m' 0 route_table →
    ∃ rest, hs = HLogger :: HRecovery :: rest ∧ (length rest ≤ 2)%nat) as Hcon.
  { intros m' (j & _ & ->)%elem_of_console_table. eexists. split; [done|simpl; lia]. }
  assert ((p, hs) ∈ static_table → ∃ rest, hs = HLogger :: HRecovery :: rest ∧ (length rest ≤ 2)%nat) as Hst.
  { intros (dir & [= -> ->] & _)%list_elem_of_fmap. eexists. split; [done|simpl; lia]. }
  unfold registered. repeat case_bool_decide; [intros [?|?]%elem_of_app; eauto|eauto|eauto|by intros ?%not_elem_of_nil].
Qed.

Lemma linear_func_of x :
  (∀ dir, linear true (static_func dir)) → linear true (func_of x).
Proof.
  intros Hstatic. destruct x as [| | |dir|i]; cbn [func_of]; [|done| |done|].
  - intros c. split; [done|]. intros c'. by case_bool_decide.
  - intros c. by destruct (searchCredential _ _).
  - destruct (routes KubeConfigFile !! i); [|done]. intros c. apply linear_of_prog.
Qed.

(** Exactly one response: a header, then the body its size counts. *)
Definition responded (c : Ctx) : Prop :=
  ∃ code h bodies, w_wire (c_writer c) = WHeader code h :: (WBody <$> bodies)
    ∧ w_size (c_writer c) = body_size bodies.

Lemma redirect_responded code path req m p :
  responded (redirectTrailingSlash code path (ctx_reset req m p)).
Proof.
  unfold redirectTrailingSlash. destruct (http_Redirect _ _ _ _) as [loc body].
  apply WriteHeaderNow_ok. simpl. set (w := WriteHeader code (set_header "Location" loc w_reset)).
  assert (writer_ok w) as Hw.
  { left. subst w. unfold WriteHeader. by destruct (_ && _). }
  clearbody w. revert w Hw. induction body as [|d body IH]; intros w Hw; [done|]. simpl. by apply IH, Write_ok.
Qed.

(** A request ends with its response. *)
Definition answered (ec : ending * Ctx) : Prop := ec.1 = Done ∧ responded ec.2.

Lemma ServeHTTP_answers req m p cap :
  (∀ dir, linear true (static_func dir)) → post answered (ServeHTTP the_trees req m p cap).
Proof.
  intros Hstatic. destruct (handleHTTPRequest_spec m p cap) as (o & Ho & Hms). unfold ServeHTTP. rewrite Ho.
  destruct o as [hs ps|code path|].
  - assert ((hs, ps) ∈ matches (table_routes (registered m)) p) as Hin by (rewrite Hms; by apply list_elem_of_singleton).
    apply elem_of_matches in Hin as (pat & Hreg & _). destruct (registered_chain _ _ _ Hreg) as (rest & -> & Hlen).
    rewrite !fmap_cons. apply serve_chain_recovers; [cbn [length]; rewrite length_fmap; lia|].
    apply (Forall_fmap func_of (linear true) (HLogger :: HRecovery :: rest)), Forall_true. intros x. by apply linear_func_of.
  - split; [done|]. apply redirect_responded.
  - destruct (serve_404 req m p) as (c & -> & Hw & Hs). split; [done|]. by exists 404, {["Content-Type" := "text/plain"]}, [default404Body].
Qed.

(** C5. Every request gets exactly one response: whatever the method, the path and
    the request, whatever the handlers do and the cluster answers, and wherever a
    handler panics, the server ends the request normally with one header and its body
    on the connection; only a fatal log ends it otherwise, and it ends the process. *)
Theorem every_request_gets_one_response req m p cap :
  (∀ dir, linear true (static_func dir)) →
  post answered (ServeHTTP the_trees req m p cap).
Proof. apply ServeHTTP_answers. Qed.

(** C3. The server answers every request by the route table: a request that fits a
    route runs that route's handler behind recovery and authentication, with the
    parameters of its path, and gets that response; a request that fits no
    registration runs no handler and is redirected to the path with the other
    trailing slash or gets the 404 page.  Routing never panics. *)
Theorem ServeHTTP_exact req m p cap :
  main_trees = Val the_trees
  ∧ (∀ i r ps, routes KubeConfigFile !! i = Some r → method_name (route_method r) = m →
       match_toks (pattern_of (route_path r)) p = Some ps →
       sim (λ ec resp, ec.1 = Done ∧ w_wire (c_writer ec.2) = response_wire m p resp)
         (ServeHTTP the_trees req m p cap) (serve pairs r (set_Params ps req)))
  ∧ (matches (table_routes (registered m)) p = [] →
     ∃ c, ServeHTTP the_trees req m p cap = Ret (Done, c)
       ∧ (w_wire (c_writer c) = [WHeader 404 {["Content-Type" := "text/plain"]}; WBody default404Body]
          ∨ ∃ code, (code = 301 ∨ code = 307) ∧
            let '(loc, body) := http_Redirect m (other_slash p) code (URL_String (URL_Query req) (other_slash p)) in
            w_wire (c_writer c) = WHeader code (header_map [("Location", loc)]) :: (WBody <$> body))).
Proof.
  split; [apply main_trees_Val|]. destruct (handleHTTPRequest_spec m p cap) as (o & Ho & Hms).
  unfold ServeHTTP. rewrite Ho. split.
  - intros i r ps Hr <- Hm.
    assert (([HLogger; HRecovery; HBasicAuth; HConsole i], ps) ∈ matches (table_routes (registered _)) p) as Hin
      by (apply elem_of_matches; eauto using registered_route).
    rewrite Hms in Hin. destruct o as [hs qs| |]; [|by apply not_elem_of_nil in Hin..].
    apply list_elem_of_singleton in Hin as [= <- <-]. simpl. rewrite Hr.
    eapply sim_impl; [apply sim_console_chain|]. intros ec resp (? & ? & _). done.
  - intros Hnone. rewrite Hnone in Hms. destruct o as [hs ps|code path|]; [done| |].
    + eexists. split; [done|]. right. exists code.
      assert ((code = 301 ∨ code = 307) ∧ path = other_slash p) as [Hcode ->].
      { unfold handleHTTPRequest in Ho. destruct (trees_get the_trees m); [|done].
        destruct (getValue n p [] cap) as [[[hs ps] tsr]|h]; [|done]. destruct hs; [done|]. simpl in Ho.
        destruct (_ && tsr); [|done]. injection Ho as <- <-. case_bool_decide; auto. }
      split; [done|]. pose proof (serve_redirect code (other_slash p) req m p) as Hw. simpl in Hw.
      destruct (http_Redirect m (other_slash p) code (URL_String (URL_Query req) (other_slash p))) as [loc body]. rewrite Hw. by destruct Hcode as [->| ->].
    + destruct (serve_404 req m p) as (c & -> & Hw & _). exists c. split; [done|by left].
Qed.

End frontend.

(** ** Witness *)

Section witness.
#[local] Existing Instances demo_KubeApi insertion_GoSort list_MapRange amd64 demo_EventOrder
  demo_TimeFormat demo_JsonApi demo_NodeReference demo_PageRender.

(** A file server that writes the name of its directory. *)
Definition demo_static (dir : string) : HandlerFunc := FUpdate (UWrite dir) FReturn.

Lemma every_request_gets_one_response_witness :
  post answered
    (ServeHTTP "kubeconfig.json" [mkAuthPair "Basic YTpi" "a"] demo_static the_trees demo_get "GET" "/js/app.js" 0).
Proof. apply every_request_gets_one_response. intros dir. exact I. Defined.

End witness.
