(* ===== verification/Gin.v ===== *)
(** * The engine of gin, for any application

    gin.go and routergroup.go as a library: an engine is configured by a sequence of calls
    ([op]: middleware, groups, routes, static files, the handlers of 404 and 405, the
    options), and then dispatches requests ([dispatch]) with every option the console
    leaves off: the redirect to another spelling, and the answer 405.  The main theorem
    gives the answer to every request from the list of the registrations
    alone; the console is one such engine. *)

From stdpp Require Import prelude gmap strings.
From Stdlib Require Import ZArith NArith Ascii.
From S2P Require Import Prelude GoStrings GoSort RadixTree RadixPatterns RadixInsert RadixBuild RadixTables SlashRedirect CleanPath CaseLookup Float64 Api Page Client Render Http Handlers Demo Routes Router RouteListing Engine Serving Frontend.

(** ** Configuration *)

(** [group] is the RouterGroup of the engine itself; [subgroups] are those made with
    [Group], in order. *)
Record GinEngine : Type := mkEngine {
  group : RouterGroup;
  subgroups : list RouterGroup;
  trees : methodTrees;
  noRoute : HandlersChain;
  noMethod : HandlersChain;
  allNoRoute : HandlersChain;
  allNoMethod : HandlersChain;
  RedirectTrailingSlash : bool;
  RedirectFixedPath : bool;
  HandleMethodNotAllowed : bool;
}.

Definition set_group g (e : GinEngine) : GinEngine :=
  mkEngine g (subgroups e) (trees e) (noRoute e) (noMethod e) (allNoRoute e) (allNoMethod e)
    (RedirectTrailingSlash e) (RedirectFixedPath e) (HandleMethodNotAllowed e).
Definition set_subgroups l (e : GinEngine) : GinEngine :=
  mkEngine (group e) l (trees e) (noRoute e) (noMethod e) (allNoRoute e) (allNoMethod e)
    (RedirectTrailingSlash e) (RedirectFixedPath e) (HandleMethodNotAllowed e).
Definition set_trees t (e : GinEngine) : GinEngine :=
  mkEngine (group e) (subgroups e) t (noRoute e) (noMethod e) (allNoRoute e) (allNoMethod e)
    (RedirectTrailingSlash e) (RedirectFixedPath e) (HandleMethodNotAllowed e).
Definition set_noRoute hs all (e : GinEngine) : GinEngine :=
  mkEngine (group e) (subgroups e) (trees e) hs (noMethod e) all (allNoMethod e)
    (RedirectTrailingSlash e) (RedirectFixedPath e) (HandleMethodNotAllowed e).
Definition set_noMethod hs all (e : GinEngine) : GinEngine :=
  mkEngine (group e) (subgroups e) (trees e) (noRoute e) hs (allNoRoute e) all
    (RedirectTrailingSlash e) (RedirectFixedPath e) (HandleMethodNotAllowed e).
Definition set_options slash fixed allowed (e : GinEngine) : GinEngine :=
  mkEngine (group e) (subgroups e) (trees e) (noRoute e) (noMethod e) (allNoRoute e) (allNoMethod e) slash fixed allowed.

Definition New : GinEngine := mkEngine (mkGroup [] "/") [] [] [] [] [] [] true false false.

Definition rebuild404Handlers (e : GinEngine) : go GinEngine :=
  all ← combineHandlers (group e) (noRoute e);
  Val (set_noRoute (noRoute e) all e).

Definition rebuild405Handlers (e : GinEngine) : go GinEngine :=
  all ← combineHandlers (group e) (noMethod e);
  Val (set_noMethod (noMethod e) all e).

(** [NoRoute] and [NoMethod]. *)
Definition NoRoute (e : GinEngine) (hs : HandlersChain) : go GinEngine := rebuild404Handlers (set_noRoute hs (allNoRoute e) e).
Definition NoMethod (e : GinEngine) (hs : HandlersChain) : go GinEngine := rebuild405Handlers (set_noMethod hs (allNoMethod e) e).

Definition group_Use (g : RouterGroup) (middleware : HandlersChain) : RouterGroup :=
  mkGroup (group_Handlers g ++ middleware) (basePath g).

Definition engine_Use (e : GinEngine) (middleware : HandlersChain) : go GinEngine :=
  e ← rebuild404Handlers (set_group (group_Use (group e) middleware) e);
  rebuild405Handlers e.

Definition Default : go GinEngine := engine_Use New [HLogger; HRecovery].

(** The regular expression "^[A-Z]+$". *)
Definition is_upper (a : ascii) : bool := N.leb 65 (N_of_ascii a) && N.leb (N_of_ascii a) 90.
Definition method_valid (m : string) : bool := negb (bool_decide (m = "")) && sforallb is_upper m.

(** The handler methods of a group; the shortcuts GET, POST and so on are [handle] with
    their name. *)
Definition Handle (g : RouterGroup) (ts : methodTrees) (httpMethod relativePath : string) (hs : HandlersChain) : go methodTrees :=
  if method_valid httpMethod then handle g ts httpMethod relativePath hs
  else gopanic (Panicked ("http method " +:+ httpMethod +:+ " is not valid")).

Fixpoint handle_all (g : RouterGroup) (ts : methodTrees) (ms : list string) (relativePath : string) (hs : HandlersChain) :
    go methodTrees :=
  match ms with
  | [] => Val ts
  | m :: ms => ts ← handle g ts m relativePath hs; handle_all g ts ms relativePath hs
  end.

Definition Any (g : RouterGroup) (ts : methodTrees) (relativePath : string) (hs : HandlersChain) : go methodTrees :=
  handle_all g ts ["GET"; "POST"; "PUT"; "PATCH"; "HEAD"; "OPTIONS"; "DELETE"; "CONNECT"; "TRACE"] relativePath hs.

(** [file] is the function that calls c.File. *)
Definition StaticFile (g : RouterGroup) (ts : methodTrees) (relativePath : string) (file : hid) : go methodTrees :=
  if negb (sforallb (λ a, negb (is_wild a)) relativePath) then
    gopanic (Panicked "URL parameters can not be used when serving a static file")
  else handle_all g ts ["GET"; "HEAD"] relativePath [file].

(** A call that configures an engine, by the number of the group it is made on: 0 is the
    engine. *)
Inductive op : Type :=
| OUse (i : nat) (middleware : HandlersChain)
| OGroup (i : nat) (relativePath : string) (hs : HandlersChain)
| ONoRoute (hs : HandlersChain)
| ONoMethod (hs : HandlersChain)
| OHandle (i : nat) (httpMethod relativePath : string) (hs : HandlersChain)
| OAny (i : nat) (relativePath : string) (hs : HandlersChain)
| OStaticFile (i : nat) (relativePath : string) (file : hid)
| OStatic (i : nat) (relativePath dir : string)
| OOptions (slash fixed allowed : bool).

Definition the_group (e : GinEngine) (i : nat) : go RouterGroup :=
  match i with O => Val (group e) | S i => index (subgroups e) i end.

Definition register_on (e : GinEngine) (i : nat) (f : RouterGroup → methodTrees → go methodTrees) : go GinEngine :=
  g ← the_group e i;
  ts ← f g (trees e);
  Val (set_trees ts e).

Definition configure (e : GinEngine) (o : op) : go GinEngine :=
  match o with
  | OUse O middleware => engine_Use e middleware
  | OUse (S i) middleware =>
      g ← index (subgroups e) i;
      Val (set_subgroups (<[i := group_Use g middleware]> (subgroups e)) e)
  | OGroup i relativePath hs =>
      g ← the_group e i;
      g ← Group g relativePath hs;
      Val (set_subgroups (subgroups e ++ [g]) e)
  | ONoRoute hs => NoRoute e hs
  | ONoMethod hs => NoMethod e hs
  | OHandle i m relativePath hs => register_on e i (λ g ts, Handle g ts m relativePath hs)
  | OAny i relativePath hs => register_on e i (λ g ts, Any g ts relativePath hs)
  | OStaticFile i relativePath file => register_on e i (λ g ts, StaticFile g ts relativePath file)
  | OStatic i relativePath dir => register_on e i (λ g ts, Static g ts relativePath dir)
  | OOptions slash fixed allowed => Val (set_options slash fixed allowed e)
  end.

Fixpoint run_ops (e : GinEngine) (l : list op) : go GinEngine :=
  match l with
  | [] => Val e
  | o :: l => e ← configure e o; run_ops e l
  end.

(** ** Dispatch *)

Inductive reply : Type :=
| Found (hs : HandlersChain) (params : list (string * string))
| Redirect (code : Z) (path : string)
| MethodNotAllowed
| NoRouteFound.

(** The loop over the trees of the other methods. *)
Fixpoint other_method (ts : methodTrees) (httpMethod p : string) : go bool :=
  match ts with
  | [] => Val false
  | (m, tree) :: ts =>
      if bool_decide (m = httpMethod) then other_method ts httpMethod p
      else
        '(hs, _, _) ← getValue tree p [] 0;
        match hs with Some _ => Val true | None => other_method ts httpMethod p end
  end.

Section dispatch.
Context `{UnicodeCase}.

Definition redirect_code (httpMethod : string) : Z := if bool_decide (httpMethod = "GET") then 301%Z else 307%Z.

(** The first part of handleHTTPRequest: the tree of the method, and the redirects. *)
Definition own_method (e : GinEngine) (httpMethod p : string) (cap : nat) : go (option reply) :=
  match trees_get (trees e) httpMethod with
  | None => Val None
  | Some tree =>
      '(hs, params, tsr) ← getValue tree p [] cap;
      match hs with
      | Some hs => Val (Some (Found hs params))
      | None =>
          if negb (bool_decide (httpMethod = "CONNECT")) && negb (bool_decide (p = "/")) then
            if tsr && RedirectTrailingSlash e then Val (Some (Redirect (redirect_code httpMethod) (other_slash p)))
            else if RedirectFixedPath e then
              r ← redirectFixedPath httpMethod p tree (RedirectFixedPath e);
              Val (match r with Some (code, path) => Some (Redirect code path) | None => None end)
            else Val None
          else Val None
      end
  end.

Definition dispatch (e : GinEngine) (httpMethod p : string) (cap : nat) : go reply :=
  r ← own_method e httpMethod p cap;
  match r with
  | Some r => Val r
  | None =>
      allowed ← (if HandleMethodNotAllowed e then other_method (trees e) httpMethod p else Val false);
      Val (if (allowed : bool) then MethodNotAllowed else NoRouteFound)
  end.

End dispatch.

(** ** The registrations behind the trees *)

Definition registration : Type := string * string * HandlersChain.

(** What is registered for a method. *)
Definition table_of (m : string) (l : list registration) : list (string * HandlersChain) :=
  (λ r : registration, (r.1.2, r.2)) <$> filter (λ r : registration, r.1.1 = m) l.

Lemma trees_get_set ts m t m' : trees_get (trees_set ts m t) m' = if bool_decide (m = m') then Some t else trees_get ts m'.
Proof.
  induction ts as [|[k r] ts IH]; [done|]. cbn [trees_set].
  destruct (bool_decide (k = m)) eqn:Hk; [apply bool_decide_eq_true in Hk as ->|apply bool_decide_eq_false in Hk]; cbn [trees_get].
  - by case_bool_decide.
  - rewrite IH. repeat case_bool_decide; congruence.
Qed.

Lemma trees_set_keys ts m t k : k ∈ (trees_set ts m t).*1 → k = m ∨ k ∈ ts.*1.
Proof.
  induction ts as [|[m' r] ts IH]; cbn [trees_set fmap list_fmap]; [intros ->%list_elem_of_singleton; by left|].
  case_bool_decide as Hm; cbn [fmap list_fmap]; [by right|].
  intros [->|Hin]%elem_of_cons; [right; by left|]. destruct (IH Hin); [by left|right; by right].
Qed.

Lemma trees_set_NoDup ts m t : NoDup ts.*1 → NoDup (trees_set ts m t).*1.
Proof.
  induction ts as [|[m' r] ts IH]; cbn [trees_set fmap list_fmap]; [intros _; apply NoDup_singleton|].
  intros [Hn Hts]%NoDup_cons. case_bool_decide as Hm; cbn [fmap list_fmap]; apply NoDup_cons; [done|].
  split; [|by apply IH]. by intros [?|?]%trees_set_keys.
Qed.

Lemma trees_get_elem ts m t : NoDup ts.*1 → (m, t) ∈ ts → trees_get ts m = Some t.
Proof.
  induction ts as [|[m' r] ts IH]; [by intros _ ?%not_elem_of_nil|]. cbn [fmap list_fmap trees_get].
  intros [Hn Hts]%NoDup_cons [[= -> ->]|Hin]%elem_of_cons; [by rewrite bool_decide_eq_true_2|].
  rewrite bool_decide_eq_false_2; [by apply IH|]. intros ->. apply Hn, list_elem_of_fmap. by exists (m, t).
Qed.

Lemma engine_addRoute_tree ts ts' m p hs :
  engine_addRoute ts m p hs = Val ts' →
  ∃ t, addRoute (default node_zero (trees_get ts m)) p hs = Val t ∧ ts' = trees_set ts m t.
Proof.
  unfold engine_addRoute. repeat (case_match || case_bool_decide); try done.
  destruct (addRoute _ p hs) as [t|]; [|done]. intros [= <-]. by exists t.
Qed.

Lemma engine_addRoutes_app l k ts : engine_addRoutes ts (l ++ k) = ts ← engine_addRoutes ts l; engine_addRoutes ts k.
Proof.
  revert ts. induction l as [|[[m p] hs] l IH]; intros ts; [done|]. cbn [app engine_addRoutes].
  destruct (engine_addRoute ts m p hs) as [ts'|]; [|done]. apply IH.
Qed.

(** The tree of a method is the one [addRoute] builds from its table; every method has one
    tree. *)
Lemma engine_trees l ts ts' :
  NoDup ts.*1 → engine_addRoutes ts l = Val ts' →
  NoDup ts'.*1 ∧ ∀ m, addRoutes (default node_zero (trees_get ts m)) (table_of m l) = Val (default node_zero (trees_get ts' m)).
Proof.
  revert ts. induction l as [|[[k p] hs] l IH]; intros ts Hts; [by intros [= <-]|]. cbn [engine_addRoutes].
  destruct (engine_addRoute ts k p hs) as [ts1|] eqn:Ha; [|done]. cbn [mbind go_bind]. intros Hl.
  apply engine_addRoute_tree in Ha as (t & Ht & ->).
  destruct (IH (trees_set ts k t)) as [Hn Hm]; [by apply trees_set_NoDup|done|]. split; [done|]. intros m.
  specialize (Hm m). rewrite trees_get_set in Hm. unfold table_of in *. rewrite filter_cons. cbn [fst snd].
  destruct (decide (k = m)) as [->|Hk].
  - rewrite bool_decide_eq_true_2 in Hm by done. cbn [fmap list_fmap addRoutes fst snd]. by rewrite Ht.
  - by rewrite bool_decide_eq_false_2 in Hm by done.
Qed.

(** ** The redirect to another spelling never panics *)

Lemma runes_from_bound bs skip i j r : (j, r) ∈ runes_from skip i bs → j < i + length bs.
Proof.
  revert skip i. induction bs as [|b bs IH]; intros [|skip] i; cbn [runes_from length]; [by intros ?%not_elem_of_nil..| |].
  - destruct (decode_rune b bs) as [x w]. intros [[= -> ->]|Hin]%elem_of_cons; [lia|]. apply IH in Hin. lia.
  - intros Hin%IH. lia.
Qed.

Lemma runes_bound s j r : (j, r) ∈ runes s → j < String.length s.
Proof. intros Hin%runes_from_bound. by rewrite length_fmap, length_chars in Hin. Qed.

Section spelling.
Context {A : Type} `{UnicodeCase}.
Implicit Types (n : node A) (cs : list (node A)).

Lemma wf_children_length cs idx : wf_children cs idx = true → length cs = String.length idx.
Proof.
  revert idx. induction cs as [|c cs IH]; intros [|a idx]; try done. simpl. intros [_ ?]%andb_true_iff. f_equal. by apply IH.
Qed.

Lemma wf_children_wf cs idx c : wf_children cs idx = true → c ∈ cs → wf c = true.
Proof.
  revert idx. induction cs as [|d cs IH]; intros [|a idx]; try done; [by intros _ ?%not_elem_of_nil|].
  simpl. rewrite !andb_true_iff. intros [[[Hd _] _] Hcs] [->|Hin]%elem_of_cons; [done|by eapply IH].
Qed.

Lemma index_lt {B} (l : list B) i : i < length l → ∃ x, index l i = Val x ∧ x ∈ l.
Proof. intros [x Hx]%lookup_lt_is_Some. exists x. unfold index. rewrite Hx. split; [done|by eapply list_elem_of_lookup_2]. Qed.

Lemma try_children_total r rs outs ci miss :
  (∀ i x, (i, x) ∈ rs → i < length outs) → (∀ o, o ∈ outs → ∃ v, o = Val v) → ∃ v, try_children r rs outs ci miss = Val v.
Proof.
  intros Hrs Houts. induction rs as [|[i x] rs IH]; [by eexists|]. cbn [try_children].
  assert (∃ v, try_children r rs outs ci miss = Val v) as Hrest by (apply IH; intros j y Hj; eapply Hrs; by right).
  destruct (N.eqb _ _); [|done]. destruct (index_lt outs i) as (o & -> & Ho); [eapply Hrs; by left|].
  destruct (Houts o Ho) as [[out [|]] ->]; [by eexists|done].
Qed.

Lemma index_of_lt a s i : index_of a s = Some i → i < String.length s.
Proof.
  revert i. induction s as [|b s IH]; intros i; [done|]. simpl. case_bool_decide; [intros [= <-]; lia|].
  destruct (index_of a s) as [j|]; [|done]. intros [= <-]. specialize (IH j eq_refl). lia.
Qed.

Lemma slash_child_total idx cs ci : wf_children cs idx = true → ∃ v, slash_child idx cs ci = Val v.
Proof.
  intros Hcs. unfold slash_child. destruct (index_of "/" idx) as [i|] eqn:Hi; [|by eexists].
  apply index_of_lt in Hi. rewrite <- (wf_children_length _ _ Hcs) in Hi.
  destruct (index_lt cs i Hi) as (c & -> & Hin). pose proof (wf_children_wf _ _ _ Hcs Hin) as Hc. cbn [mbind go_bind].
  destruct (_ && _); [by eexists|]. case_bool_decide as Ht; [|by eexists].
  destruct c as [npath [|] nt m cidx ccs hs prio]; simpl in Ht; subst nt; [|by rewrite wf_static in Hc].
  cbn [wf] in Hc. destruct ccs; [by rewrite andb_false_r in Hc|]. by eexists.
Qed.

Lemma find_total k n p fix_ : size n ≤ k → wf n = true → ∃ v, findCaseInsensitivePath n p fix_ = Val v.
Proof.
  revert n p. induction k as [|k IH]; intros [npath wild nt m idx cs hs prio] p Hk Hwf; simpl in Hk; [lia|].
  cbn [findCaseInsensitivePath]. destruct (_ && _); [|by eexists]. destruct (sdrop _ p) as [|a q].
  { destruct (some hs); [by eexists|]. destruct fix_; [|by eexists]. destruct wild.
    - cbn [wf] in Hwf. apply andb_true_iff in Hwf as [->%bool_decide_eq_true _]. by eexists.
    - rewrite wf_static in Hwf. apply andb_true_iff in Hwf as [_ Hwf]. by apply slash_child_total. }
  destruct wild; cbn [negb].
  2:{ rewrite wf_static in Hwf. apply andb_true_iff in Hwf as [_ Hwf]. apply try_children_total.
      - intros i x Hi%runes_bound. rewrite length_map. by rewrite (wf_children_length _ _ Hwf).
      - intros o (c & -> & Hc)%list_elem_of_fmap. apply IH; [pose proof (size_child _ _ Hc); lia|by eapply wf_children_wf]. }
  cbn [wf] in Hwf. apply andb_true_iff in Hwf as [_ Hwf].
  destruct cs as [|[cpath [|] [| | |] cmax cidx ccs chs cprio] [|? ?]]; try done; [|by eexists|by destruct ccs, chs].
  rewrite !andb_true_iff in Hwf. destruct Hwf as [_ Hccs]. destruct (span_segment (String a q)) as [v rest].
  destruct (bool_decide (rest = "")).
  - destruct (some chs); [by eexists|]. destruct fix_; [|by eexists]. destruct (bool_decide (length ccs = 1)) eqn:Hf; [|by eexists].
    apply bool_decide_eq_true in Hf.
    destruct ccs as [|c1 ccs]; [done|]. by eexists.
  - destruct ccs as [|c1 [|? ?]]; [by eexists| |done]. rewrite !andb_true_iff in Hccs. destruct Hccs as [[[[Hw _] _] _] _].
    destruct (IH c1 rest) as [[out found] ->]; [simpl in Hk; lia|done|by eexists].
Qed.

Lemma redirectFixedPath_total (l : list (string * A)) t m p fix_ :
  Forall (λ r, registrable r.1 = true) l → addRoutes node_zero l = Val t → ∃ v, redirectFixedPath m p t fix_ = Val v.
Proof.
  intros Hl Ht. unfold redirectFixedPath, cleanpath.cleanPath. rewrite cleanpath.cleanPath_bytes_spec.
  cbn [mbind go_bind]. set (q := String.string_of_list_ascii _).
  assert (∃ v, findCaseInsensitivePath t q fix_ = Val v) as [[out found] ->]; [|by eexists].
  destruct (built_cases l Hl t Ht) as [[-> ->]|(Hwf & _)]; [|by apply (find_total (size t))].
  cbn [findCaseInsensitivePath node_zero]. destruct (_ && _); [|by eexists]. destruct (sdrop _ q); [|by eexists].
  destruct fix_; by eexists.
Qed.
End spelling.

(** ** What a configuration registers *)

(** The routes a call on a group registers, for each of some methods. *)
Definition regs_of (g : RouterGroup) (ms : list string) (relativePath : string) (hs : HandlersChain) : list registration :=
  (λ m, (m, calculateAbsolutePath g relativePath, group_Handlers g ++ hs)) <$> ms.

Definition op_registrations (e : GinEngine) (o : op) : list registration :=
  let on i ms relativePath hs := match the_group e i with Val g => regs_of g ms relativePath hs | Halt _ => [] end in
  match o with
  | OHandle i m relativePath hs => on i [m] relativePath hs
  | OAny i relativePath hs => on i ["GET"; "POST"; "PUT"; "PATCH"; "HEAD"; "OPTIONS"; "DELETE"; "CONNECT"; "TRACE"] relativePath hs
  | OStaticFile i relativePath file => on i ["GET"; "HEAD"] relativePath [file]
  | OStatic i relativePath dir => on i ["GET"; "HEAD"] (path_Join relativePath "/*filepath") [HStatic dir]
  | _ => []
  end.

Fixpoint registrations (e : GinEngine) (l : list op) : list registration :=
  match l with
  | [] => []
  | o :: l => op_registrations e o ++ match configure e o with Val e => registrations e l | Halt _ => [] end
  end.

Lemma go_bind_Val {A} (m : go A) : (m ≫= Val) = m.
Proof. by destruct m. Qed.

Lemma handle_all_regs g ts ts' ms rel hs :
  handle_all g ts ms rel hs = Val ts' → engine_addRoutes ts (regs_of g ms rel hs) = Val ts'.
Proof.
  revert ts. induction ms as [|m ms IH]; intros ts; [done|]. cbn [handle_all regs_of fmap list_fmap engine_addRoutes]. unfold handle, combineHandlers.
  destruct (Nat.leb _ _); [done|]. cbn [mbind go_bind]. destruct (engine_addRoute _ _ _ _) as [ts1|]; [apply IH|done].
Qed.

Lemma register_on_Val e i f e' :
  register_on e i f = Val e' → ∃ g ts, the_group e i = Val g ∧ f g (trees e) = Val ts ∧ e' = set_trees ts e.
Proof.
  unfold register_on. destruct (the_group e i) as [g|]; [|done]. cbn [mbind go_bind]. destruct (f g (trees e)) as [ts|] eqn:Hf; [|done].
  intros [= <-]. by exists g, ts.
Qed.

(** The chains for requests without a route. *)
Definition chains_rebuilt (e : GinEngine) : Prop :=
  allNoRoute e = group_Handlers (group e) ++ noRoute e ∧ allNoMethod e = group_Handlers (group e) ++ noMethod e.

Lemma combineHandlers_Val g hs hs' : combineHandlers g hs = Val hs' → hs' = group_Handlers g ++ hs.
Proof. unfold combineHandlers. destruct (Nat.leb _ _); [done|]. by intros [= <-]. Qed.

Lemma configure_ok e o e' :
  configure e o = Val e' →
  engine_addRoutes (trees e) (op_registrations e o) = Val (trees e') ∧ (chains_rebuilt e → chains_rebuilt e').
Proof.
  destruct o as [[|i] mw|i rel hs|hs|hs|i m rel hs|i rel hs|i rel f|i rel dir|s fx al]; cbn [configure op_registrations].
  - unfold engine_Use, rebuild404Handlers, rebuild405Handlers. cbn [group set_group noRoute].
    destruct (combineHandlers _ (noRoute e)) as [h1|] eqn:H1; [|done]. cbn [mbind go_bind group set_group set_noRoute noMethod].
    destruct (combineHandlers _ (noMethod e)) as [h2|] eqn:H2; [|done]. intros [= <-].
    apply combineHandlers_Val in H1 as ->, H2 as ->. done.
  - destruct (index _ _); [|done]. by intros [= <-].
  - destruct (the_group e i) as [g|]; [|done]. cbn [mbind go_bind]. destruct (Group g rel hs); [|done]. by intros [= <-].
  - unfold NoRoute, rebuild404Handlers. destruct (combineHandlers _ _) as [h|] eqn:Hh; [|done]. intros [= <-].
    apply combineHandlers_Val in Hh as ->. split; [done|]. by intros [_ ?].
  - unfold NoMethod, rebuild405Handlers. destruct (combineHandlers _ _) as [h|] eqn:Hh; [|done]. intros [= <-].
    apply combineHandlers_Val in Hh as ->. split; [done|]. by intros [? _].
  - intros (g & ts & -> & Hts & ->)%register_on_Val. split; [|done]. unfold Handle in Hts. destruct (method_valid m); [|done].
    apply handle_all_regs. cbn [handle_all]. by rewrite go_bind_Val.
  - intros (g & ts & -> & Hts & ->)%register_on_Val. split; [|done]. by apply handle_all_regs.
  - intros (g & ts & -> & Hts & ->)%register_on_Val. split; [|done]. unfold StaticFile in Hts. destruct (negb _); [done|].
    by apply handle_all_regs.
  - intros (g & ts & -> & Hts & ->)%register_on_Val. split; [|done]. unfold Static in Hts. destruct (negb _); [done|].
    apply handle_all_regs. cbn [handle_all trees set_trees]. rewrite <- Hts. by destruct (handle g (trees e) _ _ _); [cbn; rewrite go_bind_Val|].
  - by intros [= <-].
Qed.

Lemma run_ok e l e' :
  run_ops e l = Val e' →
  engine_addRoutes (trees e) (registrations e l) = Val (trees e') ∧ (chains_rebuilt e → chains_rebuilt e').
Proof.
  revert e. induction l as [|o l IH]; intros e; [by intros [= <-]|]. cbn [run_ops registrations].
  destruct (configure e o) as [e1|] eqn:Ho; [|done]. cbn [mbind go_bind]. intros Hl.
  apply configure_ok in Ho as [H1 H2]. apply IH in Hl as [H3 H4]. split; [|by auto].
  by rewrite engine_addRoutes_app, H1.
Qed.

(** ** The answer to a request *)

Section answers.
Context `{UnicodeCase}.

(** What the registrations have for a request. *)
Definition answering (l : list registration) (m p : string) : list (HandlersChain * list (string * string)) :=
  matches (table_routes (table_of m l)) p.

Lemma other_slash_adds p : no_slash p → other_slash p = p +:+ "/".
Proof.
  intros Hp. unfold other_slash. destruct (HasSuffix p "/") eqn:E; [|by rewrite andb_false_r].
  apply HasSuffix_spec in E as [u ->]. by destruct (Hp u).
Qed.

Lemma redirectFixedPath_code {A} m p (t : node A) fix_ code q :
  redirectFixedPath m p t fix_ = Val (Some (code, q)) → code = redirect_code m.
Proof.
  unfold redirectFixedPath, redirect_code. destruct (cleanpath.cleanPath p); [|done]. cbn [mbind go_bind].
  destruct (findCaseInsensitivePath _ _ _) as [[out [|]]|]; [|done..]. by intros [= <- _].
Qed.

(** Without a redirect, no regular route waits behind an added slash. *)
Definition no_slash_missed (e : GinEngine) (l : list registration) (m p : string) : Prop :=
  RedirectTrailingSlash e = true → m ≠ "CONNECT" → no_slash p →
  ∀ r, r ∈ table_of m l → regular r.1 = true → match_toks (pattern_of r.1) (p +:+ "/") = None.

(** The registrations of a method and a path are ASCII, which package unicode's tables are known for. *)
Definition ascii_request (l : list registration) (m p : string) : Prop :=
  UnicodeCaseLaws ∧ Forall (λ r, sforallb is_ascii r.1 = true) (table_of m l) ∧ sforallb is_ascii p = true.

(** Where a redirect to another spelling leads: to a route spelled like the cleaned path, or like it with
    a slash; or it takes the slash off the cleaned path. *)
Definition respelled (l : list registration) (m p q : string) : Prop :=
  ∃ c, cleanpath.cleanPath p = Val c
    ∧ ((slower q = slower c ∧ answering l m q ≠ [])
       ∨ (slower q = slower (c +:+ "/") ∧ answering l m q ≠ [])
       ∨ slower (q +:+ "/") = slower c).

(** Without a redirect, no spelling of the cleaned path has a route. *)
Definition no_spelling_missed (e : GinEngine) (l : list registration) (m p : string) : Prop :=
  RedirectFixedPath e = true → m ≠ "CONNECT" → p ≠ "/" → ascii_request l m p →
  ∃ c, cleanpath.cleanPath p = Val c ∧ ∀ q, slower q = slower c → answering l m q = [].

Definition none_missed e l m p : Prop := answering l m p = [] ∧ no_slash_missed e l m p ∧ no_spelling_missed e l m p.

Definition right_reply (e : GinEngine) (l : list registration) (m p : string) (r : reply) : Prop :=
  match r with
  | Found hs ps => answering l m p = [(hs, ps)]
  | Redirect code q =>
      answering l m p = [] ∧ m ≠ "CONNECT" ∧ p ≠ "/" ∧ code = redirect_code m
      ∧ ((RedirectTrailingSlash e = true ∧ q = other_slash p ∧ (no_slash p → answering l m q ≠ []))
         ∨ (RedirectFixedPath e = true ∧ (ascii_request l m p → respelled l m p q)
            ∧ ∃ t, addRoutes node_zero (table_of m l) = Val t ∧ redirectFixedPath m p t true = Val (Some (code, q))))
  | MethodNotAllowed => none_missed e l m p ∧ HandleMethodNotAllowed e = true ∧ ∃ m', m' ≠ m ∧ answering l m' p ≠ []
  | NoRouteFound => none_missed e l m p ∧ (HandleMethodNotAllowed e = true → ∀ m', m' ≠ m → answering l m' p = [])
  end.

(** The redirects of [own_method], by themselves. *)
Definition own_redirect (e : GinEngine) (m p : string) (tree : node HandlersChain) (tsr : bool) : go (option (Z * string)) :=
  if negb (bool_decide (m = "CONNECT")) && negb (bool_decide (p = "/")) then
    if tsr && RedirectTrailingSlash e then Val (Some (redirect_code m, other_slash p))
    else if RedirectFixedPath e then redirectFixedPath m p tree true else Val None
  else Val None.

Lemma own_method_redirect e m p cap :
  own_method e m p cap =
    match trees_get (trees e) m with
    | None => Val None
    | Some tree =>
        '(hs, params, tsr) ← getValue tree p [] cap;
        match hs with
        | Some hs => Val (Some (Found hs params))
        | None => r ← own_redirect e m p tree tsr; Val (match r with Some (code, q) => Some (Redirect code q) | None => None end)
        end
    end.
Proof.
  unfold own_method, own_redirect. destruct (trees_get _ _) as [t|]; [|done].
  destruct (getValue t p [] cap) as [[[[hs|] ps] tsr]|h]; [done| |done]. cbn [mbind go_bind].
  destruct (negb _ && negb _); [|done]. destruct (tsr && _); [done|]. destruct (RedirectFixedPath e) eqn:Hf; [|done].
  destruct (redirectFixedPath m p t true) as [[[code q]|]|]; done.
Qed.

Section built.
Context (l : list registration) (Hl : Forall (λ r : registration, registrable r.1.2 = true) l).
Context (ts : methodTrees) (Hkeys : NoDup ts.*1).
Context (Hts : ∀ m, addRoutes node_zero (table_of m l) = Val (default node_zero (trees_get ts m))).

Lemma table_registrable m : Forall (λ r, registrable r.1 = true) (table_of m l).
Proof.
  unfold table_of. rewrite Forall_fmap, Forall_forall. intros r [_ Hr]%list_elem_of_filter.
  rewrite Forall_forall in Hl. by apply Hl.
Qed.

Lemma no_tree m p : trees_get ts m = None → answering l m p = [].
Proof.
  intros Hn. pose proof (Hts m) as Ht. rewrite Hn in Ht. simpl in Ht.
  destruct (built_lookup _ (table_registrable m) _ p 0 Ht) as (hs & ps & tsr & E & Hms). unfold answering. rewrite Hms.
  destruct hs; [by destruct p|done].
Qed.

(** The redirect to another spelling. *)
Lemma spelling_redirect m p t :
  addRoutes node_zero (table_of m l) = Val t →
  ∃ r, redirectFixedPath m p t true = Val r
    ∧ match r with
      | Some (code, q) => code = redirect_code m ∧ (ascii_request l m p → respelled l m p q)
      | None => ascii_request l m p →
          ∃ c, cleanpath.cleanPath p = Val c ∧ ∀ q, slower q = slower c → answering l m q = []
      end.
Proof.
  intros Ht. destruct (redirectFixedPath_total _ t m p true (table_registrable m) Ht) as [r Hr].
  exists r. split; [done|].
  assert (ascii_request l m p → match r with Some (_, q) => respelled l m p q
    | None => ∃ c, cleanpath.cleanPath p = Val c ∧ ∀ q, slower q = slower c → answering l m q = [] end) as Hasc.
  { intros (Hlaws & Hl' & Hp). destruct (built_redirect _ t m p true (table_registrable m) Hl' Hp Ht) as (c & r' & Hc & Hr' & Hq).
    rewrite Hr in Hr'. injection Hr' as <-. destruct r as [[code q]|]; exists c; split; naive_solver. }
  destruct r as [[code q]|]; [|done]. split; [by eapply redirectFixedPath_code|done].
Qed.

(** The search for another method. *)
Lemma other_method_spec m p :
  ∃ b, other_method ts m p = Val b ∧ (b = true ↔ ∃ m', m' ≠ m ∧ answering l m' p ≠ []).
Proof.
  assert (∀ m', answering l m' p ≠ [] → m' ∈ ts.*1) as Hall.
  { intros m' Hm'. destruct (trees_get ts m') as [t|] eqn:Hg; [|by apply no_tree with (p := p) in Hg].
    clear -Hg. induction ts as [|[k r] ts' IH]; [done|]. simpl in Hg. case_bool_decide; [subst; by left|right; auto]. }
  assert (∀ ts', (∀ m' t, (m', t) ∈ ts' → trees_get ts m' = Some t) →
    ∃ b, other_method ts' m p = Val b ∧ (b = true ↔ ∃ m', m' ∈ ts'.*1 ∧ m' ≠ m ∧ answering l m' p ≠ [])) as Hgen.
  { intros ts'. induction ts' as [|[k t] ts' IH]; intros Hin.
    { exists false. split; [done|]. split; [done|]. by intros (? & ?%not_elem_of_nil & _). }
    destruct IH as (b & Hb & Hiff); [intros m' t' ?; apply Hin; by right|].
    cbn [other_method fmap list_fmap fst]. destruct (bool_decide (k = m)) eqn:Hk.
    { apply bool_decide_eq_true in Hk as ->. exists b. split; [done|]. rewrite Hiff. set_solver. }
    apply bool_decide_eq_false in Hk. pose proof (Hts k) as Ht. rewrite (Hin k t) in Ht by by left. simpl in Ht.
    destruct (built_lookup _ (table_registrable k) _ p 0 Ht) as (hs & ps & tsr & -> & Hms). cbn [mbind go_bind].
    destruct hs as [h|].
    - exists true. split; [done|]. split; [|done]. intros _. exists k. split; [by left|]. split; [done|].
      unfold answering. by rewrite Hms.
    - exists b. split; [done|]. rewrite Hiff. split; [set_solver|]. intros (m' & [->|?]%elem_of_cons & Hne & Ha); [|by eauto].
      unfold answering in Ha. by rewrite Hms in Ha. }
  destruct (Hgen ts) as (b & Hb & Hiff); [intros m' t; by apply trees_get_elem|].
  exists b. split; [done|]. rewrite Hiff. split; [naive_solver|]. intros (m' & ? & ?). exists m'. auto.
Qed.

Context (e : GinEngine) (He : trees e = ts).

(** A request without a route in the tree of its method. *)
Lemma redirects_spec m p t tsr :
  addRoutes node_zero (table_of m l) = Val t → answering l m p = [] →
  (no_slash p → if (tsr : bool) then answering l m (p +:+ "/") ≠ []
    else ∀ r, r ∈ table_of m l → regular r.1 = true → match_toks (pattern_of r.1) (p +:+ "/") = None) →
  ∃ r, own_redirect e m p t tsr = Val r
    ∧ match r with
      | Some (code, q) => right_reply e l m p (Redirect code q)
      | None => none_missed e l m p
      end.
Proof.
  intros Ht Hn Hadv. unfold own_redirect, none_missed.
  destruct (negb _ && negb _) eqn:Hc.
  2:{ exists None. apply andb_false_iff in Hc. rewrite !negb_false_iff, !bool_decide_eq_true in Hc. split_and!; try done.
      - intros _ Hm Hp. destruct Hc as [?| ->]; [done|]. by destruct (Hp "").
      - intros _ Hm Hp. by destruct Hc. }
  apply andb_true_iff in Hc as [Hm%negb_true_iff%bool_decide_eq_false Hp%negb_true_iff%bool_decide_eq_false].
  destruct (tsr && RedirectTrailingSlash e) eqn:Hslash.
  { eexists (Some _). split; [done|]. apply andb_true_iff in Hslash as [-> Hslash]. split_and!; try done. left.
    split_and!; [done..|]. intros Hns. by rewrite other_slash_adds; [apply Hadv|]. }
  assert (no_slash_missed e l m p) as Hmiss.
  { intros Hs _ Hns. rewrite Hs, andb_true_r in Hslash. subst tsr. by apply Hadv. }
  destruct (RedirectFixedPath e) eqn:Hfix.
  2:{ exists None. split_and!; [done..|]. unfold no_spelling_missed. by rewrite Hfix. }
  destruct (spelling_redirect m p t Ht) as (r & Hr & Hq). rewrite Hr. exists r. split; [done|].
  destruct r as [[code q]|]; [|split_and!; [done..|]; intros _ _ _; apply Hq].
  destruct Hq as [Hcode Hq]. split_and!; try done. right. eauto.
Qed.

(** The tree of the request's own method. *)
Lemma own_method_spec m p cap :
  ∃ r, own_method e m p cap = Val r
    ∧ match r with
      | Some r => right_reply e l m p r ∧ r ≠ MethodNotAllowed ∧ r ≠ NoRouteFound
      | None => none_missed e l m p
      end.
Proof.
  rewrite own_method_redirect, He. pose proof (Hts m) as Ht. destruct (trees_get ts m) as [t|] eqn:Hg.
  2:{ exists None. split; [done|]. split_and!; [by apply no_tree|..].
      - intros _ _ _ r Hr _. simpl in Ht.
        destruct (built_cases _ (table_registrable m) _ Ht) as [[_ Hn]|(Hwf & _)]; [rewrite Hn in Hr; by apply not_elem_of_nil in Hr|done].
      - intros _ _ _ (_ & _ & Hp). destruct (clean_ascii p Hp) as (c & Hc & _). exists c. split; [done|]. intros q _. by apply no_tree. }
  simpl in Ht. destruct (built_lookup _ (table_registrable m) t p cap Ht) as (hs & ps & tsr & E & Hms). rewrite E.
  cbn [mbind go_bind]. destruct hs as [hs|]; [by exists (Some (Found hs ps))|].
  destruct (redirects_spec m p t tsr Ht Hms) as (r & Hr & Hok).
  { intros Hp. destruct (built_advice _ t p cap (table_registrable m) Ht Hp) as (hs' & ps' & tsr' & E' & _ & Ha).
    rewrite E in E'. injection E' as <- <- <-. by apply Ha. }
  rewrite Hr. cbn [mbind go_bind]. destruct r as [[code q]|]; eexists; (split; [done|]); done.
Qed.

Lemma dispatch_spec m p cap : ∃ r, dispatch e m p cap = Val r ∧ right_reply e l m p r.
Proof.
  unfold dispatch. destruct (own_method_spec m p cap) as (r & -> & Hr). cbn [mbind go_bind].
  destruct r as [r|]; [by exists r; destruct Hr|]. rewrite He.
  destruct (HandleMethodNotAllowed e) eqn:Hh; [|eexists; split; [done|]; split; [done|by rewrite Hh]].
  destruct (other_method_spec m p) as (b & -> & Hb). eexists. split; [done|]. destruct b.
  - split_and!; [done..|by apply Hb].
  - split; [done|]. intros _ m' Hm'. destruct (answering l m' p) eqn:E; [done|].
    assert (false = true) by (apply Hb; exists m'; by rewrite E). done.
Qed.
End built.

(** C10. An engine answers every request as its registrations say, for any configuration: any sequence
    of Use, Group, NoRoute, NoMethod, routes, static files and options that does not
    panic, with paths that start with a slash, have at most 255 wildcards and nothing behind a
    catch-all.  Let the registrations be those of the calls, each with the middleware its
    group had at that moment.  A request runs the chain of the only registration of its
    method whose pattern matches.  Without one, it is redirected only by an option that is on.  The redirect
    of trailing slashes is to the path with the other slash: one that adds a slash leads to a
    route, one that takes it off may not ([console_redirects_to_nothing]).  The redirect of
    fixed paths is to what the case-insensitive lookup finds for the cleaned path; for ASCII
    this is a route spelled like the cleaned path, or like it with a slash added, or the cleaned path
    with its slash taken off, which again may have no route ([slash_fix_without_route]).  A request that is not redirected misses no
    regular route behind an added slash and, for ASCII, no route spelled like the cleaned path, where
    the option is on; it is answered 405, with that option, exactly when another method has a
    route for the path, and 404 otherwise.  Nothing panics, and the chains of 404 and 405
    are all the middleware of the engine, whenever it was added, and their own
    handlers. *)
Theorem engine_answers ops e m p cap :
  run_ops New ops = Val e → Forall (λ r : registration, registrable r.1.2 = true) (registrations New ops) →
  (∃ r, dispatch e m p cap = Val r ∧ right_reply e (registrations New ops) m p r)
  ∧ allNoRoute e = group_Handlers (group e) ++ noRoute e ∧ allNoMethod e = group_Handlers (group e) ++ noMethod e.
Proof.
  intros Hrun Hreg. apply run_ok in Hrun as [Hts Hch]. split; [|by apply Hch].
  destruct (engine_trees _ _ _ (NoDup_nil_2 : NoDup (trees New).*1) Hts) as [Hkeys Htrees].
  by apply (dispatch_spec _ Hreg (trees e)).
Qed.

End answers.

(** ** Serving, and the console *)

Section serving.
Context `{K : KubeApi, GS : GoSort, MR : MapRange, PF : Platform, EO : EventOrder, TF : TimeFormat,
          J : !JsonApi, NR : !NodeReference, PR : !PageRender, UC : UnicodeCase}.

Definition default405Body : string := "405 method not allowed".

(** [ServeHTTP] of any engine; [func] gives the functions of a chain. *)
Definition engine_ServeHTTP (func : hid → HandlerFunc) (e : GinEngine) (req : Context) (m p : string) (cap : nat) :
    prog (ending * Ctx) :=
  match dispatch e m p cap with
  | Val (Found hs ps) => serve_chain (func <$> hs) (ctx_reset (set_Params ps req) m p)
  | Val (Redirect code path) => Ret (Done, redirectTrailingSlash code path (ctx_reset req m p))
  | Val MethodNotAllowed => serveError (func <$> allNoMethod e) 405 default405Body (ctx_reset req m p)
  | Val NoRouteFound => serveError (func <$> allNoRoute e) 404 default404Body (ctx_reset req m p)
  | Halt h => Stop h
  end.

(** The calls of main on its engine, and the engine they make. *)
Definition console_ops : list op :=
  [OUse 0 [HLogger; HRecovery]; OStatic 0 "/js" "js"; OStatic 0 "/css" "css"; OStatic 0 "/fonts" "fonts"; OStatic 0 "/img" "img";
   OGroup 0 "/" [HBasicAuth]] ++ imap (λ i r, OHandle 1 (method_name r.1) r.2 [HConsole i]) route_table.

Definition console_engine : GinEngine :=
  mkEngine (mkGroup [HLogger; HRecovery] "/") [mkGroup [HLogger; HRecovery; HBasicAuth] "/"] the_trees [] []
    Frontend.allNoRoute [HLogger; HRecovery] true false false.

Lemma console_configured : run_ops New console_ops = Val console_engine.
Proof. vm_compute. reflexivity. Qed.

(** With the options of [New], dispatch is that of the console. *)
Lemma dispatch_plain e m p cap :
  RedirectTrailingSlash e = true → RedirectFixedPath e = false → HandleMethodNotAllowed e = false →
  dispatch e m p cap =
    o ← handleHTTPRequest (trees e) m p cap;
    Val (match o with Chain hs ps => Found hs ps | SlashRedirect code q => Redirect code q | NotFound => NoRouteFound end).
Proof.
  intros H1 H2 H3. unfold dispatch, own_method, handleHTTPRequest. rewrite H1, H2, H3.
  destruct (trees_get (trees e) m) as [t|]; [|done]. destruct (getValue t p [] cap) as [[[[hs|] ps] tsr]|h]; [done| |done].
  cbn [mbind go_bind]. destruct (negb _ && negb _); [|done]. by destruct tsr.
Qed.

(** The server of the console is the server of its engine. *)
Lemma console_is_an_engine KubeConfigFile pairs static_func req m p cap :
  engine_ServeHTTP (func_of KubeConfigFile pairs static_func) console_engine req m p cap
  = ServeHTTP KubeConfigFile pairs static_func the_trees req m p cap.
Proof.
  unfold engine_ServeHTTP, ServeHTTP. rewrite dispatch_plain by reflexivity. change (trees console_engine) with the_trees.
  by destruct (handleHTTPRequest the_trees m p cap) as [[| |]|].
Qed.

(** A slash is taken off where nothing is served: the console redirects the list of the
    services of a namespace, asked for with a slash, to a page it does not have. *)
Example console_redirects_to_nothing :
  handleHTTPRequest the_trees "GET" "/namespaces/default/services/" 0 = Val (SlashRedirect 301 "/namespaces/default/services")
  ∧ handleHTTPRequest the_trees "GET" "/namespaces/default/services" 0 = Val NotFound.
Proof. by vm_compute. Qed.

End serving.

(** ** Witness *)

Definition demo_ops : list op :=
  [OUse 0 [HLogger]; OGroup 0 "/api" [HBasicAuth]; OHandle 1 "GET" "/pods/:po" [HConsole 0]; OUse 0 [HRecovery];
   OHandle 1 "POST" "/pods" [HConsole 1]; OAny 0 "/Status/" [HConsole 2]; OStatic 0 "/js" "js"; ONoMethod [HConsole 3];
   OOptions true true true].

Definition demo_engine : GinEngine := Eval vm_compute in match run_ops New demo_ops with Val e => e | Halt _ => New end.

Lemma engine_answers_witness :
  (dispatch demo_engine "GET" "/api/pods/web" 0 = Val (Found [HLogger; HBasicAuth; HConsole 0] [("po", "web")])
   ∧ dispatch demo_engine "GET" "/Status" 0 = Val (Redirect 301 "/Status/")
   ∧ dispatch demo_engine "PUT" "/../STATUS/" 0 = Val (Redirect 307 "/Status/")
   ∧ dispatch demo_engine "GET" "/api/pods" 0 = Val MethodNotAllowed
   ∧ dispatch demo_engine "GET" "/nodes" 0 = Val NoRouteFound)
  ∧ ascii_request (registrations New demo_ops) "PUT" "/../STATUS/"
  ∧ (∃ r, dispatch demo_engine "GET" "/api/pods" 0 = Val r ∧ right_reply demo_engine (registrations New demo_ops) "GET" "/api/pods" r)
  ∧ allNoRoute demo_engine = [HLogger; HRecovery] ∧ allNoMethod demo_engine = [HLogger; HRecovery; HConsole 3].
Proof.
  split; [split_and!; vm_compute; reflexivity|].
  split; [split; [apply ascii_case_laws|split; [vm_compute; repeat (constructor; [reflexivity|]); constructor|reflexivity]]|].
  apply (engine_answers demo_ops demo_engine "GET" "/api/pods" 0); [vm_compute; reflexivity|].
  vm_compute. repeat (constructor; [reflexivity|]). constructor.
Defined.
