(* ===== verification/Scope.v ===== *)
(** * What a request can change

    Whatever a handler does and the cluster answers, the changes a request makes are
    confined by its method and path: only POST requests change anything, objects are
    changed only in the namespace of the path, and deletions delete the object the path
    names. *)

From stdpp Require Import prelude gmap strings.
From Stdlib Require Import ZArith NArith Ascii.
From S2P Require Import Prelude GoStrings GoSort RadixTree RadixPatterns Float64 Api Page Versions KubeUtil Client Render PodActions Http Handlers Demo Routes Router Engine Serving Frontend.

Local Open Scope Z_scope.

(** ** Paths that match *)

Lemma match_text_inv s ts p ps :
  match_toks (TText s :: ts) p = Some ps → ∃ q, p = s +:+ q ∧ match_toks ts q = Some ps.
Proof.
  simpl. destruct (HasPrefix p s) eqn:E; [|done]. apply HasPrefix_spec in E as [q ->]. rewrite sdrop_app. eauto.
Qed.

Lemma match_param_inv x ts p ps :
  match_toks (TParam x :: ts) p = Some ps →
  ∃ v q qs, p = v +:+ q ∧ ps = (x, v) :: qs ∧ match_toks ts q = Some qs.
Proof.
  simpl. case_bool_decide; [done|]. pose proof (span_segment_spec p) as Hs.
  destruct (span_segment p) as [v q]. destruct Hs as (-> & _ & _). destruct (match_toks ts q) as [qs|] eqn:E; [|done].
  intros [= <-]. by exists v, q, qs.
Qed.

Lemma match_nil_inv p ps : match_toks [] p = Some ps → p = "" ∧ ps = [].
Proof. simpl. case_bool_decide; [|done]. by intros [= <-]. Qed.

(** The parts of a path that matches a pattern. *)
Ltac match_cases :=
  repeat match goal with
  | H : match_toks (pattern_of ?s) _ = _ |- _ =>
      let ts := eval vm_compute in (pattern_of s) in change (pattern_of s) with ts in H
  | H : match_toks (TText _ :: _) _ = Some _ |- _ => apply match_text_inv in H as (? & -> & H)
  | H : match_toks (TParam _ :: _) _ = Some _ |- _ => let HP := fresh "H" in apply match_param_inv in H as (? & ? & ? & -> & HP & H)
  | H : match_toks [] _ = Some _ |- _ => apply match_nil_inv in H as [-> ?]
  end.

Section scope.
Context `{K : KubeApi, GS : GoSort, MR : MapRange, PF : Platform, EO : EventOrder, TF : TimeFormat,
          J : !JsonApi, NR : !NodeReference, PR : !PageRender}.

(** ** The scope of a path *)

Definition in_namespace (ns rest : string) : string := "/namespaces/" +:+ ns +:+ "/" +:+ rest.

(** What a request with method [m] and path [p] may change. *)
Definition url_allows (m p : string) (cm : cmd) : Prop :=
  match cm with
  | Pods_Update _ ns _ => m = "POST" ∧ HasPrefix p (in_namespace ns "pods") = true
  | RCs_Update _ ns _ => m = "POST" ∧ HasPrefix p (in_namespace ns "") = true
  | RCs_Create _ ns _ => m = "POST" ∧ p = in_namespace ns "replicationcontrollers"
  | RCs_Delete _ ns name => m = "POST" ∧ p = in_namespace ns ("replicationcontrollers/" +:+ name +:+ "/delete")
  | Services_Update _ ns _ => m = "POST" ∧ HasPrefix p (in_namespace ns "services/") = true
  | Services_Create _ ns _ => m = "POST" ∧ p = in_namespace ns "services"
  | Services_Delete _ ns name => m = "POST" ∧ p = in_namespace ns ("services/" +:+ name +:+ "/delete")
  | Endpoints_Update _ ns _ => m = "POST" ∧ HasPrefix p (in_namespace ns "endpoints/") = true
  | Endpoints_Delete _ ns name => m = "POST" ∧ p = in_namespace ns ("endpoints/" +:+ name +:+ "/delete")
  | Nodes_Update _ _ => m = "POST" ∧ HasPrefix p "/nodes/" = true
  | Nodes_Delete _ name => m = "POST" ∧ p = "/nodes/" +:+ name +:+ "/delete"
  | WriteFile _ _ _ | SetKubeConfig _ | SetKubeClient _ | NewOrDie _ => m = "POST" ∧ p = "/config/update"
  | _ => True
  end.

Lemma read_allowed m p cm : is_read cm = true → url_allows m p cm.
Proof. by destruct cm. Qed.

Lemma reads_allowed {A} m p (q : prog A) : reads q → all_cmds (url_allows m p) q.
Proof.
  unfold reads. induction q as [a|h|cm k IH]; [done..|]. intros [Hc Hk]. split; [by apply read_allowed|].
  intros r. apply IH, Hk.
Qed.

Lemma all_cmds_for_pods P act l : (∀ name, all_cmds P (act name)) → all_cmds P (for_pods act l).
Proof.
  intros Hact. induction l as [|x l IH]; [done|]. cbn [for_pods]. apply all_cmds_bind; [apply Hact|].
  intros r. by apply all_cmds_bind.
Qed.

(** The actions write the pods of their namespace. *)
Definition pods_of (ns : string) (cm : cmd) : Prop :=
  is_read cm = true ∨ match cm with Pods_Update _ ns' _ => ns' = ns | _ => False end.

Ltac read_or := first [by left|by right].

Lemma pods_modify_pod ns name edit : all_cmds (pods_of ns) (modify_pod ns name edit).
Proof. unfold modify_pod, Get, or_error. repeat first [prog_step|read_or]. Qed.

Lemma pods_syncPod ns name : all_cmds (pods_of ns) (syncPod ns name).
Proof. unfold syncPod, Get, or_error. repeat first [prog_step|read_or]. Qed.

Lemma pods_perform ns action images checks name : all_cmds (pods_of ns) (perform ns action images checks name).
Proof.
  unfold perform, collect_err, setPodImage, stopPod, startPod.
  repeat first [apply pods_modify_pod|apply pods_syncPod|prog_step|read_or].
Qed.

Lemma pods_allowed {A} ns rest (q : prog A) :
  all_cmds (pods_of ns) q → all_cmds (url_allows "POST" (in_namespace ns ("pods" +:+ rest))) q.
Proof.
  apply all_cmds_impl. intros cm [Hr|Hw]; [by apply read_allowed|].
  destruct cm; try done. simpl. subst. split; [done|]. apply HasPrefix_spec. exists rest.
  unfold in_namespace. by rewrite !sapp_assoc.
Qed.

Context (KubeConfigFile : string).

(** A goal about a write, from the parameters of the path. *)
Ltac in_scope HP :=
  first [exact I|split; [reflexivity|]; unfold Param; rewrite ?HP; unfold in_namespace;
    first [reflexivity|rewrite ?sapp_nil_r; reflexivity
      |apply HasPrefix_spec; eexists; rewrite ?sapp_assoc; reflexivity]].

Ltac write_steps HP :=
  repeat first [prog_step|in_scope HP].

Lemma post_routes_in_scope c p :
  Forall (λ r, route_method r = POST → match_toks (pattern_of (route_path r)) p = Some (Params c) →
    all_cmds (url_allows "POST" p) (route_handler r c)) (routes KubeConfigFile).
Proof.
  unfold routes. repeat (apply Forall_cons_2); try apply Forall_nil_2; cbn [route_method route_path route_handler];
    intros Hpost Hm; try discriminate Hpost; clear Hpost; match_cases; subst.
  - unfold createReplicationController, Get. write_steps H.
  - unfold createService, Get. write_steps H.
  - apply reads_allowed, reads_showPodsForm.
  - unfold performPodsAction, Param. rewrite H. cbn [ByName].
    repeat first [apply all_cmds_for_pods; intros; apply (pods_allowed _ ""), pods_perform|prog_step].
  - unfold updateConfig, assign_config, config_deref, SaveKubeConfig, Init, loadKubeConfig, getKubeClient, getConfigOverrides,
      config_deref. repeat first [prog_step|by split|exact I].
  - unfold updatePod, Get. write_steps H.
  - unfold updateReplicationControllerWithPod, Get. write_steps H.
  - unfold updatePodWithReplicationController, Param. rewrite H. cbn [ByName].
    repeat first [apply (pods_allowed _ ("/" +:+ x1 +:+ "/import")), pods_syncPod|prog_step].
  - unfold updateService, Get. write_steps H.
  - unfold deleteService, Get. write_steps H.
  - unfold updateEndpoints, Get. write_steps H.
  - unfold deleteEndpoints, Get. write_steps H.
  - unfold updateReplicationController, Get. write_steps H.
  - unfold deleteReplicationController, Get. write_steps H.
  - unfold updateNode, Get. write_steps H.
  - unfold deleteNode, Get. write_steps H.
Qed.

Lemma routes_in_scope c p r :
  r ∈ routes KubeConfigFile → match_toks (pattern_of (route_path r)) p = Some (Params c) →
  all_cmds (url_allows (method_name (route_method r)) p) (route_handler r c).
Proof.
  intros Hr Hm. destruct (route_method r) eqn:Hmeth.
  - apply reads_allowed. pose proof (reads_routes KubeConfigFile c) as Hall. rewrite Forall_forall in Hall. by apply Hall.
  - pose proof (post_routes_in_scope c p) as Hall. rewrite Forall_forall in Hall. by apply Hall.
Qed.

(** ** Chains *)

(** The commands of a handler function. *)
Fixpoint cmds_func (P : cmd → Prop) (h : HandlerFunc) : Prop :=
  match h with
  | FReturn | FPanic _ | FFatal _ => True
  | FRead k => ∀ c, cmds_func P (k c)
  | FUpdate _ k | FNext k => cmds_func P k
  | FDo c k => P c ∧ ∀ r, cmds_func P (k r)
  | FRecover body rescue => cmds_func P body ∧ cmds_func P rescue
  end.

Lemma all_cmds_eval P next h c :
  cmds_func P h → (∀ c, all_cmds P (next c)) → all_cmds P (eval next h c).
Proof.
  intros Hh Hnext. revert c Hh.
  induction h as [|q|msg|k IH|u k IH|k IH|cm k IH|body IHb rescue IHr]; intros c Hh; simpl in *; auto.
  - apply all_cmds_bind; [apply Hnext|]. intros [[] c']; [by apply IH|done|done].
  - destruct Hh as [Hc Hk]. split; [done|]. intros r. by apply IH, Hk.
  - destruct Hh as [Hb Hr]. apply all_cmds_bind; [by apply IHb|]. intros [[] c']; [done|by apply IHr|done].
Qed.

Lemma all_cmds_Next_loop P fuel hs c : Forall (cmds_func P) hs → all_cmds P (Next_loop fuel hs c).
Proof.
  intros Hhs. revert c. induction fuel as [|fuel IH]; intros c; [done|]. cbn [Next_loop].
  destruct (_ <? wrap8 _); [|done].
  destruct (if c_index c <? 0 then None else _) as [h|] eqn:Hh; [|done].
  apply all_cmds_bind; [|intros [[] c']; [apply IH|done|done]]. apply all_cmds_eval; [|intros c'; apply IH].
  destruct (c_index c <? 0); [done|]. by eapply Forall_lookup_1.
Qed.

Lemma cmds_func_impl (P Q : cmd → Prop) h : (∀ cm, P cm → Q cm) → cmds_func P h → cmds_func Q h.
Proof. intros HPQ. induction h; simpl; naive_solver. Qed.

Lemma registered_cases m pat hs :
  (pat, hs) ∈ registered m →
  (∃ dir, hs = [HLogger; HRecovery; HStatic dir]) ∨ (∃ i, last hs = Some (HConsole i)).
Proof.
  assert (∀ m', (pat, hs) ∈ console_table m' 0 route_table → ∃ i, last hs = Some (HConsole i)) as Hcon.
  { intros m' (j & _ & ->)%elem_of_console_table. by eexists. }
  assert ((pat, hs) ∈ static_table → ∃ dir, hs = [HLogger; HRecovery; HStatic dir]) as Hst.
  { intros (dir & [= -> ->] & _)%list_elem_of_fmap. by eexists. }
  unfold registered. repeat case_bool_decide; [intros [?|?]%elem_of_app; eauto|eauto|eauto|by intros ?%not_elem_of_nil].
Qed.

Lemma sim_all_cmds {A B} (R : A → B → Prop) P (p : prog A) (q : prog B) : sim R p q → all_cmds P q → all_cmds P p.
Proof. induction 1 as [| |c k k' _ IH]; simpl; [done..|]. intros [? ?]. auto. Qed.

Context (pairs : list authPair) (static_func : string → HandlerFunc).

(** C6. A request changes only what its method and path name: whatever its content,
    whatever the handlers do and the cluster answers, only POST requests change the
    cluster or the configuration; pods, controllers, services and endpoints change only
    in the namespace of the path, deletions delete the very object of the path, nodes
    change only below /nodes, and the configuration only at /config/update. *)
Theorem requests_change_only_what_they_name req m p cap tr o :
  (∀ dir, cmds_func (λ cm, is_read cm = true) (static_func dir)) →
  exec (ServeHTTP KubeConfigFile pairs static_func the_trees req m p cap) tr o →
  Forall (λ e, url_allows m p (ev_cmd e)) tr.
Proof.
  intros Hstatic. apply exec_all_cmds. destruct (handleHTTPRequest_spec m p cap) as (out & Ho & Hms).
  unfold ServeHTTP. rewrite Ho. destruct out as [hs ps|code path|]; [|done|].
  2:{ apply all_cmds_bind; [|by intros [[] ?]]. apply all_cmds_Next_loop. repeat constructor; try done. }
  assert ((hs, ps) ∈ matches (table_routes (registered m)) p) as Hin by (rewrite Hms; by apply list_elem_of_singleton).
  apply elem_of_matches in Hin as (pat & Hreg & Hpat).
  destruct (registered_cases m pat hs Hreg) as [(dir & ->)|(i & Hlast)].
  - apply all_cmds_bind; [|by intros [[] ?]]. apply all_cmds_Next_loop.
    apply Forall_cons_2; [by repeat constructor|]. apply Forall_cons_2; [by repeat constructor|].
    apply Forall_singleton. apply (cmds_func_impl (λ cm, is_read cm = true)); [apply read_allowed|apply Hstatic].
  - destruct (registered_console KubeConfigFile m pat hs i Hreg Hlast) as (r & Hr & <- & <- & ->).
    cbn [fmap list_fmap func_of]. rewrite Hr. eapply sim_all_cmds; [apply sim_console_chain|].
    apply all_cmds_recover. unfold BasicAuth. destruct (searchCredential _ _) as [user|]; [|done].
    apply routes_in_scope; [by eapply list_elem_of_lookup_2|done].
Qed.

End scope.

(** ** Witness *)

Section witness.
#[local] Existing Instances demo_KubeApi insertion_GoSort list_MapRange amd64 demo_EventOrder
  demo_TimeFormat demo_JsonApi demo_NodeReference demo_PageRender.

(** Deleting a service. *)
Definition demo_delete : Context := mkContext [] ∅ ∅ ∅ {["Authorization" := "Basic YTpi"]} ∅.

Definition demo_delete_server : prog (ending * Ctx) :=
  ServeHTTP "kubeconfig.json" [mkAuthPair "Basic YTpi" "a"] demo_static the_trees demo_delete
    "POST" "/namespaces/default/services/web/delete" 0.

Definition demo_delete_trace : list event := trace demo_env demo_delete_server demo_start.

Lemma requests_change_only_what_they_name_witness :
  ev_cmd <$> demo_delete_trace = [GetKubeClient; Services_Delete demo_client "default" "web"]
  ∧ Forall (λ e, url_allows "POST" "/namespaces/default/services/web/delete" (ev_cmd e)) demo_delete_trace.
Proof.
  split; [vm_compute; reflexivity|].
  exact (requests_change_only_what_they_name "kubeconfig.json" [mkAuthPair "Basic YTpi" "a"] demo_static demo_delete
    "POST" "/namespaces/default/services/web/delete" 0 _ _ (λ dir, I) (exec_trace demo_env demo_delete_server demo_start)).
Defined.

End witness.
