(* ===== verification/Console.v ===== *)
(** * The console from its start on

    [main] of main.go: the client is set up, the routes are registered, and requests
    are served.  The theorem composes all components: whatever the cluster answers,
    either the start-up fails, or every request of every session gets its response. *)

From stdpp Require Import prelude gmap strings.
From Stdlib Require Import ZArith NArith Ascii.
From S2P Require Import Prelude GoStrings GoSort RadixTree Float64 Api Page Versions KubeUtil Client Render PodActions Http Handlers Demo Routes Router Safety Engine Serving Frontend.

Local Open Scope Z_scope.

(** ** Handler functions that survive *)

Section survival.
Context `{K : KubeApi}.

(** No fatal log as long as a client is set, and no assignment of nil to it. *)
Fixpoint survives_func (h : HandlerFunc) : Prop :=
  match h with
  | FReturn | FPanic _ => True
  | FFatal _ => False
  | FRead k => ∀ c, survives_func (k c)
  | FUpdate _ k | FNext k => survives_func k
  | FDo c k => c ≠ SetKubeClient None ∧ ∀ r, client_set c r → survives_func (k r)
  | FRecover body rescue => survives_func body ∧ survives_func rescue
  end.

Lemma survives_Ret {A} (a : A) : survives (Ret a).
Proof. done. Qed.

Lemma survives_eval next h c :
  survives_func h → (∀ c, survives (next c)) → survives (eval next h c).
Proof.
  intros Hh Hnext. revert c Hh.
  induction h as [|p|msg|k IH|u k IH|k IH|cm k IH|body IHb rescue IHr]; intros c Hh; simpl in *; auto.
  - done.
  - apply survives_bind; [apply Hnext|]. intros [[] c']; [by apply IH|done|done].
  - destruct Hh as [Hc Hk]. split; [done|]. intros r Hr. by apply IH, Hk.
  - destruct Hh as [Hb Hr]. apply survives_bind; [by apply IHb|]. intros [[] c']; [done|by apply IHr|done].
Qed.

Lemma survives_Next_loop fuel hs c : Forall survives_func hs → survives (Next_loop fuel hs c).
Proof.
  intros Hhs. revert c. induction fuel as [|fuel IH]; intros c; [done|]. cbn [Next_loop].
  destruct (_ <? wrap8 _); [|done].
  destruct (if c_index c <? 0 then None else _) as [h|] eqn:Hh; [|done].
  apply survives_bind; [|intros [[] c']; [apply IH|done|done]]. apply survives_eval; [|intros c'; apply IH].
  destruct (c_index c <? 0); [done|]. by eapply Forall_lookup_1.
Qed.

Lemma survives_serve_chain hs c : Forall survives_func hs → survives (serve_chain hs c).
Proof.
  intros Hhs. unfold serve_chain. apply survives_bind; [by apply survives_Next_loop|]. by intros [[] c'].
Qed.

Lemma survives_serveError hs code msg c : Forall survives_func hs → survives (serveError hs code msg c).
Proof.
  intros Hhs. unfold serveError. apply survives_bind; [by apply survives_Next_loop|]. by intros [[] c'].
Qed.

Lemma survives_writes `{PR : !PageRender} chunks k : survives_func k → survives_func (writes chunks k).
Proof. intros Hk. by induction chunks. Qed.

Lemma survives_headers `{PR : !PageRender} hs k : survives_func k → survives_func (headers_func hs k).
Proof. intros Hk. induction hs as [|[] hs IH]; simpl; auto. Qed.

Lemma survives_render `{PR : !PageRender} r : survives_func (render_func r).
Proof.
  destruct r as [code name obj|code loc|code hs]; simpl.
  - destruct (ExecuteTemplate name obj) as [chunks [e|]]; by apply survives_writes.
  - destruct (valid_redirect code); [|done]. intros c. destruct (http_Redirect _ _ _ _) as [loc' body].
    simpl. by apply survives_writes.
  - by apply survives_headers.
Qed.

Lemma survives_of_prog `{PR : !PageRender} p : survives p → survives_func (of_prog p).
Proof.
  induction p as [r|[e|msg]|c k IH]; simpl; [intros _; apply survives_render|done| |].
  - intros Hf. by destruct (Hf msg).
  - intros [Hc Hk]. split; [done|]. auto.
Qed.

(** Where a client is set, a surviving program runs to its end. *)
Lemma run_survives {S A} (env : ∀ c, S → resp c * S) (Inv : S → Prop) (Q : A → Prop) (p : prog A) s :
  (∀ c s, Inv s → client_set c (env c s).1) →
  (∀ c s, Inv s → c ≠ SetKubeClient None → Inv (env c s).2) →
  survives p → post Q p → Inv s → ∃ a s', run env p s = (Val a, s') ∧ Inv s' ∧ Q a.
Proof.
  intros Hans Hinv. revert s. induction p as [a|[e|msg]|c k IH]; intros s Hp HQ Hs; simpl in *.
  - by exists a, s.
  - done.
  - by destruct (Hp msg).
  - destruct Hp as [Hc Hk]. pose proof (Hans c s Hs) as Hr. pose proof (Hinv c s Hs Hc) as Hs'.
    destruct (env c s) as [r s']. simpl in *. by apply IH; [apply Hk| |].
Qed.

End survival.

(** ** The program *)

Section console.
Context `{K : KubeApi, GSL : GoSortLaws, MR : MapRange, PF : Platform, EO : EventOrder, TF : TimeFormat,
          J : !JsonApi, NR : !NodeReference, PR : !PageRender}.
Context (KubeConfigFile : string) (pairs : list authPair) (static_func : string → HandlerFunc).

(** A request: its content, method and path, and the capacity of the parameter slice
    of the context it gets from the pool. *)
Definition request : Type := (Context * string * string * nat)%type.

(** What the listener of RunTLS does with the requests it accepts; here they come one
    after the other (Concurrent.v interleaves them). *)
Fixpoint serve_all (trees : methodTrees) (reqs : list request) : prog (list (ending * Ctx)) :=
  match reqs with
  | [] => Ret []
  | (req, m, p, cap) :: reqs =>
      ec ← ServeHTTP KubeConfigFile pairs static_func trees req m p cap;
      ecs ← serve_all trees reqs;
      Ret (ec :: ecs)
  end.

(** The flags give [KubeConfigFile], the accounts [pairs] and the templates
    [PageRender]; an error in making the certificate is only logged. *)
Definition main (reqs : list request) : prog (list (ending * Ctx)) :=
  Init KubeConfigFile;;
  trees ← lift main_trees;
  serve_all trees reqs.

Context (static_linear : ∀ dir, linear true (static_func dir)).
Context (static_survives : ∀ dir, survives_func (static_func dir)).

Lemma survives_func_of x : survives_func (func_of KubeConfigFile pairs static_func x).
Proof.
  destruct x as [| | |dir|i]; cbn [func_of]; [|done| |apply static_survives|].
  - intros c c'. by case_bool_decide.
  - intros c. by destruct (searchCredential _ _).
  - destruct (routes KubeConfigFile !! i) as [r|] eqn:Hr; [|done]. intros c. apply survives_of_prog.
    pose proof (survives_routes KubeConfigFile (c_request c)) as Hall. by eapply Forall_lookup_1 in Hall.
Qed.

Lemma survives_ServeHTTP req m p cap :
  survives (ServeHTTP KubeConfigFile pairs static_func the_trees req m p cap).
Proof.
  destruct (handleHTTPRequest_spec m p cap) as (o & Ho & _). unfold ServeHTTP. rewrite Ho.
  assert (∀ hs, Forall survives_func (func_of KubeConfigFile pairs static_func <$> hs)) as Hhs.
  { intros hs. apply Forall_fmap, Forall_true. intros x. apply survives_func_of. }
  destruct o as [hs ps|code path|]; [by apply survives_serve_chain|done|by apply survives_serveError].
Qed.

Context {S : Type} (env : ∀ c, S → resp c * S) (Inv : S → Prop).
Context (Hans : ∀ c s, Inv s → client_set c (env c s).1).
Context (Hinv : ∀ c s, Inv s → c ≠ SetKubeClient None → Inv (env c s).2).
Context (Hset : ∀ cl s, Inv (env (SetKubeClient (Some cl)) s).2).

(** The last command of a program that returned. *)
Lemma run_bind_Val {A B} (p : prog A) (f : A → prog B) s b s' :
  run env (p ≫= f) s = (Val b, s') → ∃ a s1, run env (f a) s1 = (Val b, s').
Proof. rewrite run_bind. destruct (run env p s) as [[a|h] s1]; [by eauto|done]. Qed.

(** A successful start-up has set a client. *)
Lemma Init_sets_client s u s' : run env (Init KubeConfigFile) s = (Val u, s') → Inv s'.
Proof.
  intros (cfg & s1 & Hrun)%run_bind_Val. apply run_bind_Val in Hrun as ([] & s2 & Hrun).
  apply run_bind_Val in Hrun as (cl & s3 & Hrun). simpl in Hrun. pose proof (Hset cl s3) as Hs.
  destruct (env (SetKubeClient (Some cl)) s3) as [r s4]. by injection Hrun as _ <-.
Qed.

Lemma run_serve_all reqs s :
  Inv s → ∃ ecs s', run env (serve_all the_trees reqs) s = (Val ecs, s') ∧ Inv s'
    ∧ length ecs = length reqs ∧ Forall answered ecs.
Proof.
  revert s. induction reqs as [|[[[req m] p] cap] reqs IH]; intros s Hs; [by exists [], s|]. cbn [serve_all].
  destruct (run_survives env Inv answered (ServeHTTP KubeConfigFile pairs static_func the_trees req m p cap) s)
    as (ec & s1 & Hrun & Hs1 & Hec); [done|done|apply survives_ServeHTTP|by apply ServeHTTP_answers|done|].
  destruct (IH s1 Hs1) as (ecs & s' & Hrun' & Hs' & Hlen & Hecs).
  exists (ec :: ecs), s'. rewrite run_bind, Hrun, run_bind, Hrun'. simpl. auto using Forall_cons.
Qed.

(** C4. The console serves every session: started in any state of the world, either
    the set-up of the client fails and the process ends there, or it goes on to answer
    every request of every sequence, each with one response, and a client is set at
    the end.  The environment is only assumed to keep the client that was set. *)
Theorem console_serves_every_request reqs s0 :
  match run env (Init KubeConfigFile) s0 with
  | (Halt h, s') => run env (main reqs) s0 = (Halt h, s')
  | (Val _, _) => ∃ ecs s', run env (main reqs) s0 = (Val ecs, s') ∧ Inv s'
      ∧ length ecs = length reqs ∧ Forall answered ecs
  end.
Proof.
  destruct (run env (Init KubeConfigFile) s0) as [[u|h] s1] eqn:Hinit; unfold main; rewrite run_bind, Hinit; [|done].
  rewrite main_trees_Val. apply run_serve_all. by eapply Init_sets_client.
Qed.

End console.

(** ** Witness *)

Section witness.
#[local] Existing Instances demo_KubeApi insertion_GoSort insertion_GoSortLaws list_MapRange amd64 demo_EventOrder
  demo_TimeFormat demo_JsonApi demo_NodeReference demo_PageRender.

(** No client yet. *)
Definition demo_cold : demo_state := set_client None demo_nil_start.

(** A page without a route, a request that panics, and a static file. *)
Definition demo_session : list request :=
  [(demo_get, "GET", "/nowhere", 0%nat); (demo_stop_request, "POST", "/namespaces/default/pods", 1%nat);
   (demo_get, "GET", "/js/app.js", 0%nat)].

Definition demo_pairs : list authPair := [mkAuthPair "Basic YTpi" "a"].

Definition codes (r : go (list (ending * Ctx))) : list (option Z) :=
  match r with
  | Val ecs => (λ ec, match w_wire (c_writer ec.2) with WHeader code _ :: _ => Some code | _ => None end) <$> ecs
  | Halt _ => []
  end.

Lemma demo_env_sets cl s : is_Some (st_client (demo_env (SetKubeClient (Some cl)) s).2).
Proof. by exists cl. Qed.

Lemma console_serves_every_request_witness :
  codes (run demo_env (main "kubeconfig.json" demo_pairs demo_static demo_session) demo_cold).1
    = [Some 404; Some 500; Some 200]
  ∧ ∃ ecs s', run demo_env (main "kubeconfig.json" demo_pairs demo_static demo_session) demo_cold = (Val ecs, s')
    ∧ is_Some (st_client s') ∧ length ecs = 3%nat ∧ Forall answered ecs.
Proof.
  split; [vm_cast_no_check (eq_refl [Some 404; Some 500; Some 200])|].
  exact (console_serves_every_request "kubeconfig.json" demo_pairs demo_static (λ _, I) (λ _, I) demo_env
    (λ s, is_Some (st_client s)) demo_env_answers demo_env_client demo_env_sets demo_session demo_cold).
Defined.

End witness.
